(* ===== verification/_CoqProject ===== *)
-Q . S2P
Prelude.v
Encoding.v
LogFormat.v
Os.v
LogFile.v
LogFileProofs.v
LogFileRecovery.v
LogFileIndex.v
LogStore.v
StorePositions.v
LogStoreProofs.v
StoreLifecycle.v
StoreLoad.v
StoreRegistry.v
VerificationTable.v
VerificationTableProofs.v
VerificationTableSystem.v
Transaction.v
TransactionProofs.v
TransactionLife.v
TransactionIntents.v
PutMany.v
Locks.v
LocksSystem.v
LocksProofs.v
DbRegistry.v
DbRegistryProofs.v
Json.v
EventEmitter.v
EventReferences.v
EventEmitterProofs.v
EventDelivery.v
Iterator.v
IteratorProofs.v
BackupLogs.v
BackupLogsProofs.v
BackupStream.v
BackupStreamProofs.v
BackupHandshake.v
VerifiedRead.v
VerifiedReadSystem.v
VerifiedReadPrograms.v
VerifiedReadProofs.v
VerifiedReadTable.v
VerifiedReadClaims.v
BackupDir.v
BackupDirSystem.v
BackupDirProofs.v
AsyncWork.v
AsyncWorkSystem.v
AsyncWorkProofs.v
FlushListener.v
LogHandle.v
SharedBuffers.v
Timestamps.v
Settings.v
LogRefs.v
Arguments.v
