(* ===== verification/Prelude.v ===== *)
(** * rocksdb-js: verification of the native binding's core

    rocksdb-js is a Node.js binding for RocksDB.  Its C++ part (src/src/binding/)
    adds to RocksDB a write-ahead transaction log per database, an optimistic
    transaction layer that stages log entries and commits them, and a table that
    says which cached record versions are still current.  This library models that
    C++ code and proves what makes it correct.

    ** The parts of the program and their models

    - [Prelude]: machine integers, doubles as bit patterns, the state and error
      monad [M], its two program logics ([keeps] for invariants that survive
      exceptions, [triple] for pre- and postconditions), ordered maps for
      [std::map].
    - [Encoding]: core/encoding.h, the big-endian readers and writers.
    - [LogFormat]: transaction_log_entry.h (entries, batches) and
      transaction_log_recovery.h/.cpp (the scan of a file image).
    - [Os]: the POSIX calls over a world of named files, and
      tryCreateDirectory of core/platform.cpp.
    - [LogFile]: transaction_log_file.h/.cpp and transaction_log_file_posix.cpp,
      one log file; [LogFileProofs], [LogFileRecovery], [LogFileIndex] prove the
      batch write, opening and recovery, the memory maps and the timestamp index.
    - [LogStore]: transaction_log_store.h/.cpp, the files of one log;
      [StorePositions] (committed and flushed positions), [LogStoreProofs]
      (writing), [StoreLifecycle] (purging and closing), [StoreLoad] (loading).
    - [StoreRegistry]: transaction_log_store_registry.h/.cpp, the log stores of
      the process by database path.
    - [VerificationTable]: core/verification_table.h/.cpp;
      [VerificationTableProofs] and [VerificationTableSystem] treat its concurrent
      use.
    - [Transaction]: transaction_handle.h/.cpp, transaction.cpp, the transaction
      list of db_descriptor.cpp and the work count of napi/async.h;
      [TransactionProofs], [TransactionLife], [TransactionIntents] and [PutMany]
      prove its operations, its life under every interleaving, its write intents
      and the parser of the batched put.
    - [Locks]: the key locks of a descriptor (db_descriptor.h/.cpp, and hasLock,
      tryLock, unlock and withLock of database.cpp); [LocksSystem] splits them into
      the atomic actions of threads, [LocksProofs] proves them.
    - [DbRegistry]: db_registry.h/.cpp, the open and close of db_descriptor.cpp and
      db_handle.cpp; [DbRegistryProofs] treats its threads.
    - [VerifiedRead]: the reads that the verification table answers (database.h,
      database.cpp, transaction.cpp, transaction_handle.cpp) as programs, one request
      per shared access; [VerifiedReadSystem], [VerifiedReadPrograms],
      [VerifiedReadProofs], [VerifiedReadTable] run and verify them over interfaces of
      the table and of RocksDB, [VerifiedReadClaims] has the theorems.
    - [Json], [EventEmitter], [EventReferences], [EventEmitterProofs],
      [EventDelivery]: core/json.h and napi/event_emitter.h/.cpp.
    - [Iterator], [IteratorProofs]: iterator/, and the counting of entries.
    - [BackupLogs], [BackupLogsProofs]: backup_transaction_logs.cpp.
    - [BackupStream], [BackupStreamProofs], [BackupHandshake]: backup_stream.cpp, its
      worker and the handshake of its two threads.
    - [BackupDir], [BackupDirSystem], [BackupDirProofs]: backup.cpp and
      core/file_lock.cpp, with the lock of src/backup.ts: the processes and threads
      that write backup directories.
    - [AsyncWork]: napi/async.h; [AsyncWorkSystem], [AsyncWorkProofs]: the work of the
      asynchronous methods, checkpoint.cpp included, with the closes of a handle, the
      operation guards of database.h and the teardown of a descriptor.
    - [FlushListener]: the flush listener of db_descriptor.cpp.
    - [LogHandle]: transaction_log_handle.cpp and the methods of transaction_log.cpp;
      [LogRefs]: the references of a handle to these objects (db_handle.cpp).
    - [SharedBuffers]: the user shared buffers of db_descriptor.h/.cpp.
    - [Timestamps]: getMonotonicTimestamp of core/platform.cpp.
    - [Settings]: db_settings.h/.cpp.
    - [Arguments]: keys and names as arguments, of napi/helpers.h/.cpp.

    A transaction stages entries in its [TransactionLogEntryBatch]; the commit
    calls [writeBatch] of the bound [LogStore.Store], which splits the batch over
    [TransactionLogFile]s; after the RocksDB commit it calls [commitFinished],
    which moves the committed position and pairs it with the RocksDB sequence
    number for [databaseFlushed].  A put registers a write intent in the
    verification table, released at commit or close.

    ** How code becomes definitions

    A C++ class is a record of its fields, a method a function in the monad
    [M S A := S -> (exn + A) * S] on the state it can touch; an exception keeps
    the changes made before it.  A [uintN_t] is a [Z] with its wrap-around written
    out; a [double] is its 64-bit pattern where only its order and its bytes
    matter, and a [SpecFloat] where the code computes with it.  A map keyed by
    numbers is a sorted association list, as its iteration order matters.
    Pointers are keys of a heap; following one that is null or freed is an error
    of the model, so a theorem that a call returns also says it follows no such
    pointer.  A method that holds a mutex throughout is one atomic function; one
    that releases it in between is a definition per phase ([tryClose1] to
    [tryClose4], [purge_collect] to [purge_remove], [Commit], [Commit_execute],
    [Commit_complete]), and the theorems on concurrency quantify over what other
    threads do between them.  Where a method takes many such steps it is a program, a
    tree of requests and answers ([VerifiedRead], [BackupDir]), or the steps are the
    rules of a relation, and the invariants are proved by induction on the runs.

    ** Parameters

    Code outside src/ is a parameter, mostly with no assumption beyond its type:
    [Os] (which system calls fail, how many bytes a write accepts, what the clock
    reads), [Rocks] and [RocksDb] (the result of every RocksDB call, as a function of
    all calls before), [Napi] (the status of each call of the runtime), [Alloc] (the
    addresses of new lock trackers, aligned and not in use), [BackupEnv] and
    [StreamEnv] (the file system and the rest of the process during a backup), the
    directory listings, the clock.  Where a theorem needs documented behaviour, it is
    a class of laws with an instance: [RocksIterLaws] (a RocksDB iterator), [MvccLaws]
    (snapshots), [JsonLaws] (JSON.parse on strings).  [SlotTableLaws] is the interface
    of the verification table to its readers, which the table's model fulfils.
    Theorems about success name the calls that must succeed; each has a witness with
    a concrete instance, mostly [os_reliable].

    ** What the theorems show

    - Log format and files: the scan classifies every image and terminates; what
      is written is what is read; recovery keeps every complete frame and cuts
      only a torn tail; the mapping shows the file; the index finds the first
      entry from a time on.
    - Log store: it refines an append-only list of frames; loading restores it in
      any directory order, less the files past the retention; while the next
      position does not move back, which a rotation makes it do, the committed
      position never passes an open transaction; the flushed position is never past
      the flush, with a bound on how far behind it is; a purge keeps files with bytes
      that are not flushed, for files whose size the store knows.
    - Registry: it refines a count of users per path; resolving gives the open
      store of a name.
    - Verification table: no tracker is used after it was freed, none is leaked,
      no waiter is forgotten, a populate fails when a write came in between.
    - Transactions: the log is written at most once; a Committed handle had RocksDB
      commit, and the states Committed and Aborted are final unless a close ran
      beside a commit; write intents are restored at close, and pending
      counts when no log write failed; a put invalidates its key.
    - Key locks: while no key is released under a running callback, one callback of a
      key runs at a time, in the order asked for, and none is forgotten that the
      runtime takes; a completion hands over or removes the lock, unless the runtime
      is closing.
    - Database registry: no database is closed under an open handle, none twice.
    - Verified reads: a version in the table is the version of the latest value and of
      what every open snapshot sees; a synchronous read that answers "fresh" is right,
      among readers and writers that use the table.
    - Events: the count of listeners is exact; references are deleted once and have
      one owner; a JSON literal holds its text; payloads arrive unchanged and are
      freed.
    - Iterators return the entries of their range, in order, once.
    - Backups: a directory holds a whole snapshot or none, wherever a crash stops it and
      whatever fails but the removal of partial files and the check that a file exists;
      a stream carries the captured bytes of all it found; its two threads neither
      hang nor use freed memory; a directory has one writer, over processes.
    - Asynchronous work: a close waits for it, unless an asynchronous get breaks its
      count, the teardown for the operations in flight; a promise is settled at most once; the wait ends.
    - Flush listener: a flush job is reported to the log stores once, at its end.
    - Log objects: an entry is staged in its transaction and bound to the open store;
      references to log objects are neither leaked nor used after deletion.
    - Shared buffers of a key share their memory, which outlives them; timestamps
      increase over all threads; the write buffer manager and the verification table
      agree with the settings; the range of a buffer argument is inside the buffer.
    - Theorems that state a flaw ([retry_loses_entries], [commit_sync_stuck],
      [rotation_exposes_uncommitted], [try_close_misses_writer],
      [write_batch_spins], [purge_depends_on_listing], [close_race_commits_aborted],
      [unlock_breaks_exclusion], [get_outlives_close], [two_caches],
      [failed_remove_publishes_partial] and others) run the model on the sequence of
      calls that shows it.  A theorem that such a run limits names it in its comment.

    ** Fuel

    Loops whose end the code does not bound structurally take fuel: the write loop
    of [writeBatch], the scan of a file image, the index loop, the retry loops.
    Running out is an error value that no theorem accepts: [write_batch_appends]
    and the scan theorems prove that a stated amount is enough, and
    [write_batch_spins] that for two configurations no amount is.

    ** Not modelled

    The Windows build of the log file and of the file lock (the POSIX build is
    modelled); module start-up, the declaration of the JavaScript classes and the
    conversion of numbers, options and results, which are calls of the runtime; the
    options RocksDB is opened with, column family options, statistics; clear, compact
    and drop, which forward to RocksDB; logging and the printing of values for
    debugging.  Weak memory is not modelled: an atomic access is one step of the
    interleaving; [fsync] is a call that can fail, and what it makes durable is not
    modelled; a [pread] that succeeds is short only at the end of the file. *)

From stdpp Require Import base tactics list gmap strings pretty sorting.
From coqutil Require Import Byte.
From Stdlib Require Import ZArith Lia.

Local Open Scope Z_scope.

(** ** Machine integers

    A [uintN_t] is a [Z] in [[0, 2^N)]; every operation that can leave that
    range is written with its wrap-around. *)

Definition u8 (z : Z) : Z := z mod 2 ^ 8.
Definition u16 (z : Z) : Z := z mod 2 ^ 16.
Definition u32 (z : Z) : Z := z mod 2 ^ 32.
Definition u64 (z : Z) : Z := z mod 2 ^ 64.

Definition is_u8 (z : Z) : Prop := 0 <= z < 2 ^ 8.
Definition is_u32 (z : Z) : Prop := 0 <= z < 2 ^ 32.
Definition is_u64 (z : Z) : Prop := 0 <= z < 2 ^ 64.

Create HintDb rdb discriminated.

Lemma u32_small z : is_u32 z -> u32 z = z.
Proof. apply Z.mod_small. Qed.

Lemma u64_small z : is_u64 z -> u64 z = z.
Proof. apply Z.mod_small. Qed.

Lemma u32_range z : is_u32 (u32 z).
Proof. apply Z.mod_pos_bound. lia. Qed.

Lemma u64_range z : is_u64 (u64 z).
Proof. apply Z.mod_pos_bound. lia. Qed.

#[export] Hint Resolve u32_range u64_range : rdb.

(** ** Bit-level reasoning

    Facts about masks and shifts of words, proved by comparing bits. *)

Lemma testbit_high z n i : 0 <= z < 2 ^ n -> n <= i -> Z.testbit z i = false.
Proof.
  intros Hz Hi. destruct (Z.eq_dec z 0) as [->|Hnz]; [apply Z.bits_0|].
  apply Z.bits_above_log2; [lia|].
  apply Z.log2_lt_pow2; [lia|].
  eapply Z.lt_le_trans; [apply Hz|]. apply Z.pow_le_mono_r; lia.
Qed.

Lemma land_ones_low z n : 0 <= n -> 0 <= z < 2 ^ n -> Z.land z (Z.ones n) = z.
Proof. intros Hn Hz. rewrite Z.land_ones by lia. by apply Z.mod_small. Qed.

Lemma land_shiftl_disjoint a b n :
  0 <= n -> 0 <= a < 2 ^ n -> Z.land a (Z.shiftl b n) = 0.
Proof.
  intros Hn Ha. apply Z.bits_inj'. intros i Hi.
  rewrite Z.land_spec, Z.bits_0, Z.shiftl_spec by lia.
  destruct (decide (i < n)).
  - rewrite (Z.testbit_neg_r b) by lia. apply andb_false_r.
  - by rewrite (testbit_high a n) by lia.
Qed.

Lemma lor_shiftl_add a b n :
  0 <= n -> 0 <= a < 2 ^ n -> Z.lor a (Z.shiftl b n) = a + b * 2 ^ n.
Proof.
  intros Hn Ha. rewrite <- Z.shiftl_mul_pow2 by lia.
  pose proof (land_shiftl_disjoint a b n Hn Ha) as Hd.
  by rewrite Z.add_nocarry_lxor, Z.lxor_lor by exact Hd.
Qed.

(** ** Doubles

    A [double] is its IEEE-754 bit pattern, a 64-bit word.  The code only
    compares doubles; the comparisons are the sign-magnitude ones, unordered
    on NaN, with [-0.0 == 0.0]. *)

Definition f64_magnitude (d : Z) : Z := Z.land d (Z.ones 63).
Definition f64_is_nan (d : Z) : bool := 0x7FF0000000000000 <? f64_magnitude d.
Definition f64_key (d : Z) : Z :=
  if Z.testbit d 63 then - f64_magnitude d else f64_magnitude d.
Definition f64_eqb (a b : Z) : bool :=
  negb (f64_is_nan a) && negb (f64_is_nan b) && (f64_key a =? f64_key b).
Definition f64_ltb (a b : Z) : bool :=
  negb (f64_is_nan a) && negb (f64_is_nan b) && (f64_key a <? f64_key b).

(** The pattern of [+0.0]. *)
Definition f64_zero : Z := 0.

(** Patterns of the finite doubles that are not negative: below the pattern of
    infinity they are ordered as integers. *)
Definition f64_nonneg (d : Z) : Prop := 0 <= d <= 0x7FF0000000000000.

Lemma f64_key_nonneg d : f64_nonneg d -> f64_key d = d.
Proof.
  unfold f64_nonneg, f64_key, f64_magnitude. intros Hd.
  rewrite (testbit_high d 63) by lia. apply land_ones_low; lia.
Qed.

Lemma f64_not_nan_nonneg d : f64_nonneg d -> f64_is_nan d = false.
Proof.
  unfold f64_nonneg, f64_is_nan, f64_magnitude. intros Hd.
  rewrite land_ones_low by lia. lia.
Qed.

Lemma f64_ltb_nonneg a b :
  f64_nonneg a -> f64_nonneg b -> f64_ltb a b = (a <? b).
Proof.
  intros Ha Hb. unfold f64_ltb.
  by rewrite !f64_not_nan_nonneg, !f64_key_nonneg.
Qed.

Lemma f64_eqb_nonneg a b :
  f64_nonneg a -> f64_nonneg b -> f64_eqb a b = (a =? b).
Proof.
  intros Ha Hb. unfold f64_eqb.
  by rewrite !f64_not_nan_nonneg, !f64_key_nonneg.
Qed.

Lemma f64_ltb_irrefl a : f64_ltb a a = false.
Proof. unfold f64_ltb. rewrite Z.ltb_irrefl. apply andb_false_r. Qed.

Lemma f64_ltb_trans a b c :
  f64_ltb a b = true -> f64_ltb b c = true -> f64_ltb a c = true.
Proof. unfold f64_ltb. rewrite !andb_true_iff, !Z.ltb_lt. intuition lia. Qed.

(** ** Errors

    A C++ exception is a value of [exn]; a method that may throw is a state
    transformer whose result is a sum.  The state reached when the exception
    was raised is kept: members assigned before the [throw] stay assigned. *)

Inductive exn : Type :=
| DBException (msg : string)
| FilesystemError (msg : string)
| OutOfRange (msg : string)    (* an access outside its object *)
| Diverges (msg : string).     (* a loop that never exits *)

#[export] Instance exn_eq_dec : EqDecision exn.
Proof. solve_decision. Defined.

Definition M (S A : Type) : Type := S -> (exn + A) * S.

#[export] Instance M_ret S : MRet (M S) := fun A a s => (inr a, s).
#[export] Instance M_bind S : MBind (M S) := fun A B f m s =>
  match m s with
  | (inr a, s') => f a s'
  | (inl e, s') => (inl e, s')
  end.

Definition get {S} : M S S := fun s => (inr s, s).
Definition put {S} (s : S) : M S unit := fun _ => (inr tt, s).
Definition gets {S A} (f : S -> A) : M S A := fun s => (inr (f s), s).
Definition modify {S} (f : S -> S) : M S unit := fun s => (inr tt, f s).
Definition throw {S A} (e : exn) : M S A := fun s => (inl e, s).

(** [try m catch h]: the handler runs in the state the exception left. *)
Definition catch {S A} (m : M S A) (h : exn -> M S A) : M S A := fun s =>
  match m s with
  | (inl e, s') => h e s'
  | r => r
  end.

Definition when {S} (b : bool) (m : M S unit) : M S unit :=
  if b then m else mret tt.

(** Run a monadic computation on a state, as far as its head is known. *)
Ltac mrun :=
  unfold when, mbind, mret, M_bind, M_ret, get, put, gets, modify, throw, catch;
  cbv beta iota.
Tactic Notation "mrun" "in" hyp(H) :=
  unfold when, mbind, mret, M_bind, M_ret, get, put, gets, modify, throw, catch in H;
  cbv beta iota in H.

(** One step of a computation, from what its head is known to do. *)
Lemma bind_run {S A B} (m : M S A) (k : A -> M S B) st a st' :
  m st = (inr a, st') -> (x ← m; k x) st = k a st'.
Proof. intros H. unfold mbind, M_bind. by rewrite H. Qed.

Lemma bind_inv {S A B} (m : M S A) (k : A -> M S B) st b st' :
  (x ← m; k x) st = (inr b, st') -> exists a st1, m st = (inr a, st1) /\ k a st1 = (inr b, st').
Proof. unfold mbind, M_bind. destruct (m st) as [[e|a] st1]; [done|]. by exists a, st1. Qed.

Lemma bind_fail {S A B} (m : M S A) (k : A -> M S B) st e st' :
  m st = (inl e, st') -> (x ← m; k x) st = (inl e, st').
Proof. intros H. unfold mbind, M_bind. by rewrite H. Qed.

(** ** Invariants of methods

    [keeps P m Q]: whatever [m] does, also when it throws, [P] stays true of the
    state, and a result satisfies [Q]. *)

Definition keeps {S A} (P : S -> Prop) (m : M S A) (Q : A -> Prop) : Prop :=
  forall st, P st -> P (snd (m st)) /\ (forall a, fst (m st) = inr a -> Q a).

Section Keeps.
Context {S : Type} (P : S -> Prop).

Lemma keeps_ret {A} (a : A) (Q : A -> Prop) : Q a -> keeps P (mret a) Q.
Proof. intros HQ st HP. split; [done|]. by intros ? [= <-]. Qed.

Lemma keeps_bind {A B} (m : M S A) (k : A -> M S B) Q R :
  keeps P m Q -> (forall a, Q a -> keeps P (k a) R) -> keeps P (a ← m; k a) R.
Proof.
  intros Hm Hk st HP. destruct (Hm st HP) as [HP1 HQ]. unfold mbind, M_bind in *.
  destruct (m st) as [[e|a] st1]; simpl in *; [done|]. by apply Hk; [apply HQ|].
Qed.

Lemma keeps_assoc {A B C} (m : M S A) (f : A -> M S B) (g : B -> M S C) Q :
  keeps P (a ← m; b ← f a; g b) Q -> keeps P (b ← (a ← m; f a); g b) Q.
Proof.
  intros H st HP. specialize (H st HP). unfold mbind, M_bind in *. by destruct (m st) as [[e|a] st1].
Qed.

Lemma keeps_catch {A} (m : M S A) (h : exn -> M S A) Q :
  keeps P m Q -> (forall e, keeps P (h e) Q) -> keeps P (catch m h) Q.
Proof.
  intros Hm Hh st HP. destruct (Hm st HP) as [HP1 HQ]. unfold catch in *.
  destruct (m st) as [[e|a] st1]; simpl in *; [by apply Hh|]. split; [done|]. by intros ? [= <-]; apply HQ.
Qed.

Lemma keeps_gets {A} (g : S -> A) (Q : A -> Prop) : (forall st, P st -> Q (g st)) -> keeps P (gets g) Q.
Proof. intros H st HP. split; [done|]. intros ? [= <-]. by apply H. Qed.

Lemma keeps_modify (h : S -> S) : (forall st, P st -> P (h st)) -> keeps P (modify h) (fun _ => True).
Proof. intros H st HP. split; [by apply H|done]. Qed.

Lemma keeps_when b (m : M S unit) : keeps P m (fun _ => True) -> keeps P (when b m) (fun _ => True).
Proof. intros H. destruct b; [done|]. by apply keeps_ret. Qed.

Lemma keeps_weaken {A} (m : M S A) (Q R : A -> Prop) : keeps P m Q -> (forall a, Q a -> R a) -> keeps P m R.
Proof. intros H HQR st HP. destruct (H st HP) as [? HQ]. split; [done|]. intros a Ha. auto. Qed.
End Keeps.

(** [triple P m Q E]: from [P], [m] ends in [Q] with its result, or throws and
    ends in [E]. *)
Definition triple {S A} (P : S -> Prop) (m : M S A) (Q : A -> S -> Prop) (E : S -> Prop) : Prop :=
  forall st, P st -> match m st with (inr a, st') => Q a st' | (inl _, st') => E st' end.

Section Triple.
Context {S : Type}.

Lemma triple_ret {A} (P : S -> Prop) (a : A) Q E : (forall st, P st -> Q a st) -> triple P (mret a) Q E.
Proof. intros H st HP. by apply H. Qed.

Lemma triple_bind {A B} (P : S -> Prop) (m : M S A) (k : A -> M S B) R Q E :
  triple P m R E -> (forall a, triple (R a) (k a) Q E) -> triple P (a ← m; k a) Q E.
Proof.
  intros Hm Hk st HP. specialize (Hm st HP). unfold mbind, M_bind. destruct (m st) as [[e|a] st']; [done|].
  exact (Hk a st' Hm).
Qed.

Lemma triple_throw {A} (P E : S -> Prop) e (Q : A -> S -> Prop) : (forall st, P st -> E st) -> triple P (throw e) Q E.
Proof. intros H st HP. by apply H. Qed.

Lemma triple_gets {A} (P : S -> Prop) (g : S -> A) (Q : A -> S -> Prop) E :
  (forall st, P st -> Q (g st) st) -> triple P (gets g) Q E.
Proof. intros H st HP. by apply H. Qed.

Lemma triple_modify (P : S -> Prop) (f : S -> S) (Q : unit -> S -> Prop) E :
  (forall st, P st -> Q tt (f st)) -> triple P (modify f) Q E.
Proof. intros H st HP. by apply H. Qed.

Lemma triple_keeps {A} (P E : S -> Prop) (m : M S A) (Q : A -> Prop) :
  keeps P m Q -> (forall st, P st -> E st) -> triple P m (fun a st => P st /\ Q a) E.
Proof.
  intros Hm HE st HP. destruct (Hm st HP) as [HP' HQ]. destruct (m st) as [[e|a] st']; [by apply HE|]. split; auto.
Qed.

Lemma triple_conseq {A} (P P' : S -> Prop) (m : M S A) (Q Q' : A -> S -> Prop) (E E' : S -> Prop) :
  triple P m Q E -> (forall st, P' st -> P st) -> (forall a st, Q a st -> Q' a st) -> (forall st, E st -> E' st) ->
  triple P' m Q' E'.
Proof.
  intros Hm HP HQ HE st Hst. specialize (Hm st (HP st Hst)). destruct (m st) as [[e|a] st']; auto.
Qed.
End Triple.

(** ** Strings *)

#[local] Arguments String.append !_ _ : simpl nomatch.

Lemma append_length (a b : string) : String.length (a +:+ b) = (String.length a + String.length b)%nat.
Proof. induction a; simpl; congruence. Qed.

Lemma append_assoc (a b c : string) : (a +:+ b) +:+ c = a +:+ (b +:+ c).
Proof. induction a; simpl; congruence. Qed.

Lemma append_inj_r (a b t : string) : a +:+ t = b +:+ t -> a = b.
Proof.
  intros H. pose proof (f_equal String.length H) as Hl. rewrite !append_length in Hl.
  assert (Hab : String.length a = String.length b) by lia. clear Hl. revert b H Hab.
  induction a as [|c a IH]; intros [|d b] H Hab; simpl in *; try done.
  injection H as -> H. f_equal. apply IH; [done|lia].
Qed.

Lemma append_inj_l (a b t : string) : t +:+ a = t +:+ b -> a = b.
Proof. induction t; simpl; [done|]. intros [= H]. auto. Qed.

(** ** Ordered maps

    A [std::map<uint32_t, V>] is an association list in ascending key order:
    the code iterates over it and relies on [begin()] being the least key. *)

Section OrderedMap.
Context {V : Type}.
Implicit Types (m : list (Z * V)) (k : Z) (v : V).

Fixpoint om_find k m : option V :=
  match m with
  | [] => None
  | (k', v) :: m' => if k =? k' then Some v else om_find k m'
  end.

(** [m[k] = v] *)
Fixpoint om_put k v m : list (Z * V) :=
  match m with
  | [] => [(k, v)]
  | (k', v') :: m' =>
      if k <? k' then (k, v) :: m
      else if k =? k' then (k, v) :: m'
      else (k', v') :: om_put k v m'
  end.

Fixpoint om_erase k m : list (Z * V) :=
  match m with
  | [] => []
  | (k', v') :: m' => if k =? k' then m' else (k', v') :: om_erase k m'
  end.

Definition om_sorted m : Prop := StronglySorted Z.lt m.*1.

Lemma om_find_put_eq k v m : om_find k (om_put k v m) = Some v.
Proof.
  induction m as [|[k' v'] m IH]; simpl; [by rewrite Z.eqb_refl|].
  destruct (Z.ltb_spec k k'); simpl; [by rewrite Z.eqb_refl|].
  destruct (Z.eqb_spec k k'); simpl; [by rewrite Z.eqb_refl|].
  by destruct (Z.eqb_spec k k').
Qed.

Lemma om_find_put_ne k k' v m :
  k <> k' -> om_find k' (om_put k v m) = om_find k' m.
Proof.
  intros Hne. induction m as [|[k0 v0] m IH]; simpl.
  - by destruct (Z.eqb_spec k' k).
  - destruct (Z.ltb_spec k k0); simpl; [by destruct (Z.eqb_spec k' k)|].
    destruct (Z.eqb_spec k k0); simpl.
    + subst. by destruct (Z.eqb_spec k' k0).
    + by rewrite IH.
Qed.

Lemma om_find_erase_ne k k' m :
  k <> k' -> om_find k' (om_erase k m) = om_find k' m.
Proof.
  intros Hne. induction m as [|[k0 v0] m IH]; simpl; [done|].
  destruct (Z.eqb_spec k k0); simpl; [subst; by destruct (Z.eqb_spec k' k0)|].
  by rewrite IH.
Qed.

Lemma om_find_Some_in k v m : om_find k m = Some v -> In (k, v) m.
Proof.
  induction m as [|[k' v'] m IH]; simpl; [done|].
  destruct (Z.eqb_spec k k'); naive_solver.
Qed.

Lemma om_find_None_in k v m : om_find k m = None -> ~ In (k, v) m.
Proof.
  induction m as [|[k' v'] m IH]; simpl; [tauto|].
  destruct (Z.eqb_spec k k'); naive_solver.
Qed.

Lemma om_in_put k v m k' v' :
  In (k', v') (om_put k v m) -> (k', v') = (k, v) \/ In (k', v') m.
Proof.
  induction m as [|[k0 v0] m IH]; simpl; [naive_solver|].
  destruct (Z.ltb_spec k k0); simpl; [naive_solver|].
  destruct (Z.eqb_spec k k0); simpl; naive_solver.
Qed.

Lemma om_in_erase k m kv : In kv (om_erase k m) -> In kv m.
Proof.
  induction m as [|[k0 v0] m IH]; simpl; [done|].
  destruct (Z.eqb_spec k k0); simpl; naive_solver.
Qed.

Lemma om_sorted_cons k v m :
  om_sorted ((k, v) :: m) <-> om_sorted m /\ Forall (fun kv => k < kv.1) m.
Proof.
  unfold om_sorted. simpl. split.
  - inversion 1; subst. split; [done|]. by rewrite Forall_fmap in *.
  - intros [? ?]. constructor; [done|]. by rewrite Forall_fmap.
Qed.

Lemma om_sorted_put k v m : om_sorted m -> om_sorted (om_put k v m).
Proof.
  induction m as [|[k0 v0] m IH]; simpl.
  - intros _. apply om_sorted_cons. split; [constructor|constructor].
  - intros Hs. pose proof Hs as [Hm Hlt]%om_sorted_cons.
    destruct (Z.ltb_spec k k0).
    { apply om_sorted_cons. split; [done|]. constructor; [done|].
      eapply Forall_impl; [done|]. simpl. intros. lia. }
    destruct (Z.eqb_spec k k0).
    { subst. by apply om_sorted_cons. }
    apply om_sorted_cons. split; [by apply IH|].
    apply List.Forall_forall. intros [k1 v1] [[= -> ->]|Hin]%om_in_put; simpl; [lia|].
    by eapply List.Forall_forall in Hlt; [|done].
Qed.

Lemma om_sorted_erase k m : om_sorted m -> om_sorted (om_erase k m).
Proof.
  induction m as [|[k0 v0] m IH]; simpl; [done|].
  intros [Hm Hlt]%om_sorted_cons. destruct (Z.eqb_spec k k0); [done|].
  apply om_sorted_cons. split; [by apply IH|].
  apply List.Forall_forall. intros kv Hin%om_in_erase.
  by eapply List.Forall_forall in Hlt.
Qed.

Lemma om_sorted_find_in k v m : om_sorted m -> In (k, v) m -> om_find k m = Some v.
Proof.
  induction m as [|[k0 v0] m IH]; simpl; [done|].
  intros [Hm Hlt]%om_sorted_cons [[= -> ->]|Hin]; [by rewrite Z.eqb_refl|].
  eapply List.Forall_forall in Hlt; [|done]. simpl in Hlt.
  destruct (Z.eqb_spec k k0); [lia|]. by apply IH.
Qed.

Lemma om_find_erase_eq k m : om_sorted m -> om_find k (om_erase k m) = None.
Proof.
  intros Hs. destruct (om_find k (om_erase k m)) as [v|] eqn:E; [|done].
  exfalso. apply om_find_Some_in in E. revert Hs E.
  induction m as [|[k0 v0] m IH]; simpl; [done|].
  intros [Hm Hlt]%om_sorted_cons. destruct (Z.eqb_spec k k0) as [->|].
  - intros Hin. eapply List.Forall_forall in Hlt; [|done]. simpl in Hlt. lia.
  - intros [[= -> ->]|Hin]; [done|]. by apply IH.
Qed.
End OrderedMap.

#[export] Hint Resolve om_sorted_put om_sorted_erase : rdb.
