(* ===== verification/Encoding.v ===== *)
(** * Big-endian encoding of the transaction log ([core/encoding.h])

    A [char*] is the list of bytes from the pointer to the end of its buffer:
    [buffer + n] is [drop n buffer], and a write through a pointer replaces the
    first bytes of that list.  [write_at] is a write through [buffer + n]. *)

From S2P Require Import Prelude.
From stdpp Require Import base tactics list.
From coqutil Require Import Byte Word.LittleEndianList.
From Stdlib Require Import ZArith Lia.

Local Open Scope Z_scope.

Abbreviation bytes := (list byte).

(** [static_cast<uint8_t>(buffer[i])] *)
Definition uchar (buffer : bytes) (i : nat) : Z := byte.unsigned (nth i buffer Byte.x00).

(** [static_cast<char>((value >> sh) & 0xFF)] *)
Definition chr (value sh : Z) : byte := byte.of_Z (Z.land (Z.shiftr value sh) 0xFF).

Definition write_at (n : nat) (w : bytes -> bytes) (buffer : bytes) : bytes :=
  take n buffer ++ w (drop n buffer).

Definition writeUint64BE (value : Z) (buffer : bytes) : bytes :=
  [chr value 56; chr value 48; chr value 40; chr value 32;
   chr value 24; chr value 16; chr value 8; byte.of_Z (Z.land value 0xFF)]
  ++ drop 8 buffer.

Definition writeUint32BE (value : Z) (buffer : bytes) : bytes :=
  [chr value 24; chr value 16; chr value 8; byte.of_Z (Z.land value 0xFF)]
  ++ drop 4 buffer.

Definition writeUint16BE (value : Z) (buffer : bytes) : bytes :=
  [chr value 8; byte.of_Z (Z.land value 0xFF)] ++ drop 2 buffer.

Definition writeUint8 (value : Z) (buffer : bytes) : bytes :=
  [byte.of_Z value] ++ drop 1 buffer.

Definition readUint64BE (buffer : bytes) : Z :=
  Z.lor (Z.lor (Z.lor (Z.lor (Z.lor (Z.lor (Z.lor
    (Z.shiftl (uchar buffer 0) 56) (Z.shiftl (uchar buffer 1) 48))
    (Z.shiftl (uchar buffer 2) 40)) (Z.shiftl (uchar buffer 3) 32))
    (Z.shiftl (uchar buffer 4) 24)) (Z.shiftl (uchar buffer 5) 16))
    (Z.shiftl (uchar buffer 6) 8)) (uchar buffer 7).

Definition readUint32BE (buffer : bytes) : Z :=
  Z.lor (Z.lor (Z.lor
    (Z.shiftl (uchar buffer 0) 24) (Z.shiftl (uchar buffer 1) 16))
    (Z.shiftl (uchar buffer 2) 8)) (uchar buffer 3).

Definition readUint16BE (buffer : bytes) : Z :=
  Z.lor (Z.shiftl (uchar buffer 0) 8) (uchar buffer 1).

Definition readUint8 (buffer : bytes) : Z := uchar buffer 0.

(** The [union] punning of [writeDoubleBE] / [readDoubleBE] is the identity on
    bit patterns. *)
Definition writeDoubleBE (value : Z) (buffer : bytes) : bytes := writeUint64BE value buffer.
Definition readDoubleBE (buffer : bytes) : Z := readUint64BE buffer.

(** ** Characterisation by big-endian digit lists *)

Definition be_bytes (n : nat) (v : Z) : bytes := rev (le_split n v).
Definition be_value (bs : bytes) : Z := le_combine (rev bs).

Lemma byte_of_Z_mod z z' : z mod 2 ^ 8 = z' mod 2 ^ 8 -> byte.of_Z z = byte.of_Z z'.
Proof. intros H. apply byte.unsigned_inj. by rewrite !byte.unsigned_of_Z. Qed.

Lemma byte_of_Z_land z : byte.of_Z (Z.land z 0xFF) = byte.of_Z z.
Proof.
  apply byte_of_Z_mod. change 0xFF with (Z.ones 8).
  rewrite Z.land_ones by lia. apply Z.mod_mod. lia.
Qed.

Lemma chr_of_Z v sh : chr v sh = byte.of_Z (Z.shiftr v sh).
Proof. apply byte_of_Z_land. Qed.

Lemma length_be_bytes n v : length (be_bytes n v) = n.
Proof. unfold be_bytes. by rewrite length_rev, length_le_split. Qed.

Lemma be_value_bytes n v : be_value (be_bytes n v) = v mod 2 ^ (8 * Z.of_nat n).
Proof.
  unfold be_value, be_bytes. rewrite rev_involutive, le_combine_split.
  do 2 f_equal. lia.
Qed.

Lemma be_bytes_value bs : be_bytes (length bs) (be_value bs) = bs.
Proof.
  unfold be_value, be_bytes.
  rewrite <- (length_rev bs), split_le_combine. apply rev_involutive.
Qed.

Lemma be_value_range bs : 0 <= be_value bs < 2 ^ (8 * Z.of_nat (length bs)).
Proof.
  unfold be_value. pose proof (le_combine_bound (rev bs)) as H.
  by rewrite length_rev in H.
Qed.

Ltac be_split :=
  unfold be_bytes; cbn [le_split rev app]; rewrite !chr_of_Z, ?byte_of_Z_land;
  repeat rewrite Z.shiftr_shiftr by lia; reflexivity.

Lemma writeUint64BE_be v b : writeUint64BE v b = be_bytes 8 v ++ drop 8 b.
Proof. unfold writeUint64BE. f_equal. be_split. Qed.

Lemma writeUint32BE_be v b : writeUint32BE v b = be_bytes 4 v ++ drop 4 b.
Proof. unfold writeUint32BE. f_equal. be_split. Qed.

Lemma writeUint16BE_be v b : writeUint16BE v b = be_bytes 2 v ++ drop 2 b.
Proof. unfold writeUint16BE. f_equal. be_split. Qed.

Lemma be_value_cons b bs :
  be_value (b :: bs) =
  Z.lor (Z.shiftl (byte.unsigned b) (8 * Z.of_nat (length bs))) (be_value bs).
Proof.
  unfold be_value. cbn [rev]. rewrite le_combine_app, le_combine_1, length_rev.
  rewrite Z.lor_comm. do 2 f_equal. lia.
Qed.

Lemma be_value_nil : be_value [] = 0.
Proof. reflexivity. Qed.

(** Folds the read expressions into [be_value]; the buffer is known to start
    with the bytes read. *)
Ltac be_fold :=
  rewrite !be_value_cons, ?be_value_nil; unfold uchar; cbn [nth app length];
  rewrite Z.lor_0_r, ?Z.shiftl_0_r; repeat rewrite Z.lor_assoc; reflexivity.

Lemma readUint64BE_be bs b : length bs = 8%nat -> readUint64BE (bs ++ b) = be_value bs.
Proof.
  intros Hl. do 8 (destruct bs as [|? bs]; [done|]). destruct bs; [|done].
  unfold readUint64BE. be_fold.
Qed.

Lemma readUint32BE_be bs b : length bs = 4%nat -> readUint32BE (bs ++ b) = be_value bs.
Proof.
  intros Hl. do 4 (destruct bs as [|? bs]; [done|]). destruct bs; [|done].
  unfold readUint32BE. be_fold.
Qed.

Lemma readUint16BE_be bs b : length bs = 2%nat -> readUint16BE (bs ++ b) = be_value bs.
Proof.
  intros Hl. do 2 (destruct bs as [|? bs]; [done|]). destruct bs; [|done].
  unfold readUint16BE. be_fold.
Qed.

(** ** Reading back what was written *)

Lemma readUint64BE_write v b : is_u64 v -> readUint64BE (writeUint64BE v b) = v.
Proof.
  intros Hv. rewrite writeUint64BE_be, readUint64BE_be by apply length_be_bytes.
  rewrite be_value_bytes. by apply Z.mod_small.
Qed.

Lemma readUint32BE_write v b : is_u32 v -> readUint32BE (writeUint32BE v b) = v.
Proof.
  intros Hv. rewrite writeUint32BE_be, readUint32BE_be by apply length_be_bytes.
  rewrite be_value_bytes. by apply Z.mod_small.
Qed.

Lemma readUint16BE_write v b : 0 <= v < 2 ^ 16 -> readUint16BE (writeUint16BE v b) = v.
Proof.
  intros Hv. rewrite writeUint16BE_be, readUint16BE_be by apply length_be_bytes.
  rewrite be_value_bytes. by apply Z.mod_small.
Qed.

Lemma readUint8_write v b : is_u8 v -> readUint8 (writeUint8 v b) = v.
Proof.
  intros Hv. unfold readUint8, writeUint8, uchar. simpl.
  rewrite byte.unsigned_of_Z. by apply Z.mod_small.
Qed.

(** A buffer that holds [n] bytes is its first [n] bytes and the rest. *)
Lemma buffer_split n (b : bytes) : (n <= length b)%nat -> exists p, length p = n /\ b = p ++ drop n b.
Proof. intros Hn. exists (take n b). rewrite length_take, take_drop. split; [lia|done]. Qed.

(** The readers depend only on the bytes they read. *)
Lemma readUint64BE_nth b :
  readUint64BE b = be_value ((fun i => nth i b Byte.x00) <$> seq 0 8).
Proof. unfold readUint64BE. cbn [fmap list_fmap seq]. be_fold. Qed.

Lemma readUint32BE_nth b :
  readUint32BE b = be_value ((fun i => nth i b Byte.x00) <$> seq 0 4).
Proof. unfold readUint32BE. cbn [fmap list_fmap seq]. be_fold. Qed.

Lemma readUint64BE_range b : is_u64 (readUint64BE b).
Proof. rewrite readUint64BE_nth. apply be_value_range. Qed.

Lemma readUint32BE_range b : is_u32 (readUint32BE b).
Proof. rewrite readUint32BE_nth. apply be_value_range. Qed.

Lemma readUint64BE_ext b b' :
  (forall i, (i < 8)%nat -> nth i b Byte.x00 = nth i b' Byte.x00) ->
  readUint64BE b = readUint64BE b'.
Proof.
  intros H. rewrite !readUint64BE_nth. f_equal. apply list_fmap_ext.
  intros i x [-> Hi]%lookup_seq. apply H. lia.
Qed.

Lemma readUint32BE_ext b b' :
  (forall i, (i < 4)%nat -> nth i b Byte.x00 = nth i b' Byte.x00) ->
  readUint32BE b = readUint32BE b'.
Proof.
  intros H. rewrite !readUint32BE_nth. f_equal. apply list_fmap_ext.
  intros i x [-> Hi]%lookup_seq. apply H. lia.
Qed.

#[export] Hint Resolve readUint64BE_range readUint32BE_range : rdb.

(** Every writer followed by its reader is the identity on the values of the
    written width, whatever the buffer held. *)
Theorem encoding_read_write v b :
  (is_u64 v -> readUint64BE (writeUint64BE v b) = v) /\
  (is_u64 v -> readDoubleBE (writeDoubleBE v b) = v) /\
  (is_u32 v -> readUint32BE (writeUint32BE v b) = v) /\
  (0 <= v < 2 ^ 16 -> readUint16BE (writeUint16BE v b) = v) /\
  (is_u8 v -> readUint8 (writeUint8 v b) = v).
Proof.
  split_and!; eauto using readUint64BE_write, readUint32BE_write, readUint16BE_write,
    readUint8_write.
Qed.


(** Writing back what was read leaves the buffer unchanged; the writers
    produce the only byte sequence that reads as the value. *)
Theorem encoding_write_read b :
  (8 <= length b)%nat ->
  writeUint64BE (readUint64BE b) b = b /\
  writeDoubleBE (readDoubleBE b) b = b /\
  writeUint32BE (readUint32BE b) b = b /\
  writeUint16BE (readUint16BE b) b = b /\
  writeUint8 (readUint8 b) b = b.
Proof.
  intros Hl.
  assert (H64 : writeUint64BE (readUint64BE b) b = b).
  { destruct (buffer_split 8 b) as (p & Hp & Hb); [lia|]. rewrite Hb at 1.
    rewrite readUint64BE_be, writeUint64BE_be by done.
    rewrite <- Hp at 1. by rewrite be_bytes_value. }
  split_and!; [done|done| | |].
  - destruct (buffer_split 4 b) as (p & Hp & Hb); [lia|]. rewrite Hb at 1.
    rewrite readUint32BE_be, writeUint32BE_be by done.
    rewrite <- Hp at 1. by rewrite be_bytes_value.
  - destruct (buffer_split 2 b) as (p & Hp & Hb); [lia|]. rewrite Hb at 1.
    rewrite readUint16BE_be, writeUint16BE_be by done.
    rewrite <- Hp at 1. by rewrite be_bytes_value.
  - destruct b as [|c b]; [simpl in Hl; lia|].
    unfold writeUint8, readUint8, uchar. simpl. by rewrite byte.of_Z_unsigned.
Qed.
