(* ===== verification/LogFormat.v ===== *)
(** * The v1 transaction log format

    Entries and batches ([transaction_log_entry.h]), and the framing scans that
    run over a file image ([transaction_log_recovery.h], [.cpp]). *)

From S2P Require Import Prelude Encoding.
From stdpp Require Import base tactics list strings.
From coqutil Require Import Byte.
From Stdlib Require Import ZArith Lia.

Local Open Scope Z_scope.

(** ** Constants of [transaction_log_file.h] *)

Definition TRANSACTION_LOG_TOKEN : Z := 0x574f4f46.
Definition TRANSACTION_LOG_FILE_TIMESTAMP_POSITION : Z := 5.
Definition TRANSACTION_LOG_FILE_HEADER_SIZE : Z := 13.
Definition TRANSACTION_LOG_ENTRY_HEADER_SIZE : Z := 13.
Definition TRANSACTION_LOG_ENTRY_LAST_FLAG : Z := 0x01.

(** [data + pos] for a [uint32_t] offset. *)
Definition ptr (data : bytes) (pos : Z) : bytes := drop (Z.to_nat pos) data.

(** [::memcpy(dst, src, size)] *)
Definition memcpy (src : bytes) (dst : bytes) : bytes := src ++ drop (length src) dst.

(** ** Entries and batches *)

Record TransactionLogEntry := mkEntry {
  entry_store : string;      (* the name of the store it is bound to *)
  entry_data : bytes;
  entry_size : Z;            (* uint32_t: header and payload *)
}.

(** The constructor: a zeroed buffer, the payload length at offset 8, no flags,
    the payload at 13.  The timestamp is left for the write. *)
Definition TransactionLogEntry_new (store : string) (data : bytes) (size : Z) : TransactionLogEntry :=
  let size' := u32 (size + TRANSACTION_LOG_ENTRY_HEADER_SIZE) in
  let buffer := replicate (Z.to_nat size') Byte.x00 in
  let buffer := write_at 8 (writeUint32BE (u32 size)) buffer in
  let buffer := write_at 12 (writeUint8 0) buffer in
  let buffer := write_at 13 (memcpy (take (Z.to_nat size) data)) buffer in
  {| entry_store := store; entry_data := buffer; entry_size := size' |}.

Record TransactionLogEntryBatch := mkBatch {
  batch_timestamp : Z;       (* double *)
  batch_entries : list TransactionLogEntry;
  currentEntryIndex : nat;
}.

Definition TransactionLogEntryBatch_new (timestamp : Z) : TransactionLogEntryBatch :=
  {| batch_timestamp := timestamp; batch_entries := []; currentEntryIndex := 0 |}.

Definition addEntry (b : TransactionLogEntryBatch) (e : TransactionLogEntry) : TransactionLogEntryBatch :=
  {| batch_timestamp := batch_timestamp b;
     batch_entries := batch_entries b ++ [e];
     currentEntryIndex := currentEntryIndex b |}.

Definition isComplete (b : TransactionLogEntryBatch) : bool :=
  (length (batch_entries b) <=? currentEntryIndex b)%nat.

(** ** Recovery scan *)

Inductive Kind := Clean | TruncateTail | MidFileCorruption.

#[export] Instance Kind_eq_dec : EqDecision Kind.
Proof. solve_decision. Defined.

Record RecoveryScan := mkScan { kind : Kind; validEnd : Z }.

Definition RESYNC_MIN_FRAMES : Z := 8.

(** A complete, in-bounds frame begins at [pos].  The sums are 64-bit in the
    code, so they do not wrap for 32-bit operands. *)
Definition frameFits (data : bytes) (pos fileSize : Z) : bool :=
  if fileSize <? u64 (pos + TRANSACTION_LOG_ENTRY_HEADER_SIZE) then false
  else if f64_eqb (readDoubleBE (ptr data pos)) f64_zero then false
  else
    let length := readUint32BE (ptr data (pos + 8)) in
    if length =? 0 then false
    else u64 (pos + TRANSACTION_LOG_ENTRY_HEADER_SIZE + length) <=? fileSize.

(** The inner loop of [validFramingResumes]: follow the frames from [pos].  It
    returns after at most [RESYNC_MIN_FRAMES] rounds. *)
Fixpoint followFrames (fuel : nat) (data : bytes) (fileSize pos frames : Z) : option bool :=
  match fuel with
  | O => None
  | S fuel =>
      if frameFits data pos fileSize then
        let pos := u32 (pos + u32 (TRANSACTION_LOG_ENTRY_HEADER_SIZE + readUint32BE (ptr data (pos + 8)))) in
        let frames := frames + 1 in
        if (RESYNC_MIN_FRAMES <=? frames) || (pos =? fileSize) then Some true
        else followFrames fuel data fileSize pos frames
      else Some false
  end.

(** The outer loop: try every start offset in [[start, fileSize)]. *)
Fixpoint resumesFrom (fuel : nat) (data : bytes) (start fileSize : Z) : option bool :=
  match fuel with
  | O => None
  | S fuel =>
      if u64 (start + TRANSACTION_LOG_ENTRY_HEADER_SIZE) <=? fileSize then
        match followFrames (S (Z.to_nat RESYNC_MIN_FRAMES)) data fileSize start 0 with
        | Some true => Some true
        | Some false => resumesFrom fuel data (u32 (start + 1)) fileSize
        | None => None
        end
      else Some false
  end.

Definition validFramingResumes (data : bytes) (from fileSize : Z) : option bool :=
  resumesFrom (S (Z.to_nat fileSize)) data from fileSize.

Fixpoint scanLoop (fuel : nat) (data : bytes) (fileSize pos : Z) : option RecoveryScan :=
  match fuel with
  | O => None
  | S fuel =>
      if pos =? fileSize then Some (mkScan Clean fileSize)
      else if fileSize <? u64 (pos + TRANSACTION_LOG_ENTRY_HEADER_SIZE) then
        Some (mkScan TruncateTail pos)
      else if f64_eqb (readDoubleBE (ptr data pos)) f64_zero then Some (mkScan Clean pos)
      else
        let length := readUint32BE (ptr data (pos + 8)) in
        if (length =? 0) || (fileSize <? u64 (pos + TRANSACTION_LOG_ENTRY_HEADER_SIZE + length)) then
          match validFramingResumes data (u32 (pos + 1)) fileSize with
          | Some true => Some (mkScan MidFileCorruption pos)
          | Some false => Some (mkScan TruncateTail pos)
          | None => None
          end
        else scanLoop fuel data fileSize (u32 (pos + u32 (TRANSACTION_LOG_ENTRY_HEADER_SIZE + length)))
  end.

(** Every round advances [pos] by at least 14 bytes, so [fileSize] rounds are
    enough ([scan_total]). *)
Definition scanTransactionLogForRecovery (data : bytes) (fileSize : Z) : option RecoveryScan :=
  if fileSize <=? TRANSACTION_LOG_FILE_HEADER_SIZE then Some (mkScan Clean fileSize)
  else scanLoop (S (Z.to_nat fileSize)) data fileSize TRANSACTION_LOG_FILE_HEADER_SIZE.

Fixpoint countLoop (fuel : nat) (data : bytes) (fileSize pos count : Z) : option Z :=
  match fuel with
  | O => None
  | S fuel =>
      if u64 (pos + TRANSACTION_LOG_ENTRY_HEADER_SIZE) <=? fileSize then
        if f64_eqb (readDoubleBE (ptr data pos)) f64_zero then Some count
        else
          let length := readUint32BE (ptr data (pos + 8)) in
          if (length =? 0) || (fileSize <? u64 (pos + TRANSACTION_LOG_ENTRY_HEADER_SIZE + length)) then
            Some count
          else countLoop fuel data fileSize
                 (u32 (pos + u32 (TRANSACTION_LOG_ENTRY_HEADER_SIZE + length))) (u32 (count + 1))
      else Some count
  end.

Definition countTransactionLogEntries (data : bytes) (fileSize : Z) : option Z :=
  if fileSize <=? TRANSACTION_LOG_FILE_HEADER_SIZE then Some 0
  else countLoop (S (Z.to_nat fileSize)) data fileSize TRANSACTION_LOG_FILE_HEADER_SIZE 0.

(** ** Specification: chains of frames *)

Definition frame_end (data : bytes) (pos : Z) : Z :=
  pos + TRANSACTION_LOG_ENTRY_HEADER_SIZE + readUint32BE (ptr data (pos + 8)).

(** [chain data fileSize n p q]: [n] well-formed frames lie end to end in
    [[p, q)]. *)
Inductive chain (data : bytes) (fileSize : Z) : nat -> Z -> Z -> Prop :=
| chain_nil p : chain data fileSize 0 p p
| chain_cons n p q :
    frameFits data p fileSize = true ->
    chain data fileSize n (frame_end data p) q ->
    chain data fileSize (S n) p q.

(** Framing resumes somewhere in [[from, fileSize)]. *)
Definition resumes (data : bytes) (from fileSize : Z) : Prop :=
  exists start n q, from <= start /\ start + 13 <= fileSize /\ (1 <= n)%nat /\ chain data fileSize n start q /\
    (n = 8%nat \/ ((n < 8)%nat /\ q = fileSize)).

(** The bytes at [pos] announce a frame that is empty or overruns the file. *)
Definition broken_at (data : bytes) (fileSize pos : Z) : Prop :=
  pos + 13 <= fileSize /\ f64_eqb (readDoubleBE (ptr data pos)) f64_zero = false /\
  frameFits data pos fileSize = false.

(** What a scan result says about the image. *)
Definition scan_ok (data : bytes) (fileSize : Z) (r : RecoveryScan) : Prop :=
  (exists n, chain data fileSize n 13 (validEnd r)) /\
  match kind r with
  | Clean => validEnd r = fileSize \/
      (validEnd r + 13 <= fileSize /\ f64_eqb (readDoubleBE (ptr data (validEnd r))) f64_zero = true)
  | TruncateTail => validEnd r < fileSize /\
      (fileSize < validEnd r + 13 \/
       (broken_at data fileSize (validEnd r) /\ ~ resumes data (validEnd r + 1) fileSize))
  | MidFileCorruption =>
      broken_at data fileSize (validEnd r) /\ resumes data (validEnd r + 1) fileSize
  end.

(** ** The scans meet the specification *)

Section Scan.
Context (data : bytes) (fileSize : Z) (Hfs : is_u32 fileSize).

Abbreviation len p := (readUint32BE (ptr data (p + 8))).
Abbreviation ts p := (readDoubleBE (ptr data p)).
Abbreviation chain := (chain data fileSize).

Lemma u64_add13 p : is_u32 p -> u64 (p + TRANSACTION_LOG_ENTRY_HEADER_SIZE) = p + 13.
Proof. unfold is_u32, TRANSACTION_LOG_ENTRY_HEADER_SIZE. intros. apply u64_small. unfold is_u64. lia. Qed.

Lemma u64_frame_end p :
  is_u32 p -> u64 (p + TRANSACTION_LOG_ENTRY_HEADER_SIZE + len p) = frame_end data p.
Proof.
  intros Hp. pose proof (readUint32BE_range (ptr data (p + 8))) as Hl.
  unfold frame_end, TRANSACTION_LOG_ENTRY_HEADER_SIZE, is_u32 in *.
  apply u64_small. unfold is_u64. lia.
Qed.

Lemma frameFits_spec p :
  is_u32 p ->
  frameFits data p fileSize = true <->
  p + 13 <= fileSize /\ f64_eqb (ts p) f64_zero = false /\ 0 < len p /\ frame_end data p <= fileSize.
Proof.
  intros Hp. unfold frameFits. rewrite u64_add13, u64_frame_end by done.
  pose proof (readUint32BE_range (ptr data (p + 8))) as [Hl _].
  destruct (Z.ltb_spec fileSize (p + 13)); [split; [done|lia]|].
  destruct (f64_eqb _ _); [naive_solver|].
  destruct (Z.eqb_spec (len p) 0); [split; [done|lia]|].
  rewrite Z.leb_le. naive_solver lia.
Qed.

(** The 32-bit advance does not wrap when the frame fits. *)
Lemma advance_u32 p :
  is_u32 p -> frame_end data p <= fileSize ->
  u32 (p + u32 (TRANSACTION_LOG_ENTRY_HEADER_SIZE + len p)) = frame_end data p.
Proof.
  intros Hp He. pose proof (readUint32BE_range (ptr data (p + 8))) as [Hl _].
  unfold frame_end, TRANSACTION_LOG_ENTRY_HEADER_SIZE, is_u32 in *.
  rewrite (u32_small (13 + _)) by (unfold is_u32; lia).
  rewrite u32_small by (unfold is_u32; lia). lia.
Qed.

(** The test the scan and the count make on a frame whose timestamp is set. *)
Lemma frame_test p :
  is_u32 p -> p + 13 <= fileSize -> f64_eqb (ts p) f64_zero = false ->
  (len p =? 0) || (fileSize <? u64 (p + TRANSACTION_LOG_ENTRY_HEADER_SIZE + len p))
  = negb (frameFits data p fileSize).
Proof.
  intros Hp Hb Ht. unfold frameFits. rewrite u64_add13, u64_frame_end, Ht by done.
  destruct (Z.ltb_spec fileSize (p + 13)); [lia|].
  destruct (Z.eqb_spec (len p) 0); [done|]. simpl. lia.
Qed.

Lemma frame_end_range p :
  is_u32 p -> frameFits data p fileSize = true ->
  is_u32 (frame_end data p) /\ p + 14 <= frame_end data p <= fileSize.
Proof.
  intros Hp (H1 & _ & H2 & H3)%frameFits_spec; [|done].
  unfold frame_end, TRANSACTION_LOG_ENTRY_HEADER_SIZE, is_u32 in *. lia.
Qed.

Lemma chain_range n p q : chain n p q -> is_u32 p -> p <= q /\ is_u32 q /\ (n <> 0%nat -> q <= fileSize).
Proof.
  induction 1 as [|n p q Hf Hc IH]; intros Hp; [done|].
  apply frame_end_range in Hf as [Hr1 Hr2]; [|done].
  destruct (IH Hr1) as (? & ? & Hq). split_and!; [lia|done|intros _].
  destruct n; [inversion Hc; subst; lia|auto].
Qed.

Lemma chain_snoc n p q :
  chain n p q -> frameFits data q fileSize = true -> chain (S n) p (frame_end data q).
Proof. induction 1; intros; econstructor; eauto using LogFormat.chain. Qed.

Lemma chain_app n m p q r : chain n p q -> chain m q r -> chain (n + m) p r.
Proof. induction 1; intros; simpl; [done|econstructor; eauto]. Qed.

Lemma chain_det n p q : chain n p q -> forall q', chain n p q' -> q = q'.
Proof. induction 1; inversion 1; subst; eauto. Qed.

(** A maximal chain is unique: two chains that cannot be extended have the
    same length and end. *)
Lemma chain_stuck_unique n p q :
  chain n p q -> frameFits data q fileSize = false ->
  forall m r, chain m p r -> frameFits data r fileSize = false -> n = m /\ q = r.
Proof.
  induction 1 as [|n p q Hf Hc IH]; intros Hq m r; inversion 1; subst; intros Hr.
  - done.
  - congruence.
  - congruence.
  - edestruct IH as [-> ->]; eauto.
Qed.

(** No chain goes past the end of a chain that cannot be extended. *)
Lemma chain_before_stuck n p q :
  chain n p q -> is_u32 p -> frameFits data q fileSize = false ->
  forall m r, chain m p r -> r <= q.
Proof.
  induction 1 as [|n p q Hf Hc IH]; intros Hp Hq m r Hm.
  - destruct Hm; [lia|congruence].
  - destruct (frame_end_range p Hp Hf) as [Hu Hr].
    destruct Hm as [p|m p r _ Hm]; [|by apply (IH Hu Hq m)].
    destruct (chain_range n _ _ Hc Hu) as (? & _). lia.
Qed.

Lemma followFrames_spec fuel p k :
  is_u32 p -> 0 <= k < 8 -> (Z.to_nat (8 - k) <= fuel)%nat ->
  exists b, followFrames fuel data fileSize p k = Some b /\
    (b = true <-> exists n q, (1 <= n)%nat /\ chain n p q /\
                    (k + Z.of_nat n = 8 \/ (k + Z.of_nat n < 8 /\ q = fileSize))).
Proof.
  revert p k. induction fuel as [|fuel IH]; intros p k Hp Hk Hfuel; [lia|].
  cbn [followFrames]. destruct (frameFits data p fileSize) eqn:Hf.
  2:{ exists false. split; [done|]. split; [done|].
      intros (n & q & Hn & Hc & _). destruct Hc; [lia|congruence]. }
  destruct (frame_end_range p) as [Hu Hr]; [done..|].
  rewrite advance_u32 by (done || lia).
  destruct ((RESYNC_MIN_FRAMES <=? k + 1) || (frame_end data p =? fileSize)) eqn:Hstop.
  - exists true. split; [done|]. split; [|done]. intros _.
    exists 1%nat, (frame_end data p). split_and!; [lia|by repeat econstructor|].
    unfold RESYNC_MIN_FRAMES in Hstop. lia.
  - unfold RESYNC_MIN_FRAMES in Hstop.
    destruct (IH (frame_end data p) (k + 1)) as (b & -> & Hb); [done|lia|lia|].
    exists b. split; [done|]. rewrite Hb. split.
    + intros (n & q & Hn & Hc & Hq). exists (S n), q.
      split_and!; [lia|by econstructor|lia].
    + intros (n & q & Hn & Hc & Hq). destruct Hc as [|n p q _ Hc]; [lia|].
      exists n, q. split_and!; [|done|lia].
      destruct n; [|lia]. inversion Hc; subst. lia.
Qed.

Lemma resumesFrom_spec fuel start :
  is_u32 start -> (Z.to_nat (fileSize - start) < fuel)%nat ->
  exists b, resumesFrom fuel data start fileSize = Some b /\
    (b = true <-> resumes data start fileSize).
Proof.
  revert start. induction fuel as [|fuel IH]; intros start Hs Hfuel; [lia|].
  cbn [resumesFrom]. rewrite u64_add13 by done.
  destruct (Z.leb_spec (start + 13) fileSize) as [Hle|Hgt].
  2:{ exists false. split; [done|]. split; [done|]. intros (s & n & q & ? & ? & _). lia. }
  destruct (followFrames_spec (S (Z.to_nat RESYNC_MIN_FRAMES)) start 0)
    as (b & -> & Hb); [done|lia|unfold RESYNC_MIN_FRAMES; lia|].
  destruct b.
  - exists true. split; [done|]. split; [|done]. intros _.
    destruct Hb as [(n & q & Hn & Hc & Hq) _]; [done|].
    exists start, n, q. split_and!; [lia|lia|lia|done|lia].
  - rewrite u32_small by (unfold is_u32 in *; lia).
    destruct (IH (start + 1)) as (b & -> & Hb'); [unfold is_u32 in *; lia|lia|].
    exists b. split; [done|]. rewrite Hb'. split.
    + intros (s & n & q & ? & Hrest). exists s, n, q. split; [lia|done].
    + intros (s & n & q & ? & ? & ? & Hc & Hq). exists s, n, q.
      split_and!; try done. destruct (decide (s = start)) as [->|]; [|lia].
      exfalso. assert (false = true); [|done]. apply Hb. exists n, q. split_and!; [lia|done|lia].
Qed.

(** The resynchronisation test decides [resumes]. *)
Lemma validFramingResumes_spec from :
  is_u32 from ->
  exists b, validFramingResumes data from fileSize = Some b /\
    (b = true <-> resumes data from fileSize).
Proof. intros Hf. apply resumesFrom_spec; [done|]. unfold is_u32 in *. lia. Qed.

Lemma scanLoop_spec fuel n p :
  chain n 13 p -> 13 <= p <= fileSize -> (Z.to_nat (fileSize - p) < fuel)%nat ->
  exists r, scanLoop fuel data fileSize p = Some r /\ scan_ok data fileSize r.
Proof.
  revert n p. induction fuel as [|fuel IH]; intros n p Hc Hp Hfuel; [lia|].
  assert (is_u32 p) as Hu by (unfold is_u32 in *; lia).
  cbn [scanLoop]. destruct (Z.eqb_spec p fileSize) as [->|Hne].
  { eexists. split; [done|]. split; simpl; eauto. }
  rewrite u64_add13 by done. destruct (Z.ltb_spec fileSize (p + 13)).
  { eexists. split; [done|]. split; simpl; [eauto|]. lia. }
  destruct (f64_eqb (ts p) f64_zero) eqn:Hts.
  { eexists. split; [done|]. split; simpl; eauto. }
  rewrite frame_test by done. destruct (frameFits data p fileSize) eqn:Hf; simpl.
  - destruct (frame_end_range p) as [Hu' Hr]; [done..|].
    rewrite advance_u32 by (done || lia).
    apply (IH (S n)); [by apply chain_snoc|lia|lia].
  - rewrite u32_small by (unfold is_u32 in *; lia).
    destruct (validFramingResumes_spec (p + 1)) as (b & -> & Hb); [unfold is_u32 in *; lia|].
    assert (broken_at data fileSize p) by by unfold broken_at.
    destruct b; eexists; (split; [done|]); (split; simpl; [by eauto|]).
    + by split; [|apply Hb].
    + split; [lia|]. right. split; [done|]. by intros ?%Hb.
Qed.

Lemma countLoop_spec fuel n p :
  chain n 13 p -> 13 <= p <= fileSize -> (Z.to_nat (fileSize - p) < fuel)%nat ->
  exists m q, countLoop fuel data fileSize p (Z.of_nat n) = Some (Z.of_nat m) /\
    chain m 13 q /\ frameFits data q fileSize = false /\ 14 * Z.of_nat m <= fileSize.
Proof.
  revert n p. induction fuel as [|fuel IH]; intros n p Hc Hp Hfuel; [lia|].
  assert (is_u32 p) as Hu by (unfold is_u32 in *; lia).
  assert (Hn : 14 * Z.of_nat n + 13 <= p).
  { clear IH Hfuel Hp Hu. assert (is_u32 13) as Hq by (unfold is_u32; lia). revert Hc Hq.
    generalize 13 at 1 2 3. intros o Hc. induction Hc as [|m a b Hf Hc IHc]; intros Ho; [lia|].
    apply frame_end_range in Hf as [Ha Hb]; [|done]. specialize (IHc Ha). lia. }
  assert (Hdone : frameFits data p fileSize = false ->
    exists m q, Some (Z.of_nat n) = Some (Z.of_nat m) /\
    chain m 13 q /\ frameFits data q fileSize = false /\ 14 * Z.of_nat m <= fileSize).
  { intros Hf. exists n, p. split_and!; [done|done|done|lia]. }
  cbn [countLoop]. rewrite u64_add13 by done. destruct (Z.leb_spec (p + 13) fileSize).
  2:{ apply Hdone. destruct (frameFits data p fileSize) eqn:Hf; [|done].
      apply frameFits_spec in Hf; [lia|done]. }
  destruct (f64_eqb (ts p) f64_zero) eqn:Hts.
  { apply Hdone. destruct (frameFits data p fileSize) eqn:Hf; [|done].
    apply frameFits_spec in Hf as (_ & ? & _); [congruence|done]. }
  rewrite frame_test by done. destruct (frameFits data p fileSize) eqn:Hf; simpl; [|by apply Hdone].
  destruct (frame_end_range p) as [Hu' Hr]; [done..|].
  rewrite advance_u32 by (done || lia).
  rewrite u32_small by (unfold is_u32 in *; lia).
  replace (Z.of_nat n + 1) with (Z.of_nat (S n)) by lia.
  apply IH; [by apply chain_snoc|lia|lia].
Qed.
End Scan.

(** ** Results on arbitrary images *)

Lemma scan_ok_stuck data fileSize r :
  is_u32 fileSize -> scan_ok data fileSize r -> is_u32 (validEnd r) ->
  frameFits data (validEnd r) fileSize = false.
Proof.
  intros Hfs [_ Hk] Hv. destruct (frameFits data (validEnd r) fileSize) eqn:Hf; [|done].
  apply frameFits_spec in Hf as (H1 & H2 & H3 & H4); [|done..]. unfold broken_at in Hk.
  assert (frameFits data (validEnd r) fileSize = true) by (apply frameFits_spec; auto).
  destruct (kind r); [destruct Hk as [Hk|[? Hk]]; [lia|congruence]| |].
  - destruct Hk as [? [?|[(? & ? & ?) _]]]; [lia|congruence].
  - destruct Hk as [(? & ? & ?) _]. congruence.
Qed.

Lemma scan_total data fileSize :
  is_u32 fileSize -> 13 < fileSize ->
  exists r, scanTransactionLogForRecovery data fileSize = Some r /\ scan_ok data fileSize r.
Proof.
  intros Hfs Hgt. unfold scanTransactionLogForRecovery, TRANSACTION_LOG_FILE_HEADER_SIZE.
  destruct (Z.leb_spec fileSize 13); [lia|].
  apply (scanLoop_spec data fileSize Hfs _ 0); [constructor|lia|lia].
Qed.

Lemma scan_ok_end data fileSize r :
  is_u32 fileSize -> 13 < fileSize -> scan_ok data fileSize r ->
  13 <= validEnd r <= fileSize /\ is_u32 (validEnd r).
Proof.
  intros Hfs Hgt [[n Hc] _]. pose proof Hc as Hc'. apply chain_range in Hc as (? & ? & Hn); [|done|unfold is_u32 in *; lia].
  split; [|done]. destruct (decide (n = 0)%nat) as [->|]; [|naive_solver lia].
  inversion Hc'. lia.
Qed.

(** Reads inside a prefix are reads of the whole. *)
Lemma nth_ptr_take data v p i :
  (Z.to_nat p + i < Z.to_nat v)%nat ->
  nth i (ptr (take (Z.to_nat v) data) p) Byte.x00 = nth i (ptr data p) Byte.x00.
Proof.
  intros H. unfold ptr.
  rewrite !nth_lookup, !lookup_drop, lookup_take_lt by lia. done.
Qed.

Lemma frameFits_take data fileSize v p :
  is_u32 fileSize -> is_u32 v -> v <= fileSize -> is_u32 p ->
  frameFits data p fileSize = true -> frame_end data p <= v ->
  frameFits (take (Z.to_nat v) data) p v = true /\
  frame_end (take (Z.to_nat v) data) p = frame_end data p.
Proof.
  intros Hfs Hv Hle Hp Hf He. pose proof Hf as (H1 & H2 & H3 & H4)%frameFits_spec; [|done..].
  assert (Hlen : readUint32BE (ptr (take (Z.to_nat v) data) (p + 8)) = readUint32BE (ptr data (p + 8))).
  { apply readUint32BE_ext. intros i Hi. apply nth_ptr_take.
    unfold frame_end, TRANSACTION_LOG_ENTRY_HEADER_SIZE, is_u32 in *. lia. }
  assert (Hts : readDoubleBE (ptr (take (Z.to_nat v) data) p) = readDoubleBE (ptr data p)).
  { apply readUint64BE_ext. intros i Hi. apply nth_ptr_take.
    unfold frame_end, TRANSACTION_LOG_ENTRY_HEADER_SIZE, is_u32 in *. lia. }
  assert (Hend : frame_end (take (Z.to_nat v) data) p = frame_end data p).
  { unfold frame_end. by rewrite Hlen. }
  split; [|done]. apply frameFits_spec; [done|]. rewrite Hlen, Hts, Hend.
  unfold frame_end, TRANSACTION_LOG_ENTRY_HEADER_SIZE in *. split_and!; [lia|done|lia|lia].
Qed.

Lemma chain_take data fileSize v n p q :
  is_u32 fileSize -> is_u32 v -> v <= fileSize -> is_u32 p ->
  chain data fileSize n p q -> q <= v -> chain (take (Z.to_nat v) data) v n p q.
Proof.
  intros Hfs Hv Hle Hp Hc Hq. induction Hc as [|n p q Hf Hc IH]; [constructor|].
  destruct (frame_end_range data fileSize Hfs p) as [Hu Hr]; [done..|].
  assert (frame_end data p <= q) by (eapply chain_range in Hc as (? & _); done).
  destruct (frameFits_take data fileSize v p) as [Hf' He']; [done|done|done|done|done|lia|].
  econstructor; [done|]. rewrite He'. by apply IH.
Qed.

(** Scanning an image whose frames reach [p] exactly continues at [p]. *)
Lemma scanLoop_chain data fileSize fuel n p q :
  is_u32 fileSize -> is_u32 p -> chain data fileSize n p q -> q <= fileSize ->
  (Z.to_nat (fileSize - p) < fuel)%nat ->
  exists fuel', (Z.to_nat (fileSize - q) < fuel')%nat /\
    scanLoop fuel data fileSize p = scanLoop fuel' data fileSize q.
Proof.
  intros Hfs Hp Hc Hq. revert fuel Hp. induction Hc as [p|n p q Hf Hc IH]; intros fuel Hp Hfuel.
  { by exists fuel. }
  destruct (frame_end_range data fileSize Hfs p) as [Hu Hr]; [done..|].
  pose proof Hf as (H1 & H2 & H3 & H4)%frameFits_spec; [|done..].
  destruct fuel as [|fuel]; [lia|].
  destruct (IH Hq fuel Hu) as (fuel' & Hfuel' & Heq); [lia|].
  exists fuel'. split; [done|]. rewrite <- Heq. cbn [scanLoop].
  destruct (Z.eqb_spec p fileSize); [lia|].
  rewrite u64_add13 by done. destruct (Z.ltb_spec fileSize (p + 13)); [lia|].
  rewrite H2, frame_test, Hf by done. simpl. by rewrite (advance_u32 data fileSize).
Qed.

Lemma scan_of_chain data fileSize n q :
  is_u32 fileSize -> 13 < fileSize -> chain data fileSize n 13 q -> q <= fileSize ->
  exists fuel, (Z.to_nat (fileSize - q) < fuel)%nat /\
    scanTransactionLogForRecovery data fileSize = scanLoop fuel data fileSize q.
Proof.
  intros Hfs Hgt Hc Hq. unfold scanTransactionLogForRecovery, TRANSACTION_LOG_FILE_HEADER_SIZE.
  destruct (Z.leb_spec fileSize 13); [lia|].
  eapply scanLoop_chain; [done| |done|done|]; unfold is_u32 in *; lia.
Qed.

(** ** Images written by the log *)

Record frame := mkFrame { fr_timestamp : Z; fr_flags : Z; fr_payload : bytes }.

Definition wf_frame (f : frame) : Prop :=
  is_u64 (fr_timestamp f) /\ f64_eqb (fr_timestamp f) f64_zero = false /\
  0 < Z.of_nat (length (fr_payload f)) < 2 ^ 32.

(** The bytes of an entry on disk: timestamp, payload length, flags, payload. *)
Definition encode_frame (f : frame) : bytes :=
  be_bytes 8 (fr_timestamp f) ++ be_bytes 4 (Z.of_nat (length (fr_payload f)))
  ++ [byte.of_Z (fr_flags f)] ++ fr_payload f.

Definition encode_frames (fs : list frame) : bytes := mjoin (encode_frame <$> fs).

Lemma encode_frames_cons f fs : encode_frames (f :: fs) = encode_frame f ++ encode_frames fs.
Proof. done. Qed.

Lemma encode_frames_app fs gs : encode_frames (fs ++ gs) = encode_frames fs ++ encode_frames gs.
Proof. unfold encode_frames. rewrite fmap_app. apply join_app. Qed.

Lemma length_encode_frame f : length (encode_frame f) = (13 + length (fr_payload f))%nat.
Proof. unfold encode_frame. rewrite !length_app, !length_be_bytes. simpl. lia. Qed.

Lemma ptr_app pre rest : ptr (pre ++ rest) (Z.of_nat (length pre)) = rest.
Proof. unfold ptr. rewrite Nat2Z.id. apply drop_app_length. Qed.

Lemma ptr_app_add pre rest k :
  0 <= k -> ptr (pre ++ rest) (Z.of_nat (length pre) + k) = drop (Z.to_nat k) rest.
Proof.
  intros Hk. unfold ptr. rewrite Z2Nat.inj_add, Nat2Z.id by lia. apply drop_app_add.
Qed.

Lemma read_frame_timestamp pre f rest :
  is_u64 (fr_timestamp f) ->
  readDoubleBE (ptr (pre ++ encode_frame f ++ rest) (Z.of_nat (length pre))) = fr_timestamp f.
Proof.
  intros Ht. rewrite ptr_app. unfold encode_frame, readDoubleBE. rewrite <- !app_assoc.
  rewrite readUint64BE_be by apply length_be_bytes.
  rewrite be_value_bytes. by apply Z.mod_small.
Qed.

Lemma read_frame_length pre f rest :
  Z.of_nat (length (fr_payload f)) < 2 ^ 32 ->
  readUint32BE (ptr (pre ++ encode_frame f ++ rest) (Z.of_nat (length pre) + 8))
  = Z.of_nat (length (fr_payload f)).
Proof.
  intros Hl. rewrite ptr_app_add by lia. unfold encode_frame. rewrite <- !app_assoc.
  rewrite drop_app_length' by (by rewrite length_be_bytes).
  rewrite readUint32BE_be by apply length_be_bytes.
  rewrite be_value_bytes. apply Z.mod_small. lia.
Qed.

Lemma frame_end_encoded pre f rest :
  wf_frame f ->
  frame_end (pre ++ encode_frame f ++ rest) (Z.of_nat (length pre))
  = Z.of_nat (length (pre ++ encode_frame f)).
Proof.
  intros (_ & _ & Hl). unfold frame_end. rewrite read_frame_length by lia.
  rewrite length_app, length_encode_frame. unfold TRANSACTION_LOG_ENTRY_HEADER_SIZE. lia.
Qed.

Lemma frameFits_encoded pre f rest fileSize :
  is_u32 fileSize -> wf_frame f -> Z.of_nat (length (pre ++ encode_frame f)) <= fileSize ->
  frameFits (pre ++ encode_frame f ++ rest) (Z.of_nat (length pre)) fileSize = true.
Proof.
  intros Hfs Hwf Hle. pose proof Hwf as (Hts & Hnz & Hl).
  rewrite length_app, length_encode_frame in Hle.
  apply frameFits_spec; [unfold is_u32 in *; lia|].
  rewrite read_frame_timestamp, read_frame_length, frame_end_encoded by (done || lia).
  rewrite length_app, length_encode_frame. split_and!; [lia|done|lia|lia].
Qed.

Lemma chain_encoded fs pre rest fileSize :
  is_u32 fileSize -> Forall wf_frame fs ->
  Z.of_nat (length (pre ++ encode_frames fs)) <= fileSize ->
  chain (pre ++ encode_frames fs ++ rest) fileSize (length fs)
    (Z.of_nat (length pre)) (Z.of_nat (length (pre ++ encode_frames fs))).
Proof.
  intros Hfs. revert pre. induction fs as [|f fs IH]; intros pre Hwf Hle.
  { rewrite app_nil_r. constructor. }
  inversion_clear Hwf as [|?? Hf Hrest].
  rewrite encode_frames_cons, <- app_assoc. rewrite encode_frames_cons, app_assoc in Hle.
  econstructor.
  - apply frameFits_encoded; [done|done|]. rewrite length_app in Hle. lia.
  - rewrite frame_end_encoded by done.
    rewrite (app_assoc pre (encode_frame f)), (app_assoc pre (encode_frame f)). by apply IH.
Qed.

(** Every complete entry of an image is walked, whatever follows them. *)
Lemma scan_of_image hdr fs rest fileSize :
  length hdr = 13%nat -> Forall wf_frame fs -> is_u32 fileSize -> 13 < fileSize ->
  Z.of_nat (length (hdr ++ encode_frames fs)) <= fileSize ->
  exists fuel, (Z.to_nat (fileSize - Z.of_nat (length (hdr ++ encode_frames fs))) < fuel)%nat /\
    scanTransactionLogForRecovery (hdr ++ encode_frames fs ++ rest) fileSize
    = scanLoop fuel (hdr ++ encode_frames fs ++ rest) fileSize
        (Z.of_nat (length (hdr ++ encode_frames fs))).
Proof.
  intros Hh Hwf Hfs Hgt Hle. apply scan_of_chain with (n := length fs); [done|done| |done].
  replace 13 with (Z.of_nat (length hdr)) by lia. by apply chain_encoded.
Qed.

(** ** Entry layout *)

Lemma write_at_app n w (a b : bytes) : length a = n -> write_at n w (a ++ b) = a ++ w b.
Proof.
  intros <-. unfold write_at. by rewrite take_app_length, drop_app_length.
Qed.

Lemma drop_replicate_same n : drop n (replicate n Byte.x00) = [].
Proof. apply drop_ge. by rewrite length_replicate. Qed.

(** The constructed buffer is the encoded frame with a zero timestamp. *)
Lemma entry_new_data store data :
  Z.of_nat (length data) + 13 < 2 ^ 32 ->
  entry_data (TransactionLogEntry_new store data (Z.of_nat (length data)))
    = encode_frame (mkFrame 0 0 data) /\
  entry_size (TransactionLogEntry_new store data (Z.of_nat (length data)))
    = Z.of_nat (length data) + 13.
Proof.
  intros Hs. unfold TransactionLogEntry_new, TRANSACTION_LOG_ENTRY_HEADER_SIZE. simpl.
  rewrite (u32_small (_ + 13)), (u32_small (Z.of_nat _)) by (unfold is_u32; lia). split; [|done].
  replace (Z.to_nat (Z.of_nat (length data) + 13)) with (8 + (4 + (1 + length data)))%nat by lia.
  rewrite !replicate_add, Nat2Z.id, firstn_all, write_at_app by done.
  rewrite writeUint32BE_be, drop_app_length' by done. rewrite (app_assoc (replicate 8 _)).
  rewrite (write_at_app 12) by (by rewrite length_app, length_be_bytes).
  unfold writeUint8. rewrite drop_app_length' by done. rewrite (app_assoc (_ ++ _) [_]).
  rewrite write_at_app by (by rewrite !length_app, length_be_bytes).
  unfold memcpy. rewrite drop_replicate_same, app_nil_r, <- !app_assoc. done.
Qed.

(** A torn entry whose header is complete still announces its full length. *)
Lemma take_encode_frame k f :
  (13 <= k)%nat ->
  take k (encode_frame f) =
    be_bytes 8 (fr_timestamp f) ++ be_bytes 4 (Z.of_nat (length (fr_payload f)))
    ++ byte.of_Z (fr_flags f) :: take (k - 13) (fr_payload f).
Proof.
  intros Hk. unfold encode_frame. replace k with (8 + (4 + (1 + (k - 13))))%nat at 1 by lia.
  rewrite take_app_add' by (by rewrite length_be_bytes).
  by rewrite take_app_add' by (by rewrite length_be_bytes).
Qed.

Lemma torn_frame_broken pre f k fileSize :
  wf_frame f -> is_u32 fileSize -> (13 <= k < length (encode_frame f))%nat ->
  fileSize = Z.of_nat (length pre + k) ->
  broken_at (pre ++ take k (encode_frame f)) fileSize (Z.of_nat (length pre)).
Proof.
  intros (Hts & Hnz & Hl) Hfs [Hk1 Hk2] Hsz. rewrite length_encode_frame in Hk2.
  rewrite take_encode_frame by done. split; [lia|].
  assert (Hread : readDoubleBE (ptr (pre ++ be_bytes 8 (fr_timestamp f)
    ++ be_bytes 4 (Z.of_nat (length (fr_payload f))) ++ byte.of_Z (fr_flags f)
    :: take (k - 13) (fr_payload f)) (Z.of_nat (length pre))) = fr_timestamp f).
  { rewrite ptr_app. unfold readDoubleBE. rewrite readUint64BE_be by apply length_be_bytes.
    rewrite be_value_bytes. by apply Z.mod_small. }
  rewrite Hread. split; [done|].
  match goal with |- ?b = false => destruct b eqn:Hf; [exfalso|done] end.
  apply frameFits_spec in Hf as (_ & _ & _ & He); [|unfold is_u32 in *; lia].
  unfold frame_end, TRANSACTION_LOG_ENTRY_HEADER_SIZE in He. rewrite ptr_app_add in He by lia.
  rewrite drop_app_length' in He by (by rewrite length_be_bytes).
  rewrite readUint32BE_be, be_value_bytes in He by apply length_be_bytes.
  rewrite Z.mod_small in He by lia. lia.
Qed.

(** One round of the scan at an offset where the frames stop. *)
Lemma scanLoop_broken data fileSize fuel p :
  is_u32 fileSize -> is_u32 p -> broken_at data fileSize p -> (0 < fuel)%nat ->
  exists b, validFramingResumes data (p + 1) fileSize = Some b /\
    scanLoop fuel data fileSize p = Some (mkScan (if b then MidFileCorruption else TruncateTail) p).
Proof.
  intros Hfs Hp (Hle & Hts & Hf) Hfuel. destruct fuel as [|fuel]; [lia|]. cbn [scanLoop].
  destruct (Z.eqb_spec p fileSize); [lia|]. rewrite u64_add13 by done.
  destruct (Z.ltb_spec fileSize (p + 13)); [lia|]. rewrite Hts, frame_test, Hf by done. simpl.
  assert (is_u32 (p + 1)) by (unfold is_u32 in *; lia). rewrite u32_small by done.
  destruct (validFramingResumes_spec data fileSize Hfs (p + 1)) as (b & Hb & _); [done|].
  exists b. rewrite Hb. by destruct b.
Qed.

(** Truncating where the scan says so repairs the file: the truncated image
    scans clean up to its last byte, and no frame before the cut is lost. *)
Lemma truncation_stable data fileSize v :
  is_u32 fileSize ->
  scanTransactionLogForRecovery data fileSize = Some (mkScan TruncateTail v) ->
  scanTransactionLogForRecovery (take (Z.to_nat v) data) v = Some (mkScan Clean v) /\
  v < fileSize /\
  forall n q, chain data fileSize n 13 q -> chain (take (Z.to_nat v) data) v n 13 q.
Proof.
  intros Hfs Hscan. assert (13 < fileSize) as Hgt.
  { unfold scanTransactionLogForRecovery, TRANSACTION_LOG_FILE_HEADER_SIZE in Hscan.
    destruct (Z.leb_spec fileSize 13); [done|lia]. }
  destruct (scan_total data fileSize Hfs Hgt) as (r & Hr & Hok). rewrite Hscan in Hr.
  injection Hr as <-. pose proof (scan_ok_end _ _ _ Hfs Hgt Hok) as [Hv Hu]. simpl in *.
  pose proof (scan_ok_stuck _ _ _ Hfs Hok Hu) as Hstuck. simpl in Hstuck.
  destruct Hok as [[n Hc] [Hlt _]]. simpl in *. assert (is_u32 13) by (unfold is_u32; lia).
  assert (Hle : forall m q, chain data fileSize m 13 q -> q <= v).
  { intros m q Hm. by eapply (chain_before_stuck data fileSize Hfs n 13). }
  split_and!; [|done|].
  - destruct (decide (v = 13)) as [->|]; [by vm_compute|].
    destruct (scan_of_chain (take (Z.to_nat v) data) v n v) as ([|fuel] & Hf & ->);
      [done|lia|by eapply (chain_take data fileSize); eauto; lia|lia|lia|].
    simpl. by rewrite Z.eqb_refl.
  - intros m q Hm. eapply (chain_take data fileSize); eauto; lia.
Qed.

(** An image of complete entries is reported clean to its last byte; with
    zero padding after the entries, clean up to the padding. *)
Lemma clean_image_scan hdr fs pad :
  length hdr = 13%nat -> Forall wf_frame fs ->
  Z.of_nat (length (hdr ++ encode_frames fs) + pad) < 2 ^ 32 -> (pad = 0 \/ 13 <= pad)%nat ->
  scanTransactionLogForRecovery (hdr ++ encode_frames fs ++ replicate pad Byte.x00)
      (Z.of_nat (length (hdr ++ encode_frames fs) + pad))
  = Some (mkScan Clean (Z.of_nat (length (hdr ++ encode_frames fs)))).
Proof.
  intros Hh Hwf Hsz Hpad. set (e := length (hdr ++ encode_frames fs)) in *.
  assert (13 <= e)%nat by (subst e; rewrite length_app; lia).
  destruct (decide (e + pad = 13)%nat) as [He|].
  { assert (e = 13 /\ pad = 0)%nat as [-> ->] by lia. done. }
  destruct (scan_of_image hdr fs (replicate pad Byte.x00) (Z.of_nat (e + pad)))
    as ([|fuel] & Hf & ->); [done|done|unfold is_u32; lia|lia|lia|lia|]. fold e in Hf |- *.
  cbn [scanLoop]. destruct (Z.eqb_spec (Z.of_nat e) (Z.of_nat (e + pad))) as [->|]; [done|].
  rewrite u64_add13 by (unfold is_u32; lia). destruct (Z.ltb_spec (Z.of_nat (e + pad)) (Z.of_nat e + 13)); [lia|].
  rewrite app_assoc. subst e. rewrite ptr_app.
  replace pad with (8 + (pad - 8))%nat by lia. rewrite replicate_add.
  unfold readDoubleBE. by rewrite readUint64BE_be.
Qed.

(** A write torn anywhere inside an entry is found at the end of the last
    complete entry: the scan never cuts into a complete entry and never keeps
    part of the torn one, unless the torn payload itself frames as log data, in
    which case the file is left intact; a torn header is always cut. *)
Lemma torn_tail_scan hdr fs f k :
  length hdr = 13%nat -> Forall wf_frame fs -> wf_frame f ->
  (0 < k < length (encode_frame f))%nat ->
  Z.of_nat (length (hdr ++ encode_frames fs) + k) < 2 ^ 32 ->
  exists kd,
    scanTransactionLogForRecovery (hdr ++ encode_frames fs ++ take k (encode_frame f))
        (Z.of_nat (length (hdr ++ encode_frames fs) + k))
    = Some (mkScan kd (Z.of_nat (length (hdr ++ encode_frames fs)))) /\
    (kd = TruncateTail \/
     kd = MidFileCorruption /\ (13 <= k)%nat /\
     resumes (hdr ++ encode_frames fs ++ take k (encode_frame f))
       (Z.of_nat (length (hdr ++ encode_frames fs)) + 1)
       (Z.of_nat (length (hdr ++ encode_frames fs) + k))).
Proof.
  intros Hh Hwf Hf Hk Hsz. set (e := length (hdr ++ encode_frames fs)) in *.
  assert (13 <= e)%nat by (subst e; rewrite length_app; lia).
  set (fileSize := Z.of_nat (e + k)) in *. assert (Hfs : is_u32 fileSize) by (unfold is_u32; lia).
  destruct (scan_of_image hdr fs (take k (encode_frame f)) fileSize)
    as (fuel & Hfuel & ->); [done|done|done|lia|lia|]. fold e in Hfuel |- *.
  destruct (decide (13 <= k)%nat) as [Hge|Hlt].
  - destruct (scanLoop_broken (hdr ++ encode_frames fs ++ take k (encode_frame f)) fileSize fuel
      (Z.of_nat e)) as (b & Hb & ->); [done|unfold is_u32 in *; lia| |lia|].
    { rewrite app_assoc. apply torn_frame_broken; [done|done|lia|done]. }
    destruct (validFramingResumes_spec (hdr ++ encode_frames fs ++ take k (encode_frame f)) fileSize
      Hfs (Z.of_nat e + 1)) as (b' & Hb' & Hr); [unfold is_u32 in *; lia|].
    rewrite Hb in Hb'. injection Hb' as <-. eexists. split; [done|]. destruct b; [right|by left].
    split_and!; [done|done|by apply Hr].
  - exists TruncateTail. split; [|by left]. destruct fuel as [|fuel]; [lia|]. cbn [scanLoop].
    destruct (Z.eqb_spec (Z.of_nat e) fileSize); [lia|].
    rewrite u64_add13 by (unfold is_u32 in *; lia).
    destruct (Z.ltb_spec fileSize (Z.of_nat e + 13)); [done|lia].
Qed.

(** ** Properties *)

(** C26: the recovery scan terminates on every image and classifies it
    correctly: a run of well-formed frames ends at [validEnd]; [Clean] means
    end of file or the zero marker there, [TruncateTail] a partial header or a
    broken frame after which framing never resumes, [MidFileCorruption] a broken
    frame after which it does. *)
Theorem recovery_scan_correct data fileSize :
  is_u32 fileSize -> 13 < fileSize ->
  exists r, scanTransactionLogForRecovery data fileSize = Some r /\ scan_ok data fileSize r /\
    13 <= validEnd r <= fileSize.
Proof.
  intros Hfs Hgt. destruct (scan_total data fileSize Hfs Hgt) as (r & Hr & Hok).
  exists r. split; [done|]. split; [done|]. by apply (scan_ok_end data).
Qed.

Lemma recovery_scan_correct_witness :
  exists r, scanTransactionLogForRecovery (replicate 40 Byte.x01) 40 = Some r /\
    scan_ok (replicate 40 Byte.x01) 40 r.
Proof.
  destruct (recovery_scan_correct (replicate 40 Byte.x01) 40) as (r & H1 & H2 & _); [unfold is_u32; lia|lia|].
  exists r. split; [exact H1|exact H2].
Defined.

(** Counting agrees with the recovery scan on every image: the count is the
    number of frames the scan walks before [validEnd]; on an image of complete
    entries followed by a torn one it is the number of complete entries. *)
Theorem count_entries_correct data fileSize :
  is_u32 fileSize -> 13 < fileSize ->
  exists n r,
    countTransactionLogEntries data fileSize = Some (Z.of_nat n) /\
    scanTransactionLogForRecovery data fileSize = Some r /\
    chain data fileSize n 13 (validEnd r) /\
    (forall hdr fs f k, data = hdr ++ encode_frames fs ++ take k (encode_frame f) ->
       length hdr = 13%nat -> Forall wf_frame fs -> wf_frame f ->
       (k < length (encode_frame f))%nat -> fileSize = Z.of_nat (length data) -> n = length fs).
Proof.
  intros Hfs Hgt. assert (Hu13 : is_u32 13) by (unfold is_u32; lia).
  destruct (scan_total data fileSize Hfs Hgt) as (r & Hr & Hok).
  pose proof (scan_ok_end _ _ _ Hfs Hgt Hok) as [Hv Hu].
  pose proof (scan_ok_stuck _ _ _ Hfs Hok Hu) as Hstuck.
  destruct (countLoop_spec data fileSize Hfs (S (Z.to_nat fileSize)) 0 13)
    as (n & q & Hn & Hc & Hq & _); [constructor|lia|lia|].
  destruct Hok as [[m Hm] _].
  destruct (chain_stuck_unique _ _ _ _ _ Hc Hq _ _ Hm Hstuck) as [<- ->].
  exists n, r. split_and!; [|done|done|].
  { unfold countTransactionLogEntries, TRANSACTION_LOG_FILE_HEADER_SIZE.
    destruct (Z.leb_spec fileSize 13); [lia|]. exact Hn. }
  intros hdr fs f k -> Hh Hwf Hf Hk Hsz. rewrite app_assoc, length_app, length_take in Hsz.
  rewrite Nat.min_l in Hsz by lia.
  assert (Hce : chain (hdr ++ encode_frames fs ++ take k (encode_frame f)) fileSize (length fs) 13
     (Z.of_nat (length (hdr ++ encode_frames fs)))).
  { replace 13 with (Z.of_nat (length hdr)) by lia. apply chain_encoded; [done|done|lia]. }
  eapply (chain_stuck_unique _ _ _ _ _ Hc Hq _ _ Hce).
  destruct (decide (13 <= k)%nat).
  - rewrite app_assoc. eapply torn_frame_broken; eauto; lia.
  - unfold frameFits. rewrite u64_add13 by (unfold is_u32 in *; lia).
    destruct (Z.ltb_spec fileSize (Z.of_nat (length (hdr ++ encode_frames fs)) + 13)); [done|lia].
Qed.


(** The entry constructor lays out a frame: zero timestamp, payload length,
    no flags, payload; the recorded size is the frame's. *)
Theorem entry_layout store data :
  Z.of_nat (length data) + 13 < 2 ^ 32 ->
  let e := TransactionLogEntry_new store data (Z.of_nat (length data)) in
  entry_data e = encode_frame (mkFrame 0 0 data) /\
  entry_size e = Z.of_nat (length (entry_data e)).
Proof.
  intros Hs e. subst e. destruct (entry_new_data store data Hs) as [Hd ->].
  split; [done|]. rewrite Hd, length_encode_frame. simpl. lia.
Qed.

(** A zero-length payload, which the entry constructor accepts, is a frame
    the scans refuse: an image that ends with it is reported as torn there and
    the entry is not counted. *)
Theorem empty_entry_refused hdr fs ts flags :
  length hdr = 13%nat -> Forall wf_frame fs -> is_u64 ts -> f64_eqb ts f64_zero = false ->
  Z.of_nat (length (hdr ++ encode_frames fs) + 13) < 2 ^ 32 ->
  let data := hdr ++ encode_frames fs ++ encode_frame (mkFrame ts flags []) in
  scanTransactionLogForRecovery data (Z.of_nat (length data))
  = Some (mkScan TruncateTail (Z.of_nat (length (hdr ++ encode_frames fs)))).
Proof.
  intros Hh Hwf Hu Hts Hsz data.
  set (e := length (hdr ++ encode_frames fs)) in *.
  assert (13 <= e)%nat by (subst e; rewrite length_app; lia).
  assert (Hl : length data = (e + 13)%nat).
  { subst data e. rewrite app_assoc, (length_app (_ ++ _)), length_encode_frame. simpl. lia. }
  rewrite Hl. set (fileSize := Z.of_nat (e + 13)). assert (Hfs : is_u32 fileSize) by (unfold is_u32; lia).
  destruct (scan_of_image hdr fs (encode_frame (mkFrame ts flags [])) fileSize)
    as (fuel & Hfuel & Heq); [done|done|done|lia|lia|]. subst data. rewrite Heq. fold e in Hfuel |- *.
  destruct (scanLoop_broken (hdr ++ encode_frames fs ++ encode_frame (mkFrame ts flags [])) fileSize fuel
    (Z.of_nat e)) as (b & Hb & ->); [done|unfold is_u32 in *; lia| |lia|].
  { split; [lia|]. subst e. rewrite app_assoc.
    replace (encode_frame (mkFrame ts flags [])) with (encode_frame (mkFrame ts flags []) ++ []) by apply app_nil_r.
    rewrite read_frame_timestamp by done. split; [done|].
    match goal with |- ?b = false => destruct b eqn:Hf; [exfalso|done] end.
    apply frameFits_spec in Hf as (_ & _ & Hpos & _); [|unfold is_u32 in *; lia].
    rewrite read_frame_length in Hpos by (simpl; lia). simpl in Hpos. lia. }
  destruct b; [exfalso|done].
  destruct (validFramingResumes_spec (hdr ++ encode_frames fs ++ encode_frame (mkFrame ts flags [])) fileSize Hfs
    (Z.of_nat e + 1)) as (b' & Hb' & Hr); [unfold is_u32 in *; lia|].
  rewrite Hb in Hb'. injection Hb' as <-. destruct Hr as [(s & n & q & ? & ? & _) _]; [done|lia].
Qed.

