(* ===== verification/Os.v ===== *)
(** * The operating system under the log files

    The system calls the POSIX build makes ([transaction_log_file_posix.cpp]) on
    a world of named files, plus [core/platform.cpp].  Which calls fail, how many
    bytes a write accepts and what the clock reads are the parameters of class
    [Os], indexed by the number of calls made so far, so that every sequence of
    outcomes is some instance.  A call is interrupted finitely often before it
    completes. *)

From S2P Require Import Prelude Encoding.
From stdpp Require Import base tactics list gmap strings.
From coqutil Require Import Byte.
From Stdlib Require Import ZArith Lia Ascii.

Local Open Scope Z_scope.

(** The outcome of the [n]-th call. *)
Class Os := {
  os_fails : nat -> bool;      (* the call returns -1 / an error code *)
  os_eintr : nat -> nat;       (* EINTR returns before the call completes *)
  os_accepts : nat -> Z;       (* the most bytes a write takes *)
  os_clock : nat -> Z;         (* system_clock::now(), in nanoseconds *)
}.

(** Every call succeeds in full and the clock stands at [t]. *)
Definition os_reliable (t : Z) : Os :=
  {| os_fails := fun _ => false; os_eintr := fun _ => 0%nat;
     os_accepts := fun _ => 2 ^ 62; os_clock := fun _ => t |}.

Record inode := mkInode { i_data : bytes; i_mtime : Z }.

(** A live mapping: its extent and the number of [shared_ptr]s to it.  The
    file-backed part is the overlay recorded by the log file. *)
Record MemoryMap := mkMap { mm_mapSize : Z; mm_fileSize : Z; mm_overlay : Z; mm_refs : Z }.

Record World := mkWorld {
  w_files : gmap string inode;
  w_dirs : gset string;
  w_maps : gmap nat MemoryMap;     (* MemoryMap::liveCount is its size *)
  w_nextMap : nat;
  w_events : list (string * string);   (* emitGlobalEvent(name, path) *)
  w_tick : nat;
}.

Definition set_files (g : gmap string inode) (w : World) : World :=
  mkWorld g (w_dirs w) (w_maps w) (w_nextMap w) (w_events w) (w_tick w).
Definition set_dirs (d : gset string) (w : World) : World :=
  mkWorld (w_files w) d (w_maps w) (w_nextMap w) (w_events w) (w_tick w).
Definition set_maps (m : gmap nat MemoryMap) (w : World) : World :=
  mkWorld (w_files w) (w_dirs w) m (w_nextMap w) (w_events w) (w_tick w).
Definition emit_event (name p : string) (w : World) : World :=
  mkWorld (w_files w) (w_dirs w) (w_maps w) (w_nextMap w) (w_events w ++ [(name, p)]) (w_tick w).
Definition tock (w : World) : World :=
  mkWorld (w_files w) (w_dirs w) (w_maps w) (w_nextMap w) (w_events w) (S (w_tick w)).

Definition empty_world : World := mkWorld ∅ ∅ ∅ 0 [] 0.

(** ** Calls *)

Section Calls.
Context {OS : Os}.

(** A call whose only outcome is success or failure. *)
Definition sys : M World bool := fun w => (inr (negb (os_fails (w_tick w))), tock w).

Definition now : M World Z := fun w => (inr (os_clock (w_tick w)), tock w).

(** [std::filesystem::exists] *)
Definition fs_exists (p : string) : M World bool :=
  gets (fun w => bool_decide (is_Some (w_files w !! p) \/ p ∈ w_dirs w)).

Definition contents (p : string) (w : World) : bytes :=
  match w_files w !! p with Some i => i_data i | None => [] end.

(** Replace a file's bytes; the modification time becomes the current time. *)
Definition put_contents (p : string) (d : bytes) (w : World) : World :=
  set_files (<[p := mkInode d (os_clock (w_tick w))]> (w_files w)) w.

(** [::open(path, O_RDWR | O_CREAT | O_APPEND)] *)
Definition sys_open (p : string) : M World bool :=
  ok ← sys;
  if ok : bool then
    modify (fun w => match w_files w !! p with Some _ => w | None => put_contents p [] w end);;
    mret true
  else mret false.

(** [::fstat(fd).st_size] *)
Definition sys_fstat_size (p : string) : M World (option Z) :=
  ok ← sys;
  if ok : bool then w ← get; mret (Some (Z.of_nat (length (contents p w)))) else mret None.

(** [::pread(fd, buffer, size, offset)]: the number of bytes read, or -1, and
    the buffer.  A read that succeeds is short only at the end of the file, as it is
    for regular files on the systems the code supports; POSIX also lets a signal cut
    a read short, and that is left out. *)
Definition sys_pread (p : string) (buffer : bytes) (n off : Z) : M World (Z * bytes) :=
  ok ← sys;
  if ok : bool then
    w ← get;
    let got := take (Z.to_nat n) (drop (Z.to_nat off) (contents p w)) in
    mret (Z.of_nat (length got), got ++ drop (length got) buffer)
  else mret (-1, buffer).

(** [::write] / [::writev] on an [O_APPEND] descriptor: the bytes accepted are
    a prefix of the request, appended to the file. *)
Inductive write_result := Written (n : Z) | WriteError.

Definition sys_append (p : string) (d : bytes) : M World write_result := fun w =>
  let n := w_tick w in
  if os_fails n then (inr WriteError, tock w)
  else
    let k := Z.to_nat (Z.min (os_accepts n) (Z.of_nat (length d))) in
    (inr (Written (Z.of_nat (length (take k d)))),
     tock (put_contents p (contents p w ++ take k d) w)).

(** [::ftruncate] *)
Definition sys_ftruncate (p : string) (n : Z) : M World bool :=
  ok ← sys;
  if ok : bool then
    modify (fun w => put_contents p (take (Z.to_nat n) (contents p w)) w);; mret true
  else mret false.

(** [std::filesystem::remove]: false when there was no such file. *)
Definition fs_remove (p : string) : M World bool :=
  ok ← sys;
  if ok : bool then
    w ← get;
    match w_files w !! p with
    | Some _ => modify (fun w => set_files (delete p (w_files w)) w);; mret true
    | None => mret false
    end
  else throw (FilesystemError "remove").

(** [std::filesystem::last_write_time] *)
Definition fs_mtime (p : string) : M World Z :=
  ok ← sys;
  w ← get;
  match w_files w !! p with
  | Some i => if ok : bool then mret (i_mtime i) else throw (FilesystemError "last_write_time")
  | None => throw (FilesystemError "last_write_time")
  end.
End Calls.

(** [std::chrono::duration_cast<milliseconds>] of a nanosecond count. *)
Definition to_ms (t : Z) : Z := Z.quot t 1000000.

(** ** Reference counts of mappings *)

Definition sp_copy (id : nat) (w : World) : World :=
  set_maps (alter (fun m => mkMap (mm_mapSize m) (mm_fileSize m) (mm_overlay m) (mm_refs m + 1)) id (w_maps w)) w.

(** Dropping the last [shared_ptr] runs [~MemoryMap]: the region is unmapped. *)
Definition sp_reset (id : nat) (w : World) : World :=
  match w_maps w !! id with
  | Some m =>
      if mm_refs m <=? 1 then set_maps (delete id (w_maps w)) w
      else set_maps (<[id := mkMap (mm_mapSize m) (mm_fileSize m) (mm_overlay m) (mm_refs m - 1)]> (w_maps w)) w
  | None => w
  end.

(** ** [core/platform.cpp] *)

Section Platform.
Context {OS : Os}.

(** The proper ancestors of a path, as [create_directories] makes them. *)
Fixpoint ancestors (acc rest : string) : list string :=
  match rest with
  | EmptyString => []
  | String c r =>
      let more := ancestors (acc +:+ String c EmptyString) r in
      if Ascii.eqb c "/"%char && negb (String.eqb acc "") then acc :: more else more
  end.

(** One attempt: [create_directories] then [permissions], either may throw. *)
Definition createDirectoryOnce (p : string) : M World bool :=
  ok ← sys;
  if ok : bool then
    modify (fun w => set_dirs (list_to_set (ancestors "" p) ∪ {[p]} ∪ w_dirs w) w);;
    sys
  else mret false.

Fixpoint createDirectoryRetry (retries : nat) (p : string) : M World unit :=
  match retries with
  | O => throw (DBException ("Failed to create directory: " +:+ p))
  | S n =>
      ok ← createDirectoryOnce p;
      if ok : bool then mret tt else createDirectoryRetry n p
  end.

Definition tryCreateDirectory (p : string) : M World unit :=
  ex ← fs_exists p;
  if ex : bool then mret tt else createDirectoryRetry 3 p.
End Platform.
