(* ===== verification/LogFile.v ===== *)
(** * A transaction log file ([transaction_log_file.h], [.cpp], [_posix.cpp])

    The state of a [TransactionLogFile] and its operations over the world of
    [Os].  A method runs on the pair of the world and the object; [fileMutex]
    makes each of them atomic, except [flush], whose [fdatasync] runs unlocked. *)

From S2P Require Import Prelude Encoding LogFormat Os.
From stdpp Require Import base tactics list gmap strings.
From coqutil Require Import Byte.
From Stdlib Require Import ZArith Lia Ascii.

Local Open Scope Z_scope.

Record TransactionLogFile := mkFile {
  f_path : string;
  f_sequenceNumber : Z;
  f_open : bool;                     (* fd >= 0 *)
  f_version : Z;
  f_timestamp : Z;                   (* double *)
  f_size : Z;                        (* atomic<uint32_t> *)
  f_lastFlushedSize : Z;
  f_lastWriteTime : Z;               (* fileLastWriteTime, nanoseconds *)
  f_memoryMap : option nat;          (* strong reference *)
  f_frozenMapCache : option nat;     (* weak reference *)
  f_lastOverlaySize : Z;
  f_index : list (Z * Z);            (* positionByTimestampIndex, ascending *)
  f_lastIndexedPosition : Z;
  f_hasAppendedSinceOpen : bool;
}.

Definition set_open v f := mkFile (f_path f) (f_sequenceNumber f) v (f_version f) (f_timestamp f) (f_size f) (f_lastFlushedSize f) (f_lastWriteTime f) (f_memoryMap f) (f_frozenMapCache f) (f_lastOverlaySize f) (f_index f) (f_lastIndexedPosition f) (f_hasAppendedSinceOpen f).
Definition set_version v f := mkFile (f_path f) (f_sequenceNumber f) (f_open f) v (f_timestamp f) (f_size f) (f_lastFlushedSize f) (f_lastWriteTime f) (f_memoryMap f) (f_frozenMapCache f) (f_lastOverlaySize f) (f_index f) (f_lastIndexedPosition f) (f_hasAppendedSinceOpen f).
Definition set_timestamp v f := mkFile (f_path f) (f_sequenceNumber f) (f_open f) (f_version f) v (f_size f) (f_lastFlushedSize f) (f_lastWriteTime f) (f_memoryMap f) (f_frozenMapCache f) (f_lastOverlaySize f) (f_index f) (f_lastIndexedPosition f) (f_hasAppendedSinceOpen f).
Definition set_size v f := mkFile (f_path f) (f_sequenceNumber f) (f_open f) (f_version f) (f_timestamp f) v (f_lastFlushedSize f) (f_lastWriteTime f) (f_memoryMap f) (f_frozenMapCache f) (f_lastOverlaySize f) (f_index f) (f_lastIndexedPosition f) (f_hasAppendedSinceOpen f).
Definition set_lastFlushedSize v f := mkFile (f_path f) (f_sequenceNumber f) (f_open f) (f_version f) (f_timestamp f) (f_size f) v (f_lastWriteTime f) (f_memoryMap f) (f_frozenMapCache f) (f_lastOverlaySize f) (f_index f) (f_lastIndexedPosition f) (f_hasAppendedSinceOpen f).
Definition set_lastWriteTime v f := mkFile (f_path f) (f_sequenceNumber f) (f_open f) (f_version f) (f_timestamp f) (f_size f) (f_lastFlushedSize f) v (f_memoryMap f) (f_frozenMapCache f) (f_lastOverlaySize f) (f_index f) (f_lastIndexedPosition f) (f_hasAppendedSinceOpen f).
Definition set_memoryMap v f := mkFile (f_path f) (f_sequenceNumber f) (f_open f) (f_version f) (f_timestamp f) (f_size f) (f_lastFlushedSize f) (f_lastWriteTime f) v (f_frozenMapCache f) (f_lastOverlaySize f) (f_index f) (f_lastIndexedPosition f) (f_hasAppendedSinceOpen f).
Definition set_frozenMapCache v f := mkFile (f_path f) (f_sequenceNumber f) (f_open f) (f_version f) (f_timestamp f) (f_size f) (f_lastFlushedSize f) (f_lastWriteTime f) (f_memoryMap f) v (f_lastOverlaySize f) (f_index f) (f_lastIndexedPosition f) (f_hasAppendedSinceOpen f).
Definition set_lastOverlaySize v f := mkFile (f_path f) (f_sequenceNumber f) (f_open f) (f_version f) (f_timestamp f) (f_size f) (f_lastFlushedSize f) (f_lastWriteTime f) (f_memoryMap f) (f_frozenMapCache f) v (f_index f) (f_lastIndexedPosition f) (f_hasAppendedSinceOpen f).
Definition set_index i p f := mkFile (f_path f) (f_sequenceNumber f) (f_open f) (f_version f) (f_timestamp f) (f_size f) (f_lastFlushedSize f) (f_lastWriteTime f) (f_memoryMap f) (f_frozenMapCache f) (f_lastOverlaySize f) i p (f_hasAppendedSinceOpen f).
Definition set_hasAppended v f := mkFile (f_path f) (f_sequenceNumber f) (f_open f) (f_version f) (f_timestamp f) (f_size f) (f_lastFlushedSize f) (f_lastWriteTime f) (f_memoryMap f) (f_frozenMapCache f) (f_lastOverlaySize f) (f_index f) (f_lastIndexedPosition f) v.

(** The constructor; [fileLastWriteTime] starts at the current time. *)
Definition TransactionLogFile_new (p : string) (seq t : Z) : TransactionLogFile :=
  mkFile p seq false 1 0 0 0 t None None 0 [] TRANSACTION_LOG_FILE_TIMESTAMP_POSITION false.

(** ** The state of a method *)

Definition FM (A : Type) : Type := M (World * TransactionLogFile) A.

Definition world {A} (m : M World A) : FM A := fun '(w, f) =>
  let '(r, w') := m w in (r, (w', f)).
Definition file {A} (g : TransactionLogFile -> A) : FM A := gets (fun '(w, f) => g f).
Definition update (h : TransactionLogFile -> TransactionLogFile) : FM unit :=
  modify (fun '(w, f) => (w, h f)).
Definition update_world (h : World -> World) : FM unit :=
  modify (fun '(w, f) => (h w, f)).

Definition isOpen (f : TransactionLogFile) : bool := f_open f.

(** The part of [path] before the last ['/'], if any. *)
Fixpoint parent_path_aux (acc rest : string) : option string :=
  match rest with
  | EmptyString => None
  | String c r =>
      match parent_path_aux (acc +:+ String c EmptyString) r with
      | Some p => Some p
      | None => if Ascii.eqb c "/"%char then Some acc else None
      end
  end.
Definition parent_path (p : string) : string := default "" (parent_path_aux "" p).

(** ** Mapping pages *)

Definition PAGE : Z := 4096.
(** [(n + 4095u) & ~4095u] *)
Definition page_up (n : Z) : Z := u32 (n + 4095) - (u32 (n + 4095)) mod PAGE.

(** The byte at offset [i] of a mapping: file-backed up to the end of the last
    page of the overlay (bytes past the end of the file read as zero there),
    anonymous zero pages after it. *)
Definition map_byte (m : MemoryMap) (d : bytes) (i : nat) : byte :=
  if Z.of_nat i <? page_up (mm_overlay m) then nth i d Byte.x00 else Byte.x00.

(** [(char* ) memoryMap->map]: the mapped region. *)
Definition map_view (m : MemoryMap) (d : bytes) : bytes :=
  map_byte m d <$> seq 0 (Z.to_nat (mm_mapSize m)).

Section File.
Context {OS : Os}.

(** ** [transaction_log_file_posix.cpp] *)

(** Drop the object's strong reference. *)
Definition reset_memoryMap : FM unit :=
  m ← file f_memoryMap;
  match m with
  | Some id => update_world (sp_reset id);; update (set_memoryMap None)
  | None => mret tt
  end.

Definition close : FM unit :=
  m ← file f_memoryMap;
  when (bool_decide (is_Some m)) (reset_memoryMap;; update (set_lastOverlaySize 0));;
  o ← file f_open;
  when o (update (set_open false)).

(** The size is read under the lock, synced unlocked, recorded after. *)
Definition flush : FM unit :=
  currentSize ← file f_size;
  o ← file f_open;
  last ← file f_lastFlushedSize;
  if negb o || (currentSize <=? last) then mret tt
  else
    ok ← world sys;
    if ok : bool then update (set_lastFlushedSize currentSize)
    else p ← file f_path; throw (DBException ("Failed to flush file: " +:+ p)).

(** The parent directory, when the path has one. *)
Definition createParentDirectory (p : string) : FM unit :=
  when (negb (String.eqb (parent_path p) ""))
    (catch (world (tryCreateDirectory (parent_path p))) (fun e =>
       match e with
       | FilesystemError _ => throw (DBException ("Failed to create parent directory: " +:+ parent_path p))
       | e => throw e
       end)).

Definition openFile : FM unit :=
  o ← file f_open;
  if o : bool then mret tt
  else
    update (set_hasAppended false);;
    p ← file f_path;
    createParentDirectory p;;
    ok ← world (sys_open p);
    if ok : bool then
      update (set_open true);;
      st ← world (sys_fstat_size p);
      match st with
      | Some n => update (set_size (u32 n))
      | None => throw (DBException ("Failed to get file size: " +:+ p))
      end
    else throw (DBException ("Failed to open sequence file for read/write: " +:+ p)).

Definition readFromFile (buffer : bytes) (n off : Z) : FM (Z * bytes) :=
  p ← file f_path; world (sys_pread p buffer n off).

(** The callers ignore the result of this write. *)
Definition writeToFile (d : bytes) : FM write_result :=
  p ← file f_path; world (sys_append p d).

Definition truncateFile (newSize : Z) : FM bool :=
  o ← file f_open;
  if negb o then mret false
  else
    p ← file f_path;
    ok ← world (sys_ftruncate p newSize);
    if ok : bool then world sys;; mret true   (* a failing fsync is only logged *)
    else mret false.

Definition removeFile : FM bool :=
  m ← file f_memoryMap;
  when (bool_decide (is_Some m)) (reset_memoryMap;; update (set_lastOverlaySize 0));;
  o ← file f_open;
  when o (update (set_open false));;
  p ← file f_path;
  world (fs_remove p).

Definition IOV_MAX : nat := 1024.

(** Consume [n] written bytes from the pending iovecs. *)
Fixpoint advance_iovecs (n : nat) (iovecs : list bytes) : list bytes :=
  match iovecs with
  | [] => []
  | iov :: rest =>
      if (n =? 0)%nat then iovecs
      else if (length iov <=? n)%nat then advance_iovecs (n - length iov) rest
      else drop n iov :: rest
  end.

(** [::writev] after [k] interrupted attempts; each [EINTR] takes the
    [continue] and calls again with the same iovecs. *)
Fixpoint writev_retry (k : nat) (p : string) (iovecs : list bytes) : M World write_result :=
  match k with
  | O => sys_append p (mjoin (take IOV_MAX iovecs))
  | S k => writev_retry k p iovecs
  end.

(** The loop of [writeBatchToFile]: every round that does not return writes at
    least one byte, so the number of bytes bounds the rounds. *)
Fixpoint writev_loop (fuel : nat) (p : string) (iovecs : list bytes) (totalWritten : Z) : M World (option Z) :=
  match fuel with
  | O => mret None
  | S fuel =>
      match iovecs with
      | [] => mret (Some totalWritten)
      | _ =>
          n ← gets w_tick;
          written ← writev_retry (os_eintr n) p iovecs;
          match written with
          | WriteError => mret (Some (-1))
          | Written n =>
              if n =? 0 then mret (Some (-1))
              else writev_loop fuel p (advance_iovecs (Z.to_nat n) iovecs) (totalWritten + n)
          end
      end
  end.

Definition writeBatchToFile (iovecs : list bytes) : FM Z :=
  if (length iovecs <=? 0)%nat then mret 0
  else
    p ← file f_path;
    r ← world (writev_loop (S (length (mjoin iovecs))) p iovecs 0);
    mret (default (-1) r).   (* the fuel is enough: writev_loop_total *)

(** ** Memory maps *)

(** [updateMemoryMapOverlay]: extend the file-backed part when the file has
    grown past the last page of the overlay. *)
Definition updateMemoryMapOverlay : FM unit :=
  m ← file f_memoryMap;
  o ← file f_open;
  match m with
  | Some id =>
      if negb o then mret tt
      else
        mm ← gets (fun '(w, f) => w_maps w !! id);
        match mm with
        | Some mm =>
            sz ← file f_size;
            let actualSize := Z.min sz (mm_mapSize mm) in
            if actualSize =? 0 then mret tt
            else
              lastOverlay ← file f_lastOverlaySize;
              let overlayPageEnd := if 0 <? lastOverlay then page_up lastOverlay else 0 in
              if actualSize <=? overlayPageEnd then mret tt
              else
                ok ← world sys;
                if ok : bool then
                  update_world (fun w => set_maps
                    (<[id := mkMap (mm_mapSize mm) (mm_fileSize mm) actualSize (mm_refs mm)]> (w_maps w)) w);;
                  update (set_lastOverlaySize actualSize)
                else mret tt
        | None => mret tt
        end
  | None => mret tt
  end.

(** [frozenMapCache.lock()]: the mapping, while someone still owns it. *)
Definition lock_frozen : FM (option nat) :=
  gets (fun '(w, f) =>
    match f_frozenMapCache f with
    | Some id => match w_maps w !! id with Some _ => Some id | None => None end
    | None => None
    end).

(** Map [fileSize] anonymous bytes and overlay the file at their start; the
    fresh mapping has one owner. *)
Definition create_map (fileSize : Z) : FM (option nat) :=
  ok ← world sys;
  if negb ok then mret None
  else
    sz ← file f_size;
    o ← file f_open;
    let actualSize := Z.min sz fileSize in
    ok ← (if (0 <? actualSize) && o then world sys else mret true);
    if negb ok then mret None
    else
      update (set_lastOverlaySize actualSize);;
      id ← gets (fun '(w, f) => w_nextMap w);
      let overlay := if o : bool then actualSize else 0 in
      update_world (fun w =>
        mkWorld (w_files w) (w_dirs w) (<[id := mkMap fileSize fileSize overlay 1]> (w_maps w))
                (S id) (w_events w) (w_tick w));;
      mret (Some id).

(** The mapping to hand out: a live one that is large enough, or a new one. *)
Definition acquire_map (fileSize : Z) : FM (option nat) :=
  strong ← file f_memoryMap;
  cached ← lock_frozen;
  let map := match strong with Some id => Some id | None => cached end in
  mm ← gets (fun '(w, f) => id ← map; w_maps w !! id);
  match map, mm with
  | Some id, Some mm =>
      if fileSize <=? mm_mapSize mm then update_world (sp_copy id);; mret (Some id)
      else create_map fileSize
  | _, _ => create_map fileSize
  end.

(** [map->fileSize = fileSize], and who keeps the mapping alive. *)
Definition publish_map (id : nat) (fileSize : Z) (isCurrent : bool) : FM unit :=
  update_world (fun w => set_maps (alter (fun m =>
    mkMap (mm_mapSize m) fileSize (mm_overlay m) (mm_refs m)) id (w_maps w)) w);;
  if isCurrent : bool then
    update_world (sp_copy id);;
    reset_memoryMap;;
    update (set_memoryMap (Some id));;
    updateMemoryMapOverlay
  else
    reset_memoryMap;;
    update (set_frozenMapCache (Some id)).

(** The returned mapping is a [shared_ptr]: its count includes it. *)
Definition getMemoryMapLocked (fileSize : Z) (isCurrent : bool) : FM (option nat) :=
  if fileSize =? 0 then mret None
  else
    id ← acquire_map fileSize;
    match id with
    | None => mret None
    | Some id => publish_map id fileSize isCurrent;; mret (Some id)
    end.

Definition getMemoryMap (fileSize : Z) (isCurrent : bool) : FM (option nat) :=
  getMemoryMapLocked fileSize isCurrent.

Definition downgradeMapToFrozen : FM unit :=
  m ← file f_memoryMap;
  match m with
  | Some id => update (set_frozenMapCache (Some id));; reset_memoryMap
  | None => mret tt
  end.

(** [adviseCold]; [unsupported] is the process-wide EINVAL latch, and the page
    size is what [sysconf] returned.  The length advised is floored to a page
    boundary of the file-backed extent. *)
Definition adviseCold (unsupported : bool) (pageSize : Z) : FM Z :=
  if unsupported then mret 0
  else
    strong ← file f_memoryMap;
    cached ← lock_frozen;
    let map := match strong with Some id => Some id | None => cached end in
    mm ← gets (fun '(w, f) => id ← map; w_maps w !! id);
    match mm with
    | None => mret 0
    | Some mm =>
        sz ← file f_size;
        let actualSize := Z.min sz (mm_mapSize mm) in
        let pageSize := if pageSize <=? 0 then 4096 else pageSize in
        let length := Z.ldiff actualSize (u64 (pageSize - 1)) in
        if length =? 0 then mret 0
        else
          ok ← world sys;
          mret (if ok : bool then length else 0)
    end.

(** ** [transaction_log_file.cpp] *)

Definition getLastWriteTime : FM Z :=
  p ← file f_path;
  ex ← world (fs_exists p);
  if negb ex then throw (FilesystemError "File does not exist")
  else world (fs_mtime p).

(** An empty file gets its header; the three writes' results are ignored. *)
Definition init_header (latestTimestamp : Z) : FM unit :=
  v ← file f_version;
  writeToFile (writeUint32BE TRANSACTION_LOG_TOKEN []);;
  writeToFile (writeUint8 v []);;
  update (set_timestamp latestTimestamp);;
  writeToFile (writeDoubleBE latestTimestamp []);;
  update (set_size TRANSACTION_LOG_FILE_HEADER_SIZE).

(** [buffer] is the 13-byte stack buffer, of unspecified content. *)
Definition read_header (buffer : bytes) : FM unit :=
  p ← file f_path;
  '(r, buffer) ← readFromFile buffer TRANSACTION_LOG_FILE_HEADER_SIZE 0;
  if r <? 0 then throw (DBException ("Failed to read version from file: " +:+ p))
  else if negb (readUint32BE buffer =? TRANSACTION_LOG_TOKEN) then
    throw (DBException ("Invalid transaction log file: " +:+ p))
  else
    '(r, buffer) ← readFromFile buffer 1 4;
    if r <? 0 then throw (DBException ("Failed to read version from file: " +:+ p))
    else
      update (set_version (readUint8 buffer));;
      if negb (readUint8 buffer =? 1) then
        throw (DBException "Unsupported transaction log file version")
      else
        '(r, buffer) ← readFromFile buffer 8 5;
        if r <? 0 then throw (DBException ("Failed to read file timestamp from file: " +:+ p))
        else update (set_timestamp (readDoubleBE buffer)).

Definition open (latestTimestamp : Z) : FM unit :=
  openFile;;
  sz ← file f_size;
  (if sz =? 0 then
     t ← world now; update (set_lastWriteTime t)
   else
     p ← file f_path;
     t ← catch (world (fs_mtime p)) (fun _ => world now);
     update (set_lastWriteTime t));;
  if sz =? 0 then init_header latestTimestamp
  else if sz <? TRANSACTION_LOG_FILE_HEADER_SIZE then
    p ← file f_path;
    throw (DBException ("File is too small to be a valid transaction log file: " +:+ p))
  else read_header (replicate 13 Byte.x00).

Definition recoverTail : FM unit :=
  v ← file f_version;
  fileSize ← file f_size;
  p ← file f_path;
  if negb (v =? 1) then mret tt
  else if fileSize <=? TRANSACTION_LOG_FILE_HEADER_SIZE then mret tt
  else
    '(bytesRead, buffer) ← readFromFile (replicate (Z.to_nat fileSize) Byte.x00) fileSize 0;
    if (bytesRead <? 0) || negb (u32 bytesRead =? fileSize) then mret tt
    else
      match scanTransactionLogForRecovery buffer fileSize with
      | None => throw (Diverges "scanTransactionLogForRecovery")
      | Some scan =>
          match kind scan with
          | Clean => mret tt
          | MidFileCorruption => update_world (emit_event "log.warn" p)
          | TruncateTail =>
              if fileSize <=? validEnd scan then mret tt
              else
                ok ← truncateFile (validEnd scan);
                if ok : bool then
                  update (set_size (validEnd scan));;
                  last ← file f_lastFlushedSize;
                  when (validEnd scan <? last) (update (set_lastFlushedSize (validEnd scan)));;
                  update_world (emit_event "log.warn" p)
                else mret tt
          end
      end.

(** Reads through a fresh handle; every failure is reported as 0. *)
Definition countEntries : FM Z :=
  p ← file f_path;
  ok ← world sys;
  i ← gets (fun '(w, f) => w_files w !! p);
  match i with
  | None => mret 0
  | Some i =>
      let onDiskSize := Z.of_nat (length (i_data i)) in
      if negb ok || (onDiskSize <=? TRANSACTION_LOG_FILE_HEADER_SIZE) then mret 0
      else if 2 ^ 32 - 1 <? onDiskSize then mret 0
      else
        ok ← world sys;
        if negb ok then mret 0
        else mret (default 0 (countTransactionLogEntries (i_data i) onDiskSize))
  end.

(** ** Writing a batch *)

(** The batch is an in-out parameter: what a failing write did to it stays. *)
Definition BM (A : Type) : Type := M ((World * TransactionLogFile) * TransactionLogEntryBatch) A.
Definition on_file {A} (m : FM A) : BM A := fun '(s, b) => let '(r, s') := m s in (r, (s', b)).

(** How many entries fit: [first] is the test [i == batch.currentEntryIndex]. *)
Fixpoint entries_that_fit (fsize availableSpace total : Z) (first : bool)
    (entries : list TransactionLogEntry) : nat :=
  match entries with
  | [] => 0
  | e :: rest =>
      let spaceNeeded := u32 (total + entry_size e) in
      if ((TRANSACTION_LOG_FILE_HEADER_SIZE <? fsize) || negb first) && (availableSpace <? spaceNeeded)
      then 0
      else S (entries_that_fit fsize availableSpace spaceNeeded false rest)
  end.

(** Write the timestamp, and the last-entry flag on the last entry. *)
Definition stamp_entry (timestamp : Z) (last : bool) (e : TransactionLogEntry) : TransactionLogEntry :=
  let data := writeDoubleBE timestamp (entry_data e) in
  let data :=
    if last then
      let flags := readUint8 (drop 12 data) in
      write_at 12 (writeUint8 (Z.lor flags TRANSACTION_LOG_ENTRY_LAST_FLAG)) data
    else data in
  mkEntry (entry_store e) data (entry_size e).

(** The loop that fills the iovecs: [n] entries from [currentEntryIndex] on. *)
Fixpoint stamp_entries (n : nat) (b : TransactionLogEntryBatch) (iovecs : list bytes)
    : TransactionLogEntryBatch * list bytes :=
  match n with
  | O => (b, iovecs)
  | S n =>
      match batch_entries b !! currentEntryIndex b with
      | None => (b, iovecs)
      | Some e =>
          let last := (S (currentEntryIndex b) =? length (batch_entries b))%nat in
          let e := stamp_entry (batch_timestamp b) last e in
          stamp_entries n
            (mkBatch (batch_timestamp b) (<[currentEntryIndex b := e]> (batch_entries b))
                     (S (currentEntryIndex b)))
            (iovecs ++ [take (Z.to_nat (entry_size e)) (entry_data e)])
      end
  end.

Definition numEntriesToWrite (maxFileSize sz : Z) (b : TransactionLogEntryBatch) : nat :=
  if 0 <? maxFileSize then
    entries_that_fit sz (u32 (maxFileSize - sz)) 0 true (drop (currentEntryIndex b) (batch_entries b))
  else length (batch_entries b) - currentEntryIndex b.

Definition writeEntriesV1 (maxFileSize : Z) : BM unit :=
  sz ← on_file (file f_size);
  b ← gets snd;
  if (0 <? maxFileSize) && (maxFileSize <=? sz) then mret tt
  else
    let n := numEntriesToWrite maxFileSize sz b in
    if (n =? 0)%nat then mret tt
    else
      let '(b', iovecs) := stamp_entries n b [] in
      modify (fun '(s, _) => (s, b'));;
      bytesWritten ← on_file (writeBatchToFile iovecs);
      p ← on_file (file f_path);
      if bytesWritten <? 0 then
        throw (DBException ("Failed to write transaction log entries to file: " +:+ p))
      else
        on_file (update (fun f => set_size (u32 (f_size f + u32 bytesWritten)) f));;
        on_file updateMemoryMapOverlay.

Definition writeEntries (maxFileSize : Z) : BM unit :=
  on_file (update (set_hasAppended true));;
  v ← on_file (file f_version);
  if v =? 1 then writeEntriesV1 maxFileSize
  else throw (DBException "Unsupported transaction log file version").

(** ** Searching by timestamp *)

(** [std::map<double, uint32_t>::insert]: no effect when an equivalent key is
    present. *)
Fixpoint idx_insert (t pos : Z) (idx : list (Z * Z)) : list (Z * Z) :=
  match idx with
  | [] => [(t, pos)]
  | (t', pos') :: rest =>
      if f64_ltb t t' then (t, pos) :: idx
      else if f64_ltb t' t then (t', pos') :: idx_insert t pos rest
      else idx
  end.

(** [rbegin()->first] *)
Definition idx_last (idx : list (Z * Z)) : option Z := fst <$> last idx.

(** [lower_bound(t)]: the first key that is not less than [t]. *)
Fixpoint idx_lower_bound (t : Z) (idx : list (Z * Z)) : option Z :=
  match idx with
  | [] => None
  | (t', pos) :: rest => if f64_ltb t' t then idx_lower_bound t rest else Some pos
  end.

(** One run of the indexing loop over the mapped bytes [view].  The result is
    [stoppedAtUnindexedTail]. *)
Fixpoint index_loop (fuel : nat) (view : bytes) (f : TransactionLogFile)
    : (exn + bool) * TransactionLogFile :=
  match fuel with
  | O => (inl (Diverges "findPositionByTimestamp"), f)
  | S fuel =>
      let pos := f_lastIndexedPosition f in
      if pos <? f_size f then
        if Z.of_nat (length view) <? pos + 8 then (inl (OutOfRange "memory map"), f)
        else
          let entryTimestamp := readDoubleBE (ptr view pos) in
          if f64_eqb entryTimestamp f64_zero then
            if negb (f_hasAppendedSinceOpen f) then (inr false, set_size pos f)
            else (inr true, f)
          else if pos =? TRANSACTION_LOG_FILE_TIMESTAMP_POSITION then
            index_loop fuel view
              (set_index (idx_insert entryTimestamp 0 (f_index f)) TRANSACTION_LOG_FILE_HEADER_SIZE f)
          else
            let idx :=
              match idx_last (f_index f) with
              | Some t => if f64_ltb t entryTimestamp then idx_insert entryTimestamp pos (f_index f)
                          else f_index f
              | None => f_index f
              end in
            if Z.of_nat (length view) <? pos + 12 then (inl (OutOfRange "memory map"), set_index idx pos f)
            else
              index_loop fuel view
                (set_index idx
                   (u32 (pos + u32 (TRANSACTION_LOG_ENTRY_HEADER_SIZE + readUint32BE (ptr view (pos + 8))))) f)
      else (inr false, f)
  end.

(** Each round moves [lastIndexedPosition] or exits; when it has taken as many
    rounds as there are offsets below [size], an offset repeats and the loop
    never exits. *)
Definition run_index (view : bytes) : FM bool := fun '(w, f) =>
  let '(r, f') := index_loop (S (Z.to_nat (f_size f))) view f in (r, (w, f')).

Definition findPositionByTimestamp (timestamp mapSize : Z) (isCurrent : bool) : FM Z :=
  m ← getMemoryMapLocked mapSize isCurrent;
  match m with
  | None => mret 0xFFFFFFFF
  | Some id =>
      view ← gets (fun '(w, f) =>
        match w_maps w !! id with
        | Some mm => map_view mm (contents (f_path f) w)
        | None => []
        end);
      stopped ← run_index view;
      idx ← file f_index;
      pos ← file f_lastIndexedPosition;
      update_world (sp_reset id);;
      match idx_lower_bound timestamp idx with
      | Some p => mret p
      | None => mret (if stopped : bool then pos else 0xFFFFFFFF)
      end
  end.
End File.
