(* ===== verification/LogFileProofs.v ===== *)
(** * Correctness of the log file operations

    The vectored write, the batch write, the header round trip, tail recovery
    and the timestamp index of [LogFile]. *)

From S2P Require Import Prelude Encoding LogFormat Os LogFile.
From stdpp Require Import base tactics list gmap strings.
From coqutil Require Import Byte.
From Stdlib Require Import ZArith Lia.

Local Open Scope Z_scope.

(** ** Framing of world changes *)

(** [w'] differs from [w] at most in the file [p] and the call count. *)
Definition touches (p : string) (w w' : World) : Prop :=
  (forall q, q <> p -> w_files w' !! q = w_files w !! q) /\
  w_dirs w' = w_dirs w /\ w_maps w' = w_maps w /\ w_nextMap w' = w_nextMap w /\
  w_events w' = w_events w /\ (w_tick w <= w_tick w')%nat.

Lemma touches_refl p w : touches p w w.
Proof. by repeat split. Qed.

Lemma touches_trans p w1 w2 w3 : touches p w1 w2 -> touches p w2 w3 -> touches p w1 w3.
Proof.
  intros (H1 & H2 & H3 & H4 & H5 & H6) (G1 & G2 & G3 & G4 & G5 & G6).
  split_and!; [|congruence..|lia]. intros q Hq. by rewrite G1, H1.
Qed.

#[export] Hint Resolve touches_refl : rdb.
#[export] Hint Resolve touches_trans : rdb.

Lemma touches_tock p w : touches p w (tock w).
Proof. repeat split. simpl. lia. Qed.

Section Frame.
Context {OS : Os}.

Lemma touches_put p d w : touches p w (put_contents p d w).
Proof.
  split_and!; try done. intros q Hq. unfold put_contents, set_files. simpl.
  by rewrite lookup_insert_ne.
Qed.

Lemma contents_put p d w : contents p (put_contents p d w) = d.
Proof. unfold contents, put_contents, set_files. simpl. by rewrite lookup_insert_eq. Qed.

Lemma contents_tock p w : contents p (tock w) = contents p w.
Proof. done. Qed.

(** No call fails, and a write takes at least a byte. *)
Definition os_willing : Prop := forall n, os_fails n = false /\ 1 <= os_accepts n.

(** The append: all of a prefix of the request, or nothing. *)
Lemma sys_append_spec p d w :
  exists r w', sys_append p d w = (inr r, w') /\ touches p w w' /\
    match r with
    | Written n => exists k, (k <= length d)%nat /\ n = Z.of_nat k /\
        contents p w' = contents p w ++ take k d /\ (os_willing -> d <> [] -> k <> 0%nat)
    | WriteError => contents p w' = contents p w /\ ~ os_willing
    end.
Proof.
  unfold sys_append. destruct (os_fails (w_tick w)) eqn:Hf.
  { eexists _, _. split; [done|]. split; [apply touches_tock|]. split; [done|].
    intros Hw. destruct (Hw (w_tick w)). congruence. }
  set (k := Z.to_nat (Z.min (os_accepts (w_tick w)) (Z.of_nat (length d)))).
  eexists _, _. split; [done|]. split.
  { eapply touches_trans; [apply touches_put|apply touches_tock]. }
  exists k. assert (k <= length d)%nat by (subst k; lia).
  rewrite length_take, contents_tock, contents_put. split_and!; [lia|lia|done|].
  intros Hw Hd. destruct (Hw (w_tick w)). destruct d; [done|]. subst k. simpl in *. lia.
Qed.

Lemma writev_retry_append k p iovecs :
  writev_retry k p iovecs = sys_append p (mjoin (take IOV_MAX iovecs)).
Proof. induction k; simpl; auto. Qed.
End Frame.

(** ** [writeBatchToFile] *)

Lemma mjoin_take_drop n (l : list bytes) : mjoin l = mjoin (take n l) ++ mjoin (drop n l).
Proof. by rewrite <- join_app, take_drop. Qed.

Lemma advance_iovecs_spec n (l : list bytes) :
  (n <= length (mjoin l))%nat -> mjoin (advance_iovecs n l) = drop n (mjoin l).
Proof.
  revert n. induction l as [|iov l IH]; intros n Hn; cbn [advance_iovecs].
  { by destruct n. }
  cbn [mjoin list_join] in *. fold (mjoin l) in *.
  destruct (Nat.eqb_spec n 0) as [->|]; [done|].
  destruct (Nat.leb_spec (length iov) n).
  - rewrite IH by (unfold mjoin in *; rewrite length_app in Hn; lia).
    by rewrite drop_app_ge by lia.
  - cbn [mjoin list_join]. by rewrite drop_app_le by lia.
Qed.

Lemma advance_iovecs_nonempty n (l : list bytes) :
  Forall (fun v => v <> []) l -> Forall (fun v => v <> []) (advance_iovecs n l).
Proof.
  revert n. induction l as [|iov l IH]; intros n Hl; cbn [advance_iovecs]; [done|].
  inversion_clear Hl. destruct (Nat.eqb_spec n 0); [by constructor|].
  destruct (Nat.leb_spec (length iov) n); [by apply IH|]. constructor; [|done].
  intros Hd. apply (f_equal length) in Hd. rewrite length_drop in Hd. simpl in Hd. lia.
Qed.

Section Writev.
Context {OS : Os}.

(** Enough fuel: the loop returns; on success everything was appended, on
    failure a proper prefix. *)
Lemma writev_loop_total fuel p iovecs total w :
  Forall (fun v => v <> []) iovecs -> (length (mjoin iovecs) < fuel)%nat ->
  exists r w', writev_loop fuel p iovecs total w = (inr (Some r), w') /\ touches p w w' /\
    ((r = total + Z.of_nat (length (mjoin iovecs)) /\ contents p w' = contents p w ++ mjoin iovecs) \/
     (r = -1 /\ ~ os_willing /\ exists k, (k < length (mjoin iovecs))%nat /\
        contents p w' = contents p w ++ take k (mjoin iovecs))).
Proof.
  revert iovecs total w. induction fuel as [|fuel IH]; intros iovecs total w Hne Hfuel; [lia|].
  cbn [writev_loop]. destruct iovecs as [|iov rest].
  { eexists _, _. split; [done|]. split; [apply touches_refl|]. left. simpl. rewrite app_nil_r. split; [lia|done]. }
  set (iovecs := iov :: rest) in *.
  assert (Hpos : (0 < length (mjoin iovecs))%nat).
  { inversion_clear Hne as [|?? Hi _]. subst iovecs. simpl. rewrite length_app.
    destruct iov; [done|simpl; lia]. }
  mrun. rewrite writev_retry_append.
  destruct (sys_append_spec p (mjoin (take IOV_MAX iovecs)) w) as (r & w1 & -> & Ht & Hr).
  assert (Hpre : mjoin iovecs = mjoin (take IOV_MAX iovecs) ++ mjoin (drop IOV_MAX iovecs))
    by apply mjoin_take_drop.
  destruct r as [n|].
  2:{ eexists _, _. split; [done|]. split; [done|]. right. split; [done|]. destruct Hr as [Hr Hnw].
      split; [done|]. exists 0%nat. split; [lia|]. by rewrite app_nil_r. }
  destruct Hr as (k & Hk & -> & Hc & Hw).
  assert (Hne1 : mjoin (take IOV_MAX iovecs) <> []).
  { subst iovecs. inversion_clear Hne as [|?? Hi _]. change IOV_MAX with (S 1023). cbn [take].
    change (mjoin (iov :: take 1023 rest)) with (iov ++ mjoin (take 1023 rest)). by destruct iov. }
  assert (Htake : take k (mjoin (take IOV_MAX iovecs)) = take k (mjoin iovecs)).
  { rewrite Hpre. by rewrite take_app_le. }
  rewrite Htake in Hc. destruct (Z.eqb_spec (Z.of_nat k) 0) as [Hz|Hz].
  { eexists _, _. split; [done|]. split; [done|]. right. split; [done|].
    split; [intros Hw'; specialize (Hw Hw' Hne1); lia|]. exists k. split; [lia|done]. }
  assert (Hkl : (k <= length (mjoin iovecs))%nat) by (rewrite Hpre, length_app; lia).
  rewrite Nat2Z.id. pose proof (advance_iovecs_spec k iovecs Hkl) as Hadv.
  destruct (IH (advance_iovecs k iovecs) (total + Z.of_nat k) w1) as (r & w2 & -> & Ht2 & Hr).
  { by apply advance_iovecs_nonempty. }
  { rewrite Hadv, length_drop. lia. }
  rewrite Hadv, length_drop, Hc in Hr. exists r, w2. split; [done|].
  split; [by eapply touches_trans|]. destruct Hr as [[-> Hr]|[-> (Hnw & j & Hj & Hr)]].
  - left. split; [lia|]. by rewrite Hr, <- app_assoc, take_drop.
  - right. split; [done|]. split; [done|]. exists (k + j)%nat. split; [lia|].
    by rewrite Hr, <- app_assoc, take_take_drop.
Qed.

Lemma writeBatchToFile_spec iovecs w f :
  Forall (fun v => v <> []) iovecs ->
  exists r w', writeBatchToFile iovecs (w, f) = (inr r, (w', f)) /\ touches (f_path f) w w' /\
    ((r = Z.of_nat (length (mjoin iovecs)) /\
      contents (f_path f) w' = contents (f_path f) w ++ mjoin iovecs) \/
     (r = -1 /\ ~ os_willing /\ exists k, (k < length (mjoin iovecs))%nat /\
        contents (f_path f) w' = contents (f_path f) w ++ take k (mjoin iovecs))).
Proof.
  intros Hne. unfold writeBatchToFile. destruct (Nat.leb_spec (length iovecs) 0) as [Hz|Hz].
  { destruct iovecs; [|simpl in Hz; lia]. eexists _, _. split; [done|].
    split; [apply touches_refl|]. left. by rewrite app_nil_r. }
  destruct (writev_loop_total (S (length (mjoin iovecs))) (f_path f) iovecs 0 w Hne)
    as (r & w' & Hl & Ht & Hr); [lia|].
  exists r, w'. split; [|done].
  unfold file, world. mrun. by rewrite Hl.
Qed.
End Writev.

(** ** Stamping a batch *)

(** The buffer of [e] is the encoding of frame [fr]. *)
Definition entry_holds (e : TransactionLogEntry) (fr : frame) : Prop :=
  entry_data e = encode_frame fr /\ entry_size e = Z.of_nat (length (encode_frame fr)).

(** The frames a batch of payloads becomes: one timestamp, the last one flagged. *)
Definition batch_frames (ts : Z) (ps : list bytes) : list frame :=
  imap (fun i p => mkFrame ts (if (S i =? length ps)%nat then 1 else 0) p) ps.

(** [b] carries the payloads [ps], those from [currentEntryIndex] on still
    unstamped. *)
Definition batch_ok (b : TransactionLogEntryBatch) (ps : list bytes) : Prop :=
  length (batch_entries b) = length ps /\ (currentEntryIndex b <= length ps)%nat /\
  forall i e p, (currentEntryIndex b <= i)%nat -> batch_entries b !! i = Some e -> ps !! i = Some p ->
    exists t, entry_holds e (mkFrame t 0 p).

Lemma length_batch_frames ts ps : length (batch_frames ts ps) = length ps.
Proof. apply length_imap. Qed.

Lemma batch_frames_lookup ts ps i p :
  ps !! i = Some p ->
  batch_frames ts ps !! i = Some (mkFrame ts (if (S i =? length ps)%nat then 1 else 0) p).
Proof. intros Hp. unfold batch_frames. by rewrite list_lookup_imap, Hp. Qed.

Lemma batch_new_ok store ts ps :
  Forall (fun p => Z.of_nat (length p) + 13 < 2 ^ 32) ps ->
  batch_ok (foldl (fun b p => addEntry b (TransactionLogEntry_new store p (Z.of_nat (length p))))
              (TransactionLogEntryBatch_new ts) ps) ps.
Proof.
  intros Hps.
  assert (Hfold : forall l b, batch_entries (foldl (fun b p => addEntry b (TransactionLogEntry_new store p (Z.of_nat (length p)))) b l)
      = batch_entries b ++ ((fun p => TransactionLogEntry_new store p (Z.of_nat (length p))) <$> l) /\
      currentEntryIndex (foldl (fun b p => addEntry b (TransactionLogEntry_new store p (Z.of_nat (length p)))) b l)
      = currentEntryIndex b).
  { induction l as [|p l IH]; intros b; simpl; [by rewrite app_nil_r|].
    destruct (IH (addEntry b (TransactionLogEntry_new store p (Z.of_nat (length p))))) as [-> ->].
    simpl. by rewrite <- app_assoc. }
  destruct (Hfold ps (TransactionLogEntryBatch_new ts)) as [He Hc]. unfold batch_ok.
  rewrite He, Hc. simpl. split_and!; [by rewrite length_fmap|lia|].
  intros i e p _ Hi Hp. rewrite list_lookup_fmap, Hp in Hi. injection Hi as <-.
  exists 0. rewrite Forall_lookup in Hps. destruct (entry_new_data store p) as [Hd Hs]; [by eapply Hps|].
  split; [done|]. rewrite Hs, length_encode_frame. simpl. lia.
Qed.

Lemma stamp_entry_holds ts last e t p :
  entry_holds e (mkFrame t 0 p) ->
  entry_holds (stamp_entry ts last e) (mkFrame ts (if last then 1 else 0) p).
Proof.
  intros [Hd Hs]. unfold entry_holds, stamp_entry. cbn [entry_data entry_size].
  rewrite Hs, !length_encode_frame. split; [|done]. rewrite Hd. unfold encode_frame, writeDoubleBE.
  cbn [fr_timestamp fr_flags fr_payload].
  rewrite writeUint64BE_be, (drop_app_length' (be_bytes 8 t)) by (by rewrite length_be_bytes).
  destruct last; [|done].
  set (hd := be_bytes 8 ts ++ be_bytes 4 (Z.of_nat (length p))).
  assert (Hh : length hd = 12%nat) by (subst hd; by rewrite length_app, !length_be_bytes).
  rewrite (app_assoc (be_bytes 8 ts) (be_bytes 4 _)). fold hd.
  rewrite drop_app_length' by done. rewrite write_at_app by done.
  rewrite (app_assoc (be_bytes 8 ts) (be_bytes 4 _)). done.
Qed.

Lemma stamp_entries_spec n b io ps :
  batch_ok b ps -> (currentEntryIndex b + n <= length ps)%nat ->
  exists b', stamp_entries n b io
    = (b', io ++ (encode_frame <$> take n (drop (currentEntryIndex b) (batch_frames (batch_timestamp b) ps)))) /\
    batch_ok b' ps /\ currentEntryIndex b' = (currentEntryIndex b + n)%nat /\
    batch_timestamp b' = batch_timestamp b.
Proof.
  revert b io. induction n as [|n IH]; intros b io Hok Hn; cbn [stamp_entries].
  { exists b. rewrite app_nil_r. split_and!; [done|done|lia|done]. }
  pose proof Hok as (Hlen & Hcur & Hall).
  destruct (lookup_lt_is_Some_2 (batch_entries b) (currentEntryIndex b)) as [e He]; [lia|].
  destruct (lookup_lt_is_Some_2 ps (currentEntryIndex b)) as [p Hp]; [lia|].
  destruct (Hall _ _ _ (Nat.le_refl _) He Hp) as [t Ht]. rewrite He, Hlen.
  set (last := (S (currentEntryIndex b) =? length ps)%nat).
  pose proof (stamp_entry_holds (batch_timestamp b) last e t p Ht) as Hst.
  edestruct IH as (b' & -> & Hok' & Hc' & Ht'); cycle 2.
  - exists b'. cbn [batch_timestamp currentEntryIndex] in *. split_and!; [|done|lia|done]. f_equal.
    rewrite <- app_assoc. f_equal. destruct Hst as [Hd Hs].
    rewrite Hd, Hs, Nat2Z.id, firstn_all.
    rewrite (drop_S _ _ _ (batch_frames_lookup _ _ _ _ Hp)). done.
  - split_and!; cbn [batch_entries currentEntryIndex]; [by rewrite length_insert|lia|].
    intros i e' p' Hi He' Hp'. rewrite list_lookup_insert_ne in He' by lia.
    apply (Hall i e' p'); [lia|done|done].
  - cbn [currentEntryIndex]. lia.
Qed.

(** ** Which entries fit *)

Definition entries_bytes (es : list TransactionLogEntry) : Z := foldr (fun e n => entry_size e + n) 0 es.

Lemma entries_that_fit_le fsize avail total first es :
  (entries_that_fit fsize avail total first es <= length es)%nat.
Proof.
  revert total first. induction es as [|e es IH]; intros total first; simpl; [lia|].
  destruct (_ && _); [lia|]. specialize (IH (u32 (total + entry_size e)) false). lia.
Qed.

(** What is accepted stays within the space, except a first entry written to a
    file that holds only its header. *)
Lemma entries_that_fit_space fsize avail total first es :
  0 <= total -> Forall (fun e => 0 <= entry_size e) es -> total + entries_bytes es < 2 ^ 32 ->
  let n := entries_that_fit fsize avail total first es in
  n = 0%nat \/ total + entries_bytes (take n es) <= avail \/
  (n = 1%nat /\ first = true /\ fsize <= 13).
Proof.
  intros Ht Hes Hlt. simpl. revert total first Ht Hlt.
  induction es as [|e es IH]; intros total first Ht Hlt; simpl; [by left|].
  inversion_clear Hes as [|?? He Hrest]. cbn [entries_bytes foldr] in Hlt.
  assert (0 <= entries_bytes es).
  { clear -Hrest. induction Hrest; simpl; lia. }
  fold (entries_bytes es) in Hlt. rewrite (u32_small (total + _)) by (unfold is_u32; lia).
  destruct (((13 <? fsize) || negb first) && (avail <? total + entry_size e)) eqn:Hc.
  { left. unfold TRANSACTION_LOG_FILE_HEADER_SIZE. by rewrite Hc. }
  right. unfold TRANSACTION_LOG_FILE_HEADER_SIZE. rewrite Hc.
  cbn [take entries_bytes foldr]. fold (entries_bytes (take (entries_that_fit fsize avail (total + entry_size e) false es) es)).
  destruct (IH Hrest (total + entry_size e) false) as [Hz|[Hle|(_ & Hf & _)]]; [lia|lia|..|done].
  - rewrite Hz. simpl. destruct (decide (total + entry_size e <= avail)); [left; lia|right].
    apply andb_false_iff in Hc as [Hc|Hc]; [|lia]. destruct first; [|by rewrite orb_true_r in Hc].
    split_and!; [lia|done|]. rewrite orb_false_r in Hc. lia.
  - left. lia.
Qed.

Lemma batch_ok_sizes b ps :
  batch_ok b ps ->
  Forall2 (fun e fr => entry_size e = Z.of_nat (length (encode_frame fr)))
    (drop (currentEntryIndex b) (batch_entries b))
    (drop (currentEntryIndex b) (batch_frames (batch_timestamp b) ps)).
Proof.
  intros (Hlen & Hcur & Hall). apply Forall2_same_length_lookup. split.
  { by rewrite !length_drop, length_batch_frames, Hlen. }
  intros i e fr He Hfr. rewrite lookup_drop in He. rewrite lookup_drop in Hfr.
  destruct (lookup_lt_is_Some_2 ps (currentEntryIndex b + i)) as [p Hp].
  { apply lookup_lt_Some in He. lia. }
  rewrite (batch_frames_lookup _ _ _ _ Hp) in Hfr. injection Hfr as <-.
  destruct (Hall (currentEntryIndex b + i)%nat e p) as (t & _ & ->); [lia|done|done|].
  by rewrite !length_encode_frame.
Qed.

Lemma entries_bytes_frames n es frs :
  Forall2 (fun e fr => entry_size e = Z.of_nat (length (encode_frame fr))) es frs ->
  entries_bytes (take n es) = Z.of_nat (length (encode_frames (take n frs))).
Proof.
  intros H. revert n. induction H as [|e fr es frs He H IH]; intros [|n]; try done.
  cbn [take entries_bytes foldr]. rewrite encode_frames_cons, length_app, He.
  specialize (IH n). unfold entries_bytes in IH. rewrite IH. lia.
Qed.

Lemma encode_frame_nonempty f : encode_frame f <> [].
Proof. intros H. apply (f_equal length) in H. rewrite length_encode_frame in H. simpl in H. lia. Qed.

Lemma encode_frames_take_le n frs :
  (length (encode_frames (take n frs)) <= length (encode_frames frs))%nat.
Proof.
  rewrite <- (take_drop n frs) at 2. rewrite encode_frames_app, length_app. lia.
Qed.

Section WriteEntries.
Context {OS : Os}.

(** Extending the overlay touches only mappings and the overlay size. *)
Lemma updateMemoryMapOverlay_frame w f :
  exists w' v, updateMemoryMapOverlay (w, f) = (inr tt, (w', set_lastOverlaySize v f)) /\
    w_files w' = w_files w /\ w_dirs w' = w_dirs w /\ w_events w' = w_events w.
Proof.
  unfold updateMemoryMapOverlay, file, update, update_world, world, sys. mrun.
  assert (Hid : forall w, exists w' v, (inr tt, (w, f)) = ((inr tt : exn + unit), (w', set_lastOverlaySize v f)) /\
    w_files w' = w_files w /\ w_dirs w' = w_dirs w /\ w_events w' = w_events w).
  { intros w0. exists w0, (f_lastOverlaySize f). by destruct f. }
  destruct (f_memoryMap f) as [id|]; [|apply Hid].
  destruct (negb (f_open f)); [apply Hid|].
  destruct (w_maps w !! id) as [mm|]; [|apply Hid].
  destruct (_ =? 0); [apply Hid|]. destruct (_ <=? _); [apply Hid|].
  destruct (negb (os_fails (w_tick w))).
  - eexists _, _. split; [done|]. done.
  - destruct (Hid (tock w)) as (w' & v & -> & ?). by exists w', v.
Qed.

Section OneBatch.
Variables (b : TransactionLogEntryBatch) (ps : list bytes).
Variables (maxFileSize : Z) (sz : Z).
Hypotheses (Hok : batch_ok b ps) (Hmax : is_u32 maxFileSize) (Hsz : is_u32 sz).

Let c := currentEntryIndex b.
Let frs := drop c (batch_frames (batch_timestamp b) ps).
Let n := numEntriesToWrite maxFileSize sz b.

Lemma numEntries_le : (c + n <= length ps)%nat.
Proof using Hok.
  destruct Hok as (Hlen & Hcur & _). unfold n, numEntriesToWrite. destruct (0 <? maxFileSize).
  - pose proof (entries_that_fit_le sz (u32 (maxFileSize - sz)) 0 true (drop c (batch_entries b))) as Hle.
    rewrite length_drop in Hle. subst c. lia.
  - subst c. lia.
Qed.

(** The file limit: only a first entry in a fresh file may pass it. *)
Lemma numEntries_fit :
  sz + Z.of_nat (length (encode_frames frs)) < 2 ^ 32 -> 0 < maxFileSize -> sz < maxFileSize ->
  n = 0%nat \/ sz + Z.of_nat (length (encode_frames (take n frs))) <= maxFileSize \/
  (n = 1%nat /\ sz <= 13).
Proof using Hok Hmax Hsz.
  intros Hbytes Hpos Hlt. pose proof (batch_ok_sizes b ps Hok) as Hsizes. fold c frs in Hsizes.
  assert (n = entries_that_fit sz (u32 (maxFileSize - sz)) 0 true (drop c (batch_entries b))) as Hne.
  { unfold n, numEntriesToWrite. by destruct (Z.ltb_spec 0 maxFileSize); [|lia]. }
  destruct (entries_that_fit_space sz (u32 (maxFileSize - sz)) 0 true (drop c (batch_entries b)))
    as [Hz|[Hz|Hz]].
  - lia.
  - apply Forall_forall. intros e He. apply list_elem_of_lookup in He as [i He].
    destruct (Forall2_lookup_l _ _ _ _ _ Hsizes He) as (fr & _ & ->). lia.
  - rewrite <- (firstn_all (drop c (batch_entries b))).
    rewrite (entries_bytes_frames _ _ _ Hsizes). rewrite firstn_all2; [unfold is_u32 in *; lia|].
    by rewrite (Forall2_length _ _ _ Hsizes).
  - left. by rewrite Hne.
  - right. left. rewrite <- Hne in Hz. rewrite (entries_bytes_frames _ _ _ Hsizes) in Hz.
    rewrite u32_small in Hz by (unfold is_u32 in *; lia). lia.
  - right. right. rewrite Hne. naive_solver.
Qed.

(** A fresh file always takes an entry. *)
Lemma numEntries_progress :
  (c < length ps)%nat -> maxFileSize = 0 \/ sz <= 13 -> (0 < n)%nat.
Proof using Hok Hmax.
  destruct Hok as (Hlen & _). intros Hc Hcase. unfold n, numEntriesToWrite.
  destruct (Z.ltb_spec 0 maxFileSize) as [|Hle]; [|subst c; lia].
  destruct (drop (currentEntryIndex b) (batch_entries b)) as [|e rest] eqn:Hd.
  { apply (f_equal length) in Hd. rewrite length_drop in Hd. simpl in Hd. subst c. lia. }
  cbn [entries_that_fit negb]. unfold TRANSACTION_LOG_FILE_HEADER_SIZE.
  assert ((13 <? sz) = false) as -> by lia. cbn [orb andb]. lia.
Qed.
End OneBatch.

(** What a batch write did: [n] entries consumed, and either all of them are in
    the file or a proper prefix of their bytes. *)
Definition wrote (p : string) (fs : list frame) (n : nat) (w : World) (f : TransactionLogFile)
    (r : exn + unit) (w' : World) (f' : TransactionLogFile) : Prop :=
  (r = inr tt /\
   contents p w' = contents p w ++ encode_frames (take n fs) /\
   f_size f' = f_size f + Z.of_nat (length (encode_frames (take n fs)))) \/
  (r = inl (DBException ("Failed to write transaction log entries to file: " +:+ p)) /\
   (0 < n)%nat /\ f_size f' = f_size f /\ ~ os_willing /\
   exists k, (k < length (encode_frames (take n fs)))%nat /\
     contents p w' = contents p w ++ take k (encode_frames (take n fs))).

Lemma wrote_nothing p fs w f f' : f_size f' = f_size f -> wrote p fs 0 w f (inr tt) w f'.
Proof. intros Hs. left. rewrite take_0, Hs. simpl. rewrite app_nil_r. split_and!; [done|done|lia]. Qed.

Lemma writeEntries_run b ps w f maxFileSize :
  batch_ok b ps -> f_version f = 1 -> is_u32 maxFileSize -> is_u32 (f_size f) ->
  let c := currentEntryIndex b in
  let frs := drop c (batch_frames (batch_timestamp b) ps) in
  f_size f + Z.of_nat (length (encode_frames frs)) < 2 ^ 32 ->
  exists r w' f' b' n,
    writeEntries maxFileSize ((w, f), b) = (r, ((w', f'), b')) /\
    (exists v s, f' = set_lastOverlaySize v (LogFile.set_size s (set_hasAppended true f))) /\
    batch_timestamp b' = batch_timestamp b /\
    (forall q, q <> f_path f -> w_files w' !! q = w_files w !! q) /\
    batch_ok b' ps /\ currentEntryIndex b' = (c + n)%nat /\ (c + n <= length ps)%nat /\
    wrote (f_path f) frs n w f r w' f' /\
    (r = inr tt -> w' = w /\ f' = set_hasAppended true f \/
       exists w1 s, touches (f_path f) w w1 /\
         updateMemoryMapOverlay (w1, LogFile.set_size s (set_hasAppended true f)) = (inr tt, (w', f'))) /\
    (0 < maxFileSize -> n = 0%nat \/
       f_size f + Z.of_nat (length (encode_frames (take n frs))) <= maxFileSize \/
       (n = 1%nat /\ f_size f <= 13)) /\
    ((c < length ps)%nat -> maxFileSize = 0 \/ (f_size f <= 13 /\ 13 < maxFileSize) -> (0 < n)%nat).
Proof.
  intros Hok Hv Hmax Hsz c frs Hbytes.
  unfold writeEntries, writeEntriesV1, on_file, update, file. mrun. cbn [f_version set_hasAppended f_size].
  rewrite Hv, Z.eqb_refl. cbn [snd].
  set (f1 := set_hasAppended true f). change (f_size f1) with (f_size f).
  assert (Hid : exists v s, f1 = set_lastOverlaySize v (LogFile.set_size s (set_hasAppended true f)))
    by (exists (f_lastOverlaySize f1), (f_size f1); by destruct f).
  destruct ((0 <? maxFileSize) && (maxFileSize <=? f_size f)) eqn:Hfull.
  { exists (inr tt), w, f1, b, 0%nat. pose proof Hok as (_ & Hcur & _).
    split_and!; try done; try (subst c; lia); [by apply wrote_nothing|by left]. }
  assert (Hlt : 0 < maxFileSize -> f_size f < maxFileSize)
    by (intros; apply andb_false_iff in Hfull as [?|?]; lia).
  pose proof (numEntries_le b ps maxFileSize (f_size f) Hok) as Hn.
  pose proof (numEntries_progress b ps maxFileSize (f_size f) Hok Hmax) as Hprog.
  pose proof (numEntries_fit b ps maxFileSize (f_size f) Hok Hmax Hsz Hbytes) as Hfit.
  set (n := numEntriesToWrite maxFileSize (f_size f) b) in *. fold c in Hn, Hprog, Hfit. fold frs in Hfit.
  destruct (Nat.eqb_spec n 0) as [Hz|Hz].
  { exists (inr tt), w, f1, b, 0%nat. rewrite Hz in Hprog.
    split_and!; try done; try (subst c; lia); [by apply wrote_nothing|by left]. }
  destruct (stamp_entries_spec n b [] ps Hok Hn) as (b' & -> & Hok' & Hc' & Ht'). cbn [app].
  fold c in Hc' |- *. fold frs.
  destruct (writeBatchToFile_spec (encode_frame <$> take n frs) w f1) as (r & w1 & Hw & Ht & Hr).
  { apply Forall_fmap, Forall_true. intros. apply encode_frame_nonempty. }
  rewrite Hw. change (mjoin (encode_frame <$> take n frs)) with (encode_frames (take n frs)) in Hr.
  pose proof (encode_frames_take_le n frs) as Hle.
  destruct Hr as [[-> Hc1]|[-> (Hnw & k & Hk & Hc1)]].
  - destruct (Z.ltb_spec (Z.of_nat (length (encode_frames (take n frs)))) 0); [lia|].
    set (f2 := LogFile.set_size _ f1).
    destruct (updateMemoryMapOverlay_frame w1 f2) as (w2 & v & Hu & Hf2 & _).
    rewrite Hu. exists (inr tt), w2, (set_lastOverlaySize v f2), b', n.
    split_and!; try done; [by eexists _, _| |..].
    + intros q Hq. rewrite Hf2. destruct Ht as [Ht _]. by apply Ht.
    + left. split_and!; [done| |].
      * unfold contents. rewrite Hf2. exact Hc1.
      * subst f2 f1. simpl. unfold is_u32 in *. rewrite (u32_small (Z.of_nat _)) by (unfold is_u32; lia).
        apply u32_small. unfold is_u32. lia.
    + intros _. right. by eexists w1, _.
    + intros Hpos. by apply Hfit, Hlt.
    + intros Hc [?|[??]]; apply Hprog; auto.
  - simpl. exists (inl (DBException ("Failed to write transaction log entries to file: " +:+ f_path f))), w1, f1, b', n.
    split_and!; try done.
    + intros q Hq. destruct Ht as [Ht _]. by apply Ht.
    + right. split_and!; [done|lia|done|done|]. by exists k.
    + intros Hpos. by apply Hfit, Hlt.
    + intros Hc [?|[??]]; apply Hprog; auto.
Qed.
End WriteEntries.
