(* ===== verification/LogFileRecovery.v ===== *)
(** * Opening and recovering a log file

    The header round trip of [open], what [recoverTail] does to a file, and the
    recovery of a file whose last batch write failed part way. *)

From S2P Require Import Prelude Encoding LogFormat Os LogFile LogFileProofs.
From stdpp Require Import base tactics list gmap strings.
From coqutil Require Import Byte.
From Stdlib Require Import ZArith Lia.

Local Open Scope Z_scope.

(** The 13 bytes [open] writes at the start of a new file. *)
Definition header_bytes (ts : Z) : bytes :=
  be_bytes 4 TRANSACTION_LOG_TOKEN ++ be_bytes 1 1 ++ be_bytes 8 ts.

Lemma length_header_bytes ts : length (header_bytes ts) = 13%nat.
Proof. unfold header_bytes. by rewrite !length_app, !length_be_bytes. Qed.

(** The file holds a header and the frames [frs]; [size] is in step. *)
Definition log_image (w : World) (f : TransactionLogFile) (frs : list frame) : Prop :=
  contents (f_path f) w = header_bytes (f_timestamp f) ++ encode_frames frs /\
  f_size f = Z.of_nat (length (contents (f_path f) w)) /\ is_u32 (f_size f).

(** [w'] differs from [w] at most in the file [p], the directories and the call
    count. *)
Definition same_but (p : string) (w w' : World) : Prop :=
  (forall q, q <> p -> w_files w' !! q = w_files w !! q) /\
  w_maps w' = w_maps w /\ w_nextMap w' = w_nextMap w /\ w_events w' = w_events w.

Lemma same_but_refl p w : same_but p w w.
Proof. by repeat split. Qed.

Lemma same_but_trans p w1 w2 w3 : same_but p w1 w2 -> same_but p w2 w3 -> same_but p w1 w3.
Proof.
  intros (H1 & H3 & H4 & H5) (G1 & G3 & G4 & G5).
  split_and!; [|congruence..]. intros q Hq. by rewrite G1, H1.
Qed.

Lemma touches_same_but p w w' : touches p w w' -> same_but p w w'.
Proof. intros (H1 & H2 & H3 & H4 & H5 & _). by repeat split. Qed.

#[export] Hint Resolve same_but_refl same_but_trans touches_same_but touches_tock : rdb.

Section Reliable.
Context {OS : Os}.
Hypothesis os_ok : forall n, os_fails n = false.

Lemma sys_ok w : sys w = (inr true, tock w).
Proof using os_ok. unfold sys. by rewrite os_ok. Qed.

Lemma tryCreateDirectory_ok p q w :
  exists w', tryCreateDirectory q w = (inr tt, w') /\ same_but p w w' /\ w_files w' = w_files w.
Proof using os_ok.
  unfold tryCreateDirectory, fs_exists. mrun.
  destruct (bool_decide _).
  { exists w. by split; [|split; [apply same_but_refl|]]. }
  cbn [createDirectoryRetry]. unfold createDirectoryOnce. mrun. rewrite sys_ok. cbv beta iota.
  rewrite sys_ok. cbv beta iota. eexists. by split_and!.
Qed.

Lemma pread_ok p buffer n off w :
  let got := take (Z.to_nat n) (drop (Z.to_nat off) (contents p w)) in
  sys_pread p buffer n off w = (inr (Z.of_nat (length got), got ++ drop (length got) buffer), tock w).
Proof using os_ok. unfold sys_pread. mrun. rewrite sys_ok. done. Qed.

Lemma createParentDirectory_ok p w f :
  exists w', createParentDirectory p (w, f) = (inr tt, (w', f)) /\ same_but p w w' /\ w_files w' = w_files w.
Proof using os_ok.
  unfold createParentDirectory, when. destruct (negb _).
  - destruct (tryCreateDirectory_ok p (parent_path p) w) as (w1 & Hw & Hs & Hf).
    exists w1. split; [|done]. unfold catch, world. by rewrite Hw.
  - exists w. by split_and!.
Qed.

Lemma openFile_ok w f :
  f_open f = false ->
  exists w', openFile (w, f) = (inr tt, (w',
      LogFile.set_size (u32 (Z.of_nat (length (contents (f_path f) w)))) (set_open true (set_hasAppended false f)))) /\
    contents (f_path f) w' = contents (f_path f) w /\ same_but (f_path f) w w' /\
    is_Some (w_files w' !! f_path f).
Proof using os_ok.
  intros Ho. unfold openFile, file, update, world. mrun. rewrite Ho. cbn [f_path set_hasAppended].
  set (p := f_path f).
  destruct (createParentDirectory_ok p w (set_hasAppended false f)) as (w1 & -> & Hs1 & Hf1).
  unfold sys_open. mrun. rewrite sys_ok. cbv beta iota. cbn [f_path set_open set_hasAppended]. fold p.
  set (w2 := match w_files (tock w1) !! p with Some _ => tock w1 | None => put_contents p [] (tock w1) end).
  assert (Hc2 : contents p w2 = contents p w /\ same_but p w w2 /\ is_Some (w_files w2 !! p)).
  { subst w2. cbn [tock w_files]. destruct (w_files w1 !! p) as [i|] eqn:Hi.
    - split_and!; [unfold contents; by rewrite <- Hf1| |simpl; by rewrite Hi].
      eapply same_but_trans; [done|]. by repeat split.
    - split_and!.
      + rewrite contents_put. unfold contents. by rewrite <- Hf1, Hi.
      + eapply same_but_trans; [done|].
        eapply touches_same_but, touches_trans; [apply touches_tock|apply touches_put].
      + unfold put_contents, set_files. simpl. rewrite lookup_insert_eq. by eexists. }
  destruct Hc2 as (Hc2 & Hs2 & Hi2).
  unfold sys_fstat_size. mrun. rewrite sys_ok. cbv beta iota. rewrite contents_tock, Hc2.
  eexists. split_and!; [done|done| |done].
  eapply same_but_trans; [done|]. by repeat split.
Qed.

Lemma header_parts ts rest :
  take 13 (header_bytes ts ++ rest) = header_bytes ts /\
  take 1 (drop 4 (header_bytes ts ++ rest)) = be_bytes 1 1 /\
  take 8 (drop 5 (header_bytes ts ++ rest)) = be_bytes 8 ts.
Proof using.
  split_and!.
  - by rewrite take_app_length' by (by rewrite length_header_bytes).
  - unfold header_bytes. rewrite <- app_assoc, drop_app_length' by (by rewrite length_be_bytes).
    rewrite <- app_assoc. by rewrite take_app_length' by (by rewrite length_be_bytes).
  - unfold header_bytes. rewrite app_assoc, <- app_assoc.
    rewrite drop_app_length' by (by rewrite length_app, !length_be_bytes).
    by rewrite take_app_length' by (by rewrite length_be_bytes).
Qed.

Lemma read_header_ok buffer ts rest w f :
  contents (f_path f) w = header_bytes ts ++ rest -> is_u64 ts -> length buffer = 13%nat ->
  exists w', read_header buffer (w, f) = (inr tt, (w', set_timestamp ts (set_version 1 f))) /\
    touches (f_path f) w w' /\ contents (f_path f) w' = contents (f_path f) w.
Proof using os_ok.
  intros Hc Hts Hlen. unfold read_header, readFromFile, file, update, world. mrun.
  destruct (header_parts ts rest) as (H1 & H2 & H3).
  unfold TRANSACTION_LOG_FILE_HEADER_SIZE.
  rewrite pread_ok, Hc. cbv beta iota. change (Z.to_nat 13) with 13%nat. change (Z.to_nat 0) with 0%nat.
  rewrite drop_0, H1, length_header_bytes. change (Z.of_nat 13 <? 0) with false. cbv beta iota.
  set (b1 := header_bytes ts ++ drop 13 buffer).
  assert (readUint32BE b1 = TRANSACTION_LOG_TOKEN) as ->.
  { subst b1. unfold header_bytes. rewrite <- app_assoc, readUint32BE_be by apply length_be_bytes.
    by rewrite be_value_bytes. }
  rewrite Z.eqb_refl. cbn [negb]. cbn [f_path].
  rewrite pread_ok, contents_tock, Hc. cbv beta iota.
  change (Z.to_nat 1) with 1%nat. change (Z.to_nat 4) with 4%nat.
  rewrite H2, length_be_bytes. change (Z.of_nat 1 <? 0) with false. cbv beta iota.
  change (readUint8 (be_bytes 1 1 ++ drop 1 b1)) with 1. cbn [negb Z.eqb Pos.eqb f_path set_version].
  rewrite pread_ok, !contents_tock, Hc. cbv beta iota.
  change (Z.to_nat 8) with 8%nat. change (Z.to_nat 5) with 5%nat.
  rewrite H3, length_be_bytes. change (Z.of_nat 8 <? 0) with false. cbv beta iota.
  unfold readDoubleBE. rewrite readUint64BE_be by apply length_be_bytes.
  rewrite be_value_bytes, (Z.mod_small ts) by (unfold is_u64 in Hts; simpl; lia).
  eexists. split; [done|]. split; [repeat split; simpl; lia|]. by rewrite !contents_tock.
Qed.

(** [open] on a file that starts with a header. *)
Lemma open_existing lt ts rest w f :
  contents (f_path f) w = header_bytes ts ++ rest -> is_u64 ts -> f_open f = false ->
  is_u32 (Z.of_nat (length (contents (f_path f) w))) ->
  exists w' t, LogFile.open lt (w, f) = (inr tt, (w',
      set_timestamp ts (set_version 1 (set_lastWriteTime t
        (LogFile.set_size (Z.of_nat (length (contents (f_path f) w))) (set_open true (set_hasAppended false f))))))) /\
    same_but (f_path f) w w' /\ contents (f_path f) w' = contents (f_path f) w.
Proof using os_ok.
  intros Hc Hts Ho Hu. destruct (openFile_ok w f Ho) as (w1 & Hw & Hc1 & Hs1 & [i Hi]).
  rewrite (u32_small _ Hu) in Hw. set (n := Z.of_nat (length (contents (f_path f) w))) in *.
  assert (Hn : 13 <= n) by (subst n; rewrite Hc, length_app, length_header_bytes; lia).
  unfold LogFile.open, file, update, world, TRANSACTION_LOG_FILE_HEADER_SIZE. mrun. rewrite Hw.
  cbn [f_size LogFile.set_size].
  destruct (Z.eqb_spec n 0); [lia|]. unfold fs_mtime. mrun. rewrite sys_ok. cbv beta iota.
  cbn [f_path LogFile.set_size set_open set_hasAppended w_files tock]. rewrite Hi.
  destruct (Z.ltb_spec n 13); [lia|].
  edestruct (read_header_ok (replicate 13 Byte.x00) ts rest (tock w1)) as (w2 & -> & Ht2 & Hc2).
  { cbn [f_path set_lastWriteTime LogFile.set_size set_open set_hasAppended]. rewrite contents_tock, Hc1. done. }
  { done. }
  { done. }
  cbn [f_path set_lastWriteTime LogFile.set_size set_open set_hasAppended] in *.
  exists w2, (i_mtime i). split_and!; [done| |by rewrite Hc2, contents_tock].
  eapply same_but_trans; [done|]. eapply touches_same_but, touches_trans; [apply touches_tock|done].
Qed.

Hypothesis os_all : forall n, 13 <= os_accepts n.

Lemma append_ok p d w :
  (length d <= 13)%nat ->
  exists w', sys_append p d w = (inr (Written (Z.of_nat (length d))), w') /\ touches p w w' /\
    contents p w' = contents p w ++ d.
Proof using os_ok os_all.
  intros Hd. unfold sys_append. rewrite os_ok. pose proof (os_all (w_tick w)).
  set (k := Z.to_nat (Z.min (os_accepts (w_tick w)) (Z.of_nat (length d)))).
  assert (k = length d) as -> by (subst k; lia). rewrite firstn_all.
  eexists. split_and!; [done| |by rewrite contents_tock, contents_put].
  eapply touches_trans; [apply touches_put|apply touches_tock].
Qed.

Lemma init_header_ok lt w f :
  f_version f = 1 -> contents (f_path f) w = [] ->
  exists w', init_header lt (w, f) = (inr tt, (w', LogFile.set_size 13 (set_timestamp lt f))) /\
    touches (f_path f) w w' /\ contents (f_path f) w' = header_bytes lt.
Proof using os_ok os_all.
  intros Hv Hc. unfold init_header, writeToFile, file, update, world. mrun.
  destruct (append_ok (f_path f) (writeUint32BE TRANSACTION_LOG_TOKEN []) w)
    as (w1 & -> & Ht1 & Hc1); [simpl; lia|].
  destruct (append_ok (f_path f) (writeUint8 (f_version f) []) w1) as (w2 & -> & Ht2 & Hc2); [simpl; lia|].
  destruct (append_ok (f_path f) (writeDoubleBE lt []) w2) as (w3 & H3 & Ht3 & Hc3); [simpl; lia|].
  cbn [f_path set_timestamp]. rewrite H3. exists w3. split_and!; [done|eauto with rdb|].
  rewrite Hc3, Hc2, Hc1, Hc, Hv. unfold header_bytes, writeDoubleBE.
  rewrite writeUint32BE_be, writeUint64BE_be, !drop_nil, !app_nil_r. simpl. done.
Qed.

(** [open] on a missing or empty file. *)
Lemma open_fresh lt w f :
  contents (f_path f) w = [] -> f_open f = false -> f_version f = 1 ->
  exists w' k, LogFile.open lt (w, f) = (inr tt, (w',
      LogFile.set_size 13 (set_timestamp lt (set_lastWriteTime (os_clock k)
        (LogFile.set_size 0 (set_open true (set_hasAppended false f))))))) /\
    same_but (f_path f) w w' /\ contents (f_path f) w' = header_bytes lt /\ (k <= w_tick w')%nat.
Proof using os_ok os_all.
  intros Hc Ho Hv. destruct (openFile_ok w f Ho) as (w1 & Hw & Hc1 & Hs1 & _).
  rewrite Hc in Hw. unfold LogFile.open, file, update, world, now. mrun. rewrite Hw.
  cbn [f_size LogFile.set_size length]. change (u32 (Z.of_nat 0)) with 0. cbn [Z.eqb].
  edestruct (init_header_ok lt (tock w1)) as (w2 & -> & Ht2 & Hc2); cycle 2.
  - exists w2, (w_tick w1).
    cbn [f_path set_lastWriteTime LogFile.set_size set_open set_hasAppended] in *. split_and!; [done| |done|].
    2:{ destruct Ht2 as (_ & _ & _ & _ & _ & Ht2). simpl in Ht2. lia. }
    eapply same_but_trans; [done|]. eapply touches_same_but, touches_trans; [apply touches_tock|done].
  - done.
  - cbn [f_path set_lastWriteTime LogFile.set_size set_open set_hasAppended]. by rewrite contents_tock, Hc1.
Qed.
End Reliable.

(** ** Tail recovery *)

Section RecoverTail.
Context {OS : Os}.

(** The outcomes of [recoverTail], whatever the system calls do: it throws
    nothing; the file is untouched, or cut at the end of its valid frames. *)
Lemma recoverTail_run w f :
  f_version f = 1 -> is_u32 (f_size f) -> 13 < f_size f ->
  f_size f <= Z.of_nat (length (contents (f_path f) w)) ->
  exists w' f' scan,
    scanTransactionLogForRecovery (take (Z.to_nat (f_size f)) (contents (f_path f) w)) (f_size f) = Some scan /\
    recoverTail (w, f) = (inr tt, (w', f')) /\
    (forall q, q <> f_path f -> w_files w' !! q = w_files w !! q) /\
    (contents (f_path f) w' = contents (f_path f) w /\ f' = f /\
       ((forall n, os_fails n = false) -> f_open f = true -> kind scan <> TruncateTail) \/
     kind scan = TruncateTail /\ validEnd scan < f_size f /\
       contents (f_path f) w' = take (Z.to_nat (validEnd scan)) (contents (f_path f) w) /\
       f' = set_lastFlushedSize (Z.min (validEnd scan) (f_lastFlushedSize f)) (LogFile.set_size (validEnd scan) f) /\
       f_open f = true).
Proof.
  intros Hv Hu Hgt Hle. set (n := f_size f) in *. set (p := f_path f) in *.
  destruct (scan_total (take (Z.to_nat n) (contents p w)) n Hu Hgt) as (scan & Hscan & Hok).
  pose proof (scan_ok_end _ _ _ Hu Hgt Hok) as [Hend _].
  unfold recoverTail, readFromFile, file, update, update_world, world, TRANSACTION_LOG_FILE_HEADER_SIZE. mrun.
  rewrite Hv. fold n p. cbn [Z.eqb Pos.eqb negb]. destruct (Z.leb_spec n 13); [lia|].
  unfold sys_pread. mrun. unfold sys at 1. destruct (os_fails (w_tick w)) eqn:Hf1; cbn [negb].
  { eexists _, f, scan. split_and!; [done|done|done|]. left. split_and!; [done|done|].
    intros Hall. by rewrite Hall in Hf1. }
  rewrite drop_0, contents_tock. fold p.
  assert (Hlen : length (take (Z.to_nat n) (contents p w)) = Z.to_nat n) by (rewrite length_take; lia).
  rewrite Hlen, drop_replicate_same, app_nil_r, Z2Nat.id by lia.
  destruct (Z.ltb_spec n 0); [lia|]. rewrite (u32_small n Hu), Z.eqb_refl. cbn [orb negb].
  rewrite Hscan. destruct (kind scan) eqn:Hk.
  - eexists _, f, scan. split_and!; [done|done|done|]. left. split_and!; [done|done|congruence].
  - destruct (Z.leb_spec n (validEnd scan)).
    { destruct Hok as [_ Hok]. rewrite Hk in Hok. lia. }
    unfold truncateFile, file, world. mrun. destruct (f_open f) eqn:Ho; cbn [negb].
    2:{ eexists _, f, scan. split_and!; [done|done|done|]. left. split_and!; [done|done|]. congruence. }
    fold p. unfold sys_ftruncate. mrun. unfold sys at 1. cbn [tock w_tick].
    destruct (os_fails (S (w_tick w))) eqn:Hf2; cbn [negb].
    { eexists _, f, scan. split_and!; [done|done|done|]. left. split_and!; [done|done|].
      intros Hall. by rewrite Hall in Hf2. }
    rewrite !contents_tock. unfold sys.
    set (w2 := tock (put_contents _ _ _)).
    assert (Hc : contents p w2 = take (Z.to_nat (validEnd scan)) (contents p w))
      by (subst w2; by rewrite contents_tock, contents_put).
    eexists (emit_event "log.warn" p w2), _, scan. split; [done|]. split; cycle 1.
    { split; [intros q Hq; unfold w2, put_contents; simpl; by rewrite lookup_insert_ne|].
      right. split_and!; [done|lia| | |done]; [exact Hc|reflexivity]. }
    cbn [f_lastFlushedSize LogFile.set_size].
    destruct (Z.ltb_spec (validEnd scan) (f_lastFlushedSize f)); cbn [f_path LogFile.set_size].
    + rewrite Z.min_l by lia. done.
    + rewrite Z.min_r by lia. by destruct f.
  - eexists _, f, scan. split_and!; [done|done|done|]. left. split_and!; [done|done|congruence].
Qed.
End RecoverTail.

(** A proper prefix of a run of frames: whole frames, then part of one. *)
Lemma torn_prefix k frs :
  (k < length (encode_frames frs))%nat ->
  exists m fr j, frs !! m = Some fr /\ (j < length (encode_frame fr))%nat /\
    take k (encode_frames frs) = encode_frames (take m frs) ++ take j (encode_frame fr).
Proof.
  revert k. induction frs as [|fr frs IH]; intros k Hk; [simpl in Hk; lia|].
  rewrite encode_frames_cons in *. rewrite length_app in Hk.
  destruct (decide (k < length (encode_frame fr))%nat) as [Hlt|Hge].
  - exists 0%nat, fr, k. split_and!; [done|done|]. rewrite take_app_le by lia. done.
  - destruct (IH (k - length (encode_frame fr))%nat) as (m & fr' & j & Hm & Hj & Ht); [lia|].
    exists (S m), fr', j. split_and!; [done|done|]. rewrite take_app_ge by lia.
    cbn [take]. by rewrite encode_frames_cons, Ht, app_assoc.
Qed.

(** The scan of an image that ends in part of a frame. *)
Lemma scan_torn ts frs fr j :
  Forall wf_frame frs -> wf_frame fr -> (j < length (encode_frame fr))%nat ->
  let e := length (header_bytes ts ++ encode_frames frs) in
  let data := header_bytes ts ++ encode_frames frs ++ take j (encode_frame fr) in
  is_u32 (Z.of_nat (e + j)) ->
  exists kd, scanTransactionLogForRecovery data (Z.of_nat (e + j)) = Some (mkScan kd (Z.of_nat e)) /\
    (j = 0%nat /\ kd = Clean \/ kd = TruncateTail \/
     kd = MidFileCorruption /\ (13 <= j)%nat /\ resumes data (Z.of_nat e + 1) (Z.of_nat (e + j))).
Proof.
  intros Hwf Hfr Hj e data Hu. unfold is_u32 in Hu. destruct (decide (j = 0%nat)) as [->|Hj0].
  - exists Clean. split; [|by left]. subst data. rewrite take_0.
    apply (clean_image_scan _ frs 0 (length_header_bytes ts) Hwf); [fold e; lia|by left].
  - destruct (torn_tail_scan (header_bytes ts) frs fr j (length_header_bytes ts) Hwf Hfr)
      as (kd & Hkd & Hr); [lia|fold e; lia|].
    exists kd. split; [exact Hkd|]. right. exact Hr.
Qed.

(** The result of opening and recovering a file that ends in a torn frame. *)
Section Reopen.
Context {OS : Os}.
Hypothesis os_ok : forall n, os_fails n = false.

Lemma recover_torn frs fr j w f :
  contents (f_path f) w = header_bytes (f_timestamp f) ++ encode_frames frs ++ take j (encode_frame fr) ->
  f_version f = 1 -> f_open f = true -> Forall wf_frame frs -> wf_frame fr -> (j < length (encode_frame fr))%nat ->
  f_size f = Z.of_nat (length (contents (f_path f) w)) -> is_u32 (f_size f) ->
  exists w' f', recoverTail (w, f) = (inr tt, (w', f')) /\
    f_path f' = f_path f /\ f_timestamp f' = f_timestamp f /\ f_version f' = 1 /\ f_open f' = true /\
    (forall q, q <> f_path f -> w_files w' !! q = w_files w !! q) /\
    (log_image w' f' frs \/
     contents (f_path f) w' = contents (f_path f) w /\ (13 <= j)%nat /\
     resumes (contents (f_path f) w) (Z.of_nat (length (header_bytes (f_timestamp f) ++ encode_frames frs)) + 1)
       (Z.of_nat (length (contents (f_path f) w)))).
Proof using os_ok.
  intros Hc Hv Ho Hwf Hfr Hj Hsz Hu. set (p := f_path f) in *. set (ts := f_timestamp f) in *.
  set (len := Z.of_nat (length (contents p w))) in *.
  set (e := length (header_bytes ts ++ encode_frames frs)).
  assert (Hlen : len = Z.of_nat (e + j)).
  { subst len e. rewrite Hc, app_assoc, (length_app (_ ++ _)), length_take. f_equal. lia. }
  assert (He : (13 <= e)%nat) by (subst e; rewrite length_app, length_header_bytes; lia).
  rewrite Hsz in Hu. destruct (decide (13 < len)) as [Hgt|Hle].
  2:{ assert (j = 0 /\ e = 13)%nat as [-> He13] by lia. exists w, f.
      split; [|split_and!; try done].
      - unfold recoverTail, file, update, update_world, world, TRANSACTION_LOG_FILE_HEADER_SIZE. mrun.
        rewrite Hv, Hsz. cbn [Z.eqb Pos.eqb negb]. by destruct (Z.leb_spec len 13); [|lia].
      - left. unfold log_image. fold p ts. rewrite Hsz, Hc, take_0, app_nil_r.
        split_and!; [done| |done]. subst len. by rewrite Hc, take_0, app_nil_r. }
  destruct (recoverTail_run w f) as (w2 & f2 & scan & Hscan & Hrun & Hq2 & Hcase);
    [done|by rewrite Hsz|by rewrite Hsz|rewrite Hsz; subst len; fold p; lia|].
  fold p in Hscan, Hq2, Hcase. rewrite Hsz, firstn_all2 in Hscan by (subst len; lia).
  exists w2, f2. rewrite Hrun. split; [done|].
  destruct (scan_torn ts frs fr j Hwf Hfr Hj) as (kd & Hscan' & Hkd); fold e; [rewrite <- Hlen; done|].
  fold e in Hscan', Hkd. rewrite <- Hc, <- Hlen in Hscan', Hkd. rewrite Hscan in Hscan'. injection Hscan' as ->. cbn [kind validEnd] in Hcase.
  assert (Hpre : take e (contents p w) = header_bytes ts ++ encode_frames frs).
  { rewrite Hc, app_assoc. by rewrite take_app_length'. }
  destruct Hcase as [(Hc2 & -> & Hk)|(Hk & Hlt & Hc2 & -> & _)].
  - split_and!; try done.
    destruct Hkd as [[-> _]|[->|(_ & Hj13 & Hres)]]; [left| |by right].
    + unfold log_image. fold p ts. rewrite Hsz, Hc2, Hc, take_0, app_nil_r.
      split_and!; [done| |done]. subst len. by rewrite Hc, take_0, app_nil_r.
    + by exfalso; apply (Hk os_ok).
  - split_and!; try done. left.
    unfold log_image. cbn [f_path f_size f_timestamp set_lastFlushedSize LogFile.set_size]. fold p ts.
    rewrite Hc2, Nat2Z.id, Hpre. split_and!; [done|done|]. unfold is_u32 in *. lia.
Qed.

Lemma reopen_torn lt ts frs fr j w f :
  contents (f_path f) w = header_bytes ts ++ encode_frames frs ++ take j (encode_frame fr) ->
  is_u64 ts -> f_open f = false -> Forall wf_frame frs -> wf_frame fr ->
  (j < length (encode_frame fr))%nat -> is_u32 (Z.of_nat (length (contents (f_path f) w))) ->
  exists w' f', (LogFile.open lt;; recoverTail) (w, f) = (inr tt, (w', f')) /\
    f_path f' = f_path f /\ f_timestamp f' = ts /\ f_version f' = 1 /\ f_open f' = true /\
    (forall q, q <> f_path f -> w_files w' !! q = w_files w !! q) /\
    (log_image w' f' frs \/
     contents (f_path f) w' = contents (f_path f) w /\ (13 <= j)%nat /\
     resumes (contents (f_path f) w) (Z.of_nat (length (header_bytes ts ++ encode_frames frs)) + 1)
       (Z.of_nat (length (contents (f_path f) w)))).
Proof using os_ok.
  intros Hc Hts Ho Hwf Hfr Hj Hu.
  destruct (open_existing os_ok lt ts (encode_frames frs ++ take j (encode_frame fr)) w f)
    as (w1 & t & Hopen & [Hq1 _] & Hc1); [done..|].
  set (f1 := set_timestamp ts _) in Hopen. mrun. rewrite Hopen.
  destruct (recover_torn frs fr j w1 f1) as (w2 & f2 & Hrun & H1 & H2 & H3 & H4 & H5 & H6);
    [exact (eq_trans Hc1 Hc)|done..|exact (f_equal (fun l => Z.of_nat (length l)) (eq_sym Hc1))|done|].
  change (f_path f1) with (f_path f) in *. change (f_timestamp f1) with ts in *. rewrite Hc1 in H6.
  exists w2, f2. split_and!; try done. intros q Hq. rewrite H5, Hq1; done.
Qed.
End Reopen.

(** A batch write that returned extends the image. *)
Lemma wrote_image {OS : Os} w f frs rest n w' f' v sz :
  log_image w f frs -> f' = set_lastOverlaySize v (LogFile.set_size sz (set_hasAppended true f)) ->
  f_size f + Z.of_nat (length (encode_frames rest)) < 2 ^ 32 ->
  wrote (f_path f) rest n w f (inr tt) w' f' ->
  log_image w' f' (frs ++ take n rest) /\ 
  f_size f' = f_size f + Z.of_nat (length (encode_frames (take n rest))).
Proof.
  intros (Hc & Hsz & Hu) Hf Hlt [(_ & Hc' & Hs')|(? & _)]; [|done]. split; [|done].
  assert (Hp : f_path f' = f_path f) by (by rewrite Hf).
  assert (Hts : f_timestamp f' = f_timestamp f) by (by rewrite Hf).
  pose proof (encode_frames_take_le n rest).
  unfold log_image. rewrite Hp, Hts, Hs', Hc'. split; [|split; [|unfold is_u32 in *; lia]].
  - by rewrite Hc, encode_frames_app, app_assoc.
  - rewrite length_app. lia.
Qed.

(** ** Properties *)

(** The header round trip.  Opening a path with no bytes writes a header; a
    fresh object that opens the file later, with any other timestamp, reads back
    version 1, the first timestamp and the header's size, and leaves the bytes
    alone. *)
Theorem header_round_trip {OS : Os} p seq1 seq2 t1 t2 ts ts2 w :
  (forall n, os_fails n = false) -> (forall n, 13 <= os_accepts n) ->
  contents p w = [] -> is_u64 ts ->
  exists w1 f1 w2 f2,
    (LogFile.open ts;; close) (w, TransactionLogFile_new p seq1 t1) = (inr tt, (w1, f1)) /\
    contents p w1 = header_bytes ts /\ f_open f1 = false /\
    LogFile.open ts2 (w1, TransactionLogFile_new p seq2 t2) = (inr tt, (w2, f2)) /\
    f_open f2 = true /\ f_version f2 = 1 /\ f_timestamp f2 = ts /\ f_size f2 = 13 /\
    contents p w2 = header_bytes ts.
Proof.
  intros Hok Hall Hc Hts.
  destruct (open_fresh Hok Hall ts w (TransactionLogFile_new p seq1 t1)) as (w1 & t & H1 & _ & Hc1 & _); [done..|].
  cbn [f_path TransactionLogFile_new] in Hc1.
  assert (Hb : contents p w1 = header_bytes ts ++ []) by (by rewrite app_nil_r).
  destruct (open_existing Hok ts2 ts [] w1 (TransactionLogFile_new p seq2 t2)) as (w2 & t' & H2 & _ & Hc2); [done..| |].
  { cbn [f_path TransactionLogFile_new]. by rewrite Hc1, length_header_bytes. }
  cbn [f_path TransactionLogFile_new] in *. rewrite Hc1, length_header_bytes in H2.
  mrun. rewrite H1. eexists w1, _, w2, _. split_and!; [reflexivity|done|done|exact H2|done|done|done|done|congruence].
Qed.


(** The file lost only bytes after its last valid frame. *)
Definition cut_at_valid_end (w : World) (f : TransactionLogFile) (w' : World) (f' : TransactionLogFile) : Prop :=
  f_size f' < f_size f /\ f_lastFlushedSize f' <= f_size f' /\
  contents (f_path f) w' = take (Z.to_nat (f_size f')) (contents (f_path f) w) /\
  (forall n q, chain (contents (f_path f) w) (f_size f) n 13 q ->
               chain (contents (f_path f) w') (f_size f') n 13 q).

(** Recovery repairs a file and is idempotent.  Whatever the bytes and
    whatever the system calls do, [recoverTail] throws nothing and touches no
    other file; it leaves the bytes as they are or cuts them at the end of the
    last valid frame, losing none of the frames before the cut, and a second run
    after a cut changes nothing. *)
Theorem recover_tail_repairs {OS : Os} w f :
  f_version f = 1 -> 13 < f_size f -> is_u32 (f_size f) ->
  f_size f = Z.of_nat (length (contents (f_path f) w)) ->
  exists w' f', recoverTail (w, f) = (inr tt, (w', f')) /\
    (forall q, q <> f_path f -> w_files w' !! q = w_files w !! q) /\
    (contents (f_path f) w' = contents (f_path f) w /\ f' = f \/
     cut_at_valid_end w f w' f' /\
     exists w'', recoverTail (w', f') = (inr tt, (w'', f')) /\
       contents (f_path f) w'' = contents (f_path f) w').
Proof.
  intros Hv Hgt Hu Hsz. set (p := f_path f) in *.
  destruct (recoverTail_run w f) as (w' & f' & scan & Hscan & Hrun & Hq & Hcase); [done..|fold p; lia|].
  fold p in Hscan, Hcase. rewrite firstn_all2 in Hscan by lia. exists w', f'. split_and!; [done|done|].
  destruct Hcase as [(Hc & -> & _)|(Hk & Hlt & Hc & -> & _)]; [by left|right].
  destruct scan as [kd v]. cbn [kind validEnd] in *. subst kd. cbn [f_size f_lastFlushedSize set_lastFlushedSize LogFile.set_size].
  destruct (scan_total (contents p w) _ Hu Hgt) as (r & Hr & Hok). rewrite Hscan in Hr. injection Hr as <-.
  pose proof (scan_ok_end _ _ _ Hu Hgt Hok) as [Hend Hu']. simpl in Hend, Hu'.
  destruct (truncation_stable _ _ _ Hu Hscan) as (Hst & _ & Hch).
  split; [unfold cut_at_valid_end; cbn [f_size f_lastFlushedSize set_lastFlushedSize LogFile.set_size]; fold p; split_and!; [done|lia|done|by rewrite Hc]|].
  set (f1 := set_lastFlushedSize _ _).
  assert (Hc1 : contents (f_path f1) w' = take (Z.to_nat v) (contents p w)) by exact Hc.
  destruct (decide (v = 13)) as [->|].
  - exists w'. split; [|done]. unfold recoverTail, file, world. mrun. cbn [f_version f_size f1 set_lastFlushedSize LogFile.set_size].
    by rewrite Hv.
  - destruct (recoverTail_run w' f1) as (w2 & f2 & scan2 & Hscan2 & Hrun2 & _ & Hcase2);
      [done|exact Hu'|simpl; lia|rewrite Hc1, length_take; simpl; lia|].
    change (f_size f1) with v in *. change (f_path f1) with p in *.
    rewrite Hc1, firstn_all2, Hst in Hscan2 by (rewrite length_take; lia). injection Hscan2 as <-.
    destruct Hcase2 as [(Hc2 & -> & _)|(Hk & _)]; [|done]. by exists w2.
Qed.


(** A file of complete frames is not touched by recovery, with or without
    the zero padding a preallocated tail leaves. *)
Theorem recover_tail_clean {OS : Os} w f frs pad :
  f_version f = 1 -> is_u32 (f_size f) -> f_size f = Z.of_nat (length (contents (f_path f) w)) ->
  contents (f_path f) w = header_bytes (f_timestamp f) ++ encode_frames frs ++ replicate pad Byte.x00 ->
  Forall wf_frame frs -> (pad = 0 \/ 13 <= pad)%nat ->
  exists w', recoverTail (w, f) = (inr tt, (w', f)) /\ contents (f_path f) w' = contents (f_path f) w.
Proof.
  intros Hv Hu Hsz Hc Hwf Hpad. destruct (decide (13 < f_size f)) as [Hgt|Hle].
  - destruct (recoverTail_run w f) as (w' & f' & scan & Hscan & Hrun & _ & Hcase); [done..|lia|].
    rewrite firstn_all2 in Hscan by lia.
    assert (Hlen : f_size f = Z.of_nat (length (header_bytes (f_timestamp f) ++ encode_frames frs) + pad)).
    { rewrite Hsz, Hc, app_assoc, (length_app (_ ++ _)), length_replicate. done. }
    pose proof (clean_image_scan (header_bytes (f_timestamp f)) frs pad (length_header_bytes _) Hwf) as Hcl.
    rewrite <- Hlen, <- Hc, Hscan in Hcl. injection Hcl as ->; [|unfold is_u32 in *; lia|done].
    destruct Hcase as [(Hc2 & -> & _)|(Hk & _)]; [|done]. by exists w'.
  - exists w. split; [|done]. unfold recoverTail, file, world, TRANSACTION_LOG_FILE_HEADER_SIZE. mrun. rewrite Hv.
    cbn [Z.eqb Pos.eqb negb]. by destruct (Z.leb_spec (f_size f) 13); [|lia].
Qed.


(** A batch write extends the log by whole entries.  On a file that holds
    frames [frs], a [writeEntries] that returns has appended the stamped frames
    of the next [n] entries of the batch (its timestamp on each, the last-entry
    flag on the last), advanced [size] and the batch cursor by as much, and
    touched no other file; the file limit is kept except by a first entry in a
    fresh file, and a fresh file always takes an entry. *)
Theorem write_entries_image {OS : Os} b ps w f frs maxFileSize w' f' b' :
  log_image w f frs -> f_version f = 1 -> batch_ok b ps -> is_u32 maxFileSize ->
  let rest := drop (currentEntryIndex b) (batch_frames (batch_timestamp b) ps) in
  f_size f + Z.of_nat (length (encode_frames rest)) < 2 ^ 32 ->
  writeEntries maxFileSize ((w, f), b) = (inr tt, ((w', f'), b')) ->
  exists n,
    log_image w' f' (frs ++ take n rest) /\
    f_path f' = f_path f /\ f_timestamp f' = f_timestamp f /\
    batch_ok b' ps /\ batch_timestamp b' = batch_timestamp b /\
    currentEntryIndex b' = (currentEntryIndex b + n)%nat /\
    (forall q, q <> f_path f -> w_files w' !! q = w_files w !! q) /\
    (0 < maxFileSize -> f_size f' <= Z.max maxFileSize (f_size f) \/ n = 1%nat /\ f_size f = 13) /\
    ((currentEntryIndex b < length ps)%nat -> maxFileSize = 0 \/ f_size f = 13 /\ 13 < maxFileSize -> (0 < n)%nat).
Proof.
  intros Himg Hv Hb Hm rest Hlt Hrun. pose proof Himg as (Hc & Hsz & Hu).
  destruct (writeEntries_run b ps w f maxFileSize Hb Hv Hm Hu Hlt)
    as (r & w2 & f2 & b2 & n & Heq & (v & s & Hf) & Ht & Hq & Hb' & Hcur & _ & Hwrote & _ & Hfit & Hprog).
  fold rest in Hwrote, Hfit. rewrite Hrun in Heq. injection Heq as <- <- <- <-.
  destruct (wrote_image w f frs rest n w' f' v s Himg Hf Hlt Hwrote) as [Himg' Hs'].
  assert (Hh : 13 <= f_size f) by (rewrite Hsz, Hc, length_app, length_header_bytes; lia).
  exists n. split_and!; try done; try (by rewrite Hf).
  - intros Hpos. destruct (Hfit Hpos) as [->|[Hle|[-> Hle]]].
    + left. rewrite Hs', take_0. simpl. lia.
    + left. lia.
    + right. split; [done|lia].
  - intros Hcl Hcase. apply Hprog; [done|]. destruct Hcase as [?|[-> ?]]; [by left|right; lia].
Qed.


(** C24: a batch write that fails part way is repaired at the next open.  The
    error leaves a proper prefix of the batch's bytes on disk; opening the file
    with a fresh object and recovering it gives back the old frames and the
    complete entries among those bytes, with [size] in step, unless the payload
    bytes of the torn entry themselves frame as log data, in which case the file
    is left as it is. *)
Theorem failed_write_recovered (OS1 OS2 : Os) b ps w f frs maxFileSize e w' f' b' lt seq t :
  log_image w f frs -> is_u64 (f_timestamp f) -> f_version f = 1 -> batch_ok b ps -> is_u32 maxFileSize ->
  let rest := drop (currentEntryIndex b) (batch_frames (batch_timestamp b) ps) in
  Forall wf_frame frs -> Forall wf_frame rest ->
  f_size f + Z.of_nat (length (encode_frames rest)) < 2 ^ 32 ->
  writeEntries (OS := OS1) maxFileSize ((w, f), b) = (inl e, ((w', f'), b')) ->
  (forall n, os_fails (Os := OS2) n = false) ->
  exists m fr w2 f2,
    rest !! m = Some fr /\ f_size f' = f_size f /\
    (LogFile.open (OS := OS2) lt;; recoverTail (OS := OS2)) (w', TransactionLogFile_new (f_path f) seq t)
      = (inr tt, (w2, f2)) /\
    f_path f2 = f_path f /\ f_timestamp f2 = f_timestamp f /\
    (log_image w2 f2 (frs ++ take m rest) \/
     contents (f_path f) w2 = contents (f_path f) w' /\
     resumes (contents (f_path f) w') (f_size f + Z.of_nat (length (encode_frames (take m rest))) + 1)
       (Z.of_nat (length (contents (f_path f) w')))).
Proof.
  intros (Hc & Hsz & Hu) Hts Hv Hb Hm rest Hwf Hwfr Hlt Hrun Hok.
  destruct (writeEntries_run (OS := OS1) b ps w f maxFileSize Hb Hv Hm Hu Hlt)
    as (r & w1 & f1 & b1 & n & Heq & _ & _ & _ & _ & _ & _ & Hwrote & _).
  fold rest in Hwrote. rewrite Hrun in Heq. injection Heq as <- <- <- <-.
  destruct Hwrote as [(? & _)|(_ & _ & Hs' & _ & k & Hk & Hc')]; [done|].
  destruct (torn_prefix k (take n rest) Hk) as (m & fr & j & Hfr & Hj & Htk).
  apply lookup_take_Some in Hfr as [Hfr Hmn]. rewrite take_take, Nat.min_l in Htk by lia.
  pose proof (encode_frames_take_le n rest).
  destruct (reopen_torn (OS := OS2) Hok lt (f_timestamp f) (frs ++ take m rest) fr j w'
    (TransactionLogFile_new (f_path f) seq t)) as (w2 & f2 & Hopen & Hp & Ht & _ & _ & _ & Hcase).
  - cbn [f_path TransactionLogFile_new]. rewrite Hc', Hc, Htk, encode_frames_app. by rewrite !app_assoc.
  - done.
  - done.
  - apply Forall_app. split; [done|by apply Forall_take].
  - rewrite Forall_lookup in Hwfr. by eapply Hwfr.
  - done.
  - cbn [f_path TransactionLogFile_new]. unfold is_u32 in *. rewrite Hc', length_app, length_take. lia.
  - exists m, fr, w2, f2. cbn [f_path TransactionLogFile_new] in *. split_and!; try done.
    destruct Hcase as [Hi|(Hu2 & _ & Hres)]; [by left|right]. split; [done|].
    rewrite encode_frames_app, app_assoc, <- Hc, length_app, Nat2Z.inj_add, <- Hsz in Hres. exact Hres.
Qed.

Lemma failed_write_recovered_witness :
  let OS1 : Os := {| os_fails := fun n => (1 <=? n)%nat; os_eintr := fun _ => 1%nat;
                     os_accepts := fun _ => 20; os_clock := fun _ => 0 |} in
  let w := mkWorld {["l" := mkInode (header_bytes 1) 0]} ∅ ∅ 0 [] 0 in
  let f := mkFile "l" 1 true 1 1 13 0 0 None None 0 [] 5 false in
  let ps := [[Byte.x61]; [Byte.x62; Byte.x63]] in
  let b := foldl (fun b p => addEntry b (TransactionLogEntry_new "l" p (Z.of_nat (length p))))
             (TransactionLogEntryBatch_new 7) ps in
  exists w' f' b' w2 f2,
    writeEntries (OS := OS1) 0 ((w, f), b)
      = (inl (DBException "Failed to write transaction log entries to file: l"), ((w', f'), b')) /\
    (LogFile.open (OS := os_reliable 0) 9;; recoverTail (OS := os_reliable 0)) (w', TransactionLogFile_new "l" 1 0)
      = (inr tt, (w2, f2)) /\ f_timestamp f2 = 1.
Proof.
  intros OS1 w f ps b.
  destruct (writeEntries (OS := OS1) 0 ((w, f), b)) as [r [[w' f'] b']] eqn:Hrun.
  assert (Hr : r = inl (DBException "Failed to write transaction log entries to file: l")).
  { transitivity (fst (writeEntries (OS := OS1) 0 ((w, f), b))); [by rewrite Hrun|vm_compute; reflexivity]. }
  rewrite Hr in Hrun.
  destruct (failed_write_recovered OS1 (os_reliable 0) b ps w f [] 0
    (DBException "Failed to write transaction log entries to file: l") w' f' b' 9 1 0)
    as (m & fr & w2 & f2 & _ & _ & Hopen & _ & Ht & _).
  - split; [vm_compute; reflexivity|]. split; [vm_compute; reflexivity|unfold is_u32; simpl; lia].
  - unfold is_u64; simpl; lia.
  - reflexivity.
  - apply batch_new_ok. repeat constructor; simpl; lia.
  - unfold is_u32; lia.
  - constructor.
  - repeat constructor; vm_compute; congruence.
  - vm_compute. reflexivity.
  - exact Hrun.
  - reflexivity.
  - exists w', f', b', w2, f2. split; [rewrite Hr; reflexivity|]. split; [exact Hopen|exact Ht].
Defined.
