(* ===== verification/LogFileIndex.v ===== *)
(** * Memory maps and the timestamp index of a log file

    The mapping a reader gets shows the file's bytes; the batch write keeps it
    in step; the incremental index answers the position queries. *)

From S2P Require Import Prelude Encoding LogFormat Os LogFile LogFileProofs LogFileRecovery.
From stdpp Require Import base tactics list gmap strings.
From coqutil Require Import Byte.
From Stdlib Require Import ZArith Lia.

Local Open Scope Z_scope.

(** ** What a mapping shows *)

Lemma page_up_ge n : 0 <= n <= 2 ^ 32 - 4096 -> n <= page_up n.
Proof.
  intros Hn. unfold page_up, PAGE. rewrite u32_small by (unfold is_u32; lia).
  pose proof (Z.mod_pos_bound (n + 4095) 4096). lia.
Qed.

Lemma page_up_mono a b : 0 <= a <= b -> b <= 2 ^ 32 - 4096 -> page_up a <= page_up b.
Proof.
  intros Ha Hb. unfold page_up, PAGE. rewrite !u32_small by (unfold is_u32; lia).
  pose proof (Z.div_mod (a + 4095) 4096). pose proof (Z.div_mod (b + 4095) 4096).
  pose proof (Z.div_le_mono (a + 4095) (b + 4095) 4096). lia.
Qed.

(** The file-backed pages reach the first [n] bytes that the mapping has. *)
Definition covers (mm : MemoryMap) (n : Z) : Prop :=
  Z.min n (mm_mapSize mm) <= page_up (mm_overlay mm).

(** Such a mapping shows the file, then zeros. *)
Lemma map_view_covers mm d :
  covers mm (Z.of_nat (length d)) ->
  map_view mm d = take (Z.to_nat (mm_mapSize mm)) (d ++ replicate (Z.to_nat (mm_mapSize mm)) Byte.x00).
Proof.
  intros Hc. unfold covers in Hc. set (n := Z.to_nat (mm_mapSize mm)).
  apply list_eq. intros i. unfold map_view. rewrite list_lookup_fmap.
  destruct (decide (i < n)%nat) as [Hi|Hi].
  - rewrite lookup_seq_lt by (fold n; lia). cbn [fmap option_fmap option_map].
    rewrite lookup_take_lt by done. rewrite Nat.add_0_l. unfold map_byte.
    destruct (decide (i < length d)%nat) as [Hd|Hd].
    + rewrite lookup_app_l by done. destruct (Z.ltb_spec (Z.of_nat i) (page_up (mm_overlay mm))); [|lia].
      destruct (nth_lookup_or_length d i Byte.x00) as [->|]; [done|lia].
    + rewrite lookup_app_r by lia. rewrite lookup_replicate_2 by lia.
      rewrite nth_overflow by lia. by destruct (_ <? _).
  - rewrite lookup_seq_ge by (fold n; lia). rewrite lookup_take_ge by lia. done.
Qed.

(** ** The index: the entries that raise the running maximum *)

Definition frame_len (fr : frame) : Z := Z.of_nat (length (encode_frame fr)).

Fixpoint records (m pos : Z) (frs : list frame) : list (Z * Z) :=
  match frs with
  | [] => []
  | fr :: rest =>
      if f64_ltb m (fr_timestamp fr)
      then (fr_timestamp fr, pos) :: records (fr_timestamp fr) (pos + frame_len fr) rest
      else records m (pos + frame_len fr) rest
  end.

Fixpoint running_max (m : Z) (frs : list frame) : Z :=
  match frs with
  | [] => m
  | fr :: rest => running_max (if f64_ltb m (fr_timestamp fr) then fr_timestamp fr else m) rest
  end.

(** The position of the first entry that is not before [t]. *)
Fixpoint first_from (t pos : Z) (frs : list frame) : option Z :=
  match frs with
  | [] => None
  | fr :: rest => if f64_ltb (fr_timestamp fr) t then first_from t (pos + frame_len fr) rest else Some pos
  end.

(** What the position query promises. *)
Definition position_spec (ts0 t : Z) (frs : list frame) : Z :=
  if f64_ltb ts0 t then default 0xFFFFFFFF (first_from t TRANSACTION_LOG_FILE_HEADER_SIZE frs) else 0.

Lemma f64_ltb_not_lt a b t :
  f64_is_nan b = false -> f64_ltb a b = false -> f64_ltb a t = true -> f64_ltb b t = true.
Proof.
  unfold f64_ltb. intros Hb Hab Hat. apply andb_true_iff in Hat as [Hn Hlt].
  apply andb_true_iff in Hn as [Ha Ht]. rewrite Hb, Ha in Hab. rewrite Hb, Ht. simpl in *. lia.
Qed.

Lemma records_lower_bound t m pos frs :
  f64_ltb m t = true -> Forall (fun fr => f64_is_nan (fr_timestamp fr) = false) frs ->
  idx_lower_bound t (records m pos frs) = first_from t pos frs.
Proof.
  intros Hm Hnan. revert m pos Hm. induction Hnan as [|fr frs Hfr _ IH]; intros m pos Hm; [done|].
  cbn [records first_from]. destruct (f64_ltb m (fr_timestamp fr)) eqn:Hlt.
  - cbn [idx_lower_bound]. destruct (f64_ltb (fr_timestamp fr) t) eqn:Ht; [by apply IH|done].
  - rewrite (f64_ltb_not_lt _ _ _ Hfr Hlt Hm). by apply IH.
Qed.

Lemma index_lower_bound t ts0 frs :
  Forall (fun fr => f64_is_nan (fr_timestamp fr) = false) frs ->
  match idx_lower_bound t ((ts0, 0) :: records ts0 TRANSACTION_LOG_FILE_HEADER_SIZE frs) with
  | Some p => p
  | None => 0xFFFFFFFF
  end = position_spec ts0 t frs.
Proof.
  intros Hnan. unfold position_spec. cbn [idx_lower_bound].
  destruct (f64_ltb ts0 t) eqn:Ht; [|done]. rewrite records_lower_bound by done.
  by destruct (first_from _ _ _).
Qed.

Lemma records_snoc m pos frs fr :
  records m pos (frs ++ [fr]) = records m pos frs ++
    (if f64_ltb (running_max m frs) (fr_timestamp fr)
     then [(fr_timestamp fr, pos + Z.of_nat (length (encode_frames frs)))] else []).
Proof.
  revert m pos. induction frs as [|f frs IH]; intros m pos; cbn [app records running_max].
  { change (length (encode_frames [])) with 0%nat. rewrite Z.add_0_r. by destruct (f64_ltb _ _). }
  rewrite encode_frames_cons, length_app, Nat2Z.inj_add, Z.add_assoc. fold (frame_len f).
  destruct (f64_ltb m (fr_timestamp f)); rewrite IH; done.
Qed.

(** The keys of the index, all not above the running maximum. *)
Lemma records_last m pos frs :
  idx_last ((m, 0) :: records m pos frs) = Some (running_max m frs).
Proof.
  unfold idx_last. assert (H : forall m p pos, fst <$> last ((m, p) :: records m pos frs) = Some (running_max m frs)).
  { induction frs as [|fr frs IH]; intros m' p pos'; [done|]. cbn [records running_max].
    destruct (f64_ltb m' (fr_timestamp fr)) eqn:Hlt; [|apply IH].
    specialize (IH (fr_timestamp fr) pos' (pos' + frame_len fr)). rewrite last_cons.
    by destruct (last ((fr_timestamp fr, pos') :: _)). }
  apply H.
Qed.

Lemma records_below m pos p frs e :
  f64_ltb (running_max m frs) e = true ->
  Forall (fun kv => f64_ltb kv.1 e = true) ((m, p) :: records m pos frs).
Proof.
  revert m pos p. induction frs as [|fr frs IH]; intros m pos p He; cbn [records running_max] in *.
  { by repeat constructor. }
  destruct (f64_ltb m (fr_timestamp fr)) eqn:Hlt; [|by apply IH].
  specialize (IH _ (pos + frame_len fr) pos He). constructor; [|done].
  inversion_clear IH as [|?? H _]. by eapply f64_ltb_trans.
Qed.

Lemma f64_ltb_asym a b : f64_ltb a b = true -> f64_ltb b a = false.
Proof.
  intros H. destruct (f64_ltb b a) eqn:E; [|done].
  pose proof (f64_ltb_trans _ _ _ H E) as Hc. by rewrite f64_ltb_irrefl in Hc.
Qed.

Lemma idx_insert_end e pos idx :
  Forall (fun kv => f64_ltb kv.1 e = true) idx -> idx_insert e pos idx = idx ++ [(e, pos)].
Proof.
  induction 1 as [|[k v] idx Hk _ IH]; [done|]. cbn [idx_insert]. simpl in Hk.
  by rewrite (f64_ltb_asym _ _ Hk), Hk, IH.
Qed.

(** ** The indexing loop *)

(** The index has seen the header and the first [k] frames. *)
Definition indexed_to (ts0 : Z) (frs : list frame) (k : nat) (f : TransactionLogFile) : Prop :=
  (k <= length frs)%nat /\
  f_lastIndexedPosition f = 13 + Z.of_nat (length (encode_frames (take k frs))) /\
  f_index f = (ts0, 0) :: records ts0 TRANSACTION_LOG_FILE_HEADER_SIZE (take k frs).

Definition index_inv (ts0 : Z) (frs : list frame) (f : TransactionLogFile) : Prop :=
  (f_lastIndexedPosition f = TRANSACTION_LOG_FILE_TIMESTAMP_POSITION /\ f_index f = []) \/
  exists k, indexed_to ts0 frs k f.

Lemma index_inv_app ts0 frs gs f : index_inv ts0 frs f -> index_inv ts0 (frs ++ gs) f.
Proof.
  intros [?|(k & Hk & Hp & Hi)]; [by left|right]. exists k. unfold indexed_to.
  rewrite length_app, take_app_le by done. split_and!; [lia|done|done].
Qed.

Section IndexLoop.
Variables (ts0 : Z) (frs : list frame) (extra : bytes).
Hypothesis (Hts0 : is_u64 ts0) (Hz : f64_eqb ts0 f64_zero = false) (Hwf : Forall wf_frame frs).
Let image := header_bytes ts0 ++ encode_frames frs.
Let view := image ++ extra.
Hypothesis Hsize : Z.of_nat (length image) < 2 ^ 32.

(** The frame at index [k], in the view. *)
Lemma view_frame k fr :
  frs !! k = Some fr ->
  let pos := 13 + Z.of_nat (length (encode_frames (take k frs))) in
  readDoubleBE (ptr view pos) = fr_timestamp fr /\
  readUint32BE (ptr view (pos + 8)) = Z.of_nat (length (fr_payload fr)) /\
  pos + frame_len fr = 13 + Z.of_nat (length (encode_frames (take (S k) frs))) /\
  pos + frame_len fr <= Z.of_nat (length image).
Proof using Hwf Hsize.
  intros Hk pos. rewrite Forall_lookup in Hwf. pose proof (Hwf _ _ Hk) as (Hu & _ & Hpl).
  assert (Hsplit : encode_frames frs = encode_frames (take k frs) ++ encode_frame fr ++ encode_frames (drop (S k) frs)).
  { rewrite <- (take_drop_middle frs k fr Hk) at 1. by rewrite encode_frames_app, encode_frames_cons. }
  set (pre := header_bytes ts0 ++ encode_frames (take k frs)).
  assert (Hpre : Z.of_nat (length pre) = pos).
  { subst pre pos. rewrite length_app, length_header_bytes. lia. }
  assert (Hview : view = pre ++ encode_frame fr ++ encode_frames (drop (S k) frs) ++ extra).
  { subst view image pre. by rewrite Hsplit, !app_assoc. }
  rewrite Hview, <- Hpre. split_and!.
  - by apply read_frame_timestamp.
  - apply read_frame_length. lia.
  - rewrite (take_S_r frs k fr Hk), encode_frames_app, length_app, encode_frames_cons, app_nil_r.
    unfold frame_len. lia.
  - subst image. rewrite Hsplit, !length_app, length_header_bytes. unfold frame_len. subst pre.
    rewrite length_app, length_header_bytes in *. lia.
Qed.

Lemma index_loop_from k fuel f :
  indexed_to ts0 frs k f -> f_size f = Z.of_nat (length image) -> (length frs - k < fuel)%nat ->
  exists idx pos, index_loop fuel view f = (inr false, set_index idx pos f) /\
    indexed_to ts0 frs (length frs) (set_index idx pos f).
Proof using Hwf Hsize.
  revert k f. induction fuel as [|fuel IH]; intros k f (Hk & Hp & Hi) Hsz Hfuel; [lia|].
  cbn [index_loop]. rewrite Hp, Hsz. set (pos := 13 + Z.of_nat (length (encode_frames (take k frs)))) in *.
  destruct (frs !! k) as [fr|] eqn:Hfr.
  2:{ apply lookup_ge_None in Hfr. assert (k = length frs) by lia. subst k.
      destruct (Z.ltb_spec pos (Z.of_nat (length image))) as [Hlt|].
      { unfold pos, image in Hlt. rewrite firstn_all, length_app, length_header_bytes in Hlt. lia. }
      exists (f_index f), (f_lastIndexedPosition f). replace (set_index _ _ f) with f by (by destruct f).
      split; [done|]. by split_and!. }
  destruct (view_frame k fr Hfr) as (Ht & Hl & Hnext & Hend). fold pos in Ht, Hl, Hnext, Hend.
  pose proof (Forall_lookup_1 _ _ _ _ Hwf Hfr) as (Hu & Hnz & Hpl).
  unfold frame_len in Hend, Hnext. rewrite length_encode_frame in Hend, Hnext.
  assert (Hv : Z.of_nat (length image) <= Z.of_nat (length view)) by (subst view; rewrite length_app; lia).
  destruct (Z.ltb_spec pos (Z.of_nat (length image))); [|lia].
  destruct (Z.ltb_spec (Z.of_nat (length view)) (pos + 8)); [lia|].
  rewrite Ht, Hnz. unfold TRANSACTION_LOG_FILE_TIMESTAMP_POSITION, TRANSACTION_LOG_ENTRY_HEADER_SIZE.
  destruct (Z.eqb_spec pos 5); [lia|].
  destruct (Z.ltb_spec (Z.of_nat (length view)) (pos + 12)); [lia|].
  rewrite Hl, Hi, records_last, !u32_small by (rewrite ?u32_small; unfold is_u32; lia).
  set (idx := if f64_ltb _ _ then _ else _).
  assert (Hidx : idx = (ts0, 0) :: records ts0 TRANSACTION_LOG_FILE_HEADER_SIZE (take (S k) frs)).
  { rewrite (take_S_r frs k fr Hfr), records_snoc. subst idx.
    destruct (f64_ltb (running_max ts0 (take k frs)) (fr_timestamp fr)) eqn:Hlt; [|by rewrite app_nil_r].
    rewrite idx_insert_end by (by apply records_below). done. }
  edestruct (IH (S k) (set_index idx (pos + (13 + Z.of_nat (length (fr_payload fr)))) f))
    as (idx' & pos' & -> & Hfin).
  { split_and!; [apply lookup_lt_Some in Hfr; lia|cbn [f_lastIndexedPosition set_index]; lia|done]. }
  { done. }
  { apply lookup_lt_Some in Hfr. lia. }
  by exists idx', pos'.
Qed.

Lemma run_index_image w f :
  index_inv ts0 frs f -> f_size f = Z.of_nat (length image) ->
  exists idx pos, run_index view (w, f) = (inr false, (w, set_index idx pos f)) /\
    indexed_to ts0 frs (length frs) (set_index idx pos f).
Proof using Hts0 Hz Hwf Hsize.
  intros Hinv Hsz. unfold run_index. rewrite Hsz, Nat2Z.id.
  assert (Hlen : (length frs + 13 <= length image)%nat).
  { subst image. rewrite length_app, length_header_bytes. clear. induction frs as [|fr l IH]; [done|].
    rewrite encode_frames_cons, length_app, length_encode_frame. simpl. lia. }
  destruct Hinv as [[Hp Hi]|(k & Hk)].
  - cbn [index_loop]. rewrite Hp, Hsz, Hi. unfold TRANSACTION_LOG_FILE_TIMESTAMP_POSITION.
    destruct (Z.ltb_spec 5 (Z.of_nat (length image))); [|lia].
    destruct (Z.ltb_spec (Z.of_nat (length view)) (5 + 8)); [subst view; rewrite length_app in *; lia|].
    assert (readDoubleBE (ptr view 5) = ts0) as ->.
    { unfold ptr, view, image. change (Z.to_nat 5) with 5%nat. unfold header_bytes.
      rewrite app_assoc, <- !app_assoc, app_assoc.
      rewrite drop_app_length' by (by rewrite length_app, !length_be_bytes).
      unfold readDoubleBE. rewrite readUint64BE_be by apply length_be_bytes.
      rewrite be_value_bytes. by apply Z.mod_small. }
    rewrite Hz, Z.eqb_refl. cbn [idx_insert].
    edestruct (index_loop_from 0 (length image)) as (idx & pos & -> & Hfin); cycle 3.
    + exists idx, pos. split; [by destruct f|by destruct f].
    + split_and!; [lia|done|done].
    + done.
    + lia.
  - destruct (index_loop_from k (S (length image)) f Hk Hsz) as (idx & pos & -> & Hfin); [lia|].
    by exists idx, pos.
Qed.
End IndexLoop.
(** ** Handing out mappings *)

(** The mapping [getMemoryMapLocked] would reuse. *)
Definition usable_map (w : World) (f : TransactionLogFile) : option nat :=
  match f_memoryMap f with
  | Some id => Some id
  | None => match f_frozenMapCache f with
            | Some id => match w_maps w !! id with Some _ => Some id | None => None end
            | None => None
            end
  end.

(** A mapping in step with the file: every byte it has of the file is backed, and
    [lastOverlaySize] does not run ahead of its overlay. *)
Definition map_good (mm : MemoryMap) (f : TransactionLogFile) : Prop :=
  covers mm (f_size f) /\ 0 <= f_lastOverlaySize f <= mm_overlay mm /\ mm_overlay mm <= 2 ^ 32 - 4096 /\
  1 <= mm_refs mm.

Definition map_inv (w : World) (f : TransactionLogFile) : Prop :=
  (forall id, f_memoryMap f = Some id -> is_Some (w_maps w !! id)) /\
  (forall id mm, usable_map w f = Some id -> w_maps w !! id = Some mm ->
     map_good mm f /\ (id < w_nextMap w)%nat).

Definition same_file_state (f f' : TransactionLogFile) : Prop :=
  exists m c o, f' = set_memoryMap m (set_frozenMapCache c (set_lastOverlaySize o f)).

Lemma sp_copy_lookup id w mm :
  w_maps w !! id = Some mm ->
  w_maps (sp_copy id w) !! id = Some (mkMap (mm_mapSize mm) (mm_fileSize mm) (mm_overlay mm) (mm_refs mm + 1)).
Proof. intros H. unfold sp_copy, set_maps. simpl. by rewrite lookup_alter_eq, H. Qed.

Lemma sp_copy_lookup_ne id id' w : id <> id' -> w_maps (sp_copy id w) !! id' = w_maps w !! id'.
Proof. intros H. unfold sp_copy, set_maps. simpl. by rewrite lookup_alter_ne. Qed.

Lemma sp_reset_lookup id w mm :
  w_maps w !! id = Some mm -> 1 < mm_refs mm ->
  w_maps (sp_reset id w) !! id = Some (mkMap (mm_mapSize mm) (mm_fileSize mm) (mm_overlay mm) (mm_refs mm - 1)).
Proof.
  intros H Hr. unfold sp_reset. rewrite H. destruct (Z.leb_spec (mm_refs mm) 1); [lia|].
  unfold set_maps. simpl. by rewrite lookup_insert_eq.
Qed.

Lemma sp_reset_lookup_ne id id' w : id <> id' -> w_maps (sp_reset id w) !! id' = w_maps w !! id'.
Proof.
  intros H. unfold sp_reset. destruct (w_maps w !! id) as [m|]; [|done].
  destruct (_ <=? _); unfold set_maps; simpl; [by rewrite lookup_delete_ne|by rewrite lookup_insert_ne].
Qed.

Lemma sp_reset_frame id w :
  w_files (sp_reset id w) = w_files w /\ w_nextMap (sp_reset id w) = w_nextMap w /\ w_tick (sp_reset id w) = w_tick w.
Proof. unfold sp_reset. destruct (w_maps w !! id) as [m|]; [|done]. by destruct (_ <=? _). Qed.

Section Maps.
Context {OS : Os}.
Hypothesis os_ok : forall n, os_fails n = false.

Lemma create_map_ok fileSize w f :
  f_open f = true -> 0 <= f_size f -> 0 < fileSize ->
  exists w', let n := Z.min (f_size f) fileSize in
    create_map fileSize (w, f) = (inr (Some (w_nextMap w)), (w', set_lastOverlaySize n f)) /\
    w_files w' = w_files w /\ w_nextMap w' = S (w_nextMap w) /\
    w_maps w' = <[w_nextMap w := mkMap fileSize fileSize n 1]> (w_maps w).
Proof using os_ok.
  intros Ho Hs Hf. unfold create_map, file, update, update_world, world. mrun.
  rewrite sys_ok by done. cbn [negb]. rewrite Ho, andb_true_r.
  destruct (0 <? Z.min (f_size f) fileSize); [rewrite sys_ok by done|]; cbn [negb]; eexists; by split_and!.
Qed.

(** Extending the overlay brings the mapping back in step with the size. *)
Lemma updateMemoryMapOverlay_ok id mm w f :
  f_open f = true -> f_memoryMap f = Some id -> w_maps w !! id = Some mm ->
  0 <= f_size f <= 2 ^ 32 - 4096 -> 0 <= mm_mapSize mm -> 1 <= mm_refs mm ->
  0 <= f_lastOverlaySize f <= mm_overlay mm -> mm_overlay mm <= 2 ^ 32 - 4096 ->
  exists w' v mm', updateMemoryMapOverlay (w, f) = (inr tt, (w', set_lastOverlaySize v f)) /\
    w_files w' = w_files w /\ w_nextMap w' = w_nextMap w /\
    w_maps w' !! id = Some mm' /\ mm_mapSize mm' = mm_mapSize mm /\
    map_good mm' (set_lastOverlaySize v f).
Proof using os_ok.
  intros Ho Hm Hmm Hs Hms Hr Hl Hov. pose proof (page_up_ge (mm_overlay mm)) as Hpu.
  unfold updateMemoryMapOverlay, file, update, update_world, world. mrun. rewrite Hm, Ho. cbn [negb]. rewrite Hmm.
  set (n := Z.min (f_size f) (mm_mapSize mm)).
  assert (Hid : n <= page_up (mm_overlay mm) ->
    exists w' v mm', ((inr tt : exn + unit), (w, f)) = (inr tt, (w', set_lastOverlaySize v f)) /\
    w_files w' = w_files w /\ w_nextMap w' = w_nextMap w /\
    w_maps w' !! id = Some mm' /\ mm_mapSize mm' = mm_mapSize mm /\ map_good mm' (set_lastOverlaySize v f)).
  { intros Hn. exists w, (f_lastOverlaySize f), mm. replace (set_lastOverlaySize _ f) with f by (by destruct f).
    by split_and!. }
  destruct (Z.eqb_spec n 0) as [Hz|Hz]; [apply Hid; lia|].
  destruct (Z.leb_spec n (if 0 <? f_lastOverlaySize f then page_up (f_lastOverlaySize f) else 0)) as [Hle|Hgt].
  { apply Hid. destruct (Z.ltb_spec 0 (f_lastOverlaySize f)); [|lia].
    pose proof (page_up_mono (f_lastOverlaySize f) (mm_overlay mm)). lia. }
  rewrite sys_ok by done. eexists _, n, _. split_and!; [done|done|done|simpl; by rewrite lookup_insert_eq|done|].
  unfold map_good, covers. cbn. fold n. pose proof (page_up_ge n). split_and!; lia.
Qed.

Lemma acquire_map_ok fileSize w f :
  map_inv w f -> f_open f = true -> 0 <= f_size f <= 2 ^ 32 - 4096 -> 0 < fileSize ->
  exists id w' v mm, acquire_map fileSize (w, f) = (inr (Some id), (w', set_lastOverlaySize v f)) /\
    w_files w' = w_files w /\ w_maps w' !! id = Some mm /\ fileSize <= mm_mapSize mm /\
    map_good mm (set_lastOverlaySize v f) /\ (id < w_nextMap w')%nat /\
    (f_memoryMap f = Some id -> 2 <= mm_refs mm).
Proof using os_ok.
  intros [Hstrong Husable] Ho Hs Hf. unfold acquire_map, lock_frozen, file, update_world. mrun.
  set (map := match f_memoryMap f with Some id => Some id | None => _ end).
  assert (Hmap : map = usable_map w f) by done.
  destruct (create_map_ok fileSize w f Ho (proj1 Hs) Hf) as (w1 & Hc & Hf1 & Hn1 & Hm1).
  assert (Hnew : (forall i, f_memoryMap f = Some i -> (i < w_nextMap w)%nat) ->
    exists id w' v mm, create_map fileSize (w, f) = (inr (Some id), (w', set_lastOverlaySize v f)) /\
    w_files w' = w_files w /\ w_maps w' !! id = Some mm /\ fileSize <= mm_mapSize mm /\
    map_good mm (set_lastOverlaySize v f) /\ (id < w_nextMap w')%nat /\
    (f_memoryMap f = Some id -> 2 <= mm_refs mm)).
  { intros Hfresh. rewrite Hc. eexists _, w1, _, _. split_and!; [done|done|rewrite Hm1; by rewrite lookup_insert_eq|simpl; lia| |lia|].
    - unfold map_good, covers. cbn. pose proof (page_up_ge (Z.min (f_size f) fileSize)). split_and!; lia.
    - intros Hi%Hfresh. lia. }
  assert (Hfresh : forall i, f_memoryMap f = Some i -> (i < w_nextMap w)%nat).
  { intros i Hi. destruct (Hstrong i Hi) as [mm Hmm]. apply (Husable i mm); [|done]. unfold usable_map. by rewrite Hi. }
  destruct map as [id|] eqn:Hm; [|by apply Hnew]. cbn [option_bind].
  destruct (w_maps w !! id) as [mm|] eqn:Hmm; [|by apply Hnew].
  destruct (Husable id mm) as [(Hcov & Hlo & Hov & Hr) Hlt]; [congruence|done|].
  destruct (Z.leb_spec fileSize (mm_mapSize mm)); [|by apply Hnew].
  eexists id, _, (f_lastOverlaySize f), _. replace (set_lastOverlaySize _ f) with f by (by destruct f).
  split_and!; [done|done|by apply sp_copy_lookup|done| |done|simpl; lia].
  unfold map_good, covers in *. simpl. split_and!; lia.
Qed.

(** Dropping the member's reference keeps a mapping someone else owns. *)
Lemma reset_memoryMap_keeps id mm w f :
  w_maps w !! id = Some mm -> 1 <= mm_refs mm -> (f_memoryMap f = Some id -> 2 <= mm_refs mm) ->
  exists w' mm', reset_memoryMap (w, f) = (inr tt, (w', set_memoryMap None f)) /\
    w_files w' = w_files w /\ w_nextMap w' = w_nextMap w /\ w_maps w' !! id = Some mm' /\
    mm_mapSize mm' = mm_mapSize mm /\ mm_overlay mm' = mm_overlay mm /\ 1 <= mm_refs mm' /\
    mm_refs mm' = mm_refs mm - (if decide (f_memoryMap f = Some id) then 1 else 0).
Proof using.
  intros Hmm Hr Hs. unfold reset_memoryMap, file, update, update_world. mrun.
  destruct (f_memoryMap f) as [s|] eqn:Hf.
  - destruct (sp_reset_frame s w) as (H1 & H2 & _). destruct (decide (Some s = Some id)) as [Heq|Hne].
    + injection Heq as ->. specialize (Hs eq_refl). eexists _, _.
      split_and!; [done|done|done|apply sp_reset_lookup; [done|lia]|done|done|simpl; lia|simpl; lia].
    + exists (sp_reset s w), mm. split_and!; [done|done|done| |done|done|done|lia].
      rewrite sp_reset_lookup_ne by congruence. done.
  - exists w, mm. replace (set_memoryMap None f) with f by (destruct f; simpl in *; by subst).
    rewrite decide_False by done. split_and!; done || lia.
Qed.

Lemma publish_map_ok id mm fileSize isCurrent w f :
  f_open f = true -> 0 <= f_size f <= 2 ^ 32 - 4096 -> 0 <= mm_mapSize mm ->
  w_maps w !! id = Some mm -> map_good mm f -> (id < w_nextMap w)%nat ->
  (f_memoryMap f = Some id -> 2 <= mm_refs mm) ->
  exists w' f' mm', publish_map id fileSize isCurrent (w, f) = (inr tt, (w', f')) /\
    w_files w' = w_files w /\ w_maps w' !! id = Some mm' /\ mm_mapSize mm' = mm_mapSize mm /\
    map_good mm' f' /\ same_file_state f f' /\ map_inv w' f' /\
    f_memoryMap f' = (if isCurrent then Some id else None).
Proof using os_ok.
  intros Ho Hs Hms Hmm (Hcov & Hlo & Hov & Hr) Hlt Hs2. unfold publish_map, update, update_world. mrun.
  set (w1 := set_maps _ w). set (mm1 := mkMap (mm_mapSize mm) fileSize (mm_overlay mm) (mm_refs mm)).
  assert (Hm1 : w_maps w1 !! id = Some mm1) by (subst w1; simpl; by rewrite lookup_alter_eq, Hmm).
  destruct isCurrent.
  - set (w2 := sp_copy id w1). pose proof (sp_copy_lookup id w1 mm1 Hm1) as Hm2. fold w2 in Hm2.
    destruct (reset_memoryMap_keeps id _ w2 f Hm2) as (w3 & mm3 & Hrun & Hf3 & Hn3 & Hm3 & Hz3 & Ho3 & Hr3 & _);
      [simpl; lia|intros Hf; specialize (Hs2 Hf); simpl; lia|].
    rewrite Hrun. set (f3 := set_memoryMap (Some id) (set_memoryMap None f)). simpl in Hz3, Ho3.
    destruct (updateMemoryMapOverlay_ok id mm3 w3 f3) as (w4 & v & mm4 & -> & Hf4 & Hn4 & Hm4 & Hz4 & Hg4);
      [done|done|done|done|lia|done|subst f3; simpl; lia|lia|].
    eexists w4, _, mm4. split_and!; [done|by rewrite Hf4, Hf3|done|by rewrite Hz4|done| | |done].
    + exists (Some id), (f_frozenMapCache f), v. by destruct f.
    + split; [intros i [= <-]; by rewrite Hm4|]. unfold usable_map. simpl.
      intros i mm' [= <-] Hmm'. rewrite Hm4 in Hmm'. injection Hmm' as <-. split; [done|].
      rewrite Hn4, Hn3. exact Hlt.
  - destruct (reset_memoryMap_keeps id _ w1 f Hm1) as (w3 & mm3 & -> & Hf3 & Hn3 & Hm3 & Hz3 & Ho3 & Hr3 & _);
      [simpl; lia|simpl; exact Hs2|]. simpl in Hz3, Ho3.
    assert (Hg : map_good mm3 (set_frozenMapCache (Some id) (set_memoryMap None f))).
    { unfold map_good, covers in *. rewrite Hz3, Ho3. simpl. split_and!; lia. }
    eexists w3, _, mm3. split_and!; [done|done|done|done|done| | |done].
    + exists None, (Some id), (f_lastOverlaySize f). by destruct f.
    + split; [done|]. unfold usable_map. simpl. rewrite Hm3.
      intros i mm' [= <-] Hmm'. rewrite Hm3 in Hmm'. injection Hmm' as <-. split; [done|].
      rewrite Hn3. exact Hlt.
Qed.

Lemma getMemoryMapLocked_ok fileSize isCurrent w f :
  map_inv w f -> f_open f = true -> 0 <= f_size f <= 2 ^ 32 - 4096 -> 0 < fileSize ->
  exists id w' f' mm, getMemoryMapLocked fileSize isCurrent (w, f) = (inr (Some id), (w', f')) /\
    w_files w' = w_files w /\ w_maps w' !! id = Some mm /\ fileSize <= mm_mapSize mm /\
    map_good mm f' /\ same_file_state f f' /\ map_inv w' f' /\
    f_memoryMap f' = (if isCurrent then Some id else None).
Proof using os_ok.
  intros Hinv Ho Hs Hf. unfold getMemoryMapLocked. destruct (Z.eqb_spec fileSize 0); [lia|]. mrun.
  destruct (acquire_map_ok fileSize w f Hinv Ho Hs Hf) as (id & w1 & v & mm & -> & Hf1 & Hm1 & Hms & Hg & Hlt & Hs2).
  destruct (publish_map_ok id mm fileSize isCurrent w1 (set_lastOverlaySize v f))
    as (w2 & f2 & mm2 & -> & Hf2 & Hm2 & Hz2 & Hg2 & (m & c & o & Hsame) & Hinv2 & Hmem);
    [done|done|lia|done|done|done|done|].
  exists id, w2, f2, mm2. split_and!; [done|congruence|done|lia|done| |done|done].
  exists m, c, o. rewrite Hsame. by destruct f.
Qed.
End Maps.

(** ** Properties *)

Lemma same_file_state_facts f f' :
  same_file_state f f' ->
  f_path f' = f_path f /\ f_size f' = f_size f /\ f_timestamp f' = f_timestamp f /\ f_open f' = f_open f /\
  f_index f' = f_index f /\ f_lastIndexedPosition f' = f_lastIndexedPosition f.
Proof. intros (m & c & o & ->). by split_and!. Qed.

(** The bytes the reader of mapping [id] sees. *)
Definition mapped (w : World) (id : nat) (d : bytes) : Prop :=
  exists mm, w_maps w !! id = Some mm /\
    map_view mm d = take (Z.to_nat (mm_mapSize mm)) (d ++ replicate (Z.to_nat (mm_mapSize mm)) Byte.x00).

(** The mapping handed out shows the file.  With the mapping state in step,
    [getMemoryMap] returns a mapping of at least the requested size that shows
    the file's bytes and zeros after them; the current file keeps it alive, a
    frozen file does not; the state stays in step. *)
Theorem memory_map_shows_file {OS : Os} fileSize isCurrent w f :
  (forall n, os_fails n = false) -> map_inv w f -> f_open f = true ->
  f_size f = Z.of_nat (length (contents (f_path f) w)) -> f_size f <= 2 ^ 32 - 4096 -> 0 < fileSize ->
  exists id w' f' mm, getMemoryMap fileSize isCurrent (w, f) = (inr (Some id), (w', f')) /\
    w_files w' = w_files w /\ f_size f' = f_size f /\
    w_maps w' !! id = Some mm /\ fileSize <= mm_mapSize mm /\ mapped w' id (contents (f_path f) w) /\
    f_memoryMap f' = (if isCurrent then Some id else None) /\ map_inv w' f'.
Proof.
  intros Hok Hinv Ho Hsz Hmax Hf.
  destruct (getMemoryMapLocked_ok Hok fileSize isCurrent w f Hinv Ho ltac:(lia) Hf)
    as (id & w' & f' & mm & Hrun & Hfiles & Hm & Hms & (Hcov & _) & Hsame & Hinv' & Hmem).
  destruct (same_file_state_facts _ _ Hsame) as (Hp & Hs & _).
  exists id, w', f', mm. split_and!; try done. exists mm. split; [done|].
  apply map_view_covers. by rewrite <- Hsz, <- Hs.
Qed.


(** A writer keeps its readers' mapping in step: after a batch write to a
    file with a live mapping, the same mapping shows the new bytes too, so a
    reader holding it sees every entry [size] covers. *)
Theorem write_extends_mapping {OS : Os} b ps w f frs maxFileSize w' f' b' id :
  (forall n, os_fails n = false) -> map_inv w f -> f_open f = true -> f_memoryMap f = Some id ->
  (forall mm, w_maps w !! id = Some mm -> 0 <= mm_mapSize mm) ->
  log_image w f frs -> f_version f = 1 -> batch_ok b ps -> is_u32 maxFileSize ->
  f_size f + Z.of_nat (length (encode_frames (drop (currentEntryIndex b) (batch_frames (batch_timestamp b) ps))))
    <= 2 ^ 32 - 4096 ->
  writeEntries maxFileSize ((w, f), b) = (inr tt, ((w', f'), b')) ->
  mapped w' id (contents (f_path f) w') /\ map_inv w' f'.
Proof.
  intros Hok Hinv Ho Hm Hms (Hc & Hsz & Hu) Hv Hb Hmax Hlt Hrun.
  destruct (writeEntries_run b ps w f maxFileSize Hb Hv Hmax Hu ltac:(lia))
    as (r & w2 & f2 & b2 & n & Heq & _ & _ & _ & _ & _ & _ & Hwrote & Hov & _).
  rewrite Hrun in Heq. injection Heq as <- <- <- <-.
  destruct Hwrote as [(_ & Hc' & Hs')|(? & _)]; [|done].
  assert (Hsz' : f_size f' = Z.of_nat (length (contents (f_path f) w'))) by (rewrite Hc', length_app; lia).
  pose proof (encode_frames_take_le n (drop (currentEntryIndex b) (batch_frames (batch_timestamp b) ps))) as Hle.
  destruct Hinv as [Hstrong Husable]. destruct (Hstrong id Hm) as [mm Hmm].
  destruct (Husable id mm) as [(Hcov & Hlo & Hovl & Hr) Hid]; [unfold usable_map; by rewrite Hm|done|].
  assert (Hgoal : forall mm', w_maps w' !! id = Some mm' -> map_good mm' f' -> f_memoryMap f' = Some id ->
    (id < w_nextMap w')%nat -> mapped w' id (contents (f_path f) w') /\ map_inv w' f').
  { intros mm' Hmm' Hg Hf' Hid'. split.
    - exists mm'. split; [done|]. apply map_view_covers. rewrite <- Hsz'. apply Hg.
    - split; [intros i Hi; replace i with id by congruence; by rewrite Hmm'|].
      intros i mi Hi Hmi. unfold usable_map in Hi. rewrite Hf' in Hi. injection Hi as <-.
      rewrite Hmm' in Hmi. by injection Hmi as <-. }
  destruct (Hov eq_refl) as [[-> ->]|(w1 & s & (_ & _ & Ht3 & Ht4 & _) & Hup)].
  - by apply (Hgoal mm).
  - set (f1 := LogFile.set_size s (set_hasAppended true f)) in Hup.
    destruct (updateMemoryMapOverlay_frame w1 f1) as (w3 & v & Hup' & _). rewrite Hup in Hup'.
    injection Hup' as <- Hf'.
    assert (Hs : f_size f1 = f_size f') by (by rewrite Hf').
    destruct (updateMemoryMapOverlay_ok Hok id mm w1 f1) as (w4 & v4 & mm4 & Hup4 & _ & Hn4 & Hm4 & _ & Hg4);
      [done|done|by rewrite Ht3|unfold is_u32 in *; lia|by apply Hms|done|exact Hlo|done|].
    rewrite Hup in Hup4. injection Hup4 as <- ->.
    apply (Hgoal mm4); [done|done|done|]. by rewrite Hn4, Ht4.
Qed.


(** C25: the timestamp query is exact and its incremental index never needs
    rebuilding.  On a file of frames [frs] under header timestamp [ts0], in any
    state of the index that earlier queries left (also when entries were
    appended since), the query returns 0 when [t] is not after the header
    timestamp, else the position of the first entry that is not before [t], else
    0xFFFFFFFF, whatever the order of the entries' timestamps; afterwards the
    index is complete and the file and its size are as before. *)
Theorem find_position_correct {OS : Os} t mapSize isCurrent w f frs :
  (forall n, os_fails n = false) -> map_inv w f -> f_open f = true ->
  log_image w f frs -> f_size f <= mapSize -> f_size f <= 2 ^ 32 - 4096 ->
  index_inv (f_timestamp f) frs f ->
  is_u64 (f_timestamp f) -> f64_eqb (f_timestamp f) f64_zero = false ->
  Forall wf_frame frs -> Forall (fun fr => f64_is_nan (fr_timestamp fr) = false) frs ->
  exists w' f', findPositionByTimestamp t mapSize isCurrent (w, f)
      = (inr (position_spec (f_timestamp f) t frs), (w', f')) /\
    log_image w' f' frs /\ f_timestamp f' = f_timestamp f /\
    indexed_to (f_timestamp f) frs (length frs) f' /\
    forall gs, index_inv (f_timestamp f) (frs ++ gs) f'.
Proof.
  intros Hok Hinv Ho (Hc & Hsz & Hu) Hmap Hmax Hidx Hts Hz Hwf Hnan.
  assert (Hlen : 13 <= f_size f) by (rewrite Hsz, Hc, length_app, length_header_bytes; lia).
  destruct (getMemoryMapLocked_ok Hok mapSize isCurrent w f Hinv Ho ltac:(lia) ltac:(lia))
    as (id & w1 & f1 & mm & Hrun & Hfiles & Hm & Hms & (Hcov & _) & Hsame & _).
  destruct (same_file_state_facts _ _ Hsame) as (Hp1 & Hs1 & Ht1 & _ & Hi1 & Hl1).
  assert (Hcont : contents (f_path f1) w1 = header_bytes (f_timestamp f) ++ encode_frames frs).
  { unfold contents. rewrite Hfiles, Hp1. exact Hc. }
  unfold findPositionByTimestamp, file, update_world. mrun. rewrite Hrun, Hm, Hcont.
  rewrite map_view_covers by (by rewrite <- Hc, <- Hsz, <- Hs1).
  set (image := header_bytes (f_timestamp f) ++ encode_frames frs) in *.
  assert (Hl : Z.of_nat (length image) = f_size f) by (by rewrite Hsz, Hc).
  rewrite take_app_ge by lia.
  destruct (run_index_image (f_timestamp f) frs (take (Z.to_nat (mm_mapSize mm) - length image)
    (replicate (Z.to_nat (mm_mapSize mm)) Byte.x00)) Hts Hz Hwf) with (w := w1) (f := f1)
    as (idx & pos & Hix & Hfin).
  { fold image. unfold is_u32 in Hu. lia. }
  { unfold index_inv, indexed_to in *. by rewrite Hi1, Hl1. }
  { fold image. lia. }
  fold image in Hix. rewrite Hix.
  destruct Hfin as (_ & Hpos & Hidx'). pose proof Hidx' as Hidx2. rewrite firstn_all in Hidx2.
  cbn [f_index f_lastIndexedPosition set_index] in *.
  destruct (sp_reset_frame id w1) as (Hf2 & _).
  exists (sp_reset id w1), (set_index idx pos f1). split_and!.
  - rewrite <- (index_lower_bound t (f_timestamp f) frs Hnan), <- Hidx2.
    by destruct (idx_lower_bound t idx).
  - unfold log_image. cbn [f_path f_size f_timestamp set_index].
    assert (contents (f_path f1) (sp_reset id w1) = image) as -> by (unfold contents; by rewrite Hf2).
    rewrite Ht1, Hs1. by split_and!.
  - done.
  - by split_and!.
  - intros gs. apply index_inv_app. right. exists (length frs). by split_and!.
Qed.

Lemma find_position_correct_witness :
  let frs := [mkFrame 0x4000000000000000 1 [Byte.x61]; mkFrame 0x4010000000000000 1 [Byte.x62]] in
  let w := mkWorld {["l" := mkInode (header_bytes 0x3ff0000000000000 ++ encode_frames frs) 0]} ∅ ∅ 0 [] 0 in
  let f := mkFile "l" 1 true 1 0x3ff0000000000000 41 0 0 None None 0 [] 5 false in
  exists w' f', findPositionByTimestamp (OS := os_reliable 0) 0x4008000000000000 41 false (w, f)
    = (inr 27, (w', f')).
Proof.
  intros frs w f.
  destruct (find_position_correct (OS := os_reliable 0) 0x4008000000000000 41 false w f frs) as (w' & f' & H & _).
  - reflexivity.
  - split; [intros id [=]|intros id mm [=]].
  - reflexivity.
  - split; [vm_compute; reflexivity|]. split; [vm_compute; reflexivity|unfold is_u32; simpl; lia].
  - simpl. lia.
  - simpl. lia.
  - left. split; reflexivity.
  - unfold is_u64. simpl. lia.
  - vm_compute. reflexivity.
  - repeat constructor; vm_compute; congruence.
  - repeat constructor.
  - exists w', f'. exact H.
Defined.
