(* ===== verification/LogStore.v ===== *)
(** * The transaction log store ([transaction_log_store.h], [.cpp])

    A store owns the sequence of log files of one log: it rotates them, writes
    batches across them, tracks the positions of uncommitted transactions and the
    flushed position, purges and reloads.  A method runs on the world and the
    store; each public method holds the mutexes that make it atomic, except
    [tryClose] and [databaseFlushBegin], whose phases are separate definitions. *)

From S2P Require Import Prelude Encoding LogFormat Os LogFile.
From stdpp Require Import base tactics list gmap strings.
From coqutil Require Import Byte LittleEndianList.
From Stdlib Require Import ZArith Lia Ascii SpecFloat.

Local Open Scope Z_scope.

(** ** Positions *)

Record LogPosition := mkPos { positionInLogFile : Z; logSequenceNumber : Z }.

#[export] Instance LogPosition_eq_dec : EqDecision LogPosition.
Proof. solve_decision. Defined.

(** The union's [double] view: on a little-endian machine its bits are the
    sequence number above the offset. *)
Definition fullPosition (p : LogPosition) : Z := logSequenceNumber p * 2 ^ 32 + positionInLogFile p.

Definition pos_ltb (a b : LogPosition) : bool :=
  if logSequenceNumber a =? logSequenceNumber b
  then positionInLogFile a <? positionInLogFile b
  else logSequenceNumber a <? logSequenceNumber b.

Definition pos_gtb (a b : LogPosition) : bool :=
  if logSequenceNumber a =? logSequenceNumber b
  then positionInLogFile b <? positionInLogFile a
  else logSequenceNumber b <? logSequenceNumber a.

(** [positionInsert]: at [lower_bound], unless an equal position is there. *)
Fixpoint positionInsert (p : LogPosition) (l : list LogPosition) : list LogPosition :=
  match l with
  | [] => [p]
  | q :: rest =>
      if pos_ltb q p then q :: positionInsert p rest
      else if pos_ltb p q then p :: l
      else l
  end.

(** [positionErase]: the element at [lower_bound], when it is equal. *)
Fixpoint positionErase (p : LogPosition) (l : list LogPosition) : list LogPosition :=
  match l with
  | [] => []
  | q :: rest =>
      if pos_ltb q p then q :: positionErase p rest
      else if pos_ltb p q then l
      else rest
  end.

Record SequencePosition := mkSeqPos { rocksSequenceNumber : Z; sp_position : LogPosition }.

Definition RECENTLY_COMMITTED_POSITIONS_SIZE : nat := 24.

(** ** Numbers in file names *)

(** The digits of [n], most significant first; [fuel] bounds their number. *)
Fixpoint digits (fuel : nat) (n : Z) (acc : string) : string :=
  match fuel with
  | O => acc
  | S fuel =>
      let acc := String (ascii_of_nat (48 + Z.to_nat (n mod 10))) acc in
      if n / 10 =? 0 then acc else digits fuel (n / 10) acc
  end.

(** [std::to_string] of a [uint32_t]. *)
Definition to_string (n : Z) : string := digits 10 n "".

Definition digit_value (c : ascii) : option Z :=
  let n := Z.of_nat (nat_of_ascii c) in
  if (48 <=? n) && (n <=? 57) then Some (n - 48) else None.

Fixpoint read_digits (s : string) (v : Z) : Z :=
  match s with
  | EmptyString => v
  | String c r => match digit_value c with Some d => read_digits r (10 * v + d) | None => v end
  end.

Definition is_space (c : ascii) : bool :=
  let n := nat_of_ascii c in ((9 <=? n) && (n <=? 13))%nat || (n =? 32)%nat.

Fixpoint skip_spaces (s : string) : string :=
  match s with
  | String c r => if is_space c then skip_spaces r else s
  | EmptyString => s
  end.

(** The digits that follow an optional sign; [None] when there is none or the
    value does not fit ([invalid_argument], [out_of_range]). *)
Definition stoul_abs (s : string) : option Z :=
  match s with
  | String c _ =>
      match digit_value c with
      | Some _ => if read_digits s 0 <? 2 ^ 64 then Some (read_digits s 0) else None
      | None => None
      end
  | EmptyString => None
  end.

(** [std::stoul]: a minus sign negates modulo [2^64]. *)
Definition stoul (s : string) : option Z :=
  match skip_spaces s with
  | String c r =>
      if Ascii.eqb c "-"%char then (fun v => u64 (- v)) <$> stoul_abs r
      else if Ascii.eqb c "+"%char then stoul_abs r
      else stoul_abs (String c r)
  | EmptyString => None
  end.

(** [path::extension]: from the last dot on, unless it starts the name. *)
Fixpoint last_dot (i : nat) (s : string) (acc : option nat) : option nat :=
  match s with
  | EmptyString => acc
  | String c r => last_dot (S i) r (if Ascii.eqb c "."%char then Some i else acc)
  end.

Definition extension (name : string) : string :=
  match last_dot 0 name None with
  | Some (S i) => String.substring (S i) (String.length name) name
  | _ => ""
  end.

(** ** Single-precision arithmetic *)

Definition f32 := spec_float.
Definition f32_of_Z (n : Z) : f32 := binary_normalize 24 128 n 0 false.

(** Conversion to [int64_t] truncates; out of range is the x86 result. *)
Definition f32_to_Z (x : f32) : Z :=
  match x with
  | S754_finite s m e =>
      let v := if 0 <=? e then Zpos m * 2 ^ e else Zpos m / 2 ^ (- e) in
      if s then - v else v
  | S754_zero _ => 0
  | _ => - 2 ^ 63
  end.

(** [duration_cast<milliseconds>(retentionMs * (1 - maxAgeThreshold))] *)
Definition thresholdDuration (retentionMs : Z) (maxAgeThreshold : f32) : Z :=
  f32_to_Z (SFmul 24 128 (f32_of_Z retentionMs) (SFsub 24 128 (f32_of_Z 1) maxAgeThreshold)).

(** ** The store *)

(** The [std::ofstream] on [txn.state]: whether the name still leads to the open
    file, and whether the stream is good. *)
Inductive state_file := SfClosed | SfOpen (linked good : bool).

(** Lifetime counters. *)
Record Counters := mkCounters {
  c_transactionsWritten : Z;
  c_entriesWritten : Z;
  c_bytesWritten : Z;
  c_rotations : Z;
  c_filesPurged : Z;
  c_bytesPurged : Z;
  c_purgeRuns : Z;
  c_databaseFlushes : Z;
  c_writeFailures : Z;
  c_lastPurgeMs : Z;
}.

Definition set_c_transactionsWritten (v : Z) (x : Counters) : Counters :=
  mkCounters v (c_entriesWritten x) (c_bytesWritten x) (c_rotations x) (c_filesPurged x) (c_bytesPurged x) (c_purgeRuns x) (c_databaseFlushes x) (c_writeFailures x) (c_lastPurgeMs x).
Definition set_c_entriesWritten (v : Z) (x : Counters) : Counters :=
  mkCounters (c_transactionsWritten x) v (c_bytesWritten x) (c_rotations x) (c_filesPurged x) (c_bytesPurged x) (c_purgeRuns x) (c_databaseFlushes x) (c_writeFailures x) (c_lastPurgeMs x).
Definition set_c_bytesWritten (v : Z) (x : Counters) : Counters :=
  mkCounters (c_transactionsWritten x) (c_entriesWritten x) v (c_rotations x) (c_filesPurged x) (c_bytesPurged x) (c_purgeRuns x) (c_databaseFlushes x) (c_writeFailures x) (c_lastPurgeMs x).
Definition set_c_rotations (v : Z) (x : Counters) : Counters :=
  mkCounters (c_transactionsWritten x) (c_entriesWritten x) (c_bytesWritten x) v (c_filesPurged x) (c_bytesPurged x) (c_purgeRuns x) (c_databaseFlushes x) (c_writeFailures x) (c_lastPurgeMs x).
Definition set_c_filesPurged (v : Z) (x : Counters) : Counters :=
  mkCounters (c_transactionsWritten x) (c_entriesWritten x) (c_bytesWritten x) (c_rotations x) v (c_bytesPurged x) (c_purgeRuns x) (c_databaseFlushes x) (c_writeFailures x) (c_lastPurgeMs x).
Definition set_c_bytesPurged (v : Z) (x : Counters) : Counters :=
  mkCounters (c_transactionsWritten x) (c_entriesWritten x) (c_bytesWritten x) (c_rotations x) (c_filesPurged x) v (c_purgeRuns x) (c_databaseFlushes x) (c_writeFailures x) (c_lastPurgeMs x).
Definition set_c_purgeRuns (v : Z) (x : Counters) : Counters :=
  mkCounters (c_transactionsWritten x) (c_entriesWritten x) (c_bytesWritten x) (c_rotations x) (c_filesPurged x) (c_bytesPurged x) v (c_databaseFlushes x) (c_writeFailures x) (c_lastPurgeMs x).
Definition set_c_databaseFlushes (v : Z) (x : Counters) : Counters :=
  mkCounters (c_transactionsWritten x) (c_entriesWritten x) (c_bytesWritten x) (c_rotations x) (c_filesPurged x) (c_bytesPurged x) (c_purgeRuns x) v (c_writeFailures x) (c_lastPurgeMs x).
Definition set_c_writeFailures (v : Z) (x : Counters) : Counters :=
  mkCounters (c_transactionsWritten x) (c_entriesWritten x) (c_bytesWritten x) (c_rotations x) (c_filesPurged x) (c_bytesPurged x) (c_purgeRuns x) (c_databaseFlushes x) v (c_lastPurgeMs x).
Definition set_c_lastPurgeMs (v : Z) (x : Counters) : Counters :=
  mkCounters (c_transactionsWritten x) (c_entriesWritten x) (c_bytesWritten x) (c_rotations x) (c_filesPurged x) (c_bytesPurged x) (c_purgeRuns x) (c_databaseFlushes x) (c_writeFailures x) v.

Record Store := mkStore {
  s_name : string;
  s_path : string;
  s_maxFileSize : Z;
  s_retentionMs : Z;
  s_maxAgeThreshold : f32;
  s_latestTimestamp : Z;  (* double *)
  s_currentSequenceNumber : Z;
  s_nextSequenceNumber : Z;
  s_sequenceFiles : list (Z * TransactionLogFile);  (* ascending *)
  s_isClosing : bool;
  s_pendingTransactionCount : Z;
  s_uncommitted : list LogPosition;  (* uncommittedTransactionPositions *)
  s_recent : list SequencePosition;  (* recentlyCommittedSequencePositions *)
  s_nextSequencePositionsCount : Z;
  s_flushedStateFile : state_file;
  s_lastWrittenFlushedPosition : LogPosition;
  s_nextLogPosition : LogPosition;
  s_lastCommittedPosition : LogPosition;  (* shared with JS *)
  s_counters : Counters;
}.

Definition set_s_name (v : string) (x : Store) : Store :=
  mkStore v (s_path x) (s_maxFileSize x) (s_retentionMs x) (s_maxAgeThreshold x) (s_latestTimestamp x) (s_currentSequenceNumber x) (s_nextSequenceNumber x) (s_sequenceFiles x) (s_isClosing x) (s_pendingTransactionCount x) (s_uncommitted x) (s_recent x) (s_nextSequencePositionsCount x) (s_flushedStateFile x) (s_lastWrittenFlushedPosition x) (s_nextLogPosition x) (s_lastCommittedPosition x) (s_counters x).
Definition set_s_path (v : string) (x : Store) : Store :=
  mkStore (s_name x) v (s_maxFileSize x) (s_retentionMs x) (s_maxAgeThreshold x) (s_latestTimestamp x) (s_currentSequenceNumber x) (s_nextSequenceNumber x) (s_sequenceFiles x) (s_isClosing x) (s_pendingTransactionCount x) (s_uncommitted x) (s_recent x) (s_nextSequencePositionsCount x) (s_flushedStateFile x) (s_lastWrittenFlushedPosition x) (s_nextLogPosition x) (s_lastCommittedPosition x) (s_counters x).
Definition set_s_maxFileSize (v : Z) (x : Store) : Store :=
  mkStore (s_name x) (s_path x) v (s_retentionMs x) (s_maxAgeThreshold x) (s_latestTimestamp x) (s_currentSequenceNumber x) (s_nextSequenceNumber x) (s_sequenceFiles x) (s_isClosing x) (s_pendingTransactionCount x) (s_uncommitted x) (s_recent x) (s_nextSequencePositionsCount x) (s_flushedStateFile x) (s_lastWrittenFlushedPosition x) (s_nextLogPosition x) (s_lastCommittedPosition x) (s_counters x).
Definition set_s_retentionMs (v : Z) (x : Store) : Store :=
  mkStore (s_name x) (s_path x) (s_maxFileSize x) v (s_maxAgeThreshold x) (s_latestTimestamp x) (s_currentSequenceNumber x) (s_nextSequenceNumber x) (s_sequenceFiles x) (s_isClosing x) (s_pendingTransactionCount x) (s_uncommitted x) (s_recent x) (s_nextSequencePositionsCount x) (s_flushedStateFile x) (s_lastWrittenFlushedPosition x) (s_nextLogPosition x) (s_lastCommittedPosition x) (s_counters x).
Definition set_s_maxAgeThreshold (v : f32) (x : Store) : Store :=
  mkStore (s_name x) (s_path x) (s_maxFileSize x) (s_retentionMs x) v (s_latestTimestamp x) (s_currentSequenceNumber x) (s_nextSequenceNumber x) (s_sequenceFiles x) (s_isClosing x) (s_pendingTransactionCount x) (s_uncommitted x) (s_recent x) (s_nextSequencePositionsCount x) (s_flushedStateFile x) (s_lastWrittenFlushedPosition x) (s_nextLogPosition x) (s_lastCommittedPosition x) (s_counters x).
Definition set_s_latestTimestamp (v : Z) (x : Store) : Store :=
  mkStore (s_name x) (s_path x) (s_maxFileSize x) (s_retentionMs x) (s_maxAgeThreshold x) v (s_currentSequenceNumber x) (s_nextSequenceNumber x) (s_sequenceFiles x) (s_isClosing x) (s_pendingTransactionCount x) (s_uncommitted x) (s_recent x) (s_nextSequencePositionsCount x) (s_flushedStateFile x) (s_lastWrittenFlushedPosition x) (s_nextLogPosition x) (s_lastCommittedPosition x) (s_counters x).
Definition set_s_currentSequenceNumber (v : Z) (x : Store) : Store :=
  mkStore (s_name x) (s_path x) (s_maxFileSize x) (s_retentionMs x) (s_maxAgeThreshold x) (s_latestTimestamp x) v (s_nextSequenceNumber x) (s_sequenceFiles x) (s_isClosing x) (s_pendingTransactionCount x) (s_uncommitted x) (s_recent x) (s_nextSequencePositionsCount x) (s_flushedStateFile x) (s_lastWrittenFlushedPosition x) (s_nextLogPosition x) (s_lastCommittedPosition x) (s_counters x).
Definition set_s_nextSequenceNumber (v : Z) (x : Store) : Store :=
  mkStore (s_name x) (s_path x) (s_maxFileSize x) (s_retentionMs x) (s_maxAgeThreshold x) (s_latestTimestamp x) (s_currentSequenceNumber x) v (s_sequenceFiles x) (s_isClosing x) (s_pendingTransactionCount x) (s_uncommitted x) (s_recent x) (s_nextSequencePositionsCount x) (s_flushedStateFile x) (s_lastWrittenFlushedPosition x) (s_nextLogPosition x) (s_lastCommittedPosition x) (s_counters x).
Definition set_s_sequenceFiles (v : list (Z * TransactionLogFile)) (x : Store) : Store :=
  mkStore (s_name x) (s_path x) (s_maxFileSize x) (s_retentionMs x) (s_maxAgeThreshold x) (s_latestTimestamp x) (s_currentSequenceNumber x) (s_nextSequenceNumber x) v (s_isClosing x) (s_pendingTransactionCount x) (s_uncommitted x) (s_recent x) (s_nextSequencePositionsCount x) (s_flushedStateFile x) (s_lastWrittenFlushedPosition x) (s_nextLogPosition x) (s_lastCommittedPosition x) (s_counters x).
Definition set_s_isClosing (v : bool) (x : Store) : Store :=
  mkStore (s_name x) (s_path x) (s_maxFileSize x) (s_retentionMs x) (s_maxAgeThreshold x) (s_latestTimestamp x) (s_currentSequenceNumber x) (s_nextSequenceNumber x) (s_sequenceFiles x) v (s_pendingTransactionCount x) (s_uncommitted x) (s_recent x) (s_nextSequencePositionsCount x) (s_flushedStateFile x) (s_lastWrittenFlushedPosition x) (s_nextLogPosition x) (s_lastCommittedPosition x) (s_counters x).
Definition set_s_pendingTransactionCount (v : Z) (x : Store) : Store :=
  mkStore (s_name x) (s_path x) (s_maxFileSize x) (s_retentionMs x) (s_maxAgeThreshold x) (s_latestTimestamp x) (s_currentSequenceNumber x) (s_nextSequenceNumber x) (s_sequenceFiles x) (s_isClosing x) v (s_uncommitted x) (s_recent x) (s_nextSequencePositionsCount x) (s_flushedStateFile x) (s_lastWrittenFlushedPosition x) (s_nextLogPosition x) (s_lastCommittedPosition x) (s_counters x).
Definition set_s_uncommitted (v : list LogPosition) (x : Store) : Store :=
  mkStore (s_name x) (s_path x) (s_maxFileSize x) (s_retentionMs x) (s_maxAgeThreshold x) (s_latestTimestamp x) (s_currentSequenceNumber x) (s_nextSequenceNumber x) (s_sequenceFiles x) (s_isClosing x) (s_pendingTransactionCount x) v (s_recent x) (s_nextSequencePositionsCount x) (s_flushedStateFile x) (s_lastWrittenFlushedPosition x) (s_nextLogPosition x) (s_lastCommittedPosition x) (s_counters x).
Definition set_s_recent (v : list SequencePosition) (x : Store) : Store :=
  mkStore (s_name x) (s_path x) (s_maxFileSize x) (s_retentionMs x) (s_maxAgeThreshold x) (s_latestTimestamp x) (s_currentSequenceNumber x) (s_nextSequenceNumber x) (s_sequenceFiles x) (s_isClosing x) (s_pendingTransactionCount x) (s_uncommitted x) v (s_nextSequencePositionsCount x) (s_flushedStateFile x) (s_lastWrittenFlushedPosition x) (s_nextLogPosition x) (s_lastCommittedPosition x) (s_counters x).
Definition set_s_nextSequencePositionsCount (v : Z) (x : Store) : Store :=
  mkStore (s_name x) (s_path x) (s_maxFileSize x) (s_retentionMs x) (s_maxAgeThreshold x) (s_latestTimestamp x) (s_currentSequenceNumber x) (s_nextSequenceNumber x) (s_sequenceFiles x) (s_isClosing x) (s_pendingTransactionCount x) (s_uncommitted x) (s_recent x) v (s_flushedStateFile x) (s_lastWrittenFlushedPosition x) (s_nextLogPosition x) (s_lastCommittedPosition x) (s_counters x).
Definition set_s_flushedStateFile (v : state_file) (x : Store) : Store :=
  mkStore (s_name x) (s_path x) (s_maxFileSize x) (s_retentionMs x) (s_maxAgeThreshold x) (s_latestTimestamp x) (s_currentSequenceNumber x) (s_nextSequenceNumber x) (s_sequenceFiles x) (s_isClosing x) (s_pendingTransactionCount x) (s_uncommitted x) (s_recent x) (s_nextSequencePositionsCount x) v (s_lastWrittenFlushedPosition x) (s_nextLogPosition x) (s_lastCommittedPosition x) (s_counters x).
Definition set_s_lastWrittenFlushedPosition (v : LogPosition) (x : Store) : Store :=
  mkStore (s_name x) (s_path x) (s_maxFileSize x) (s_retentionMs x) (s_maxAgeThreshold x) (s_latestTimestamp x) (s_currentSequenceNumber x) (s_nextSequenceNumber x) (s_sequenceFiles x) (s_isClosing x) (s_pendingTransactionCount x) (s_uncommitted x) (s_recent x) (s_nextSequencePositionsCount x) (s_flushedStateFile x) v (s_nextLogPosition x) (s_lastCommittedPosition x) (s_counters x).
Definition set_s_nextLogPosition (v : LogPosition) (x : Store) : Store :=
  mkStore (s_name x) (s_path x) (s_maxFileSize x) (s_retentionMs x) (s_maxAgeThreshold x) (s_latestTimestamp x) (s_currentSequenceNumber x) (s_nextSequenceNumber x) (s_sequenceFiles x) (s_isClosing x) (s_pendingTransactionCount x) (s_uncommitted x) (s_recent x) (s_nextSequencePositionsCount x) (s_flushedStateFile x) (s_lastWrittenFlushedPosition x) v (s_lastCommittedPosition x) (s_counters x).
Definition set_s_lastCommittedPosition (v : LogPosition) (x : Store) : Store :=
  mkStore (s_name x) (s_path x) (s_maxFileSize x) (s_retentionMs x) (s_maxAgeThreshold x) (s_latestTimestamp x) (s_currentSequenceNumber x) (s_nextSequenceNumber x) (s_sequenceFiles x) (s_isClosing x) (s_pendingTransactionCount x) (s_uncommitted x) (s_recent x) (s_nextSequencePositionsCount x) (s_flushedStateFile x) (s_lastWrittenFlushedPosition x) (s_nextLogPosition x) v (s_counters x).
Definition set_s_counters (v : Counters) (x : Store) : Store :=
  mkStore (s_name x) (s_path x) (s_maxFileSize x) (s_retentionMs x) (s_maxAgeThreshold x) (s_latestTimestamp x) (s_currentSequenceNumber x) (s_nextSequenceNumber x) (s_sequenceFiles x) (s_isClosing x) (s_pendingTransactionCount x) (s_uncommitted x) (s_recent x) (s_nextSequencePositionsCount x) (s_flushedStateFile x) (s_lastWrittenFlushedPosition x) (s_nextLogPosition x) (s_lastCommittedPosition x) v.

(** The constructor. *)
Definition Store_new (name path : string) (maxFileSize retentionMs : Z) (maxAgeThreshold : f32) : Store :=
  mkStore name path maxFileSize retentionMs maxAgeThreshold 0 1 2 [] false 0 []
    (replicate RECENTLY_COMMITTED_POSITIONS_SIZE (mkSeqPos 0x7FFFFFFFFFFFFFFF (mkPos 0 0)))
    0 SfClosed (mkPos 0 0) (mkPos 0 0) (mkPos 0 0) (mkCounters 0 0 0 0 0 0 0 0 0 0).

(** [this->path / filename] *)
Definition log_path (s : Store) (seq : Z) : string := s_path s +:+ "/" +:+ to_string seq +:+ ".txnlog".
Definition state_path (s : Store) : string := s_path s +:+ "/txn.state".

(** ** The state of a method *)

Definition SM (A : Type) : Type := M (World * Store) A.

Definition sworld {A} (m : M World A) : SM A := fun '(w, s) =>
  let '(r, w') := m w in (r, (w', s)).
Definition store {A} (g : Store -> A) : SM A := gets (fun '(w, s) => g s).
Definition supdate (h : Store -> Store) : SM unit := modify (fun '(w, s) => (w, h s)).
Definition count (h : Counters -> Counters) : SM unit := supdate (fun s => set_s_counters (h (s_counters s)) s).

(** Run a method of the file with sequence number [seq]. *)
Definition with_file {A} (seq : Z) (m : FM A) : SM A := fun '(w, s) =>
  match om_find seq (s_sequenceFiles s) with
  | None => (inl (OutOfRange "sequenceFiles"), (w, s))
  | Some f =>
      let '(r, (w', f')) := m (w, f) in
      (r, (w', set_s_sequenceFiles (om_put seq f' (s_sequenceFiles s)) s))
  end.

(** [for (auto& x : l) body(x)] *)
Fixpoint for_each {S A} (l : list A) (body : A -> M S unit) : M S unit :=
  match l with
  | [] => mret tt
  | x :: rest => body x;; for_each rest body
  end.

Section Store.
Context {OS : Os}.

(** ** Rotation *)

Definition advanceSequence : SM unit :=
  supdate (fun s => set_s_nextSequenceNumber (u32 (s_nextSequenceNumber s + 1))
                      (set_s_currentSequenceNumber (s_nextSequenceNumber s) s));;
  count (fun c => set_c_rotations (u64 (c_rotations c + 1)) c).

(** [oldFile] is named by its sequence number. *)
Definition rotateToNextSequence (oldFile : option Z) : SM unit :=
  match oldFile with
  | Some seq => with_file seq downgradeMapToFrozen
  | None => mret tt
  end;;
  advanceSequence.

Definition getLogFile (sequenceNumber : Z) : SM unit :=
  files ← store s_sequenceFiles;
  match om_find sequenceNumber files with
  | Some _ => mret tt
  | None =>
      p ← store s_path;
      sworld (tryCreateDirectory p);;
      t ← sworld now;
      supdate (fun s => set_s_sequenceFiles
        (om_put sequenceNumber (TransactionLogFile_new (log_path s sequenceNumber) sequenceNumber t) (s_sequenceFiles s)) s);;
      supdate (set_s_nextLogPosition (mkPos 0 sequenceNumber))
  end.

(** [if (!logFile->isOpen()) logFile->open(this->latestTimestamp)] *)
Definition ensure_open (seq : Z) : SM unit :=
  ts ← store s_latestTimestamp;
  with_file seq (o ← file f_open; if o : bool then mret tt else LogFile.open ts).

(** ** Reading *)

Definition getMemoryMap (seq : Z) : SM (option nat) :=
  files ← store s_sequenceFiles;
  match om_find seq files with
  | None => mret None
  | Some _ =>
      ensure_open seq;;
      current ← store s_currentSequenceNumber;
      maxFileSize ← store s_maxFileSize;
      let isCurrent := current =? seq in
      with_file seq (sz ← file f_size;
                     LogFile.getMemoryMap (if isCurrent then maxFileSize else sz) isCurrent)
  end.

Fixpoint sum_sizes (keys : list Z) (total : Z) : SM Z :=
  match keys with
  | [] => mret total
  | seq :: rest =>
      ensure_open seq;;
      sz ← with_file seq (file f_size);
      sum_sizes rest (u64 (total + sz))
  end.

Definition getLogFileSize (seq : Z) : SM Z :=
  files ← store s_sequenceFiles;
  if 0 <? seq then
    match om_find seq files with
    | None => mret 0
    | Some _ => ensure_open seq;; with_file seq (file f_size)
    end
  else sum_sizes files.*1 0.

(** The 8 bytes of a position in memory: two little-endian words. *)
Definition pos_bytes (p : LogPosition) : bytes :=
  le_split 4 (positionInLogFile p) ++ le_split 4 (logSequenceNumber p).
Definition pos_of_bytes (b : bytes) : LogPosition :=
  mkPos (le_combine (take 4 b)) (le_combine (take 4 (drop 4 b))).

(** A short file fills only its bytes of the zero position. *)
Definition getLastFlushedPosition : SM LogPosition :=
  p ← store state_path;
  ok ← sworld sys;
  i ← gets (fun '(w, s) => w_files w !! p);
  match i with
  | Some i =>
      if ok : bool then
        let got := take 8 (i_data i) in
        mret (pos_of_bytes (got ++ drop (length got) (pos_bytes (mkPos 0 0))))
      else mret (mkPos 0 0)
  | None => mret (mkPos 0 0)
  end.

Definition getLastCommittedPosition : SM LogPosition :=
  last ← store s_lastCommittedPosition;
  if f64_eqb (fullPosition last) f64_zero then
    flushed ← getLastFlushedPosition;
    files ← store s_sequenceFiles;
    current ← store s_currentSequenceNumber;
    let initialPosition :=
      if f64_ltb f64_zero (fullPosition flushed) then flushed
      else match files with
           | (_, firstLogFile) :: _ => mkPos TRANSACTION_LOG_FILE_HEADER_SIZE (f_sequenceNumber firstLogFile)
           | [] => if 0 <? current then mkPos TRANSACTION_LOG_FILE_HEADER_SIZE current else mkPos 0 0
           end in
    supdate (set_s_lastCommittedPosition initialPosition);;
    mret initialPosition
  else mret last.

(** The walk from the current file back: the fuel is one more than the number of
    files, and every round looks at another one. *)
Fixpoint find_back (fuel : nat) (timestamp seq : Z) (isCurrent : bool) : SM LogPosition :=
  match fuel with
  | O => throw (Diverges "TransactionLogStore::findPositionByTimestamp")
  | S fuel =>
      files ← store s_sequenceFiles;
      match om_find seq files with
      | None => mret (mkPos TRANSACTION_LOG_FILE_HEADER_SIZE (u32 (seq + 1)))
      | Some _ =>
          maxFileSize ← store s_maxFileSize;
          pos ← with_file seq (sz ← file f_size;
                 LogFile.findPositionByTimestamp timestamp (if isCurrent then maxFileSize else sz) isCurrent);
          if 0 <? pos then
            if pos =? 0xFFFFFFFF then
              current ← store s_currentSequenceNumber;
              if seq <? current then mret (mkPos TRANSACTION_LOG_FILE_HEADER_SIZE (u32 (seq + 1)))
              else sz ← with_file seq (file f_size); mret (mkPos sz seq)
            else mret (mkPos pos seq)
          else find_back fuel timestamp (u32 (seq - 1)) false
      end
  end.

Definition findPositionByTimestamp (timestamp : Z) : SM LogPosition :=
  current ← store s_currentSequenceNumber;
  files ← store s_sequenceFiles;
  match om_find current files with
  | Some _ => find_back (S (length files)) timestamp current true
  | None => find_back (S (length files)) timestamp (u32 (current - 1)) false
  end.

(** ** Purging *)

(** [std::filesystem::remove_all]: the directory and everything below it.  The
    stream on [txn.state] keeps its file, which no name leads to any more. *)
Definition remove_all (p : string) (w : World) : World :=
  set_dirs (filter (fun d => String.prefix (p +:+ "/") d = false) (w_dirs w ∖ {[p]}))
    (set_files (filter (fun kv => String.prefix (p +:+ "/") kv.1 = false) (w_files w)) w).

Definition unlink_state (f : state_file) : state_file :=
  match f with
  | SfOpen _ good => SfOpen false good
  | SfClosed => SfClosed
  end.

(** Whether the age of the file with mtime [mtime] makes it eligible. *)
Definition old_enough (before retentionMs mtime now : Z) : bool :=
  ((0 <? before) && (u64 (to_ms mtime) <? before)) ||
  ((0 <? retentionMs) && (retentionMs <? to_ms (now - mtime))).

(** The age tests of [doPurge]; [None] when the file's time cannot be read. *)
Definition purge_age (seq before : Z) : SM (option bool) :=
  retentionMs ← store s_retentionMs;
  catch
    (mtime ← with_file seq getLastWriteTime;
     now ← (if (0 <? before) && (u64 (to_ms mtime) <? before) then mret 0
            else if 0 <? retentionMs then sworld now else mret 0);
     mret (Some (old_enough before retentionMs mtime now)))
    (fun _ => mret None).

(** Some bytes of the file lie after the flushed position. *)
Definition unflushed (seq size : Z) (flushed : LogPosition) : bool :=
  (logSequenceNumber flushed <? seq) ||
  ((seq =? logSequenceNumber flushed) && (positionInLogFile flushed <? size)).

(** One round of the loop of [doPurge]: the purged file with its entry count. *)
Definition purge_file (all countEntries : bool) (before seq : Z) : SM (option (string * Z)) :=
  retentionMs ← store s_retentionMs;
  shouldPurge ← (if negb all && ((0 <? before) || (0 <? retentionMs)) then purge_age seq before
                 else mret (Some all));
  if default false shouldPurge then
    flushed ← getLastFlushedPosition;
    size ← with_file seq (file f_size);
    if unflushed seq size flushed then mret None
    else
      entryCount ← (if countEntries : bool then with_file seq LogFile.countEntries else mret 0);
      removed ← with_file seq removeFile;
      if removed : bool then
        count (fun c => set_c_filesPurged (u64 (c_filesPurged c + 1)) c);;
        count (fun c => set_c_bytesPurged (u64 (c_bytesPurged c + size)) c);;
        p ← with_file seq (file f_path);
        mret (Some (p, entryCount))
      else mret None
  else mret None.

(** [visited] is what the visitor saw, with the sequence numbers to remove. *)
Fixpoint purge_loop (all countEntries : bool) (before : Z) (keys : list Z)
    (visited : list (Z * (string * Z))) : SM (list (Z * (string * Z))) :=
  match keys with
  | [] => mret visited
  | seq :: rest =>
      r ← purge_file all countEntries before seq;
      purge_loop all countEntries before rest
        (match r with Some v => visited ++ [(seq, v)] | None => visited end)
  end.

(** The first uncommitted position, or the next one. *)
Definition fullyCommittedPosition (s : Store) : LogPosition :=
  match s_uncommitted s with
  | [] => s_nextLogPosition s
  | p :: _ => p
  end.

Definition update_committed : SM unit :=
  supdate (fun s => set_s_lastCommittedPosition (fullyCommittedPosition s) s).

Definition forget_file (seq : Z) : SM unit :=
  current ← store s_currentSequenceNumber;
  when (seq =? current)
    (supdate (fun s => set_s_uncommitted (positionErase (s_nextLogPosition s) (s_uncommitted s)) s);;
     advanceSequence;;
     supdate (fun s => set_s_nextLogPosition (mkPos 0 (s_currentSequenceNumber s)) s);;
     supdate (fun s => set_s_uncommitted (positionInsert (s_nextLogPosition s) (s_uncommitted s)) s);;
     update_committed);;
  supdate (fun s => set_s_sequenceFiles (om_erase seq (s_sequenceFiles s)) s).

Definition doPurge (all : bool) (before : Z) (countEntries : bool) : SM (list (string * Z)) :=
  files ← store s_sequenceFiles;
  match files with
  | [] => mret []
  | _ =>
      t ← sworld now;
      count (fun c => set_c_purgeRuns (u64 (c_purgeRuns c + 1)) c);;
      count (fun c => set_c_lastPurgeMs (to_ms t) c);;
      visited ← purge_loop all countEntries before files.*1 [];
      for_each visited.*1 forget_file;;
      files ← store s_sequenceFiles;
      p ← store s_path;
      when (bool_decide (files = []) && negb (bool_decide (visited = [])))
        (ex ← sworld (fs_exists p);
         when ex
           (ok ← sworld sys;
            when ok
              (modify (fun '(w, s) =>
                 (remove_all p w, set_s_flushedStateFile (unlink_state (s_flushedStateFile s)) s)))));;
      mret visited.*2
  end.

Definition purge (all : bool) (before : Z) (countEntries : bool) : SM (list (string * Z)) :=
  doPurge all before countEntries.

(** ** Closing *)

(** Close a file object that left the map. *)
Definition close_file (f : TransactionLogFile) : SM unit := fun '(w, s) =>
  let '(r, (w', _)) := LogFile.close (w, f) in (r, (w', s)).

Definition doClose : SM unit :=
  files ← store s_sequenceFiles;
  supdate (set_s_sequenceFiles []);;
  supdate (set_s_flushedStateFile SfClosed);;
  for_each files.*2 close_file;;
  doPurge false 0 false;;
  mret tt.

Definition close : SM unit :=
  closing ← store s_isClosing;
  if closing : bool then mret tt
  else supdate (set_s_isClosing true);; doClose.

(** The phases of [tryClose], each under its own locks; [Some r] returns [r]. *)
Definition tryClose1 : SM (option bool) :=
  closing ← store s_isClosing;
  pending ← store s_pendingTransactionCount;
  mret (if closing : bool then Some true else if 0 <? pending then Some false else None).

Definition is_sentinel (s : Store) (p : LogPosition) : bool :=
  (positionInLogFile p =? positionInLogFile (s_nextLogPosition s)) &&
  (logSequenceNumber p =? logSequenceNumber (s_nextLogPosition s)).

Definition tryClose2 : SM (option bool) :=
  closing ← store s_isClosing;
  real ← store (fun s => existsb (fun p => negb (is_sentinel s p)) (s_uncommitted s));
  mret (if closing : bool then Some true else if real : bool then Some false else None).

Definition tryClose3 : SM (option bool) :=
  closing ← store s_isClosing;
  pending ← store s_pendingTransactionCount;
  if closing : bool then mret (Some true)
  else if 0 <? pending then mret (Some false)
  else supdate (set_s_isClosing true);; mret None.

Definition tryClose4 : SM bool := doClose;; mret true.

Definition tryClose : SM bool :=
  r ← tryClose1;
  match r with
  | Some b => mret b
  | None =>
      r ← tryClose2;
      match r with
      | Some b => mret b
      | None =>
          r ← tryClose3;
          match r with
          | Some b => mret b
          | None => tryClose4
          end
      end
  end.

(** ** Backup snapshot *)

Record TransactionLogBackupEntry := mkBackupEntry {
  relativeName : string;
  sourcePath : string;
  byteLimit : Z;
  be_mtime : Z;
  immutable : bool;
  inlineContents : bytes;
}.

(** [path::filename]: the part after the last slash. *)
Fixpoint filename_from (rest acc : string) : string :=
  match rest with
  | EmptyString => acc
  | String c r => filename_from r (if Ascii.eqb c "/"%char then "" else acc +:+ String c EmptyString)
  end.
Definition filename (p : string) : string := filename_from p "".

(** [std::filesystem::last_write_time(path, ec)] *)
Definition mtime_ec (p : string) : SM (option Z) :=
  catch (t ← sworld (fs_mtime p); mret (Some t)) (fun _ => mret None).

Definition state_entry : SM (option TransactionLogBackupEntry) :=
  p ← store state_path;
  ex ← sworld (fs_exists p);
  if negb ex then mret None
  else
    t ← mtime_ec p;
    ok ← sworld sys;
    d ← gets (fun '(w, s) => contents p w);
    match t with
    | Some t =>
        if (ok : bool) && (0 <? Z.of_nat (length d))
        then mret (Some (mkBackupEntry "txn.state" p (Z.of_nat (length d)) t false d))
        else mret None
    | None => mret None
    end.

Fixpoint snapshot_files (current : Z) (files : list (Z * TransactionLogFile))
    (entries : list TransactionLogBackupEntry) : SM (list TransactionLogBackupEntry) :=
  match files with
  | [] => mret entries
  | (seq, f) :: rest =>
      if f_size f =? 0 then snapshot_files current rest entries
      else
        t ← mtime_ec (f_path f);
        match t with
        | None => snapshot_files current rest entries
        | Some t =>
            snapshot_files current rest
              (entries ++ [mkBackupEntry (filename (f_path f)) (f_path f) (f_size f) t
                             (negb (seq =? current)) []])
        end
  end.

Definition snapshotForBackup : SM (list TransactionLogBackupEntry) :=
  st ← state_entry;
  files ← store s_sequenceFiles;
  current ← store s_currentSequenceNumber;
  entries ← snapshot_files current files [];
  mret (entries ++ match st with Some e => [e] | None => [] end).

(** ** Statistics *)

Record TransactionLogStoreStats := mkStats {
  st_fileCount : Z;
  st_currentSequenceNumber : Z;
  st_oldestSequenceNumber : Z;
  st_totalSizeBytes : Z;
  st_currentFileSize : Z;
  st_mappedBytes : Z;
  st_overlayBytes : Z;
  st_activeMaps : Z;
  st_pendingTransactions : Z;
  st_uncommittedTransactions : Z;
  st_nextLogPosition : LogPosition;
  st_lastCommittedPosition : option LogPosition;   (* hasLastCommittedPosition *)
  st_lastFlushedPosition : LogPosition;
  st_replayGapBytes : Z;
  st_oldestFileAgeMs : Z;
  st_purgeableFiles : Z;
  st_retainedUnflushedFiles : Z;
  st_counters : Counters;
}.

(** What one file adds. *)
Record file_stats := mkFileStats {
  fs_size : Z; fs_mapped : Z; fs_maps : Z; fs_overlay : Z; fs_gap : Z; fs_purgeable : Z; fs_retained : Z
}.

Definition stats_of_file (w : World) (s : Store) (flushed : LogPosition) (now : Z)
    (seq : Z) (f : TransactionLogFile) : file_stats :=
  let map := id ← f_memoryMap f; w_maps w !! id in
  let from := if seq =? logSequenceNumber flushed then positionInLogFile flushed else 0 in
  let to := if seq =? logSequenceNumber (s_nextLogPosition s)
            then positionInLogFile (s_nextLogPosition s) else f_size f in
  let gap := if (logSequenceNumber flushed <=? seq) && (from <? to) then to - from else 0 in
  let expired := (0 <? s_retentionMs s) && (s_retentionMs s <? to_ms (now - f_lastWriteTime f)) in
  let kept := unflushed seq (f_size f) flushed in
  mkFileStats (f_size f)
    (match map with Some mm => mm_mapSize mm | None => 0 end)
    (match map with Some _ => 1 | None => 0 end)
    (f_lastOverlaySize f) gap
    (if expired && negb kept then 1 else 0) (if expired && kept then 1 else 0).

(** The least last-write time. *)
Fixpoint oldest_write (files : list (Z * TransactionLogFile)) : option Z :=
  match files with
  | [] => None
  | (_, f) :: rest =>
      match oldest_write rest with
      | Some t => Some (Z.min (f_lastWriteTime f) t)
      | None => Some (f_lastWriteTime f)
      end
  end.

Definition collectStats : SM TransactionLogStoreStats :=
  flushed ← getLastFlushedPosition;
  t ← sworld now;
  gets (fun '(w, s) =>
    let files := s_sequenceFiles s in
    let per := (fun '(seq, f) => stats_of_file w s flushed t seq f) <$> files in
    let sum g := foldr (fun x n => g x + n) 0 per in
    mkStats (Z.of_nat (length files)) (s_currentSequenceNumber s)
      (match files with (seq, _) :: _ => seq | [] => 0 end)
      (u64 (sum fs_size))
      (match om_find (s_currentSequenceNumber s) files with Some f => f_size f | None => 0 end)
      (u64 (sum fs_mapped)) (u64 (sum fs_overlay)) (u32 (sum fs_maps))
      (s_pendingTransactionCount s) (Z.of_nat (length (s_uncommitted s)))
      (s_nextLogPosition s)
      (if f64_ltb f64_zero (fullPosition (s_lastCommittedPosition s)) then Some (s_lastCommittedPosition s) else None)
      flushed (u64 (sum fs_gap))
      (match oldest_write files with Some o => to_ms (t - o) | None => 0 end)
      (u32 (sum fs_purgeable)) (u32 (sum fs_retained)) (s_counters s)).

(** ** Registering files *)

Definition registerLogFile (p : string) (seq : Z) : SM unit :=
  t ← sworld now;
  supdate (fun s => set_s_sequenceFiles (om_put seq (TransactionLogFile_new p seq t) (s_sequenceFiles s)) s);;
  catch (t ← sworld (fs_mtime p); with_file seq (update (set_lastWriteTime t))) (fun _ => mret tt);;
  current ← store s_currentSequenceNumber;
  when (current <=? seq)
    (ensure_open seq;;
     supdate (set_s_currentSequenceNumber seq);;
     sz ← with_file seq (file f_size);
     supdate (set_s_nextLogPosition (mkPos sz seq)));;
  next ← store s_nextSequenceNumber;
  when (next <=? seq) (supdate (set_s_nextSequenceNumber (u32 (seq + 1)))).

(** ** Writing a batch *)

(** The batch and the position are in-out parameters. *)
Definition WM (A : Type) : Type := M ((World * Store) * (TransactionLogEntryBatch * LogPosition)) A.

Definition on_store {A} (m : SM A) : WM A := fun '(s, b) => let '(r, s') := m s in (r, (s', b)).

Definition with_file_batch {A} (seq : Z) (m : BM A) : WM A := fun '((w, s), (b, p)) =>
  match om_find seq (s_sequenceFiles s) with
  | None => (inl (OutOfRange "sequenceFiles"), ((w, s), (b, p)))
  | Some f =>
      let '(r, ((w', f'), b')) := m ((w, f), b) in
      (r, ((w', set_s_sequenceFiles (om_put seq f' (s_sequenceFiles s)) s), (b', p)))
  end.

(** The inner loop: the sequence number of a file that is open and has room.  It
    runs again after a failed open or a full file. *)
Fixpoint open_current (fuel : nat) : SM Z :=
  match fuel with
  | O => throw (Diverges "TransactionLogStore::writeBatch")
  | S fuel =>
      seq ← store s_currentSequenceNumber;
      getLogFile seq;;
      maxFileSize ← store s_maxFileSize;
      size ← with_file seq (file f_size);
      if (maxFileSize =? 0) || (size <? maxFileSize) then
        opened ← catch (ensure_open seq;; mret true)
          (fun _ => count (fun c => set_c_writeFailures (u64 (c_writeFailures c + 1)) c);; mret false);
        if opened : bool then mret seq
        else rotateToNextSequence None;; open_current fuel
      else rotateToNextSequence (Some seq);; open_current fuel
  end.

(** [logPosition = this->nextLogPosition; this->positionInsert(logPosition)] *)
Definition take_position : WM unit :=
  modify (fun '((w, s), (b, _)) =>
    ((w, set_s_uncommitted (positionInsert (s_nextLogPosition s) (s_uncommitted s)) s), (b, s_nextLogPosition s))).

Definition retake_position : WM unit :=
  p ← gets (fun '(_, (_, p)) => p);
  when (f64_eqb (fullPosition p) f64_zero)
    (on_store (supdate (fun s => set_s_uncommitted (positionErase p (s_uncommitted s)) s));;
     take_position).

(** The age test on the file about to be written. *)
Definition too_old (seq : Z) : SM bool :=
  threshold ← store s_maxAgeThreshold;
  retentionMs ← store s_retentionMs;
  if SFltb (S754_zero false) threshold then
    t ← sworld now;
    last ← with_file seq (file f_lastWriteTime);
    mret (thresholdDuration retentionMs threshold <=? to_ms (t - last))
  else mret false.

(** Write to file [seq] as much of the batch as it takes, then rotate unless the
    batch is complete and the file has room. *)
Definition write_to (seq : Z) : WM unit :=
  sizeBefore ← on_store (with_file seq (file f_size));
  maxFileSize ← on_store (store s_maxFileSize);
  catch (with_file_batch seq (writeEntries maxFileSize))
    (fun e => on_store (count (fun c => set_c_writeFailures (u64 (c_writeFailures c + 1)) c));; throw e);;
  t ← on_store (sworld now);
  on_store (with_file seq (update (set_lastWriteTime t)));;
  size ← on_store (with_file seq (file f_size));
  complete ← gets (fun '(_, (b, _)) => isComplete b);
  on_store (when ((size =? sizeBefore) || ((0 <? maxFileSize) && (maxFileSize <=? size)) || negb complete)
              (rotateToNextSequence (Some seq)));;
  on_store (supdate (fun s => set_s_nextLogPosition (mkPos size (s_currentSequenceNumber s)) s)).

(** The outer loop. *)
Fixpoint write_loop (fuel : nat) : WM unit :=
  match fuel with
  | O => throw (Diverges "TransactionLogStore::writeBatch")
  | S fuel =>
      complete ← gets (fun '(_, (b, _)) => isComplete b);
      if complete : bool then mret tt
      else
        seq ← on_store (open_current (S fuel));
        retake_position;;
        old ← on_store (too_old seq);
        if old : bool then on_store (rotateToNextSequence (Some seq));; write_loop fuel
        else write_to seq;; write_loop fuel
  end.

Definition batch_bytes (b : TransactionLogEntryBatch) : Z :=
  foldr (fun e n => u64 (n + entry_size e)) 0 (batch_entries b).

Definition writeBatch (fuel : nat) : WM unit :=
  closing ← on_store (store s_isClosing);
  if closing : bool then throw (DBException "Transaction log store is closed")
  else
    take_position;;
    ts ← gets (fun '(_, (b, _)) => batch_timestamp b);
    latest ← on_store (store s_latestTimestamp);
    on_store (when (f64_ltb latest ts) (supdate (set_s_latestTimestamp ts)));;
    write_loop fuel;;
    on_store (supdate (fun s => set_s_uncommitted (positionInsert (s_nextLogPosition s) (s_uncommitted s)) s));;
    on_store (supdate (fun s => set_s_pendingTransactionCount (s_pendingTransactionCount s - 1) s));;
    b ← gets (fun '(_, (b, _)) => b);
    on_store (count (fun c => set_c_transactionsWritten (u64 (c_transactionsWritten c + 1)) c));;
    on_store (count (fun c => set_c_entriesWritten (u64 (c_entriesWritten c + Z.of_nat (length (batch_entries b)))) c));;
    on_store (count (fun c => set_c_bytesWritten (u64 (c_bytesWritten c + batch_bytes b)) c)).

(** ** Commit and flush positions *)

(** The lowest set bit of [count], at most [n]. *)
Fixpoint slot_index (n index : nat) (count : Z) : nat :=
  match n with
  | O => index
  | S n => if Z.testbit count (Z.of_nat index) then index else slot_index n (S index) count
  end.

Definition commitFinished (position : LogPosition) (rocksSequenceNumber : Z) : SM unit :=
  supdate (fun s => set_s_uncommitted (positionErase position (s_uncommitted s)) s);;
  update_committed;;
  supdate (fun s =>
    let count := s_nextSequencePositionsCount s in
    let index := slot_index (RECENTLY_COMMITTED_POSITIONS_SIZE - 1) 0 count in
    set_s_recent (<[index := mkSeqPos rocksSequenceNumber (s_lastCommittedPosition s)]> (s_recent s))
      (set_s_nextSequencePositionsCount (u32 (count + 1)) s)).

Definition commitAborted (position : LogPosition) : SM unit :=
  supdate (fun s => set_s_uncommitted (positionErase position (s_uncommitted s)) s);;
  update_committed.

(** The files are copied under the lock and flushed after it is released; an
    error on one does not stop the others. *)
Definition databaseFlushBegin : SM unit :=
  closing ← store s_isClosing;
  if closing : bool then mret tt
  else
    files ← store s_sequenceFiles;
    for_each files.*1 (fun seq => catch (with_file seq LogFile.flush) (fun _ => mret tt)).

Definition latest_flushed (recent : list SequencePosition) (rocksSeq : Z) : LogPosition :=
  foldl (fun best sp =>
    if (rocksSequenceNumber sp <=? rocksSeq) && pos_gtb (sp_position sp) best then sp_position sp else best)
    (mkPos 0 0) recent.

(** [flushedStateFile.open(..., binary | out)]: creates or truncates the file;
    fails when its directory is gone. *)
Definition open_state_file : SM unit :=
  f ← store s_flushedStateFile;
  match f with
  | SfOpen _ _ => mret tt
  | SfClosed =>
      dir ← store s_path;
      p ← store state_path;
      ex ← sworld (fs_exists dir);
      ok ← sworld sys;
      when (ex && ok)
        (sworld (modify (put_contents p []));; supdate (set_s_flushedStateFile (SfOpen true true)))
  end.

Definition write_state_file (pos : LogPosition) : SM unit :=
  f ← store s_flushedStateFile;
  p ← store state_path;
  match f with
  | SfOpen linked true =>
      ok ← sworld sys;
      if ok : bool then
        when linked (sworld (modify (fun w => put_contents p (pos_bytes pos ++ drop 8 (contents p w)) w)))
      else supdate (set_s_flushedStateFile (SfOpen linked false))
  | _ => mret tt
  end.

Definition databaseFlushed (rocksSeq : Z) : SM unit :=
  closing ← store s_isClosing;
  if closing : bool then mret tt
  else
    recent ← store s_recent;
    last ← store s_lastWrittenFlushedPosition;
    let latest := latest_flushed recent rocksSeq in
    if f64_eqb (fullPosition latest) (fullPosition last) then mret tt
    else
      open_state_file;;
      f ← store s_flushedStateFile;
      match f with
      | SfClosed => mret tt
      | SfOpen _ _ =>
          write_state_file latest;;
          supdate (set_s_lastWrittenFlushedPosition latest);;
          count (fun c => set_c_databaseFlushes (u64 (c_databaseFlushes c + 1)) c)
      end.

(** ** Loading *)

(** A directory entry: its name, and whether it is a regular file.  The order of
    iteration is unspecified: it is the order of the list. *)
Record dirent := mkDirent { de_name : string; de_regular : bool }.

(** One round of the directory loop; every exception is swallowed. *)
Definition load_entry (e : dirent) : SM unit :=
  catch
    (dir ← store s_path;
     retentionMs ← store s_retentionMs;
     let p := dir +:+ "/" +:+ de_name e in
     if de_regular e && String.eqb (extension (de_name e)) ".txnlog" then
       match stoul (String.substring 0 (String.length (de_name e) - 7) (de_name e)) with
       | None => throw (FilesystemError "stoul")
       | Some n =>
           let seq := u32 n in
           expired ← (if 0 <? retentionMs then
                        mtime ← sworld (fs_mtime p);
                        t ← sworld now;
                        mret (0 <? to_ms (t - mtime) - retentionMs)
                      else mret false);
           if expired : bool then catch (sworld (fs_remove p);; mret tt) (fun _ => mret tt)
           else registerLogFile p seq
       end
     else mret tt)
    (fun _ => mret tt).

(** [path.filename()] of a directory whose name starts with a dot is skipped. *)
Definition skipped (dirName : string) : bool :=
  match dirName with
  | EmptyString => true
  | String c _ => Ascii.eqb c "."%char
  end.

(** The rest of [load] on the new store; [entries] is what the iterator yields. *)
Definition load_files (entries : list dirent) : SM unit :=
  ok ← sworld sys;
  when ok (for_each entries load_entry);;
  current ← store s_currentSequenceNumber;
  files ← store s_sequenceFiles;
  when ((0 <? current) && bool_decide (is_Some (om_find current files)))
    (ensure_open current;;
     with_file current recoverTail;;
     sz ← with_file current (file f_size);
     supdate (set_s_nextLogPosition (mkPos sz current)));;
  supdate (fun s => set_s_uncommitted (positionInsert (s_nextLogPosition s) (s_uncommitted s)) s).

Definition load (path : string) (maxFileSize retentionMs : Z) (maxAgeThreshold : f32)
    (entries : list dirent) : M World (option Store) := fun w =>
  let dirName := filename path in
  if skipped dirName then (inr None, w)
  else
    match load_files entries (w, Store_new dirName path maxFileSize retentionMs maxAgeThreshold) with
    | (inr _, (w', s)) => (inr (Some s), w')
    | (inl e, (w', _)) => (inl e, w')
    end.
End Store.
