(* ===== verification/StorePositions.v ===== *)
(** * Names and positions of a log store

    File names and sequence numbers, the sorted list of uncommitted positions,
    and the table that pairs RocksDB sequence numbers with log positions. *)

From S2P Require Import Prelude Encoding LogFormat Os LogFile LogStore.
From stdpp Require Import base tactics list gmap strings.
From coqutil Require Import Byte LittleEndianList.
From Stdlib Require Import ZArith Lia Ascii Sorting.Sorted.

Local Open Scope Z_scope.

#[local] Arguments String.append !_ _ : simpl nomatch.

(** ** File names *)

Lemma digit_value_of d : 0 <= d < 10 -> digit_value (ascii_of_nat (48 + Z.to_nat d)) = Some d.
Proof.
  intros Hd. unfold digit_value. rewrite nat_ascii_embedding by lia.
  destruct (Z.leb_spec 48 (Z.of_nat (48 + Z.to_nat d))); [|lia].
  destruct (Z.leb_spec (Z.of_nat (48 + Z.to_nat d)) 57); [|lia]. simpl. f_equal. lia.
Qed.

Lemma read_digits_digits fuel n acc :
  0 <= n < 10 ^ Z.of_nat fuel -> read_digits (digits fuel n acc) 0 = read_digits acc n.
Proof.
  revert n acc. induction fuel as [|fuel IH]; intros n acc Hn.
  { change (10 ^ Z.of_nat 0) with 1 in Hn. simpl. by replace n with 0 by lia. }
  cbn [digits]. pose proof (Z.mod_pos_bound n 10). pose proof (Z.div_mod n 10).
  destruct (Z.eqb_spec (n / 10) 0).
  - cbn [read_digits]. rewrite digit_value_of by lia. f_equal. lia.
  - rewrite IH.
    + cbn [read_digits]. rewrite digit_value_of by lia. f_equal. lia.
    + rewrite Nat2Z.inj_succ, Z.pow_succ_r in Hn by lia.
      split; [apply Z.div_pos; lia|apply Z.div_lt_upper_bound; lia].
Qed.

Lemma digits_head fuel n acc :
  0 <= n -> (exists c r, acc = String c r /\ is_Some (digit_value c)) \/ fuel <> 0%nat ->
  exists c r, digits fuel n acc = String c r /\ is_Some (digit_value c).
Proof.
  revert n acc. induction fuel as [|fuel IH]; intros n acc Hn Hor; cbn [digits].
  { destruct Hor; [done|done]. }
  pose proof (Z.mod_pos_bound n 10). pose proof (digit_value_of (n mod 10) ltac:(lia)) as Hd.
  destruct (n / 10 =? 0); [eexists _, _; split; [done|by rewrite Hd]|].
  apply IH; [apply Z.div_pos; lia|]. left. eexists _, _. split; [done|]. by rewrite Hd.
Qed.

Lemma digit_not_special c :
  is_Some (digit_value c) -> is_space c = false /\ c <> "-"%char /\ c <> "+"%char /\ c <> "."%char /\ c <> "/"%char.
Proof.
  intros [d Hd]. unfold digit_value in Hd. destruct (_ && _) eqn:Hr; [|done].
  apply andb_true_iff in Hr as [H1 H2]. unfold is_space.
  assert (48 <= nat_of_ascii c <= 57)%nat as Hc by lia. split_and!.
  - apply orb_false_iff. split; [apply andb_false_iff; right|]; [apply Nat.leb_gt|apply Nat.eqb_neq]; lia.
  - intros ->. vm_compute in Hc. lia.
  - intros ->. vm_compute in Hc. lia.
  - intros ->. vm_compute in Hc. lia.
  - intros ->. vm_compute in Hc. lia.
Qed.

Lemma stoul_to_string n : is_u32 n -> stoul (to_string n) = Some n.
Proof.
  intros Hn. unfold is_u32 in Hn. unfold stoul, to_string.
  destruct (digits_head 10 n "") as (c & r & Hcr & Hd); [lia|by right|].
  destruct (digit_not_special c Hd) as (Hs & Hm & Hp & _). rewrite Hcr. cbn [skip_spaces]. rewrite Hs.
  destruct (Ascii.eqb_spec c "-"%char); [done|]. destruct (Ascii.eqb_spec c "+"%char); [done|].
  unfold stoul_abs. destruct Hd as [d Hd]. rewrite Hd, <- Hcr, read_digits_digits by (simpl; lia).
  cbn [read_digits]. destruct (Z.ltb_spec n (2 ^ 64)); [done|lia].
Qed.

Lemma to_string_inj n m : is_u32 n -> is_u32 m -> to_string n = to_string m -> n = m.
Proof.
  intros Hn Hm Heq. pose proof (stoul_to_string n Hn) as H. rewrite Heq, stoul_to_string in H by done.
  congruence.
Qed.

Lemma log_path_inj s n m : is_u32 n -> is_u32 m -> log_path s n = log_path s m -> n = m.
Proof.
  intros Hn Hm H. unfold log_path in H. apply append_inj_l in H. apply append_inj_l in H.
  apply append_inj_r in H. by apply to_string_inj.
Qed.

(** No character of a decimal numeral is a dot. *)
Fixpoint no_dots (s : string) : Prop :=
  match s with
  | EmptyString => True
  | String c r => c <> "."%char /\ no_dots r
  end.

Lemma digits_no_dots fuel n acc : 0 <= n -> no_dots acc -> no_dots (digits fuel n acc).
Proof.
  revert n acc. induction fuel as [|fuel IH]; intros n acc Hn Hacc; cbn [digits]; [done|].
  pose proof (Z.mod_pos_bound n 10). pose proof (digit_value_of (n mod 10) ltac:(lia)) as Hd.
  assert (no_dots (String (ascii_of_nat (48 + Z.to_nat (n mod 10))) acc)).
  { split; [|done]. apply digit_not_special. by rewrite Hd. }
  destruct (n / 10 =? 0); [done|]. apply IH; [apply Z.div_pos; lia|done].
Qed.

Lemma last_dot_append s t i acc :
  no_dots s -> last_dot i (s +:+ t) acc = last_dot (i + String.length s) t acc.
Proof.
  revert i acc. induction s as [|c s IH]; intros i acc Hs; simpl; [by rewrite Nat.add_0_r|].
  destruct Hs as [Hc Hs]. destruct (Ascii.eqb_spec c "."%char); [done|]. rewrite IH by done. f_equal. lia.
Qed.

Lemma substring_prefix s t : String.substring 0 (String.length s) (s +:+ t) = s.
Proof. induction s as [|c s IH]; simpl; [by destruct t|]. by rewrite IH. Qed.

Lemma substring_all t n : (String.length t <= n)%nat -> String.substring 0 n t = t.
Proof. revert n. induction t as [|c t IH]; intros [|n] Hn; simpl in *; try done; [lia|]. rewrite IH; [done|lia]. Qed.

Lemma substring_suffix s t n :
  (String.length t <= n)%nat -> String.substring (String.length s) n (s +:+ t) = t.
Proof. intros Hn. induction s as [|c s IH]; simpl; [by apply substring_all|done]. Qed.

(** The name [getLogFile] gives a file is read back by [load] as its number. *)
Lemma log_name_parses n :
  is_u32 n ->
  let name := to_string n +:+ ".txnlog" in
  extension name = ".txnlog" /\
  stoul (String.substring 0 (String.length name - 7) name) = Some n.
Proof.
  intros Hn name. unfold is_u32 in Hn. split.
  - unfold extension. subst name. rewrite last_dot_append by (apply digits_no_dots; [lia|done]).
    destruct (digits_head 10 n "") as (c & r & Hcr & _); [lia|by right|].
    assert (String.length (to_string n) = S (String.length r)) as Hl by (unfold to_string; by rewrite Hcr).
    rewrite Hl. cbn [Nat.add last_dot Ascii.eqb Bool.eqb].
    rewrite <- Hl. apply substring_suffix. rewrite append_length. lia.
  - replace (String.length name - 7)%nat with (String.length (to_string n))
      by (subst name; rewrite append_length; simpl; lia).
    subst name. rewrite substring_prefix. by apply stoul_to_string.
Qed.

(** ** Positions *)

Definition pos_lt (a b : LogPosition) : Prop := pos_ltb a b = true.

Lemma pos_lt_iff a b :
  pos_lt a b <-> logSequenceNumber a < logSequenceNumber b \/
    logSequenceNumber a = logSequenceNumber b /\ positionInLogFile a < positionInLogFile b.
Proof.
  unfold pos_lt, pos_ltb. destruct (Z.eqb_spec (logSequenceNumber a) (logSequenceNumber b)); lia.
Qed.

Lemma pos_eq a b :
  logSequenceNumber a = logSequenceNumber b -> positionInLogFile a = positionInLogFile b -> a = b.
Proof. destruct a, b. simpl. congruence. Qed.

Lemma pos_lt_trans a b c : pos_lt a b -> pos_lt b c -> pos_lt a c.
Proof. rewrite !pos_lt_iff. lia. Qed.

Lemma pos_lt_irrefl a : ~ pos_lt a a.
Proof. rewrite pos_lt_iff. lia. Qed.

Lemma pos_lt_total a b : pos_lt a b \/ a = b \/ pos_lt b a.
Proof.
  rewrite !pos_lt_iff.
  destruct (Z.lt_trichotomy (logSequenceNumber a) (logSequenceNumber b)) as [|[|]]; [lia| |lia].
  destruct (Z.lt_trichotomy (positionInLogFile a) (positionInLogFile b)) as [|[|]]; [lia| |lia].
  right. left. by apply pos_eq.
Qed.

Lemma pos_ltb_spec a b : pos_ltb a b = true /\ pos_lt a b \/ pos_ltb a b = false /\ (a = b \/ pos_lt b a).
Proof.
  unfold pos_lt. destruct (pos_ltb a b) eqn:E; [by left|right]. split; [done|].
  destruct (pos_lt_total a b) as [H|[H|H]]; [unfold pos_lt in H; congruence|by left|by right].
Qed.

Lemma pos_gtb_lt a b : pos_gtb a b = pos_ltb b a.
Proof.
  unfold pos_gtb, pos_ltb. rewrite (Z.eqb_sym (logSequenceNumber b)). done.
Qed.

(** On 32-bit fields the order is that of the packed words. *)
Lemma pos_lt_full a b :
  is_u32 (positionInLogFile a) -> is_u32 (positionInLogFile b) ->
  pos_lt a b <-> fullPosition a < fullPosition b.
Proof. unfold is_u32. intros Ha Hb. rewrite pos_lt_iff. unfold fullPosition. lia. Qed.

Definition pos_sorted (l : list LogPosition) : Prop := StronglySorted pos_lt l.

Lemma elem_of_positionInsert p l q : q ∈ positionInsert p l <-> q = p \/ q ∈ l.
Proof.
  induction l as [|r l IH]; cbn [positionInsert]; [set_solver|].
  destruct (pos_ltb_spec r p) as [[-> Hlt]|[-> Hge]]; [set_solver|].
  destruct (pos_ltb_spec p r) as [[-> Hlt']|[-> Hge']]; [set_solver|].
  assert (p = r) as ->; [|set_solver].
  destruct Hge as [?|?], Hge' as [?|?]; try done. exfalso.
  eapply pos_lt_irrefl, pos_lt_trans; eassumption.
Qed.

Lemma pos_sorted_insert p l : pos_sorted l -> pos_sorted (positionInsert p l).
Proof.
  intros Hs. induction Hs as [|r l Hs IH Hall]; cbn [positionInsert]; [by repeat constructor|].
  destruct (pos_ltb_spec r p) as [[-> Hlt]|[-> Hge]].
  - constructor; [done|]. apply Forall_forall. intros q [->|Hq]%elem_of_positionInsert; [done|].
    rewrite Forall_forall in Hall. by apply Hall.
  - destruct (pos_ltb_spec p r) as [[-> Hlt']|[-> Hge']]; [|by constructor].
    constructor; [by constructor|]. constructor; [done|].
    eapply Forall_impl; [exact Hall|]. intros q. by apply pos_lt_trans.
Qed.

Lemma elem_of_positionErase p l q : pos_sorted l -> q ∈ positionErase p l <-> q <> p /\ q ∈ l.
Proof.
  intros Hs. induction Hs as [|r l Hs IH Hall]; cbn [positionErase]; [set_solver|].
  rewrite Forall_forall in Hall.
  destruct (pos_ltb_spec r p) as [[-> Hlt]|[-> Hge]].
  - rewrite !elem_of_cons, IH. assert (r <> p) by (intros ->; by apply pos_lt_irrefl in Hlt). naive_solver.
  - destruct (pos_ltb_spec p r) as [[-> Hlt']|[-> Hge']].
    + split; [|naive_solver]. intros Hq. split; [|done]. intros ->.
      apply elem_of_cons in Hq as [->|Hq]; [by apply pos_lt_irrefl in Hlt'|].
      eapply pos_lt_irrefl, pos_lt_trans; [exact Hlt'|by apply Hall].
    + assert (p = r) as ->.
      { destruct Hge as [?|?], Hge' as [?|?]; try done. exfalso.
        eapply pos_lt_irrefl, pos_lt_trans; eassumption. }
      rewrite elem_of_cons. split; [|naive_solver]. intros Hq. split; [|by right].
      intros ->. by apply Hall, pos_lt_irrefl in Hq.
Qed.

Lemma pos_sorted_erase p l : pos_sorted l -> pos_sorted (positionErase p l).
Proof.
  intros Hs. induction Hs as [|r l Hs IH Hall]; cbn [positionErase]; [constructor|].
  destruct (pos_ltb r p); [|destruct (pos_ltb p r); [by constructor|done]].
  constructor; [done|]. apply Forall_forall. intros q [_ Hq]%elem_of_positionErase; [|done].
  rewrite Forall_forall in Hall. by apply Hall.
Qed.

#[export] Hint Resolve pos_sorted_insert pos_sorted_erase : rdb.

(** The committed position is not after any tracked position. *)
Lemma fullyCommitted_le s q :
  pos_sorted (s_uncommitted s) -> q ∈ s_uncommitted s -> ~ pos_lt q (fullyCommittedPosition s).
Proof.
  unfold fullyCommittedPosition. intros Hs Hq. destruct Hs as [|r l Hs Hall]; [set_solver|].
  apply elem_of_cons in Hq as [->|Hq]; [apply pos_lt_irrefl|].
  rewrite Forall_forall in Hall. intros Hlt. eapply pos_lt_irrefl, pos_lt_trans; [exact Hlt|by apply Hall].
Qed.

(** ** Transactions over the position list

    [tr_open] holds the start positions of the transactions that have been written
    and neither committed nor aborted.  Two flags record what the positions did:
    [tr_back], that [nextLogPosition] moved back, as it does after a rotation;
    [tr_shared], that it was a position that an open transaction has. *)

Section Tracking.
Context {OS : Os}.

Record Track := mkTrack { tr_open : list LogPosition; tr_store : Store; tr_back : bool; tr_shared : bool }.

Definition next_open (act : list LogPosition) (s : Store) : bool := bool_decide (s_nextLogPosition s ∈ act).

Inductive track_step : Track -> Track -> Prop :=
| track_begin w act s bk sh b p0 s' p :
    take_position ((w, s), (b, p0)) = (inr tt, ((w, s'), (b, p))) ->
    track_step (mkTrack act s bk sh) (mkTrack (p :: act) s' bk (sh || next_open act s))
| track_retake w act act' s bk sh b p s' p' :
    act ≡ₚ p :: act' -> retake_position ((w, s), (b, p)) = (inr tt, ((w, s'), (b, p'))) ->
    track_step (mkTrack act s bk sh) (mkTrack (p' :: act') s' bk (sh || next_open act' s))
| track_advance act s bk sh p :
    track_step (mkTrack act s bk sh) (mkTrack act (set_s_nextLogPosition p s) (bk || pos_ltb p (s_nextLogPosition s)) sh)
| track_mark act s bk sh :
    track_step (mkTrack act s bk sh) (mkTrack act (set_s_uncommitted (positionInsert (s_nextLogPosition s) (s_uncommitted s)) s) bk sh)
| track_commit w act act' s bk sh p r s' :
    act ≡ₚ p :: act' -> commitFinished p r (w, s) = (inr tt, (w, s')) ->
    track_step (mkTrack act s bk sh) (mkTrack act' s' bk sh)
| track_abort w act act' s bk sh p s' :
    act ≡ₚ p :: act' -> commitAborted p (w, s) = (inr tt, (w, s')) ->
    track_step (mkTrack act s bk sh) (mkTrack act' s' bk sh)
| track_purge w act s bk sh seq s' :
    forget_file seq (w, s) = (inr tt, (w, s')) ->
    track_step (mkTrack act s bk sh)
      (mkTrack act s' (bk || pos_ltb (s_nextLogPosition s') (s_nextLogPosition s)) (sh || next_open act s)).

(** No tracked position is after the next one or before the committed one. *)
Definition bracketed (s : Store) : Prop :=
  (forall p, p ∈ s_uncommitted s -> ~ pos_lt (s_nextLogPosition s) p) /\
  (forall p, p ∈ s_uncommitted s -> ~ pos_lt p (s_lastCommittedPosition s)) /\
  ~ pos_lt (s_nextLogPosition s) (s_lastCommittedPosition s).

Definition track_inv (x : Track) : Prop :=
  pos_sorted (s_uncommitted (tr_store x)) /\
  (tr_shared x = false -> NoDup (tr_open x) /\ forall p, p ∈ tr_open x -> p ∈ s_uncommitted (tr_store x)) /\
  (tr_back x = false -> bracketed (tr_store x)).

(** Forgetting a start position and recomputing the committed position. *)
Definition settle (p : LogPosition) (s : Store) : Store :=
  let s1 := set_s_uncommitted (positionErase p (s_uncommitted s)) s in
  set_s_lastCommittedPosition (fullyCommittedPosition s1) s1.

Lemma commitAborted_settle p w s : commitAborted p (w, s) = (inr tt, (w, settle p s)).
Proof. done. Qed.

Definition record_slot (r : Z) (s : Store) : Store :=
  let count := s_nextSequencePositionsCount s in
  set_s_recent (<[slot_index (RECENTLY_COMMITTED_POSITIONS_SIZE - 1) 0 count :=
                   mkSeqPos r (s_lastCommittedPosition s)]> (s_recent s))
    (set_s_nextSequencePositionsCount (u32 (count + 1)) s).

Lemma commitFinished_settle p r w s :
  commitFinished p r (w, s) = (inr tt, (w, record_slot r (settle p s))).
Proof. done. Qed.

(** The committed position is the next one or a tracked one. *)
Lemma fullyCommitted_cases s : fullyCommittedPosition s = s_nextLogPosition s \/ fullyCommittedPosition s ∈ s_uncommitted s.
Proof. unfold fullyCommittedPosition. destruct (s_uncommitted s); [by left|right; set_solver]. Qed.

(** Recomputing the committed position after the tracked ones were changed. *)
Lemma recompute_bracketed s s' :
  pos_sorted (s_uncommitted s') -> bracketed s ->
  (forall q, q ∈ s_uncommitted s' -> q ∈ s_uncommitted s \/ q = s_nextLogPosition s') ->
  ~ pos_lt (s_nextLogPosition s') (s_nextLogPosition s) -> s_lastCommittedPosition s' = fullyCommittedPosition s' ->
  bracketed s' /\ ~ pos_lt (s_lastCommittedPosition s') (s_lastCommittedPosition s).
Proof.
  intros Hs (Hnext & Hlast & Hln) Hu Hfwd Hc.
  assert (Hn : ~ pos_lt (s_nextLogPosition s') (s_lastCommittedPosition s)).
  { intros Hlt. destruct (pos_lt_total (s_nextLogPosition s') (s_nextLogPosition s)) as [?|[He|Hl]]; [done|congruence|].
    apply Hln. by eapply pos_lt_trans. }
  assert (Hn' : forall q, q ∈ s_uncommitted s' -> ~ pos_lt (s_nextLogPosition s') q).
  { intros q Hq Hlt. destruct (Hu q Hq) as [Hq'| ->]; [|by apply pos_lt_irrefl in Hlt].
    destruct (pos_lt_total (s_nextLogPosition s') (s_nextLogPosition s)) as [?|[He|Hl]]; [done|apply (Hnext q Hq'); congruence|].
    apply (Hnext q Hq'). by eapply pos_lt_trans. }
  unfold bracketed. rewrite Hc. destruct (fullyCommitted_cases s') as [E|Hin].
  - split_and!; [done|intros; by apply fullyCommitted_le|rewrite E; apply pos_lt_irrefl|by rewrite E].
  - split_and!; [done|intros; by apply fullyCommitted_le|by apply Hn'|]. destruct (Hu _ Hin) as [?| ->]; [by apply Hlast|done].
Qed.

Lemma settle_inv p act act' s bk sh :
  act ≡ₚ p :: act' -> track_inv (mkTrack act s bk sh) ->
  track_inv (mkTrack act' (settle p s) bk sh) /\
  (bk = false -> ~ pos_lt (s_lastCommittedPosition (settle p s)) (s_lastCommittedPosition s)).
Proof.
  intros Hp (Hs & Hact & Hbr). simpl in *.
  assert (Hu : forall q, q ∈ s_uncommitted (settle p s) <-> q <> p /\ q ∈ s_uncommitted s) by (intros; by apply elem_of_positionErase).
  assert (Hsort : pos_sorted (s_uncommitted (settle p s))) by by apply pos_sorted_erase.
  assert (Hb : bk = false -> bracketed (settle p s) /\ ~ pos_lt (s_lastCommittedPosition (settle p s)) (s_lastCommittedPosition s)).
  { intros E. apply recompute_bracketed; auto; [|apply pos_lt_irrefl]. intros q [_ ?]%Hu. by left. }
  split; [|intros E; by apply Hb]. split_and!; simpl; [done| |intros E; by apply Hb].
  intros E. destruct (Hact E) as [Hnd Hin]. rewrite Hp in Hnd. apply NoDup_cons in Hnd as [Hnp Hnd]. split; [done|].
  intros q Hq. apply Hu. split; [by intros ->|]. apply Hin. rewrite Hp. by right.
Qed.

(** The next position is tracked. *)
Lemma mark_inv act s bk sh :
  track_inv (mkTrack act s bk sh) -> track_inv (mkTrack act (set_s_uncommitted (positionInsert (s_nextLogPosition s) (s_uncommitted s)) s) bk sh).
Proof.
  intros (Hs & Hact & Hbr). split_and!; simpl in *.
  - by apply pos_sorted_insert.
  - intros E. destruct (Hact E) as [? Hin]. split; [done|]. intros q Hq. apply elem_of_positionInsert. auto.
  - intros E. destruct (Hbr E) as (Hn & Hl & Hln). split_and!; simpl; [| |done]; intros q [->|Hq]%elem_of_positionInsert; auto. apply pos_lt_irrefl.
Qed.

Lemma open_next_inv act s bk sh :
  s_nextLogPosition s ∈ s_uncommitted s -> track_inv (mkTrack act s bk sh) ->
  track_inv (mkTrack (s_nextLogPosition s :: act) s bk (sh || next_open act s)).
Proof.
  intros Hn (Hs & Hact & Hbr). split_and!; simpl in *; [done| |done]. unfold next_open. intros [E Hno]%orb_false_iff.
  apply bool_decide_eq_false in Hno. destruct (Hact E) as [Hnd Hin]. split; [by constructor|]. set_solver.
Qed.

(** A tracked position may leave the open ones. *)
Lemma erase_inv p act act' s bk sh :
  act ≡ₚ p :: act' -> track_inv (mkTrack act s bk sh) ->
  track_inv (mkTrack act' (set_s_uncommitted (positionErase p (s_uncommitted s)) s) bk sh).
Proof.
  intros Hp (Hs & Hact & Hbr). split_and!; simpl in *; [by apply pos_sorted_erase| |].
  - intros E. destruct (Hact E) as [Hnd Hin]. rewrite Hp in Hnd. apply NoDup_cons in Hnd as [Hnp Hnd]. split; [done|].
    intros q Hq. apply elem_of_positionErase; [done|]. split; [by intros ->|]. apply Hin. rewrite Hp. by right.
  - intros E. destruct (Hbr E) as (Hn & Hl & Hln). split_and!; simpl; [| |done]; intros q [_ Hq]%elem_of_positionErase; auto.
Qed.

Lemma retake_inv w act act' s bk sh b p s' p' :
  act ≡ₚ p :: act' -> retake_position ((w, s), (b, p)) = (inr tt, ((w, s'), (b, p'))) ->
  track_inv (mkTrack act s bk sh) ->
  track_inv (mkTrack (p' :: act') s' bk (sh || next_open act' s)) /\ s_lastCommittedPosition s' = s_lastCommittedPosition s.
Proof.
  intros Hp Hr Hinv. unfold retake_position, take_position, on_store, supdate in Hr. mrun in Hr. destruct (f64_eqb _ _).
  - injection Hr as <- <-. split; [|done]. apply (erase_inv p _ act'), mark_inv, open_next_inv in Hinv; [exact Hinv|by apply elem_of_positionInsert; left|done].
  - injection Hr as <- <-. split; [|done]. destruct Hinv as (Hs & Hact & Hbr). split_and!; simpl in *; [done| |done].
    intros [E _]%orb_false_iff. rewrite <- Hp. destruct (Hact E) as [Hnd Hin]. split; [done|]. intros q. rewrite <- Hp. apply Hin.
Qed.

Lemma forget_file_run seq w s :
  exists s', forget_file seq (w, s) = (inr tt, (w, s')) /\
    ((s_uncommitted s' = s_uncommitted s /\ s_nextLogPosition s' = s_nextLogPosition s /\ s_lastCommittedPosition s' = s_lastCommittedPosition s) \/
     (s_uncommitted s' = positionInsert (s_nextLogPosition s') (positionErase (s_nextLogPosition s) (s_uncommitted s)) /\
      s_lastCommittedPosition s' = fullyCommittedPosition s')).
Proof.
  unfold forget_file, advanceSequence, update_committed, store, supdate, count. mrun. destruct (seq =? _); eexists; (split; [reflexivity|]); [right|left]; done.
Qed.

Lemma purge_inv w act s bk sh seq s' :
  forget_file seq (w, s) = (inr tt, (w, s')) -> track_inv (mkTrack act s bk sh) ->
  let bk' := bk || pos_ltb (s_nextLogPosition s') (s_nextLogPosition s) in
  track_inv (mkTrack act s' bk' (sh || next_open act s)) /\
  (bk' = false -> ~ pos_lt (s_lastCommittedPosition s') (s_lastCommittedPosition s)).
Proof.
  intros Hrun (Hs & Hact & Hbr) bk'. destruct (forget_file_run seq w s) as (s1 & Hrun' & Hc).
  rewrite Hrun' in Hrun. injection Hrun as ->. simpl in *.
  assert (Hbk : bk' = false -> bk = false /\ ~ pos_lt (s_nextLogPosition s') (s_nextLogPosition s)).
  { intros [E H]%orb_false_iff. split; [done|]. unfold pos_lt. by rewrite H. }
  destruct Hc as [(E1 & E2 & E3)|(E1 & E2)].
  - split; [|intros _; rewrite E3; apply pos_lt_irrefl]. unfold track_inv, bracketed. simpl. rewrite E1, E2, E3. split_and!; [done| |].
    + intros [E _]%orb_false_iff. by apply Hact.
    + intros [E _]%Hbk. by apply Hbr.
  - assert (Hsort : pos_sorted (s_uncommitted s')) by (rewrite E1; by apply pos_sorted_insert, pos_sorted_erase).
    assert (Hb : bk' = false -> bracketed s' /\ ~ pos_lt (s_lastCommittedPosition s') (s_lastCommittedPosition s)).
    { intros [E Hf]%Hbk. apply recompute_bracketed; auto. intros q. rewrite E1. intros [->|[_ ?]%elem_of_positionErase]%elem_of_positionInsert; auto. }
    split; [|intros E; by apply Hb]. split_and!; simpl; [done| |intros E; by apply Hb].
    unfold next_open. intros [E Hno]%orb_false_iff. apply bool_decide_eq_false in Hno. destruct (Hact E) as [Hnd Hin]. split; [done|].
    intros q Hq. rewrite E1. apply elem_of_positionInsert. right. apply elem_of_positionErase; [done|]. split; [by intros ->|auto].
Qed.

Lemma track_step_inv x y :
  track_step x y -> track_inv x ->
  track_inv y /\ (tr_back y = false -> tr_back x = false /\ ~ pos_lt (s_lastCommittedPosition (tr_store y)) (s_lastCommittedPosition (tr_store x))).
Proof.
  intros Hstep Hinv. destruct Hstep as [w act s bk sh b p0 s' p Ht|w act act' s bk sh b p s' p' Hp Ht|act s bk sh p|act s bk sh
    |w act act' s bk sh p r s' Hp Hc|w act act' s bk sh p s' Hp Hc|w act s bk sh seq s' Hf]; simpl.
  - injection Ht as <- <-. split; [|by split; [|apply pos_lt_irrefl]].
    apply mark_inv, open_next_inv in Hinv; [exact Hinv|by apply elem_of_positionInsert; left].
  - destruct (retake_inv _ _ _ _ _ _ _ _ _ _ Hp Ht Hinv) as [Hy ->]. split; [done|]. by split; [|apply pos_lt_irrefl].
  - destruct Hinv as (Hs & Hact & Hbr). split.
    + split_and!; simpl in *; [done|done|]. intros [E Hf]%orb_false_iff. destruct (Hbr E) as (Hn & Hl & Hln).
      assert (Hfwd : ~ pos_lt p (s_nextLogPosition s)) by (unfold pos_lt; by rewrite Hf).
      assert (Hge : forall q, ~ pos_lt (s_nextLogPosition s) q -> ~ pos_lt p q).
      { intros q Hq Hpq. destruct (pos_lt_total p (s_nextLogPosition s)) as [?|[->|Hlt]]; [done|done|]. apply Hq. by eapply pos_lt_trans. }
      split_and!; simpl; auto.
    + intros [E _]%orb_false_iff. by split; [|apply pos_lt_irrefl].
  - split; [by apply mark_inv|]. by split; [|apply pos_lt_irrefl].
  - rewrite commitFinished_settle in Hc. injection Hc as <-. destruct (settle_inv p act act' s bk sh Hp Hinv) as [Hy Hl]. split; [exact Hy|]. intros E. split; [done|by apply Hl].
  - rewrite commitAborted_settle in Hc. injection Hc as <-. destruct (settle_inv p act act' s bk sh Hp Hinv) as [Hy Hl]. split; [exact Hy|]. intros E. split; [done|by apply Hl].
  - destruct (purge_inv _ _ _ _ _ _ _ Hf Hinv) as [Hy Hl]. split; [done|]. intros E. split; [by apply orb_false_iff in E as [? _]|by apply Hl].
Qed.

(** A committed position that was moved is the lowest tracked one. *)
Lemma track_step_moved x y :
  track_step x y -> s_lastCommittedPosition (tr_store y) <> s_lastCommittedPosition (tr_store x) ->
  s_lastCommittedPosition (tr_store y) = fullyCommittedPosition (tr_store y).
Proof.
  intros Hstep Hne. destruct Hstep as [w act s bk sh b p0 s' p Ht|w act act' s bk sh b p s' p' Hp Ht|act s bk sh p|act s bk sh
    |w act act' s bk sh p r s' Hp Hc|w act act' s bk sh p s' Hp Hc|w act s bk sh seq s' Hf]; simpl in *; try done.
  - by injection Ht as <- <-.
  - unfold retake_position, take_position, on_store, supdate in Ht. mrun in Ht. by destruct (f64_eqb _ _); injection Ht as <- <-.
  - rewrite commitFinished_settle in Hc. by injection Hc as <-.
  - rewrite commitAborted_settle in Hc. by injection Hc as <-.
  - destruct (forget_file_run seq w s) as (s1 & Hrun' & Hc). rewrite Hrun' in Hf. injection Hf as ->. by destruct Hc as [(_ & _ & ?)|[_ ?]].
Qed.

(** C8: the committed position and the open transactions, over transactions that
    start, write, commit and abort and purges of the current file, in any order,
    [nextLogPosition] moving to any position.  As long as no open transaction's
    position was given or purged a second time ([tr_shared]), a committed position
    that is moved is not after the start of any transaction then open.  As long as
    [nextLogPosition] also never moved back ([tr_back]), the committed position is
    at no time after the start of an open transaction, and it never moves back.
    After a rotation [nextLogPosition] does move back, and the second part fails
    ([rotation_exposes_uncommitted]). *)
Theorem committed_position_safe x y :
  track_inv x -> rtc track_step x y ->
  (forall z, track_step y z -> tr_shared z = false ->
     s_lastCommittedPosition (tr_store z) <> s_lastCommittedPosition (tr_store y) ->
     forall p, p ∈ tr_open z -> ~ pos_lt p (s_lastCommittedPosition (tr_store z))) /\
  (tr_back y = false ->
     ~ pos_lt (s_lastCommittedPosition (tr_store y)) (s_lastCommittedPosition (tr_store x)) /\
     (tr_shared y = false -> forall p, p ∈ tr_open y -> ~ pos_lt p (s_lastCommittedPosition (tr_store y)))).
Proof.
  intros Hinv Hsteps.
  assert (track_inv y /\ (tr_back y = false -> tr_back x = false /\ ~ pos_lt (s_lastCommittedPosition (tr_store y)) (s_lastCommittedPosition (tr_store x)))) as [Hy Hle].
  { induction Hsteps as [x|x z y Hstep _ IH]; [split; [done|by split; [|apply pos_lt_irrefl]]|].
    destruct (track_step_inv _ _ Hstep Hinv) as [Hz Hxz]. destruct (IH Hz) as [Hy Hzy]. split; [done|]. intros E.
    destruct (Hzy E) as [Ez Hzy']. destruct (Hxz Ez) as [Ex Hxz']. split; [done|].
    intros Hlt. destruct (pos_lt_total (s_lastCommittedPosition (tr_store z)) (s_lastCommittedPosition (tr_store x))) as [?|[He|Hl]];
      [done|by rewrite He in Hzy'|]. apply Hzy'. by eapply pos_lt_trans. }
  split.
  - intros z Hz Hsh Hne p Hp. destruct (track_step_inv _ _ Hz Hy) as [(Hs & Hact & _) _].
    rewrite (track_step_moved _ _ Hz Hne). apply fullyCommitted_le; [done|]. by apply (Hact Hsh).
  - intros E. split; [by apply Hle|]. intros Hsh p Hp. destruct Hy as (_ & Hact & Hbr).
    destruct (Hbr E) as (_ & Hl & _). by apply Hl, (Hact Hsh).
Qed.
End Tracking.

(** Two transactions, the second committed first. *)
Lemma committed_position_safe_witness :
  let s0 := Store_new "foo" "db/foo" 0 0 (SpecFloat.S754_zero false) in
  let s1 := set_s_uncommitted [mkPos 0 0] s0 in
  let s2 := set_s_nextLogPosition (mkPos 30 1) s1 in
  let s3 := set_s_uncommitted [mkPos 0 0; mkPos 30 1] s2 in
  let s4 := record_slot 7 (settle (mkPos 30 1) s3) in
  track_inv (mkTrack [] s0 false false) /\ rtc track_step (mkTrack [] s0 false false) (mkTrack [mkPos 0 0] s4 false false) /\
  ~ pos_lt (mkPos 0 0) (s_lastCommittedPosition s4).
Proof.
  intros s0 s1 s2 s3 s4.
  assert (H0 : track_inv (mkTrack [] s0 false false)).
  { split_and!; [constructor|intros _; split; [constructor|set_solver]|]. intros _. split_and!; [set_solver|set_solver|intros H; vm_compute in H; discriminate]. }
  assert (Hsteps : rtc track_step (mkTrack [] s0 false false) (mkTrack [mkPos 0 0] s4 false false)).
  { eapply rtc_l; [eapply (track_begin empty_world [] s0 _ _ (TransactionLogEntryBatch_new 7) (mkPos 0 0) s1 (mkPos 0 0)); reflexivity|].
    eapply rtc_l; [apply (track_advance [mkPos 0 0] s1 _ _ (mkPos 30 1))|].
    eapply rtc_l; [eapply (track_begin empty_world [mkPos 0 0] s2 _ _ (TransactionLogEntryBatch_new 7) (mkPos 0 0) s3 (mkPos 30 1)); reflexivity|].
    eapply rtc_l; [apply (track_commit empty_world [mkPos 30 1; mkPos 0 0] [mkPos 0 0] s3 _ _ (mkPos 30 1) 7 s4); [done|reflexivity]|].
    apply rtc_refl. }
  split; [exact H0|]. split; [exact Hsteps|].
  apply (proj2 (committed_position_safe _ _ H0 Hsteps)); [reflexivity|reflexivity|]. simpl. set_solver.
Defined.

(** ** The table of RocksDB sequence numbers *)

Lemma slot_index_spec n index count :
  let j := slot_index n index count in
  (index <= j <= index + n)%nat /\
  (forall i, (index <= i < j)%nat -> Z.testbit count (Z.of_nat i) = false) /\
  ((j < index + n)%nat -> Z.testbit count (Z.of_nat j) = true).
Proof.
  revert index. induction n as [|n IH]; intros index; cbn [slot_index]; [split_and!; lia|].
  destruct (Z.testbit count (Z.of_nat index)) eqn:Hb; [split_and!; [lia|lia|lia|done]|].
  destruct (IH (S index)) as (H1 & H2 & H3). split_and!; [lia|lia| |intros; apply H3; lia].
  intros i Hi. destruct (decide (i = index)) as [->|]; [done|]. apply H2. lia.
Qed.

Definition slot (c : Z) : nat := slot_index (RECENTLY_COMMITTED_POSITIONS_SIZE - 1) 0 c.

Lemma slot_lt c : (slot c < RECENTLY_COMMITTED_POSITIONS_SIZE)%nat.
Proof.
  destruct (slot_index_spec (RECENTLY_COMMITTED_POSITIONS_SIZE - 1) 0 c) as (H & _).
  unfold slot, RECENTLY_COMMITTED_POSITIONS_SIZE in *. lia.
Qed.

Lemma testbit_low_false c j :
  0 <= c -> 0 <= j -> (forall i, 0 <= i < j -> Z.testbit c i = false) -> c mod 2 ^ j = 0.
Proof.
  intros Hc Hj H. apply Z.bits_inj_0. intros i. destruct (Z.neg_nonneg_cases i) as [|Hi].
  { by apply Z.testbit_neg_r. }
  rewrite <- Z.land_ones, Z.land_spec by lia. destruct (decide (i < j)).
  - by rewrite H.
  - rewrite Z.ones_spec_high by lia. apply andb_false_r.
Qed.

(** The slot looks at the low 23 bits only. *)
Lemma slot_index_ext n i c c' :
  (forall k, (i <= k < i + n)%nat -> Z.testbit c (Z.of_nat k) = Z.testbit c' (Z.of_nat k)) -> slot_index n i c = slot_index n i c'.
Proof.
  revert i. induction n as [|n IH]; intros i H; cbn [slot_index]; [done|]. rewrite (H i) by lia.
  destruct (Z.testbit c' (Z.of_nat i)); [done|]. apply IH. intros k Hk. apply H. lia.
Qed.

Lemma slot_u32 c : slot (u32 c) = slot c.
Proof.
  apply slot_index_ext. intros k Hk. unfold RECENTLY_COMMITTED_POSITIONS_SIZE in Hk. unfold u32. apply Z.mod_pow2_bits_low. lia.
Qed.

(** A number is a multiple of [2^23], in the last slot, or an odd multiple of two
    to its slot. *)
Lemma slot_spec c :
  0 <= c -> c mod 2 ^ 23 <> 0 -> exists q, 0 <= q /\ c = 2 ^ Z.of_nat (slot c) * (2 * q + 1) /\ (slot c < 23)%nat.
Proof.
  intros Hc Hnz. destruct (slot_index_spec 23 0 c) as (Hr & Hlow & Hbit).
  change (slot_index 23 0 c) with (slot c) in *. set (j := slot c) in *.
  assert (Hmod : forall k, (k <= j)%nat -> c mod 2 ^ Z.of_nat k = 0).
  { intros k Hk. apply testbit_low_false; [lia|lia|]. intros i Hi.
    replace i with (Z.of_nat (Z.to_nat i)) by lia. apply Hlow. lia. }
  assert (Hj : (j < 23)%nat).
  { destruct (decide (j = 23%nat)) as [He|]; [|lia]. by specialize (Hmod 23%nat ltac:(lia)). }
  specialize (Hmod j ltac:(lia)). specialize (Hbit ltac:(lia)).
  pose proof (Z.pow_pos_nonneg 2 (Z.of_nat j)) as Hp.
  apply Z.mod_divide in Hmod as [m Hm]; [|lia].
  assert (Hodd : Z.odd m = true).
  { rewrite Hm, Z.mul_comm in Hbit. rewrite <- Z.bit0_odd. rewrite <- Hbit.
    rewrite Z.mul_comm, Z.mul_pow2_bits by lia. f_equal. lia. }
  apply Z.odd_spec in Hodd as [q Hq]. assert (0 <= m) by (apply (Z.mul_nonneg_cancel_r m (2 ^ Z.of_nat j)); lia).
  exists q. split_and!; [lia|rewrite Hm, Hq; ring|done].
Qed.

Lemma slot_top c : c mod 2 ^ 23 = 0 -> slot c = 23%nat.
Proof.
  intros Hc. rewrite <- (slot_index_ext 23 0 0); [done|]. intros k Hk. rewrite Z.bits_0. symmetry.
  rewrite <- (Z.mod_pow2_bits_low c 23) by lia. by rewrite Hc, Z.bits_0.
Qed.

(** A run of commits and what each one recorded. *)
Definition commits (l : list (LogPosition * Z)) (s : Store) : Store :=
  foldl (fun s '(p, r) => record_slot r (settle p s)) s l.

Definition recorded (l : list (LogPosition * Z)) (s : Store) (i : nat) : SequencePosition :=
  mkSeqPos (default 0 (snd <$> l !! i)) (s_lastCommittedPosition (commits (take (S i) l) s)).

Lemma commits_snoc l p r s : commits (l ++ [(p, r)]) s = record_slot r (settle p (commits l s)).
Proof. unfold commits. by rewrite foldl_app. Qed.

Lemma commits_count l s :
  s_nextSequencePositionsCount s = 0 -> s_nextSequencePositionsCount (commits l s) = u32 (Z.of_nat (length l)).
Proof.
  intros H0. induction l as [|[p r] l IH] using rev_ind; [done|].
  rewrite commits_snoc. cbn. rewrite IH, length_app. simpl. unfold u32. rewrite Zplus_mod_idemp_l. f_equal. lia.
Qed.

Lemma recorded_app l l' s i : (i < length l)%nat -> recorded (l ++ l') s i = recorded l s i.
Proof.
  intros Hi. unfold recorded. rewrite lookup_app_l by done. by rewrite take_app_le by lia.
Qed.

Lemma recorded_last l p r s :
  recorded (l ++ [(p, r)]) s (length l) = mkSeqPos r (s_lastCommittedPosition (settle p (commits l s))).
Proof.
  unfold recorded. rewrite list_lookup_middle by done. simpl default.
  rewrite firstn_all2 by (rewrite length_app; simpl; lia). by rewrite commits_snoc.
Qed.

(** A commit stays in the table until a later one maps to its slot. *)
Lemma recent_lookup l s c :
  s_nextSequencePositionsCount s = 0 -> length (s_recent s) = RECENTLY_COMMITTED_POSITIONS_SIZE ->
  (c < length l)%nat ->
  (forall c', (c < c' < length l)%nat -> slot (Z.of_nat c') <> slot (Z.of_nat c)) ->
  s_recent (commits l s) !! slot (Z.of_nat c) = Some (recorded l s c).
Proof.
  intros H0 Hlen. 
  assert (Hlens : forall l, length (s_recent (commits l s)) = RECENTLY_COMMITTED_POSITIONS_SIZE).
  { clear -Hlen. intros l. induction l as [|[p r] l IH] using rev_ind; [done|].
    rewrite commits_snoc. cbn. by rewrite length_insert. }
  induction l as [|[p r] l IH] using rev_ind; intros Hc Hno; [simpl in Hc; lia|].
  rewrite length_app in Hc, Hno. simpl in Hc, Hno. rewrite commits_snoc. cbn -[slot_index].
  rewrite commits_count by done. fold (slot (u32 (Z.of_nat (length l)))). rewrite slot_u32.
  destruct (decide (c = length l)) as [->|Hne].
  - rewrite recorded_last. rewrite list_lookup_insert_eq; [done|]. rewrite Hlens. apply slot_lt.
  - rewrite list_lookup_insert_ne by (apply Hno; lia). rewrite recorded_app by lia.
    apply IH; [lia|]. intros c' Hc'. apply Hno. lia.
Qed.

(** Every entry of the table is the initial one or a commit's. *)
Lemma recent_entries l s x :
  x ∈ s_recent (commits l s) -> x ∈ s_recent s \/ exists i, (i < length l)%nat /\ x = recorded l s i.
Proof.
  induction l as [|[p r] l IH] using rev_ind; [by left|]. rewrite commits_snoc. cbn.
  intros [i Hi]%list_elem_of_lookup. apply list_lookup_insert_Some in Hi as [(_ & <- & _)|(_ & Hi)].
  - right. exists (length l). split; [rewrite length_app; simpl; lia|]. by rewrite recorded_last.
  - destruct IH as [?|(k & Hk & ->)]; [by eapply list_elem_of_lookup_2|by left|right].
    exists k. split; [rewrite length_app; simpl; lia|]. by rewrite recorded_app.
Qed.

Lemma latest_flushed_spec recent R :
  (latest_flushed recent R = mkPos 0 0 \/
   exists x, x ∈ recent /\ rocksSequenceNumber x <= R /\ latest_flushed recent R = sp_position x) /\
  (forall x, x ∈ recent -> rocksSequenceNumber x <= R -> ~ pos_lt (latest_flushed recent R) (sp_position x)).
Proof.
  unfold latest_flushed.
  induction recent as [|y recent IH] using rev_ind; [split; [by left|set_solver]|].
  rewrite foldl_app. cbn [foldl]. set (best := foldl _ _ recent) in *. destruct IH as [IH1 IH2].
  rewrite pos_gtb_lt. destruct (Z.leb_spec (rocksSequenceNumber y) R) as [Hle|Hgt]; simpl.
  - destruct (pos_ltb_spec best (sp_position y)) as [[-> Hlt]|[-> Hge]].
    + split; [right; exists y; set_solver|]. intros x [Hx| ->%list_elem_of_singleton]%elem_of_app Hr; [|apply pos_lt_irrefl].
      intros Hyx. apply (IH2 x Hx Hr). by eapply pos_lt_trans.
    + split.
      * destruct IH1 as [?|(x & Hx & ?)]; [by left|right; exists x; set_solver].
      * intros x [Hx| ->%list_elem_of_singleton]%elem_of_app Hr; [by apply IH2|].
        destruct Hge as [->|Hge]; [apply pos_lt_irrefl|]. intros Hlt. eapply pos_lt_irrefl, pos_lt_trans; eassumption.
  - split.
    + destruct IH1 as [?|(x & Hx & ?)]; [by left|right; exists x; set_solver].
    + intros x [Hx| ->%list_elem_of_singleton]%elem_of_app Hr; [by apply IH2|lia].
Qed.

(** Among the commits up to [m] one is still in the table that is less than twice
    as far behind [m] as [m] is behind the last one. *)
Lemma dense_slot n m :
  (m < n)%nat -> Z.of_nat n <= 2 ^ 23 \/ Z.of_nat (n - m) <= 2 ^ 22 ->
  exists c, (c <= m)%nat /\ (n - c < 3 * (n - m))%nat /\
    forall c', (c < c' < n)%nat -> slot (Z.of_nat c') <> slot (Z.of_nat c).
Proof.
  intros Hm Hn. set (d := Z.of_nat (n - m)). set (k := Z.log2_up d).
  assert (Hk0 : 0 <= k) by apply Z.log2_up_nonneg. pose proof (Z.pow_pos_nonneg 2 k ltac:(lia) Hk0) as Hpk.
  assert (Hk : d <= 2 ^ k < 2 * d).
  { destruct (decide (d = 1)) as [Hd|]; [unfold k; rewrite Hd; change (2 ^ Z.log2_up 1) with 1; lia|].
    pose proof (Z.log2_up_spec d ltac:(lia)) as [H1 H2]. fold k in H1, H2.
    assert (0 < k) by (apply Z.log2_up_pos; lia).
    replace (2 ^ k) with (2 * 2 ^ (Z.pred k)) in * by (rewrite <- Z.pow_succ_r by lia; f_equal; lia). lia. }
  set (x := Z.of_nat m - Z.of_nat m mod 2 ^ k).
  pose proof (Z.mod_pos_bound (Z.of_nat m) (2 ^ k) Hpk) as Hmod.
  pose proof (Z.div_mod (Z.of_nat m) (2 ^ k) ltac:(lia)) as Hdm.
  pose proof (Z.div_pos (Z.of_nat m) (2 ^ k) ltac:(lia) Hpk) as Hdp.
  assert (Hx : 0 <= x) by (pose proof (Z.mod_le (Z.of_nat m) (2 ^ k)); lia).
  exists (Z.to_nat x). split_and!; [lia|lia|]. intros c' Hc'. rewrite Z2Nat.id by lia.
  intros Heq. destruct (decide (x mod 2 ^ 23 = 0)) as [Hx23|Hx23].
  { rewrite (slot_top x) in Heq by done. destruct (decide (Z.of_nat c' mod 2 ^ 23 = 0)) as [Hc23|Hc23].
    2:{ destruct (slot_spec (Z.of_nat c')) as (_ & _ & _ & ?); lia. }
    assert (Hfar : x + 2 ^ 23 <= Z.of_nat c').
    { apply Z.mod_divide in Hx23 as [a Ha]; [|lia]. apply Z.mod_divide in Hc23 as [b Hb]; [|lia]. rewrite Ha, Hb in *. nia. }
    destruct Hn as [Hn|Hn]; [lia|]. assert (2 ^ k <= 2 ^ 22); [|lia]. apply Z.pow_le_mono_r; [lia|].
    apply Z.log2_up_le_pow2; lia. }
  destruct (decide (Z.of_nat c' mod 2 ^ 23 = 0)) as [Hc23|Hc23].
  { rewrite (slot_top (Z.of_nat c')) in Heq by done. destruct (slot_spec x) as (_ & _ & _ & ?); lia. }
  destruct (slot_spec (Z.of_nat c')) as (q' & Hq' & Hc & Hj'); [lia|done|].
  destruct (slot_spec x) as (q & Hq & Hxq & Hj); [lia|done|]. rewrite Heq in Hc.
  set (j := Z.of_nat (slot x)) in *. pose proof (Z.pow_pos_nonneg 2 j ltac:(lia) ltac:(lia)) as Hpj.
  assert (Hkj : 2 ^ k <= 2 ^ j).
  { apply Z.pow_le_mono_r; [lia|]. destruct (Z.le_gt_cases k j) as [|Hgt]; [done|exfalso].
    assert (exists b, x = 2 ^ k * b) as [b Hx2] by (exists (Z.of_nat m / 2 ^ k); lia).
    replace (2 ^ k) with (2 ^ j * (2 * 2 ^ (k - j - 1))) in Hx2.
    2:{ rewrite <- Z.pow_succ_r, <- Z.pow_add_r by lia. f_equal. lia. }
    rewrite Hx2 in Hxq at 1. set (a := 2 ^ (k - j - 1)) in *.
    assert (2 * (a * b) = 2 * q + 1); [|lia].
    apply (Z.mul_reg_l _ _ (2 ^ j)); [lia|]. transitivity (2 ^ j * (2 * a) * b); [ring|exact Hxq]. }
  assert (Hqq : 2 * q + 1 < 2 * q' + 1).
  { apply (Z.mul_lt_mono_pos_l (2 ^ j)); [done|]. rewrite <- Hxq, <- Hc. lia. }
  assert (2 ^ j * (2 * q + 3) <= 2 ^ j * (2 * q' + 1)) by (apply Z.mul_le_mono_nonneg_l; lia).
  assert (2 ^ j * (2 * q + 3) = x + 2 * 2 ^ j) by (transitivity (2 ^ j * (2 * q + 1) + 2 * 2 ^ j); [ring|lia]). lia.
Qed.

(** C9: the flushed position is safe and close.  After [n] commits of a store
    since it was constructed, a flush that covers the first [m + 1] of them
    records a position that some commit within the flush published (or none), and
    that is not before the position of a commit [c <= m] with
    [n - c < 3 (n - m)]: the table of 24 slots loses less than twice the distance
    the flush is behind.  The bound is for a flush that is at most [2^22] commits
    behind, or for a store with at most [2^23] commits; the counter of commits may
    wrap, and the sequence numbers and positions need not be ordered. *)
Theorem flush_position_bounds l s R m :
  s_nextSequencePositionsCount s = 0 ->
  s_recent s = replicate RECENTLY_COMMITTED_POSITIONS_SIZE (mkSeqPos 0x7FFFFFFFFFFFFFFF (mkPos 0 0)) ->
  (m < length l)%nat -> Z.of_nat (length l) <= 2 ^ 23 \/ Z.of_nat (length l - m) <= 2 ^ 22 ->
  (forall i, (i <= m)%nat -> rocksSequenceNumber (recorded l s i) <= R) -> R < 0x7FFFFFFFFFFFFFFF ->
  let flushed := latest_flushed (s_recent (commits l s)) R in
  (flushed = mkPos 0 0 \/
   exists i, (i < length l)%nat /\ rocksSequenceNumber (recorded l s i) <= R /\
     flushed = sp_position (recorded l s i)) /\
  exists c, (c <= m)%nat /\ (length l - c < 3 * (length l - m))%nat /\
    ~ pos_lt flushed (sp_position (recorded l s c)).
Proof.
  intros H0 Hrec Hm Hn HR HRmax flushed.
  destruct (latest_flushed_spec (s_recent (commits l s)) R) as [H1 H2]. fold flushed in H1, H2. split.
  - destruct H1 as [?|(x & Hx & Hr & Hf)]; [by left|right].
    destruct (recent_entries l s x Hx) as [Hx0|(i & Hi & ->)]; [|by exists i].
    rewrite Hrec in Hx0. apply elem_of_replicate in Hx0 as [-> _]. simpl in Hr. lia.
  - destruct (dense_slot (length l) m Hm Hn) as (c & Hc & Hd & Hno). exists c. split_and!; [done|done|].
    apply H2; [|by apply HR].
    eapply list_elem_of_lookup_2. apply recent_lookup; [done|by rewrite Hrec, length_replicate|lia|done].
Qed.

Lemma flush_position_bounds_witness :
  let s := Store_new "foo" "db/foo" 0 0 (SpecFloat.S754_zero false) in
  let l := [(mkPos 0 1, 5); (mkPos 30 1, 6); (mkPos 60 1, 9)] in
  exists c, (c <= 1)%nat /\ (3 - c < 6)%nat /\
    ~ pos_lt (latest_flushed (s_recent (commits l s)) 7) (sp_position (recorded l s c)).
Proof.
  intros s l. apply (flush_position_bounds l s 7 1).
  - reflexivity.
  - reflexivity.
  - simpl. lia.
  - left. vm_compute. congruence.
  - intros [|[|i]] Hi; [vm_compute; congruence..|lia].
  - lia.
Defined.
