(* ===== verification/LogStoreProofs.v ===== *)
(** * Writing batches to a log store

    The store as a list of frames: [writeBatch] appends the batch to it, across
    as many files as it takes, and returns. *)

From S2P Require Import Prelude Encoding LogFormat Os LogFile LogFileProofs LogFileRecovery LogStore StorePositions.
From stdpp Require Import base tactics list gmap strings.
From coqutil Require Import Byte.
From Stdlib Require Import ZArith Lia SpecFloat.

Local Open Scope Z_scope.

(** ** The files of a store *)

(** The bytes at [p] are a log of [frs], or the file was never written. *)
Definition holds (w : World) (p : string) (frs : list frame) : Prop :=
  (exists ts, contents p w = header_bytes ts ++ encode_frames frs) \/ (contents p w = [] /\ frs = []).

(** The object of the current file: open and in step, or not opened yet. *)
Definition current_ok (w : World) (f : TransactionLogFile) (frs : list frame) : Prop :=
  f_open f = true /\ log_image w f frs \/
  f_open f = false /\ f_size f = 0 /\ contents (f_path f) w = [] /\ frs = [].

(** The store holds, in file [seq], the frames [F seq]. *)
Record store_inv (F : Z -> list frame) (w : World) (s : Store) : Prop := mkStoreInv {
  si_sorted : om_sorted (s_sequenceFiles s);
  si_file : forall seq f, om_find seq (s_sequenceFiles s) = Some f ->
    f_path f = log_path s seq /\ f_version f = 1 /\ 0 <= seq <= s_currentSequenceNumber s /\
    holds w (log_path s seq) (F seq);
  si_current : forall f, om_find (s_currentSequenceNumber s) (s_sequenceFiles s) = Some f ->
    current_ok w f (F (s_currentSequenceNumber s));
  si_empty : forall seq, om_find seq (s_sequenceFiles s) = None -> F seq = [];
  si_absent : om_find (s_currentSequenceNumber s) (s_sequenceFiles s) = None ->
    contents (log_path s (s_currentSequenceNumber s)) w = [];
  si_fresh : forall seq, s_nextSequenceNumber s <= seq -> is_u32 seq -> contents (log_path s seq) w = [];
  si_order : 0 <= s_currentSequenceNumber s < s_nextSequenceNumber s;
}.

(** The abstract log: the frames of all files in sequence order. *)
Definition store_log (F : Z -> list frame) (s : Store) : list frame := mjoin (F <$> (s_sequenceFiles s).*1).

(** What no write changes. *)
Definition same_config (s s' : Store) : Prop :=
  s_name s' = s_name s /\ s_path s' = s_path s /\ s_maxFileSize s' = s_maxFileSize s /\
  s_retentionMs s' = s_retentionMs s /\ s_maxAgeThreshold s' = s_maxAgeThreshold s /\
  s_isClosing s' = s_isClosing s /\ s_pendingTransactionCount s' = s_pendingTransactionCount s.

Lemma same_config_refl s : same_config s s.
Proof. by repeat split. Qed.

Lemma same_config_trans s1 s2 s3 : same_config s1 s2 -> same_config s2 s3 -> same_config s1 s3.
Proof.
  intros (A1 & A2 & A3 & A4 & A5 & A6 & A7) (B1 & B2 & B3 & B4 & B5 & B6 & B7). split_and!; congruence.
Qed.

#[export] Hint Resolve same_config_refl : rdb.

(** ** Keys of the ordered map *)

Section Keys.
Context {V : Type}.
Implicit Types m : list (Z * V).

Lemma om_put_end k v m : Forall (fun kv => kv.1 < k) m -> om_put k v m = m ++ [(k, v)].
Proof.
  induction 1 as [|[k' v'] m Hk _ IH]; [done|]. cbn [om_put]. simpl in Hk.
  destruct (Z.ltb_spec k k'); [lia|]. destruct (Z.eqb_spec k k'); [lia|]. by rewrite IH.
Qed.

Lemma om_put_keys k v v' m : om_sorted m -> om_find k m = Some v' -> (om_put k v m).*1 = m.*1.
Proof.
  induction m as [|[k0 v0] m IH]; [done|]. cbn [om_find om_put]. intros [Hs Hall]%om_sorted_cons Hf.
  destruct (Z.eqb_spec k k0) as [->|Hne].
  - by destruct (Z.ltb_spec k0 k0); [lia|].
  - destruct (Z.ltb_spec k k0) as [Hlt|_].
    + apply om_find_Some_in in Hf. eapply List.Forall_forall in Hall; [|done]. simpl in Hall. lia.
    + rewrite !fmap_cons. f_equal. by apply IH.
Qed.

Lemma om_find_lt k m : (forall k' v, om_find k' m = Some v -> k' < k) -> om_sorted m -> Forall (fun kv => kv.1 < k) m.
Proof.
  intros H Hs. apply List.Forall_forall. intros [k' v'] Hin. eapply H. by apply om_sorted_find_in.
Qed.
End Keys.

(** Changing the contents of one file of the store. *)
Lemma holds_other w w' p frs q :
  (forall r, r <> p -> w_files w' !! r = w_files w !! r) -> q <> p -> holds w q frs -> holds w' q frs.
Proof. intros H Hne Hh. unfold holds, contents in *. by rewrite H. Qed.

Lemma contents_other w w' p q :
  (forall r, r <> p -> w_files w' !! r = w_files w !! r) -> q <> p -> contents q w' = contents q w.
Proof. intros H Hne. unfold contents. by rewrite H. Qed.

Lemma holds_files w w' p frs : w_files w' = w_files w -> holds w p frs -> holds w' p frs.
Proof. intros H Hh. unfold holds, contents in *. by rewrite H. Qed.

Lemma log_image_holds w f frs : log_image w f frs -> holds w (f_path f) frs.
Proof. intros (Hc & _). left. by exists (f_timestamp f). Qed.

(** ** Replacing the current file *)

Definition upd (F : Z -> list frame) (k : Z) (v : list frame) : Z -> list frame :=
  fun q => if q =? k then v else F q.

Lemma upd_eq F k v : upd F k v k = v.
Proof. unfold upd. by rewrite Z.eqb_refl. Qed.

Lemma upd_ne F k v q : q <> k -> upd F k v q = F q.
Proof. unfold upd. by destruct (Z.eqb_spec q k). Qed.

Definition put_current (f : TransactionLogFile) (s : Store) : Store :=
  set_s_sequenceFiles (om_put (s_currentSequenceNumber s) f (s_sequenceFiles s)) s.

Lemma om_split_last {V} k (v : V) m :
  om_sorted m -> om_find k m = Some v -> (forall k' v', om_find k' m = Some v' -> k' <= k) ->
  exists m', m = m' ++ [(k, v)] /\ Forall (fun kv => kv.1 < k) m'.
Proof.
  induction m as [|[k0 v0] m IH]; [done|]. intros [Hs Hall]%om_sorted_cons Hf Hle. cbn [om_find] in Hf.
  destruct (Z.eqb_spec k k0) as [->|Hne].
  - injection Hf as ->. exists []. split; [|constructor]. destruct m as [|[k1 v1] m]; [done|].
    inversion_clear Hall as [|?? Hlt _]. simpl in Hlt. specialize (Hle k1 v1). cbn [om_find] in Hle.
    destruct (Z.eqb_spec k1 k0); [lia|]. rewrite Z.eqb_refl in Hle. specialize (Hle eq_refl). lia.
  - destruct (IH Hs Hf) as (m' & -> & Hm').
    { intros k' v' Hk'. apply (Hle k' v'). cbn [om_find]. destruct (Z.eqb_spec k' k0) as [->|]; [|done].
      apply om_find_Some_in in Hk'. eapply List.Forall_forall in Hall; [|done]. simpl in Hall. lia. }
    exists ((k0, v0) :: m'). split; [done|]. constructor; [|done]. simpl.
    specialize (Hle k0 v0). cbn [om_find] in Hle. rewrite Z.eqb_refl in Hle. specialize (Hle eq_refl). lia.
Qed.

Section PutCurrent.
Variables (F : Z -> list frame) (w w' : World) (s : Store) (f' : TransactionLogFile) (frs' : list frame).
Hypothesis Hinv : store_inv F w s.
Hypothesis Hu : s_nextSequenceNumber s <= 2 ^ 32.
Hypothesis Hpath : f_path f' = log_path s (s_currentSequenceNumber s).
Hypothesis Hver : f_version f' = 1.
Hypothesis Hw : forall r, r <> log_path s (s_currentSequenceNumber s) -> w_files w' !! r = w_files w !! r.
Hypothesis Hok : current_ok w' f' frs'.

Let cur := s_currentSequenceNumber s.

Lemma path_ne q : 0 <= q < 2 ^ 32 -> q <> cur -> log_path s q <> log_path s cur.
Proof using Hinv Hu.
  destruct (si_order _ _ _ Hinv) as [Hc Hlt]. fold cur in Hc, Hlt.
  intros Hq Hne Heq. apply Hne. apply (log_path_inj s); [unfold is_u32; lia|unfold is_u32; lia|done].
Qed.

Lemma store_inv_put : store_inv (upd F cur frs') w' (put_current f' s).
Proof using Hinv Hu Hpath Hver Hw Hok.
  destruct (si_order _ _ _ Hinv) as [Hc Hlt]. fold cur in Hc, Hlt.
  assert (Hholds : holds w' (log_path s cur) frs').
  { pose proof Hpath as Hp. fold cur in Hp. rewrite <- Hp.
    destruct Hok as [[_ Hi]|(_ & _ & He & ->)]; [by apply log_image_holds|by right]. }
  constructor; cbn -[om_put om_find].
  - apply om_sorted_put, Hinv.
  - intros seq f Hf. destruct (Z.eq_dec seq cur) as [->|Hne].
    + unfold cur in *. rewrite om_find_put_eq in Hf. injection Hf as <-. rewrite upd_eq.
      split_and!; try done.
    + rewrite om_find_put_ne in Hf by (fold cur; congruence). rewrite upd_ne by done.
      destruct (si_file _ _ _ Hinv seq f Hf) as (H1 & H2 & H3 & H4). split_and!; try done; [lia..|].
      eapply holds_other; [exact Hw| |done]. apply path_ne; [fold cur in H3; lia|done].
  - intros f Hf. rewrite om_find_put_eq in Hf. injection Hf as <-. by rewrite upd_eq.
  - intros seq Hf. destruct (Z.eq_dec seq cur) as [->|Hne]; [unfold cur in Hf; by rewrite om_find_put_eq in Hf|].
    rewrite om_find_put_ne in Hf by (fold cur; congruence). rewrite upd_ne by done. by apply (si_empty _ _ _ Hinv).
  - by rewrite om_find_put_eq.
  - intros seq Hseq Hs. rewrite (contents_other w w' (log_path s cur)); [by apply (si_fresh _ _ _ Hinv)|exact Hw|].
    change (log_path (put_current f' s) seq) with (log_path s seq). unfold is_u32 in Hs. apply path_ne; lia.
  - exact (conj Hc Hlt).
Qed.

Lemma store_log_put x :
  frs' = F cur ++ x -> store_log (upd F cur frs') (put_current f' s) = store_log F s ++ x.
Proof using Hinv.
  intros Hfrs. rewrite Hfrs. unfold store_log, put_current. cbn -[om_put]. fold cur.
  assert (Hle : forall k v, om_find k (s_sequenceFiles s) = Some v -> k <= cur).
  { intros k v Hk. destruct (si_file _ _ _ Hinv k v Hk) as (_ & _ & H & _). fold cur in H. lia. }
  assert (Hupd : forall l : list Z, Forall (fun k => k < cur) l -> upd F cur (F cur ++ x) <$> l = F <$> l).
  { induction 1 as [|k l Hk _ IH]; [done|]. rewrite !fmap_cons, IH, upd_ne by lia. done. }
  destruct (om_find cur (s_sequenceFiles s)) as [f|] eqn:Hf.
  - rewrite (om_put_keys cur f' f) by (done || apply Hinv).
    destruct (om_split_last cur f _ (si_sorted _ _ _ Hinv) Hf Hle) as (m' & -> & Hm').
    rewrite fmap_app, !fmap_app, !join_app. cbn [fmap list_fmap mjoin list_join]. rewrite upd_eq.
    rewrite Hupd by (by apply Forall_fmap). by rewrite !app_nil_r, app_assoc.
  - assert (Hall : Forall (fun kv => kv.1 < cur) (s_sequenceFiles s)).
    { apply om_find_lt; [|apply Hinv]. intros k v Hk. specialize (Hle k v Hk).
      assert (k <> cur) by (intros ->; congruence). lia. }
    rewrite om_put_end by done.
    rewrite fmap_app, !fmap_app, !join_app. cbn [fmap list_fmap mjoin list_join]. rewrite upd_eq.
    rewrite (si_empty _ _ _ Hinv cur Hf), app_nil_r. cbn [app]. f_equal. f_equal.
    rewrite <- (Hupd _ (proj2 (Forall_fmap _ _ _) Hall)) at 1. by rewrite (si_empty _ _ _ Hinv cur Hf).
Qed.
End PutCurrent.

Lemma store_inv_ext F G w s : (forall q, F q = G q) -> store_inv F w s -> store_inv G w s.
Proof.
  intros H [H1 H2 H3 H4 H5 H6 H7]. constructor; try done.
  - intros seq f Hf. rewrite <- H. by apply H2.
  - intros f Hf. rewrite <- H. by apply H3.
  - intros seq Hf. rewrite <- H. by apply H4.
Qed.

Lemma store_log_ext F G s : (forall q, F q = G q) -> store_log F s = store_log G s.
Proof. intros H. unfold store_log. f_equal. by apply list_fmap_ext. Qed.

Lemma upd_same F k q : upd F k (F k) q = F q.
Proof. unfold upd. by destruct (Z.eqb_spec q k) as [->|]. Qed.

(** Fields of the store the invariant does not read. *)
Lemma store_inv_congr F w s s' :
  s_sequenceFiles s' = s_sequenceFiles s -> s_currentSequenceNumber s' = s_currentSequenceNumber s ->
  s_nextSequenceNumber s' = s_nextSequenceNumber s -> s_path s' = s_path s ->
  store_inv F w s -> store_inv F w s'.
Proof.
  intros H1 H2 H3 H4 [A1 A2 A3 A4 A5 A6 A7]. unfold log_path in *.
  constructor; unfold log_path; rewrite ?H1, ?H2, ?H3, ?H4; done.
Qed.

Section Writing.
Context {OS : Os}.

(** ** Rotation *)

Lemma downgrade_run w f :
  exists w' m c, downgradeMapToFrozen (w, f) = (inr tt, (w', set_memoryMap m (set_frozenMapCache c f))) /\
    w_files w' = w_files w.
Proof.
  unfold downgradeMapToFrozen, reset_memoryMap, file, update, update_world. mrun.
  destruct (f_memoryMap f) as [id|] eqn:Hm.
  - cbn. rewrite Hm. eexists _, _, _. split; [done|]. unfold sp_reset.
    destruct (w_maps w !! id); [|done]. by destruct (_ <=? _).
  - exists w, None, (f_frozenMapCache f). split; [|done]. destruct f. simpl in *. by subst.
Qed.

Definition advanced (s : Store) : Store :=
  let s1 := set_s_nextSequenceNumber (u32 (s_nextSequenceNumber s + 1))
              (set_s_currentSequenceNumber (s_nextSequenceNumber s) s) in
  set_s_counters (set_c_rotations (u64 (c_rotations (s_counters s1) + 1)) (s_counters s1)) s1.

Lemma advance_inv F w s :
  store_inv F w s -> s_nextSequenceNumber s + 1 < 2 ^ 32 ->
  store_inv F w (advanced s) /\ om_find (s_currentSequenceNumber (advanced s)) (s_sequenceFiles (advanced s)) = None.
Proof.
  intros Hinv Hlt. destruct (si_order _ _ _ Hinv) as [Hc Hn].
  assert (Hnone : om_find (s_nextSequenceNumber s) (s_sequenceFiles s) = None).
  { destruct (om_find _ _) as [f|] eqn:Hf; [|done].
    destruct (si_file _ _ _ Hinv _ _ Hf) as (_ & _ & H & _). lia. }
  split; [|done]. constructor; cbn -[om_find u32]; rewrite ?u32_small by (unfold is_u32; lia).
  - apply Hinv.
  - intros seq f Hf. destruct (si_file _ _ _ Hinv _ _ Hf) as (H1 & H2 & H3 & H4). by split_and!; [..|lia|lia|].
  - congruence.
  - apply Hinv.
  - intros _. apply (si_fresh _ _ _ Hinv); [lia|unfold is_u32; lia].
  - intros seq Hs Hu. apply (si_fresh _ _ _ Hinv); [lia|done].
  - lia.
Qed.

Lemma rotate_run F w s f :
  store_inv F w s -> s_nextSequenceNumber s + 1 < 2 ^ 32 ->
  om_find (s_currentSequenceNumber s) (s_sequenceFiles s) = Some f ->
  exists w' s', rotateToNextSequence (Some (s_currentSequenceNumber s)) (w, s) = (inr tt, (w', s')) /\
    w_files w' = w_files w /\ store_inv F w' s' /\ store_log F s' = store_log F s /\ same_config s s' /\
    s_nextSequenceNumber s' = s_nextSequenceNumber s + 1 /\
    s_uncommitted s' = s_uncommitted s /\
    om_find (s_currentSequenceNumber s') (s_sequenceFiles s') = None.
Proof.
  intros Hinv Hlt Hf. set (cur := s_currentSequenceNumber s) in *.
  destruct (downgrade_run w f) as (w' & m & c & Hd & Hfiles).
  set (f' := set_memoryMap m (set_frozenMapCache c f)) in Hd.
  destruct (si_file _ _ _ Hinv _ _ Hf) as (H1 & H2 & _).
  assert (Hok : current_ok w' f' (F cur)).
  { destruct (si_current _ _ _ Hinv f Hf) as [[? Hi]|(? & ? & Hc & ?)]; [left|right].
    - split; [done|]. unfold log_image, contents in *. by rewrite Hfiles.
    - split_and!; try done. unfold contents in *. by rewrite Hfiles. }
  assert (Hinv' : store_inv F w' (put_current f' s)).
  { eapply store_inv_ext; [apply upd_same|].
    apply (store_inv_put F w w' s f' (F cur)); [done|lia|exact H1|exact H2|intros r _; by rewrite Hfiles|exact Hok]. }
  destruct (advance_inv F w' (put_current f' s) Hinv' Hlt) as [Hadv Hnone].
  exists w', (advanced (put_current f' s)). split_and!; try done.
  - unfold rotateToNextSequence, advanceSequence, with_file, supdate, count. mrun. fold cur. rewrite Hf, Hd. done.
  - unfold store_log. cbn -[om_put]. rewrite (om_put_keys _ _ f) by (done || apply Hinv). done.
  - cbn. rewrite u32_small by (unfold is_u32; destruct (si_order _ _ _ Hinv); lia). done.
Qed.

(** ** Getting a file to write to *)

Lemma om_put_same {V} k (v : V) m : om_sorted m -> om_find k m = Some v -> om_put k v m = m.
Proof.
  induction m as [|[k0 v0] m IH]; [done|]. intros [Hs Hall]%om_sorted_cons Hf. cbn [om_find om_put] in *.
  destruct (Z.eqb_spec k k0) as [->|Hne].
  - injection Hf as ->. by destruct (Z.ltb_spec k0 k0); [lia|].
  - destruct (Z.ltb_spec k k0) as [Hlt|_]; [|by rewrite IH].
    apply om_find_Some_in in Hf. eapply List.Forall_forall in Hall; [|done]. simpl in Hall. lia.
Qed.

Lemma with_file_read {A} F w s seq f (g : TransactionLogFile -> A) :
  store_inv F w s -> om_find seq (s_sequenceFiles s) = Some f ->
  with_file seq (file g) (w, s) = (inr (g f), (w, s)).
Proof.
  intros Hinv Hf. unfold with_file, file. mrun. rewrite Hf. rewrite om_put_same by (done || apply Hinv).
  by destruct s.
Qed.

(** The current file of the store is open and in step. *)
Definition opened (F : Z -> list frame) (w : World) (s : Store) (f : TransactionLogFile) : Prop :=
  store_inv F w s /\ om_find (s_currentSequenceNumber s) (s_sequenceFiles s) = Some f /\
  f_open f = true /\ log_image w f (F (s_currentSequenceNumber s)).

Hypothesis os_ok : forall n, os_fails n = false.
Hypothesis os_all : forall n, 13 <= os_accepts n.

Lemma getLogFile_present seq w s f :
  om_find seq (s_sequenceFiles s) = Some f -> getLogFile seq (w, s) = (inr tt, (w, s)).
Proof. intros Hf. unfold getLogFile, store. mrun. by rewrite Hf. Qed.

Lemma getLogFile_absent F w s :
  store_inv F w s -> s_nextSequenceNumber s <= 2 ^ 32 ->
  om_find (s_currentSequenceNumber s) (s_sequenceFiles s) = None ->
  exists w' s' f, getLogFile (s_currentSequenceNumber s) (w, s) = (inr tt, (w', s')) /\
    w_files w' = w_files w /\ store_inv F w' s' /\ store_log F s' = store_log F s /\ same_config s s' /\
    s_currentSequenceNumber s' = s_currentSequenceNumber s /\ s_nextSequenceNumber s' = s_nextSequenceNumber s /\
    om_find (s_currentSequenceNumber s) (s_sequenceFiles s') = Some f /\ f_open f = false /\ f_size f = 0.
Proof using os_ok.
  intros Hinv Hu Hnone. unfold getLogFile, store, supdate, sworld, now. mrun. rewrite Hnone.
  destruct (tryCreateDirectory_ok os_ok (s_path s) (s_path s) w) as (w1 & -> & _ & Hf1).
  set (cur := s_currentSequenceNumber s) in *. set (f := TransactionLogFile_new _ _ _).
  assert (Hempty : contents (log_path s cur) (tock w1) = []).
  { unfold contents. cbn. rewrite Hf1. apply (si_absent _ _ _ Hinv Hnone). }
  pose proof (si_empty _ _ _ Hinv cur Hnone) as HF.
  assert (Hok : current_ok (tock w1) f (F cur)) by (right; by split_and!).
  eexists (tock w1), _, f. split; [done|]. split_and!; try done.
  - eapply (store_inv_congr _ _ (put_current f s)); try done. eapply store_inv_ext; [apply (upd_same F cur)|].
    apply (store_inv_put F w); [done|done|done|done|intros r _; cbn; by rewrite Hf1|done].
  - rewrite <- (store_log_ext _ _ _ (upd_same F cur)). cbn -[om_put].
    erewrite <- (app_nil_r (store_log F s)). apply (store_log_put F w s f (F cur) Hinv). by rewrite app_nil_r.
  - cbn -[om_put om_find]. apply om_find_put_eq.
Qed.

Lemma ensure_open_fresh F w s f :
  store_inv F w s -> s_nextSequenceNumber s <= 2 ^ 32 ->
  om_find (s_currentSequenceNumber s) (s_sequenceFiles s) = Some f -> f_open f = false ->
  exists w' f' k, ensure_open (s_currentSequenceNumber s) (w, s) = (inr tt, (w', put_current f' s)) /\
    store_inv F w' (put_current f' s) /\ store_log F (put_current f' s) = store_log F s /\
    f_open f' = true /\ log_image w' f' (F (s_currentSequenceNumber s)) /\ f_size f' = 13 /\
    f_lastWriteTime f' = os_clock k /\ (k <= w_tick w')%nat.
Proof using os_ok os_all.
  intros Hinv Hu Hf Ho. set (cur := s_currentSequenceNumber s) in *.
  destruct (si_file _ _ _ Hinv _ _ Hf) as (H1 & H2 & _).
  destruct (si_current _ _ _ Hinv f Hf) as [[? _]|(_ & _ & Hc & HF)]; [congruence|]. fold cur in HF.
  destruct (open_fresh os_ok os_all (s_latestTimestamp s) w f Hc Ho H2) as (w' & k & Hopen & (Hw & _) & Hc' & Hk).
  set (f' := LogFile.set_size 13 _) in Hopen.
  assert (Hi : log_image w' f' (F cur)).
  { unfold log_image. subst f'. cbn [f_path f_timestamp f_size LogFile.set_size set_timestamp set_lastWriteTime set_open set_hasAppended].
    rewrite Hc', HF, app_nil_r, length_header_bytes. by split_and!. }
  exists w', f', k. split_and!; try done.
  - unfold ensure_open, store, with_file, file. mrun. rewrite Hf, Ho. by rewrite Hopen.
  - eapply store_inv_ext; [apply (upd_same F cur)|].
    apply (store_inv_put F w); [done|done|done|done| |by left]. fold cur. rewrite <- H1. exact Hw.
  - rewrite <- (store_log_ext _ _ _ (upd_same F cur)).
    erewrite <- (app_nil_r (store_log F s)). apply (store_log_put F w s f' (F cur) Hinv). by rewrite app_nil_r.
Qed.

(** The current file, or a fresh one when it is full. *)
Definition fresh_file (w : World) (f : TransactionLogFile) : Prop :=
  f_size f = 13 /\ exists k, f_lastWriteTime f = os_clock k /\ (k <= w_tick w)%nat.

(** A new current file is created, opened and returned in one round. *)
Lemma open_current_absent F w s fuel :
  store_inv F w s -> s_nextSequenceNumber s <= 2 ^ 32 ->
  om_find (s_currentSequenceNumber s) (s_sequenceFiles s) = None ->
  0 <= s_maxFileSize s ->
  exists w' s' f, open_current (S fuel) (w, s) = (inr (s_currentSequenceNumber s'), (w', s')) /\
    opened F w' s' f /\ fresh_file w' f /\ store_log F s' = store_log F s /\ same_config s s' /\
    s_nextSequenceNumber s' = s_nextSequenceNumber s.
Proof using os_ok os_all.
  intros Hinv Hu Hnone Hmax. cbn [open_current]. unfold store. mrun.
  destruct (getLogFile_absent F w s Hinv Hu Hnone)
    as (w1 & s1 & f1 & -> & _ & Hinv1 & Hlog1 & Hcfg1 & Hc1 & Hn1 & Hf1 & Ho1 & Hs1).
  rewrite (with_file_read F w1 s1 _ f1 f_size Hinv1 Hf1), Hs1.
  pose proof Hcfg1 as (_ & _ & Hm1 & _). rewrite Hm1.
  assert (((s_maxFileSize s =? 0) || (0 <? s_maxFileSize s)) = true) as -> by lia.
  rewrite <- Hc1 in Hf1 |- *.
  destruct (ensure_open_fresh F w1 s1 f1 Hinv1 ltac:(lia) Hf1 Ho1)
    as (w2 & f2 & k & -> & Hinv2 & Hlog2 & Ho2 & Hi2 & Hs2 & Ht2 & Hk2).
  exists w2, (put_current f2 s1), f2. split; [done|]. split.
  - unfold opened, put_current in *. cbn -[om_put om_find] in *. rewrite om_find_put_eq. by split_and!.
  - split_and!; try done; [by split; [|exists k]|congruence].
Qed.

Lemma open_current_run F w s fuel :
  store_inv F w s -> s_nextSequenceNumber s + 1 < 2 ^ 32 ->
  0 <= s_maxFileSize s ->
  exists w' s' f, open_current (S (S fuel)) (w, s) = (inr (s_currentSequenceNumber s'), (w', s')) /\
    opened F w' s' f /\ store_log F s' = store_log F s /\ same_config s s' /\
    s_nextSequenceNumber s <= s_nextSequenceNumber s' <= s_nextSequenceNumber s + 1 /\
    (fresh_file w' f \/ s' = s).
Proof using os_ok os_all.
  intros Hinv Hu Hmax.
  destruct (om_find (s_currentSequenceNumber s) (s_sequenceFiles s)) as [f|] eqn:Hf.
  2:{ destruct (open_current_absent F w s (S fuel) Hinv ltac:(lia) Hf Hmax) as (w' & s' & f & H1 & H2 & H3 & H4 & H5 & H6).
      exists w', s', f. split_and!; try done; [lia..|by left]. }
  cbn [open_current]. unfold store. mrun.  rewrite (getLogFile_present _ _ _ _ Hf).
  rewrite (with_file_read F w s _ f f_size Hinv Hf).
  destruct ((s_maxFileSize s =? 0) || (f_size f <? s_maxFileSize s)) eqn:Hroom.
  - destruct (f_open f) eqn:Ho.
    + assert (ensure_open (s_currentSequenceNumber s) (w, s) = (inr tt, (w, s))) as ->.
      { unfold ensure_open, store, with_file, file. mrun. rewrite Hf, Ho.
        rewrite om_put_same by (done || apply Hinv). by destruct s. }
      destruct (si_current _ _ _ Hinv f Hf) as [[_ Hi]|(? & _)]; [|congruence].
      exists w, s, f. split; [done|]. split; [|split_and!; try done; [lia..|by right]].
      by split_and!.
    + destruct (ensure_open_fresh F w s f Hinv ltac:(lia) Hf Ho)
        as (w2 & f2 & k & -> & Hinv2 & Hlog2 & Ho2 & Hi2 & Hs2 & Ht2 & Hk2).
      exists w2, (put_current f2 s), f2. split; [done|].
      split; [|split_and!; try done; [simpl; lia..|left; split; [done|by exists k]]].
      unfold opened, put_current in *. cbn -[om_put om_find] in *. rewrite om_find_put_eq. by split_and!.
  - destruct (rotate_run F w s f Hinv Hu Hf) as (w1 & s1 & -> & _ & Hinv1 & Hlog1 & Hcfg1 & Hn1 & _ & Hnone1).
    pose proof Hcfg1 as (_ & _ & Hm1 & _). rewrite <- Hm1 in Hmax.
    destruct (open_current_absent F w1 s1 fuel Hinv1 ltac:(lia) Hnone1 Hmax) as (w' & s' & f' & H1 & H2 & H3 & H4 & H5 & H6).
    exists w', s', f'. split_and!; try done; [congruence|by eapply same_config_trans|lia..|by left].
Qed.

(** ** One file's share of a batch *)

Lemma os_willing_ok : os_willing.
Proof using os_ok os_all. intros n. split; [apply os_ok|]. pose proof (os_all n). lia. Qed.

Lemma om_put_twice {V} k (v v' : V) m : om_put k v' (om_put k v m) = om_put k v' m.
Proof.
  induction m as [|[k0 v0] m IH]; cbn [om_put]; [by rewrite Z.ltb_irrefl, Z.eqb_refl|].
  destruct (Z.ltb_spec k k0) as [|Hge]; cbn [om_put]; [by rewrite Z.ltb_irrefl, Z.eqb_refl|].
  destruct (Z.eqb_spec k k0) as [->|]; cbn [om_put]; [by rewrite Z.ltb_irrefl, Z.eqb_refl|].
  destruct (Z.ltb_spec k k0); [lia|]. destruct (Z.eqb_spec k k0); [done|]. by rewrite IH.
Qed.

Lemma put_current_twice f f' s : put_current f' (put_current f s) = put_current f' s.
Proof. unfold put_current, set_s_sequenceFiles. cbn -[om_put]. by rewrite om_put_twice. Qed.

(** The write itself, on the current file. *)
Lemma write_file_run F w s f b p ps :
  opened F w s f -> s_nextSequenceNumber s <= 2 ^ 32 -> is_u32 (s_maxFileSize s) -> batch_ok b ps ->
  let cur := s_currentSequenceNumber s in
  let rest := drop (currentEntryIndex b) (batch_frames (batch_timestamp b) ps) in
  f_size f + Z.of_nat (length (encode_frames rest)) < 2 ^ 32 ->
  exists w' f' b' n,
    with_file_batch cur (writeEntries (s_maxFileSize s)) ((w, s), (b, p)) = (inr tt, ((w', put_current f' s), (b', p))) /\
    f_path f' = f_path f /\ f_version f' = 1 /\ f_open f' = true /\
    log_image w' f' (F cur ++ take n rest) /\
    (forall q, q <> f_path f -> w_files w' !! q = w_files w !! q) /\
    batch_ok b' ps /\ batch_timestamp b' = batch_timestamp b /\
    currentEntryIndex b' = (currentEntryIndex b + n)%nat /\ (currentEntryIndex b + n <= length ps)%nat /\
    ((currentEntryIndex b < length ps)%nat -> s_maxFileSize s = 0 \/ (f_size f <= 13 /\ 13 < s_maxFileSize s) -> (0 < n)%nat) /\
    f_size f' = f_size f + Z.of_nat (length (encode_frames (take n rest))).
Proof using os_ok os_all.
  intros (Hinv & Hf & Ho & Himg) Hu Hmax Hb cur rest Hlt.
  destruct (si_file _ _ _ Hinv _ _ Hf) as (H1 & H2 & _). pose proof Himg as (_ & _ & Hu32).
  destruct (writeEntries_run b ps w f (s_maxFileSize s) Hb H2 Hmax Hu32 Hlt)
    as (r & w' & f' & b' & n & Heq & (v & sz & Hf') & Ht & Hq & Hb' & Hcur & Hle & Hwrote & _ & _ & Hprog).
  fold rest in Hwrote.
  assert (r = inr tt) as ->.
  { destruct Hwrote as [(-> & _)|(_ & _ & _ & Hnw & _)]; [done|]. by destruct (Hnw os_willing_ok). }
  destruct (wrote_image w f _ rest n w' f' v sz Himg Hf' Hlt Hwrote) as [Himg' Hs'].
  exists w', f', b', n. split_and!; try done; try (by rewrite Hf').
  unfold with_file_batch. fold cur in Hf. rewrite Hf, Heq. done.
Qed.

Lemma write_to_run F w s f b p ps :
  opened F w s f -> s_nextSequenceNumber s + 1 < 2 ^ 32 -> is_u32 (s_maxFileSize s) -> batch_ok b ps ->
  let rest := drop (currentEntryIndex b) (batch_frames (batch_timestamp b) ps) in
  f_size f + Z.of_nat (length (encode_frames rest)) < 2 ^ 32 ->
  exists F' w' s' b' n,
    write_to (s_currentSequenceNumber s) ((w, s), (b, p)) = (inr tt, ((w', s'), (b', p))) /\
    store_inv F' w' s' /\ store_log F' s' = store_log F s ++ take n rest /\ same_config s s' /\
    s_nextSequenceNumber s <= s_nextSequenceNumber s' <= s_nextSequenceNumber s + 1 /\
    batch_ok b' ps /\ batch_timestamp b' = batch_timestamp b /\
    currentEntryIndex b' = (currentEntryIndex b + n)%nat /\ (currentEntryIndex b + n <= length ps)%nat /\
    ((currentEntryIndex b < length ps)%nat -> s_maxFileSize s = 0 \/ (f_size f <= 13 /\ 13 < s_maxFileSize s) -> (0 < n)%nat) /\
    (isComplete b' = false -> om_find (s_currentSequenceNumber s') (s_sequenceFiles s') = None).
Proof using os_ok os_all.
  intros Hready Hu Hmax Hb rest Hlt. pose proof Hready as (Hinv & Hf & Ho & Himg).
  set (cur := s_currentSequenceNumber s) in *.
  destruct (si_file _ _ _ Hinv _ _ Hf) as (H1 & H2 & _).
  destruct (write_file_run F w s f b p ps Hready ltac:(lia) Hmax Hb Hlt)
    as (w1 & f1 & b1 & n & Hw & Hp1 & Hv1 & Ho1 & Himg1 & Hq & Hb1 & Ht1 & Hc1 & Hle & Hprog & Hs1).
  fold cur rest in Hw, Himg1, Hs1.
  set (f2 := set_lastWriteTime (os_clock (w_tick w1)) f1). set (F' := upd F cur (F cur ++ take n rest)).
  assert (Hinv2 : store_inv F' (tock w1) (put_current f2 s)).
  { apply (store_inv_put F w); [done|lia|exact (eq_trans Hp1 H1)|done| |by left].
    fold cur. rewrite <- H1. exact Hq. }
  assert (Hlog2 : store_log F' (put_current f2 s) = store_log F s ++ take n rest)
    by (by apply (store_log_put F w s f2 _ Hinv)).
  assert (Hf2 : om_find cur (s_sequenceFiles (put_current f2 s)) = Some f2)
    by (unfold put_current; cbn -[om_put om_find]; apply om_find_put_eq).
  unfold write_to, on_store, store, sworld, supdate, now. mrun.
  rewrite (with_file_read F w s cur f f_size Hinv Hf), Hw.
  assert (with_file cur (update (set_lastWriteTime (os_clock (w_tick w1)))) (tock w1, put_current f1 s)
          = (inr tt, (tock w1, put_current f2 s))) as ->.
  { unfold with_file, update. mrun. unfold put_current at 1. cbn -[om_put om_find].
    fold cur. rewrite om_find_put_eq. f_equal. f_equal. apply put_current_twice. }
  rewrite (with_file_read F' (tock w1) (put_current f2 s) cur f2 f_size Hinv2 Hf2).
  set (full := _ || negb (isComplete b1)). destruct full eqn:Hfull; subst full.
  - destruct (rotate_run F' (tock w1) (put_current f2 s) f2 Hinv2 Hu Hf2)
      as (w3 & s3 & Hrot & _ & Hinv3 & Hlog3 & Hcfg3 & Hn3 & _ & Hnone3).
    change (s_currentSequenceNumber (put_current f2 s)) with cur in Hrot. rewrite Hrot.
    eexists F', w3, _, b1, n. split; [done|]. split_and!; try done.
    + by eapply store_inv_congr; [..|exact Hinv3].
    + rewrite <- Hlog2, <- Hlog3. done.
    + cbn. change (s_nextSequenceNumber (put_current f2 s)) with (s_nextSequenceNumber s) in Hn3. lia.
    + cbn. change (s_nextSequenceNumber (put_current f2 s)) with (s_nextSequenceNumber s) in Hn3. lia.
  - eexists F', (tock w1), _, b1, n. split; [done|]. split_and!; try done.
    + by eapply store_inv_congr; [..|exact Hinv2].
    + cbn. lia.
    + intros Hcomp. rewrite Hcomp in Hfull. by rewrite orb_true_r in Hfull.
Qed.

(** ** The loop *)

(** No file of the store's age is reached within the call: the clock readings are
    closer together than the threshold. *)
Definition young (s : Store) : Prop :=
  SFltb (S754_zero false) (s_maxAgeThreshold s) = true ->
  forall i j, to_ms (os_clock i - os_clock j) < thresholdDuration (s_retentionMs s) (s_maxAgeThreshold s).

Lemma too_old_run F w s f :
  store_inv F w s -> om_find (s_currentSequenceNumber s) (s_sequenceFiles s) = Some f ->
  exists w' r, too_old (s_currentSequenceNumber s) (w, s) = (inr r, (w', s)) /\ w_files w' = w_files w /\
    (young s -> fresh_file w f -> r = false).
Proof using.
  intros Hinv Hf. unfold too_old, store, sworld, now. mrun.
  destruct (SFltb (S754_zero false) (s_maxAgeThreshold s)) eqn:Hthr; [|by exists w, false].
  assert (Hinv' : store_inv F (tock w) s).
  { destruct Hinv as [A1 A2 A3 A4 A5 A6 A7]. by constructor. }
  rewrite (with_file_read F (tock w) s _ f f_lastWriteTime Hinv' Hf).
  eexists (tock w), _. split_and!; [done|done|]. intros Hy (_ & k & -> & _). specialize (Hy Hthr (w_tick w) k). lia.
Qed.

Lemma retake_run F w s b p :
  store_inv F w s ->
  exists s' p', retake_position ((w, s), (b, p)) = (inr tt, ((w, s'), (b, p'))) /\
    store_inv F w s' /\ s_sequenceFiles s' = s_sequenceFiles s /\ same_config s s' /\
    s_currentSequenceNumber s' = s_currentSequenceNumber s /\ s_nextSequenceNumber s' = s_nextSequenceNumber s /\
    (p ∈ s_uncommitted s -> p' ∈ s_uncommitted s').
Proof using.
  intros Hinv. unfold retake_position, take_position, on_store, supdate. mrun.
  destruct (f64_eqb _ _).
  - eexists _, _. split; [done|]. split_and!; try done.
    + by eapply store_inv_congr; [..|exact Hinv].
    + intros _. cbn. apply elem_of_positionInsert. by left.
  - by exists s, p.
Qed.

(** The bytes still to write fit any file the batch may reach. *)
Definition bytes_fit (s : Store) (b : TransactionLogEntryBatch) (ps : list bytes) : Prop :=
  let n := Z.of_nat (length (encode_frames (drop (currentEntryIndex b) (batch_frames (batch_timestamp b) ps)))) in
  13 + n < 2 ^ 32 /\
  forall f, om_find (s_currentSequenceNumber s) (s_sequenceFiles s) = Some f -> f_size f + n < 2 ^ 32.

Lemma bytes_fit_absent s s' b b' ps n :
  bytes_fit s b ps -> batch_timestamp b' = batch_timestamp b ->
  currentEntryIndex b' = (currentEntryIndex b + n)%nat ->
  om_find (s_currentSequenceNumber s') (s_sequenceFiles s') = None -> bytes_fit s' b' ps.
Proof.
  intros [H _] Ht Hc Hnone. unfold bytes_fit. rewrite Ht, Hc, <- drop_drop.
  set (l := drop (currentEntryIndex b) _) in *. split; [|intros f Hf; congruence].
  assert (length (encode_frames (drop n l)) <= length (encode_frames l))%nat; [|lia].
  rewrite <- (take_drop n l) at 2. rewrite encode_frames_app, length_app. lia.
Qed.

Lemma young_config s s' : same_config s s' -> young s -> young s'.
Proof. intros (_ & _ & _ & H4 & H5 & _). unfold young. by rewrite H4, H5. Qed.

Lemma isComplete_ok b ps : batch_ok b ps -> isComplete b = (length ps <=? currentEntryIndex b)%nat.
Proof. intros (H & _). unfold isComplete. by rewrite H. Qed.

Lemma log_image_files w w' f frs : w_files w' = w_files w -> log_image w f frs -> log_image w' f frs.
Proof. intros H. unfold log_image, contents. by rewrite H. Qed.

Lemma store_inv_files F w w' s : w_files w' = w_files w -> store_inv F w s -> store_inv F w' s.
Proof.
  intros H [A1 A2 A3 A4 A5 A6 A7].
  assert (Hc : forall p, contents p w' = contents p w) by (intros; unfold contents; by rewrite H).
  constructor; try done.
  - intros seq f Hf. destruct (A2 seq f Hf) as (? & ? & ? & Hh). split_and!; try done; [lia..|].
    by eapply holds_files.
  - intros f Hf. destruct (A3 f Hf) as [[? Hi]|(? & ? & ? & ?)]; [left|right; by rewrite Hc].
    split; [done|]. by eapply log_image_files.
  - intros Hf. rewrite Hc. auto.
  - intros seq Hs Hu. rewrite Hc. auto.
Qed.

(** The file a round of the loop writes to. *)
Lemma open_for_batch fuel F w s b ps :
  store_inv F w s -> bytes_fit s b ps -> 0 <= s_maxFileSize s ->
  s_nextSequenceNumber s + 1 < 2 ^ 32 ->
  (om_find (s_currentSequenceNumber s) (s_sequenceFiles s) = None \/ fuel <> 0%nat) ->
  exists w1 s1 f, open_current (S fuel) (w, s) = (inr (s_currentSequenceNumber s1), (w1, s1)) /\
    opened F w1 s1 f /\ store_log F s1 = store_log F s /\ same_config s s1 /\
    s_nextSequenceNumber s <= s_nextSequenceNumber s1 <= s_nextSequenceNumber s + 1 /\
    bytes_fit s1 b ps /\
    (om_find (s_currentSequenceNumber s) (s_sequenceFiles s) = None -> fresh_file w1 f /\ s_nextSequenceNumber s1 = s_nextSequenceNumber s).
Proof using os_ok os_all.
  intros Hinv [Hf1 Hf2] Hmax Hn Hfuel.
  destruct (om_find (s_currentSequenceNumber s) (s_sequenceFiles s)) as [f0|] eqn:Hf0.
  - destruct fuel as [|fuel]; [exfalso; destruct Hfuel; congruence|].
    destruct (open_current_run F w s fuel Hinv Hn Hmax) as (w1 & s1 & f & H1 & H2 & H3 & H4 & H5 & H6).
    exists w1, s1, f. split_and!; try done; [lia..|].
    split; [done|]. intros g Hg. pose proof H2 as (_ & Hg' & _). rewrite Hg in Hg'. injection Hg' as ->.
    destruct H6 as [[-> _]|H6]; [done|]. apply Hf2. rewrite H6 in Hg. congruence.
  - destruct (open_current_absent F w s fuel Hinv ltac:(lia) Hf0 Hmax) as (w1 & s1 & f & H1 & H2 & H3 & H4 & H5 & H6).
    exists w1, s1, f. split_and!; try done; [lia..|].
    split; [done|]. intros g Hg. pose proof H2 as (_ & Hg' & _). rewrite Hg in Hg'. injection Hg' as ->.
    by destruct H3 as [-> _].
Qed.

Lemma write_loop_run fuel F w s b p ps :
  store_inv F w s -> batch_ok b ps -> bytes_fit s b ps -> young s ->
  s_maxFileSize s = 0 \/ 13 < s_maxFileSize s -> is_u32 (s_maxFileSize s) ->
  s_nextSequenceNumber s + 2 * Z.of_nat fuel < 2 ^ 32 ->
  ((length ps - currentEntryIndex b) +
   (match om_find (s_currentSequenceNumber s) (s_sequenceFiles s) with None => 0 | Some _ => 1 end) < fuel)%nat ->
  exists F' w' s' b' p', write_loop fuel ((w, s), (b, p)) = (inr tt, ((w', s'), (b', p'))) /\
    store_inv F' w' s' /\
    store_log F' s' = store_log F s ++ drop (currentEntryIndex b) (batch_frames (batch_timestamp b) ps) /\
    same_config s s' /\ batch_ok b' ps /\ isComplete b' = true.
Proof using os_ok os_all.
  revert F w s b p. induction fuel as [|fuel IH]; intros F w s b p Hinv Hb Hfit Hyoung Hmax Hmu Hn Hfuel; [lia|].
  cbn [write_loop]. mrun. rewrite (isComplete_ok b ps Hb).
  destruct (Nat.leb_spec (length ps) (currentEntryIndex b)) as [Hdone|Hmore].
  { exists F, w, s, b, p. rewrite (isComplete_ok b ps Hb), drop_ge by (rewrite length_batch_frames; lia).
    rewrite app_nil_r. split_and!; try done. by apply Nat.leb_le. }
  set (rest := drop (currentEntryIndex b) (batch_frames (batch_timestamp b) ps)).
  destruct (open_for_batch fuel F w s b ps Hinv Hfit ltac:(lia) ltac:(lia))
    as (w1 & s1 & f & Hopen & (Hinv1 & Hf1 & Ho1 & Himg1) & Hlog1 & Hcfg1 & Hn1 & Hfit1 & Hfresh1).
  { destruct (om_find _ _); [right; lia|by left]. }
  unfold on_store at 1. rewrite Hopen.
  destruct (retake_run F w1 s1 b p Hinv1) as (s2 & p2 & -> & Hinv2 & Hfiles2 & Hcfg2 & Hc2 & Hn2 & _).
  rewrite <- Hc2 in *. rewrite <- Hfiles2 in Hf1.
  destruct (too_old_run F w1 s2 f Hinv2 Hf1) as (w2 & old & Hold & Hw2 & Hyng).
  unfold on_store at 1. rewrite Hold.
  apply (store_inv_files F w1 w2) in Hinv2; [|done]. apply (log_image_files w1 w2) in Himg1; [|done].
  pose proof (same_config_trans _ _ _ Hcfg1 Hcfg2) as Hcfg. pose proof Hcfg as (_ & _ & Hm2 & _).
  assert (Hlog2 : store_log F s2 = store_log F s) by (unfold store_log in *; by rewrite Hfiles2).
  destruct old.
  - destruct (rotate_run F w2 s2 f Hinv2 ltac:(lia) Hf1) as (w3 & s3 & Hrot & _ & Hinv3 & Hlog3 & Hcfg3 & Hn3 & _ & Hnone3).
    unfold on_store at 1. rewrite Hrot.
    pose proof (same_config_trans _ _ _ Hcfg Hcfg3) as Hcfg'. pose proof Hcfg' as (_ & _ & Hm3 & _).
    destruct (om_find (s_currentSequenceNumber s) (s_sequenceFiles s)) as [f0|] eqn:Hf0.
    2:{ destruct (Hfresh1 eq_refl) as [Hff _]. discriminate (Hyng (young_config _ _ Hcfg Hyoung) Hff). }
    destruct (IH F w3 s3 b p2) as (F' & w' & s' & b' & p' & -> & H1 & H2 & H3 & H4 & H5); try done.
    + apply (bytes_fit_absent s s3 b b ps 0); done || lia.
    + by eapply young_config.
    + by rewrite Hm3.
    + by rewrite Hm3.
    + lia.
    + rewrite Hnone3. lia.
    + exists F', w', s', b', p'. split_and!; try done; [by rewrite H2, Hlog3, Hlog2|by eapply same_config_trans].
  - assert (Hready : opened F w2 s2 f) by (by split_and!).
    destruct (write_to_run F w2 s2 f b p2 ps Hready ltac:(lia)) as
      (F3 & w3 & s3 & b3 & n & Hw & Hinv3 & Hlog3 & Hcfg3 & Hn3 & Hb3 & Ht3 & Hc3 & Hle3 & Hprog & Habs).
    { by rewrite Hm2. }
    { done. }
    { apply (proj2 Hfit1). by rewrite <- Hfiles2, <- Hc2. }
    rewrite Hw. pose proof (same_config_trans _ _ _ Hcfg Hcfg3) as Hcfg'. pose proof Hcfg' as (_ & _ & Hm3 & _).
    fold rest in Hlog3. rewrite Hlog2 in Hlog3.
    assert (Hrest : forall l, l = drop (currentEntryIndex b3) (batch_frames (batch_timestamp b3) ps) ->
      (store_log F s ++ take n rest) ++ l = store_log F s ++ rest).
    { intros l ->. rewrite Ht3, Hc3, <- drop_drop, <- app_assoc. fold rest. by rewrite take_drop. }
    destruct (isComplete b3) eqn:Hcomp.
    + destruct fuel as [|fuel]; [lia|]. cbn [write_loop]. mrun. rewrite Hcomp.
      exists F3, w3, s3, b3, p2. split_and!; try done.
      rewrite Hlog3, <- (Hrest []), app_nil_r; [done|].
      rewrite drop_ge; [done|]. rewrite length_batch_frames.
      rewrite (isComplete_ok b3 ps Hb3) in Hcomp. by apply Nat.leb_le in Hcomp.
    + specialize (Habs eq_refl).
      destruct (IH F3 w3 s3 b3 p2) as (F' & w' & s' & b' & p' & -> & H1 & H2 & H3 & H4 & H5); try done.
      * by apply (bytes_fit_absent s s3 b b3 ps n).
      * by eapply young_config.
      * by rewrite Hm3.
      * by rewrite Hm3.
      * lia.
      * rewrite Habs, Hc3. destruct (om_find (s_currentSequenceNumber s) (s_sequenceFiles s)) as [f0|] eqn:Hf0; [lia|].
        destruct (Hfresh1 eq_refl) as [[Hs13 _] _]. rewrite Hm2 in Hprog. specialize (Hprog Hmore). lia.
      * exists F', w', s', b', p'. split_and!; try done; [|by eapply same_config_trans].
        rewrite H2, Hlog3. by apply Hrest.
Qed.
End Writing.

(** ** Properties *)

(** C1: the store is an append-only list of frames.  When system calls succeed
    and the configured limits leave room for an entry, [writeBatch] returns, with
    one round per entry and one more, and the store then holds its old frames
    followed by the whole batch, in order, across as many files as it took, every
    file a well-formed log; the batch is complete and one pending transaction is
    accounted for. *)
Theorem write_batch_appends {OS : Os} fuel F w s b p ps :
  (forall n, os_fails n = false) -> (forall n, 13 <= os_accepts n) ->
  store_inv F w s -> s_isClosing s = false ->
  batch_ok b ps -> currentEntryIndex b = 0%nat -> bytes_fit s b ps -> young s ->
  s_maxFileSize s = 0 \/ 13 < s_maxFileSize s -> is_u32 (s_maxFileSize s) ->
  s_nextSequenceNumber s + 2 * Z.of_nat fuel < 2 ^ 32 -> (length ps + 1 < fuel)%nat ->
  exists F' w' s' b' p', writeBatch fuel ((w, s), (b, p)) = (inr tt, ((w', s'), (b', p'))) /\
    store_inv F' w' s' /\ store_log F' s' = store_log F s ++ batch_frames (batch_timestamp b) ps /\
    isComplete b' = true /\ s_pendingTransactionCount s' = s_pendingTransactionCount s - 1.
Proof.
  intros Hok Hall Hinv Hclose Hb Hc Hfit Hyoung Hmax Hmu Hn Hfuel.
  assert (Hloop : forall s2 q, store_inv F w s2 -> same_config s s2 -> s_sequenceFiles s2 = s_sequenceFiles s ->
    s_currentSequenceNumber s2 = s_currentSequenceNumber s -> s_nextSequenceNumber s2 = s_nextSequenceNumber s ->
    exists F' w' s' b' p', write_loop fuel ((w, s2), (b, q)) = (inr tt, ((w', s'), (b', p'))) /\
      store_inv F' w' s' /\ store_log F' s' = store_log F s ++ batch_frames (batch_timestamp b) ps /\
      isComplete b' = true /\ s_pendingTransactionCount s' = s_pendingTransactionCount s).
  { intros s2 q Hinv2 Hcfg2 Hf2 Hcur2 Hn2. pose proof Hcfg2 as (_ & _ & Hm2 & _ & _ & _ & Hpend2).
    destruct (write_loop_run Hok Hall fuel F w s2 b q ps)
      as (F' & w' & s' & b' & p' & Hrun & H1 & H2 & (_ & _ & _ & _ & _ & _ & H3) & _ & H5); try done.
    - unfold bytes_fit in *. by rewrite Hcur2, Hf2.
    - by eapply young_config.
    - by rewrite Hm2.
    - by rewrite Hm2.
    - lia.
    - destruct (om_find _ _); lia.
    - exists F', w', s', b', p'. split_and!; try done; [|congruence].
      rewrite H2, Hc, drop_0. unfold store_log. by rewrite Hf2. }
  unfold writeBatch, take_position, store, supdate, count, on_store. mrun. rewrite Hclose.
  set (s1 := set_s_uncommitted _ s).
  assert (Hinv1 : store_inv F w s1) by (by eapply store_inv_congr; [..|exact Hinv]).
  destruct (f64_ltb _ _); cbv beta iota.
  - destruct (Hloop (set_s_latestTimestamp (batch_timestamp b) s1) (s_nextLogPosition s))
      as (F' & w' & s' & b' & p' & -> & H1 & H2 & H3 & H4);
      [by eapply store_inv_congr; [..|exact Hinv1]|by repeat split|done|done|done|].
    eexists F', w', _, b', p'. split; [done|]. split_and!; try done; [|cbn; by rewrite H4].
    by eapply store_inv_congr; [..|exact H1].
  - destruct (Hloop s1 (s_nextLogPosition s)) as (F' & w' & s' & b' & p' & -> & H1 & H2 & H3 & H4);
      [done|by repeat split|done|done|done|].
    eexists F', w', _, b', p'. split; [done|]. split_and!; try done; [|cbn; by rewrite H4].
    by eapply store_inv_congr; [..|exact H1].
Qed.

Lemma store_new_inv name path max ret thr :
  store_inv (fun _ => []) empty_world (Store_new name path max ret thr).
Proof. constructor; cbn; try done. constructor. Qed.

Lemma write_batch_appends_witness :
  let ps := [[Byte.x61]; [Byte.x62; Byte.x63]; [Byte.x64]] in
  let b := foldl (fun b p => addEntry b (TransactionLogEntry_new "foo" p (Z.of_nat (length p))))
             (TransactionLogEntryBatch_new 7) ps in
  let s := Store_new "foo" "db/foo" 40 1000 (S754_zero false) in
  exists F' w' s' b' p', writeBatch (OS := os_reliable 0) 5 ((empty_world, s), (b, mkPos 0 0))
      = (inr tt, ((w', s'), (b', p'))) /\ store_log F' s' = batch_frames 7 ps.
Proof.
  intros ps b s.
  destruct (write_batch_appends (OS := os_reliable 0) 5 (fun _ => []) empty_world s b (mkPos 0 0) ps)
    as (F' & w' & s' & b' & p' & H1 & _ & H2 & _).
  - reflexivity.
  - intros n. simpl. lia.
  - apply store_new_inv.
  - reflexivity.
  - apply batch_new_ok. repeat constructor; simpl; lia.
  - reflexivity.
  - split; [vm_compute; reflexivity|]. intros f Hf. discriminate Hf.
  - intros H. discriminate H.
  - right. simpl. lia.
  - unfold is_u32. simpl. lia.
  - simpl. lia.
  - simpl. lia.
  - exists F', w', s', b', p'. split; [exact H1|exact H2].
Defined.
