(* ===== verification/StoreLifecycle.v ===== *)
(** * Purging, closing and reloading a log store

    What a purge may remove, what closing does, how a store is found again, and
    the configurations and orders in which the store does not do what it means
    to. *)

From S2P Require Import Prelude Encoding LogFormat Os LogFile LogFileProofs LogFileRecovery LogStore StorePositions LogStoreProofs.
From stdpp Require Import base tactics list gmap strings.
From coqutil Require Import Byte.
From Stdlib Require Import ZArith Lia SpecFloat.

Local Open Scope Z_scope.

Lemma keeps_for_each {S A} (P : S -> Prop) (l : list A) (body : A -> M S unit) :
  (forall x, x ∈ l -> keeps P (body x) (fun _ => True)) -> keeps P (for_each l body) (fun _ => True).
Proof.
  induction l as [|x l IH]; intros H; cbn [for_each]; [by apply keeps_ret|].
  eapply keeps_bind; [apply H; set_solver|]. intros _ _. apply IH. set_solver.
Qed.

(** ** Purging keeps what is not flushed *)

(** The flushed position as [txn.state] has it. *)
Definition flushed_position (w : World) (s : Store) : LogPosition :=
  match w_files w !! state_path s with
  | Some i => pos_of_bytes (take 8 (i_data i) ++ drop (length (take 8 (i_data i))) (pos_bytes (mkPos 0 0)))
  | None => mkPos 0 0
  end.

(** Each file of the store has its own name. *)
Definition files_named (s : Store) : Prop :=
  om_sorted (s_sequenceFiles s) /\
  forall seq f, om_find seq (s_sequenceFiles s) = Some f -> f_path f = log_path s seq /\ is_u32 seq.

Section Purge.
Context {OS : Os}.
Variables (path : string) (seq0 size0 : Z) (data0 : option inode) (state0 : option inode).

(** File [seq0] is in the store with [size0], its bytes and [txn.state] are
    untouched. *)
Definition file_kept (st : World * Store) : Prop :=
  let '(w, s) := st in
  s_path s = path /\ files_named s /\
  (exists f, om_find seq0 (s_sequenceFiles s) = Some f /\ f_size f = size0) /\
  w_files w !! log_path s seq0 = data0 /\ w_files w !! state_path s = state0.

Hypothesis Hseq0 : is_u32 seq0.

Lemma log_path_state s seq : is_u32 seq -> log_path s seq <> state_path s.
Proof using.
  intros Hs H. unfold log_path, state_path in H. apply append_inj_l in H.
  unfold is_u32 in Hs. destruct (digits_head 10 seq "") as (c & r & Hcr & Hd); [lia|by right|].
  unfold to_string in H. rewrite Hcr in H. injection H as Hc _. destruct Hd as [d Hd].
  rewrite Hc in Hd. discriminate Hd.
Qed.

(** A method of a file that changes at most that file, its size only when it is
    not file [seq0]. *)
Lemma keeps_with_file {A} seq (m : FM A) (Q : A -> Prop) :
  (forall w f, seq = seq0 -> f_size f = size0 ->
     let '(r, (w', f')) := m (w, f) in
     w_files w' = w_files w /\ f_path f' = f_path f /\ f_size f' = f_size f /\ forall a, r = inr a -> Q a) ->
  (forall w f, seq <> seq0 ->
     let '(r, (w', f')) := m (w, f) in
     (forall q, q <> f_path f -> w_files w' !! q = w_files w !! q) /\ f_path f' = f_path f /\ forall a, r = inr a -> Q a) ->
  keeps file_kept (with_file seq m) Q.
Proof using Hseq0.
  intros Hsame Hother [w s] (Hp & [Hsort Hnames] & (f0 & Hf0 & Hs0) & Hd & Hst). unfold with_file.
  destruct (om_find seq (s_sequenceFiles s)) as [f|] eqn:Hf; [|by split; [split_and!; eauto|]].
  destruct (Hnames seq f Hf) as [Hpath Hu].
  destruct (m (w, f)) as [r [w' f']] eqn:Hm. cbn -[om_put om_find].
  assert (Hnm : forall f', f_path f' = f_path f -> files_named (set_s_sequenceFiles (om_put seq f' (s_sequenceFiles s)) s)).
  { intros g Hg. split; [by apply om_sorted_put|]. cbn -[om_put om_find]. intros q h Hh.
    destruct (Z.eq_dec q seq) as [->|Hne]; [rewrite om_find_put_eq in Hh; injection Hh as <-; by rewrite Hg|].
    rewrite om_find_put_ne in Hh by congruence. by apply Hnames. }
  destruct (Z.eq_dec seq seq0) as [->|Hne].
  - specialize (Hsame w f eq_refl). rewrite Hm in Hsame. destruct Hsame as (H1 & H2 & H3 & H4); [congruence|].
    split; [|done]. split_and!; try done; [by apply Hnm|..]; cbn -[om_put om_find].
    + exists f'. rewrite om_find_put_eq. split; [done|congruence].
    + by rewrite H1.
    + by rewrite H1.
  - specialize (Hother w f Hne). rewrite Hm in Hother. destruct Hother as (H1 & H2 & H4).
    split; [|done]. split_and!; try done; [by apply Hnm|..]; cbn -[om_put om_find].
    + exists f0. rewrite om_find_put_ne by congruence. done.
    + rewrite H1; [done|]. rewrite Hpath. intros Heq. change (log_path s seq0 = log_path s seq) in Heq.
      apply (log_path_inj s) in Heq; [congruence|done|done].
    + rewrite H1; [done|]. rewrite Hpath. intros Heq. change (state_path s = log_path s seq) in Heq.
      by apply (log_path_state s seq).
Qed.

Lemma keeps_sworld {A} (m : M World A) (Q : A -> Prop) :
  (forall w, w_files (snd (m w)) = w_files w) -> (forall w a, fst (m w) = inr a -> Q a) ->
  keeps file_kept (sworld m) Q.
Proof using.
  intros Hw HQ [w s] (Hp & Hn & Hf & Hd & Hs). unfold sworld. specialize (Hw w). specialize (HQ w).
  destruct (m w) as [r w']. cbn in *. split; [|exact HQ]. rewrite Hw. by split_and!.
Qed.

Lemma keeps_store {A} (g : Store -> A) (Q : A -> Prop) :
  (forall w s, file_kept (w, s) -> Q (g s)) -> keeps file_kept (store g) Q.
Proof using. intros H. apply keeps_gets. intros [w s]. apply H. Qed.

Lemma keeps_count h : keeps file_kept (count h) (fun _ => True).
Proof using. apply keeps_modify. by intros [w s]. Qed.

(** The position read, or zero when the file cannot be read. *)
Lemma keeps_flushed :
  keeps file_kept getLastFlushedPosition (fun p =>
    p = mkPos 0 0 \/ exists i, state0 = Some i /\
      p = pos_of_bytes (take 8 (i_data i) ++ drop (length (take 8 (i_data i))) (pos_bytes (mkPos 0 0)))).
Proof using.
  unfold getLastFlushedPosition. intros [w s] HP. pose proof HP as (_ & _ & _ & _ & Hs).
  unfold store, sworld, sys. mrun. cbn [tock w_files]. rewrite Hs.
  destruct state0 as [i|]; [destruct (negb _)|]; (split; [exact HP|]); intros a [= <-]; [right; by exists i|by left|by left].
Qed.

Lemma mtime_files p w : w_files (snd (fs_mtime p w)) = w_files w.
Proof using.
  unfold fs_mtime, sys. mrun. cbn [tock w_files]. destruct (w_files w !! p); [|done]. by destruct (negb _).
Qed.

Lemma getLastWriteTime_frame w f :
  let '(r, (w', f')) := getLastWriteTime (w, f) in w_files w' = w_files w /\ f' = f.
Proof using.
  unfold getLastWriteTime, file, world, fs_exists. mrun.
  destruct (negb _); [done|]. pose proof (mtime_files (f_path f) w) as H.
  by destruct (fs_mtime (f_path f) w) as [r w'].
Qed.

Lemma keeps_purge_age seq before : keeps file_kept (purge_age seq before) (fun _ => True).
Proof using Hseq0.
  unfold purge_age. eapply keeps_bind; [by apply (keeps_store _ (fun _ => True))|]. intros ret _.
  apply keeps_catch; [|intros e; by apply keeps_ret].
  eapply keeps_bind.
  - apply (keeps_with_file seq getLastWriteTime (fun _ => True)).
    + intros w f _ _. pose proof (getLastWriteTime_frame w f) as H.
      destruct (getLastWriteTime (w, f)) as [r [w' f']]. destruct H as [? ->]. by split_and!.
    + intros w f _. pose proof (getLastWriteTime_frame w f) as H.
      destruct (getLastWriteTime (w, f)) as [r [w' f']]. destruct H as [H ->]. split_and!; try done. by rewrite H.
  - intros mtime _. eapply keeps_bind; [|intros t _; by apply keeps_ret].
    destruct (_ && _); [by apply (keeps_ret _ _ (fun _ => True))|].
    destruct (0 <? ret); [by apply (keeps_sworld _ (fun _ => True))|by apply (keeps_ret _ _ (fun _ => True))].
Qed.

Lemma countEntries_frame w f :
  let '(r, (w', f')) := LogFile.countEntries (w, f) in w_files w' = w_files w /\ f' = f.
Proof using.
  unfold LogFile.countEntries, file, world, sys. mrun. cbn [tock w_files].
  destruct (w_files w !! f_path f) as [i|]; [|done].
  destruct (_ || _); [done|]. destruct (_ <? _); [done|]. by destruct (negb _).
Qed.

(** At most the file at [p] changed. *)
Definition only_file (p : string) (g : gmap string inode) (st : World * TransactionLogFile) : Prop :=
  f_path st.2 = p /\ forall q, q <> p -> w_files st.1 !! q = g !! q.

Lemma keeps_reset_memoryMap p g : keeps (only_file p g) reset_memoryMap (fun _ => True).
Proof using.
  intros [w f] [Hp Hw]. unfold reset_memoryMap, file, update, update_world. mrun.
  destruct (f_memoryMap f) as [id|]; cbn; [|by split]. split; [|done]. split; [done|]. cbn in *.
  unfold sp_reset. destruct (w_maps w !! id); [|done]. by destruct (_ <=? _).
Qed.

Lemma keeps_fs_remove p g : keeps (only_file p g) (world (fs_remove p)) (fun _ => True).
Proof using.
  intros [w f] [Hp Hw]. unfold world, fs_remove, sys. mrun. cbn [tock w_files].
  destruct (negb _); cbn; [|by repeat split]. destruct (w_files w !! p); cbn; [|by repeat split].
  split; [|done]. split; [done|].
  intros q Hq. cbn. rewrite lookup_delete_ne by congruence. by apply Hw.
Qed.

Lemma keeps_removeFile p g : keeps (only_file p g) removeFile (fun _ => True).
Proof using.
  unfold removeFile.
  eapply keeps_bind; [by apply (keeps_gets _ _ (fun _ => True))|intros m _].
  eapply keeps_bind; [apply keeps_when|intros _ _].
  { eapply keeps_bind; [apply keeps_reset_memoryMap|intros _ _]. apply keeps_modify. by intros [w f]. }
  eapply keeps_bind; [by apply (keeps_gets _ _ (fun _ => True))|intros o _].
  eapply keeps_bind; [apply keeps_when, keeps_modify; by intros [w f]|intros _ _].
  eapply keeps_bind; [apply (keeps_gets _ _ (fun q => q = p)); intros [w f] [Hp _]; exact Hp|intros q ->].
  apply keeps_fs_remove.
Qed.

(** File [seq0] is not flushed: no round of the loop removes it. *)
Hypothesis Hpos0 : 0 < seq0.
Hypothesis Hunflushed : forall i, state0 = Some i ->
  unflushed seq0 size0 (pos_of_bytes (take 8 (i_data i) ++ drop (length (take 8 (i_data i))) (pos_bytes (mkPos 0 0)))) = true.

Lemma keeps_purge_file all ce before seq :
  keeps file_kept (purge_file all ce before seq) (fun r => seq = seq0 -> r = None).
Proof using Hseq0 Hpos0 Hunflushed.
  unfold purge_file.
  eapply keeps_bind; [by apply (keeps_store _ (fun _ => True))|intros ret _].
  eapply keeps_bind.
  { destruct (_ && _); [apply keeps_purge_age|by apply (keeps_ret _ _ (fun _ => True))]. }
  intros should _. destruct (default false should); [|by apply keeps_ret].
  eapply keeps_bind; [apply keeps_flushed|intros flushed Hfl].
  eapply keeps_bind.
  { apply (keeps_with_file seq (file f_size) (fun n => seq = seq0 -> n = size0)); unfold file; mrun.
    - intros w f -> Hs. split_and!; try done. intros a [= <-]. done.
    - intros w f Hne. split_and!; try done. }
  intros size Hsize. destruct (Z.eq_dec seq seq0) as [->|Hne].
  - assert (unflushed seq0 size flushed = true) as ->; [|by apply keeps_ret].
    rewrite (Hsize eq_refl). destruct Hfl as [->|(i & Hi & ->)]; [|by apply Hunflushed].
    unfold unflushed. cbn. apply orb_true_iff. left. lia.
  - destruct (unflushed seq size flushed); [by apply keeps_ret|].
    eapply keeps_bind.
    { destruct ce; [|by apply (keeps_ret _ _ (fun _ => True))].
      apply (keeps_with_file seq LogFile.countEntries (fun _ => True)); [done|]. intros w f _.
      pose proof (countEntries_frame w f) as H. destruct (LogFile.countEntries (w, f)) as [r [w' f']].
      destruct H as [H ->]. split_and!; try done. by rewrite H. }
    intros n _. eapply keeps_bind.
    { apply (keeps_with_file seq removeFile (fun _ => True)); [done|]. intros w f _.
      destruct (keeps_removeFile (f_path f) (w_files w) (w, f)) as [H _]; [done|].
      destruct (removeFile (w, f)) as [r [w' f']]. destruct H as [H1 H2]. by split_and!. }
    intros removed _. destruct removed; [|by apply keeps_ret].
    eapply keeps_bind; [apply keeps_count|intros _ _].
    eapply keeps_bind; [apply keeps_count|intros _ _].
    eapply keeps_bind; [|intros q _; by apply keeps_ret].
    apply (keeps_with_file seq (file f_path) (fun _ => True)); [done|]. intros w f _. unfold file. mrun. by split_and!.
Qed.

Lemma keeps_purge_loop all ce before keys visited :
  seq0 ∉ visited.*1 ->
  keeps file_kept (purge_loop all ce before keys visited) (fun v => seq0 ∉ v.*1).
Proof using Hseq0 Hpos0 Hunflushed.
  revert visited. induction keys as [|seq keys IH]; intros visited Hv; cbn [purge_loop]; [by apply keeps_ret|].
  eapply keeps_bind; [apply keeps_purge_file|]. intros [v|] Hr; apply IH; [|done].
  rewrite fmap_app. apply not_elem_of_app. split; [done|]. cbn. set_unfold. intros [<-|[]]. by discriminate (Hr eq_refl).
Qed.

Lemma keeps_forget_file seq : seq <> seq0 -> keeps file_kept (forget_file seq) (fun _ => True).
Proof using.
  intros Hne. unfold forget_file, advanceSequence, update_committed.
  eapply keeps_bind; [by apply (keeps_store _ (fun _ => True))|intros cur _].
  assert (Hupd : forall h, (forall s, s_path (h s) = s_path s /\ s_sequenceFiles (h s) = s_sequenceFiles s) ->
    keeps file_kept (supdate h) (fun _ => True)).
  { intros h Hh. apply keeps_modify. intros [w s] (H1 & H2 & H3 & H4 & H5). destruct (Hh s) as [Hp Hf].
    unfold file_kept, files_named, log_path, state_path in *. rewrite Hp, Hf. destruct H2. by split_and!. }
  eapply keeps_bind; [apply keeps_when|intros _ _].
  { eapply keeps_bind; [by apply Hupd|intros _ _].
    eapply keeps_bind; [eapply keeps_bind; [by apply Hupd|intros _ _; apply keeps_count]|intros _ _].
    eapply keeps_bind; [by apply Hupd|intros _ _].
    eapply keeps_bind; [by apply Hupd|intros _ _]. by apply Hupd. }
  apply keeps_modify. intros [w s] (H1 & [H2 H2'] & (f & H3 & H3') & H4 & H5). cbn -[om_erase om_find].
  split_and!; try done.
  - split; [by apply om_sorted_erase|]. cbn -[om_erase om_find]. intros q g Hg.
    destruct (Z.eq_dec q seq) as [->|Hq]; [by rewrite om_find_erase_eq in Hg|].
    rewrite om_find_erase_ne in Hg by congruence. by apply H2'.
  - exists f. rewrite om_find_erase_ne by congruence. done.
Qed.

Lemma keeps_doPurge all before ce : keeps file_kept (doPurge all before ce) (fun _ => True).
Proof using Hseq0 Hpos0 Hunflushed.
  unfold doPurge. eapply keeps_bind; [by apply (keeps_store _ (fun _ => True))|intros files _].
  destruct files as [|kv files]; [by apply keeps_ret|].
  eapply keeps_bind; [by apply (keeps_sworld _ (fun _ => True))|intros t _].
  eapply keeps_bind; [apply keeps_count|intros _ _].
  eapply keeps_bind; [apply keeps_count|intros _ _].
  eapply keeps_bind; [apply keeps_purge_loop; set_solver|intros visited Hv].
  eapply keeps_bind.
  { apply keeps_for_each. intros seq Hseq. apply keeps_forget_file. congruence. }
  intros _ _.
  eapply keeps_bind.
  { apply (keeps_store _ (fun files => files <> [])). intros w s (_ & _ & (f & Hf & _) & _) Hnil. by rewrite Hnil in Hf. }
  intros files' Hnil. eapply keeps_bind; [by apply (keeps_store _ (fun _ => True))|intros p _].
  rewrite bool_decide_false by done. cbn [andb when].
  eapply keeps_bind; [by apply (keeps_ret _ _ (fun _ => True))|intros _ _]. by apply keeps_ret.
Qed.
End Purge.

(** ** Configurations in which [writeBatch] never returns

    Every file is too full, or too old, the moment it is created: the size limit
    leaves no room after the header, or the age threshold leaves no time and the
    clock does not run backwards. *)

Definition spins {OS : Os} (s : Store) : Prop :=
  0 < s_maxFileSize s <= 13 \/
  0 <= s_maxFileSize s /\
  SFltb (S754_zero false) (s_maxAgeThreshold s) = true /\
  thresholdDuration (s_retentionMs s) (s_maxAgeThreshold s) <= 0 /\
  forall i j, (i <= j)%nat -> os_clock i <= os_clock j.

Section Spin.
Context {OS : Os}.
Hypothesis os_ok : forall n, os_fails n = false.
Hypothesis os_all : forall n, 13 <= os_accepts n.

Lemma spins_config s s' : same_config s s' -> spins s -> spins s'.
Proof using. intros (_ & _ & Hm & Hr & Ht & _). unfold spins. by rewrite Hm, Hr, Ht. Qed.

Lemma too_old_spins F w s f :
  store_inv F w s -> om_find (s_currentSequenceNumber s) (s_sequenceFiles s) = Some f ->
  spins s -> fresh_file w f ->
  exists w' r, too_old (s_currentSequenceNumber s) (w, s) = (inr r, (w', s)) /\ w_files w' = w_files w /\
    (r = true \/ 0 < s_maxFileSize s <= 13).
Proof using.
  intros Hinv Hf [Hsz|(_ & Hthr & Hdur & Hmono)] (_ & k & Ht & Hk).
  { destruct (too_old_run F w s f Hinv Hf) as (w' & r & H1 & H2 & _). exists w', r. by split_and!; [..|right]. }
  unfold too_old, store, sworld, now. mrun. rewrite Hthr.
  rewrite (with_file_read F (tock w) s _ f f_lastWriteTime (store_inv_files F w (tock w) s eq_refl Hinv) Hf), Ht.
  eexists (tock w), _. split_and!; [done|done|]. left. apply Z.leb_le. etransitivity; [exact Hdur|].
  specialize (Hmono k (w_tick w) Hk). unfold to_ms. apply Z.quot_pos; lia.
Qed.

Lemma current_upd_same F w s f f' :
  store_inv F w s -> s_nextSequenceNumber s <= 2 ^ 32 ->
  om_find (s_currentSequenceNumber s) (s_sequenceFiles s) = Some f ->
  f_path f' = f_path f -> f_version f' = f_version f -> f_open f' = f_open f -> f_timestamp f' = f_timestamp f ->
  f_size f' = f_size f ->
  store_inv F w (put_current f' s).
Proof using.
  intros Hinv Hu Hf Hp Hv Ho Ht Hs. destruct (si_file _ _ _ Hinv _ _ Hf) as (H1 & H2 & _).
  eapply store_inv_ext; [apply (upd_same F (s_currentSequenceNumber s))|].
  apply (store_inv_put F w); [done|done|congruence|congruence|done|].
  destruct (si_current _ _ _ Hinv f Hf) as [[? Hi]|(? & ? & ? & ?)]; [left|right].
  - split; [congruence|]. unfold log_image in *. by rewrite Hp, Ht, Hs.
  - rewrite Hp. split_and!; congruence.
Qed.

(** A file without room is left as it is and the store rotates. *)
Lemma write_to_full F w s f b p :
  store_inv F w s -> s_nextSequenceNumber s + 1 < 2 ^ 32 ->
  om_find (s_currentSequenceNumber s) (s_sequenceFiles s) = Some f ->
  0 < s_maxFileSize s <= f_size f ->
  exists w' s', write_to (s_currentSequenceNumber s) ((w, s), (b, p)) = (inr tt, ((w', s'), (b, p))) /\
    store_inv F w' s' /\ same_config s s' /\ s_nextSequenceNumber s' = s_nextSequenceNumber s + 1 /\
    om_find (s_currentSequenceNumber s') (s_sequenceFiles s') = None.
Proof using.
  intros Hinv Hn Hf [Hpos Hfull]. destruct (si_file _ _ _ Hinv _ _ Hf) as (_ & Hv & _).
  set (cur := s_currentSequenceNumber s) in *.
  set (f1 := set_hasAppended true f). set (f2 := set_lastWriteTime (os_clock (w_tick w)) f1).
  assert (Hinv1 : store_inv F w (put_current f1 s)) by (by eapply current_upd_same; [done|lia|done|..]).
  assert (Hf1 : om_find cur (s_sequenceFiles (put_current f1 s)) = Some f1) by (cbn -[om_put om_find]; apply om_find_put_eq).
  assert (Hinv2 : store_inv F (tock w) (put_current f2 (put_current f1 s))).
  { eapply current_upd_same; [by eapply store_inv_files; [|exact Hinv1]|cbn; lia|exact Hf1|done..]. }
  assert (Hf2 : om_find cur (s_sequenceFiles (put_current f2 (put_current f1 s))) = Some f2)
    by (cbn -[om_put om_find]; apply om_find_put_eq).
  unfold write_to, on_store, with_file_batch, store. mrun.
  rewrite (with_file_read F w s _ f f_size Hinv Hf), Hf.
  unfold writeEntries, writeEntriesV1, on_file, update, file. mrun. cbn [f_version set_hasAppended]. rewrite Hv. cbn [Z.eqb Pos.eqb].
  cbn [f_size set_hasAppended]. assert ((0 <? s_maxFileSize s) && (s_maxFileSize s <=? f_size f) = true) as -> by lia.
  unfold sworld, now. mrun. fold f1. change (set_s_sequenceFiles (om_put cur f1 (s_sequenceFiles s)) s) with (put_current f1 s).
  assert (with_file cur (modify (fun '(w0, f) => (w0, set_lastWriteTime (os_clock (w_tick w)) f))) (tock w, put_current f1 s)
    = (inr tt, (tock w, put_current f2 (put_current f1 s)))) as Hlw by (unfold with_file; rewrite Hf1; done).
  unfold modify in Hlw. rewrite Hlw. pose proof (with_file_read F _ _ _ f2 f_size Hinv2 Hf2) as Hrd.
  unfold file, gets in Hrd. rewrite Hrd. cbn [f_size set_lastWriteTime f2 f1 set_hasAppended].
  rewrite Z.eqb_refl. cbn [orb].
  destruct (rotate_run F (tock w) (put_current f2 (put_current f1 s)) f2 Hinv2 Hn Hf2)
    as (w3 & s3 & Hrot & _ & Hinv3 & _ & Hcfg3 & Hn3 & _ & Hnone3).
  change (s_currentSequenceNumber (put_current f2 (put_current f1 s))) with cur in Hrot. rewrite Hrot.
  eexists w3, _. split; [done|]. split_and!; try done. by eapply store_inv_congr; [..|exact Hinv3].
Qed.

Lemma write_loop_spins fuel F w s b p :
  store_inv F w s -> om_find (s_currentSequenceNumber s) (s_sequenceFiles s) = None ->
  spins s -> isComplete b = false -> s_nextSequenceNumber s + Z.of_nat fuel < 2 ^ 32 ->
  exists st, write_loop fuel ((w, s), (b, p)) = (inl (Diverges "TransactionLogStore::writeBatch"), st).
Proof using os_ok os_all.
  revert w s p. induction fuel as [|fuel IH]; intros w s p Hinv Hnone Hspin Hb Hn; [by eexists|].
  cbn [write_loop]. mrun. rewrite Hb.
  destruct (open_current_absent os_ok os_all F w s fuel Hinv ltac:(lia) Hnone)
    as (w1 & s1 & f & Hopen & (Hinv1 & Hf1 & _) & Hfresh & _ & Hcfg1 & Hn1); [destruct Hspin as [?|[? _]]; lia|].
  unfold on_store at 1. rewrite Hopen.
  destruct (retake_run F w1 s1 b p Hinv1) as (s2 & p2 & -> & Hinv2 & Hfiles2 & Hcfg2 & Hc2 & Hn2 & _).
  rewrite <- Hc2 in *. rewrite <- Hfiles2 in Hf1. pose proof (same_config_trans _ _ _ Hcfg1 Hcfg2) as Hcfg.
  destruct (too_old_spins F w1 s2 f Hinv2 Hf1 (spins_config _ _ Hcfg Hspin) Hfresh) as (w2 & old & Hold & Hw2 & Hcase).
  unfold on_store at 1. rewrite Hold. apply (store_inv_files F w1 w2) in Hinv2; [|done].
  destruct old.
  - destruct (rotate_run F w2 s2 f Hinv2 ltac:(lia) Hf1) as (w3 & s3 & Hrot & _ & Hinv3 & _ & Hcfg3 & Hn3 & _ & Hnone3).
    unfold on_store at 1. rewrite Hrot. apply IH; [done|done| |done|lia].
    eapply spins_config; [|done]. by eapply same_config_trans.
  - destruct Hcase as [?|Hsz]; [done|]. destruct Hfresh as [Hs13 _].
    destruct (write_to_full F w2 s2 f b p2 Hinv2 ltac:(lia) Hf1 ltac:(lia)) as (w3 & s3 & -> & Hinv3 & Hcfg3 & Hn3 & Hnone3).
    apply IH; [done|done| |done|lia]. eapply spins_config; [|done]. by eapply same_config_trans.
Qed.
End Spin.

Lemma close_frame {OS : Os} w f : w_files (snd (LogFile.close (w, f))).1 = w_files w.
Proof.
  unfold LogFile.close, reset_memoryMap, file, update, update_world. mrun.
  destruct (f_memoryMap f) as [id|] eqn:Hm; cbn; rewrite ?Hm; cbn; destruct (f_open f); cbn; try done.
  all: unfold sp_reset; destruct (w_maps w !! id); [|done]; by destruct (_ <=? _).
Qed.

Lemma close_file_run {OS : Os} w s f : exists w', close_file f (w, s) = (inr tt, (w', s)) /\ w_files w' = w_files w.
Proof.
  pose proof (close_frame w f) as Hf. unfold close_file.
  destruct (LogFile.close (w, f)) as [r [w' f']] eqn:Hc. exists w'. split; [|done].
  assert (r = inr tt) as ->; [|done]. revert Hc.
  unfold LogFile.close, reset_memoryMap, file, update, update_world. mrun.
  destruct (f_memoryMap f) as [id|] eqn:Hm; cbn; rewrite ?Hm; cbn; by destruct (f_open f); intros [= <- _ _].
Qed.

Lemma doClose_run {OS : Os} w s :
  exists w' s', doClose (w, s) = (inr tt, (w', s')) /\ w_files w' = w_files w /\ s_sequenceFiles s' = [] /\
    s_isClosing s' = s_isClosing s /\ s_counters s' = s_counters s.
Proof.
  unfold doClose, supdate, store. mrun. set (s1 := set_s_flushedStateFile SfClosed _).
  assert (exists w', for_each (s_sequenceFiles s).*2 close_file (w, s1) = (inr tt, (w', s1)) /\ w_files w' = w_files w)
    as (w' & -> & Hw).
  { generalize (s_sequenceFiles s).*2. intros l. revert w. induction l as [|f l IH]; intros w; [by exists w|].
    cbn [for_each]. mrun. destruct (close_file_run w s1 f) as (w1 & -> & Hw1).
    destruct (IH w1) as (w' & -> & Hw'). exists w'. split; [done|congruence]. }
  exists w', s1. unfold doPurge, store. mrun. by split_and!.
Qed.

Lemma existsb_none {A} (g : A -> bool) l : existsb g l = false -> forall x, In x l -> g x = false.
Proof.
  intros H x Hx. destruct (g x) eqn:Hg; [|done]. rewrite <- H. symmetry. apply existsb_exists. eauto.
Qed.

(** ** Runs used as examples *)

(** A batch of one entry per payload. *)
Definition batch_of (ts : Z) (ps : list bytes) : TransactionLogEntryBatch :=
  foldl (fun b p => addEntry b (TransactionLogEntry_new "foo" p (Z.of_nat (length p))))
    (TransactionLogEntryBatch_new ts) ps.

(** [writeBatch] with the position it hands out. *)
Definition write_of {OS : Os} (ts : Z) (ps : list bytes) : SM LogPosition := fun ws =>
  match writeBatch 10 (ws, (batch_of ts ps, mkPos 0 0)) with
  | (inr _, (ws', (_, p))) => (inr p, ws')
  | (inl e, (ws', _)) => (inl e, ws')
  end.

Definition new_store (maxFileSize : Z) : World * Store :=
  (empty_world, Store_new "foo" "db/foo" maxFileSize 1000 (S754_zero false)).

(** Three entries in two files of at most 42 bytes; the first file is committed
    and flushed. *)
Definition half_flushed : World * Store :=
  let OS := os_reliable 0 in
  snd ((p1 ← write_of 7 [[Byte.x61]; [Byte.x62]];
        commitFinished p1 5;;
        databaseFlushed 5;;
        write_of 8 [[Byte.x63]]) (new_store 42)).

(** A transaction binds itself to the store: [pendingTransactionCount++] unless
    the store is closing. *)
Definition bind_transaction : SM bool :=
  closing ← store s_isClosing;
  if closing : bool then mret false
  else supdate (fun s => set_s_pendingTransactionCount (s_pendingTransactionCount s + 1) s);; mret true.

(** ** Properties *)

(** The byte at [offset] of file [seq] is not covered by the flushed position. *)
Definition after_flush (flushed : LogPosition) (seq offset : Z) : Prop :=
  logSequenceNumber flushed < seq \/ logSequenceNumber flushed = seq /\ positionInLogFile flushed <= offset.

Lemma after_flush_unflushed flushed seq offset size :
  after_flush flushed seq offset -> 0 <= offset < size -> unflushed seq size flushed = true.
Proof. unfold after_flush, unflushed. intros [H|[H1 H2]] Ho; apply orb_true_iff; [left|right; apply andb_true_iff; split]; lia. Qed.

(** C23: a purge never loses data that RocksDB may still need replayed.  Whatever
    the system calls do and whether or not the purge throws, a file of which some
    byte on disk is not covered by the flushed position of [txn.state] keeps its
    bytes, its place in the store and its size, and the flushed position does not
    move.  This is for a file whose size the store knows, as that of every file it
    has opened; a file that was only registered counts as empty and is not kept
    ([purge_depends_on_listing]). *)
Theorem purge_keeps_unflushed {OS : Os} seq f offset w s all before ce :
  files_named s -> om_find seq (s_sequenceFiles s) = Some f -> 0 < seq ->
  f_size f = Z.of_nat (length (contents (log_path s seq) w)) ->
  0 <= offset < Z.of_nat (length (contents (log_path s seq) w)) -> after_flush (flushed_position w s) seq offset ->
  let '(_, (w', s')) := purge all before ce (w, s) in
  (exists f', om_find seq (s_sequenceFiles s') = Some f' /\ f_size f' = f_size f) /\
  w_files w' !! log_path s seq = w_files w !! log_path s seq /\
  flushed_position w' s' = flushed_position w s.
Proof.
  intros Hn Hf Hpos Hsz Ho Haf. destruct (proj2 Hn seq f Hf) as [_ Hu].
  assert (Hun : unflushed seq (f_size f) (flushed_position w s) = true) by (rewrite Hsz; by eapply after_flush_unflushed).
  destruct (keeps_doPurge (s_path s) seq (f_size f) (w_files w !! log_path s seq) (w_files w !! state_path s)
              Hu Hpos) with (st := (w, s)) (all := all) (before := before) (ce := ce) as [HP _].
  - intros i Hi. unfold flushed_position in Hun. by rewrite Hi in Hun.
  - by split_and!; eauto.
  - unfold purge. destruct (doPurge all before ce (w, s)) as [r [w' s']].
    destruct HP as (H1 & _ & H3 & H4 & H5). unfold log_path, state_path, flushed_position in *.
    rewrite H1 in *. unfold state_path. rewrite H1. by rewrite H5.
Qed.

(** [files_named], evaluated. *)
Definition files_namedb (s : Store) : bool :=
  forallb (fun '(q, f) => String.eqb (f_path f) (log_path s q) && (0 <=? q) && (q <? 2 ^ 32)) (s_sequenceFiles s).

Lemma files_namedb_ok s : om_sorted (s_sequenceFiles s) -> files_namedb s = true -> files_named s.
Proof.
  intros Hs Hb. split; [done|]. intros q f Hf%om_find_Some_in.
  unfold files_namedb in Hb. rewrite forallb_forall in Hb. specialize (Hb _ Hf). simpl in Hb.
  apply andb_true_iff in Hb as [[He%String.eqb_eq H1]%andb_true_iff H2]. split; [done|]. unfold is_u32. lia.
Qed.

Lemma half_flushed_named : files_named half_flushed.2.
Proof. apply files_namedb_ok; [vm_compute; repeat constructor|vm_compute; reflexivity]. Qed.

Lemma purge_keeps_unflushed_witness :
  let st := half_flushed in
  let st' := snd (purge (OS := os_reliable 0) true 0 true st) in
  w_files st'.1 !! log_path st.2 1 = None /\ w_files st'.1 !! log_path st.2 2 = w_files st.1 !! log_path st.2 2.
Proof.
  split; [vm_compute; reflexivity|].
  epose proof (purge_keeps_unflushed (OS := os_reliable 0) 2 _ 20 half_flushed.1 half_flushed.2 true 0 true
    half_flushed_named ltac:(vm_compute; reflexivity) ltac:(lia) ltac:(vm_compute; reflexivity)
    ltac:(vm_compute; split; congruence) ltac:(left; vm_compute; reflexivity)) as H.
  vm_compute in H |- *. exact (proj1 (proj2 H)).
Defined.

(** Closing a store removes no file.  [doClose] empties the file map before
    it calls [doPurge], which then finds nothing to purge: whatever the retention
    time, the files on disk after [close] are those before it. *)
Theorem close_never_purges {OS : Os} w s :
  let '(_, (w', s')) := LogStore.close (w, s) in
  w_files w' = w_files w /\ (s_isClosing s = false -> s_sequenceFiles s' = [] /\ s_isClosing s' = true) /\
  s_counters s' = s_counters s.
Proof.
  unfold LogStore.close, store. mrun. destruct (s_isClosing s); [done|]. unfold supdate. mrun.
  by destruct (doClose_run w (set_s_isClosing true s)) as (w' & s' & -> & Hw & Hf & Hcl & Hcnt).
Qed.

(** With a size limit that only holds the file header (13, the least value the
    options accept) or an age threshold of 1, [writeBatch] on a store without a
    current file does not return: it creates and rotates away one file after
    another for as long as there are sequence numbers. *)
Theorem write_batch_spins {OS : Os} fuel F w s b p :
  (forall n, os_fails n = false) -> (forall n, 13 <= os_accepts n) ->
  store_inv F w s -> om_find (s_currentSequenceNumber s) (s_sequenceFiles s) = None ->
  s_isClosing s = false -> spins s -> isComplete b = false ->
  s_nextSequenceNumber s + Z.of_nat fuel < 2 ^ 32 ->
  exists st, writeBatch fuel ((w, s), (b, p)) = (inl (Diverges "TransactionLogStore::writeBatch"), st).
Proof.
  intros Hok Hall Hinv Hnone Hclose Hspin Hb Hn.
  assert (Hloop : forall s2 q, same_config s s2 -> s_sequenceFiles s2 = s_sequenceFiles s ->
    s_currentSequenceNumber s2 = s_currentSequenceNumber s -> s_nextSequenceNumber s2 = s_nextSequenceNumber s ->
    exists st, write_loop fuel ((w, s2), (b, q)) = (inl (Diverges "TransactionLogStore::writeBatch"), st)).
  { intros s2 q Hcfg Hf2 Hc2 Hn2. apply (write_loop_spins Hok Hall fuel F); [| |by eapply spins_config|done|lia].
    - pose proof Hcfg as (_ & Hp & _). by eapply store_inv_congr; [..|exact Hinv].
    - by rewrite Hf2, Hc2. }
  unfold writeBatch, take_position, store, supdate, count, on_store. mrun. rewrite Hclose.
  destruct (f64_ltb _ _); cbv beta iota;
    match goal with |- context [write_loop fuel (w, ?s2, (b, ?q))] =>
      destruct (Hloop s2 q) as [st ->]; [by repeat split|done|done|done|] end; by eexists.
Qed.


(** [tryClose] without interleaving closes only an idle store.  It answers
    true on an open store only when no transaction is bound to it and every
    tracked position is the sentinel of the next write; then the store is closing
    and no file is left in it.  Otherwise it answers false and nothing changed. *)
Theorem try_close_idle {OS : Os} w s :
  s_isClosing s = false ->
  match tryClose (w, s) with
  | (inr true, (w', s')) =>
      s_pendingTransactionCount s <= 0 /\ Forall (fun p => p = s_nextLogPosition s) (s_uncommitted s) /\
      s_isClosing s' = true /\ s_sequenceFiles s' = [] /\ w_files w' = w_files w
  | (inr false, (w', s')) => (w', s') = (w, s)
  | (inl _, _) => False
  end.
Proof.
  intros Hc. unfold tryClose, tryClose1, tryClose2, tryClose3, tryClose4, store. mrun. rewrite Hc.
  destruct (Z.ltb_spec 0 (s_pendingTransactionCount s)) as [?|Hp]; [done|]. rewrite Hc.
  destruct (existsb _ _) eqn:Hreal; [done|]. rewrite Hc.
  destruct (Z.ltb_spec 0 (s_pendingTransactionCount s)) as [?|_]; [lia|]. unfold supdate. mrun.
  destruct (doClose_run w (set_s_isClosing true s)) as (w' & s' & -> & Hw & Hf & Hcl & _). split_and!; try done.
  apply List.Forall_forall. intros p Hin. pose proof (existsb_none _ _ Hreal p Hin) as Hp'. clear Hreal. rename Hp' into Hreal. simpl in Hreal.
  unfold is_sentinel in Hreal. destruct p as [a b], (s_nextLogPosition s) as [c d]. simpl in Hreal.
  f_equal; lia.
Qed.

(** Between its second and third phase [tryClose] misses a transaction.  A
    transaction that binds and writes its whole batch there leaves no pending
    count behind, so the third phase sets [isClosing] and the store closes while
    the position of the written, uncommitted transaction is still tracked: the
    check of the second phase, repeated, would refuse. *)
Theorem try_close_misses_writer :
  let OS := os_reliable 0 in
  match (r1 ← tryClose1; r2 ← tryClose2;
         b ← bind_transaction; p ← write_of 7 [[Byte.x61]];
         again ← tryClose2;
         r3 ← tryClose3; r4 ← tryClose4;
         mret (r1, r2, b, p, again, r3, r4)) (new_store 100) with
  | (inr (r1, r2, b, p, again, r3, r4), (_, s')) =>
      r1 = None /\ r2 = None /\ b = true /\ again = Some false /\ r3 = None /\ r4 = true /\
      s_isClosing s' = true /\ p ∈ s_uncommitted s' /\ p <> s_nextLogPosition s'
  | _ => False
  end.
Proof. vm_compute. split_and!; try reflexivity; [by left|discriminate]. Qed.

(** The committed position can run ahead of an uncommitted transaction.  The
    first transaction fills file 1, so that the next position is recorded as file
    2 at the old size; the second one is given that position but writes at the
    start of file 2.  When the first commits, the committed position is the end of
    the second's entry, although the second has not committed. *)
Theorem rotation_exposes_uncommitted :
  let OS := os_reliable 0 in
  match (p1 ← write_of 7 [[Byte.x61]; [Byte.x62]];
         p2 ← write_of 8 [[Byte.x63]];
         commitFinished p1 5;;
         mret (p1, p2)) (new_store 41) with
  | (inr (p1, p2), (w, s)) =>
      p2 = mkPos 41 2 /\ p2 ∈ s_uncommitted s /\
      contents (log_path s 2) w = header_bytes 8 ++ encode_frames (batch_frames 8 [[Byte.x63]]) /\
      s_lastCommittedPosition s = mkPos (Z.of_nat (length (contents (log_path s 2) w))) 2
  | _ => False
  end.
Proof. vm_compute. split_and!; try reflexivity. by right; left. Qed.

(** A purge that empties the store loses later flush records.  It removes the
    directory with [txn.state] while the stream on it stays open: the next
    [databaseFlushed] counts as written, but the position read back, also by a
    process that starts later, is zero and the flushed file is not purgeable. *)
Theorem flush_lost_after_purge :
  let OS := os_reliable 0 in
  match (p1 ← write_of 7 [[Byte.x61]];
         commitFinished p1 5;; databaseFlushed 5;;
         first ← getLastFlushedPosition;
         purged ← purge true 0 false;
         p2 ← write_of 8 [[Byte.x62]];
         commitFinished p2 6;; databaseFlushed 6;;
         second ← getLastFlushedPosition;
         again ← purge true 0 false;
         mret (first, purged, second, again)) (new_store 100) with
  | (inr (first, purged, second, again), (w, s)) =>
      first = mkPos 27 1 /\ purged.*1 = ["db/foo/1.txnlog"] /\
      s_lastWrittenFlushedPosition s = mkPos 27 2 /\ c_databaseFlushes (s_counters s) = 2 /\
      second = mkPos 0 0 /\ again = []
  | _ => False
  end.
Proof. vm_compute. split_and!; reflexivity. Qed.

