(* ===== verification/StoreLoad.v ===== *)
(** * Finding a log store again

    [load] after a crash: the store is rebuilt from the directory listing, in
    whatever order it comes, and the torn tail of the newest file is repaired. *)

From S2P Require Import Prelude Encoding LogFormat Os LogFile LogFileProofs LogFileRecovery LogStore StorePositions LogStoreProofs.
From stdpp Require Import base tactics list gmap strings sorting.
From coqutil Require Import Byte.
From Stdlib Require Import ZArith Lia SpecFloat.

Local Open Scope Z_scope.

Definition log_name (q : Z) : string := to_string q +:+ ".txnlog".
Definition path_of (dir : string) (q : Z) : string := dir +:+ "/" +:+ to_string q +:+ ".txnlog".

(** The listing shows the files [qs], each once, and otherwise entries that are no
    logs. *)
Definition lists (qs : list Z) (entries : list dirent) : Prop :=
  NoDup entries /\
  Forall (fun e => (exists q, q ∈ qs /\ e = mkDirent (log_name q) true) \/
                   de_regular e && String.eqb (extension (de_name e)) ".txnlog" = false) entries /\
  forall q, q ∈ qs -> mkDirent (log_name q) true ∈ entries.

(** The directory holds, in file [q], the header with timestamp [T q], the frames
    [F q] and [tail q]; it has no other log. *)
Record on_disk (dir : string) (qs : list Z) (T : Z -> Z) (F : Z -> list frame) (tail : Z -> bytes) (w : World) : Prop :=
  mkOnDisk {
    od_file : forall q, q ∈ qs -> contents (path_of dir q) w = header_bytes (T q) ++ encode_frames (F q) ++ tail q;
    od_header : forall q, q ∈ qs -> is_u64 (T q);
    od_size : forall q, q ∈ qs -> is_u32 (Z.of_nat (length (contents (path_of dir q) w)));
    od_other : forall q, is_u32 q -> q ∉ qs -> contents (path_of dir q) w = [];
    od_none : forall q, q ∉ qs -> F q = [];
    od_range : forall q, q ∈ qs -> 1 <= q /\ q + 1 < 2 ^ 32;
  }.

(** The test of [load] for the age of a file, whenever it is made. *)
Definition aged {OS : Os} (retentionMs : Z) (i : inode) (old : bool) : Prop :=
  forall n, (0 <? retentionMs) && (0 <? to_ms (os_clock n - i_mtime i) - retentionMs) = old.

(** [old] says which files are expired. *)
Definition ages {OS : Os} (retentionMs : Z) (dir : string) (qs : list Z) (old : Z -> bool) (w : World) : Prop :=
  forall q i, q ∈ qs -> w_files w !! path_of dir q = Some i -> aged retentionMs i (old q).

(** The frames of the files that are not expired. *)
Definition retained (old : Z -> bool) (F : Z -> list frame) (q : Z) : list frame := if old q then [] else F q.

Lemma om_put_put {V} k (v v' : V) m : om_put k v (om_put k v' m) = om_put k v m.
Proof.
  induction m as [|[k0 v0] m IH]; cbn [om_put].
  - destruct (Z.ltb_spec k k); [lia|]. by rewrite Z.eqb_refl.
  - destruct (Z.ltb_spec k k0) as [?|?]; cbn [om_put].
    { destruct (Z.ltb_spec k k); [lia|]. by rewrite Z.eqb_refl. }
    destruct (Z.eqb_spec k k0) as [->|Hne]; cbn [om_put].
    + destruct (Z.ltb_spec k0 k0); [lia|]. by rewrite Z.eqb_refl.
    + destruct (Z.ltb_spec k k0); [lia|]. destruct (Z.eqb_spec k k0); [lia|]. by rewrite IH.
Qed.

Lemma om_keys_put {V} k (v : V) l q : q ∈ (om_put k v l).*1 <-> q = k \/ q ∈ l.*1.
Proof.
  induction l as [|[k0 v0] l IH]; cbn [om_put]; [set_solver|].
  destruct (Z.ltb_spec k k0); [set_solver|]. destruct (Z.eqb_spec k k0) as [->|]; [set_solver|].
  rewrite !fmap_cons, !elem_of_cons, IH. simpl. naive_solver.
Qed.

Lemma om_keys_find {V} (l : list (Z * V)) q : q ∈ l.*1 <-> is_Some (om_find q l).
Proof.
  induction l as [|[k v] l IH]; cbn [om_find].
  - split; [by intros ?%elem_of_nil|by intros []].
  - rewrite fmap_cons, elem_of_cons, IH. destruct (Z.eqb_spec q k) as [->|Hne]; naive_solver.
Qed.

(** Ascending lists with the same elements are equal. *)
Lemma sorted_keys_eq (l l' : list Z) :
  StronglySorted Z.lt l -> StronglySorted Z.lt l' -> (forall q, q ∈ l <-> q ∈ l') -> l = l'.
Proof.
  intros Hl. revert l'. induction Hl as [|x l Hl IH Hx]; intros l' Hl' Heq.
  - destruct l' as [|y l']; [done|]. exfalso. apply (elem_of_nil y), Heq. left.
  - destruct Hl' as [|y l' Hl' Hy]; [exfalso; apply (elem_of_nil x), Heq; left|].
    rewrite Forall_forall in Hx, Hy. assert (x = y) as <-.
    { pose proof (proj1 (Heq x) (list_elem_of_here _ _)) as [|Hi]%elem_of_cons; [done|].
      pose proof (proj2 (Heq y) (list_elem_of_here _ _)) as [|Hi']%elem_of_cons; [done|].
      specialize (Hx y Hi'). specialize (Hy x Hi). lia. }
    f_equal. apply IH; [done|]. intros q. specialize (Heq q). rewrite !elem_of_cons in Heq. split; intros Hq.
    + destruct (proj1 Heq (or_intror Hq)) as [->|]; [|done]. specialize (Hx x Hq). lia.
    + destruct (proj2 Heq (or_intror Hq)) as [->|]; [|done]. specialize (Hy x Hq). lia.
Qed.

Section Load.
Context {OS : Os}.
Hypothesis os_ok : forall n, os_fails n = false.
Variables (dir : string) (qs : list Z) (T : Z -> Z) (F : Z -> list frame) (tail : Z -> bytes) (w0 : World).
Variables (retentionMs : Z) (old : Z -> bool).
Hypothesis Hdisk : on_disk dir qs T F tail w0.
Hypothesis Hage : ages retentionMs dir qs old w0.

(** The files [done] are unchanged, or gone when they were expired; the others are
    untouched. *)
Record seen_files (done : list Z) (w : World) : Prop := mkSeen {
  sf_kept : forall q, is_u32 q -> (q ∈ done -> old q = false) -> contents (path_of dir q) w = contents (path_of dir q) w0;
  sf_gone : forall q, q ∈ done -> old q = true -> contents (path_of dir q) w = [];
  sf_fresh : forall q, q ∈ qs -> q ∉ done -> w_files w !! path_of dir q = w_files w0 !! path_of dir q;
}.

(** The state of the loop of [load] after the files [done]. *)
Record loading (done : list Z) (w : World) (s : Store) : Prop := mkLoading {
  ld_world : seen_files done w;
  ld_done : forall q, q ∈ done -> q ∈ qs;
  ld_path : s_path s = dir;
  ld_keep : s_retentionMs s = retentionMs;
  ld_sorted : om_sorted (s_sequenceFiles s);
  ld_file : forall q f, om_find q (s_sequenceFiles s) = Some f ->
    q ∈ done /\ old q = false /\ f_path f = path_of dir q /\ f_version f = 1;
  ld_have : forall q, q ∈ done -> old q = false -> is_Some (om_find q (s_sequenceFiles s));
  ld_current : (forall q, q ∈ done -> old q = true) /\ s_currentSequenceNumber s = 1 \/
    s_currentSequenceNumber s ∈ done /\ old (s_currentSequenceNumber s) = false;
  ld_max : forall q, q ∈ done -> old q = false -> q <= s_currentSequenceNumber s;
  ld_next : s_nextSequenceNumber s = s_currentSequenceNumber s + 1;
  ld_open : forall f, om_find (s_currentSequenceNumber s) (s_sequenceFiles s) = Some f ->
    f_open f = true /\ f_timestamp f = T (s_currentSequenceNumber s) /\
    f_size f = Z.of_nat (length (contents (f_path f) w));
  ld_idle : s_uncommitted s = [];
}.

(** The object of file [q] before it is opened. *)
Definition new_object (q : Z) (f : TransactionLogFile) : Prop :=
  f_path f = path_of dir q /\ f_version f = 1 /\ f_open f = false.

(** The file's time is read when it can be. *)
Lemma stamp_run q w s f :
  new_object q f ->
  exists w1 f1,
    catch (t ← sworld (fs_mtime (path_of dir q)); with_file q (update (set_lastWriteTime t))) (fun _ => mret tt)
      (w, set_s_sequenceFiles (om_put q f (s_sequenceFiles s)) s)
    = (inr tt, (w1, set_s_sequenceFiles (om_put q f1 (s_sequenceFiles s)) s)) /\
    w_files w1 = w_files w /\ new_object q f1.
Proof using.
  intros Hf. unfold sworld, fs_mtime, sys. mrun. cbn [tock w_files].
  destruct (w_files w !! path_of dir q) as [i|]; [|by eexists _, f].
  destruct (negb _); [|by eexists _, f]. unfold with_file, update. mrun.
  cbn -[om_find om_put]. rewrite om_find_put_eq, om_put_put. by eexists _, _.
Qed.

(** Opening the object of a file that holds a log. *)
Lemma open_run q w s f :
  contents (path_of dir q) w = contents (path_of dir q) w0 -> q ∈ qs -> new_object q f ->
  exists w1 f1,
    ensure_open q (w, set_s_sequenceFiles (om_put q f (s_sequenceFiles s)) s)
    = (inr tt, (w1, set_s_sequenceFiles (om_put q f1 (s_sequenceFiles s)) s)) /\
    (forall p, p <> path_of dir q -> w_files w1 !! p = w_files w !! p) /\
    contents (path_of dir q) w1 = contents (path_of dir q) w0 /\
    f_path f1 = path_of dir q /\ f_version f1 = 1 /\ f_open f1 = true /\ f_timestamp f1 = T q /\
    f_size f1 = Z.of_nat (length (contents (path_of dir q) w1)).
Proof using os_ok Hdisk.
  intros Hw Hq (Hp & Hv & Ho).
  destruct (open_existing os_ok (s_latestTimestamp s) (T q) (encode_frames (F q) ++ tail q) w f)
    as (w1 & t & Hopen & [Hs _] & Hc).
  { rewrite Hp, Hw. by apply (od_file _ _ _ _ _ _ Hdisk). }
  { by apply (od_header _ _ _ _ _ _ Hdisk). }
  { done. }
  { rewrite Hp, Hw. by apply (od_size _ _ _ _ _ _ Hdisk). }
  eexists w1, _. split.
  - unfold ensure_open, store, with_file, file. mrun. cbn -[om_find om_put LogFile.open].
    rewrite om_find_put_eq, Ho, Hopen. cbn -[om_find om_put]. by rewrite om_put_put.
  - rewrite Hp in Hs, Hc. split_and!; try done; [congruence|].
    cbn [f_size set_timestamp set_version set_lastWriteTime LogFile.set_size]. by rewrite Hp, Hc.
Qed.

Lemma path_of_inj q q' : is_u32 q -> is_u32 q' -> path_of dir q = path_of dir q' -> q = q'.
Proof using. apply (log_path_inj (Store_new "" dir 0 0 (S754_zero false))). Qed.

Lemma seq_u32 q : q ∈ qs -> is_u32 q.
Proof using Hdisk. intros Hq. destruct (od_range _ _ _ _ _ _ Hdisk q Hq). unfold is_u32. lia. Qed.

(** A file was looked at: it is unchanged, or gone when it was expired. *)
Lemma seen_next done w w' q :
  seen_files done w -> (forall q, q ∈ done -> q ∈ qs) -> q ∈ qs -> q ∉ done ->
  (forall p, p <> path_of dir q -> w_files w' !! p = w_files w !! p) ->
  contents (path_of dir q) w' = (if old q then [] else contents (path_of dir q) w0) ->
  seen_files (q :: done) w'.
Proof using Hdisk.
  intros [H1 H2 H3] Hd Hq Hnew Hw Hc.
  assert (Hother : forall q', is_u32 q' -> q' <> q -> path_of dir q' <> path_of dir q)
    by (intros q' Hu Hne He; apply Hne, path_of_inj; [done|by apply seq_u32|done]).
  constructor.
  - intros q' Hu Hold. destruct (decide (q' = q)) as [->|Hne]; [rewrite Hc, (Hold (list_elem_of_here _ _)); done|].
    unfold contents at 1. rewrite Hw by auto. apply H1; [done|]. intros Hin. apply Hold. by right.
  - intros q' Hin Hold. destruct (decide (q' = q)) as [->|Hne]; [by rewrite Hc, Hold|]. apply elem_of_cons in Hin as [|Hin]; [done|].
    unfold contents. rewrite Hw by (apply Hother; [apply seq_u32; auto|done]). by apply H2.
  - intros q' Hin Hn. apply not_elem_of_cons in Hn as [Hne Hn]. rewrite Hw by (apply Hother; [by apply seq_u32|done]). by apply H3.
Qed.

Lemma loading_put done w w' s q f cur next pos :
  loading done w s -> q ∈ qs -> old q = false -> seen_files (q :: done) w' ->
  (forall p, p <> path_of dir q -> contents p w' = contents p w) ->
  f_path f = path_of dir q -> f_version f = 1 ->
  (if s_currentSequenceNumber s <=? q then cur = q /\ next = q + 1 /\ f_open f = true /\ f_timestamp f = T q /\
     f_size f = Z.of_nat (length (contents (path_of dir q) w'))
   else cur = s_currentSequenceNumber s /\ next = s_nextSequenceNumber s) ->
  loading (q :: done) w'
    (set_s_nextSequenceNumber next (set_s_nextLogPosition pos (set_s_currentSequenceNumber cur
      (set_s_sequenceFiles (om_put q f (s_sequenceFiles s)) s)))).
Proof using os_ok Hdisk.
  intros [Hw Hd Hp Hr Hs Hf Hh Hc Hm Hn Ho Hi] Hq Hold Hw' Hsame Hfp Hfv Hcase. destruct (od_range _ _ _ _ _ _ Hdisk q Hq) as [Hq1 Hq2].
  assert (Hcur : cur = Z.max q (s_currentSequenceNumber s) /\ next = cur + 1 /\
    (cur = q \/ s_currentSequenceNumber s ∈ done /\ old (s_currentSequenceNumber s) = false)).
  { destruct (Z.leb_spec (s_currentSequenceNumber s) q); [by destruct Hcase as (-> & -> & _); split_and!; [lia|lia|left]|].
    destruct Hcase as [-> ->]. split_and!; [lia|done|]. right. destruct Hc as [[_ Hc]|]; [lia|done]. }
  destruct Hcur as (Hcur & Hnext & Hin).
  constructor; cbn -[om_put om_find]; try done.
  - intros q' [->|Hq']%elem_of_cons; auto.
  - by apply om_sorted_put.
  - intros q' f' Hf'. destruct (Z.eq_dec q' q) as [->|Hne].
    + rewrite om_find_put_eq in Hf'. injection Hf' as <-. split_and!; [by left|done|done|done].
    + rewrite om_find_put_ne in Hf' by congruence. destruct (Hf q' f' Hf') as (? & ? & ? & ?). split_and!; [by right|done|done|done].
  - intros q' Hq' Hold'. destruct (Z.eq_dec q' q) as [->|Hne]; [by rewrite om_find_put_eq|].
    rewrite om_find_put_ne by congruence. apply Hh; [by apply elem_of_cons in Hq' as [->|]|done].
  - right. destruct (Z.eq_dec cur q) as [->|]; [split; [by left|done]|]. destruct Hin as [?|[Hin Hin']]; [done|].
    assert (cur = s_currentSequenceNumber s) as -> by lia. split; [by right|done].
  - intros q' [->|Hq']%elem_of_cons Hold'; [lia|]. specialize (Hm q' Hq' Hold'). lia.
  - intros f' Hf'. destruct (Z.leb_spec (s_currentSequenceNumber s) q) as [Hle|Hgt].
    + destruct Hcase as (-> & _ & H1 & H2 & H3). rewrite om_find_put_eq in Hf'. injection Hf' as <-. by rewrite Hfp.
    + destruct Hcase as [-> _]. rewrite om_find_put_ne in Hf' by lia. destruct (Ho f' Hf') as (H1 & H2 & H3).
      split_and!; [done|done|]. rewrite H3, Hsame; [done|]. destruct (Hf _ _ Hf') as (Hin' & _ & -> & _).
      intros He. apply path_of_inj in He; [lia|by apply seq_u32, Hd|by apply seq_u32].
Qed.

Lemma register_run done w s q :
  loading done w s -> q ∈ qs -> q ∉ done -> old q = false ->
  exists w' s', registerLogFile (path_of dir q) q (w, s) = (inr tt, (w', s')) /\ loading (q :: done) w' s'.
Proof using os_ok Hdisk.
  intros Hl Hq Hnew Hold. pose proof Hl as [Hw Hd Hp Hr Hs Hf Hh Hc Hm Hn Ho Hi]. destruct (od_range _ _ _ _ _ _ Hdisk q Hq) as [Hq1 Hq2].
  unfold registerLogFile. erewrite bind_run by (unfold sworld, now; reflexivity).
  erewrite bind_run by (unfold supdate, modify; reflexivity).
  destruct (stamp_run q (tock w) s (TransactionLogFile_new (path_of dir q) q (os_clock (w_tick w))))
    as (w1 & f1 & Hst & Hw1 & Hn1); [by split_and!|].
  rewrite (bind_run _ _ _ _ _ Hst). unfold store, supdate. mrun.
  cbn [s_currentSequenceNumber set_s_sequenceFiles].
  assert (Hcw : contents (path_of dir q) w = contents (path_of dir q) w0) by (apply (sf_kept _ _ Hw); [by apply seq_u32|done]).
  assert (Hcw1 : contents (path_of dir q) w1 = contents (path_of dir q) w0) by (rewrite <- Hcw; unfold contents; by rewrite Hw1).
  assert (Hseen : forall w', (forall p, p <> path_of dir q -> w_files w' !! p = w_files w1 !! p) ->
    contents (path_of dir q) w' = contents (path_of dir q) w0 ->
    seen_files (q :: done) w' /\ forall p, p <> path_of dir q -> contents p w' = contents p w).
  { intros w' H1 H2. split.
    - apply (seen_next done w); try done; [|by rewrite Hold]. intros p Hne. by rewrite H1, Hw1.
    - intros p Hne. unfold contents. by rewrite H1, Hw1. }
  destruct (Z.leb_spec (s_currentSequenceNumber s) q) as [Hle|Hgt].
  - destruct (open_run q w1 s f1 Hcw1 Hq Hn1) as (w2 & f2 & -> & Hw2 & Hc2 & H1 & H2 & H3 & H4 & H5).
    destruct (Hseen w2 Hw2 Hc2) as [Hs2 Hs2'].
    unfold with_file, file. mrun. cbn -[om_find om_put u32]. rewrite om_find_put_eq, om_put_put.
    rewrite (u32_small (q + 1)) by (unfold is_u32; lia).
    exists w2, (set_s_nextSequenceNumber (q + 1) (set_s_nextLogPosition (mkPos (f_size f2) q)
      (set_s_currentSequenceNumber q (set_s_sequenceFiles (om_put q f2 (s_sequenceFiles s)) s)))).
    split; [|eapply (loading_put done w w2 s q f2 q (q + 1)); try done].
    + cbn [s_nextSequenceNumber set_s_nextLogPosition set_s_sequenceFiles set_s_currentSequenceNumber].
      destruct (Z.leb_spec (s_nextSequenceNumber s) q); [done|].
      assert (q + 1 = s_nextSequenceNumber s) as -> by lia. done.
    + by destruct (Z.leb_spec (s_currentSequenceNumber s) q); [split_and!|lia].
  - cbn -[om_find om_put u32]. destruct Hn1 as (H1 & H2 & H3). destruct (Hseen w1 (fun _ _ => eq_refl) Hcw1) as [Hs1 Hs1'].
    destruct (Z.leb_spec (s_nextSequenceNumber s) q); [lia|]. eexists w1, _. split; [done|].
    assert (set_s_sequenceFiles (om_put q f1 (s_sequenceFiles s)) s =
      set_s_nextSequenceNumber (s_nextSequenceNumber s) (set_s_nextLogPosition (s_nextLogPosition s)
        (set_s_currentSequenceNumber (s_currentSequenceNumber s) (set_s_sequenceFiles (om_put q f1 (s_sequenceFiles s)) s)))) as -> by (by destruct s).
    eapply (loading_put done w w1 s q f1); try done.
    by destruct (Z.leb_spec (s_currentSequenceNumber s) q); [lia|].
Qed.

(** The age of a file that was not looked at yet. *)
Lemma age_run done w s q :
  loading done w s -> q ∈ qs -> q ∉ done ->
  exists w', (if 0 <? retentionMs return M (World * Store) bool then
      mtime ← sworld (fs_mtime (path_of dir q)); t ← sworld now; mret (0 <? to_ms (t - mtime) - retentionMs)
    else mret false) (w, s) = (inr (old q), (w', s)) /\ w_files w' = w_files w.
Proof using os_ok Hdisk Hage.
  intros Hl Hq Hnew. pose proof (sf_fresh _ _ (ld_world _ _ _ Hl) q Hq Hnew) as Hf.
  destruct (w_files w0 !! path_of dir q) as [i|] eqn:Hi.
  2:{ pose proof (od_file _ _ _ _ _ _ Hdisk q Hq) as Hc. unfold contents in Hc. rewrite Hi in Hc. discriminate Hc. }
  pose proof (Hage q i Hq Hi) as Ha. destruct (0 <? retentionMs) eqn:Er.
  - unfold sworld, fs_mtime, now. mrun. rewrite (sys_ok os_ok). cbn [tock w_files]. rewrite Hf.
    exists (tock (tock w)). split; [|reflexivity]. cbn. rewrite <- (Ha (S (w_tick w))), Er. done.
  - exists w. rewrite <- (Ha O), Er. done.
Qed.

(** An expired file is removed. *)
Lemma remove_run done w w1 s q :
  loading done w s -> q ∈ qs -> q ∉ done -> old q = true -> w_files w1 = w_files w ->
  exists w', sworld (fs_remove (path_of dir q)) (w1, s) = (inr true, (w', s)) /\ loading (q :: done) w' s.
Proof using os_ok Hdisk.
  intros [Hw Hd Hp Hr Hs Hf Hh Hc Hm Hn Ho Hi] Hq Hnew Hold Hw1.
  assert (Hex : exists w', fs_remove (path_of dir q) w1 = (inr true, w') /\ w_files w' = delete (path_of dir q) (w_files w)).
  { destruct (w_files w !! path_of dir q) as [i|] eqn:Ei.
    2:{ rewrite (sf_fresh _ _ Hw q Hq Hnew) in Ei. pose proof (od_file _ _ _ _ _ _ Hdisk q Hq) as Hc'. unfold contents in Hc'. rewrite Ei in Hc'. discriminate Hc'. }
    unfold fs_remove, get, modify. mrun. rewrite (sys_ok os_ok). cbn [tock w_files]. rewrite Hw1, Ei. eexists. split; [reflexivity|]. by cbn; rewrite Hw1. }
  destruct Hex as (w' & Hrun & Hdel). exists w'. split; [unfold sworld; by rewrite Hrun|].
  assert (Hsame : forall p, p <> path_of dir q -> w_files w' !! p = w_files w !! p) by (intros p Hne; rewrite Hdel, lookup_delete_ne; done).
  constructor; try done.
  - apply (seen_next done w); try done. rewrite Hold. unfold contents. by rewrite Hdel, lookup_delete_eq.
  - intros q' [->|Hq']%elem_of_cons; auto.
  - intros q' f Hf'. destruct (Hf q' f Hf') as (? & ? & ? & ?). split_and!; [by right|done..].
  - intros q' [->|Hq']%elem_of_cons Hold'; [congruence|auto].
  - destruct Hc as [[Hc Hc']|[Hc Hc']]; [left|right; split; [by right|done]]. split; [|done]. intros q' [->|Hq']%elem_of_cons; auto.
  - intros q' [->|Hq']%elem_of_cons Hold'; [congruence|auto].
  - intros f Hf'. destruct (Ho f Hf') as (H1 & H2 & H3). split_and!; [done|done|]. rewrite H3. unfold contents. rewrite Hsame; [done|].
    destruct (Hf _ _ Hf') as (Hin & Hk & -> & _). intros He. apply path_of_inj in He; [congruence|by apply seq_u32, Hd|by apply seq_u32].
Qed.

(** An entry of the listing is a file of [qs] or no log. *)
Definition entry_ok (e : dirent) : Prop :=
  (exists q, q ∈ qs /\ e = mkDirent (log_name q) true) \/ de_regular e && String.eqb (extension (de_name e)) ".txnlog" = false.

Lemma log_name_inj q q' : is_u32 q -> is_u32 q' -> log_name q = log_name q' -> q = q'.
Proof using dir. intros Hq Hq' He. apply path_of_inj; [done|done|]. unfold path_of, log_name in *. by rewrite He. Qed.

(** One entry of the listing. *)
Lemma load_entry_run done w s e :
  loading done w s -> entry_ok e -> (forall q, q ∈ done -> e <> mkDirent (log_name q) true) ->
  exists done' w' s', load_entry e (w, s) = (inr tt, (w', s')) /\ loading done' w' s' /\
    (forall q, q ∈ done' <-> q ∈ done \/ q ∈ qs /\ e = mkDirent (log_name q) true).
Proof using os_ok Hdisk Hage.
  intros Hl [(q & Hq & ->)|Hno] Hnew; unfold load_entry, store; mrun.
  - destruct (od_range _ _ _ _ _ _ Hdisk q Hq) as [Hq1 Hq2]. pose proof (seq_u32 q Hq) as Hu.
    assert (Hnd : q ∉ done) by (intros Hin; exact (Hnew q Hin eq_refl)).
    destruct (log_name_parses q Hu) as [He Hn]. fold (log_name q) in He, Hn.
    cbn [de_name de_regular]. rewrite He, Hn, String.eqb_refl. cbn [andb].
    rewrite (ld_keep _ _ _ Hl), (u32_small q Hu), (ld_path _ _ _ Hl). change (dir +:+ "/" +:+ log_name q) with (path_of dir q).
    destruct (age_run done w s q Hl Hq Hnd) as (w1 & Hage1 & Hw1).
    mrun in Hage1. rewrite Hage1.
    cbv beta iota.
    assert (Hmem : forall q', q' ∈ q :: done <-> q' ∈ done \/ q' ∈ qs /\ mkDirent (log_name q) true = mkDirent (log_name q') true).
    { intros q'. rewrite elem_of_cons. split; [intros [->|]; auto|]. intros [|[Hq' [= He']]]; [auto|]. left. symmetry. by apply log_name_inj; [|apply seq_u32|]. }
    destruct (old q) eqn:Hold.
    + destruct (remove_run done w w1 s q Hl Hq Hnd Hold Hw1) as (w' & Hrun & Hl'). rewrite Hrun. by exists (q :: done), w', s.
    + assert (Hl1 : loading done w1 s).
      { destruct Hl as [[S1 S2 S3] ?]. constructor; try done.
        - constructor; unfold contents in *; rewrite Hw1; done.
        - unfold contents in *. by rewrite Hw1. }
      destruct (register_run done w1 s q Hl1 Hq Hnd Hold) as (w' & s' & -> & Hl'). by exists (q :: done), w', s'.
  - rewrite Hno. exists done, w, s. split_and!; [done|done|]. intros q. split; [auto|]. intros [|[Hq ->]]; [done|].
    destruct (log_name_parses q (seq_u32 q Hq)) as [He _]. fold (log_name q) in He.
    cbn [de_name de_regular] in Hno. rewrite He, String.eqb_refl in Hno. done.
Qed.

Lemma load_loop_run entries done w s :
  loading done w s -> Forall entry_ok entries -> NoDup entries -> (forall q, q ∈ done -> mkDirent (log_name q) true ∉ entries) ->
  exists done' w' s', for_each entries load_entry (w, s) = (inr tt, (w', s')) /\ loading done' w' s' /\
    (forall q, q ∈ done' <-> q ∈ done \/ q ∈ qs /\ mkDirent (log_name q) true ∈ entries).
Proof using os_ok Hdisk Hage.
  intros Hl Hall. revert done w s Hl. induction Hall as [|e entries He _ IH]; intros done w s Hl Hnd Hnew.
  { exists done, w, s. split_and!; [done|done|]. intros q. split; [auto|]. intros [|[_ ?%elem_of_nil]]; done. }
  apply NoDup_cons in Hnd as [Hne Hnd].
  cbn [for_each]. destruct (load_entry_run done w s e Hl He) as (d1 & w1 & s1 & H1 & Hl1 & Hd1).
  { intros q Hin ->. apply (Hnew q Hin). left. }
  rewrite (bind_run _ _ _ _ _ H1).
  destruct (IH d1 w1 s1 Hl1 Hnd) as (d2 & w2 & s2 & H2 & Hl2 & Hd2).
  { intros q [Hin|[_ ->]]%Hd1; [|done]. intros Hin'. apply (Hnew q Hin). by right. }
  exists d2, w2, s2. split_and!; [done|done|]. intros q. rewrite Hd2, Hd1, elem_of_cons. naive_solver.
Qed.

(** ** The end of [load] *)

Variables (m : Z) (fr : frame) (j : nat).
Hypothesis Hm : m ∈ qs.
Hypothesis Hkept : old m = false.
Hypothesis Hmax : forall q, q ∈ qs -> old q = false -> q <= m.
Hypothesis Htail : forall q, q ∈ qs -> old q = false -> tail q = if q =? m then take j (encode_frame fr) else [].
Hypothesis Hwf : Forall wf_frame (F m).
Hypothesis Hfr : wf_frame fr.
Hypothesis Hj : (j < length (encode_frame fr))%nat.
Hypothesis Hres : (13 <= j)%nat -> ~ resumes (contents (path_of dir m) w0)
  (Z.of_nat (length (header_bytes (T m) ++ encode_frames (F m))) + 1) (Z.of_nat (length (contents (path_of dir m) w0))).

(** The store [load] builds: the files that are not expired; the others are gone. *)
Definition reloaded (w : World) (s : Store) : Prop :=
  store_inv (retained old F) w s /\ s_path s = dir /\
  (forall q, q ∈ (s_sequenceFiles s).*1 <-> q ∈ qs /\ old q = false) /\
  (forall q, q ∈ qs -> old q = true -> contents (path_of dir q) w = []) /\
  s_currentSequenceNumber s = m /\ s_nextSequenceNumber s = m + 1 /\
  s_nextLogPosition s = mkPos (Z.of_nat (length (header_bytes (T m) ++ encode_frames (F m)))) m /\
  s_uncommitted s = [s_nextLogPosition s].

Lemma loading_current done w s :
  loading done w s -> (forall q, q ∈ done <-> q ∈ qs) -> s_currentSequenceNumber s = m.
Proof using Hm Hkept Hmax.
  intros Hl Hd. pose proof (ld_max _ _ _ Hl m (proj2 (Hd m) Hm) Hkept) as Hge.
  destruct (ld_current _ _ _ Hl) as [[Hno _]|[Hin Hold]]; [rewrite (Hno m (proj2 (Hd m) Hm)) in Hkept; discriminate Hkept|].
  pose proof (Hmax _ (proj1 (Hd _) Hin) Hold) as Hle. clear -Hge Hle. lia.
Qed.

(** The files of the store after the tail of the newest one was repaired. *)
Lemma loaded_inv done w s w' f' pos unc :
  loading done w s -> (forall q, q ∈ done <-> q ∈ qs) ->
  (forall p, p <> path_of dir m -> w_files w' !! p = w_files w !! p) ->
  f_path f' = path_of dir m -> f_version f' = 1 -> f_open f' = true -> log_image w' f' (F m) ->
  store_inv (retained old F) w' (set_s_uncommitted unc (set_s_nextLogPosition pos (set_s_sequenceFiles (om_put m f' (s_sequenceFiles s)) s))).
Proof using os_ok Hdisk Hm Hkept Hmax Htail Hj Hres.
  intros Hl Hd Hw' Hp Hv Ho Himg. pose proof (loading_current done w s Hl Hd) as Hc.
  assert (Hcont : forall q, is_u32 q -> q <> m -> contents (path_of dir q) w' = contents (path_of dir q) w).
  { intros q Hq Hne. unfold contents. rewrite Hw'; [done|].
    intros Heq. apply path_of_inj in Heq; [done|done|by apply seq_u32]. }
  assert (Hlp : forall q, log_path (set_s_uncommitted unc (set_s_nextLogPosition pos (set_s_sequenceFiles (om_put m f' (s_sequenceFiles s)) s))) q = path_of dir q).
  { intros q. unfold log_path, path_of. cbn [s_path set_s_uncommitted set_s_nextLogPosition set_s_sequenceFiles]. by rewrite (ld_path _ _ _ Hl). }
  destruct (od_range _ _ _ _ _ _ Hdisk m Hm) as [Hm1 Hm2].
  constructor; try setoid_rewrite Hlp;
    cbn [s_sequenceFiles s_currentSequenceNumber s_nextSequenceNumber set_s_uncommitted set_s_nextLogPosition set_s_sequenceFiles];
    rewrite ?Hc.
  - apply om_sorted_put, Hl.
  - intros q f Hf. destruct (Z.eq_dec q m) as [->|Hne].
    + rewrite om_find_put_eq in Hf. injection Hf as <-. unfold retained. rewrite Hkept. split_and!; [done|done|lia|lia|].
      rewrite <- Hp. by apply log_image_holds.
    + rewrite om_find_put_ne in Hf by congruence. destruct (ld_file _ _ _ Hl q f Hf) as (Hin & Hold & Hfp & Hfv).
      apply Hd in Hin. pose proof (Hmax q Hin Hold). destruct (od_range _ _ _ _ _ _ Hdisk q Hin).
      unfold retained. rewrite Hold. split_and!; [done|done|lia|lia|]. left. exists (T q).
      rewrite Hcont by (done || by apply seq_u32). rewrite (sf_kept _ _ (ld_world _ _ _ Hl)) by (done || by apply seq_u32).
      rewrite (od_file _ _ _ _ _ _ Hdisk q Hin), (Htail q Hin Hold).
      destruct (Z.eqb_spec q m); [done|]. by rewrite app_nil_r.
  - intros f Hf. rewrite om_find_put_eq in Hf. injection Hf as <-. unfold retained. rewrite Hkept. by left.
  - intros q Hq. destruct (Z.eq_dec q m) as [->|Hne]; [by rewrite om_find_put_eq in Hq|].
    rewrite om_find_put_ne in Hq by congruence. unfold retained. destruct (old q) eqn:Hold; [done|].
    apply (od_none _ _ _ _ _ _ Hdisk). intros Hin%Hd. destruct (ld_have _ _ _ Hl q Hin Hold) as [f Hf]. congruence.
  - by rewrite om_find_put_eq.
  - intros q Hq Hu. rewrite (ld_next _ _ _ Hl), Hc in Hq. rewrite Hcont by (done || lia).
    destruct (decide (q ∈ qs)) as [Hin|Hin].
    + destruct (old q) eqn:Hold; [by apply (sf_gone _ _ (ld_world _ _ _ Hl)); [apply Hd|]|]. pose proof (Hmax q Hin Hold). lia.
    + rewrite (sf_kept _ _ (ld_world _ _ _ Hl)); [by apply (od_other _ _ _ _ _ _ Hdisk)|done|]. intros Hq'%Hd. done.
  - rewrite (ld_next _ _ _ Hl), Hc. lia.
Qed.

Lemma load_files_run entries w s :
  loading [] w s -> lists qs entries ->
  exists w' s', load_files entries (w, s) = (inr tt, (w', s')) /\ reloaded w' s'.
Proof using os_ok Hdisk Hage Hm Hkept Hmax Htail Hwf Hfr Hj Hres.
  intros Hl (Hnd & Hall & Hcov). unfold load_files.
  assert (Hsys : sworld sys (w, s) = (inr true, (tock w, s))) by (unfold sworld; by rewrite (sys_ok os_ok)).
  rewrite (bind_run _ _ _ _ _ Hsys).
  assert (Hl' : loading [] (tock w) s) by (destruct Hl as [[? ? ?] ?]; by constructor).
  destruct (load_loop_run entries [] (tock w) s Hl' Hall Hnd) as (d & w1 & s1 & H1 & Hl1 & Hd1);
    [by intros q ?%elem_of_nil|].
  assert (Hd : forall q, q ∈ d <-> q ∈ qs).
  { intros q. rewrite Hd1. split; [intros [?%elem_of_nil|[? _]]; done|]. intros Hq. right. auto. }
  unfold when at 1. rewrite (bind_run _ _ _ _ _ H1). pose proof (loading_current d w1 s1 Hl1 Hd) as Hc.
  destruct (ld_have _ _ _ Hl1 m (proj2 (Hd m) Hm) Hkept) as [f Hf]. unfold store. mrun. rewrite Hc, Hf.
  destruct (od_range _ _ _ _ _ _ Hdisk m Hm) as [Hm1 Hm2].
  destruct (ld_file _ _ _ Hl1 m f Hf) as (_ & _ & Hfp & Hfv). pose proof (ld_open _ _ _ Hl1) as Hop. rewrite Hc in Hop.
  destruct (Hop f Hf) as (Ho & Ht & Hsz).
  assert (Hcw : contents (path_of dir m) w1 = contents (path_of dir m) w0)
    by (apply (sf_kept _ _ (ld_world _ _ _ Hl1)); [by apply seq_u32|done]).
  assert (Hcm : contents (f_path f) w1 = header_bytes (f_timestamp f) ++ encode_frames (F m) ++ take j (encode_frame fr)).
  { rewrite Hfp, Hcw, (od_file _ _ _ _ _ _ Hdisk m Hm), (Htail m Hm Hkept), Z.eqb_refl, Ht. done. }
  destruct (recover_torn os_ok (F m) fr j w1 f Hcm Hfv Ho Hwf Hfr Hj Hsz) as (w2 & f2 & Hrec & G1 & G2 & G3 & G4 & G5 & G6).
  { rewrite Hsz, Hfp, Hcw. by apply (od_size _ _ _ _ _ _ Hdisk). }
  destruct G6 as [Himg|(_ & Hj13 & Hbad)].
  2:{ exfalso. apply (Hres Hj13). by rewrite Hfp, Hcw, Ht in Hbad. }
  assert ((0 <? m) && bool_decide (is_Some (Some f)) = true) as -> by (rewrite bool_decide_true by done; lia).
  assert (Heo : ensure_open m (w1, s1) = (inr tt, (w1, s1))).
  { unfold ensure_open, store, with_file, file. mrun. rewrite Hf, Ho, om_put_same by (done || apply Hl1). by destruct s1. }
  rewrite Heo. unfold with_file at 1. rewrite Hf, Hrec.
  unfold with_file, file, supdate. mrun. cbn -[om_find om_put positionInsert]. rewrite om_find_put_eq, om_put_put.
  cbn [s_uncommitted s_nextLogPosition set_s_nextLogPosition set_s_sequenceFiles]. rewrite (ld_idle _ _ _ Hl1). cbn [positionInsert].
  assert (Hsz2 : f_size f2 = Z.of_nat (length (header_bytes (T m) ++ encode_frames (F m)))).
  { destruct Himg as (Hi1 & -> & _). by rewrite Hi1, G2, Ht. }
  eexists w2, _. split; [reflexivity|]. rewrite Hfp in G1, G5. split_and!; cbn -[om_find om_put].
  - by apply (loaded_inv d w1 s1 w2 f2).
  - apply Hl1.
  - intros q. rewrite om_keys_put, om_keys_find. split.
    + intros [->|[g Hg]]; [done|]. destruct (ld_file _ _ _ Hl1 q g Hg) as (Hin & Hold & _). by split; [apply Hd|].
    + intros [Hq%Hd Hold]. right. by apply (ld_have _ _ _ Hl1).
  - intros q Hq Hold. unfold contents. rewrite G5.
    + by apply (sf_gone _ _ (ld_world _ _ _ Hl1)); [apply Hd|].
    + intros He. apply path_of_inj in He; [congruence|by apply seq_u32..].
  - done.
  - by rewrite (ld_next _ _ _ Hl1), Hc.
  - by rewrite Hsz2.
  - done.
Qed.
End Load.

(** ** Properties *)

Lemma start_loading {OS : Os} dir maxFileSize retentionMs thr qs T old w :
  loading dir qs T w retentionMs old [] w (Store_new (filename dir) dir maxFileSize retentionMs thr).
Proof.
  constructor; try done; try (by intros q ?%elem_of_nil); try (by constructor).
  - constructor; [done|by intros q ?%elem_of_nil|done].
  - left. split; [by intros q ?%elem_of_nil|done].
Qed.

(** C2: a crash loses no complete entry that is within the retention.  When the
    directory holds a log in every file [qs], of which [old] says those that are
    expired (none when [retentionMs] is 0), and the newest file that is not, [m], is
    cut inside a frame or between two, [load] finds the store again whatever the order
    of the listing and whatever else it lists: every file that is not expired is
    registered, the newest of them is current and holds exactly its complete frames,
    the expired files are gone, the next sequence number is fresh, and the next write
    starts at the end of the last complete frame.  (The one tail it leaves alone is a
    cut whose payload bytes frame as log data again.)  System calls do not fail, and
    no file passes the age limit while [load] runs. *)
Theorem load_restores {OS : Os} dir maxFileSize retentionMs thr entries qs old T F tail m fr j w :
  (forall n, os_fails n = false) -> skipped (filename dir) = false ->
  on_disk dir qs T F tail w -> ages retentionMs dir qs old w -> lists qs entries ->
  m ∈ qs -> old m = false -> (forall q, q ∈ qs -> old q = false -> q <= m) ->
  (forall q, q ∈ qs -> old q = false -> tail q = if q =? m then take j (encode_frame fr) else []) ->
  Forall wf_frame (F m) -> wf_frame fr -> (j < length (encode_frame fr))%nat ->
  ((13 <= j)%nat -> ~ resumes (contents (path_of dir m) w)
      (Z.of_nat (length (header_bytes (T m) ++ encode_frames (F m))) + 1)
      (Z.of_nat (length (contents (path_of dir m) w)))) ->
  exists w' s', load dir maxFileSize retentionMs thr entries w = (inr (Some s'), w') /\
    reloaded dir qs T F old m w' s'.
Proof.
  intros Hok Hskip Hdisk Hage Hlist Hm Hk Hmax Htail Hwf Hfr Hj Hres. unfold load. rewrite Hskip.
  destruct (load_files_run Hok dir qs T F tail w retentionMs old Hdisk Hage m fr j Hm Hk Hmax Htail Hwf Hfr Hj Hres entries w
    (Store_new (filename dir) dir maxFileSize retentionMs thr)) as (w' & s' & -> & Hr).
  { apply start_loading. }
  { done. }
  by exists w', s'.
Qed.

Lemma retained_log F old (l : list Z) : mjoin (retained old F <$> l) = mjoin (F <$> filter (fun q => old q = false) l).
Proof.
  induction l as [|q l IH]; [done|]. rewrite filter_cons, fmap_cons. change (mjoin (retained old F q :: (retained old F <$> l))) with (retained old F q ++ mjoin (retained old F <$> l)).
  rewrite IH. unfold retained at 1. destruct (old q) eqn:E; [by rewrite decide_False by congruence|by rewrite decide_True].
Qed.

Lemma filter_keys (l l' : list Z) old :
  StronglySorted Z.lt l -> StronglySorted Z.lt l' -> (forall q, q ∈ l' <-> q ∈ l /\ old q = false) ->
  filter (fun q => old q = false) l = l'.
Proof.
  intros Hl Hl' Heq. apply sorted_keys_eq; [|done|].
  - clear Heq Hl'. induction Hl as [|x l Hl IH Hx]; [constructor|]. rewrite filter_cons. case_decide; [|done]. constructor; [done|].
    rewrite Forall_forall in *. intros y [_ Hy]%list_elem_of_filter. by apply Hx.
  - intros q. rewrite list_elem_of_filter, Heq. tauto.
Qed.

(** C3: the abstract log survives a restart.  A store that held [store_log F s]
    when the process stopped is loaded as a store with the same frames in the same
    order, less those of the files that are expired ([retained]; with [retentionMs] 0
    all of them): the files on disk and the frames of its files are all the state
    there is.  System calls do not fail, and no file passes the age limit while [load]
    runs. *)
Theorem load_same_log {OS : Os} dir maxFileSize retentionMs thr entries old T F m w s :
  (forall n, os_fails n = false) -> skipped (filename dir) = false ->
  store_inv F w s -> let qs := (s_sequenceFiles s).*1 in
  on_disk dir qs T F (fun _ => []) w -> ages retentionMs dir qs old w -> lists qs entries ->
  m ∈ qs -> old m = false -> (forall q, q ∈ qs -> old q = false -> q <= m) ->
  Forall wf_frame (F m) ->
  exists w' s', load dir maxFileSize retentionMs thr entries w = (inr (Some s'), w') /\
    store_inv (retained old F) w' s' /\ store_log (retained old F) s' = store_log (retained old F) s /\
    ((forall q, q ∈ qs -> old q = false) -> store_log (retained old F) s' = store_log F s).
Proof.
  intros Hok Hskip Hinv qs Hdisk Hage Hlist Hm Hk Hmax Hwf. unfold load. rewrite Hskip.
  set (fr := mkFrame 7 1 [Byte.x61]).
  destruct (load_files_run Hok dir qs T F (fun _ => []) w retentionMs old Hdisk Hage m fr 0 Hm Hk Hmax) with
    (entries := entries) (w := w) (s := Store_new (filename dir) dir maxFileSize retentionMs thr) as (w' & s' & -> & Hr).
  - intros q _ _. by destruct (q =? m).
  - done.
  - vm_compute. intuition (congruence || discriminate).
  - vm_compute. lia.
  - lia.
  - apply start_loading.
  - done.
  - destruct Hr as (Hinv' & _ & Hkeys & _). exists w', s'.
    assert (Hlog : store_log (retained old F) s' = store_log (retained old F) s).
    { unfold store_log. rewrite !retained_log. f_equal. f_equal.
      rewrite (filter_keys _ _ old (si_sorted _ _ _ Hinv) (si_sorted _ _ _ Hinv') Hkeys).
      apply filter_keys; [apply Hinv'..|]. intros q. rewrite Hkeys. tauto. }
    split_and!; [done|done|done|]. intros Hall. rewrite Hlog. unfold store_log. rewrite retained_log. f_equal. f_equal.
    apply filter_keys; [apply Hinv..|]. intros q. specialize (Hall q). fold qs. tauto.
Qed.

(** Three files, at 10 ms, with a retention of 4 ms: the newest and the oldest one are
    expired, the one between them has a torn tail. *)
Lemma load_restores_witness :
  let dir := "db/foo" in
  let fr := mkFrame 7 1 [Byte.x61] in
  let w := mkWorld {["db/foo/1.txnlog" := mkInode (header_bytes 1 ++ encode_frames [fr]) 0;
                     "db/foo/2.txnlog" := mkInode (header_bytes 2 ++ encode_frames [fr] ++ take 5 (encode_frame fr)) 9000000;
                     "db/foo/3.txnlog" := mkInode (header_bytes 3) 0]} ∅ ∅ 0 [] 0 in
  exists w' s', load (OS := os_reliable 10000000) dir 100 4 (S754_zero false)
      [mkDirent "2.txnlog" true; mkDirent "3.txnlog" true; mkDirent "txn.state" true; mkDirent "1.txnlog" true] w = (inr (Some s'), w') /\
    s_nextLogPosition s' = mkPos 27 2 /\ contents (path_of dir 1) w' = [].
Proof.
  intros dir fr w.
  assert (Hin : forall q : Z, q ∈ [2; 3; 1] -> q = 2 \/ q = 3 \/ q = 1) by set_solver.
  assert (Hin1 : 1 ∈ [2; 3; 1]) by set_solver.
  assert (Hwf : wf_frame fr) by (vm_compute; intuition (congruence || discriminate)).
  destruct (load_restores (OS := os_reliable 10000000) dir 100 4 (S754_zero false)
    [mkDirent "2.txnlog" true; mkDirent "3.txnlog" true; mkDirent "txn.state" true; mkDirent "1.txnlog" true] [2; 3; 1] (fun q => negb (q =? 2)) (fun q => q)
    (fun q => if (q =? 1) || (q =? 2) then [fr] else []) (fun q => if q =? 2 then take 5 (encode_frame fr) else []) 2 fr 5 w)
    as (w' & s' & H & (_ & _ & _ & Hgone & _ & _ & Hp & _)).
  - done.
  - done.
  - constructor.
    + intros q [->|[->| ->]]%Hin; vm_compute; reflexivity.
    + intros q [->|[->| ->]]%Hin; vm_compute; intuition discriminate.
    + intros q [->|[->| ->]]%Hin; vm_compute; intuition discriminate.
    + intros q Hq Hne. unfold contents, w. cbn [w_files].
      rewrite lookup_insert_ne; [rewrite lookup_insert_ne; [rewrite lookup_singleton_ne; [done|]|]|]; intros He; apply Hne.
      * apply (path_of_inj dir 3 q) in He; [rewrite <- He; set_solver|unfold is_u32; lia|done].
      * apply (path_of_inj dir 2 q) in He; [rewrite <- He; set_solver|unfold is_u32; lia|done].
      * apply (path_of_inj dir 1 q) in He; [rewrite <- He; set_solver|unfold is_u32; lia|done].
    + intros q Hq. destruct (Z.eqb_spec q 1) as [->|]; [set_solver|]. destruct (Z.eqb_spec q 2) as [->|]; [set_solver|done].
    + intros q [->|[->| ->]]%Hin; split; done.
  - intros q i [->|[->| ->]]%Hin Hi n; vm_compute in Hi; injection Hi as <-; reflexivity.
  - split; [repeat constructor; set_solver|]. split.
    + apply Forall_cons; split; [left; exists 2; split; [set_solver|reflexivity]|].
      apply Forall_cons; split; [left; exists 3; split; [set_solver|reflexivity]|].
      apply Forall_cons; split; [right; reflexivity|].
      apply Forall_cons; split; [left; exists 1; split; [set_solver|reflexivity]|constructor].
    + intros q [->|[->| ->]]%Hin; change (log_name 2) with "2.txnlog"; change (log_name 1) with "1.txnlog"; change (log_name 3) with "3.txnlog"; set_solver.
  - set_solver.
  - reflexivity.
  - intros q [->|[->| ->]]%Hin Hq; [apply Z.le_refl|discriminate Hq|discriminate].
  - intros q [->|[->| ->]]%Hin Hq; [reflexivity|discriminate Hq|reflexivity].
  - exact (Forall_cons_2 _ _ _ Hwf (Forall_nil_2 _)).
  - exact Hwf.
  - vm_compute. lia.
  - lia.
  - exists w', s'. split; [exact H|]. split; [exact Hp|]. exact (Hgone 1 Hin1 eq_refl).
Defined.

(** A store of one file with one frame. *)
Definition one_frame : frame := mkFrame 7 1 [Byte.x61].
Definition one_log (q : Z) : list frame := if q =? 1 then [one_frame] else [].
Definition one_world : World :=
  mkWorld {["db/foo/1.txnlog" := mkInode (header_bytes 7 ++ encode_frames [one_frame]) 0]} ∅ ∅ 0 [] 0.
Definition one_store : Store :=
  set_s_sequenceFiles [(1, mkFile "db/foo/1.txnlog" 1 true 1 7 27 0 0 None None 0 [] 5 true)]
    (Store_new "foo" "db/foo" 100 0 (S754_zero false)).

Lemma one_other q : is_u32 q -> q <> 1 -> contents (path_of "db/foo" q) one_world = [].
Proof.
  intros Hq Hne. unfold contents, one_world. cbn [w_files]. rewrite lookup_singleton_ne; [done|].
  intros He. apply Hne. symmetry. apply (path_of_inj "db/foo" 1 q); [unfold is_u32; lia|done|done].
Qed.

Lemma one_store_inv : store_inv one_log one_world one_store.
Proof.
  assert (Hi : log_image one_world (mkFile "db/foo/1.txnlog" 1 true 1 7 27 0 0 None None 0 [] 5 true) [one_frame]).
  { split; [vm_compute; reflexivity|]. split; [vm_compute; reflexivity|]. vm_compute. intuition discriminate. }
  constructor; cbn [s_sequenceFiles s_currentSequenceNumber s_nextSequenceNumber one_store set_s_sequenceFiles Store_new om_find].
  - repeat constructor.
  - intros q f. destruct (Z.eqb_spec q 1) as [->|]; [|done]. intros [= <-]. split_and!; [done|done|lia|lia|].
    exact (log_image_holds _ _ _ Hi).
  - intros f [= <-]. by left.
  - intros q. unfold one_log. by destruct (q =? 1).
  - done.
  - intros q Hq Hu. apply one_other; [done|lia].
  - lia.
Qed.

Lemma load_same_log_witness :
  exists w' s', load (OS := os_reliable 0) "db/foo" 100 259200000 (S754_zero false) [mkDirent "1.txnlog" true] one_world
      = (inr (Some s'), w') /\ store_log (retained (fun _ => false) one_log) s' = [one_frame].
Proof.
  assert (Hin : forall q : Z, q ∈ (s_sequenceFiles one_store).*1 -> q = 1) by (cbn; set_solver).
  destruct (load_same_log (OS := os_reliable 0) "db/foo" 100 259200000 (S754_zero false) [mkDirent "1.txnlog" true]
    (fun _ => false) (fun _ => 7) one_log 1 one_world one_store) as (w' & s' & H & _ & _ & Hlog).
  - done.
  - done.
  - exact one_store_inv.
  - constructor.
    + intros q ->%Hin. vm_compute. reflexivity.
    + intros q ->%Hin. vm_compute. intuition discriminate.
    + intros q ->%Hin. vm_compute. intuition discriminate.
    + intros q Hq Hne. apply one_other; [done|]. intros ->. apply Hne. cbn. set_solver.
    + intros q Hne. unfold one_log. destruct (Z.eqb_spec q 1) as [->|]; [|done]. destruct Hne. cbn. set_solver.
    + intros q ->%Hin. split; done.
  - intros q i ->%Hin Hi n. vm_compute in Hi. injection Hi as <-. reflexivity.
  - split; [repeat constructor; set_solver|]. split.
    + apply Forall_cons; split; [left; exists 1; split; [cbn; set_solver|reflexivity]|constructor].
    + intros q ->%Hin. change (log_name 1) with "1.txnlog". set_solver.
  - cbn. set_solver.
  - reflexivity.
  - intros q ->%Hin _. apply Z.le_refl.
  - repeat constructor; vm_compute; intuition (congruence || discriminate).
  - exists w', s'. split; [exact H|]. rewrite Hlog by (intros; reflexivity). vm_compute. reflexivity.
Defined.

(** Two files, of which the first is flushed up to its first frame. *)
Definition two_world : World :=
  mkWorld {["db/foo/1.txnlog" := mkInode (header_bytes 7 ++ encode_frames [one_frame; one_frame]) 0;
            "db/foo/2.txnlog" := mkInode (header_bytes 7 ++ encode_frames [one_frame]) 0;
            "db/foo/txn.state" := mkInode (pos_bytes (mkPos 27 1)) 0]} {["db/foo"]} ∅ 0 [] 0.

(** Load the store from a listing and run a method on it. *)
Definition after_load {A} (m : forall OS : Os, SM A) (names : list string) : option A :=
  let OS := os_reliable 0 in
  match load "db/foo" 100 0 (S754_zero false) ((fun n => mkDirent n true) <$> names) two_world with
  | (inr (Some s), w) => match m OS (w, s) with (inr a, _) => Some a | _ => None end
  | _ => None
  end.

(** Whether a purge keeps unflushed data depends on the order of the directory
    listing.  [registerLogFile] opens a file only when none newer was seen, and an
    unopened file has size 0, so [doPurge] takes it for entirely flushed: listed
    newest first, the file with an unflushed entry is removed; listed oldest first,
    it is kept. *)
Theorem purge_depends_on_listing :
  after_load (fun _ => purge true 0 false) ["1.txnlog"; "2.txnlog"] = Some [] /\
  after_load (fun _ => purge true 0 false) ["2.txnlog"; "1.txnlog"] = Some [("db/foo/1.txnlog", 0)].
Proof. split; vm_compute; reflexivity. Qed.

(** A backup taken after a restart can miss log files.  For the same reason
    [snapshotForBackup] takes a file that was registered but not opened for one
    without a header and leaves it out. *)
Theorem backup_depends_on_listing :
  option_map (List.map relativeName) (after_load (fun _ => snapshotForBackup) ["1.txnlog"; "2.txnlog"]) =
    Some ["1.txnlog"; "2.txnlog"; "txn.state"] /\
  option_map (List.map relativeName) (after_load (fun _ => snapshotForBackup) ["2.txnlog"; "1.txnlog"]) =
    Some ["2.txnlog"; "txn.state"].
Proof. split; vm_compute; reflexivity. Qed.
