(* ===== verification/StoreRegistry.v ===== *)
(** * The registry of log stores ([transaction_log_store_registry.h], [.cpp])

    One registry per process: for each database path the open log stores by name,
    their configuration, and how many descriptors use the path.  Stores live on a
    heap of their own; the registry holds the owning pointers.  [PurgeStores] runs
    in four phases with the locks released in between, so its phases are separate
    definitions. *)

From S2P Require Import Prelude Encoding LogFormat Os LogFile LogStore.
From stdpp Require Import base tactics list gmap strings.
From coqutil Require Import Byte LittleEndianList.
From Stdlib Require Import ZArith Lia.

Local Open Scope Z_scope.

(** ** State *)

Record TransactionLogStoreConfig := mkConfig {
  cf_transactionLogsPath : string;
  cf_transactionLogMaxAgeThreshold : f32;
  cf_transactionLogMaxSize : Z;
  cf_transactionLogRetentionMs : Z;
}.

(** A [std::map] by name, as an association list in the order of the names. *)
Fixpoint names_put {V} (k : string) (v : V) (m : list (string * V)) : list (string * V) :=
  match m with
  | [] => [(k, v)]
  | (q, x) :: rest =>
      if String.eqb k q then (k, v) :: rest
      else if String.ltb k q then (k, v) :: m
      else (q, x) :: names_put k v rest
  end.

Fixpoint names_find {V} (k : string) (m : list (string * V)) : option V :=
  match m with
  | [] => None
  | (q, x) :: rest => if String.eqb k q then Some x else names_find k rest
  end.

Definition names_erase {V} (k : string) (m : list (string * V)) : list (string * V) :=
  filter (fun kv => kv.1 <> k) m.

Record TransactionLogStoreRegistryEntry := mkRegEntry {
  re_stores : list (string * Z);     (* addresses of stores *)
  re_config : TransactionLogStoreConfig;
  re_refCount : Z;                   (* size_t *)
}.

Definition set_re_stores v e := mkRegEntry v (re_config e) (re_refCount e).
Definition set_re_refCount v e := mkRegEntry (re_stores e) (re_config e) v.

(** [rg_instance] is [None] before [Init]; addresses from [rg_next] on are free. *)
Record Registry := mkRegistry {
  rg_world : World;
  rg_stores : gmap Z Store;
  rg_next : Z;
  rg_instance : option (gmap string TransactionLogStoreRegistryEntry);
}.

Definition set_rg_world v g := mkRegistry v (rg_stores g) (rg_next g) (rg_instance g).
Definition set_rg_stores v g := mkRegistry (rg_world g) v (rg_next g) (rg_instance g).
Definition set_rg_next v g := mkRegistry (rg_world g) (rg_stores g) v (rg_instance g).
Definition set_rg_instance v g := mkRegistry (rg_world g) (rg_stores g) (rg_next g) v.

Definition RM (A : Type) : Type := M Registry A.

Definition rworld {A} (m : M World A) : RM A := fun g =>
  let '(r, w') := m (rg_world g) in (r, set_rg_world w' g).

Definition at_store {A} (sid : Z) (m : SM A) : RM A := fun g =>
  match rg_stores g !! sid with
  | None => (inl (OutOfRange "log store"), g)
  | Some s =>
      let '(r, (w', s')) := m (rg_world g, s) in (r, set_rg_stores (<[sid := s']> (rg_stores g)) (set_rg_world w' g))
  end.

(** The entry of a path, when the registry is initialized and has one. *)
Definition find_entry (dbPath : string) : RM (option TransactionLogStoreRegistryEntry) :=
  gets (fun g => entries ← rg_instance g; entries !! dbPath).

Definition put_entry (dbPath : string) (e : TransactionLogStoreRegistryEntry) : RM unit :=
  modify (fun g => set_rg_instance ((fun m => <[dbPath := e]> m) <$> rg_instance g) g).

(** [make_shared<TransactionLogStore>] *)
Definition new_object (s : Store) : RM Z :=
  sid ← gets rg_next;
  modify (fun g => set_rg_next (sid + 1) (set_rg_stores (<[sid := s]> (rg_stores g)) g));;
  mret sid.

(** The last owning pointers to these stores go away. *)
Definition release_objects (sids : list Z) : RM unit :=
  modify (fun g => set_rg_stores (foldr delete (rg_stores g) sids) g).

(** [path / name] for a relative name and a directory without a trailing slash. *)
Definition path_join (dir name : string) : string :=
  if String.eqb dir "" then name else dir +:+ "/" +:+ name.

Section Registry.
Context {OS : Os}.

(** ** Registration *)

Definition Init : RM unit :=
  modify (fun g => match rg_instance g with None => set_rg_instance (Some ∅) g | Some _ => g end).

Definition Register (dbPath : string) (config : TransactionLogStoreConfig) : RM unit :=
  inst ← gets rg_instance;
  match inst with
  | None => mret tt
  | Some entries =>
      match entries !! dbPath with
      | None => put_entry dbPath (mkRegEntry [] config 1)
      | Some e => put_entry dbPath (set_re_refCount (u64 (re_refCount e + 1)) e)
      end
  end.

Definition Unregister (dbPath : string) : RM unit :=
  entry ← find_entry dbPath;
  match entry with
  | None => mret tt
  | Some e =>
      let refCount := u64 (re_refCount e - 1) in
      if refCount =? 0 then
        let storesToClose := (re_stores e).*2 in
        modify (fun g => set_rg_instance ((fun m => delete dbPath m) <$> rg_instance g) g);;
        for_each storesToClose (fun sid => at_store sid LogStore.close);;
        release_objects storesToClose
      else put_entry dbPath (set_re_refCount refCount e)
  end.

(** [paths] is the order in which the entries are visited. *)
Definition Shutdown (paths : list string) : RM unit :=
  inst ← gets rg_instance;
  match inst with
  | None => mret tt
  | Some entries =>
      let all := mjoin ((fun p => from_option (fun e => (re_stores e).*2) [] (entries !! p)) <$> paths) in
      for_each all (fun sid => at_store sid LogStore.close);;
      modify (set_rg_instance (Some ∅));;
      release_objects all
  end.

(** ** Stores of a path *)

(** One directory of [transactionLogsPath]: its path and its listing. *)
Definition discover_dir (config : TransactionLogStoreConfig) (dbPath : string) (dir : string * list dirent) : RM unit :=
  st ← rworld (load dir.1 (cf_transactionLogMaxSize config) (cf_transactionLogRetentionMs config)
                 (cf_transactionLogMaxAgeThreshold config) dir.2);
  match st with
  | None => mret tt
  | Some s =>
      entry ← find_entry dbPath;
      match entry with
      | None => mret tt
      | Some e =>
          (* emplace: an existing store of the name stays and the new one is dropped *)
          match names_find (s_name s) (re_stores e) with
          | Some _ => mret tt
          | None => sid ← new_object s; put_entry dbPath (set_re_stores (names_put (s_name s) sid (re_stores e)) e)
          end
      end
  end.

Definition DiscoverStores (dbPath : string) (dirs : list (string * list dirent)) : RM unit :=
  entry ← find_entry dbPath;
  match entry with
  | None => mret tt
  | Some e =>
      let path := cf_transactionLogsPath (re_config e) in
      if String.eqb path "" then mret tt
      else
        ex ← rworld (fs_exists path);
        when ex (for_each dirs (discover_dir (re_config e) dbPath))
  end.

(** A new store replaces one of the same name in the map. *)
Definition create_store (dbPath name : string) (e : TransactionLogStoreRegistryEntry) : RM (option Z) :=
  let config := re_config e in
  let logDirectory := path_join (cf_transactionLogsPath config) name in
  rworld (tryCreateDirectory logDirectory);;
  sid ← new_object (Store_new name logDirectory (cf_transactionLogMaxSize config)
                      (cf_transactionLogRetentionMs config) (cf_transactionLogMaxAgeThreshold config));
  put_entry dbPath (set_re_stores (names_put name sid (re_stores e)) e);;
  mret (Some sid).

(** The address of the store, [None] for a null pointer. *)
Definition ResolveStore (dbPath name : string) : RM (option Z) :=
  entry ← find_entry dbPath;
  match entry with
  | None => mret None
  | Some e =>
      found ← (match names_find name (re_stores e) with
               | Some sid => closing ← at_store sid (store s_isClosing); mret (if closing : bool then None else Some sid)
               | None => mret None
               end);
      match found with
      | Some sid => mret (Some sid)
      | None => create_store dbPath name e
      end
  end.

(** The names in the order of the map; [GetStores] gives the stores. *)
Definition ListStores (dbPath : string) : RM (list string) :=
  entry ← find_entry dbPath; mret (from_option (fun e => (re_stores e).*1) [] entry).

Definition GetStores (dbPath : string) : RM (list Z) :=
  entry ← find_entry dbPath; mret (from_option (fun e => (re_stores e).*2) [] entry).

Definition Size : RM nat := gets (fun g => from_option size O (rg_instance g)).

(** ** Purging *)

(** Phase 1: the stores to purge. *)
Definition purge_collect (dbPath name : string) : RM (list Z) :=
  entry ← find_entry dbPath;
  match entry with
  | None => mret []
  | Some e => mret (filter (fun kv => name = "" \/ kv.1 = name) (re_stores e)).*2
  end.

(** Phase 2, one store: the files it removed. *)
Definition purge_store (destroy : bool) (before : Z) (counts : bool) (sid : Z) : RM (list (string * Z)) :=
  removed ← at_store sid (purge destroy before counts);
  when destroy (at_store sid tryClose;; mret tt);;
  mret removed.

Fixpoint purge_stores (destroy : bool) (before : Z) (counts : bool) (sids : list Z) : RM (list (string * Z)) :=
  match sids with
  | [] => mret []
  | sid :: rest =>
      removed ← purge_store destroy before counts sid;
      more ← purge_stores destroy before counts rest;
      mret (removed ++ more)
  end.

(** Phase 3, one store: whether it left the map. *)
Definition purge_forget (dbPath : string) (sid : Z) : RM bool :=
  closing ← at_store sid (store s_isClosing);
  if negb closing then mret false
  else
    name ← at_store sid (store s_name);
    entry ← find_entry dbPath;
    match entry with
    | None => mret false
    | Some e =>
        if bool_decide (names_find name (re_stores e) = Some sid)
        then put_entry dbPath (set_re_stores (names_erase name (re_stores e)) e);; mret true
        else mret false
    end.

Fixpoint purge_forget_all (dbPath : string) (sids : list Z) : RM (list Z) :=
  match sids with
  | [] => mret []
  | sid :: rest =>
      b ← purge_forget dbPath sid;
      more ← purge_forget_all dbPath rest;
      mret (if b : bool then sid :: more else more)
  end.

(** Phase 4: the directories of the stores that left; errors are swallowed. *)
Definition purge_remove (sids : list Z) : RM unit :=
  for_each sids (fun sid => p ← at_store sid (store s_path); ok ← rworld sys; when ok (rworld (modify (remove_all p)))).

(** Without interleaving. *)
Definition PurgeStores (dbPath name : string) (destroy : bool) (before : Z) (counts : bool) : RM (list (string * Z)) :=
  sids ← purge_collect dbPath name;
  removed ← purge_stores destroy before counts sids;
  gone ← (if destroy : bool then purge_forget_all dbPath sids else mret []);
  purge_remove gone;;
  release_objects gone;;
  mret removed.

(** ** Cooling *)

Record TransactionLogCoolResult := mkCool { cool_maps : Z; cool_bytes : Z }.

Fixpoint cool_files (unsupported : bool) (pageSize sid : Z) (seqs : list Z) (r : TransactionLogCoolResult)
  : RM TransactionLogCoolResult :=
  match seqs with
  | [] => mret r
  | seq :: rest =>
      bytes ← at_store sid (with_file seq (adviseCold unsupported pageSize));
      cool_files unsupported pageSize sid rest
        (if 0 <? bytes then mkCool (u32 (cool_maps r + 1)) (u64 (cool_bytes r + bytes)) else r)
  end.

Fixpoint cool_stores (unsupported : bool) (pageSize : Z) (sids : list Z) (r : TransactionLogCoolResult)
  : RM TransactionLogCoolResult :=
  match sids with
  | [] => mret r
  | sid :: rest =>
      files ← at_store sid (store s_sequenceFiles);
      r ← cool_files unsupported pageSize sid files.*1 r;
      cool_stores unsupported pageSize rest r
  end.

(** [paths] is the order in which the entries are visited; without interleaving. *)
Definition CoolTransactionLogs (unsupported : bool) (pageSize : Z) (paths : list string) : RM TransactionLogCoolResult :=
  inst ← gets rg_instance;
  match inst with
  | None => mret (mkCool 0 0)
  | Some entries =>
      cool_stores unsupported pageSize
        (mjoin ((fun p => from_option (fun e => (re_stores e).*2) [] (entries !! p)) <$> paths)) (mkCool 0 0)
  end.
End Registry.

(** ** The map by name *)

Lemma names_find_put_eq {V} k (v : V) m : names_find k (names_put k v m) = Some v.
Proof.
  induction m as [|[q x] m IH]; simpl; [by rewrite String.eqb_refl|].
  destruct (String.eqb_spec k q) as [->|Hne]; simpl; [by rewrite String.eqb_refl|].
  destruct (String.ltb k q); simpl; [by rewrite String.eqb_refl|].
  destruct (String.eqb_spec k q); [done|exact IH].
Qed.

Lemma names_find_put_ne {V} k k' (v : V) m : k' <> k -> names_find k' (names_put k v m) = names_find k' m.
Proof.
  intros Hne. induction m as [|[q x] m IH]; simpl; [by rewrite (proj2 (String.eqb_neq k' k) Hne)|].
  destruct (String.eqb_spec k q) as [->|Hkq]; simpl; [by rewrite (proj2 (String.eqb_neq k' q) Hne)|].
  destruct (String.ltb k q); simpl; [by rewrite (proj2 (String.eqb_neq k' k) Hne)|]. by destruct (String.eqb k' q).
Qed.

(** ** The invariant *)

Record reg_inv (g : Registry) : Prop := mkRegInv {
  ri_named : forall entries p e name sid, rg_instance g = Some entries -> entries !! p = Some e ->
    names_find name (re_stores e) = Some sid -> exists s, rg_stores g !! sid = Some s /\ s_name s = name;
  ri_fresh : forall sid, rg_next g <= sid -> rg_stores g !! sid = None;
}.

Lemma at_store_read {A} sid s (f : Store -> A) g :
  rg_stores g !! sid = Some s -> at_store sid (store f) g = (inr (f s), g).
Proof.
  intros Hs. unfold at_store, store, gets. rewrite Hs. f_equal. destruct g. simpl in *. unfold set_rg_stores, set_rg_world. simpl.
  by rewrite insert_id.
Qed.

Lemma find_entry_run g entries p : rg_instance g = Some entries -> find_entry p g = (inr (entries !! p), g).
Proof. intros H. unfold find_entry, gets. by rewrite H. Qed.

(** ** Resolving *)

Lemma resolve_open {OS : Os} dbPath name g entries e sid s :
  rg_instance g = Some entries -> entries !! dbPath = Some e -> names_find name (re_stores e) = Some sid ->
  rg_stores g !! sid = Some s ->
  ResolveStore dbPath name g = if s_isClosing s then create_store dbPath name e g else (inr (Some sid), g).
Proof.
  intros Hinst He Hf Hs. unfold ResolveStore. rewrite (bind_run _ _ _ _ _ (find_entry_run g entries dbPath Hinst)), He, Hf.
  rewrite (bind_run _ _ g (if s_isClosing s then None else Some sid) g) by
    (by rewrite (bind_run _ _ _ _ _ (at_store_read sid s s_isClosing g Hs))).
  by destruct (s_isClosing s).
Qed.

Lemma create_store_run {OS : Os} dbPath name g g' r entries e :
  reg_inv g -> rg_instance g = Some entries -> entries !! dbPath = Some e ->
  create_store dbPath name e g = (inr r, g') ->
  exists sid s, r = Some sid /\ rg_stores g' !! sid = Some s /\ s_name s = name /\ s_isClosing s = false /\
    reg_inv g' /\ ResolveStore dbPath name g' = (inr (Some sid), g') /\
    forall other, other <> sid -> rg_stores g' !! other = rg_stores g !! other.
Proof.
  intros [Hnamed Hfresh] Hinst He. unfold create_store, rworld, new_object, put_entry. mrun.
  destruct (tryCreateDirectory _ (rg_world g)) as [[ex|[]] w1]; [done|]. simpl. rewrite Hinst. simpl.
  set (s := Store_new name _ _ _ _). set (sid := rg_next g). intros [= <- <-].
  set (e' := set_re_stores _ e). exists sid, s. split_and!; try done; simpl; [by rewrite lookup_insert_eq| | |].
  - constructor; simpl.
    + intros entries' p e1 n1 q [= <-] Hp Hq. destruct (String.eq_dec p dbPath) as [->|Hne].
      * rewrite lookup_insert_eq in Hp. injection Hp as <-. simpl in Hq. destruct (String.eq_dec n1 name) as [->|Hn].
        -- rewrite names_find_put_eq in Hq. injection Hq as <-. exists s. by rewrite lookup_insert_eq.
        -- rewrite names_find_put_ne in Hq by done. destruct (Hnamed entries dbPath e n1 q Hinst He Hq) as (s1 & Hs1 & Hn1).
           exists s1. rewrite lookup_insert_ne; [done|]. intros <-. by rewrite Hfresh in Hs1.
      * rewrite lookup_insert_ne in Hp by done. destruct (Hnamed entries p e1 n1 q Hinst Hp Hq) as (s1 & Hs1 & Hn1).
        exists s1. rewrite lookup_insert_ne; [done|]. intros <-. by rewrite Hfresh in Hs1.
    + intros q Hq. rewrite lookup_insert_ne by lia. apply Hfresh. lia.
  - rewrite (resolve_open _ _ _ (<[dbPath := e']> entries) e' sid s); [done|done|by rewrite lookup_insert_eq|
      apply names_find_put_eq|simpl; by rewrite lookup_insert_eq].
  - intros other Hne. by rewrite lookup_insert_ne.
Qed.

(** Resolving a log gives an open store of that name.  For a registered path
    a call that returns gives a live store with the name that is not closing;
    from then on the same store is given as long as it is open; no other store
    changes, and the registry stays well formed. *)
Theorem resolve_store {OS : Os} dbPath name g g' r entries e :
  reg_inv g -> rg_instance g = Some entries -> entries !! dbPath = Some e ->
  ResolveStore dbPath name g = (inr r, g') ->
  exists sid s, r = Some sid /\ rg_stores g' !! sid = Some s /\ s_name s = name /\ s_isClosing s = false /\
    reg_inv g' /\ ResolveStore dbPath name g' = (inr (Some sid), g') /\
    forall other, other <> sid -> rg_stores g' !! other = rg_stores g !! other.
Proof.
  intros Hinv Hinst He Hrun. destruct (names_find name (re_stores e)) as [sid0|] eqn:Hf.
  - destruct (ri_named _ Hinv entries dbPath e name sid0 Hinst He Hf) as (s0 & Hs0 & Hn0).
    pose proof Hrun as Hrun0. rewrite (resolve_open _ _ _ _ _ _ _ Hinst He Hf Hs0) in Hrun. destruct (s_isClosing s0) eqn:Hc0.
    + by eapply create_store_run.
    + injection Hrun as <- <-. by exists sid0, s0.
  - revert Hrun. unfold ResolveStore. rewrite (bind_run _ _ _ _ _ (find_entry_run g entries dbPath Hinst)), He, Hf.
    rewrite (bind_run (mret None) _ g None g) by done. intros Hrun; by eapply create_store_run.
Qed.

Definition config0 : TransactionLogStoreConfig := mkConfig "/logs" (SpecFloat.S754_zero false) 4096 0.
Definition registry0 : Registry := mkRegistry empty_world ∅ 1 (Some {[ "/db" := mkRegEntry [] config0 1 ]}).

Lemma registry0_inv : reg_inv registry0.
Proof.
  constructor; [|done]. intros entries p e name sid [= <-] Hp. apply lookup_singleton_Some in Hp as [_ <-]. done.
Qed.


(** ** Reference counts *)

(** The registry counts, for each path, the [c p] descriptors that use it. *)
Definition counts_refs (c : string -> nat) (g : Registry) : Prop :=
  exists entries, rg_instance g = Some entries /\
    forall p, match entries !! p with
              | Some e => re_refCount e = Z.of_nat (c p) /\ (0 < c p)%nat
              | None => c p = 0%nat
              end.

Section Refs.
Context {OS : Os}.
Variables (c : string -> nat).

Lemma refs_at_store {A} sid (m : SM A) : keeps (counts_refs c) (at_store sid m) (fun _ => True).
Proof using.
  intros g Hg. unfold at_store. destruct (rg_stores g !! sid) as [s|]; [|done]. by destruct (m _) as [r [w' s']].
Qed.

Lemma refs_rworld {A} (m : M World A) : keeps (counts_refs c) (rworld m) (fun _ => True).
Proof using. intros g Hg. unfold rworld. by destruct (m (rg_world g)). Qed.

Lemma refs_find p :
  keeps (counts_refs c) (find_entry p)
    (fun o => match o with Some e => re_refCount e = Z.of_nat (c p) /\ (0 < c p)%nat | None => c p = 0%nat end).
Proof using.
  intros g Hg. split; [done|]. intros o. destruct Hg as (entries & Hi & Hp). unfold find_entry, gets. rewrite Hi. intros [= <-]. apply Hp.
Qed.

Lemma refs_put p e : re_refCount e = Z.of_nat (c p) -> (0 < c p)%nat -> keeps (counts_refs c) (put_entry p e) (fun _ => True).
Proof using.
  intros He Hc. apply keeps_modify. intros g (entries & Hi & Hp). exists (<[p := e]> entries). simpl. rewrite Hi. split; [done|].
  intros q. destruct (String.eq_dec q p) as [->|Hne]; [by rewrite lookup_insert_eq|]. rewrite lookup_insert_ne by done. apply Hp.
Qed.

Lemma refs_new s : keeps (counts_refs c) (new_object s) (fun _ => True).
Proof using.
  unfold new_object. eapply keeps_bind; [by apply (keeps_gets _ _ (fun _ => True))|]. intros sid _.
  eapply keeps_bind; [by apply keeps_modify|]. intros _ _. by apply keeps_ret.
Qed.

Lemma refs_resolve p name : keeps (counts_refs c) (ResolveStore p name) (fun _ => True).
Proof using.
  unfold ResolveStore. eapply keeps_bind; [apply refs_find|]. intros [e|] He; [|by apply keeps_ret].
  eapply (keeps_bind _ _ _ (fun _ => True)).
  { destruct (names_find _ _); [|by apply keeps_ret]. eapply keeps_bind; [apply refs_at_store|]. intros; by apply keeps_ret. }
  intros [sid|] _; [by apply keeps_ret|]. unfold create_store.
  eapply keeps_bind; [apply refs_rworld|]. intros _ _. eapply keeps_bind; [apply refs_new|]. intros sid _.
  eapply keeps_bind; [apply refs_put; apply He|]. intros _ _. by apply keeps_ret.
Qed.

Lemma refs_purge_stores destroy before counts sids : keeps (counts_refs c) (purge_stores destroy before counts sids) (fun _ => True).
Proof using.
  induction sids as [|sid sids IH]; cbn [purge_stores]; [by apply keeps_ret|]. eapply (keeps_bind _ _ _ (fun _ => True)).
  { unfold purge_store. eapply keeps_bind; [apply refs_at_store|]. intros r _. eapply (keeps_bind _ _ _ (fun _ => True)).
    - apply keeps_when. eapply keeps_bind; [apply refs_at_store|]. intros; by apply keeps_ret.
    - intros; by apply keeps_ret. }
  intros removed _. eapply keeps_bind; [exact IH|]. intros; by apply keeps_ret.
Qed.

Lemma refs_forget p sids : keeps (counts_refs c) (purge_forget_all p sids) (fun _ => True).
Proof using.
  induction sids as [|sid sids IH]; cbn [purge_forget_all]; [by apply keeps_ret|]. eapply (keeps_bind _ _ _ (fun _ => True)).
  { unfold purge_forget. eapply keeps_bind; [apply refs_at_store|]. intros closing _. destruct (negb closing); [by apply keeps_ret|].
    eapply keeps_bind; [apply refs_at_store|]. intros name _. eapply keeps_bind; [apply refs_find|]. intros [e|] He; [|by apply keeps_ret].
    case_bool_decide; [|by apply keeps_ret]. eapply keeps_bind; [apply refs_put; apply He|]. intros; by apply keeps_ret. }
  intros b _. eapply keeps_bind; [exact IH|]. intros; by apply keeps_ret.
Qed.

Lemma refs_for_each {A} (l : list A) f : (forall x, keeps (counts_refs c) (f x) (fun _ => True)) -> keeps (counts_refs c) (for_each l f) (fun _ => True).
Proof using.
  intros Hf. induction l as [|x l IH]; cbn [for_each]; [by apply keeps_ret|]. eapply keeps_bind; [apply Hf|]. by intros.
Qed.

Lemma refs_PurgeStores p name destroy before counts : keeps (counts_refs c) (PurgeStores p name destroy before counts) (fun _ => True).
Proof using.
  unfold PurgeStores. eapply (keeps_bind _ _ _ (fun _ => True)).
  { unfold purge_collect. eapply keeps_bind; [apply refs_find|]. intros [e|] _; by apply keeps_ret. }
  intros sids _. eapply keeps_bind; [apply refs_purge_stores|]. intros removed _. eapply (keeps_bind _ _ _ (fun _ => True)).
  { destruct destroy; [apply refs_forget|by apply keeps_ret]. }
  intros gone _. eapply (keeps_bind _ _ _ (fun _ => True)).
  { unfold purge_remove. apply refs_for_each. intros sid. eapply keeps_bind; [apply refs_at_store|]. intros q _.
    eapply keeps_bind; [apply refs_rworld|]. intros ok _. apply keeps_when, refs_rworld. }
  intros _ _. eapply keeps_bind; [by apply keeps_modify|]. intros; by apply keeps_ret.
Qed.

Lemma refs_discover p dirs : keeps (counts_refs c) (DiscoverStores p dirs) (fun _ => True).
Proof using.
  unfold DiscoverStores. eapply keeps_bind; [apply refs_find|]. intros [e|] _; [|by apply keeps_ret].
  destruct (String.eqb _ _); [by apply keeps_ret|]. eapply keeps_bind; [apply refs_rworld|]. intros ex _. apply keeps_when, refs_for_each.
  intros dir. unfold discover_dir. eapply keeps_bind; [apply refs_rworld|]. intros [s|] _; [|by apply keeps_ret].
  eapply keeps_bind; [apply refs_find|]. intros [e'|] He; [|by apply keeps_ret]. destruct (names_find _ _); [by apply keeps_ret|].
  eapply keeps_bind; [apply refs_new|]. intros sid _. apply refs_put; apply He.
Qed.
End Refs.

Definition bump (p : string) (f : nat -> nat) (c : string -> nat) (q : string) : nat :=
  if String.eqb q p then f (c q) else c q.

Lemma register_refs {OS : Os} c p cfg g :
  counts_refs c g -> Z.of_nat (c p) + 1 < 2 ^ 64 ->
  exists g', Register p cfg g = (inr tt, g') /\ counts_refs (bump p S c) g'.
Proof.
  intros (entries & Hi & Hp) Hb. unfold Register. rewrite (bind_run (gets _) _ g (Some entries) g) by (unfold gets; by rewrite Hi).
  assert (Hput : forall e, re_refCount e = Z.of_nat (S (c p)) ->
    exists g', put_entry p e g = (inr tt, g') /\ counts_refs (bump p S c) g').
  { intros e He. eexists. split; [done|]. exists (<[p := e]> entries). simpl. rewrite Hi. split; [done|]. intros q. unfold bump.
    destruct (String.eqb_spec q p) as [->|Hne]; [rewrite lookup_insert_eq; split; [done|lia]|].
    rewrite lookup_insert_ne by done. apply Hp. }
  specialize (Hp p) as Hpp. destruct (entries !! p) as [e|].
  - apply Hput. simpl. rewrite (proj1 Hpp). unfold u64. rewrite Z.mod_small by lia. lia.
  - apply Hput. simpl. rewrite Hpp. done.
Qed.

Lemma lookup_foldr_delete (l : list Z) (m : gmap Z Store) sid : sid ∈ l -> foldr delete m l !! sid = None.
Proof.
  induction l as [|x l IH]; intros Hin; [by apply elem_of_nil in Hin|]. simpl.
  destruct (Z.eq_dec sid x) as [->|Hne]; [by rewrite lookup_delete_eq|]. rewrite lookup_delete_ne by done.
  apply IH. by apply elem_of_cons in Hin as [->|].
Qed.

Lemma unregister_refs {OS : Os} c p g g' e entries :
  counts_refs c g -> rg_instance g = Some entries -> entries !! p = Some e -> Z.of_nat (c p) < 2 ^ 64 ->
  Unregister p g = (inr tt, g') ->
  counts_refs (bump p Nat.pred c) g' /\ (c p = 1%nat -> forall sid, sid ∈ (re_stores e).*2 -> rg_stores g' !! sid = None).
Proof.
  intros Hc Hi He Hb. pose proof Hc as (entries' & Hi' & Hp). rewrite Hi in Hi'. injection Hi' as <-.
  unfold Unregister. rewrite (bind_run _ _ _ _ _ (find_entry_run g entries p Hi)), He.
  specialize (Hp p) as Hpp. rewrite He in Hpp. destruct Hpp as [Hr Hpos]. cbv zeta. rewrite Hr. unfold u64. rewrite Z.mod_small by lia.
  destruct (Z.eqb_spec (Z.of_nat (c p) - 1) 0) as [H1|H1].
  - set (g1 := set_rg_instance ((fun m => delete p m) <$> rg_instance g) g).
    rewrite (bind_run (modify _) _ g tt g1) by done. intros Hrun.
    assert (Hg1 : counts_refs (bump p Nat.pred c) g1).
    { exists (delete p entries). simpl. rewrite Hi. split; [done|]. intros q. unfold bump.
      destruct (String.eqb_spec q p) as [->|Hne]; [rewrite lookup_delete_eq; lia|]. rewrite lookup_delete_ne by done. apply Hp. }
    revert Hrun. pose proof (refs_for_each (bump p Nat.pred c) (re_stores e).*2 (fun sid => at_store sid LogStore.close)
      (fun sid => refs_at_store _ sid _) g1 Hg1) as [Hg2 _].
    unfold mbind, M_bind. destruct (for_each _ _ g1) as [[ex|[]] g2]; [done|]. unfold release_objects, modify. intros [= <-].
    split; [exact Hg2|]. intros _ sid Hsid. simpl. by apply lookup_foldr_delete.
  - unfold put_entry, modify. intros [= <-]. split; [|lia]. eexists. simpl. rewrite Hi. split; [done|]. intros q. unfold bump.
    destruct (String.eqb_spec q p) as [->|Hne]; [rewrite lookup_insert_eq; simpl; split; lia|]. rewrite lookup_insert_ne by done. apply Hp.
Qed.

(** What descriptors ask of the registry. *)
Inductive reg_op :=
| RegOp (p : string) (cfg : TransactionLogStoreConfig)
| UnregOp (p : string)
| DiscoverOp (p : string) (dirs : list (string * list dirent))
| ResolveOp (p name : string)
| PurgeOp (p name : string) (destroy : bool) (before : Z) (counts : bool).

Definition run_reg {OS : Os} (op : reg_op) : RM unit :=
  match op with
  | RegOp p cfg => Register p cfg
  | UnregOp p => Unregister p
  | DiscoverOp p dirs => DiscoverStores p dirs
  | ResolveOp p name => ResolveStore p name;; mret tt
  | PurgeOp p name destroy before counts => PurgeStores p name destroy before counts;; mret tt
  end.

(** The descriptors per path after the operation. *)
Definition users (op : reg_op) (c : string -> nat) : string -> nat :=
  match op with RegOp p _ => bump p S c | UnregOp p => bump p Nat.pred c | _ => c end.

(** C27: the registry keeps a path exactly as long as a descriptor uses it.  It
    refines a count of descriptors per path: every operation that returns takes
    the registry of one count to the registry of the next, a path has an entry if
    and only if its count is positive, and when its last descriptor unregisters
    every store of the path is released. *)
Theorem registry_refines_counts {OS : Os} op c g g' entries :
  counts_refs c g -> rg_instance g = Some entries ->
  (forall p, Z.of_nat (c p) + 1 < 2 ^ 64) -> (forall p, op = UnregOp p -> (0 < c p)%nat) ->
  run_reg op g = (inr tt, g') ->
  counts_refs (users op c) g' /\
  forall p e, op = UnregOp p -> c p = 1%nat -> entries !! p = Some e ->
    forall sid, sid ∈ (re_stores e).*2 -> rg_stores g' !! sid = None.
Proof.
  intros Hc Hi Hb Hu Hrun.
  assert (Hk : forall A (m : RM A), keeps (counts_refs c) m (fun _ => True) -> (m;; mret tt) g = (inr tt, g') -> counts_refs c g').
  { intros A m Hm. destruct (Hm g Hc) as [Hg _]. unfold mbind, M_bind. destruct (m g) as [[ex|a] g1]; [done|]. by intros [= <-]. }
  destruct op as [p cfg|p|p dirs|p name|p name destroy before counts]; cbn [run_reg users] in *.
  - destruct (register_refs c p cfg g Hc (Hb p)) as (g1 & Hr & Hg1). rewrite Hr in Hrun. injection Hrun as <-. done.
  - pose proof Hc as (entries' & Hi' & Hp). rewrite Hi in Hi'. injection Hi' as <-. specialize (Hp p).
    destruct (entries !! p) as [e|] eqn:He; [|specialize (Hu p eq_refl); lia].
    destruct (unregister_refs c p g g' e entries Hc Hi He) as [Hg' Hgone]; [specialize (Hb p); lia|done|].
    split; [done|]. intros q e' [= <-] Hq Hqe. rewrite He in Hqe. injection Hqe as <-. by apply Hgone.
  - split; [|done]. pose proof (refs_discover c p dirs g Hc) as [Hg _]. by rewrite Hrun in Hg.
  - split; [|done]. by apply (Hk _ _ (refs_resolve c p name)).
  - split; [|done]. by apply (Hk _ _ (refs_PurgeStores c p name destroy before counts)).
Qed.

Lemma registry_refines_counts_witness :
  let OS := os_reliable 10 in
  let g := snd (ResolveStore "/db" "foo" registry0) in
  exists g', run_reg (UnregOp "/db") g = (inr tt, g') /\ rg_stores g !! 1 <> None /\ rg_stores g' !! 1 = None /\ rg_instance g' = Some ∅.
Proof.
  intros OS g. set (c := fun p => if String.eqb p "/db" then 1%nat else 0%nat).
  destruct (run_reg (UnregOp "/db") g) as [r g'] eqn:Hrun. pose proof Hrun as Hr. vm_compute in Hr. injection Hr as <- Hg'.
  exists g'. split; [reflexivity|]. split; [vm_compute; discriminate|]. split; [|by subst g'].
  assert (Hc : counts_refs c g).
  { eexists. split; [reflexivity|]. intros p. unfold c. destruct (String.eqb_spec p "/db") as [->|Hne]; [split; [reflexivity|lia]|].
    rewrite lookup_insert_ne, lookup_singleton_ne by congruence. reflexivity. }
  eapply (registry_refines_counts (UnregOp "/db") c g g' _ Hc eq_refl); [| |exact Hrun|reflexivity|reflexivity|reflexivity|].
  - intros p. unfold c. destruct (String.eqb p "/db"); lia.
  - intros p Hp. injection Hp as <-. unfold c. simpl. lia.
  - apply list_elem_of_here.
Defined.

(** ** Purging and resolving at the same time *)

Definition entry_foo : TransactionLogEntryBatch :=
  addEntry (TransactionLogEntryBatch_new 1000000000) (TransactionLogEntry_new "foo" [Byte.x61] 1).

(** Write one entry to a store. *)
Definition write_entry {OS : Os} (sid : Z) : RM unit :=
  at_store sid (fun ws => let '(r, (ws', _)) := writeBatch 20 (ws, (entry_foo, mkPos 0 0)) in (r, ws')).

(** A destroying purge can delete a log that was opened after it.  The purge
    closes the idle store "foo" and takes it out of the map; before it removes
    the directory another thread resolves "foo", gets a new store and writes to
    it; then the purge removes the directory with the new file in it, while the
    new store stays open in the registry. *)
Theorem purge_deletes_new_log :
  let OS := os_reliable 10 in
  match (ResolveStore "/db" "foo";;
         sids ← purge_collect "/db" "foo"; purge_stores true 0 false sids;;
         gone ← purge_forget_all "/db" sids;
         again ← ResolveStore "/db" "foo"; write_entry 2;;
         before ← gets (fun g => length (contents "/logs/foo/1.txnlog" (rg_world g)));
         purge_remove gone;; release_objects gone;;
         found ← ResolveStore "/db" "foo";
         mret (gone, again, before, found)) registry0 with
  | (inr (gone, again, before, found), g) =>
      gone = [1] /\ again = Some 2 /\ found = Some 2 /\ before = 27%nat /\
      w_files (rg_world g) !! "/logs/foo/1.txnlog" = None
  | _ => False
  end.
Proof. vm_compute. split_and!; reflexivity. Qed.
