(* ===== verification/VerificationTable.v ===== *)
(** * The cache verification table ([core/verification_table.h], [.cpp])

    A process-wide array of 64-bit atomics that says, per hashed key, which record
    version is current, or that a write is in flight.  The [LockTracker]s of the
    writes live on a heap of their own: following a pointer whose tracker was
    freed is an error of the model.  Methods under [writerMutex_] are functions on
    the table; the lock-free ones are single atomic accesses, and the sweep of
    [settleAllSlots] is a sequence of them. *)

From S2P Require Import Prelude Encoding.
From stdpp Require Import base tactics list gmap strings.
From coqutil Require Import Byte LittleEndianList.
From Stdlib Require Import ZArith Lia.

Local Open Scope Z_scope.

(** ** Slot values *)

Definition VT_TAG_BIT : Z := Z.shiftl 1 63.
Definition VT_SETTLED_BIT : Z := Z.shiftl 1 62.
Definition VT_GEN_MASK : Z := Z.shiftl 0x3FFF 48.
Definition VT_PTR_MASK : Z := Z.shiftl 1 48 - 1.
Definition VT_SETTLED_GEN_MASK : Z := Z.shiftl 1 62 - 1.

Definition vtIsVersion (v : Z) : bool := negb (v =? 0) && (Z.land v VT_TAG_BIT =? 0).
Definition vtIsLock (v : Z) : bool := negb (Z.land v VT_TAG_BIT =? 0) && (Z.land v VT_SETTLED_BIT =? 0).
Definition vtIsSettled (v : Z) : bool := negb (Z.land v VT_TAG_BIT =? 0) && negb (Z.land v VT_SETTLED_BIT =? 0).

(** A pointer is its address. *)
Definition vtEncodeLock (p gen : Z) : Z :=
  Z.lor (Z.lor VT_TAG_BIT (Z.shiftl (Z.land gen 0x3FFF) 48)) (Z.land p VT_PTR_MASK).
Definition vtDecodeLock (v : Z) : Z := Z.land v VT_PTR_MASK.
Definition vtGenFromLock (v : Z) : Z := u16 (Z.shiftr (Z.land v VT_GEN_MASK) 48).
Definition vtEncodeSettled (gen : Z) : Z :=
  Z.lor (Z.lor VT_TAG_BIT VT_SETTLED_BIT) (Z.land gen VT_SETTLED_GEN_MASK).

(** ** Hashing *)

(** SplitMix64 finalizer. *)
Definition mix64 (x : Z) : Z :=
  let x := Z.lxor x (Z.shiftr x 33) in
  let x := u64 (x * 0xff51afd7ed558ccd) in
  let x := Z.lxor x (Z.shiftr x 33) in
  let x := u64 (x * 0xc4ceb9fe1a85ec53) in
  Z.lxor x (Z.shiftr x 33).

(** [memcpy] of 8 bytes on a little-endian machine. *)
Definition loadUnaligned64 (p : bytes) : Z := le_combine (take 8 p).

(** The loop over whole words and the tail; the fuel is the length. *)
Fixpoint hash_words (fuel : nat) (data : bytes) (h : Z) : Z :=
  match fuel with
  | O => h
  | S fuel =>
      if (8 <=? length data)%nat then hash_words fuel (drop 8 data) (mix64 (Z.lxor h (loadUnaligned64 data)))
      else if (0 <? length data)%nat then mix64 (Z.lxor h (le_combine data))
      else h
  end.

Definition hashKeyBytes (data : bytes) (seed : Z) : Z :=
  let h := hash_words (S (length data)) data seed in
  mix64 (Z.lxor h (Z.of_nat (length data))).

(** [while (p < n) p <<= 1] on [size_t]; [None] when it does not end within the
    fuel. *)
Fixpoint double_until (fuel : nat) (p n : Z) : option Z :=
  match fuel with
  | O => None
  | S fuel => if p <? n then double_until fuel (u64 (2 * p)) n else Some p
  end.

Definition roundUpToPowerOf2 (n : Z) : option Z :=
  if n <=? 1 then Some n else double_until 65 1 n.

(** [__builtin_bswap64] *)
Definition toHostEndian (beValue : Z) : Z := le_combine (rev (le_split 8 beValue)).

Definition extractVersionFromValue (value : bytes) : Z :=
  if (length value <? 8)%nat then 0 else toHostEndian (loadUnaligned64 value).

(** ** The table *)

Record LockTracker := mkTracker {
  lt_refcount : Z;
  lt_holders : Z;
  lt_generation : Z;
  lt_slotIndex : nat;
  lt_dbPtr : Z;
  lt_woken : bool;
  lt_wakeCallbacks : list nat;   (* a callback is a number *)
}.

Definition set_counts (holders refcount : Z) (t : LockTracker) : LockTracker :=
  mkTracker refcount holders (lt_generation t) (lt_slotIndex t) (lt_dbPtr t) (lt_woken t) (lt_wakeCallbacks t).
Definition set_wake (woken : bool) (cbs : list nat) (t : LockTracker) : LockTracker :=
  mkTracker (lt_refcount t) (lt_holders t) (lt_generation t) (lt_slotIndex t) (lt_dbPtr t) woken cbs.

(** [slots_ == nullptr] is the empty list.  The two counters are the globals of
    the process; [vt_fired] records the callbacks that ran. *)
Record VT := mkVT {
  vt_slots : list Z;
  vt_mask : Z;
  vt_seed : Z;
  vt_heap : gmap Z LockTracker;
  vt_globalGen : Z;
  vt_globalSettleGen : Z;
  vt_fired : list nat;
}.

Definition set_slots (x : list Z) (s : VT) : VT :=
  mkVT x (vt_mask s) (vt_seed s) (vt_heap s) (vt_globalGen s) (vt_globalSettleGen s) (vt_fired s).
Definition set_heap (x : gmap Z LockTracker) (s : VT) : VT :=
  mkVT (vt_slots s) (vt_mask s) (vt_seed s) x (vt_globalGen s) (vt_globalSettleGen s) (vt_fired s).
Definition set_globalGen (x : Z) (s : VT) : VT :=
  mkVT (vt_slots s) (vt_mask s) (vt_seed s) (vt_heap s) x (vt_globalSettleGen s) (vt_fired s).
Definition set_globalSettleGen (x : Z) (s : VT) : VT :=
  mkVT (vt_slots s) (vt_mask s) (vt_seed s) (vt_heap s) (vt_globalGen s) x (vt_fired s).
Definition set_fired (x : list nat) (s : VT) : VT :=
  mkVT (vt_slots s) (vt_mask s) (vt_seed s) (vt_heap s) (vt_globalGen s) (vt_globalSettleGen s) x.

(** The constructor; [None] when rounding does not terminate. *)
Definition VerificationTable_new (numEntries seed : Z) : option VT :=
  if numEntries =? 0 then Some (mkVT [] 0 seed ∅ 0 1 [])
  else
    n ← roundUpToPowerOf2 numEntries;
    Some (mkVT (replicate (Z.to_nat n) 0) (n - 1) seed ∅ 0 1 []).

Definition slotFor (s : VT) (dbPtr cfId : Z) (key : bytes) : option nat :=
  match vt_slots s with
  | [] => None
  | _ =>
      let h := mix64 (Z.lxor (vt_seed s) dbPtr) in
      let h := mix64 (Z.lxor h cfId) in
      let h := hashKeyBytes key h in
      Some (Z.to_nat (Z.land h (vt_mask s)))
  end.

(** ** Atomic accesses and the heap *)

Definition VM (A : Type) : Type := M VT A.

Definition load_slot (i : nat) : VM Z := fun s =>
  match vt_slots s !! i with
  | Some v => (inr v, s)
  | None => (inl (OutOfRange "slots_"), s)
  end.

Definition store_slot (i : nat) (v : Z) : VM unit :=
  modify (fun s => set_slots (<[i := v]> (vt_slots s)) s).

(** [compare_exchange_strong]: the answer, and the new value when it is true. *)
Definition cas_slot (i : nat) (expected desired : Z) : VM bool :=
  v ← load_slot i;
  if v =? expected then store_slot i desired;; mret true else mret false.

Definition deref (p : Z) : VM LockTracker := fun s =>
  match vt_heap s !! p with
  | Some t => (inr t, s)
  | None => (inl (OutOfRange "LockTracker after free"), s)
  end.

Definition assign (p : Z) (t : LockTracker) : VM unit :=
  modify (fun s => set_heap (<[p := t]> (vt_heap s)) s).

(** [delete t] *)
Definition free (p : Z) : VM unit := modify (fun s => set_heap (delete p (vt_heap s)) s).

Definition vtNextGen : VM Z :=
  g ← gets vt_globalGen;
  modify (set_globalGen (u16 (g + 1)));;
  mret (Z.land g 0x3FFF).

Definition vtNextSettleGen : VM Z :=
  g ← gets vt_globalSettleGen;
  modify (set_globalSettleGen (u64 (g + 1)));;
  mret (Z.land g VT_SETTLED_GEN_MASK).

(** ** Versions *)

Definition verifyVersion (slot : option nat) (expectedVersion : Z) : VM bool :=
  match slot with
  | None => mret false
  | Some i =>
      if (expectedVersion =? 0) || vtIsLock expectedVersion then mret false
      else v ← load_slot i; mret (v =? expectedVersion)
  end.

(** [compare_exchange_weak] may fail spuriously: [spurious] times here. *)
Fixpoint populate_loop (spurious : nat) (i : nat) (expected newVersion : Z) : VM bool :=
  if vtIsLock expected then mret false
  else if expected =? newVersion then mret true
  else
    match spurious with
    | S n => v ← load_slot i; populate_loop n i v newVersion
    | O => store_slot i newVersion;; mret true
    end.

Definition populateVersion (spurious : nat) (slot : option nat) (newVersion : Z) : VM bool :=
  match slot with
  | None => mret false
  | Some i =>
      if negb (vtIsVersion newVersion) then mret false
      else expected ← load_slot i; populate_loop spurious i expected newVersion
  end.

Definition populateVersionIfUnchanged (slot : option nat) (observed newVersion : Z) : VM bool :=
  match slot with
  | None => mret false
  | Some i =>
      if negb (vtIsVersion newVersion) then mret false
      else if vtIsLock observed then mret false
      else if observed =? newVersion then mret true
      else cas_slot i observed newVersion
  end.

(** ** Lock trackers *)

Definition addWakeCallback (p : Z) (cb : nat) : VM bool :=
  t ← deref p;
  if lt_woken t then mret false
  else assign p (set_wake false (lt_wakeCallbacks t ++ [cb]) t);; mret true.

Definition wake (p : Z) : VM unit :=
  t ← deref p;
  assign p (set_wake true [] t);;
  modify (fun s => set_fired (vt_fired s ++ lt_wakeCallbacks t) s).

(** [addr] is what [new LockTracker] returns when a tracker is installed. *)
Definition lockSlotForWrite (addr : Z) (slot : option nat) (dbPtr : Z) : VM (option Z) :=
  match slot with
  | None => mret None
  | Some i =>
      v ← load_slot i;
      if vtIsLock v then
        let p := vtDecodeLock v in
        t ← deref p;
        assign p (set_counts (u32 (lt_holders t + 1)) (u32 (lt_refcount t + 1)) t);;
        mret (Some p)
      else
        gen ← vtNextGen;
        assign addr (mkTracker 1 1 gen i dbPtr false []);;
        store_slot i (vtEncodeLock addr gen);;
        mret (Some addr)
  end.

(** [if (refcount.fetch_sub(1) == 1) delete t] *)
Definition drop_ref (p : Z) : VM unit :=
  t ← deref p;
  if lt_refcount t =? 1 then free p
  else assign p (set_counts (lt_holders t) (u32 (lt_refcount t - 1)) t).

Definition releaseWriteIntent (i : nat) (tracker : option Z) : VM unit :=
  match tracker with
  | None => mret tt
  | Some p =>
      t ← deref p;
      assign p (set_counts (u32 (lt_holders t - 1)) (lt_refcount t) t);;
      when (lt_holders t =? 1)
        (gen ← vtNextSettleGen;
         cas_slot i (vtEncodeLock p (lt_generation t)) (vtEncodeSettled gen);;
         wake p);;
      drop_ref p
  end.

Definition refTrackerIfLocked (slot : option nat) : VM (option Z) :=
  match slot with
  | None => mret None
  | Some i =>
      v ← load_slot i;
      if negb (vtIsLock v) then mret None
      else
        let p := vtDecodeLock v in
        t ← deref p;
        assign p (set_counts (lt_holders t) (u32 (lt_refcount t + 1)) t);;
        mret (Some p)
  end.

Definition unrefTracker (tracker : option Z) : VM unit :=
  match tracker with
  | None => mret tt
  | Some p => drop_ref p
  end.

(** ** Sweeps *)

(** One slot of [settleAllSlots]. *)
Definition settle_slot (settledValue : Z) (i : nat) : VM unit :=
  v ← load_slot i;
  if vtIsLock v then mret tt else store_slot i settledValue.

Fixpoint settle_from (settledValue : Z) (n i : nat) : VM unit :=
  match n with
  | O => mret tt
  | S n => settle_slot settledValue i;; settle_from settledValue n (S i)
  end.

Definition settleAllSlots : VM unit :=
  n ← gets (fun s => length (vt_slots s));
  if (n =? 0)%nat then mret tt
  else
    gen ← vtNextSettleGen;
    settle_from (vtEncodeSettled gen) n 0.

(** One slot of [cancelForDB]. *)
Definition cancel_slot (dbPtr : Z) (i : nat) : VM unit :=
  v ← load_slot i;
  if negb (vtIsLock v) then mret tt
  else
    let p := vtDecodeLock v in
    t ← deref p;
    if negb (lt_dbPtr t =? dbPtr) then mret tt
    else
      gen ← vtNextSettleGen;
      cas_slot i (vtEncodeLock p (vtGenFromLock v)) (vtEncodeSettled gen);;
      wake p.

Fixpoint cancel_from (dbPtr : Z) (n i : nat) : VM unit :=
  match n with
  | O => mret tt
  | S n => cancel_slot dbPtr i;; cancel_from dbPtr n (S i)
  end.

Definition cancelForDB (dbPtr : Z) : VM unit :=
  n ← gets (fun s => length (vt_slots s));
  cancel_from dbPtr n 0.
