(* ===== verification/VerificationTableProofs.v ===== *)
(** * The verification table keeps its promises

    Slot values never mix up their kinds, trackers are neither used after they
    are freed nor leaked, no parked waiter is forgotten, and a cold populate
    never publishes over a write it did not see. *)

From S2P Require Import Prelude Encoding VerificationTable.
From stdpp Require Import base tactics list gmap strings relations.
From coqutil Require Import Byte LittleEndianList.
From Stdlib Require Import ZArith Lia.

Local Open Scope Z_scope.

(** ** Slot values as intervals *)

Lemma land_bit v n : 0 <= n -> (Z.land v (Z.shiftl 1 n) =? 0) = negb (Z.testbit v n).
Proof.
  intros Hn. rewrite Z.shiftl_1_l. destruct (Z.testbit v n) eqn:Hb; simpl.
  - apply Z.eqb_neq. intros H0. assert (Z.testbit (Z.land v (2 ^ n)) n = false) as Hf by (rewrite H0; apply Z.bits_0).
    rewrite Z.land_spec, Hb, Z.pow2_bits_true in Hf by done. done.
  - apply Z.eqb_eq. apply Z.bits_inj'. intros i Hi. rewrite Z.land_spec, Z.bits_0, Z.pow2_bits_eqb by done.
    destruct (Z.eqb_spec n i) as [->|]; [by rewrite Hb|apply andb_false_r].
Qed.

Lemma testbit_div v n : 0 <= n -> Z.testbit v n = Z.odd (v / 2 ^ n).
Proof. intros Hn. rewrite Z.testbit_odd, Z.shiftr_div_pow2 by done. done. Qed.

Lemma tag_spec v : is_u64 v -> (Z.land v VT_TAG_BIT =? 0) = (v <? 2 ^ 63).
Proof.
  intros Hv. unfold VT_TAG_BIT, is_u64 in *. rewrite land_bit, testbit_div by lia.
  destruct (Z.ltb_spec v (2 ^ 63)) as [H|H].
  - by rewrite Z.div_small by lia.
  - assert (v / 2 ^ 63 = 1) as -> by (symmetry; apply (Z.div_unique v (2 ^ 63) 1 (v - 2 ^ 63)); lia). done.
Qed.

Lemma settled_bit_spec v : 2 ^ 63 <= v < 2 ^ 64 -> (Z.land v VT_SETTLED_BIT =? 0) = (v <? 2 ^ 63 + 2 ^ 62).
Proof.
  intros Hv. unfold VT_SETTLED_BIT. rewrite land_bit, testbit_div by lia.
  destruct (Z.ltb_spec v (2 ^ 63 + 2 ^ 62)) as [H|H].
  - assert (v / 2 ^ 62 = 2) as -> by (symmetry; apply (Z.div_unique v (2 ^ 62) 2 (v - 2 * 2 ^ 62)); lia). done.
  - assert (v / 2 ^ 62 = 3) as -> by (symmetry; apply (Z.div_unique v (2 ^ 62) 3 (v - 3 * 2 ^ 62)); lia). done.
Qed.

Lemma vtIsVersion_spec v : is_u64 v -> vtIsVersion v = (0 <? v) && (v <? 2 ^ 63).
Proof. intros Hv. unfold vtIsVersion. rewrite tag_spec by done. unfold is_u64 in Hv. destruct (v <? 2 ^ 63); lia. Qed.

Lemma vtIsLock_spec v : is_u64 v -> vtIsLock v = (2 ^ 63 <=? v) && (v <? 2 ^ 63 + 2 ^ 62).
Proof.
  intros Hv. unfold vtIsLock. rewrite tag_spec by done. unfold is_u64 in Hv.
  destruct (Z.ltb_spec v (2 ^ 63)); [simpl; lia|]. rewrite settled_bit_spec by lia. lia.
Qed.

Lemma vtIsSettled_spec v : is_u64 v -> vtIsSettled v = (2 ^ 63 + 2 ^ 62 <=? v).
Proof.
  intros Hv. unfold vtIsSettled. rewrite tag_spec by done. unfold is_u64 in Hv.
  destruct (Z.ltb_spec v (2 ^ 63)); [simpl; lia|]. rewrite settled_bit_spec by lia. lia.
Qed.

(** A 48-bit address. *)
Definition is_ptr (p : Z) : Prop := 0 < p < 2 ^ 48.

Lemma lock_value p g : is_ptr p -> vtEncodeLock p g = 2 ^ 63 + (g mod 2 ^ 14) * 2 ^ 48 + p.
Proof.
  intros Hp. unfold vtEncodeLock, is_ptr in *. pose proof (Z.mod_pos_bound g (2 ^ 14) ltac:(lia)) as Hg.
  change VT_PTR_MASK with (Z.ones 48). change 0x3FFF with (Z.ones 14).
  rewrite (land_ones_low p 48), Z.land_ones by lia. change VT_TAG_BIT with (Z.shiftl (Z.shiftl 1 15) 48).
  rewrite <- Z.shiftl_lor, (Z.lor_comm (Z.shiftl 1 15)), lor_shiftl_add by lia.
  rewrite Z.lor_comm, lor_shiftl_add by lia. lia.
Qed.

Lemma settled_value g : vtEncodeSettled g = 2 ^ 63 + 2 ^ 62 + g mod 2 ^ 62.
Proof.
  unfold vtEncodeSettled. change VT_SETTLED_GEN_MASK with (Z.ones 62). rewrite Z.land_ones by lia.
  change (Z.lor VT_TAG_BIT VT_SETTLED_BIT) with (Z.shiftl 3 62).
  rewrite Z.lor_comm, lor_shiftl_add by (pose proof (Z.mod_pos_bound g (2 ^ 62)); lia). lia.
Qed.

Lemma vtDecodeLock_spec v : vtDecodeLock v = v mod 2 ^ 48.
Proof. unfold vtDecodeLock. change VT_PTR_MASK with (Z.ones 48). by rewrite Z.land_ones by lia. Qed.

Lemma vtGenFromLock_spec v : vtGenFromLock v = (v / 2 ^ 48) mod 2 ^ 14.
Proof.
  unfold vtGenFromLock, u16. rewrite Z.shiftr_land. change (Z.shiftr VT_GEN_MASK 48) with (Z.ones 14).
  rewrite Z.land_ones, Z.shiftr_div_pow2 by lia.
  pose proof (Z.mod_pos_bound (v / 2 ^ 48) (2 ^ 14) ltac:(lia)). apply Z.mod_small. lia.
Qed.

Lemma lock_u64 p g : is_ptr p -> is_u64 (vtEncodeLock p g) /\ vtIsLock (vtEncodeLock p g) = true.
Proof.
  intros Hp. pose proof (Z.mod_pos_bound g (2 ^ 14) ltac:(lia)) as Hg.
  assert (Hu : is_u64 (vtEncodeLock p g)) by (rewrite lock_value by done; unfold is_u64, is_ptr in *; lia).
  split; [done|]. rewrite vtIsLock_spec, lock_value by done. unfold is_ptr in Hp. lia.
Qed.

Lemma settled_u64 g : is_u64 (vtEncodeSettled g) /\ vtIsLock (vtEncodeSettled g) = false /\ vtEncodeSettled g <> 0.
Proof.
  pose proof (Z.mod_pos_bound g (2 ^ 62) ltac:(lia)) as Hg.
  assert (Hu : is_u64 (vtEncodeSettled g)) by (rewrite settled_value; unfold is_u64; lia).
  split; [done|]. rewrite vtIsLock_spec, settled_value by done. lia.
Qed.

Lemma decode_encode p g : is_ptr p -> vtDecodeLock (vtEncodeLock p g) = p.
Proof.
  intros Hp. rewrite vtDecodeLock_spec, lock_value by done. unfold is_ptr in Hp.
  pose proof (Z.mod_pos_bound g (2 ^ 14) ltac:(lia)).
  symmetry. apply (Z.mod_unique _ _ (2 ^ 15 + g mod 2 ^ 14)); lia.
Qed.

Lemma gen_encode p g : is_ptr p -> vtGenFromLock (vtEncodeLock p g) = g mod 2 ^ 14.
Proof.
  intros Hp. rewrite vtGenFromLock_spec, lock_value by done. unfold is_ptr in Hp.
  pose proof (Z.mod_pos_bound g (2 ^ 14) ltac:(lia)).
  rewrite <- (Z.div_unique_pos _ (2 ^ 48) (2 ^ 15 + g mod 2 ^ 14) p) by lia.
  symmetry. apply (Z.mod_unique _ _ 2); lia.
Qed.

Lemma settled_inj g g' : 0 <= g < 2 ^ 62 -> 0 <= g' < 2 ^ 62 -> vtEncodeSettled g = vtEncodeSettled g' -> g = g'.
Proof. intros Hg Hg'. rewrite !settled_value, !Z.mod_small by done. lia. Qed.

#[export] Hint Resolve lock_u64 settled_u64 : rdb.

(** ** Counting holders

    The clients' side of the protocol: the write intents that were taken and not
    yet released, and the temporary references. *)

Definition intents (p : Z) (I : list (nat * Z)) : Z := Z.of_nat (length (filter (fun x => x.2 = p) I)).
Definition refs (p : Z) (R : list Z) : Z := Z.of_nat (length (filter (fun x => x = p) R)).

Lemma intents_cons p i q I : intents p ((i, q) :: I) = (if decide (q = p) then 1 else 0) + intents p I.
Proof. unfold intents. rewrite filter_cons. simpl. destruct (decide (q = p)); simpl; lia. Qed.

Lemma refs_cons p q R : refs p (q :: R) = (if decide (q = p) then 1 else 0) + refs p R.
Proof. unfold refs. rewrite filter_cons. destruct (decide (q = p)); simpl; lia. Qed.

Lemma intents_perm p I I' : I ≡ₚ I' -> intents p I = intents p I'.
Proof. intros H. unfold intents. by rewrite H. Qed.

Lemma refs_perm p R R' : R ≡ₚ R' -> refs p R = refs p R'.
Proof. intros H. unfold refs. by rewrite H. Qed.

Lemma intents_range p I : 0 <= intents p I <= Z.of_nat (length I).
Proof. unfold intents. pose proof (length_filter (fun x => x.2 = p) I). lia. Qed.

Lemma refs_range p R : 0 <= refs p R <= Z.of_nat (length R).
Proof. unfold refs. pose proof (length_filter (fun x => x = p) R). lia. Qed.

Lemma intents_pos i p I : (i, p) ∈ I -> 0 < intents p I.
Proof.
  intros [I1 Hp]%elem_of_Permutation. rewrite (intents_perm p _ _ Hp), intents_cons, decide_True by done.
  pose proof (intents_range p I1). lia.
Qed.

Lemma refs_pos p R : p ∈ R -> 0 < refs p R.
Proof.
  intros [R1 Hp]%elem_of_Permutation. rewrite (refs_perm p _ _ Hp), refs_cons, decide_True by done.
  pose proof (refs_range p R1). lia.
Qed.

(** ** The invariant *)

(** A tracker: its counters are the numbers of intents and references, and until
    it is woken its slot holds its lock and someone holds an intent. *)
Record tracker_ok (I : list (nat * Z)) (R : list Z) (slots : list Z) (p : Z) (t : LockTracker) : Prop := mkTrackerOk {
  to_ptr : is_ptr p;
  to_gen : 0 <= lt_generation t < 2 ^ 14;
  to_holders : lt_holders t = intents p I;
  to_refs : lt_refcount t = intents p I + refs p R;
  to_alive : 0 < lt_refcount t;
  to_index : forall i, (i, p) ∈ I -> i = lt_slotIndex t;
  to_locked : lt_woken t = false ->
    slots !! lt_slotIndex t = Some (vtEncodeLock p (lt_generation t)) /\ 0 < lt_holders t;
  to_woken : lt_woken t = true -> lt_wakeCallbacks t = [];
}.

Record vt_inv (I : list (nat * Z)) (R : list Z) (W : list nat) (s : VT) : Prop := mkVtInv {
  vi_slots : Forall is_u64 (vt_slots s);
  vi_lock : forall i v, vt_slots s !! i = Some v -> vtIsLock v = true ->
    exists t, vt_heap s !! vtDecodeLock v = Some t /\ lt_slotIndex t = i /\ lt_woken t = false /\
      v = vtEncodeLock (vtDecodeLock v) (lt_generation t);
  vi_tracker : forall p t, vt_heap s !! p = Some t -> tracker_ok I R (vt_slots s) p t;
  vi_intents : forall i p, (i, p) ∈ I -> is_Some (vt_heap s !! p);
  vi_refs : forall p, p ∈ R -> is_Some (vt_heap s !! p);
  vi_waiting : forall cb, cb ∈ W -> cb ∈ vt_fired s \/
    exists p t, vt_heap s !! p = Some t /\ lt_woken t = false /\ cb ∈ lt_wakeCallbacks t;
  vi_settle : 0 <= vt_globalSettleGen s;
}.

(** The counters stay in 32 bits. *)
Definition few (I : list (nat * Z)) (R : list Z) : Prop := Z.of_nat (length I + length R) + 1 < 2 ^ 32.

(** What no operation on slots or trackers changes. *)
Lemma tracker_ok_slots I R slots i v p t :
  tracker_ok I R slots p t -> (lt_woken t = false -> lt_slotIndex t <> i) -> tracker_ok I R (<[i := v]> slots) p t.
Proof.
  intros [H1 H2 H3 H4 H5 H6 H7 H8] Hne. constructor; try done. intros Hw. destruct (H7 Hw) as [Hs Hh].
  split; [|done]. rewrite list_lookup_insert_ne; [done|]. intros ->. by apply Hne.
Qed.

(** A slot without a lock may get any value that is no lock. *)
Lemma vt_inv_store I R W s i v0 v :
  vt_inv I R W s -> vt_slots s !! i = Some v0 -> vtIsLock v0 = false -> is_u64 v -> vtIsLock v = false ->
  vt_inv I R W (set_slots (<[i := v]> (vt_slots s)) s).
Proof.
  intros [H1 H2 H3 H4 H5 H6 H7] Hi Hv0 Hu Hv. constructor; simpl; try done.
  - by apply Forall_insert.
  - intros j x Hj Hx. destruct (decide (i = j)) as [<-|Hne].
    + rewrite list_lookup_insert_eq in Hj by (by eapply lookup_lt_Some). congruence.
    + rewrite list_lookup_insert_ne in Hj by done. by apply H2.
  - intros p t Hp. apply tracker_ok_slots; [by apply H3|]. intros Hw Hidx.
    destruct (to_locked _ _ _ _ _ (H3 p t Hp) Hw) as [Hs _]. rewrite Hidx, Hi in Hs. injection Hs as ->.
    rewrite (proj2 (lock_u64 p _ (to_ptr _ _ _ _ _ (H3 p t Hp)))) in Hv0. done.
Qed.

Lemma vt_inv_lookup I R W s i : vt_inv I R W s -> (i < length (vt_slots s))%nat ->
  exists v, vt_slots s !! i = Some v /\ is_u64 v.
Proof.
  intros H Hi. destruct (lookup_lt_is_Some_2 _ _ Hi) as [v Hv]. exists v. split; [done|].
  by eapply Forall_lookup_1; [apply H|].
Qed.

Lemma vt_inv_counters I R W s g k : vt_inv I R W s -> 0 <= k -> vt_inv I R W (set_globalSettleGen k (set_globalGen g s)).
Proof. intros [H1 H2 H3 H4 H5 H6 H7] Hk. by constructor. Qed.

Lemma intents_zero p I : (forall i, (i, p) ∉ I) -> intents p I = 0.
Proof.
  induction I as [|[i q] I IH]; intros H; [done|]. rewrite intents_cons, IH by (intros j Hj; apply (H j); by right).
  destruct (decide (q = p)) as [->|]; [|done]. exfalso. apply (H i). by left.
Qed.

Lemma refs_zero p R : p ∉ R -> refs p R = 0.
Proof.
  induction R as [|q R IH]; intros H; [done|]. rewrite refs_cons, IH by set_solver. rewrite decide_False by set_solver. done.
Qed.

(** ** Updating one tracker *)

(** How the clients' holdings may change together with tracker [p]. *)
Record others_same (p : Z) (I I' : list (nat * Z)) (R R' : list Z) : Prop := mkOthers {
  os_intents : forall q, q <> p -> intents q I' = intents q I;
  os_refs : forall q, q <> p -> refs q R' = refs q R;
  os_in_intents : forall i q, q <> p -> (i, q) ∈ I' -> (i, q) ∈ I;
  os_in_refs : forall q, q <> p -> q ∈ R' -> q ∈ R;
}.

(** The slot keeps its value, or the lock of a tracker that is woken now is
    settled. *)
Definition slots_step (p : Z) (t t' : LockTracker) (slots slots' : list Z) : Prop :=
  slots' = slots /\ lt_woken t' = lt_woken t \/
  lt_woken t = false /\ lt_woken t' = true /\ exists g, slots' = <[lt_slotIndex t := vtEncodeSettled g]> slots.

Lemma slots_step_other I R slots slots' p t t' q u :
  tracker_ok I R slots p t -> tracker_ok I R slots q u -> q <> p ->
  slots_step p t t' slots slots' -> tracker_ok I R slots' q u.
Proof.
  intros Hp Hq Hne [[-> _]|(Hw & _ & g & ->)]; [done|]. apply tracker_ok_slots; [done|]. intros Hwu Heq.
  destruct (to_locked _ _ _ _ _ Hp Hw) as [Hs _]. destruct (to_locked _ _ _ _ _ Hq Hwu) as [Hs' _].
  rewrite Heq, Hs in Hs'. injection Hs' as He. apply Hne.
  rewrite <- (decode_encode p (lt_generation t)) by apply Hp.
  rewrite <- (decode_encode q (lt_generation u)) by apply Hq. by rewrite He.
Qed.

(** Tracker [p] becomes [t'], or is freed when its last reference goes. *)
Lemma vt_inv_tracker I R W I' R' W' s p t t' slots' k fired' :
  vt_inv I R W s -> vt_heap s !! p = Some t -> others_same p I I' R R' ->
  lt_generation t' = lt_generation t -> lt_slotIndex t' = lt_slotIndex t ->
  lt_holders t' = intents p I' -> lt_refcount t' = intents p I' + refs p R' ->
  (forall i, (i, p) ∈ I' -> i = lt_slotIndex t) ->
  slots_step p t t' (vt_slots s) slots' ->
  (lt_woken t' = false -> 0 < lt_holders t') -> (lt_woken t' = true -> lt_wakeCallbacks t' = []) ->
  (forall cb, cb ∈ vt_fired s -> cb ∈ fired') ->
  (forall cb, cb ∈ lt_wakeCallbacks t -> cb ∈ fired' \/ lt_woken t' = false /\ cb ∈ lt_wakeCallbacks t') ->
  (forall cb, cb ∈ W' -> cb ∈ W \/ lt_woken t' = false /\ cb ∈ lt_wakeCallbacks t') ->
  0 <= k ->
  vt_inv I' R' W' (mkVT slots' (vt_mask s) (vt_seed s)
    (if decide (lt_refcount t' = 0) then delete p (vt_heap s) else <[p := t']> (vt_heap s))
    (vt_globalGen s) k fired').
Proof.
  intros [H1 H2 H3 H4 H5 H6 H7] Hp Ho Hg Hi Hh Hr Hidx Hs Hw Hc Hfired Hcbs HW Hk.
  pose proof (H3 p t Hp) as Hok. pose proof (intents_range p I') as Hir. pose proof (refs_range p R') as Hrr.
  set (h' := if decide (lt_refcount t' = 0) then delete p (vt_heap s) else <[p := t']> (vt_heap s)).
  assert (Hne : forall q, q <> p -> h' !! q = vt_heap s !! q).
  { intros q Hq. subst h'. destruct (decide _); [by rewrite lookup_delete_ne|by rewrite lookup_insert_ne]. }
  assert (Hpe : lt_refcount t' <> 0 -> h' !! p = Some t').
  { intros Hz. subst h'. destruct (decide _); [done|]. apply lookup_insert_eq. }
  assert (Hlk : lt_woken t' = false -> slots' !! lt_slotIndex t' = Some (vtEncodeLock p (lt_generation t')) /\ 0 < lt_holders t').
  { intros Hf. split; [|auto]. rewrite Hi, Hg. destruct Hs as [[-> Hwt]|(_ & Ht & _)]; [|congruence].
    apply (to_locked _ _ _ _ _ Hok). congruence. }
  constructor; simpl; try done.
  - destruct Hs as [[-> _]|(_ & _ & g & ->)]; [done|]. apply Forall_insert; [done|]. by apply settled_u64.
  - intros i v Hv Hl.
    assert (Hv' : vt_slots s !! i = Some v).
    { destruct Hs as [[-> _]|(_ & _ & g & ->)]; [done|].
      destruct (decide (lt_slotIndex t = i)) as [<-|Hni]; [|by rewrite list_lookup_insert_ne in Hv].
      exfalso. pose proof (lookup_lt_Some _ _ _ Hv) as Hlt. rewrite length_insert in Hlt.
      rewrite list_lookup_insert_eq in Hv by done. injection Hv as <-.
      destruct (settled_u64 g) as (_ & Hns & _). congruence. }
    destruct (H2 i v Hv' Hl) as (u & Hu & Hui & Huw & Hue).
    destruct (decide (vtDecodeLock v = p)) as [He|Hn].
    + rewrite He in *. rewrite Hp in Hu. injection Hu as <-.
      destruct Hs as [[-> Hwt]|(_ & _ & g & ->)].
      * assert (lt_woken t' = false) as Hwf by congruence. pose proof (Hw Hwf). rewrite Hpe by lia.
        exists t'. split_and!; [done|congruence|done|congruence].
      * exfalso. rewrite Hui, list_lookup_insert_eq in Hv by (by eapply lookup_lt_Some).
        injection Hv as <-. destruct (settled_u64 g) as (_ & Hns & _). congruence.
    + exists u. rewrite Hne by done. done.
  - intros q u Hq. destruct (decide (q = p)) as [->|Hn].
    + assert (lt_refcount t' <> 0) as Hnz.
      { intros Hz. subst h'. rewrite decide_True in Hq by done. by rewrite lookup_delete_eq in Hq. }
      rewrite Hpe in Hq by done. injection Hq as <-.
      constructor; try done; [apply Hok|rewrite Hg; apply Hok|lia|]. intros i Hin. rewrite Hi. by apply Hidx.
    + rewrite Hne in Hq by done. pose proof (slots_step_other I R _ _ p t t' q u Hok (H3 q u Hq) Hn Hs) as [G1 G2 G3 G4 G5 G6 G7 G8].
      constructor; try done.
      * by rewrite (os_intents _ _ _ _ _ Ho q Hn).
      * by rewrite (os_intents _ _ _ _ _ Ho q Hn), (os_refs _ _ _ _ _ Ho q Hn).
      * intros i Hin. apply G6. by apply (os_in_intents _ _ _ _ _ Ho).
  - intros i q Hin. destruct (decide (q = p)) as [->|Hn].
    + pose proof (intents_pos i p I' Hin). rewrite Hpe by lia. done.
    + rewrite Hne by done. eapply H4. by apply (os_in_intents _ _ _ _ _ Ho i q Hn).
  - intros q Hin. destruct (decide (q = p)) as [->|Hn].
    + pose proof (refs_pos p R' Hin). rewrite Hpe by lia. done.
    + rewrite Hne by done. apply H5. by apply (os_in_refs _ _ _ _ _ Ho q Hn).
  - assert (Hnew : forall cb, lt_woken t' = false -> cb ∈ lt_wakeCallbacks t' ->
      exists q u, h' !! q = Some u /\ lt_woken u = false /\ cb ∈ lt_wakeCallbacks u).
    { intros cb Hf Hcb. exists p, t'. pose proof (Hw Hf). rewrite Hpe by lia. done. }
    intros cb Hcb. destruct (HW cb Hcb) as [Hin|[Hf Hin]]; [|right; by apply Hnew].
    destruct (H6 cb Hin) as [?|(q & u & Hq & Hu & Hcu)]; [left; auto|].
    destruct (decide (q = p)) as [->|Hn]; [|right; exists q, u; by rewrite Hne].
    rewrite Hp in Hq. injection Hq as <-. destruct (Hcbs cb Hcu) as [?|[Hf Hin']]; [by left|right; by apply Hnew].
Qed.

(** ** The operations keep the invariant

    Each lemma says that the operation returns, so it follows no dangling pointer,
    and what the clients hold afterwards. *)

Lemma others_intent p i I I' R : I ≡ₚ (i, p) :: I' -> others_same p I I' R R.
Proof.
  intros H. constructor; try done.
  - intros q Hq. rewrite (intents_perm q _ _ H), intents_cons, decide_False by congruence. lia.
  - intros j q Hq Hin. rewrite H. by right.
Qed.

Lemma others_intent_new p i I R : others_same p I ((i, p) :: I) R R.
Proof.
  constructor; try done.
  - intros q Hq. rewrite intents_cons, decide_False by congruence. lia.
  - intros j q Hq [[=]|Hin]%elem_of_cons; congruence.
Qed.

Lemma others_ref p I R R' : R ≡ₚ p :: R' -> others_same p I I R R'.
Proof.
  intros H. constructor; try done.
  - intros q Hq. rewrite (refs_perm q _ _ H), refs_cons, decide_False by congruence. lia.
  - intros q Hq Hin. rewrite H. by right.
Qed.

Lemma others_ref_new p I R : others_same p I I R (p :: R).
Proof.
  constructor; try done.
  - intros q Hq. rewrite refs_cons, decide_False by congruence. lia.
  - intros q Hq [->|Hin]%elem_of_cons; done.
Qed.

Lemma others_refl p I R : others_same p I I R R.
Proof. by constructor. Qed.

#[local] Hint Resolve others_intent others_intent_new others_ref others_ref_new others_refl : core.

Lemma vt_heap_insert s p t' :
  lt_refcount t' <> 0 -> set_heap (<[p := t']> (vt_heap s)) s =
    mkVT (vt_slots s) (vt_mask s) (vt_seed s)
      (if decide (lt_refcount t' = 0) then delete p (vt_heap s) else <[p := t']> (vt_heap s))
      (vt_globalGen s) (vt_globalSettleGen s) (vt_fired s).
Proof. intros H. by rewrite decide_False. Qed.

(** Joining the tracker of a locked slot. *)
Lemma lock_join I R W s i v addr db :
  vt_inv I R W s -> few I R -> vt_slots s !! i = Some v -> vtIsLock v = true ->
  exists s', lockSlotForWrite addr (Some i) db s = (inr (Some (vtDecodeLock v)), s') /\
    vt_inv ((i, vtDecodeLock v) :: I) R W s' /\ vt_slots s' = vt_slots s /\ vt_globalSettleGen s' = vt_globalSettleGen s.
Proof.
  intros Hinv Hfew Hi Hl. destruct (vi_lock _ _ _ _ Hinv i v Hi Hl) as (t & Ht & Hidx & Hw & _).
  set (p := vtDecodeLock v) in *. pose proof (vi_tracker _ _ _ _ Hinv p t Ht) as Hok.
  pose proof (intents_range p I). pose proof (refs_range p R). unfold few in Hfew.
  unfold lockSlotForWrite, load_slot, deref, assign. mrun. rewrite Hi, Hl. fold p. rewrite Ht.
  rewrite (to_holders _ _ _ _ _ Hok), (to_refs _ _ _ _ _ Hok), !u32_small by (unfold is_u32; lia).
  eexists. split; [done|]. split; [|done]. rewrite vt_heap_insert by (simpl; lia).
  apply (vt_inv_tracker I R W _ _ _ s p t); simpl; try done; auto.
  - rewrite intents_cons, decide_True by done. lia.
  - rewrite intents_cons, decide_True by done. lia.
  - intros j [[= ->]|Hin]%elem_of_cons; [done|]. by apply (to_index _ _ _ _ _ Hok).
  - by left.
  - intros _. lia.
  - congruence.
  - apply (vi_settle _ _ _ _ Hinv).
Qed.

(** Installing a new one at a fresh address. *)
Lemma lock_install I R W s i v addr db :
  vt_inv I R W s -> vt_slots s !! i = Some v -> vtIsLock v = false -> is_ptr addr -> vt_heap s !! addr = None ->
  exists s' g, lockSlotForWrite addr (Some i) db s = (inr (Some addr), s') /\ vt_inv ((i, addr) :: I) R W s' /\
    vt_slots s' = <[i := vtEncodeLock addr g]> (vt_slots s) /\ vt_globalSettleGen s' = vt_globalSettleGen s.
Proof.
  intros Hinv Hi Hl Hp Hfresh. pose proof Hinv as [H1 H2 H3 H4 H5 H6 H7].
  assert (Hlt : (i < length (vt_slots s))%nat) by (by eapply lookup_lt_Some).
  unfold lockSlotForWrite, load_slot, vtNextGen, assign, store_slot. mrun. rewrite Hi, Hl.
  set (g := Z.land (vt_globalGen s) 0x3FFF). set (t := mkTracker 1 1 g i db false []).
  assert (Hg : 0 <= g < 2 ^ 14).
  { subst g. change 0x3FFF with (Z.ones 14). rewrite Z.land_ones by lia. apply Z.mod_pos_bound. lia. }
  assert (Hz : intents addr I = 0).
  { apply intents_zero. intros j Hj. destruct (H4 j addr Hj). congruence. }
  assert (Hzr : refs addr R = 0) by (apply refs_zero; intros Hj; destruct (H5 addr Hj); congruence).
  eexists _, g. split; [done|]. split; [|done]. constructor; simpl; try done.
  - apply Forall_insert; [done|]. by apply lock_u64.
  - intros j x Hj Hx. destruct (decide (i = j)) as [<-|Hne].
    + rewrite list_lookup_insert_eq in Hj by done. injection Hj as <-. rewrite decode_encode, lookup_insert_eq by done.
      exists t. done.
    + rewrite list_lookup_insert_ne in Hj by done. destruct (H2 j x Hj Hx) as (u & Hu & ? & ? & ?).
      exists u. rewrite lookup_insert_ne; [done|]. intros He. rewrite He in Hfresh. congruence.
  - intros q u Hq. destruct (decide (addr = q)) as [<-|Hne].
    + rewrite lookup_insert_eq in Hq. injection Hq as <-. subst t.
      constructor; simpl; rewrite ?intents_cons, ?decide_True, ?Hz, ?Hzr by done; try done.
      * intros j [[= ->]|Hj]%elem_of_cons; [done|]. destruct (H4 j addr Hj). congruence.
      * intros _. by rewrite list_lookup_insert_eq.
    + rewrite lookup_insert_ne in Hq by done. pose proof (H3 q u Hq) as Hok.
      destruct (tracker_ok_slots I R _ i (vtEncodeLock addr g) q u Hok) as [G1 G2 G3 G4 G5 G6 G7 G8].
      { intros Hw Hix. destruct (to_locked _ _ _ _ _ Hok Hw) as [Hs _]. rewrite Hix, Hi in Hs. injection Hs as ->.
        rewrite (proj2 (lock_u64 q _ (to_ptr _ _ _ _ _ Hok))) in Hl. done. }
      constructor; try done; rewrite ?intents_cons, ?decide_False by done; [lia|lia|].
      intros j [[=]|Hj]%elem_of_cons; [congruence|by apply G6].
  - intros j q [[= -> ->]|Hj]%elem_of_cons; [by rewrite lookup_insert_eq|].
    destruct (decide (addr = q)) as [<-|]; [by rewrite lookup_insert_eq|rewrite lookup_insert_ne by done; by eapply H4].
  - intros q Hq. destruct (decide (addr = q)) as [<-|]; [by rewrite lookup_insert_eq|rewrite lookup_insert_ne by done; by apply H5].
  - intros cb Hcb. destruct (H6 cb Hcb) as [?|(q & u & Hq & ? & ?)]; [by left|]. right. exists q, u.
    rewrite lookup_insert_ne; [done|]. intros <-. congruence.
Qed.

Lemma settle_gen_range g : 0 <= Z.land g VT_SETTLED_GEN_MASK < 2 ^ 62.
Proof. change VT_SETTLED_GEN_MASK with (Z.ones 62). rewrite Z.land_ones by lia. apply Z.mod_pos_bound. lia. Qed.

(** The slot of a tracker that was woken does not hold its lock. *)
Lemma woken_unlocked I R W s p t i g :
  vt_inv I R W s -> vt_heap s !! p = Some t -> lt_woken t = true -> vt_slots s !! i <> Some (vtEncodeLock p g).
Proof.
  intros Hinv Ht Hw Hi. pose proof (to_ptr _ _ _ _ _ (vi_tracker _ _ _ _ Hinv p t Ht)) as Hp.
  destruct (vi_lock _ _ _ _ Hinv i _ Hi (proj2 (lock_u64 p g Hp))) as (u & Hu & _ & Hwu & _).
  rewrite decode_encode in Hu by done. congruence.
Qed.

Lemma cas_run s i v e d :
  vt_slots s !! i = Some v ->
  cas_slot i e d s = (inr (v =? e), if v =? e then set_slots (<[i := d]> (vt_slots s)) s else s).
Proof. intros Hv. unfold cas_slot, load_slot, store_slot. mrun. rewrite Hv. by destruct (v =? e). Qed.

(** The slot of a tracker holds its lock unless the tracker was woken. *)
Lemma slot_locked I R W s p t :
  vt_inv I R W s -> vt_heap s !! p = Some t -> (lt_slotIndex t < length (vt_slots s))%nat ->
  exists v, vt_slots s !! lt_slotIndex t = Some v /\ Z.eqb v (vtEncodeLock p (lt_generation t)) = negb (lt_woken t) /\
    (lt_woken t = false -> vtIsLock v = true).
Proof.
  intros Hinv Ht Hlt. destruct (lookup_lt_is_Some_2 _ _ Hlt) as [v Hv]. exists v. split; [done|].
  destruct (lt_woken t) eqn:Hw; simpl.
  - split; [|done]. apply Z.eqb_neq. intros ->. by destruct (woken_unlocked I R W s p t (lt_slotIndex t) (lt_generation t)).
  - pose proof (vi_tracker _ _ _ _ Hinv p t Ht) as Hok. destruct (to_locked _ _ _ _ _ Hok Hw) as [Hs _].
    rewrite Hv in Hs. injection Hs as ->. rewrite Z.eqb_refl. split; [done|]. intros _. apply lock_u64, Hok.
Qed.

(** The slot of a held intent is in the table. *)
Definition in_table (I : list (nat * Z)) (s : VT) : Prop := Forall (fun x => (x.1 < length (vt_slots s))%nat) I.

Lemma release_run I I' R W s i p :
  vt_inv I R W s -> few I R -> in_table I s -> I ≡ₚ (i, p) :: I' ->
  exists s' g, releaseWriteIntent i (Some p) s = (inr tt, s') /\ vt_inv I' R W s' /\
    (vt_slots s' = vt_slots s /\ vt_globalSettleGen s' = vt_globalSettleGen s \/
     vt_globalSettleGen s' = u64 (vt_globalSettleGen s + 1) /\ g = Z.land (vt_globalSettleGen s) VT_SETTLED_GEN_MASK /\
     (vt_slots s' = vt_slots s \/ (exists v, vt_slots s !! i = Some v /\ vtIsLock v = true) /\ vt_slots s' = <[i := vtEncodeSettled g]> (vt_slots s))).
Proof.
  intros Hinv Hfew Htab HI.
  assert (Hin : (i, p) ∈ I) by (rewrite HI; by left).
  destruct (vi_intents _ _ _ _ Hinv i p Hin) as [t Ht]. pose proof (vi_tracker _ _ _ _ Hinv p t Ht) as Hok.
  pose proof (to_index _ _ _ _ _ Hok i Hin) as Hidx.
  assert (Hlt : (i < length (vt_slots s))%nat) by (unfold in_table in Htab; rewrite Forall_forall in Htab; apply (Htab _ Hin)).
  assert (Hint : intents p I = 1 + intents p I') by (rewrite (intents_perm p _ _ HI), intents_cons, decide_True by done; lia).
  pose proof (intents_range p I') as Hr1. pose proof (refs_range p R) as Hr2. pose proof (intents_range p I) as Hr3. unfold few in Hfew.
  pose proof (to_holders _ _ _ _ _ Hok) as Hh. pose proof (to_refs _ _ _ _ _ Hok) as Hr.
  assert (Hidx' : forall j, (j, p) ∈ I' -> j = lt_slotIndex t).
  { intros j Hj. apply (to_index _ _ _ _ _ Hok). rewrite HI. by right. }
  unfold releaseWriteIntent, deref, assign. mrun. rewrite Ht.
  destruct (Z.eqb_spec (lt_holders t) 1) as [H1|H1].
  - (* the last holder *)
    unfold vtNextSettleGen. mrun. set (g := Z.land (vt_globalSettleGen s) VT_SETTLED_GEN_MASK).
    set (t1 := set_counts (u32 (lt_holders t - 1)) (lt_refcount t) t).
    subst i. destruct (slot_locked I R W s p t Hinv Ht Hlt) as (v & Hv & Hveq & Hvl). set (i := lt_slotIndex t) in *.
    rewrite (cas_run _ i v) by exact Hv. rewrite Hveq.
    set (sl := if negb (lt_woken t) then <[i := vtEncodeSettled g]> (vt_slots s) else vt_slots s).
    match goal with |- context [wake p ?st] => replace st with
      (mkVT sl (vt_mask s) (vt_seed s) (<[p := t1]> (vt_heap s)) (vt_globalGen s) (u64 (vt_globalSettleGen s + 1)) (vt_fired s))
      by (subst sl; by destruct (lt_woken t), s) end.
    unfold wake, deref, assign. mrun. cbn [vt_heap].
    rewrite lookup_insert_eq. unfold drop_ref, deref, assign, free. mrun. cbn [vt_heap set_fired set_heap].
    rewrite !lookup_insert_eq. rewrite !insert_insert_eq.
    set (t2 := set_wake true [] t1). 
    set (t3 := set_counts (lt_holders t2) (u32 (lt_refcount t2 - 1)) t2).
    assert (Hh2 : lt_holders t2 = 0) by (simpl; rewrite H1; done).
    assert (Hr3' : lt_refcount t3 = refs p R) by (simpl; rewrite Hr, u32_small by (unfold is_u32; lia); lia).
    pose proof (vt_inv_tracker I R W I' R W s p t t3 sl (u64 (vt_globalSettleGen s + 1))
      (vt_fired s ++ lt_wakeCallbacks t) Hinv Ht (others_intent p i I I' R HI)) as Hfin.
    assert (Hgoal : vt_inv I' R W (mkVT sl (vt_mask s) (vt_seed s)
      (if decide (lt_refcount t3 = 0) then delete p (vt_heap s) else <[p := t3]> (vt_heap s))
      (vt_globalGen s) (u64 (vt_globalSettleGen s + 1)) (vt_fired s ++ lt_wakeCallbacks t))).
    { apply Hfin; try done; [change (lt_holders t3) with (lt_holders t2); lia|lia| | | | |apply u64_range].
      - subst sl. destruct (lt_woken t) eqn:Hw; simpl; [by left|right; split_and!; [done|done|by exists g]].
      - intros cb Hcb. apply elem_of_app. by left.
      - intros cb Hcb. left. apply elem_of_app. by right.
      - intros cb Hcb. by left. }
    rewrite Hr3' in Hgoal.
    assert (Hsl : sl = vt_slots s \/ (exists v, vt_slots s !! i = Some v /\ vtIsLock v = true) /\ sl = <[i := vtEncodeSettled g]> (vt_slots s)).
    { subst sl. destruct (lt_woken t); simpl; [by left|right; split; [|done]]. exists v. auto. }
    destruct (Z.eqb_spec (lt_refcount t2) 1) as [Hone|Hone]; eexists _, g; (split; [done|]); simpl in Hone.
    + rewrite decide_True in Hgoal by lia. split; [|right; done].
      cbn [vt_heap set_fired set_heap]. rewrite delete_insert_eq. exact Hgoal.
    + rewrite decide_False in Hgoal by lia. split; [|right; done].
      cbn [vt_heap set_fired set_heap]. rewrite ?insert_insert_eq. exact Hgoal.
  - (* others remain *)
    unfold drop_ref, deref, assign, free. mrun. cbn [vt_heap set_heap]. rewrite lookup_insert_eq.
    cbn [lt_refcount set_counts]. destruct (Z.eqb_spec (lt_refcount t) 1) as [Hone|Hone]; [lia|].
    eexists _, 0. split; [done|]. split; [|by left]. cbn [vt_heap set_heap]. rewrite insert_insert_eq.
    cbn [lt_holders lt_refcount set_counts]. rewrite Hh, Hr, !u32_small by (unfold is_u32; lia).
    set (t3 := set_counts _ _ _).
    assert (Hnz : lt_refcount t3 <> 0) by (simpl; lia).
    pose proof (vt_inv_tracker I R W I' R W s p t t3 (vt_slots s) (vt_globalSettleGen s) (vt_fired s) Hinv Ht
      (others_intent p i I I' R HI)) as Hfin. rewrite decide_False in Hfin by done.
    apply Hfin; try done; [simpl; lia|simpl; lia|by left|intros _; simpl; lia| |intros cb Hcb| intros cb Hcb; by left|apply (vi_settle _ _ _ _ Hinv)].
    + intros Hw. by apply (to_woken _ _ _ _ _ Hok).
    + simpl. destruct (lt_woken t) eqn:Hw; [|by right].
      rewrite (to_woken _ _ _ _ _ Hok Hw) in Hcb. by apply elem_of_nil in Hcb.
Qed.

Lemma ref_run I R W s i :
  vt_inv I R W s -> few I R -> (i < length (vt_slots s))%nat ->
  exists r s', refTrackerIfLocked (Some i) s = (inr r, s') /\ vt_slots s' = vt_slots s /\
    vt_globalSettleGen s' = vt_globalSettleGen s /\
    vt_inv I (match r with Some p => p :: R | None => R end) W s'.
Proof.
  intros Hinv Hfew Hlt. destruct (vt_inv_lookup _ _ _ _ i Hinv Hlt) as (v & Hv & _).
  unfold refTrackerIfLocked, load_slot, deref, assign. mrun. rewrite Hv.
  destruct (vtIsLock v) eqn:Hl; simpl; [|by exists None, s].
  destruct (vi_lock _ _ _ _ Hinv i v Hv Hl) as (t & Ht & _ & Hw & _). set (p := vtDecodeLock v) in *. rewrite Ht.
  pose proof (vi_tracker _ _ _ _ Hinv p t Ht) as Hok. pose proof (to_locked _ _ _ _ _ Hok Hw) as [_ Hpos].
  pose proof (intents_range p I). pose proof (refs_range p R). unfold few in Hfew.
  rewrite (to_refs _ _ _ _ _ Hok), u32_small by (unfold is_u32; lia).
  eexists (Some p), _. split; [done|]. split; [done|]. split; [done|]. rewrite vt_heap_insert by (simpl; lia).
  apply (vt_inv_tracker I R W _ _ _ s p t); simpl; try done; auto.
  - apply Hok.
  - rewrite refs_cons, decide_True by done. lia.
  - apply Hok.
  - by left.
  - intros Hwt. congruence.
  - apply (vi_settle _ _ _ _ Hinv).
Qed.

Lemma unref_run I R R' W s p :
  vt_inv I R W s -> few I R -> R ≡ₚ p :: R' ->
  exists s', unrefTracker (Some p) s = (inr tt, s') /\ vt_slots s' = vt_slots s /\
    vt_globalSettleGen s' = vt_globalSettleGen s /\ vt_inv I R' W s'.
Proof.
  intros Hinv Hfew HR. destruct (vi_refs _ _ _ _ Hinv p) as [t Ht]; [rewrite HR; by left|].
  pose proof (vi_tracker _ _ _ _ Hinv p t Ht) as Hok.
  assert (Hrefs : refs p R = 1 + refs p R') by (rewrite (refs_perm p _ _ HR), refs_cons, decide_True by done; lia).
  pose proof (intents_range p I). pose proof (refs_range p R'). pose proof (refs_range p R). unfold few in Hfew.
  pose proof (to_refs _ _ _ _ _ Hok) as Hr.
  set (t' := set_counts (lt_holders t) (u32 (lt_refcount t - 1)) t).
  assert (Hr' : lt_refcount t' = intents p I + refs p R') by (simpl; rewrite u32_small by (unfold is_u32; lia); lia).
  assert (Hfin : vt_inv I R' W (mkVT (vt_slots s) (vt_mask s) (vt_seed s)
    (if decide (lt_refcount t' = 0) then delete p (vt_heap s) else <[p := t']> (vt_heap s))
    (vt_globalGen s) (vt_globalSettleGen s) (vt_fired s))).
  { apply (vt_inv_tracker I R W I R' W s p t); try done; auto.
    - apply Hok.
    - apply Hok.
    - by left.
    - intros Hw. by apply (to_locked _ _ _ _ _ Hok).
    - intros Hw. by apply (to_woken _ _ _ _ _ Hok).
    - intros cb Hcb. simpl. destruct (lt_woken t) eqn:Hw; [|by right].
      rewrite (to_woken _ _ _ _ _ Hok Hw) in Hcb. by apply elem_of_nil in Hcb.
    - apply (vi_settle _ _ _ _ Hinv). }
  unfold unrefTracker, drop_ref, deref, assign, free. mrun. rewrite Ht.
  destruct (Z.eqb_spec (lt_refcount t) 1) as [Hone|Hone]; (eexists; split; [done|]; split; [done|]; split; [done|]).
  - rewrite decide_True in Hfin by lia. exact Hfin.
  - rewrite decide_False in Hfin by lia. exact Hfin.
Qed.

(** Parking on a tracker whose lock is still in place. *)
Lemma park_run I R W s p cb :
  vt_inv I R W s -> p ∈ R ->
  exists b s', addWakeCallback p cb s = (inr b, s') /\ vt_slots s' = vt_slots s /\
    vt_globalSettleGen s' = vt_globalSettleGen s /\ vt_inv I R (if b then cb :: W else W) s'.
Proof.
  intros Hinv Hp. destruct (vi_refs _ _ _ _ Hinv p Hp) as [t Ht]. pose proof (vi_tracker _ _ _ _ Hinv p t Ht) as Hok.
  unfold addWakeCallback, deref, assign. mrun. rewrite Ht. destruct (lt_woken t) eqn:Hw; [by exists false, s|].
  eexists true, _. split; [done|]. split; [done|]. split; [done|].
  pose proof (to_alive _ _ _ _ _ Hok). rewrite vt_heap_insert by (simpl; lia).
  apply (vt_inv_tracker I R W _ _ _ s p t); simpl; try done; auto.
  - apply Hok.
  - apply Hok.
  - apply Hok.
  - by left; rewrite Hw.
  - intros _. by apply (to_locked _ _ _ _ _ Hok).
  - intros c Hc. right. split; [done|]. apply elem_of_app. by left.
  - intros c [->|Hc]%elem_of_cons; [|by left]. right. split; [done|]. apply elem_of_app. right. by left.
  - apply (vi_settle _ _ _ _ Hinv).
Qed.

Lemma cancel_run I R W s db i :
  vt_inv I R W s -> (i < length (vt_slots s))%nat ->
  exists s' g, cancel_slot db i s = (inr tt, s') /\ vt_inv I R W s' /\
    (vt_slots s' = vt_slots s /\ vt_globalSettleGen s' = vt_globalSettleGen s \/
     vt_globalSettleGen s' = u64 (vt_globalSettleGen s + 1) /\ g = Z.land (vt_globalSettleGen s) VT_SETTLED_GEN_MASK /\
     (exists v, vt_slots s !! i = Some v /\ vtIsLock v = true) /\ vt_slots s' = <[i := vtEncodeSettled g]> (vt_slots s)).
Proof.
  intros Hinv Hlt. destruct (vt_inv_lookup _ _ _ _ i Hinv Hlt) as (v & Hv & Hvu).
  unfold cancel_slot. rewrite (bind_run (load_slot i) _ s v s) by (unfold load_slot; by rewrite Hv).
  destruct (vtIsLock v) eqn:Hl; simpl; [|exists s, 0; split; [done|]; split; [done|by left]].
  destruct (vi_lock _ _ _ _ Hinv i v Hv Hl) as (t & Ht & Hidx & Hw & Hve). set (p := vtDecodeLock v) in *.
  pose proof (vi_tracker _ _ _ _ Hinv p t Ht) as Hok.
  rewrite (bind_run (deref p) _ s t s) by (unfold deref; by rewrite Ht).
  destruct (negb (lt_dbPtr t =? db)); [exists s, 0; split; [done|]; split; [done|by left]|].
  unfold vtNextSettleGen. mrun. set (g := Z.land (vt_globalSettleGen s) VT_SETTLED_GEN_MASK).
  assert (Hgen : vtGenFromLock v = lt_generation t).
  { rewrite Hve, gen_encode by apply Hok. apply Z.mod_small. apply Hok. }
  rewrite Hgen, <- Hve, (cas_run _ i v) by exact Hv. rewrite Z.eqb_refl.
  unfold wake, deref, assign. mrun. cbn [vt_heap set_slots set_globalSettleGen]. rewrite Ht.
  eexists _, g. split; [done|]. split; [|right; split_and!; [done|done|by exists v|done]].
  set (t' := set_wake true [] t). pose proof (to_alive _ _ _ _ _ Hok) as Hal.
  pose proof (vt_inv_tracker I R W I R W s p t t' (<[i := vtEncodeSettled g]> (vt_slots s))
    (u64 (vt_globalSettleGen s + 1)) (vt_fired s ++ lt_wakeCallbacks t) Hinv Ht (others_refl p I R)) as Hfin.
  rewrite decide_False in Hfin by (simpl; lia). apply Hfin; try done; try apply Hok.
  - right. rewrite Hidx. split_and!; [done|done|by exists g].
  - intros cb Hcb. apply elem_of_app. by left.
  - intros cb Hcb. left. apply elem_of_app. by right.
  - intros cb Hcb. by left.
  - apply u64_range.
Qed.

Lemma settle_run I R W s g i :
  vt_inv I R W s -> (i < length (vt_slots s))%nat ->
  exists s', settle_slot (vtEncodeSettled g) i s = (inr tt, s') /\ vt_inv I R W s' /\
    vt_globalSettleGen s' = vt_globalSettleGen s /\
    (vt_slots s' = vt_slots s /\ (exists v, vt_slots s !! i = Some v /\ vtIsLock v = true) \/
     vt_slots s' = <[i := vtEncodeSettled g]> (vt_slots s)).
Proof.
  intros Hinv Hlt. destruct (vt_inv_lookup _ _ _ _ i Hinv Hlt) as (v & Hv & _).
  unfold settle_slot, load_slot, store_slot. mrun. rewrite Hv. destruct (vtIsLock v) eqn:Hl.
  - exists s. split_and!; [done|done|done|]. left. split; [done|]. by exists v.
  - eexists. split_and!; [done| |done|by right]. destruct (settled_u64 g) as (Hu & Hns & _). by eapply vt_inv_store.
Qed.

(** Both populates store the version, or leave the slot alone. *)
Definition populated (i : nat) (v : Z) (b : bool) (s s' : VT) : Prop :=
  s' = s \/ b = true /\ vtIsVersion v = true /\ (exists v0, vt_slots s !! i = Some v0 /\ vtIsLock v0 = false) /\
    s' = set_slots (<[i := v]> (vt_slots s)) s.

Lemma populate_loop_run n i v0 v s :
  vt_slots s !! i = Some v0 -> vtIsVersion v = true -> exists b s', populate_loop n i v0 v s = (inr b, s') /\ populated i v b s s'.
Proof.
  intros Hv Hver. induction n as [|n IH]; cbn [populate_loop]; mrun;
    (destruct (vtIsLock v0) eqn:Hl; [by exists false, s; split; [|left]|]);
    (destruct (v0 =? v); [by exists true, s; split; [|left]|]).
  - unfold store_slot. mrun. eexists true, _. split; [done|]. right. split_and!; [done|done|by exists v0|done].
  - unfold load_slot. rewrite Hv. exact IH.
Qed.

Lemma populate_run n i v s :
  (i < length (vt_slots s))%nat ->
  exists b s', populateVersion n (Some i) v s = (inr b, s') /\ populated i v b s s'.
Proof.
  intros Hlt. destruct (lookup_lt_is_Some_2 _ _ Hlt) as [v0 Hv]. unfold populateVersion, load_slot. mrun.
  destruct (vtIsVersion v) eqn:Hver; simpl; [|exists false, s; by split; [|left]].
  rewrite Hv. by apply populate_loop_run.
Qed.

Lemma publish_run i observed v s :
  (i < length (vt_slots s))%nat ->
  exists b s', populateVersionIfUnchanged (Some i) observed v s = (inr b, s') /\ populated i v b s s' /\
    (s' <> s -> vt_slots s !! i = Some observed).
Proof.
  intros Hlt. destruct (lookup_lt_is_Some_2 _ _ Hlt) as [v0 Hv]. unfold populateVersionIfUnchanged.
  destruct (vtIsVersion v) eqn:Hver; simpl; [|exists false, s; split; [done|]; split; [by left|done]].
  destruct (vtIsLock observed) eqn:Hl; [exists false, s; split; [done|]; split; [by left|done]|].
  destruct (observed =? v); [exists true, s; split; [done|]; split; [by left|done]|].
  rewrite (cas_run s i v0) by done. destruct (Z.eqb_spec v0 observed) as [->|Hne].
  - eexists true, _. split; [done|]. split; [right; split_and!; [done|done|by exists observed|done]|done].
  - exists false, s. split; [done|]. split; [by left|done].
Qed.

Lemma version_not_lock v : is_u64 v -> vtIsVersion v = true -> vtIsLock v = false.
Proof. intros Hu. rewrite vtIsVersion_spec, vtIsLock_spec by done. unfold is_u64 in Hu. lia. Qed.

Lemma populated_inv I R W s i v b s' :
  vt_inv I R W s -> populated i v b s s' -> is_u64 v -> vt_inv I R W s'.
Proof.
  intros Hinv [->|(_ & Hver & (v0 & Hv0 & Hl) & ->)] Hu; [done|].
  eapply vt_inv_store; [done|done|done|done|]. by apply version_not_lock.
Qed.
