(* ===== verification/VerificationTableSystem.v ===== *)
(** * Concurrent use of the verification table

    The table together with what its clients hold, as a system of atomic steps:
    the methods under [writerMutex_], the single accesses of the lock-free ones,
    and the slots of a sweep one by one, in every interleaving. *)

From S2P Require Import Prelude Encoding VerificationTable VerificationTableProofs.
From stdpp Require Import base tactics list gmap strings relations.
From coqutil Require Import Byte LittleEndianList.
From Stdlib Require Import ZArith Lia.

Local Open Scope Z_scope.

(** ** The system *)

Record vt_sys := mkSys {
  y_vt : VT;
  y_intents : list (nat * Z);   (* write intents taken and not released *)
  y_refs : list Z;              (* temporary references *)
  y_parked : list nat;          (* accepted wake callbacks *)
  y_sweeps : list (Z * nat);    (* sweeps under way: generation, next slot *)
}.

(** The bounds the code relies on: 32-bit counts, and settle generations that do
    not wrap. *)
Definition vt_room (y : vt_sys) : Prop :=
  few (y_intents y) (y_refs y) /\ vt_globalSettleGen (y_vt y) + 1 < 2 ^ 62.

Inductive vt_step : vt_sys -> vt_sys -> Prop :=
| step_lock s I R W Sw i db addr p s' :
    (i < length (vt_slots s))%nat -> is_ptr addr -> vt_heap s !! addr = None ->
    vt_room (mkSys s I R W Sw) ->
    lockSlotForWrite addr (Some i) db s = (inr (Some p), s') ->
    vt_step (mkSys s I R W Sw) (mkSys s' ((i, p) :: I) R W Sw)
| step_release s I I' R W Sw i p s' :
    I ≡ₚ (i, p) :: I' -> vt_room (mkSys s I R W Sw) ->
    releaseWriteIntent i (Some p) s = (inr tt, s') ->
    vt_step (mkSys s I R W Sw) (mkSys s' I' R W Sw)
| step_ref s I R W Sw i r s' :
    (i < length (vt_slots s))%nat -> vt_room (mkSys s I R W Sw) ->
    refTrackerIfLocked (Some i) s = (inr r, s') ->
    vt_step (mkSys s I R W Sw) (mkSys s' I (match r with Some p => p :: R | None => R end) W Sw)
| step_unref s I R R' W Sw p s' :
    R ≡ₚ p :: R' -> vt_room (mkSys s I R W Sw) ->
    unrefTracker (Some p) s = (inr tt, s') ->
    vt_step (mkSys s I R W Sw) (mkSys s' I R' W Sw)
| step_park s I R W Sw p cb b s' :
    p ∈ R -> addWakeCallback p cb s = (inr b, s') ->
    vt_step (mkSys s I R W Sw) (mkSys s' I R (if b : bool then cb :: W else W) Sw)
| step_populate s I R W Sw n i v b s' :
    (i < length (vt_slots s))%nat -> is_u64 v -> populateVersion n (Some i) v s = (inr b, s') ->
    vt_step (mkSys s I R W Sw) (mkSys s' I R W Sw)
| step_publish s I R W Sw i observed v b s' :
    (i < length (vt_slots s))%nat -> is_u64 v -> populateVersionIfUnchanged (Some i) observed v s = (inr b, s') ->
    vt_step (mkSys s I R W Sw) (mkSys s' I R W Sw)
| step_sweep s I R W Sw g s' :
    vt_room (mkSys s I R W Sw) -> vtNextSettleGen s = (inr g, s') ->
    vt_step (mkSys s I R W Sw) (mkSys s' I R W ((g, O) :: Sw))
| step_settle s I R W Sw Sw' g j s' :
    Sw ≡ₚ (g, j) :: Sw' -> (j < length (vt_slots s))%nat -> settle_slot (vtEncodeSettled g) j s = (inr tt, s') ->
    vt_step (mkSys s I R W Sw) (mkSys s' I R W ((g, S j) :: Sw'))
| step_cancel s I R W Sw db i s' :
    (i < length (vt_slots s))%nat -> vt_room (mkSys s I R W Sw) -> cancel_slot db i s = (inr tt, s') ->
    vt_step (mkSys s I R W Sw) (mkSys s' I R W Sw).

(** A new table that nobody uses. *)
Definition vt_start (y : vt_sys) : Prop :=
  exists numEntries seed s, VerificationTable_new numEntries seed = Some s /\ y = mkSys s [] [] [] [].

Definition vt_reachable (y : vt_sys) : Prop := exists y0, vt_start y0 /\ rtc vt_step y0 y.

(** ** The invariant of the system *)

Record sys_inv (y : vt_sys) : Prop := mkSysInv {
  yi_table : vt_inv (y_intents y) (y_refs y) (y_parked y) (y_vt y);
  yi_slots : in_table (y_intents y) (y_vt y);
  yi_range : forall g j, (g, j) ∈ y_sweeps y -> 0 <= g < vt_globalSettleGen (y_vt y);
  yi_ahead : forall g j i, (g, j) ∈ y_sweeps y -> (j <= i)%nat -> vt_slots (y_vt y) !! i <> Some (vtEncodeSettled g);
  yi_old : forall i g, vt_slots (y_vt y) !! i = Some (vtEncodeSettled g) -> 0 <= g < 2 ^ 62 -> g < vt_globalSettleGen (y_vt y);
  yi_distinct : NoDup (y_sweeps y).*1;
  yi_bound : vt_globalSettleGen (y_vt y) < 2 ^ 62;
}.

(** How one step may change the slots, the generation counter and the sweeps. *)
Inductive slots_change (y y' : vt_sys) : Prop :=
| same_slots :
    vt_slots (y_vt y') = vt_slots (y_vt y) -> y_sweeps y' = y_sweeps y ->
    (vt_globalSettleGen (y_vt y') = vt_globalSettleGen (y_vt y) \/
     vt_globalSettleGen (y_vt y') = vt_globalSettleGen (y_vt y) + 1) -> slots_change y y'
| new_value i v0 v :     (* a lock or a version *)
    vt_slots (y_vt y) !! i = Some v0 -> vt_slots (y_vt y') = <[i := v]> (vt_slots (y_vt y)) ->
    is_u64 v -> vtIsSettled v = false -> v <> 0 ->
    y_sweeps y' = y_sweeps y -> vt_globalSettleGen (y_vt y') = vt_globalSettleGen (y_vt y) -> slots_change y y'
| fresh_generation i v0 :
    vt_slots (y_vt y) !! i = Some v0 ->
    vt_slots (y_vt y') = <[i := vtEncodeSettled (vt_globalSettleGen (y_vt y))]> (vt_slots (y_vt y)) ->
    y_sweeps y' = y_sweeps y -> vt_globalSettleGen (y_vt y') = vt_globalSettleGen (y_vt y) + 1 -> slots_change y y'
| sweep_begins :
    vt_slots (y_vt y') = vt_slots (y_vt y) -> y_sweeps y' = (vt_globalSettleGen (y_vt y), O) :: y_sweeps y ->
    vt_globalSettleGen (y_vt y') = vt_globalSettleGen (y_vt y) + 1 -> slots_change y y'
| sweep_slot g j Sw v0 :
    y_sweeps y ≡ₚ (g, j) :: Sw -> y_sweeps y' = (g, S j) :: Sw ->
    vt_slots (y_vt y) !! j = Some v0 ->
    (vt_slots (y_vt y') = vt_slots (y_vt y) /\ vtIsLock v0 = true \/
     vt_slots (y_vt y') = <[j := vtEncodeSettled g]> (vt_slots (y_vt y))) ->
    vt_globalSettleGen (y_vt y') = vt_globalSettleGen (y_vt y) -> slots_change y y'.

Ltac ysimpl := cbn [y_vt y_intents y_refs y_parked y_sweeps] in *.

Lemma mask_gen g : 0 <= g < 2 ^ 62 -> Z.land g VT_SETTLED_GEN_MASK = g.
Proof. intros Hg. change VT_SETTLED_GEN_MASK with (Z.ones 62). rewrite Z.land_ones by lia. by apply Z.mod_small. Qed.

Lemma lock_not_settled p g : is_ptr p -> vtIsSettled (vtEncodeLock p g) = false /\ vtEncodeLock p g <> 0.
Proof.
  intros Hp. pose proof (Z.mod_pos_bound g (2 ^ 14) ltac:(lia)) as Hg. destruct (lock_u64 p g Hp) as [Hu _].
  rewrite vtIsSettled_spec, lock_value by done. unfold is_ptr in Hp. lia.
Qed.

Lemma settled_is_settled g : vtIsSettled (vtEncodeSettled g) = true.
Proof.
  pose proof (Z.mod_pos_bound g (2 ^ 62) ltac:(lia)). destruct (settled_u64 g) as [Hu _].
  rewrite vtIsSettled_spec, settled_value by done. lia.
Qed.

Lemma version_not_settled v : is_u64 v -> vtIsVersion v = true -> vtIsSettled v = false /\ v <> 0.
Proof. intros Hu. rewrite vtIsVersion_spec, vtIsSettled_spec by done. lia. Qed.

Definition table_ok (y : vt_sys) : Prop :=
  vt_inv (y_intents y) (y_refs y) (y_parked y) (y_vt y) /\ in_table (y_intents y) (y_vt y) /\
  vt_globalSettleGen (y_vt y) < 2 ^ 62.

Lemma in_table_slots I s s' : length (vt_slots s') = length (vt_slots s) -> in_table I s -> in_table I s'.
Proof. intros H. unfold in_table. by rewrite H. Qed.

Lemma populated_change s I R W Sw i v b s' :
  is_u64 v -> populated i v b s s' ->
  length (vt_slots s') = length (vt_slots s) /\ vt_globalSettleGen s' = vt_globalSettleGen s /\
  slots_change (mkSys s I R W Sw) (mkSys s' I R W Sw).
Proof.
  intros Hu [->|(_ & Hver & (v0 & Hv0 & _) & ->)].
  - split_and!; [done|done|]. apply same_slots; simpl; auto.
  - simpl. rewrite length_insert. split_and!; [done|done|]. destruct (version_not_settled v Hu Hver).
    by apply (new_value _ _ i v0 v).
Qed.

Lemma step_lock_change s I R W Sw i db addr p s' :
  sys_inv (mkSys s I R W Sw) -> (i < length (vt_slots s))%nat -> is_ptr addr -> vt_heap s !! addr = None -> few I R ->
  lockSlotForWrite addr (Some i) db s = (inr (Some p), s') ->
  table_ok (mkSys s' ((i, p) :: I) R W Sw) /\ slots_change (mkSys s I R W Sw) (mkSys s' ((i, p) :: I) R W Sw).
Proof.
  intros [Hinv Htab _ _ _ _ Hb] Hi Hp Hfresh Hfew Hrun. ysimpl.
  destruct (vt_inv_lookup _ _ _ _ i Hinv Hi) as (v & Hv & _).
  assert (Htab' : forall s', length (vt_slots s') = length (vt_slots s) -> in_table ((i, p) :: I) s').
  { intros s1 Hs1. constructor; [simpl; lia|by eapply in_table_slots]. }
  destruct (vtIsLock v) eqn:Hl.
  - destruct (lock_join I R W s i v addr db Hinv Hfew Hv Hl) as (s1 & Hrun1 & Hinv1 & Hs1 & Hg1).
    rewrite Hrun in Hrun1. injection Hrun1 as -> <-. split; [|apply same_slots; simpl; auto].
    split_and!; simpl; [done|apply Htab'; by rewrite Hs1|by rewrite Hg1].
  - destruct (lock_install I R W s i v addr db Hinv Hv Hl Hp Hfresh) as (s1 & g & Hrun1 & Hinv1 & Hs1 & Hg1).
    rewrite Hrun in Hrun1. injection Hrun1 as -> <-. destruct (lock_not_settled addr g Hp). destruct (lock_u64 addr g Hp).
    split; [|by apply (new_value _ _ i v (vtEncodeLock addr g))].
    split_and!; simpl; [done|apply Htab'; by rewrite Hs1, length_insert|by rewrite Hg1].
Qed.

Lemma step_release_change s I I' R W Sw i p s' :
  sys_inv (mkSys s I R W Sw) -> I ≡ₚ (i, p) :: I' -> vt_room (mkSys s I R W Sw) ->
  releaseWriteIntent i (Some p) s = (inr tt, s') ->
  table_ok (mkSys s' I' R W Sw) /\ slots_change (mkSys s I R W Sw) (mkSys s' I' R W Sw).
Proof.
  intros [Hinv Htab _ _ _ _ Hb] HI [Hfew Hroom] Hrun. ysimpl. pose proof (vi_settle _ _ _ _ Hinv) as Hpos.
  destruct (release_run I I' R W s i p Hinv Hfew Htab HI) as (s1 & g & Hrun1 & Hinv1 & Hcase).
  rewrite Hrun in Hrun1. injection Hrun1 as <-.
  assert (Htab1 : in_table I' s).
  { unfold in_table in *. rewrite HI in Htab. by inversion Htab. }
  destruct Hcase as [[Hs Hg]|(Hg & -> & Hcase)].
  - split; [|apply same_slots; simpl; auto]. split_and!; simpl; [done|eapply in_table_slots; [|done]; by rewrite Hs|lia].
  - rewrite u64_small in Hg by (unfold is_u64; lia). rewrite mask_gen in Hcase by lia.
    destruct Hcase as [Hs|[(v & Hv & _) Hs]].
    + split; [|apply same_slots; simpl; auto]. split_and!; simpl; [done|eapply in_table_slots; [|done]; by rewrite Hs|lia].
    + split; [|by apply (fresh_generation _ _ i v)].
      split_and!; simpl; [done|eapply in_table_slots; [|done]; by rewrite Hs, length_insert|lia].
Qed.

Lemma step_change y y' : sys_inv y -> vt_step y y' -> table_ok y' /\ slots_change y y'.
Proof.
  intros Hy Hstep. pose proof Hy as [Hinv Htab Hrange Hahead Hold Hdist Hb]. pose proof (vi_settle _ _ _ _ Hinv) as Hpos.
  destruct Hstep as [s I R W Sw i db addr p s' Hi Hp Hfresh [Hfew _] Hrun|s I I' R W Sw i p s' HI Hroom Hrun
    |s I R W Sw i r s' Hi [Hfew _] Hrun|s I R R' W Sw p s' HR [Hfew _] Hrun|s I R W Sw p cb b s' Hp Hrun
    |s I R W Sw n i v b s' Hi Hv Hrun|s I R W Sw i obs v b s' Hi Hv Hrun
    |s I R W Sw g s' [_ Hroom] Hrun|s I R W Sw Sw' g j s' HSw Hj Hrun|s I R W Sw db i s' Hi [Hfew Hroom] Hrun]; ysimpl.
  - by eapply step_lock_change.
  - by eapply step_release_change.
  - destruct (ref_run I R W s i Hinv Hfew Hi) as (r1 & s1 & Hr1 & Hs1 & Hg1 & Hinv1).
    rewrite Hrun in Hr1. injection Hr1 as <- <-. split; [|apply same_slots; simpl; auto].
    split_and!; simpl; [done|eapply in_table_slots; [|done]; by rewrite Hs1|lia].
  - destruct (unref_run I R R' W s p Hinv Hfew HR) as (s1 & Hr1 & Hs1 & Hg1 & Hinv1).
    rewrite Hrun in Hr1. injection Hr1 as <-. split; [|apply same_slots; simpl; auto].
    split_and!; simpl; [done|eapply in_table_slots; [|done]; by rewrite Hs1|lia].
  - destruct (park_run I R W s p cb Hinv Hp) as (b1 & s1 & Hr1 & Hs1 & Hg1 & Hinv1).
    rewrite Hrun in Hr1. injection Hr1 as <- <-. split; [|apply same_slots; simpl; auto].
    split_and!; simpl; [done|eapply in_table_slots; [|done]; by rewrite Hs1|lia].
  - destruct (populate_run n i v s Hi) as (b1 & s1 & Hr1 & Hp1). rewrite Hrun in Hr1. injection Hr1 as <- <-.
    destruct (populated_change s I R W Sw i v b s' Hv Hp1) as (Hl & Hg & Hch). split; [|done].
    split_and!; simpl; [by eapply populated_inv|by eapply in_table_slots|lia].
  - destruct (publish_run i obs v s Hi) as (b1 & s1 & Hr1 & Hp1 & _). rewrite Hrun in Hr1. injection Hr1 as <- <-.
    destruct (populated_change s I R W Sw i v b s' Hv Hp1) as (Hl & Hg & Hch). split; [|done].
    split_and!; simpl; [by eapply populated_inv|by eapply in_table_slots|lia].
  - unfold vtNextSettleGen in Hrun. mrun in Hrun. injection Hrun as <- <-.
    rewrite mask_gen, u64_small by (unfold is_u64; lia). split; [|by apply sweep_begins].
    split_and!; simpl; [|done|lia]. destruct Hinv. constructor; simpl; try done. lia.
  - destruct (settle_run I R W s g j Hinv Hj) as (s1 & Hr1 & Hinv1 & Hg1 & Hcase). rewrite Hrun in Hr1. injection Hr1 as <-.
    destruct (lookup_lt_is_Some_2 _ _ Hj) as [v0 Hv0].
    assert (Hlen : length (vt_slots s') = length (vt_slots s)) by (destruct Hcase as [[-> _]| ->]; [done|by rewrite length_insert]).
    split; [split_and!; simpl; [done|by eapply in_table_slots|lia]|].
    apply (sweep_slot _ _ g j Sw' v0); simpl; try done. destruct Hcase as [[-> (v & Hv & Hl)]| ->]; [left|by right].
    split; [done|congruence].
  - destruct (cancel_run I R W s db i Hinv Hi) as (s1 & g & Hr1 & Hinv1 & Hcase). rewrite Hrun in Hr1. injection Hr1 as <-.
    destruct Hcase as [[Hs Hg]|(Hg & -> & (v & Hv & _) & Hs)].
    + split; [|apply same_slots; simpl; auto]. split_and!; simpl; [done|eapply in_table_slots; [|done]; by rewrite Hs|lia].
    + rewrite u64_small in Hg by (unfold is_u64; lia). rewrite mask_gen in Hs by lia.
      split; [|by apply (fresh_generation _ _ i v)].
      split_and!; simpl; [done|eapply in_table_slots; [|done]; by rewrite Hs, length_insert|lia].
Qed.

(** A slot after one value was stored. *)
Lemma insert_settled (l : list Z) i v k g :
  <[i := v]> l !! k = Some (vtEncodeSettled g) -> k = i /\ v = vtEncodeSettled g \/ k <> i /\ l !! k = Some (vtEncodeSettled g).
Proof.
  intros H. destruct (decide (i = k)) as [<-|Hne]; [left|right; rewrite list_lookup_insert_ne in H by done; done].
  pose proof (lookup_lt_Some _ _ _ H) as Hlt. rewrite length_insert in Hlt. rewrite list_lookup_insert_eq in H by done.
  by injection H as ->.
Qed.

Lemma change_inv y y' : sys_inv y -> slots_change y y' -> table_ok y' -> sys_inv y'.
Proof.
  intros [Hinv Htab Hrange Hahead Hold Hdist Hb] Hch (Hinv' & Htab' & Hb'). pose proof (vi_settle _ _ _ _ Hinv) as Hpos.
  constructor; try done.
  - intros g j. destruct Hch as [_ -> Hg|i v0 v _ _ _ _ _ -> ->|i v0 _ _ -> ->|_ -> ->|g0 j0 Sw v0 HSw -> _ _ ->].
    + intros Hin. specialize (Hrange g j Hin). lia.
    + apply Hrange.
    + intros Hin. specialize (Hrange g j Hin). lia.
    + intros [[= -> ->]|Hin]%elem_of_cons; [lia|]. specialize (Hrange g j Hin). lia.
    + intros [[= -> ->]|Hin]%elem_of_cons; [apply (Hrange g0 j0)|apply (Hrange g j)]; rewrite HSw; [by left|by right].
  - intros g j k Hin Hle Hk.
    destruct Hch as [Hs Hsw _|i v0 v _ Hs _ Hns _ Hsw _|i v0 _ Hs Hsw _|Hs Hsw _|g0 j0 Sw v0 HSw Hsw Hv0 Hs _];
      rewrite Hsw in Hin.
    + rewrite Hs in Hk. by apply (Hahead g j k).
    + rewrite Hs in Hk. apply insert_settled in Hk as [[-> ->]|[_ Hk]]; [by rewrite settled_is_settled in Hns|by apply (Hahead g j k)].
    + rewrite Hs in Hk. apply insert_settled in Hk as [[-> He]|[_ Hk]]; [|by apply (Hahead g j k)].
      pose proof (Hrange g j Hin). apply settled_inj in He; lia.
    + rewrite Hs in Hk. apply elem_of_cons in Hin as [[= -> ->]|Hin]; [|by apply (Hahead g j k)].
      specialize (Hold k _ Hk). lia.
    + assert (Hg0 : (g0, j0) ∈ y_sweeps y) by (rewrite HSw; by left).
      assert (Hd : NoDup ((g0, j0) :: Sw).*1) by (by rewrite <- HSw).
      apply elem_of_cons in Hin as [[= -> ->]|Hin].
      * destruct Hs as [[Hs _]|Hs]; rewrite Hs in Hk; [apply (Hahead g0 j0 k); [done|lia|done]|].
        apply insert_settled in Hk as [[-> _]|[_ Hk]]; [lia|]. apply (Hahead g0 j0 k); [done|lia|done].
      * assert (Hin' : (g, j) ∈ y_sweeps y) by (rewrite HSw; by right).
        destruct Hs as [[Hs _]|Hs]; rewrite Hs in Hk; [by apply (Hahead g j k)|].
        apply insert_settled in Hk as [[-> He]|[_ Hk]]; [|by apply (Hahead g j k)].
        pose proof (Hrange _ _ Hg0). pose proof (Hrange _ _ Hin'). apply settled_inj in He; [subst g0|lia|lia].
        simpl in Hd. apply NoDup_cons in Hd as [Hnot _]. apply Hnot. apply list_elem_of_fmap. by exists (g, j).
  - intros k g Hk Hg.
    destruct Hch as [Hs Hsw Hgn|i v0 v _ Hs _ Hns _ Hsw Hgn|i v0 _ Hs Hsw Hgn|Hs Hsw Hgn|g0 j0 Sw v0 HSw Hsw Hv0 Hs Hgn].
    + rewrite Hs in Hk. specialize (Hold k g Hk Hg). lia.
    + rewrite Hs in Hk. apply insert_settled in Hk as [[-> ->]|[_ Hk]]; [by rewrite settled_is_settled in Hns|].
      specialize (Hold k g Hk Hg). lia.
    + rewrite Hs in Hk. apply insert_settled in Hk as [[-> He]|[_ Hk]]; [apply settled_inj in He; lia|].
      specialize (Hold k g Hk Hg). lia.
    + rewrite Hs in Hk. specialize (Hold k g Hk Hg). lia.
    + assert (Hr0 : 0 <= g0 < vt_globalSettleGen (y_vt y)) by (apply (Hrange g0 j0); rewrite HSw; by left).
      destruct Hs as [[Hs _]|Hs]; rewrite Hs in Hk; [specialize (Hold k g Hk Hg); lia|].
      apply insert_settled in Hk as [[-> He]|[_ Hk]]; [apply settled_inj in He; lia|]. specialize (Hold k g Hk Hg). lia.
  - destruct Hch as [_ -> _|i v0 v _ _ _ _ _ -> _|i v0 _ _ -> _|_ -> _|g0 j0 Sw v0 HSw -> _ _ _]; try done.
    + rewrite fmap_cons. apply NoDup_cons. split; [|done]. simpl. intros [[g j] [He Hin]]%list_elem_of_fmap.
      simpl in He. specialize (Hrange g j Hin). lia.
    + by rewrite HSw in Hdist.
Qed.

Lemma start_inv y : vt_start y -> sys_inv y.
Proof.
  intros (n & seed & s & Hnew & ->). unfold VerificationTable_new in Hnew.
  assert (Hz : exists k m, s = mkVT (replicate k 0) m seed ∅ 0 1 []).
  { destruct (n =? 0); [injection Hnew as <-; by exists O, 0|].
    destruct (roundUpToPowerOf2 n) as [m|]; [|done]. injection Hnew as <-. by exists (Z.to_nat m), (m - 1). }
  destruct Hz as (k & m & ->). clear Hnew.
  assert (H0 : forall i v, replicate k 0 !! i = Some v -> v = 0) by (intros i v [-> _]%lookup_replicate; done).
  constructor; ysimpl; cbn [vt_slots vt_globalSettleGen].
  - constructor; cbn [vt_slots vt_heap vt_fired vt_globalSettleGen]; try done.
    + apply Forall_replicate. unfold is_u64. lia.
    + intros i v ->%H0. done.
    + by intros i p ?%elem_of_nil.
    + by intros p ?%elem_of_nil.
    + by intros cb ?%elem_of_nil.
  - constructor.
  - by intros g j ?%elem_of_nil.
  - by intros g j i ?%elem_of_nil.
  - intros i g Hi%H0. destruct (settled_u64 g) as (_ & _ & Hne). congruence.
  - constructor.
  - lia.
Qed.

Lemma reachable_inv y : vt_reachable y -> sys_inv y.
Proof.
  intros (y0 & H0 & Hsteps). apply start_inv in H0. induction Hsteps as [y|y y1 y2 Hstep _ IH]; [done|].
  apply IH. destruct (step_change y y1 H0 Hstep). by eapply change_inv.
Qed.

(** ** Values that do not come back *)

(** The slot does not hold [x] and nothing under way will store it. *)
Definition gone (i : nat) (x : Z) (y : vt_sys) : Prop :=
  vt_slots (y_vt y) !! i <> Some x /\
  (x = 0 \/ exists g, x = vtEncodeSettled g /\ 0 <= g < vt_globalSettleGen (y_vt y) /\
     forall j, (g, j) ∈ y_sweeps y -> (i < j)%nat).

Lemma step_sweeps y y' g j :
  slots_change y y' -> (g, j) ∈ y_sweeps y' ->
  (g, j) ∈ y_sweeps y \/ g = vt_globalSettleGen (y_vt y) \/ exists j', j = S j' /\ (g, j') ∈ y_sweeps y.
Proof.
  intros [_ -> _|i v0 v _ _ _ _ _ -> _|i v0 _ _ -> _|_ -> _|g0 j0 Sw v0 HSw -> _ _ _] Hin; auto.
  - apply elem_of_cons in Hin as [[= -> ->]|Hin]; auto.
  - apply elem_of_cons in Hin as [[= -> ->]|Hin]; [|left; rewrite HSw; by right].
    right. right. exists j0. split; [done|]. rewrite HSw. by left.
Qed.

Lemma gen_grows y y' : slots_change y y' -> vt_globalSettleGen (y_vt y) <= vt_globalSettleGen (y_vt y').
Proof. intros [_ _ Hg|? ? ? _ _ _ _ _ _ Hg|? ? _ _ _ Hg|_ _ Hg|? ? ? ? _ _ _ _ Hg]; lia. Qed.

(** What a step stores in slot [i]. *)
Lemma step_stores y y' i x :
  sys_inv y -> slots_change y y' -> vt_slots (y_vt y') !! i = Some x -> vt_slots (y_vt y) !! i <> Some x ->
  x <> 0 /\ (vtIsSettled x = false \/ x = vtEncodeSettled (vt_globalSettleGen (y_vt y)) \/
    exists g, (g, i) ∈ y_sweeps y /\ x = vtEncodeSettled g).
Proof.
  intros Hy Hch Hx Hne.
  assert (Hins : forall k v, vt_slots (y_vt y') = <[k := v]> (vt_slots (y_vt y)) -> k = i /\ x = v).
  { intros k v Hs. rewrite Hs in Hx. destruct (decide (k = i)) as [->|Hk]; [|by rewrite list_lookup_insert_ne in Hx].
    pose proof (lookup_lt_Some _ _ _ Hx) as Hlt. rewrite length_insert in Hlt.
    rewrite list_lookup_insert_eq in Hx by done. by injection Hx as ->. }
  destruct Hch as [Hs _ _|k v0 v _ Hs _ Hns Hnz _ _|k v0 _ Hs _ _|Hs _ _|g0 j0 Sw v0 HSw _ _ Hs _].
  - by rewrite Hs in Hx.
  - destruct (Hins _ _ Hs) as [-> ->]. auto.
  - destruct (Hins _ _ Hs) as [-> ->]. split; [apply settled_u64|auto].
  - by rewrite Hs in Hx.
  - destruct Hs as [[Hs _]|Hs]; [by rewrite Hs in Hx|]. destruct (Hins _ _ Hs) as [-> ->].
    split; [apply settled_u64|]. right. right. exists g0. split; [|done]. rewrite HSw. by left.
Qed.

Lemma gone_step y y' i x : sys_inv y -> slots_change y y' -> gone i x y -> gone i x y'.
Proof.
  intros Hy Hch [Hne Hx]. split.
  - intros Hx'. destruct (step_stores y y' i x Hy Hch Hx' Hne) as [Hnz Hcase].
    destruct Hx as [->|(g & -> & Hg & Hsw)]; [done|]. destruct Hcase as [Hns|[He|(g' & Hin & He)]].
    + by rewrite settled_is_settled in Hns.
    + pose proof (yi_bound _ Hy). apply settled_inj in He; lia.
    + pose proof (yi_bound _ Hy). pose proof (yi_range _ Hy g' i Hin). apply settled_inj in He; [subst g'|lia|lia].
      specialize (Hsw i Hin). lia.
  - destruct Hx as [->|(g & -> & Hg & Hsw)]; [by left|right]. exists g. pose proof (gen_grows y y' Hch).
    split_and!; [done|lia|lia|]. intros j Hin. destruct (step_sweeps y y' g j Hch Hin) as [?|[?|(j' & -> & Hj')]]; [auto|lia|].
    specialize (Hsw j' Hj'). lia.
Qed.

Lemma settled_decode x : is_u64 x -> vtIsSettled x = true -> exists g, 0 <= g < 2 ^ 62 /\ x = vtEncodeSettled g.
Proof.
  intros Hu Hx. rewrite vtIsSettled_spec in Hx by done. exists (x - 2 ^ 63 - 2 ^ 62). unfold is_u64 in Hu.
  rewrite settled_value, Z.mod_small by lia. lia.
Qed.

(** A value that is no version is gone once the slot held another one. *)
Lemma leaves_gone y y' i x :
  sys_inv y -> slots_change y y' -> vt_slots (y_vt y) !! i = Some x ->
  x = 0 \/ vtIsSettled x = true -> vt_slots (y_vt y') !! i <> Some x -> gone i x y'.
Proof.
  intros Hy Hch Hi Hx Hne. split; [done|]. destruct Hx as [->|Hx]; [by left|right].
  assert (Hu : is_u64 x) by (eapply Forall_lookup_1; [apply (yi_table _ Hy)|done]).
  destruct (settled_decode x Hu Hx) as (g & Hg & ->).
  exists g. pose proof (yi_old _ Hy i g Hi Hg) as Hlt. pose proof (gen_grows y y' Hch).
  split_and!; [done|lia|lia|]. intros j Hin.
  destruct (step_sweeps y y' g j Hch Hin) as [Hin'|[?|(j' & -> & Hj')]]; [|lia|].
  - destruct (decide (i < j)%nat); [done|]. exfalso. apply (yi_ahead _ Hy g j i Hin'); [lia|done].
  - destruct (decide (i < S j')%nat); [done|]. exfalso. apply (yi_ahead _ Hy g j' i Hj'); [lia|done].
Qed.

Lemma rtc_inv y y' : sys_inv y -> rtc vt_step y y' -> sys_inv y'.
Proof.
  intros Hy Hsteps. induction Hsteps as [y|y y1 y2 Hstep _ IH]; [done|].
  apply IH. destruct (step_change y y1 Hy Hstep). by eapply change_inv.
Qed.

Lemma gone_rtc y y' i x : sys_inv y -> rtc vt_step y y' -> gone i x y -> gone i x y'.
Proof.
  intros Hy Hsteps. induction Hsteps as [y|y y1 y2 Hstep _ IH]; [done|]. intros Hg.
  destruct (step_change y y1 Hy Hstep) as [Hok Hch]. apply IH; [by eapply change_inv|by eapply gone_step].
Qed.

Lemma leaves_rtc y y' i x :
  sys_inv y -> rtc vt_step y y' -> vt_slots (y_vt y) !! i = Some x -> x = 0 \/ vtIsSettled x = true ->
  vt_slots (y_vt y') !! i <> Some x -> gone i x y'.
Proof.
  intros Hy Hsteps. induction Hsteps as [y|y y1 y2 Hstep Hrest IH]; intros Hi Hx Hne; [done|].
  destruct (step_change y y1 Hy Hstep) as [Hok Hch]. assert (Hy1 : sys_inv y1) by (by eapply change_inv).
  destruct (decide (vt_slots (y_vt y1) !! i = Some x)) as [He|Hn]; [by apply IH|].
  eapply gone_rtc; [exact Hy1|done|]. by apply (leaves_gone y y1).
Qed.

(** ** Properties *)

(** C12: no lock tracker is used after it was freed.  In every state any
    interleaving of the clients' operations reaches, each operation a client may
    make returns: whatever pointer it follows, from a slot or from the client's
    own holdings, leads to a live tracker. *)
Theorem vt_no_dangling y :
  vt_reachable y -> vt_room y ->
  (forall i db addr, (i < length (vt_slots (y_vt y)))%nat -> is_ptr addr -> vt_heap (y_vt y) !! addr = None ->
     exists p s', lockSlotForWrite addr (Some i) db (y_vt y) = (inr (Some p), s')) /\
  (forall i p, (i, p) ∈ y_intents y -> exists s', releaseWriteIntent i (Some p) (y_vt y) = (inr tt, s')) /\
  (forall i, (i < length (vt_slots (y_vt y)))%nat -> exists r s', refTrackerIfLocked (Some i) (y_vt y) = (inr r, s')) /\
  (forall p, p ∈ y_refs y -> exists s', unrefTracker (Some p) (y_vt y) = (inr tt, s')) /\
  (forall p cb, p ∈ y_refs y -> exists b s', addWakeCallback p cb (y_vt y) = (inr b, s')) /\
  (forall db i, (i < length (vt_slots (y_vt y)))%nat -> exists s', cancel_slot db i (y_vt y) = (inr tt, s')).
Proof.
  intros Hr%reachable_inv [Hfew _]. pose proof (yi_table _ Hr) as Hinv. split_and!.
  - intros i db addr Hi Hp Hfresh. destruct (vt_inv_lookup _ _ _ _ i Hinv Hi) as (v & Hv & _).
    destruct (vtIsLock v) eqn:Hl.
    + destruct (lock_join _ _ _ _ i v addr db Hinv Hfew Hv Hl) as (s' & H & _). eauto.
    + destruct (lock_install _ _ _ _ i v addr db Hinv Hv Hl Hp Hfresh) as (s' & g & H & _). eauto.
  - intros i p [I' HI]%elem_of_Permutation.
    destruct (release_run _ I' _ _ _ i p Hinv Hfew (yi_slots _ Hr) HI) as (s' & g & H & _). eauto.
  - intros i Hi. destruct (ref_run _ _ _ _ i Hinv Hfew Hi) as (r & s' & H & _). eauto.
  - intros p [R' HR]%elem_of_Permutation. destruct (unref_run _ _ R' _ _ p Hinv Hfew HR) as (s' & H & _). eauto.
  - intros p cb Hp. destruct (park_run _ _ _ _ p cb Hinv Hp) as (b & s' & H & _). eauto.
  - intros db i Hi. destruct (cancel_run _ _ _ _ db i Hinv Hi) as (s' & g & H & _). eauto.
Qed.

(** When the last write intent and reference are gone the table is clean: no
    tracker is leaked, no slot is locked, and every parked waiter was woken. *)
Theorem vt_quiescent y :
  vt_reachable y -> y_intents y = [] -> y_refs y = [] ->
  vt_heap (y_vt y) = ∅ /\
  (forall i v, vt_slots (y_vt y) !! i = Some v -> vtIsLock v = false) /\
  (forall cb, cb ∈ y_parked y -> cb ∈ vt_fired (y_vt y)).
Proof.
  intros Hr%reachable_inv HI HR. pose proof (yi_table _ Hr) as Hinv. rewrite HI, HR in Hinv.
  assert (Hh : vt_heap (y_vt y) = ∅).
  { apply map_empty. intros p. destruct (vt_heap (y_vt y) !! p) as [t|] eqn:Hp; [|done]. exfalso.
    pose proof (vi_tracker _ _ _ _ Hinv p t Hp) as [_ _ _ Hrc Hal _ _ _]. unfold intents, refs in Hrc. simpl in Hrc. lia. }
  split_and!; [done| |].
  - intros i v Hv. destruct (vtIsLock v) eqn:Hl; [|done].
    destruct (vi_lock _ _ _ _ Hinv i v Hv Hl) as (t & Ht & _). by rewrite Hh, lookup_empty in Ht.
  - intros cb Hcb. destruct (vi_waiting _ _ _ _ Hinv cb Hcb) as [?|(p & t & Hp & _)]; [done|].
    by rewrite Hh, lookup_empty in Hp.
Qed.

(** C13: a cold populate notices every write it did not see.  If a reader saw a
    slot that held no version, and the slot held anything else at some time since,
    as it does once a write intent is registered, then in every later state the
    populate from the value seen fails and leaves the table alone. *)
Theorem populate_detects_writes y1 y2 y3 i x v :
  vt_reachable y1 -> vt_slots (y_vt y1) !! i = Some x -> x = 0 \/ vtIsSettled x = true ->
  rtc vt_step y1 y2 -> vt_slots (y_vt y2) !! i <> Some x -> rtc vt_step y2 y3 ->
  (i < length (vt_slots (y_vt y3)))%nat -> is_u64 v ->
  populateVersionIfUnchanged (Some i) x v (y_vt y3) = (inr false, y_vt y3).
Proof.
  intros Hr%reachable_inv Hi Hx Hsteps Hne Hsteps' Hlt Hv.
  destruct (gone_rtc y2 y3 i x) as [Hgone _]; [by eapply rtc_inv|done|by eapply leaves_rtc|].
  unfold populateVersionIfUnchanged. destruct (vtIsVersion v) eqn:Hver; [|done]. simpl.
  destruct (vtIsLock x); [done|].
  destruct (Z.eqb_spec x v) as [->|_].
  { destruct (version_not_settled v Hv Hver) as [Hns Hnz]. destruct Hx; congruence. }
  destruct (lookup_lt_is_Some_2 _ _ Hlt) as [v0 Hv0]. rewrite (cas_run _ i v0) by done.
  by destruct (Z.eqb_spec v0 x) as [->|].
Qed.

(** A writer locks slot 0 of a four-slot table, a waiter parks on the lock, the
    writer releases and the waiter drops its reference. *)
Definition demo_table : VT := mkVT [0; 0; 0; 0] 3 7 ∅ 0 1 [].
Definition demo_locked : VT := snd (lockSlotForWrite 4096 (Some 0%nat) 1 demo_table).
Definition demo_ref : VT := snd (refTrackerIfLocked (Some 0%nat) demo_locked).
Definition demo_parked : VT := snd (addWakeCallback 4096 9 demo_ref).
Definition demo_released : VT := snd (releaseWriteIntent 0 (Some 4096) demo_parked).
Definition demo_done : VT := snd (unrefTracker (Some 4096) demo_released).

Lemma demo_start : vt_start (mkSys demo_table [] [] [] []).
Proof. exists 4, 7, demo_table. split; [vm_compute; reflexivity|done]. Qed.

Lemma demo_lock_step : vt_step (mkSys demo_table [] [] [] []) (mkSys demo_locked [(0%nat, 4096)] [] [] []).
Proof.
  apply (step_lock demo_table [] [] [] [] 0 1 4096 4096); try (vm_compute; reflexivity).
  - simpl. lia.
  - unfold is_ptr. lia.
  - vm_compute. split; reflexivity.
Qed.

Lemma demo_rest : rtc vt_step (mkSys demo_locked [(0%nat, 4096)] [] [] []) (mkSys demo_done [] [] [9%nat] []).
Proof.
  eapply rtc_l; [apply (step_ref demo_locked _ _ _ _ 0 (Some 4096) demo_ref);
    [vm_compute; lia|vm_compute; split; reflexivity|vm_compute; reflexivity]|].
  eapply rtc_l; [apply (step_park demo_ref _ _ _ _ 4096 9 true demo_parked); [by left|vm_compute; reflexivity]|].
  eapply rtc_l; [apply (step_release demo_parked _ [] _ _ _ 0 4096 demo_released);
    [done|vm_compute; split; reflexivity|vm_compute; reflexivity]|].
  apply rtc_once, (step_unref demo_released _ _ [] _ _ 4096 demo_done);
    [done|vm_compute; split; reflexivity|vm_compute; reflexivity].
Qed.

Lemma vt_no_dangling_witness :
  exists p s', lockSlotForWrite 8192 (Some 0%nat) 2 demo_locked = (inr (Some p), s').
Proof.
  apply (vt_no_dangling (mkSys demo_locked [(0%nat, 4096)] [] [] [])).
  - exists (mkSys demo_table [] [] [] []). split; [exact demo_start|apply rtc_once, demo_lock_step].
  - vm_compute. split; reflexivity.
  - vm_compute. lia.
  - unfold is_ptr. lia.
  - vm_compute. reflexivity.
Defined.


Lemma populate_detects_writes_witness :
  populateVersionIfUnchanged (Some 0%nat) 0 42 demo_done = (inr false, demo_done).
Proof.
  apply (populate_detects_writes (mkSys demo_table [] [] [] []) (mkSys demo_locked [(0%nat, 4096)] [] [] [])
    (mkSys demo_done [] [] [9%nat] [])).
  - exists (mkSys demo_table [] [] [] []). split; [exact demo_start|constructor].
  - reflexivity.
  - by left.
  - apply rtc_once, demo_lock_step.
  - vm_compute. discriminate.
  - exact demo_rest.
  - vm_compute. lia.
  - unfold is_u64. lia.
Defined.

(** A hash collision can make a stale record verify.  Keys [b] and [c] share a
    slot and were written with the same version; a reader caches [b].  After a
    write of [b] has locked and settled the slot, a reader of the unchanged [c]
    publishes its version, and the cached, overwritten [b] verifies again. *)
Theorem collision_verifies_stale :
  let s := mkVT [0; 0] 1 7 ∅ 0 1 [] in
  let slot_b := slotFor s 4096 0 [Byte.x62] in
  let slot_c := slotFor s 4096 0 [Byte.x63] in
  let v1 := 0x42776B4D3B8D4000 in
  slot_b = slot_c /\
  match (cached ← populateVersionIfUnchanged slot_b 0 v1;
         tracker ← lockSlotForWrite 8192 slot_b 4096;
         during ← verifyVersion slot_b v1;
         releaseWriteIntent 0 tracker;;
         after ← verifyVersion slot_b v1;
         observed ← load_slot 0;
         published ← populateVersionIfUnchanged slot_c observed v1;
         stale ← verifyVersion slot_b v1;
         mret (cached, during, after, published, stale)) s with
  | (inr r, _) => r = (true, false, false, true, true)
  | _ => False
  end.
Proof. vm_compute. split; reflexivity. Qed.

(** ** Size and sweep *)

Lemma double_until_spec fuel j n :
  (j <= 63)%nat -> 1 <= n <= 2 ^ 63 -> (j = O \/ 2 ^ (Z.of_nat j - 1) < n) -> (63 - j < fuel)%nat ->
  exists k, (k <= 63)%nat /\ double_until fuel (2 ^ Z.of_nat j) n = Some (2 ^ Z.of_nat k) /\
    n <= 2 ^ Z.of_nat k /\ (k = O \/ 2 ^ (Z.of_nat k - 1) < n).
Proof.
  revert j. induction fuel as [|fuel IH]; intros j Hj Hn Hlow Hf; [lia|]. cbn [double_until].
  destruct (Z.ltb_spec (2 ^ Z.of_nat j) n) as [Hlt|Hge]; [|by exists j].
  assert (j <> 63)%nat by (intros ->; change (2 ^ Z.of_nat 63) with (2 ^ 63) in Hlt; lia).
  assert (Hs : 2 * 2 ^ Z.of_nat j = 2 ^ Z.of_nat (S j)) by (rewrite Nat2Z.inj_succ, Z.pow_succ_r by lia; done).
  assert (Hb : 2 ^ Z.of_nat (S j) <= 2 ^ 63) by (apply Z.pow_le_mono_r; lia).
  rewrite u64_small, Hs by (unfold is_u64; rewrite Hs; pose proof (Z.pow_nonneg 2 (Z.of_nat (S j))); lia).
  apply IH; [lia|done|right|lia]. replace (Z.of_nat (S j) - 1) with (Z.of_nat j) by lia. done.
Qed.

(** A table of any size the constructor can round up to (at most [2^63])
    is built, has a power of two of slots, between the number asked for and twice
    that, and every key's slot lies in it. *)
Theorem slot_in_table numEntries seed dbPtr cfId key :
  1 <= numEntries <= 2 ^ 63 ->
  exists s k i, VerificationTable_new numEntries seed = Some s /\
    Z.of_nat (length (vt_slots s)) = 2 ^ Z.of_nat k /\ numEntries <= 2 ^ Z.of_nat k < 2 * numEntries /\
    slotFor s dbPtr cfId key = Some i /\ (i < length (vt_slots s))%nat.
Proof.
  intros Hn. unfold VerificationTable_new. destruct (Z.eqb_spec numEntries 0); [lia|].
  assert (exists k, roundUpToPowerOf2 numEntries = Some (2 ^ Z.of_nat k) /\ numEntries <= 2 ^ Z.of_nat k < 2 * numEntries)
    as (k & -> & Hk).
  { unfold roundUpToPowerOf2. destruct (Z.leb_spec numEntries 1); [exists O; replace numEntries with 1 by lia; split; [done|simpl; lia]|].
    change 1 with (2 ^ Z.of_nat 0) at 1. destruct (double_until_spec 65 0 numEntries) as (k & _ & -> & Hge & Hlow); [lia|lia|by left|lia|].
    exists k. split; [done|]. split; [done|]. destruct Hlow as [->|Hlow]; [simpl; lia|].
    destruct k as [|k]; [simpl; lia|]. replace (Z.of_nat (S k) - 1) with (Z.of_nat k) in Hlow by lia.
    rewrite Nat2Z.inj_succ, Z.pow_succ_r by lia. lia. }
  simpl. pose proof (Z.pow_pos_nonneg 2 (Z.of_nat k) ltac:(lia) ltac:(lia)) as Hp.
  eexists _, k, _. split; [reflexivity|]. cbn [vt_slots]. rewrite length_replicate, Z2Nat.id by lia.
  split_and!; [done|lia|lia| |].
  - unfold slotFor. cbn [vt_slots vt_mask vt_seed]. destruct (Z.to_nat (2 ^ Z.of_nat k)) eqn:He; [lia|]. reflexivity.
  - rewrite Z.sub_1_r, <- Z.ones_equiv, Z.land_ones by lia. apply Z2Nat.inj_lt; [|lia|]; apply Z.mod_pos_bound; lia.
Qed.


Lemma settle_from_run g n i s :
  Forall is_u64 (vt_slots s) -> (i + n <= length (vt_slots s))%nat ->
  exists s', settle_from (vtEncodeSettled g) n i s = (inr tt, s') /\ length (vt_slots s') = length (vt_slots s) /\
    (forall k v, vt_slots s' !! k = Some v -> (i <= k < i + n)%nat -> vtIsLock v = true \/ v = vtEncodeSettled g) /\
    (forall k, (k < i \/ i + n <= k)%nat -> vt_slots s' !! k = vt_slots s !! k).
Proof.
  revert i s. induction n as [|n IH]; intros i s Hu Hle; cbn [settle_from].
  { exists s. split_and!; [done|done|lia|done]. }
  assert (Hi : (i < length (vt_slots s))%nat) by lia. destruct (lookup_lt_is_Some_2 _ _ Hi) as [v Hv].
  assert (exists s1, settle_slot (vtEncodeSettled g) i s = (inr tt, s1) /\ length (vt_slots s1) = length (vt_slots s) /\
    Forall is_u64 (vt_slots s1) /\ (forall x, vt_slots s1 !! i = Some x -> vtIsLock x = true \/ x = vtEncodeSettled g) /\
    forall k, k <> i -> vt_slots s1 !! k = vt_slots s !! k) as (s1 & H1 & Hl1 & Hu1 & Hi1 & Ho1).
  { unfold settle_slot, load_slot, store_slot. mrun. rewrite Hv. destruct (vtIsLock v) eqn:Hl.
    - exists s. split_and!; try done. intros x Hx. left. congruence.
    - eexists. split; [done|]. simpl. rewrite length_insert. split_and!; [done|apply Forall_insert; [done|apply settled_u64]| |].
      + intros x Hx. rewrite list_lookup_insert_eq in Hx by done. right. congruence.
      + intros k Hk. by rewrite list_lookup_insert_ne. }
  rewrite (bind_run _ _ _ _ _ H1). destruct (IH (S i) s1 Hu1 ltac:(lia)) as (s' & H2 & Hl2 & Hin & Hout).
  exists s'. split_and!; [done|lia| |].
  - intros k x Hx Hk. destruct (decide (k = i)) as [->|Hne]; [|apply (Hin k x Hx); lia].
    apply Hi1. rewrite <- Hout by lia. done.
  - intros k Hk. rewrite Hout, Ho1 by lia. done.
Qed.

(** After a sweep no version that was cached before verifies: [settleAllSlots]
    returns and every slot then holds a lock or the sweep's marker. *)
Theorem settle_all_clears s :
  Forall is_u64 (vt_slots s) ->
  exists s', settleAllSlots s = (inr tt, s') /\ length (vt_slots s') = length (vt_slots s) /\
    forall i v, (i < length (vt_slots s'))%nat -> is_u64 v -> vtIsVersion v = true ->
      verifyVersion (Some i) v s' = (inr false, s').
Proof.
  intros Hu. unfold settleAllSlots. mrun. destruct (Nat.eqb_spec (length (vt_slots s)) 0) as [H0|H0].
  { exists s. split_and!; [done|done|]. intros i v Hi. lia. }
  unfold vtNextSettleGen. mrun. set (g := Z.land _ _). set (s1 := set_globalSettleGen _ _).
  destruct (settle_from_run g (length (vt_slots s)) 0 s1 Hu) as (s' & -> & Hl & Hin & _); [done|].
  exists s'. split_and!; [done|done|]. intros i v Hi Hv Hver.
  unfold verifyVersion, load_slot. mrun. destruct (version_not_settled v Hv Hver) as [Hns Hnz].
  pose proof (version_not_lock v Hv Hver) as Hnl. rewrite Hnl. destruct (Z.eqb_spec v 0); [done|]. cbn [orb].
  destruct (lookup_lt_is_Some_2 _ _ Hi) as [x Hx]. rewrite Hx. destruct (Z.eqb_spec x v) as [->|]; [|done].
  change (length (vt_slots s1)) with (length (vt_slots s)) in Hl.
  destruct (Hin i v Hx ltac:(lia)) as [?| ->]; [congruence|]. by rewrite settled_is_settled in Hns.
Qed.

