(* ===== verification/Transaction.v ===== *)
(** * Transactions ([transaction/transaction_handle.h], [.cpp], [transaction/transaction.cpp])

    A transaction handle drives a RocksDB transaction, stages the entries of its
    transaction log, and holds write intents in the verification table.  A method
    runs on what the handles share (the world, the log stores, the table, the
    calls made to RocksDB) and on the handle.

    RocksDB is a parameter: class [Rocks] gives the outcome of each call, as a
    function of all calls made so far.  So is the allocator of lock trackers.  A
    pointer that is followed while null is an error of the model.  The commit
    runs in three steps on two threads: [Commit], [Commit_execute],
    [Commit_complete]. *)

From S2P Require Import Prelude Encoding LogFormat Os LogFile LogStore VerificationTable.
From stdpp Require Import base tactics list gmap strings.
From coqutil Require Import Byte LittleEndianList.
From Stdlib Require Import ZArith Lia.

Local Open Scope Z_scope.

(** ** RocksDB *)

Inductive DBMode := Optimistic | Pessimistic.

Inductive Status := StOk | StBusy | StAborted (msg : string) | StOther (code : Z).

Definition ok (s : Status) : bool := match s with StOk => true | _ => false end.
Definition IsBusy (s : Status) : bool := match s with StBusy => true | _ => false end.

(** A transaction is named by the number of transactions begun before it. *)
Inductive rocks_call :=
| BeginTransaction (n : nat) (mode : DBMode) (disableWAL : bool)
| SetSnapshot (n : nat)
| ClearSnapshot (n : nat)
| Get (n : nat) (snapshot : bool) (cf : Z) (key : bytes)
| Put (n : nat) (cf : Z) (key value : bytes)
| Delete (n : nat) (cf : Z) (key : bytes)
| CommitTxn (n : nat)
| Rollback (n : nat)
| DeleteTxn (n : nat)
| GetLatestSequenceNumber.

Class Rocks := {
  rk_status : list rocks_call -> Status;   (* of the last call *)
  rk_value : list rocks_call -> bytes;     (* what a [Get] reads *)
  rk_sequence : list rocks_call -> Z;
}.

(** The address [new LockTracker] returns. *)
Class Alloc := { new_tracker : gmap Z LockTracker -> Z }.

(** ** State *)

Inductive TransactionState := Pending | Committing | Committed | Aborted.

#[export] Instance TransactionState_eq_dec : EqDecision TransactionState.
Proof. solve_decision. Defined.

(** What a transaction uses of a [DBHandle] and its descriptor. *)
Record DBHandle := mkDBHandle {
  dh_descriptor : Z;       (* its address, the identity of the database *)
  dh_mode : DBMode;
  dh_disableWAL : bool;
  dh_enableVerificationTable : bool;
  dh_cfId : Z;             (* getColumnFamilyHandle()->GetID() *)
}.

Record TransactionHandle := mkTxn {
  t_dbHandle : option DBHandle;
  t_disableSnapshot : bool;
  t_coordinatedRetry : bool;
  t_id : Z;
  t_snapshotSet : bool;
  t_startTimestamp : Z;    (* double *)
  t_state : TransactionState;
  t_txn : option nat;
  t_closed : bool;
  t_logEntryBatch : option TransactionLogEntryBatch;
  t_lockedVTSlots : list nat;
  t_heldTrackers : list Z;
  t_boundLogStore : option Z;        (* weak_ptr: the address of a store *)
  t_committedPosition : LogPosition;
  t_cancelled : bool;
  t_activeAsyncWorkCount : Z;        (* atomic<int32_t> *)
}.

Definition set_dbHandle v t := mkTxn v (t_disableSnapshot t) (t_coordinatedRetry t) (t_id t) (t_snapshotSet t) (t_startTimestamp t) (t_state t) (t_txn t) (t_closed t) (t_logEntryBatch t) (t_lockedVTSlots t) (t_heldTrackers t) (t_boundLogStore t) (t_committedPosition t) (t_cancelled t) (t_activeAsyncWorkCount t).
Definition set_snapshotSet v t := mkTxn (t_dbHandle t) (t_disableSnapshot t) (t_coordinatedRetry t) (t_id t) v (t_startTimestamp t) (t_state t) (t_txn t) (t_closed t) (t_logEntryBatch t) (t_lockedVTSlots t) (t_heldTrackers t) (t_boundLogStore t) (t_committedPosition t) (t_cancelled t) (t_activeAsyncWorkCount t).
Definition set_startTimestamp v t := mkTxn (t_dbHandle t) (t_disableSnapshot t) (t_coordinatedRetry t) (t_id t) (t_snapshotSet t) v (t_state t) (t_txn t) (t_closed t) (t_logEntryBatch t) (t_lockedVTSlots t) (t_heldTrackers t) (t_boundLogStore t) (t_committedPosition t) (t_cancelled t) (t_activeAsyncWorkCount t).
Definition set_state v t := mkTxn (t_dbHandle t) (t_disableSnapshot t) (t_coordinatedRetry t) (t_id t) (t_snapshotSet t) (t_startTimestamp t) v (t_txn t) (t_closed t) (t_logEntryBatch t) (t_lockedVTSlots t) (t_heldTrackers t) (t_boundLogStore t) (t_committedPosition t) (t_cancelled t) (t_activeAsyncWorkCount t).
Definition set_txn v t := mkTxn (t_dbHandle t) (t_disableSnapshot t) (t_coordinatedRetry t) (t_id t) (t_snapshotSet t) (t_startTimestamp t) (t_state t) v (t_closed t) (t_logEntryBatch t) (t_lockedVTSlots t) (t_heldTrackers t) (t_boundLogStore t) (t_committedPosition t) (t_cancelled t) (t_activeAsyncWorkCount t).
Definition set_closed v t := mkTxn (t_dbHandle t) (t_disableSnapshot t) (t_coordinatedRetry t) (t_id t) (t_snapshotSet t) (t_startTimestamp t) (t_state t) (t_txn t) v (t_logEntryBatch t) (t_lockedVTSlots t) (t_heldTrackers t) (t_boundLogStore t) (t_committedPosition t) (t_cancelled t) (t_activeAsyncWorkCount t).
Definition set_logEntryBatch v t := mkTxn (t_dbHandle t) (t_disableSnapshot t) (t_coordinatedRetry t) (t_id t) (t_snapshotSet t) (t_startTimestamp t) (t_state t) (t_txn t) (t_closed t) v (t_lockedVTSlots t) (t_heldTrackers t) (t_boundLogStore t) (t_committedPosition t) (t_cancelled t) (t_activeAsyncWorkCount t).
Definition set_intents slots trackers t := mkTxn (t_dbHandle t) (t_disableSnapshot t) (t_coordinatedRetry t) (t_id t) (t_snapshotSet t) (t_startTimestamp t) (t_state t) (t_txn t) (t_closed t) (t_logEntryBatch t) slots trackers (t_boundLogStore t) (t_committedPosition t) (t_cancelled t) (t_activeAsyncWorkCount t).
Definition set_boundLogStore v t := mkTxn (t_dbHandle t) (t_disableSnapshot t) (t_coordinatedRetry t) (t_id t) (t_snapshotSet t) (t_startTimestamp t) (t_state t) (t_txn t) (t_closed t) (t_logEntryBatch t) (t_lockedVTSlots t) (t_heldTrackers t) v (t_committedPosition t) (t_cancelled t) (t_activeAsyncWorkCount t).
Definition set_batch_position b p t := mkTxn (t_dbHandle t) (t_disableSnapshot t) (t_coordinatedRetry t) (t_id t) (t_snapshotSet t) (t_startTimestamp t) (t_state t) (t_txn t) (t_closed t) (Some b) (t_lockedVTSlots t) (t_heldTrackers t) (t_boundLogStore t) p (t_cancelled t) (t_activeAsyncWorkCount t).
Definition set_cancelled v t := mkTxn (t_dbHandle t) (t_disableSnapshot t) (t_coordinatedRetry t) (t_id t) (t_snapshotSet t) (t_startTimestamp t) (t_state t) (t_txn t) (t_closed t) (t_logEntryBatch t) (t_lockedVTSlots t) (t_heldTrackers t) (t_boundLogStore t) (t_committedPosition t) v (t_activeAsyncWorkCount t).
Definition set_activeAsyncWorkCount v t := mkTxn (t_dbHandle t) (t_disableSnapshot t) (t_coordinatedRetry t) (t_id t) (t_snapshotSet t) (t_startTimestamp t) (t_state t) (t_txn t) (t_closed t) (t_logEntryBatch t) (t_lockedVTSlots t) (t_heldTrackers t) (t_boundLogStore t) (t_committedPosition t) (t_cancelled t) v.

(** What the handles share. *)
Record Shared := mkShared {
  h_world : World;
  h_stores : gmap Z Store;           (* live log stores, by address *)
  h_vt : option VT;                  (* getVerificationTableRaw() *)
  h_calls : list rocks_call;
  h_begun : nat;                     (* transactions begun *)
  h_nextTransactionId : Z;           (* descriptor: atomic<uint32_t> *)
  h_transactions : gset Z;           (* descriptor: the ids registered *)
  h_opened : bool;                   (* DBHandle::opened() *)
  h_notified : list string;          (* descriptor->notify *)
}.

Definition set_h_world v h := mkShared v (h_stores h) (h_vt h) (h_calls h) (h_begun h) (h_nextTransactionId h) (h_transactions h) (h_opened h) (h_notified h).
Definition set_h_stores v h := mkShared (h_world h) v (h_vt h) (h_calls h) (h_begun h) (h_nextTransactionId h) (h_transactions h) (h_opened h) (h_notified h).
Definition set_h_vt v h := mkShared (h_world h) (h_stores h) v (h_calls h) (h_begun h) (h_nextTransactionId h) (h_transactions h) (h_opened h) (h_notified h).
Definition set_h_calls v h := mkShared (h_world h) (h_stores h) (h_vt h) v (h_begun h) (h_nextTransactionId h) (h_transactions h) (h_opened h) (h_notified h).
Definition set_h_begun v h := mkShared (h_world h) (h_stores h) (h_vt h) (h_calls h) v (h_nextTransactionId h) (h_transactions h) (h_opened h) (h_notified h).
Definition set_h_nextTransactionId v h := mkShared (h_world h) (h_stores h) (h_vt h) (h_calls h) (h_begun h) v (h_transactions h) (h_opened h) (h_notified h).
Definition set_h_transactions v h := mkShared (h_world h) (h_stores h) (h_vt h) (h_calls h) (h_begun h) (h_nextTransactionId h) v (h_opened h) (h_notified h).
Definition set_h_notified v h := mkShared (h_world h) (h_stores h) (h_vt h) (h_calls h) (h_begun h) (h_nextTransactionId h) (h_transactions h) (h_opened h) v.

Definition HM (A : Type) : Type := M (Shared * TransactionHandle) A.

Definition shared {A} (g : Shared -> A) : HM A := gets (fun '(h, t) => g h).
Definition handle {A} (g : TransactionHandle -> A) : HM A := gets (fun '(h, t) => g t).
Definition hupdate (f : TransactionHandle -> TransactionHandle) : HM unit := modify (fun '(h, t) => (h, f t)).
Definition shupdate (f : Shared -> Shared) : HM unit := modify (fun '(h, t) => (f h, t)).

Definition deref_some {A} (what : string) (o : option A) : HM A :=
  match o with Some a => mret a | None => throw (OutOfRange what) end.

(** A method of a store, or of the table. *)
Definition with_store {A} (sid : Z) (m : SM A) : HM A := fun '(h, t) =>
  match h_stores h !! sid with
  | None => (inl (OutOfRange "log store"), (h, t))
  | Some s =>
      let '(r, (w', s')) := m (h_world h, s) in
      (r, (set_h_stores (<[sid := s']> (h_stores h)) (set_h_world w' h), t))
  end.

Definition on_vt {A} (m : VM A) : HM A := fun '(h, t) =>
  match h_vt h with
  | None => (inl (OutOfRange "verification table"), (h, t))
  | Some s => let '(r, s') := m s in (r, (set_h_vt (Some s') h, t))
  end.

(** [boundLogStore.lock()] *)
Definition lock_bound : HM (option Z) := fun '(h, t) =>
  (inr (sid ← t_boundLogStore t; if decide (is_Some (h_stores h !! sid)) then Some sid else None), (h, t)).

(** [catch (const std::exception&)]; an endless loop is no exception. *)
Definition catch_std {S A} (m : M S A) (k : string -> M S A) : M S A :=
  catch m (fun e => match e with
                    | DBException msg | FilesystemError msg => k msg
                    | OutOfRange _ | Diverges _ => throw e
                    end).

Definition is_nil {A} (l : list A) : bool := match l with [] => true | _ => false end.
Definition is_some {A} (o : option A) : bool := match o with Some _ => true | None => false end.

(** ** The handle *)

Section Handle.
Context {OS : Os} {RK : Rocks} {AL : Alloc}.

Definition call (c : rocks_call) : HM unit := shupdate (fun h => set_h_calls (h_calls h ++ [c]) h).
Definition call_status (c : rocks_call) : HM Status :=
  call c;; calls ← shared h_calls; mret (rk_status calls).

(** The descriptor's registry of transactions. *)
Definition transactionGetNextId : HM Z :=
  shupdate (fun h => set_h_nextTransactionId (u32 (h_nextTransactionId h + 1)) h);;
  shared h_nextTransactionId.
Definition transactionAdd (id : Z) : HM unit :=
  shupdate (fun h => set_h_transactions ({[ id ]} ∪ h_transactions h) h).
Definition transactionRemove (id : Z) : HM unit :=
  shupdate (fun h => set_h_transactions (h_transactions h ∖ {[ id ]}) h).
Definition notify (event : string) : HM unit := shupdate (fun h => set_h_notified (h_notified h ++ [event]) h).

Definition beginTransaction (d : DBHandle) : HM nat :=
  n ← shared h_begun;
  shupdate (set_h_begun (S n));;
  call (BeginTransaction n (dh_mode d) (dh_disableWAL d));;
  mret n.

Definition resetTransaction : HM unit :=
  txn ← handle t_txn;
  match txn with
  | Some n => call (ClearSnapshot n);; call (DeleteTxn n)
  | None => mret tt
  end;;
  hupdate (fun t => set_snapshotSet false (set_logEntryBatch None t));;
  dbHandle ← handle t_dbHandle;
  d ← deref_some "dbHandle" dbHandle;
  n ← beginTransaction d;
  hupdate (set_txn (Some n)).

(** The constructor, with what [Transaction::Constructor] adds.  [now] is
    [getMonotonicTimestamp()]. *)
Definition TransactionHandle_new (d : DBHandle) (disableSnapshot coordinatedRetry : bool) (now : Z) : HM unit :=
  hupdate (fun _ => mkTxn (Some d) disableSnapshot coordinatedRetry 0 false f64_zero Pending None false
                      None [] [] None (mkPos 0 0) false 0);;
  resetTransaction;;
  id ← transactionGetNextId;
  hupdate (fun t => mkTxn (t_dbHandle t) (t_disableSnapshot t) (t_coordinatedRetry t) id (t_snapshotSet t) now
    (t_state t) (t_txn t) (t_closed t) (t_logEntryBatch t) (t_lockedVTSlots t) (t_heldTrackers t)
    (t_boundLogStore t) (t_committedPosition t) (t_cancelled t) (t_activeAsyncWorkCount t));;
  transactionAdd id.

(** Bind to store [sid] and count the transaction, unless the store is closing. *)
Definition bind_store (sid : Z) : HM unit :=
  closing ← with_store sid (store s_isClosing);
  if closing : bool then throw (DBException "Transaction log store is closed")
  else
    hupdate (set_boundLogStore (Some sid));;
    with_store sid (supdate (fun s => set_s_pendingTransactionCount (s_pendingTransactionCount s + 1) s)).

Definition already_bound : exn := DBException "already bound to the log store".

(** [sid] is [entry->store]. *)
Definition addLogEntry (sid : Z) (entry : TransactionLogEntry) : HM unit :=
  pos ← handle t_committedPosition;
  if 0 <? logSequenceNumber pos then mret tt
  else
    bound ← lock_bound;
    match bound with
    | Some cur =>
        name ← with_store cur (store s_name);
        name' ← with_store sid (store s_name);
        when (negb (String.eqb name name')) (throw already_bound)
    | None => bind_store sid
    end;;
    hupdate (fun t =>
      let b := default (TransactionLogEntryBatch_new (t_startTimestamp t)) (t_logEntryBatch t) in
      set_logEntryBatch (Some (addEntry b entry)) t).

Definition lockVTSlot (dbHandle : DBHandle) (key : bytes) : HM unit :=
  vt ← shared h_vt;
  match vt with
  | None => mret tt
  | Some s =>
      own ← handle t_dbHandle;
      base ← deref_some "dbHandle" own;
      match slotFor s (dh_descriptor base) (dh_cfId dbHandle) key with
      | None => mret tt
      | Some i =>
          tracker ← on_vt (lockSlotForWrite (new_tracker (vt_heap s)) (Some i) (dh_descriptor base));
          match tracker with
          | Some p => hupdate (fun t => set_intents (t_lockedVTSlots t ++ [i]) (t_heldTrackers t ++ [p]) t)
          | None => mret tt
          end
      end
  end.

(** The loop of [releaseIntent] over the two parallel vectors. *)
Fixpoint release_all (slots : list nat) (trackers : list Z) : HM unit :=
  match slots, trackers with
  | [], _ => mret tt
  | i :: slots, p :: trackers => on_vt (releaseWriteIntent i (Some p));; release_all slots trackers
  | _ :: _, [] => throw (OutOfRange "heldTrackers")
  end.

Definition releaseIntent : HM unit :=
  slots ← handle t_lockedVTSlots;
  trackers ← handle t_heldTrackers;
  vt ← shared h_vt;
  when (negb (is_nil slots) && is_some vt) (release_all slots trackers);;
  hupdate (set_intents [] []).

Definition release_if_held : HM unit :=
  slots ← handle t_lockedVTSlots;
  when (negb (is_nil slots)) releaseIntent.

(** [close]: an uncommitted position leaves the log store. *)
Definition close_position : HM unit :=
  t ← handle id;
  when (negb (bool_decide (t_state t = Committed)) && (0 <? logSequenceNumber (t_committedPosition t)))
    (bound ← lock_bound;
     match bound with
     | Some sid => with_store sid (commitAborted (t_committedPosition t))
     | None => mret tt
     end).

(** [close]: a transaction that was bound and has no position is uncounted. *)
Definition close_pending : HM unit :=
  pos ← handle t_committedPosition;
  when (logSequenceNumber pos =? 0)
    (bound ← lock_bound;
     match bound with
     | Some sid =>
         closing ← with_store sid (store s_isClosing);
         when (negb closing)
           (with_store sid (supdate (fun s => set_s_pendingTransactionCount (s_pendingTransactionCount s - 1) s)))
     | None => mret tt
     end).

(** [waitForAsyncWorkCompletion] changes nothing: it returns when no work is
    active, or after five seconds. *)
Definition close : HM unit :=
  t ← handle id;
  if t_closed t then mret tt
  else
    hupdate (set_closed true);;
    match t_dbHandle t with Some _ => transactionRemove (t_id t) | None => mret tt end;;
    match t_txn t with
    | None => mret tt
    | Some n =>
        when (bool_decide (t_state t = Pending) || bool_decide (t_state t = Committing)) (hupdate (set_state Aborted));;
        hupdate (set_cancelled true);;
        close_position;;
        close_pending;;
        release_if_held;;
        call (ClearSnapshot n);;
        call (DeleteTxn n);;
        hupdate (set_txn None);;
        hupdate (set_dbHandle None)
    end.

(** ** Reads and writes *)

(** The guards the data methods share. *)
Definition guarded {A} (refuse : Status -> A) (m : nat -> HM A) : HM A :=
  txn ← handle t_txn;
  match txn with
  | None => mret (refuse (StAborted "Transaction is closed"))
  | Some n =>
      state ← handle t_state;
      if negb (bool_decide (state = Pending)) then mret (refuse (StAborted "Transaction is not in pending state"))
      else m n
  end.

Definition set_snapshot (n : nat) : HM unit := hupdate (set_snapshotSet true);; call (SetSnapshot n).

Definition ensureSnapshot : HM unit :=
  t ← handle id;
  match t_txn t with
  | Some n => when (negb (t_disableSnapshot t) && negb (t_snapshotSet t)) (set_snapshot n)
  | None => mret tt
  end.

(** A write takes the snapshot only in pessimistic mode. *)
Definition write_snapshot (n : nat) : HM unit :=
  t ← handle id;
  when (negb (t_disableSnapshot t) && negb (t_snapshotSet t))
    (d ← deref_some "dbHandle" (t_dbHandle t);
     match dh_mode d with Pessimistic => set_snapshot n | Optimistic => mret tt end).

Definition target_handle (override : option DBHandle) : HM DBHandle :=
  match override with
  | Some d => mret d
  | None => own ← handle t_dbHandle; deref_some "dbHandle" own
  end.

Definition getSync (key : bytes) (override : option DBHandle) : HM (Status * bytes) :=
  guarded (fun st => (st, [])) (fun n =>
    ensureSnapshot;;
    snapshot ← handle t_snapshotSet;
    d ← target_handle override;
    status ← call_status (Get n snapshot (dh_cfId d) key);
    calls ← shared h_calls;
    mret (status, rk_value calls)).

Definition putSync (key value : bytes) (override : option DBHandle) : HM Status :=
  guarded id (fun n =>
    write_snapshot n;;
    d ← target_handle override;
    status ← call_status (Put n (dh_cfId d) key value);
    when (ok status && dh_enableVerificationTable d) (lockVTSlot d key);;
    mret status).

Definition removeSync (key : bytes) (override : option DBHandle) : HM Status :=
  guarded id (fun n =>
    write_snapshot n;;
    d ← target_handle override;
    status ← call_status (Delete n (dh_cfId d) key);
    when (ok status && dh_enableVerificationTable d) (lockVTSlot d key);;
    mret status).

(** [readLE32]: four bytes, read from inside the buffer. *)
Definition readLE32 (buffer : bytes) (off : Z) : HM Z :=
  match buffer !! Z.to_nat off, buffer !! Z.to_nat (off + 1), buffer !! Z.to_nat (off + 2), buffer !! Z.to_nat (off + 3) with
  | Some a, Some b, Some c, Some d =>
      mret (Z.lor (Z.lor (Z.lor (byte.unsigned a) (u32 (Z.shiftl (byte.unsigned b) 8)))
                    (u32 (Z.shiftl (byte.unsigned c) 16))) (u32 (Z.shiftl (byte.unsigned d) 24)))
  | _, _, _, _ => throw (OutOfRange "readLE32")
  end.

(** One [[u32 length][bytes]] item at [off], and the offset after it; [what] is
    for the messages.  Offsets are [size_t]. *)
Definition take_item (noun : string) (buffer : bytes) (off : Z) : HM (string + bytes * Z) :=
  let len := Z.of_nat (length buffer) in
  if len <? u64 (off + 4) then mret (inl ("putMany: " +:+ noun +:+ "s buffer truncated (length prefix)"))
  else
    n ← readLE32 buffer off;
    let off := u64 (off + 4) in
    if len <? u64 (off + n) then mret (inl ("putMany: " +:+ noun +:+ " overruns " +:+ noun +:+ "s buffer"))
    else mret (inr (take (Z.to_nat n) (drop (Z.to_nat off) buffer), u64 (off + n))).

Fixpoint put_items (n : nat) (d : DBHandle) (keys values : bytes) (ko vo : Z) (count : nat) : HM Status :=
  match count with
  | O => mret StOk
  | S count =>
      k ← take_item "key" keys ko;
      match k with
      | inl msg => mret (StAborted msg)
      | inr (key, ko) =>
          v ← take_item "value" values vo;
          match v with
          | inl msg => mret (StAborted msg)
          | inr (value, vo) =>
              status ← call_status (Put n (dh_cfId d) key value);
              if negb (ok status) then mret status
              else
                when (dh_enableVerificationTable d) (lockVTSlot d key);;
                put_items n d keys values ko vo count
          end
      end
  end.

(** [count] is a [uint32_t]. *)
Definition putManySync (keys values : bytes) (count : Z) (override : option DBHandle) : HM Status :=
  guarded id (fun n =>
    write_snapshot n;;
    d ← target_handle override;
    put_items n d keys values 0 0 (Z.to_nat count)).

(** ** Commit *)

Definition registerAsyncWork : HM unit :=
  hupdate (fun t => set_activeAsyncWorkCount (t_activeAsyncWorkCount t + 1) t).
(** [signalExecuteCompleted] on a state not yet completed; also run by the
    destructor of the state. *)
Definition unregisterAsyncWork : HM unit :=
  hupdate (fun t => set_activeAsyncWorkCount (t_activeAsyncWorkCount t - 1) t).

(** What a call returns to JavaScript. *)
Inductive js_result :=
| Undefined                                        (* or null *)
| Resolve
| Queued                                           (* async work was queued *)
| Throw (code : string)
| Reject (status : Status) (hasLog : bool)
| RetryNow (parked : bool).

(** [Transaction::Commit] up to the queued work.  When a commit is already under
    way the new state object is deleted, which unregisters a work item. *)
Definition Commit : HM js_result :=
  state ← handle t_state;
  match state with
  | Aborted => mret (Throw "ERR_ALREADY_ABORTED")
  | Committing | Committed => unregisterAsyncWork;; mret Resolve
  | Pending =>
      hupdate (set_state Committing);;
      registerAsyncWork;;
      mret Queued
  end.

(** [TransactionCommitState] *)
Record CommitState := mkCommitState {
  cs_status : Status;
  cs_hasLog : bool;
  cs_savedSlots : list nat;
}.

(** [writeBatch] on the staged batch and [committedPosition]: both are updated in
    place, also when it throws. *)
Definition write_batch (fuel : nat) (sid : Z) (b : TransactionLogEntryBatch) : HM unit := fun '(h, t) =>
  match h_stores h !! sid with
  | None => (inl (OutOfRange "log store"), (h, t))
  | Some s =>
      let '(r, ((w', s'), (b', p'))) := writeBatch fuel ((h_world h, s), (b, t_committedPosition t)) in
      (r, (set_h_stores (<[sid := s']> (h_stores h)) (set_h_world w' h), set_batch_position b' p' t))
  end.

(** The log part of the asynchronous commit: status, hasLog and store. *)
Definition commit_log (fuel : nat) : HM (Status * bool * option Z) :=
  batch ← handle t_logEntryBatch;
  match batch with
  | None => mret (StOk, false, None)
  | Some b =>
      bound ← lock_bound;
      match bound with
      | None => mret (StAborted "Log store not found for transaction", false, None)
      | Some sid =>
          catch_std
            (write_batch fuel sid b;; hupdate (set_logEntryBatch None);; mret (StOk, true, Some sid))
            (fun msg => mret (StAborted msg, false, Some sid))
      end
  end.

Definition commit_txn : HM Status :=
  txn ← handle t_txn;
  n ← deref_some "txn" txn;
  call_status (CommitTxn n).

(** The position leaves the uncommitted ones unless the commit is to be retried. *)
Definition finish_log (status : Status) (store : option Z) : HM Status :=
  pos ← handle t_committedPosition;
  if (0 <? logSequenceNumber pos) && negb (IsBusy status) then
    bound ← lock_bound;
    match (match store with Some sid => Some sid | None => bound end) with
    | Some sid =>
        call GetLatestSequenceNumber;;
        calls ← shared h_calls;
        with_store sid (commitFinished pos (rk_sequence calls));;
        mret status
    | None => mret (StAborted "Log store not found for transaction")
    end
  else mret status.

(** The execute handler on a worker thread. *)
Definition Commit_execute (fuel : nat) : HM CommitState :=
  t ← handle id;
  opened ← shared h_opened;
  if t_cancelled t || negb (is_some (t_dbHandle t)) || negb opened then
    unregisterAsyncWork;;
    mret (mkCommitState (StAborted "Database closed during transaction commit operation") false [])
  else
    '(status, hasLog, store) ← commit_log fuel;
    '(status, saved) ←
      (if ok status then
         status ← commit_txn;
         slots ← handle t_lockedVTSlots;
         release_if_held;;
         mret (status, if IsBusy status && t_coordinatedRetry t then slots else [])
       else mret (status, []));
    status ← finish_log status store;
    (if ok status then hupdate (set_state Committed);; notify "committed"
     else when (IsBusy status) resetTransaction);;
    unregisterAsyncWork;;
    mret (mkCommitState status hasLog saved).

(** Park on the first saved slot that is locked; [cb] names the wake-up. *)
Fixpoint park (cb : nat) (slots : list nat) : HM bool :=
  match slots with
  | [] => mret false
  | i :: slots =>
      vt ← shared h_vt;
      tracker ← (match vt with Some _ => on_vt (refTrackerIfLocked (Some i)) | None => mret None end);
      match tracker with
      | None => park cb slots
      | Some p =>
          registered ← on_vt (addWakeCallback p cb);
          when (negb registered) (on_vt (modify (fun s => set_fired (vt_fired s ++ [cb]) s)));;
          on_vt (unrefTracker (Some p));;
          mret true
      end
  end.

Definition reset_pending : HM unit :=
  state ← handle t_state;
  when (bool_decide (state = Committing)) (hupdate (set_state Pending)).

(** The complete handler on the JavaScript thread, for work that was not
    cancelled. *)
Definition Commit_complete (cb : nat) (cs : CommitState) : HM js_result :=
  t ← handle id;
  if ok (cs_status cs) then close;; mret Resolve
  else if IsBusy (cs_status cs) && t_coordinatedRetry t then
    reset_pending;;
    parked ← park cb (cs_savedSlots cs);
    mret (RetryNow parked)
  else
    reset_pending;;
    mret (Reject (cs_status cs) (cs_hasLog cs || (0 <? logSequenceNumber (t_committedPosition t)))).

(** The synchronous commit does not catch what [writeBatch] throws. *)
Definition CommitSync (fuel : nat) : HM js_result :=
  state ← handle t_state;
  match state with
  | Aborted => mret (Throw "ERR_ALREADY_ABORTED")
  | Committing | Committed => mret Undefined
  | Pending =>
      hupdate (set_state Committing);;
      batch ← handle t_logEntryBatch;
      logged ←
        (match batch with
         | None => mret (Some (false, None))
         | Some b =>
             bound ← lock_bound;
             match bound with
             | None => mret None
             | Some sid => write_batch fuel sid b;; hupdate (set_logEntryBatch None);; mret (Some (true, Some sid))
             end
         end);
      match logged with
      | None => mret (Throw "ERR_LOG_STORE_NOT_FOUND")
      | Some (hasLog, store) =>
          status ← commit_txn;
          release_if_held;;
          status ← finish_log status store;
          if ok status then
            hupdate (set_state Committed);;
            notify "committed";;
            close;;
            mret Undefined
          else
            when (IsBusy status) resetTransaction;;
            reset_pending;;
            pos ← handle t_committedPosition;
            mret (Reject status (hasLog || (0 <? logSequenceNumber pos)))
      end
  end.

Definition Abort : HM js_result :=
  t ← handle id;
  match t_state t with
  | Aborted => mret Undefined
  | Committing | Committed => mret (Throw "ERR_ALREADY_COMMITTED")
  | Pending =>
      let hadLogWrites := 0 <? logSequenceNumber (t_committedPosition t) in
      hupdate (set_state Aborted);;
      n ← deref_some "txn" (t_txn t);
      status ← call_status (Rollback n);
      if negb (ok status) then mret (Reject status false)
      else
        close;;
        mret (if hadLogWrites then Throw "ERR_TRANSACTION_ABANDONED" else Undefined)
  end.

(** ** Timestamps and logs *)

(** The argument; [now] is [getMonotonicTimestamp()]. *)
Inductive js_timestamp := TsUndefined (now : Z) | TsNumber (ms : Z) | TsOther.

Definition SetTimestamp (arg : js_timestamp) : HM js_result :=
  match arg with
  | TsUndefined now => hupdate (set_startTimestamp now);; mret Undefined
  | TsNumber ms =>
      if f64_ltb ms f64_zero || f64_eqb ms f64_zero then mret (Throw "Invalid timestamp, expected positive number")
      else hupdate (set_startTimestamp ms);; mret Undefined
  | TsOther => mret (Throw "Invalid timestamp, expected positive number")
  end.

(** [resolved] is what [dbHandle->descriptor->resolveTransactionLogStore(name)]
    gives. *)
Definition UseLog (name : string) (resolved : string + Z) : HM js_result :=
  bound ← lock_bound;
  clash ← (match bound with
           | Some cur => name' ← with_store cur (store s_name); mret (negb (String.eqb name' name))
           | None => mret false
           end);
  if clash : bool then mret (Throw "already bound to the log store")
  else
    own ← handle t_dbHandle;
    deref_some "dbHandle" own;;
    match resolved with
    | inl msg => mret (Throw msg)
    | inr sid =>
        match bound with
        | Some _ => mret Undefined
        | None => catch_std (bind_store sid;; mret Undefined) (fun msg => mret (Throw msg))
        end
    end.
End Handle.
