(* ===== verification/TransactionProofs.v ===== *)
(** * Properties of transactions

    The life of a transaction handle as a system of steps, and what each of its
    operations keeps: the log is written once, the count of pending transactions
    of its store is balanced, and the write intents it holds are the ones the
    verification table accounts for. *)

From S2P Require Import Prelude Encoding LogFormat Os LogFile LogStore VerificationTable VerificationTableProofs Transaction.
From stdpp Require Import base tactics list gmap strings relations.
From coqutil Require Import Byte LittleEndianList.
From Stdlib Require Import ZArith Lia.

Local Open Scope Z_scope.

Section Operations.
Context {OS : Os} {RK : Rocks} {AL : Alloc}.

(** ** Operations of one handle *)

(** The calls the program makes on a handle, apart from the two halves of an
    asynchronous commit. *)
Inductive txn_op :=
| OpAddLogEntry (sid : Z) (entry : TransactionLogEntry)
| OpGet (key : bytes) (override : option DBHandle)
| OpPut (key value : bytes) (override : option DBHandle)
| OpPutMany (keys values : bytes) (count : Z) (override : option DBHandle)
| OpRemove (key : bytes) (override : option DBHandle)
| OpCommitSync (fuel : nat)
| OpAbort
| OpClose
| OpSetTimestamp (arg : js_timestamp)
| OpUseLog (name : string) (resolved : string + Z)
| OpCommit
| OpExecute (fuel : nat)
| OpComplete (cb : nat) (cs : CommitState).

Definition ignore {A} (m : HM A) : HM unit := m;; mret tt.

Definition run_op (op : txn_op) : HM unit :=
  match op with
  | OpAddLogEntry sid entry => addLogEntry sid entry
  | OpGet key d => ignore (getSync key d)
  | OpPut key value d => ignore (putSync key value d)
  | OpPutMany keys values count d => ignore (putManySync keys values count d)
  | OpRemove key d => ignore (removeSync key d)
  | OpCommitSync fuel => ignore (CommitSync fuel)
  | OpAbort => ignore Abort
  | OpClose => close
  | OpSetTimestamp arg => ignore (SetTimestamp arg)
  | OpUseLog name resolved => ignore (UseLog name resolved)
  | OpCommit => ignore Commit
  | OpExecute fuel => ignore (Commit_execute fuel)
  | OpComplete cb cs => ignore (Commit_complete cb cs)
  end.

(** A sequence of operations; one that throws does not stop the next. *)
Fixpoint run_ops (ops : list txn_op) (st : Shared * TransactionHandle) : Shared * TransactionHandle :=
  match ops with
  | [] => st
  | op :: ops => run_ops ops (snd (run_op op st))
  end.

(** ** What operations keep *)

Definition T {A} (_ : A) : Prop := True.

Lemma keeps_throw {S A} (P : S -> Prop) e (Q : A -> Prop) : keeps P (throw e) Q.
Proof using. intros st HP. split; [done|]. by intros ? [=]. Qed.

Lemma keeps_catch_std {S A} (P : S -> Prop) (m : M S A) k Q :
  keeps P m Q -> (forall msg, keeps P (k msg) Q) -> keeps P (catch_std m k) Q.
Proof using. intros Hm Hk. apply keeps_catch; [done|]. intros [| | |]; auto using keeps_throw. Qed.

Lemma keeps_deref {A} P what (o : option A) : keeps P (deref_some what o) T.
Proof using. destruct o; [by apply keeps_ret|apply keeps_throw]. Qed.

Lemma keeps_lock_bound P : keeps P lock_bound T.
Proof using. by intros [h t]. Qed.

(** A store method that leaves the world alone. *)
Definition worldless {A} (m : SM A) : Prop := forall w s, fst (snd (m (w, s))) = w.

Lemma worldless_store {A} (g : Store -> A) : worldless (store g).
Proof using. done. Qed.
Lemma worldless_supdate h : worldless (supdate h).
Proof using. done. Qed.
Lemma worldless_bind {A B} (m : SM A) (k : A -> SM B) :
  worldless m -> (forall a, worldless (k a)) -> worldless (a ← m; k a).
Proof using.
  intros Hm Hk w s. specialize (Hm w s). unfold mbind, M_bind. destruct (m (w, s)) as [[e|a] [w1 s1]]; simpl in *; [done|].
  subst. apply Hk.
Qed.
Lemma worldless_commitFinished p n : worldless (commitFinished p n).
Proof using. repeat (apply worldless_bind; intros); apply worldless_supdate. Qed.
Lemma worldless_commitAborted p : worldless (commitAborted p).
Proof using. repeat (apply worldless_bind; intros); apply worldless_supdate. Qed.

End Operations.

(** One step of a proof that a method keeps an invariant; what it reaches last are
    the assignments and the calls of other methods. *)
Ltac kstep :=
  lazymatch goal with
  | |- keeps _ (mret _) _ => apply keeps_ret; done
  | |- keeps _ (throw _) _ => apply keeps_throw
  | |- keeps _ (deref_some _ _) _ => apply keeps_deref
  | |- keeps _ lock_bound _ => apply keeps_lock_bound
  | |- keeps _ (when _ _) _ => apply keeps_when
  | |- keeps _ (catch_std _ _) _ => apply keeps_catch_std; [|intros ?]
  | |- keeps _ (gets _) _ => apply keeps_gets; done
  | |- keeps _ (shared _) _ => apply keeps_gets; done
  | |- keeps _ (handle _) _ => apply keeps_gets; done
  | |- keeps _ (match ?x with _ => _ end) _ => destruct x
  | |- keeps _ (ignore _) _ => unfold ignore
  | |- keeps _ (_ ← _; _) _ => eapply (keeps_bind _ _ _ T); [|intros ? _]
  | |- keeps _ (guarded _ _) _ => unfold guarded
  | |- keeps _ (call_status _) _ => unfold call_status
  end.

Section WriteOnce.
Context {OS : Os} {RK : Rocks} {AL : Alloc}.
Variables (w0 : World) (p0 : LogPosition).
Hypothesis Hp0 : 0 < logSequenceNumber p0.

(** The handle wrote its log at [p0]; nothing is staged and the world is [w0]. *)
Definition logged (st : Shared * TransactionHandle) : Prop :=
  let '(h, t) := st in h_world h = w0 /\ t_committedPosition t = p0 /\ t_logEntryBatch t = None.

Lemma logged_hupdate f :
  (forall t, t_committedPosition (f t) = t_committedPosition t /\ (t_logEntryBatch t = None -> t_logEntryBatch (f t) = None)) ->
  keeps logged (hupdate f) T.
Proof using. intros Hf. apply keeps_modify. intros [h t] (H1 & H2 & H3). destruct (Hf t) as [H4 H5]. split_and!; auto; congruence. Qed.

Lemma logged_shupdate f : (forall h, h_world (f h) = h_world h) -> keeps logged (shupdate f) T.
Proof using. intros Hf. apply keeps_modify. intros [h t] (H1 & H2 & H3). split_and!; auto. by rewrite Hf. Qed.

Lemma logged_with_store {A} sid (m : SM A) : worldless m -> keeps logged (with_store sid m) T.
Proof using.
  intros Hm [h t] HP. unfold with_store. destruct (h_stores h !! sid) as [s|]; [|done].
  specialize (Hm (h_world h) s). destruct (m _) as [r [w' s']]. simpl in Hm. subst w'. by split.
Qed.

Lemma logged_on_vt {A} (m : VM A) : keeps logged (on_vt m) T.
Proof using. intros [h t] HP. unfold on_vt. destruct (h_vt h) as [s|]; [|done]. by destruct (m s). Qed.

Ltac lstep :=
  first [ kstep
        | apply logged_hupdate; intros ?; by split
        | apply logged_shupdate; done
        | apply logged_with_store;
          solve [apply worldless_store | apply worldless_supdate | apply worldless_commitFinished | apply worldless_commitAborted]
        | apply logged_on_vt ].

Lemma logged_call c : keeps logged (call c) T.
Proof using. unfold call. lstep. Qed.

Lemma logged_release slots trackers : keeps logged (release_all slots trackers) T.
Proof using. revert trackers. induction slots as [|i slots IH]; intros [|p tr]; cbn [release_all]; repeat lstep. apply IH. Qed.

Lemma logged_release_if_held : keeps logged release_if_held T.
Proof using. unfold release_if_held, releaseIntent. repeat lstep. apply logged_release. Qed.

Lemma logged_reset : keeps logged resetTransaction T.
Proof using.
  unfold resetTransaction, beginTransaction. repeat first [apply logged_call|lstep].
Qed.

Lemma logged_bind sid : keeps logged (bind_store sid) T.
Proof using. unfold bind_store. repeat lstep. Qed.

Lemma logged_lock d key : keeps logged (lockVTSlot d key) T.
Proof using. unfold lockVTSlot. repeat lstep. Qed.

Lemma logged_close : keeps logged close T.
Proof using.
  unfold close, close_position, close_pending, transactionRemove.
  repeat first [apply logged_call|apply logged_release_if_held|lstep].
Qed.

Lemma logged_add sid entry : keeps logged (addLogEntry sid entry) T.
Proof using Hp0.
  unfold addLogEntry. eapply (keeps_bind _ _ _ (fun p => p = p0)).
  { apply keeps_gets. intros [h t] HP. apply HP. }
  intros p ->. replace (0 <? logSequenceNumber p0) with true by lia. kstep.
Qed.

Lemma logged_batch : keeps logged (handle t_logEntryBatch) (fun b => b = None).
Proof using. apply keeps_gets. intros [h t] HP. apply HP. Qed.

Lemma logged_commit_log fuel : keeps logged (commit_log fuel) (fun r => r = (StOk, false, None)).
Proof using. unfold commit_log. eapply keeps_bind; [apply logged_batch|]. intros b ->. by apply keeps_ret. Qed.

Lemma logged_finish status s : keeps logged (finish_log status s) T.
Proof using. unfold finish_log. repeat first [apply logged_call|lstep]. Qed.

Lemma logged_commit_txn : keeps logged commit_txn T.
Proof using. unfold commit_txn. repeat first [apply logged_call|lstep]. Qed.

Lemma logged_execute fuel : keeps logged (Commit_execute fuel) T.
Proof using.
  unfold Commit_execute, unregisterAsyncWork, notify. lstep; [lstep|]. lstep; [lstep|]. lstep; [by repeat lstep|].
  eapply keeps_bind; [apply logged_commit_log|]. intros [[status l] sid] [= -> -> ->].
  repeat first [apply logged_finish|apply logged_commit_txn|apply logged_release_if_held|apply logged_reset|lstep].
Qed.

Lemma logged_park cb slots : keeps logged (park cb slots) T.
Proof using. induction slots as [|i slots IH]; cbn [park]; repeat first [apply IH|lstep]. Qed.

Lemma logged_complete cb cs : keeps logged (Commit_complete cb cs) T.
Proof using.
  unfold Commit_complete, reset_pending. repeat first [apply logged_close|apply logged_park|lstep].
Qed.

Lemma logged_commit_sync fuel : keeps logged (CommitSync fuel) T.
Proof using.
  unfold CommitSync, reset_pending, notify. lstep; [lstep|]. lstep; try lstep.
  { lstep. } eapply keeps_bind; [apply logged_batch|]. intros b ->.
  repeat first [apply logged_finish|apply logged_commit_txn|apply logged_release_if_held|apply logged_reset|apply logged_close|lstep].
Qed.

Lemma logged_read buffer off : keeps logged (readLE32 buffer off) T.
Proof using. unfold readLE32. repeat lstep. Qed.

Lemma logged_put_items n d keys values ko vo c : keeps logged (put_items n d keys values ko vo c) T.
Proof using.
  revert ko vo. induction c as [|c IH]; intros ko vo; cbn [put_items]; unfold take_item;
    repeat first [apply IH|apply logged_read|apply logged_call|apply logged_lock|lstep].
Qed.

Lemma logged_op op : keeps logged (run_op op) T.
Proof using Hp0.
  destruct op; cbn [run_op]; [apply logged_add| | | | | | |apply logged_close| | | | |]; unfold ignore;
    (eapply (keeps_bind _ _ _ T); [|intros; by apply keeps_ret]).
  - unfold getSync, ensureSnapshot, set_snapshot, target_handle. repeat first [apply logged_call|lstep].
  - unfold putSync, write_snapshot, set_snapshot, target_handle. repeat first [apply logged_call|apply logged_lock|lstep].
  - unfold putManySync, write_snapshot, set_snapshot, target_handle.
    repeat first [apply logged_put_items|apply logged_call|lstep].
  - unfold removeSync, write_snapshot, set_snapshot, target_handle. repeat first [apply logged_call|apply logged_lock|lstep].
  - apply logged_commit_sync.
  - unfold Abort. repeat first [apply logged_call|apply logged_close|lstep].
  - unfold SetTimestamp. repeat lstep.
  - unfold UseLog. repeat first [apply logged_bind|lstep].
  - unfold Commit, registerAsyncWork, unregisterAsyncWork. repeat lstep.
  - apply logged_execute.
  - apply logged_complete.
Qed.

Lemma logged_ops ops st : logged st -> logged (run_ops ops st).
Proof using Hp0.
  revert st. induction ops as [|op ops IH]; intros st Hst; [done|]. cbn [run_ops]. apply IH, (logged_op op), Hst.
Qed.
End WriteOnce.

(** After an execute that wrote the log nothing is staged. *)
Lemma execute_logged {OS : Os} {RK : Rocks} {AL : Alloc} fuel h t cs h1 t1 :
  Commit_execute fuel (h, t) = (inr cs, (h1, t1)) -> cs_hasLog cs = true -> t_logEntryBatch t1 = None.
Proof.
  unfold Commit_execute. rewrite (bind_run (handle id) _ (h, t) t (h, t)) by done.
  rewrite (bind_run (shared _) _ (h, t) (h_opened h) (h, t)) by done.
  destruct (_ || _ || _); [unfold unregisterAsyncWork, hupdate; mrun; by intros [= <- <- <-]|].
  unfold mbind at 1, M_bind at 1. destruct (commit_log fuel (h, t)) as [[e|[[status l] q]] [h2 t2]] eqn:Hlog; [done|].
  intros Hrest Hl.
  assert (Hb : l = true -> t_logEntryBatch t2 = None).
  { revert Hlog. unfold commit_log, catch_std, catch. mrun. destruct (handle _ _) as [[?|[b|]] st]; [done| |by intros [= <- <- <-]].
    destruct (lock_bound st) as [[?|[q'|]] st1]; [done| |by intros [= <- <- <-]].
    destruct (write_batch _ _ _ _) as [[e|?] [h3 t3]]; [by destruct e; intros [= <- <- <-]|]. by intros [= _ _ _ _ <-]. }
  assert (Hany : forall A (m : HM A), keeps (fun _ => True) m T) by done.
  revert Hrest. match goal with |- ?m _ = _ -> _ =>
    assert (keeps (fun _ => True) m (fun c => cs_hasLog c = l)) as Hres;
    [|assert (keeps (logged (h_world h2) (t_committedPosition t2)) m T) as Hk] end.
  - eapply (keeps_bind _ _ _ T); [apply Hany|]. intros [status' saved] _.
    do 3 (eapply (keeps_bind _ _ _ T); [apply Hany|]; intros ? _). by apply keeps_ret.
  - unfold unregisterAsyncWork, notify.
    repeat first [apply logged_finish|apply logged_commit_txn|apply logged_release_if_held|apply logged_reset|apply logged_call
      |kstep|apply logged_hupdate; by split|by apply logged_shupdate].
  - intros Hrest. destruct (Hres (h2, t2) I) as [_ Hcs]. rewrite Hrest in Hcs. rewrite (Hcs _ eq_refl) in Hl.
    destruct (Hk (h2, t2)) as [H _]; [by split_and!; auto|]. rewrite Hrest in H. apply H.
Qed.

(** ** The count of pending transactions *)

Section WritePending.
Context {OS : Os}.
Variables (c : Z).

(** A store that is open and counts [c] pending transactions. *)
Definition counts (st : World * Store) : Prop :=
  s_pendingTransactionCount st.2 = c /\ s_isClosing st.2 = false.

Lemma counts_supdate f :
  (forall s, s_pendingTransactionCount (f s) = s_pendingTransactionCount s /\ s_isClosing (f s) = s_isClosing s) ->
  keeps counts (supdate f) T.
Proof using. intros Hf. apply keeps_modify. intros [w s] [H1 H2]. destruct (Hf s) as [H3 H4]. split; simpl in *; congruence. Qed.

Lemma counts_sworld {A} (m : M World A) : keeps counts (sworld m) T.
Proof using. intros [w s] HP. unfold sworld. by destruct (m w). Qed.

Lemma counts_with_file {A} seq (m : FM A) : keeps counts (with_file seq m) T.
Proof using.
  intros [w s] HP. unfold with_file. destruct (om_find _ _) as [f|]; [|done]. by destruct (m (w, f)) as [r [w' f']].
Qed.

Ltac cstep :=
  first
  [ lazymatch goal with
    | |- keeps _ (mret _) _ => apply keeps_ret; done
    | |- keeps _ (throw _) _ => apply keeps_throw
    | |- keeps _ (when _ _) _ => apply keeps_when
    | |- keeps _ (catch _ _) _ => apply keeps_catch; [|intros ?]
    | |- keeps _ (store _) _ => apply keeps_gets; done
    | |- keeps _ (gets _) _ => apply keeps_gets; done
    | |- keeps _ (count _) _ => unfold count
    | |- keeps _ (supdate _) _ => apply counts_supdate; intros ?; by split
    | |- keeps _ (sworld _) _ => apply counts_sworld
    | |- keeps _ (with_file _ _) _ => apply counts_with_file
    | |- keeps _ (match ?x with _ => _ end) _ => destruct x
    | |- keeps _ (_ ← _; _) _ => eapply (keeps_bind _ _ _ T); [|intros ? _]
    end ].

Lemma counts_rotate old : keeps counts (rotateToNextSequence old) T.
Proof using. unfold rotateToNextSequence, advanceSequence. repeat cstep. Qed.

Lemma counts_open_current fuel : keeps counts (open_current fuel) T.
Proof using.
  induction fuel as [|fuel IH]; cbn [open_current]; unfold getLogFile, ensure_open;
    repeat first [apply IH|apply counts_rotate|cstep].
Qed.

(** The same for the store inside the state of [writeBatch]. *)
Definition wcounts (st : (World * Store) * (TransactionLogEntryBatch * LogPosition)) : Prop := counts st.1.

Lemma wcounts_on_store {A} (m : SM A) : keeps counts m T -> keeps wcounts (on_store m) T.
Proof using. intros Hm [st b] HP. unfold on_store. destruct (Hm st HP) as [HP' _]. by destruct (m st). Qed.

Lemma wcounts_take : keeps wcounts take_position T.
Proof using. apply keeps_modify. by intros [[w s] [b p]] HP. Qed.

Lemma wcounts_retake : keeps wcounts retake_position T.
Proof using.
  unfold retake_position. cstep; [cstep|]. cstep. cstep; [|apply wcounts_take]. apply wcounts_on_store. cstep.
Qed.

Lemma wcounts_write_to seq : keeps wcounts (write_to seq) T.
Proof using.
  unfold write_to.
  repeat first [ apply wcounts_on_store; repeat first [apply counts_rotate|cstep] | cstep ].
  intros [[w s] [b p]] HP. unfold with_file_batch. destruct (om_find _ _) as [f|]; [|done].
  by destruct (writeEntries _ _) as [r [[w' f'] b']].
Qed.

Lemma wcounts_loop fuel : keeps wcounts (write_loop fuel) T.
Proof using.
  induction fuel as [|fuel IH]; cbn [write_loop]; unfold too_old;
    repeat first [ apply IH | apply wcounts_retake | apply wcounts_write_to
                 | apply wcounts_on_store; repeat first [apply counts_open_current|apply counts_rotate|cstep] | cstep ].
Qed.
End WritePending.

Lemma triple_weaken {S A} (P E : S -> Prop) (m : M S A) :
  keeps P m T -> (forall st, P st -> E st) -> triple P m (fun _ => P) E.
Proof. intros Hm HE. eapply triple_conseq; [by eapply triple_keeps|done|by intros ? ? []|done]. Qed.

(** A write that returns uncounts one transaction, whatever the system calls do. *)
Lemma write_batch_uncounts {OS : Os} fuel c :
  triple (wcounts c) (writeBatch fuel) (fun _ => wcounts (c - 1)) (fun _ => True).
Proof.
  assert (Hon : forall c f, (forall s, s_pendingTransactionCount (f s) = s_pendingTransactionCount s /\ s_isClosing (f s) = s_isClosing s) ->
    triple (wcounts c) (on_store (supdate f)) (fun _ => wcounts c) (fun _ => True)).
  { intros c' f Hf. apply triple_weaken; [|done]. by apply wcounts_on_store, counts_supdate. }
  unfold writeBatch. eapply (triple_bind _ _ _ (fun b st => wcounts c st)).
  { apply triple_weaken; [|done]. by apply wcounts_on_store, keeps_gets. }
  intros [|]; [by apply triple_throw|].
  eapply triple_bind; [apply triple_weaken; [apply wcounts_take|done]|]. intros ?.
  eapply (triple_bind _ _ _ (fun _ => wcounts c)); [by apply triple_gets|]. intros ts.
  eapply triple_bind; [apply triple_weaken; [by apply wcounts_on_store, keeps_gets|done]|]. intros latest.
  eapply triple_bind; [apply triple_weaken; [apply wcounts_on_store, keeps_when, counts_supdate; by split|done]|]. intros ?.
  eapply triple_bind; [apply triple_weaken; [apply wcounts_loop|done]|]. intros ?.
  eapply triple_bind; [by apply Hon|]. intros ?.
  eapply (triple_bind _ _ _ (fun _ => wcounts (c - 1))).
  { intros [[w s] [b p]] [H1 H2]. split; simpl in *; [lia|done]. }
  intros ?. eapply (triple_bind _ _ _ (fun _ => wcounts (c - 1))); [by apply triple_gets|]. intros b.
  eapply triple_bind; [by apply Hon|]. intros ?. eapply triple_bind; [by apply Hon|]. intros ?. by apply Hon.
Qed.

Section Balance.
Context {OS : Os} {RK : Rocks} {AL : Alloc}.

Definition final (s : TransactionState) : Prop := s = Committed \/ s = Aborted.

(** A handle as the operations leave it: a closed one is in a final state and
    without database, an open one has its RocksDB transaction, and entries are
    staged only for a bound store and before the log is written. *)
Record txn_wf (t : TransactionHandle) : Prop := mkTxnWf {
  tw_closed : t_closed t = true -> t_dbHandle t = None /\ final (t_state t);
  tw_open : t_closed t = false -> is_Some (t_txn t);
  tw_batch : is_Some (t_logEntryBatch t) -> is_Some (t_boundLogStore t) /\ logSequenceNumber (t_committedPosition t) = 0;
  tw_position : 0 <= logSequenceNumber (t_committedPosition t);
}.

Variables (sid c0 : Z).

(** 1 while the handle is counted as pending at store [sid]. *)
Definition counted (t : TransactionHandle) : Z :=
  if bool_decide (t_boundLogStore t = Some sid) && (logSequenceNumber (t_committedPosition t) =? 0) && negb (t_closed t)
  then 1 else 0.

Definition store_counts (h : Shared) (c : Z) : Prop :=
  exists s, h_stores h !! sid = Some s /\ s_isClosing s = false /\ s_pendingTransactionCount s = c.

(** Store [sid] is open and counts [k] of this handle besides [c0] others. *)
Definition bal (W : TransactionHandle -> Prop) (k : TransactionHandle -> Z) (st : Shared * TransactionHandle) : Prop :=
  W st.2 /\ store_counts st.1 (c0 + k st.2).

Abbreviation balanced := (bal txn_wf counted).

Section Frame.
Variables (W : TransactionHandle -> Prop) (k : TransactionHandle -> Z).

Lemma bal_hupdate f :
  (forall t, W t -> W (f t) /\ k (f t) = k t) -> keeps (bal W k) (hupdate f) T.
Proof using. intros Hf. apply keeps_modify. intros [h t] [Hw Hs]. destruct (Hf t Hw) as [Hw' Hc]. split; [done|]. simpl. by rewrite Hc. Qed.

Lemma bal_shupdate f : (forall h, h_stores (f h) = h_stores h) -> keeps (bal W k) (shupdate f) T.
Proof using.
  intros Hf. apply keeps_modify. intros [h t] [Hw (s & Hs & Hr)]. split; [done|]. exists s. simpl. by rewrite Hf.
Qed.

Lemma bal_with_store {A} sid' (m : SM A) : (forall c, keeps (counts c) m T) -> keeps (bal W k) (with_store sid' m) T.
Proof using.
  intros Hm [h t] [Hw (s & Hs & Hc & Hp)]. cbn [fst snd] in *. unfold with_store. destruct (h_stores h !! sid') as [s'|] eqn:Hs';
    [|split; [|done]; split; [done|by exists s]].
  destruct (m (h_world h, s')) as [r [w1 s1]] eqn:Hrun. split; [|done]. split; [done|]. unfold store_counts. simpl.
  destruct (Z.eq_dec sid' sid) as [->|Hne].
  - rewrite Hs in Hs'. injection Hs' as <-. rewrite lookup_insert_eq. exists s1. split; [done|].
    destruct (Hm (c0 + k t) (h_world h, s)) as [[H1 H2] _]; [done|]. rewrite Hrun in *. by simpl in *.
  - rewrite lookup_insert_ne by done. by exists s.
Qed.

Lemma bal_on_vt {A} (m : VM A) : keeps (bal W k) (on_vt m) T.
Proof using. intros [h t] HP. unfold on_vt. destruct (h_vt h) as [s|]; [|done]. by destruct (m s). Qed.

Lemma bal_call c : keeps (bal W k) (call c) T.
Proof using. by apply bal_shupdate. Qed.

Lemma bal_commit_finished sid' p n : keeps (bal W k) (with_store sid' (commitFinished p n)) T.
Proof using.
  apply bal_with_store. intros c. unfold commitFinished, update_committed.
  repeat (eapply (keeps_bind _ _ _ T); [|intros ? _]); apply counts_supdate; by split.
Qed.

Lemma bal_commit_aborted sid' p : keeps (bal W k) (with_store sid' (commitAborted p)) T.
Proof using.
  apply bal_with_store. intros c. unfold commitAborted, update_committed.
  repeat (eapply (keeps_bind _ _ _ T); [|intros ? _]); apply counts_supdate; by split.
Qed.
End Frame.

(** A step of a method that keeps [bal]; assignments to what [W] and [k] speak of
    are left. *)
Ltac bstep :=
  first [ kstep
        | apply bal_call
        | apply bal_commit_finished
        | apply bal_commit_aborted
        | apply bal_hupdate; solve [intros ? [? ? ? ?]; split; [by constructor|done]]
        | apply bal_shupdate; done
        | apply bal_with_store; intros ?; first [by apply keeps_gets | by apply counts_supdate]
        | apply bal_on_vt ].

(** Releasing intents, for any [W] that does not speak of them. *)
Lemma bal_release W k slots trackers : keeps (bal W k) (release_all slots trackers) T.
Proof using.
  revert trackers. induction slots as [|i slots IH]; intros [|p tr]; cbn [release_all]; repeat first [apply IH|bstep].
Qed.

Lemma bal_release_if_held W k :
  (forall t, W t -> W (set_intents [] [] t) /\ k (set_intents [] [] t) = k t) -> keeps (bal W k) release_if_held T.
Proof using.
  intros H. unfold release_if_held, releaseIntent. repeat first [apply bal_release|bstep|by apply bal_hupdate].
Qed.

Lemma intents_wf t : txn_wf t -> txn_wf (set_intents [] [] t) /\ counted (set_intents [] [] t) = counted t.
Proof using. intros []. split; [by constructor|done]. Qed.

Lemma bal_lock d key : keeps balanced (lockVTSlot d key) T.
Proof using. unfold lockVTSlot. repeat bstep. Qed.

Lemma bal_reset : keeps balanced resetTransaction T.
Proof using.
  unfold resetTransaction, beginTransaction. repeat bstep.
  apply bal_hupdate. intros t [H1 H2 H3 H4]. split; [|done]. constructor; simpl; try done; by intros [? [=]].
Qed.

(** Binding counts the handle. *)
Lemma bind_balanced sid' :
  triple (fun st => balanced st /\ t_closed st.2 = false /\ logSequenceNumber (t_committedPosition st.2) = 0 /\
            t_boundLogStore st.2 <> Some sid)
    (bind_store sid') (fun _ st => balanced st) (fun _ => True).
Proof using.
  intros [h t] ([Hw (s & Hs & Hc & Hp)] & Hopen & Hseq & Hb). cbn [fst snd] in *.
  unfold bind_store, with_store, hupdate. mrun. destruct (h_stores h !! sid') as [s'|] eqn:Hs'; [|done].
  unfold store, gets. destruct (s_isClosing s') eqn:Hc'; [done|]. simpl. rewrite lookup_insert_eq. simpl.
  assert (Hk : counted t = 0) by (unfold counted; by rewrite bool_decide_eq_false_2).
  split; simpl. { destruct Hw. by constructor; [..|intros _; split; [eexists|]|]. }
  unfold store_counts. simpl. rewrite insert_insert_eq. unfold counted. simpl. rewrite Hseq, Hopen.
  destruct (Z.eq_dec sid' sid) as [->|Hne].
  - rewrite Hs in Hs'. injection Hs' as <-. rewrite lookup_insert_eq. eexists. split; [done|].
    rewrite bool_decide_eq_true_2 by done. simpl. split; [done|lia].
  - rewrite lookup_insert_ne by done. exists s. rewrite bool_decide_eq_false_2 by congruence. simpl. split_and!; [done|done|lia].
Qed.

Lemma lock_bound_run h t :
  exists r, lock_bound (h, t) = (inr r, (h, t)) /\
    match r with
    | Some q => t_boundLogStore t = Some q /\ is_Some (h_stores h !! q)
    | None => forall q, t_boundLogStore t = Some q -> h_stores h !! q = None
    end.
Proof using.
  unfold lock_bound. eexists. split; [done|]. destruct (t_boundLogStore t) as [q|]; simpl; [|done].
  destruct (decide (is_Some (h_stores h !! q))) as [H|H]; [done|]. intros q' [= <-]. by apply eq_None_not_Some.
Qed.

Lemma add_balanced sid' entry h t h' t' :
  balanced (h, t) -> t_closed t = false -> addLogEntry sid' entry (h, t) = (inr tt, (h', t')) -> balanced (h', t').
Proof using.
  intros Hb Hopen. pose proof Hb as [Hw (s & Hs & _)]. cbn [fst snd] in *. unfold addLogEntry.
  rewrite (bind_run (handle _) _ (h, t) (t_committedPosition t) (h, t)) by done.
  destruct (Z.ltb_spec 0 (logSequenceNumber (t_committedPosition t))) as [Hlt|Hle]; [by intros [= <- <-]|].
  assert (Hseq : logSequenceNumber (t_committedPosition t) = 0) by (pose proof (tw_position _ Hw); lia).
  destruct (lock_bound_run h t) as (r & Hr & Hbound). rewrite (bind_run _ _ _ _ _ Hr).
  match goal with |- (_ ← ?m; _) _ = _ -> _ => set (bind := m) end.
  assert (Hbind : triple (fun st => st = (h, t)) bind
    (fun _ st => balanced st /\ logSequenceNumber (t_committedPosition st.2) = 0 /\ is_Some (t_boundLogStore st.2)) (fun _ => True)).
  { destruct r as [cur|]; subst bind.
    - intros ? ->. destruct Hbound as [Hb1 [s1 Hs1]]. unfold with_store. mrun. rewrite Hs1. simpl.
      rewrite (insert_id _ _ _ Hs1). destruct (h_stores h !! sid') as [s2|] eqn:Hs2; [|done]. simpl.
      rewrite (insert_id _ _ _ Hs2). destruct (negb _); simpl; [done|].
      replace (set_h_stores (h_stores h) _) with h by by destruct h. split_and!; [done|done|eauto].
    - intros ? ->. assert (Hne : t_boundLogStore t <> Some sid) by (intros He; by rewrite (Hbound _ He) in Hs).
      pose proof (bind_balanced sid' (h, t)) as H. cbn [fst snd] in H. specialize (H ltac:(done)).
      unfold bind_store, with_store, hupdate in *. revert H. mrun. destruct (h_stores h !! sid') as [s'|]; [|done].
      unfold store, gets. destruct (s_isClosing s'); [done|]. simpl. rewrite lookup_insert_eq. simpl. eauto. }
  specialize (Hbind _ eq_refl). mrun. destruct (bind (h, t)) as [[e|[]] [h1 t1]]; [done|].
  destruct Hbind as ([Hw1 Hs1] & Hseq1 & Hb1). simpl in *. intros [= <- <-]. split; [|done]. destruct Hw1. by constructor.
Qed.

(** What [close] keeps between marking the handle closed and releasing it. *)
Record closing_wf (b : option Z) (p : LogPosition) (t : TransactionHandle) : Prop := mkClosing {
  cw_closed : t_closed t = true /\ final (t_state t);
  cw_batch : is_Some (t_logEntryBatch t) -> is_Some b /\ logSequenceNumber p = 0;
  cw_fixed : t_boundLogStore t = b /\ t_committedPosition t = p;
  cw_position : 0 <= logSequenceNumber p;
}.

Lemma close_pending_counts b p k :
  k = (if bool_decide (b = Some sid) && (logSequenceNumber p =? 0) then 1 else 0) ->
  triple (bal (closing_wf b p) (fun _ => k)) close_pending (fun _ => bal (closing_wf b p) (fun _ => 0)) (fun _ => True).
Proof using.
  intros Hk [h t] [Hw (s & Hs & Hc & Hp)]. cbn [fst snd] in *. pose proof Hw as [_ _ [Hfb Hfp] _]. unfold close_pending.
  rewrite (bind_run (handle _) _ (h, t) p (h, t)) by (unfold handle, gets; by rewrite Hfp). unfold when.
  destruct (Z.eqb_spec (logSequenceNumber p) 0) as [H0|H0].
  2: { rewrite andb_false_r in Hk. split; [done|]. exists s. split_and!; [done|done|lia]. }
  destruct (lock_bound_run h t) as (r & Hr & Hbound). rewrite (bind_run _ _ _ _ _ Hr). rewrite andb_true_r in Hk.
  destruct r as [q|].
  - destruct Hbound as [Hq [sq Hsq]]. rewrite Hfb in Hq. unfold with_store. mrun. rewrite Hsq. simpl.
    destruct (s_isClosing sq) eqn:Hcq; simpl.
    + destruct (Z.eq_dec q sid) as [->|Hne]; [congruence|]. split; [done|]. exists s. simpl. rewrite lookup_insert_ne by done.
      rewrite bool_decide_eq_false_2 in Hk by congruence. split_and!; [done|done|lia].
    + rewrite lookup_insert_eq. simpl. split; [done|]. unfold store_counts. simpl. rewrite insert_insert_eq.
      destruct (Z.eq_dec q sid) as [->|Hne].
      * rewrite Hs in Hsq. injection Hsq as <-. rewrite lookup_insert_eq. eexists. split; [done|]. simpl.
        rewrite bool_decide_eq_true_2 in Hk by done. split; [done|lia].
      * rewrite lookup_insert_ne by done. exists s. rewrite bool_decide_eq_false_2 in Hk by congruence. split_and!; [done|done|lia].
  - rewrite bool_decide_eq_false_2 in Hk by (intros ->; by rewrite (Hbound _ Hfb) in Hs).
    split; [done|]. exists s. split_and!; [done|done|lia].
Qed.

Lemma close_balanced : triple balanced close (fun _ => balanced) (fun _ => True).
Proof using.
  intros [h t] [Hw Hs]. unfold close. rewrite (bind_run (handle id) _ (h, t) t (h, t)) by done.
  destruct (t_closed t) eqn:Hcl; [done|]. cbn [fst snd] in *.
  destruct (tw_open _ Hw Hcl) as [n Hn]. rewrite Hn. set (b := t_boundLogStore t). set (p := t_committedPosition t).
  set (k := counted t).
  match goal with |- match ?m (h, t) with _ => _ end =>
    enough (triple (fun st => st = (h, t)) m (fun _ => balanced) (fun _ => True)) as Htr by exact (Htr _ eq_refl) end.
  eapply (triple_bind _ _ _ (fun _ st => st = (h, set_closed true t))); [by intros ? ->|]. intros _.
  eapply (triple_bind _ _ _ (fun _ st => exists x, st = (set_h_transactions x h, set_closed true t))).
  { intros ? ->. destruct (t_dbHandle t); simpl; [by eexists|]. exists (h_transactions h). by destruct h. }
  intros _.
  eapply (triple_bind _ _ _ (fun _ => bal (closing_wf b p) (fun _ => k))).
  { intros ? [x ->]. destruct Hw as [W1 W2 W3 W4].
    destruct (t_state t) eqn:Hst; simpl; (split; [|done]); simpl; by (constructor; simpl; try rewrite Hst; unfold final; auto). }
  intros ?. eapply triple_bind.
  { apply triple_weaken; [|done]. apply bal_hupdate. intros ? []. split; [by constructor|done]. }
  intros ?. eapply triple_bind.
  { apply triple_weaken; [|done]. unfold close_position. repeat bstep. }
  intros ?. eapply triple_bind; [apply close_pending_counts|].
  { subst k. unfold counted. fold b p. rewrite Hcl. by rewrite andb_true_r. }
  intros ?. eapply triple_bind.
  { apply triple_weaken; [|done]. apply bal_release_if_held. intros ? []. split; [by constructor|done]. }
  intros ?. eapply triple_bind; [apply triple_weaken; [apply bal_call|done]|].
  intros ?. eapply triple_bind; [apply triple_weaken; [apply bal_call|done]|].
  intros ?. eapply triple_bind.
  { apply triple_weaken; [|done]. apply bal_hupdate. intros ? []. split; [by constructor|done]. }
  intros _ [h1 t1] [[[Hc1 Hf1] Hb1 [Hfb Hfp] Hp1] Hs1]. simpl in *. split; simpl.
  - constructor; simpl; [done|congruence|by rewrite Hfb, Hfp|by rewrite Hfp].
  - unfold counted. simpl. rewrite Hc1, andb_false_r. done.
Qed.

(** The write of the staged batch returns and gives it a position. *)
Definition write_returns (fuel : nat) (h : Shared) (t : TransactionHandle) : Prop :=
  forall b q s, t_logEntryBatch t = Some b -> t_boundLogStore t = Some q -> h_stores h !! q = Some s ->
    exists st b' p', writeBatch fuel ((h_world h, s), (b, t_committedPosition t)) = (inr tt, (st, (b', p'))) /\
      0 < logSequenceNumber p'.

Lemma write_balanced fuel q b h t :
  balanced (h, t) -> t_closed t = false -> write_returns fuel h t ->
  t_logEntryBatch t = Some b -> t_boundLogStore t = Some q -> is_Some (h_stores h !! q) ->
  exists h' t', write_batch fuel q b (h, t) = (inr tt, (h', t')) /\ balanced (h', set_logEntryBatch None t').
Proof using.
  intros [Hw (s0 & Hs0 & Hc0 & Hp0)] Hopen Hret Hb Hq [s Hs]. cbn [fst snd] in *.
  destruct (Hret b q s Hb Hq Hs) as ([w' s'] & b' & p' & Hrun & Hseq). unfold write_batch. rewrite Hs, Hrun.
  eexists _, _. split; [done|]. split; [destruct Hw; constructor; simpl; try done; lia|].
  unfold store_counts, counted. simpl. replace (logSequenceNumber p' =? 0) with false by lia. rewrite andb_false_r. simpl.
  destruct (Z.eq_dec q sid) as [->|Hne].
  - rewrite Hs0 in Hs. injection Hs as <-. rewrite lookup_insert_eq. exists s'. split; [done|].
    assert (Hk : counted t = 1).
    { unfold counted. rewrite bool_decide_eq_true_2 by done. destruct (tw_batch _ Hw) as [_ ->]; [eauto|]. by rewrite Hopen. }
    pose proof (write_batch_uncounts fuel (s_pendingTransactionCount s0) ((h_world h, s0), (b, t_committedPosition t)) ltac:(done)) as Hu.
    rewrite Hrun in Hu. destruct Hu as [H1 H2]. simpl in *. split; [done|lia].
  - rewrite lookup_insert_ne by done. exists s0. split_and!; [done|done|].
    assert (counted t = 0) by (unfold counted; by rewrite bool_decide_eq_false_2 by congruence). lia.
Qed.

Lemma commit_log_balanced fuel h t :
  balanced (h, t) -> t_closed t = false -> write_returns fuel h t ->
  exists r st, commit_log fuel (h, t) = (inr r, st) /\ balanced st.
Proof using.
  intros Hbal Hopen Hret. unfold commit_log.
  rewrite (bind_run (handle _) _ (h, t) (t_logEntryBatch t) (h, t)) by done.
  destruct (t_logEntryBatch t) as [b|] eqn:Hb; [|by eexists _, _].
  destruct (lock_bound_run h t) as (r & Hr & Hbound). rewrite (bind_run _ _ _ _ _ Hr). destruct r as [q|]; [|by eexists _, _].
  destruct Hbound as [Hq Hs]. destruct (write_balanced fuel q b h t) as (h' & t' & Hrun & Hbal'); [done..|].
  unfold catch_std, catch. rewrite (bind_run _ _ _ _ _ Hrun). by eexists _, _.
Qed.

Lemma bal_finish status q : keeps balanced (finish_log status q) T.
Proof using. unfold finish_log. repeat bstep. Qed.

Lemma bal_commit_txn : keeps balanced commit_txn T.
Proof using. unfold commit_txn. repeat bstep. Qed.

Lemma bal_committed : keeps balanced (hupdate (set_state Committed)) T.
Proof using.
  apply bal_hupdate. intros t [H1 H2 H3 H4]. split; [|done]. constructor; simpl; try done.
  intros Hc. destruct (H1 Hc). by split; [|left].
Qed.

Lemma bal_reset_pending : keeps balanced reset_pending T.
Proof using.
  intros [h t] Hb. unfold reset_pending, handle, hupdate. mrun. case_bool_decide as Hst; [|done].
  split; [|done]. destruct Hb as [[H1 H2 H3 H4] Hs]. split; [|done]. simpl in *. constructor; simpl; try done.
  intros Hc. destruct (H1 Hc) as [_ [Hf|Hf]]; congruence.
Qed.

Lemma execute_balanced fuel h t :
  balanced (h, t) -> write_returns fuel h t -> balanced (snd (Commit_execute fuel (h, t))).
Proof using.
  intros Hbal Hret. unfold Commit_execute. rewrite (bind_run (handle id) _ (h, t) t (h, t)) by done.
  rewrite (bind_run (shared _) _ (h, t) (h_opened h) (h, t)) by done.
  destruct (t_cancelled t || negb (is_some (t_dbHandle t)) || negb (h_opened h)) eqn:Hg.
  { match goal with |- balanced (snd (?m _)) => enough (keeps balanced m T) as Hk by apply (Hk _ Hbal) end.
    unfold unregisterAsyncWork. repeat bstep. }
  assert (Hopen : t_closed t = false).
  { destruct (t_closed t) eqn:Hc; [|done]. destruct Hbal as [Hw _]. destruct (tw_closed _ Hw Hc) as [Hd _].
    simpl in Hd. by rewrite Hd, orb_true_r in Hg. }
  destruct (commit_log_balanced fuel h t Hbal Hopen Hret) as ([[status l] q] & st1 & Hrun & Hbal1).
  rewrite (bind_run _ _ _ _ _ Hrun). revert st1 Hbal1 Hrun. intros st1 Hbal1 _.
  match goal with |- balanced (snd (?m st1)) => enough (keeps balanced m T) as Hk by apply (Hk _ Hbal1) end.
  unfold unregisterAsyncWork, notify.
  repeat first [apply bal_finish|apply bal_commit_txn|apply bal_release_if_held, intents_wf|apply bal_reset|apply bal_committed|bstep].
Qed.

Lemma sync_balanced fuel h t h' t' r :
  balanced (h, t) -> write_returns fuel h t -> CommitSync fuel (h, t) = (inr r, (h', t')) -> balanced (h', t').
Proof using.
  intros Hbal Hret. unfold CommitSync. rewrite (bind_run (handle _) _ (h, t) (t_state t) (h, t)) by done.
  destruct (t_state t) eqn:Hst; [|by intros [= <- <- <-]..].
  assert (Hopen : t_closed t = false).
  { destruct (t_closed t) eqn:Hc; [|done]. destruct Hbal as [Hw _]. destruct (tw_closed _ Hw Hc) as [_ [Hf|Hf]]; simpl in *; congruence. }
  set (t1 := set_state Committing t). rewrite (bind_run (hupdate _) _ (h, t) tt (h, t1)) by done.
  assert (Hbal1 : balanced (h, t1)).
  { destruct Hbal as [[H1 H2 H3 H4] Hs]. split; [|done]. simpl in *. constructor; simpl; try done. congruence. }
  rewrite (bind_run (handle _) _ (h, t1) (t_logEntryBatch t) (h, t1)) by done.
  match goal with |- mbind _ ?m _ = _ -> _ => set (wr := m) end.
  assert (Hwr : exists l st, wr (h, t1) = (inr l, st) /\ balanced st).
  { subst wr. destruct (t_logEntryBatch t) as [b|] eqn:Hb; [|by eexists _, _].
    destruct (lock_bound_run h t1) as (q & Hq & Hbound). rewrite (bind_run _ _ _ _ _ Hq). destruct q as [q|]; [|by eexists _, _].
    destruct Hbound as [Hq1 Hs1]. destruct (write_balanced fuel q b h t1) as (h2 & t2 & Hrun & Hbal2); [done..|].
    rewrite (bind_run _ _ _ _ _ Hrun). by eexists _, _. }
  destruct Hwr as (l & st & Hl & Hbal2). rewrite (bind_run _ _ _ _ _ Hl).
  match goal with |- ?m st = _ -> _ => enough (triple balanced m (fun _ => balanced) (fun _ => True)) as Ht end.
  { intros Hrun. specialize (Ht st Hbal2). by rewrite Hrun in Ht. }
  clear Hl. destruct l as [[hasLog q]|]; [|by apply triple_ret].
  eapply triple_bind; [apply triple_weaken; [apply bal_commit_txn|done]|]. intros status.
  eapply triple_bind; [apply triple_weaken; [apply bal_release_if_held, intents_wf|done]|]. intros ?.
  eapply triple_bind; [apply triple_weaken; [apply bal_finish|done]|]. intros status'. destruct (ok status').
  - eapply triple_bind; [apply triple_weaken; [apply bal_committed|done]|]. intros ?.
    eapply triple_bind; [apply triple_weaken; [by apply bal_shupdate|done]|]. intros ?.
    eapply triple_bind; [apply close_balanced|]. intros ?. by apply triple_ret.
  - apply triple_weaken; [|done]. repeat first [apply bal_reset_pending|apply bal_reset|bstep].
Qed.

(** The calls a program can make on the handle: an entry is added only to a
    transaction that [transactionGet] finds, which has its RocksDB transaction,
    and a log is not chosen any more once one was written; a commit writes what is
    staged. *)
Definition allowed (op : txn_op) (h : Shared) (t : TransactionHandle) : Prop :=
  match op with
  | OpAddLogEntry _ _ => t_closed t = false
  | OpUseLog _ _ => logSequenceNumber (t_committedPosition t) = 0
  | OpExecute fuel | OpCommitSync fuel => write_returns fuel h t
  | _ => True
  end.

Lemma bal_park cb slots : keeps balanced (park cb slots) T.
Proof using. induction slots as [|i slots IH]; cbn [park]; repeat first [apply IH|bstep]. Qed.

Lemma bal_put_items n d keys values ko vo c : keeps balanced (put_items n d keys values ko vo c) T.
Proof using.
  revert ko vo. induction c as [|c IH]; intros ko vo; cbn [put_items]; unfold take_item, readLE32;
    repeat first [apply IH|apply bal_lock|bstep].
Qed.

Lemma use_log_balanced name resolved h t h' t' r :
  balanced (h, t) -> logSequenceNumber (t_committedPosition t) = 0 ->
  UseLog name resolved (h, t) = (inr r, (h', t')) -> balanced (h', t').
Proof using.
  intros Hb Hseq. pose proof Hb as [Hw (s & Hs & _)]. cbn [fst snd] in *. unfold UseLog.
  destruct (lock_bound_run h t) as (q & Hq & Hbound). rewrite (bind_run _ _ _ _ _ Hq).
  destruct q as [cur|].
  - match goal with |- ?m (h, t) = _ -> _ => enough (triple balanced m (fun _ => balanced) (fun _ => True)) as Ht end.
    { intros Hrun. specialize (Ht _ Hb). by rewrite Hrun in Ht. }
    apply triple_weaken; [|done]. repeat bstep.
  - simpl. rewrite (bind_run (mret false) _ (h, t) false (h, t)) by done.
    rewrite (bind_run (handle _) _ (h, t) (t_dbHandle t) (h, t)) by done. unfold deref_some.
    destruct (t_dbHandle t) as [d|] eqn:Hd; [|done]. rewrite (bind_run (mret d) _ (h, t) d (h, t)) by done.
    destruct resolved as [msg|sid']; [by intros [= <- <- <-]|].
    assert (Hopen : t_closed t = false).
    { destruct (t_closed t) eqn:Hc; [|done]. destruct (tw_closed _ Hw Hc). congruence. }
    assert (Hne : t_boundLogStore t <> Some sid) by (intros He; by rewrite (Hbound _ He) in Hs).
    pose proof (bind_balanced sid' (h, t)) as Hbb. specialize (Hbb ltac:(done)). revert Hbb.
    assert (Hfail : forall e h1 t1, bind_store sid' (h, t) = (inl e, (h1, t1)) -> h1 = h /\ t1 = t).
    { intros e h1 t1. unfold bind_store, with_store, hupdate. mrun. destruct (h_stores h !! sid') as [s'|] eqn:Hs'; [|by intros [= _ -> ->]].
      unfold store, gets. destruct (s_isClosing s'); simpl; [|by rewrite lookup_insert_eq].
      intros [= _ <- <-]. rewrite insert_id by done. by destruct h. }
    unfold catch_std, catch. mrun. destruct (bind_store sid' (h, t)) as [[e|[]] [h1 t1]] eqn:Hrun.
    + destruct (Hfail _ _ _ eq_refl) as [-> ->]. intros _. destruct e; intros [= <- <- <-]; done.
    + intros Hb1 [= <- <- <-]. exact Hb1.
Qed.

Lemma abort_balanced : triple balanced Abort (fun _ => balanced) (fun _ => True).
Proof using.
  intros [h1 t1] [Hw1 Hs1]. unfold Abort. rewrite (bind_run (handle id) _ (h1, t1) t1 (h1, t1)) by done.
  destruct (t_state t1) eqn:Hst; [|done..]. rewrite (bind_run (hupdate _) _ (h1, t1) tt (h1, set_state Aborted t1)) by done.
  unfold deref_some. destruct (t_txn t1) as [n|]; [|done].
  rewrite (bind_run (mret n) _ _ n (h1, set_state Aborted t1)) by done.
  match goal with |- match ?m ?st with _ => _ end => enough (triple balanced m (fun _ => balanced) (fun _ => True)) as Ha; [apply Ha|] end.
  { split; [|done]. destruct Hw1 as [H1 H2 H3 H4]. simpl in *. constructor; simpl; try done.
    intros Hc. destruct (H1 Hc). by split; [|right]. }
  eapply triple_bind; [apply triple_weaken; [by repeat bstep|done]|]. intros status. destruct (negb (ok status)); [by apply triple_ret|].
  eapply triple_bind; [apply close_balanced|]. intros ?. by apply triple_ret.
Qed.

Lemma commit_balanced : keeps balanced Commit T.
Proof using.
  unfold Commit, registerAsyncWork, unregisterAsyncWork.
  intros [h1 t1] Hb1. unfold handle, hupdate. mrun. destruct (t_state t1) eqn:Hst; simpl; (split; [|done]);
    destruct Hb1 as [[H1 H2 H3 H4] Hs1]; (split; [|done]); simpl in *; constructor; simpl; try done.
  intros Hc. destruct (H1 Hc) as [_ [Hf|Hf]]; congruence.
Qed.

Lemma complete_balanced cb cs : triple balanced (Commit_complete cb cs) (fun _ => balanced) (fun _ => True).
Proof using.
  unfold Commit_complete. eapply (triple_bind _ _ _ (fun _ => balanced)); [by apply triple_gets|]. intros t1.
  destruct (ok (cs_status cs)). { eapply triple_bind; [apply close_balanced|]. intros ?. by apply triple_ret. }
  apply triple_weaken; [|done]. repeat first [apply bal_reset_pending|apply bal_park|bstep].
Qed.

Lemma op_balanced op h t h' t' :
  balanced (h, t) -> allowed op h t -> run_op op (h, t) = (inr tt, (h', t')) -> balanced (h', t').
Proof using.
  intros Hb Hall Hrun.
  assert (Hk : keeps balanced (run_op op) T -> balanced (h', t')).
  { intros Hk. destruct (Hk _ Hb) as [H _]. by rewrite Hrun in H. }
  assert (Ht : triple balanced (run_op op) (fun _ => balanced) (fun _ => True) -> balanced (h', t')).
  { intros Ht. specialize (Ht _ Hb). by rewrite Hrun in Ht. }
  destruct op; cbn [run_op allowed] in *.
  - by eapply add_balanced.
  - apply Hk. unfold getSync, ensureSnapshot, set_snapshot, target_handle. repeat bstep.
  - apply Hk. unfold putSync, write_snapshot, set_snapshot, target_handle. repeat first [apply bal_lock|bstep].
  - apply Hk. unfold putManySync, write_snapshot, set_snapshot, target_handle. repeat first [apply bal_put_items|bstep].
  - apply Hk. unfold removeSync, write_snapshot, set_snapshot, target_handle. repeat first [apply bal_lock|bstep].
  - unfold ignore in Hrun. revert Hrun. mrun. destruct (CommitSync fuel (h, t)) as [[e|r] [h1 t1]] eqn:Hr; [done|].
    intros [= <- <-]. by eapply sync_balanced.
  - apply Ht. unfold ignore. eapply triple_bind; [apply abort_balanced|]. intros ?. by apply triple_ret.
  - apply Ht, close_balanced.
  - apply Hk. unfold SetTimestamp. repeat bstep.
  - unfold ignore in Hrun. revert Hrun. mrun. destruct (UseLog _ _ (h, t)) as [[e|r] [h1 t1]] eqn:Hr; [done|].
    intros [= <- <-]. by eapply use_log_balanced.
  - apply Hk. unfold ignore. eapply keeps_bind; [apply commit_balanced|]. intros; by apply keeps_ret.
  - pose proof (execute_balanced fuel h t Hb Hall) as He. revert Hrun. unfold ignore. mrun.
    destruct (Commit_execute fuel (h, t)) as [[e|r] st1]; [done|]. by intros [= ->].
  - apply Ht. unfold ignore. eapply triple_bind; [apply complete_balanced|]. intros ?. by apply triple_ret.
Qed.
End Balance.

(** A sequence of allowed operations that all return. *)
Fixpoint runs {OS : Os} {RK : Rocks} {AL : Alloc} (ops : list txn_op) (st st' : Shared * TransactionHandle) : Prop :=
  match ops with
  | [] => st' = st
  | op :: ops => exists st1, allowed op st.1 st.2 /\ run_op op st = (inr tt, st1) /\ runs ops st1 st'
  end.

Lemma runs_balanced {OS : Os} {RK : Rocks} {AL : Alloc} sid c0 ops st st' :
  bal sid c0 txn_wf (counted sid) st -> runs ops st st' -> bal sid c0 txn_wf (counted sid) st'.
Proof.
  revert st. induction ops as [|op ops IH]; cbn [runs]; [by intros st Hb ->|].
  intros [h t] Hb ([h1 t1] & Hall & Hrun & Hruns). apply (IH (h1, t1)); [|done]. by eapply op_balanced.
Qed.

(** ** Fixtures *)

Definition db0 : DBHandle := mkDBHandle 256 Optimistic false true 0.
Definition log0 : Store := Store_new "foo" "/logs/foo" 4096 0 (SpecFloat.S754_zero false).
Definition shared0 : Shared := mkShared empty_world {[ 1 := log0 ]} None [] 0 0 ∅ true [].
Definition no_txn : TransactionHandle :=
  mkTxn None false false 0 false 0 Pending None true None [] [] None (mkPos 0 0) false 0.
Definition entry0 : TransactionLogEntry := TransactionLogEntry_new "foo" [Byte.x61] 1.

(** RocksDB: every call succeeds, or the first commit finds a conflict. *)
Definition rocks_ok : Rocks :=
  {| rk_status := fun _ => StOk; rk_value := fun _ => []; rk_sequence := fun c => Z.of_nat (length c) |}.
Definition rocks_busy_once : Rocks :=
  {| rk_status := fun calls => match last calls with Some (CommitTxn 0) => StBusy | _ => StOk end;
     rk_value := fun _ => []; rk_sequence := fun c => Z.of_nat (length c) |}.
Definition alloc0 : Alloc := {| new_tracker := fun heap => 4096 + 64 * Z.of_nat (size heap) |}.
(** The [k]-th system call fails. *)
Definition os_fails_at (k : nat) : Os :=
  {| os_fails := fun n => Nat.eqb n k; os_eintr := fun _ => 0%nat; os_accepts := fun _ => 2 ^ 62; os_clock := fun _ => 10 |}.

(** A transaction with an entry for the log "foo", in its first commit. *)
Definition staged (OS : Os) (RK : Rocks) : HM unit :=
  TransactionHandle_new db0 false false 1000000000;;
  UseLog "foo" (inr 1);;
  addLogEntry 1 entry0;;
  Commit;; mret tt.

(** ** Properties *)

(** C4: the transaction log is written once per transaction.  After a commit that
    wrote the log at a position, whether it succeeded or is to be retried, no
    sequence of operations of the handle, re-staged entries and further commits
    included, changes a file again or the position, or stages an entry. *)
Theorem log_written_once {OS : Os} {RK : Rocks} {AL : Alloc} fuel h t cs h1 t1 ops :
  Commit_execute fuel (h, t) = (inr cs, (h1, t1)) -> cs_hasLog cs = true ->
  0 < logSequenceNumber (t_committedPosition t1) ->
  let '(h2, t2) := run_ops ops (h1, t1) in
  h_world h2 = h_world h1 /\ t_committedPosition t2 = t_committedPosition t1 /\ t_logEntryBatch t2 = None.
Proof.
  intros Hrun Hlog Hpos. enough (Hb : t_logEntryBatch t1 = None).
  { pose proof (logged_ops (h_world h1) (t_committedPosition t1) Hpos ops (h1, t1)) as H.
    destruct (run_ops ops (h1, t1)) as [h2 t2]. by apply H. }
  by apply (execute_logged fuel h t cs h1 t1).
Qed.

Lemma log_written_once_witness :
  let OS := os_reliable 10 in let RK := rocks_busy_once in let AL := alloc0 in
  match Commit_execute 20 (snd (staged OS RK (shared0, no_txn))) with
  | (inr cs, st1) =>
      cs_status cs = StBusy /\
      let '(h2, t2) := run_ops [OpComplete 0 cs; OpAddLogEntry 1 entry0; OpCommitSync 20] st1 in
      t_state t2 = Committed /\ h_world h2 = h_world st1.1
  | _ => False
  end.
Proof.
  intros OS RK AL. destruct (snd (staged OS RK (shared0, no_txn))) as [h t] eqn:Hst.
  destruct (Commit_execute 20 (h, t)) as [r [h1 t1]] eqn:Hrun.
  assert (Hr : exists cs, r = inr cs /\ cs_status cs = StBusy /\ cs_hasLog cs = true /\ 0 < logSequenceNumber (t_committedPosition t1)).
  { vm_compute in Hst. injection Hst as <- <-. vm_compute in Hrun. injection Hrun as <- _ <-. eexists. split_and!; reflexivity. }
  destruct Hr as (cs & -> & Hbusy & Hlog & Hpos). split; [exact Hbusy|].
  pose proof (log_written_once 20 h t cs h1 t1 [OpComplete 0 cs; OpAddLogEntry 1 entry0; OpCommitSync 20] Hrun Hlog Hpos) as H.
  destruct (run_ops _ _) as [h2 t2] eqn:Hops. split; [|apply H]. clear H.
  vm_compute in Hst. injection Hst as <- <-. vm_compute in Hrun. injection Hrun as <- <- <-.
  vm_compute in Hops. injection Hops as _ <-. reflexivity.
Defined.

Lemma new_balanced {OS : Os} {RK : Rocks} {AL : Alloc} sid d ds cr now h t0 st0 s :
  h_stores h !! sid = Some s -> s_isClosing s = false -> TransactionHandle_new d ds cr now (h, t0) = (inr tt, st0) ->
  bal sid (s_pendingTransactionCount s) txn_wf (counted sid) st0.
Proof.
  intros Hs Hc [= <-]. split; [constructor; simpl; try done; eauto|]. exists s. split_and!; [done|done|].
  unfold counted. simpl. lia.
Qed.

(** C6: a transaction leaves the count of pending transactions of every store as
    it found it.  From its construction on, after any sequence of operations that
    return, once it is closed each open store counts what it counted before, so
    that the store can be closed when it is idle.  This is for a handle whose
    every write of the log returns and gives a position ([write_returns]), and on
    which [useLog] is not called once the log was written ([allowed]); a write
    that fails leaves the count one too high ([failed_write_leaks_pending]). *)
Theorem pending_count_restored {OS : Os} {RK : Rocks} {AL : Alloc} sid d ds cr now ops h t0 st0 st' s :
  h_stores h !! sid = Some s -> s_isClosing s = false ->
  TransactionHandle_new d ds cr now (h, t0) = (inr tt, st0) -> runs ops st0 st' -> t_closed st'.2 = true ->
  exists s', h_stores st'.1 !! sid = Some s' /\ s_isClosing s' = false /\
    s_pendingTransactionCount s' = s_pendingTransactionCount s.
Proof.
  intros Hs Hc Hnew Hruns Hclosed.
  destruct (runs_balanced sid (s_pendingTransactionCount s) ops st0 st') as [_ (s' & Hs' & Hc' & Hp)];
    [by eapply new_balanced|done|].
  exists s'. split_and!; [done|done|]. unfold counted in Hp. rewrite Hclosed, andb_false_r in Hp. lia.
Qed.

Lemma pending_count_restored_witness :
  let OS := os_reliable 10 in let RK := rocks_ok in let AL := alloc0 in
  exists st0 st' s', TransactionHandle_new db0 false false 1000000000 (shared0, no_txn) = (inr tt, st0) /\
    runs [OpUseLog "foo" (inr 1); OpAddLogEntry 1 entry0; OpCommit; OpExecute 20; OpComplete 0 (mkCommitState StOk true [])] st0 st' /\
    t_state st'.2 = Committed /\ h_stores st'.1 !! 1 = Some s' /\ s_pendingTransactionCount s' = 0.
Proof.
  intros OS RK AL. destruct (TransactionHandle_new db0 false false 1000000000 (shared0, no_txn)) as [r st0] eqn:Hnew.
  pose proof Hnew as Hnew'. vm_compute in Hnew. injection Hnew as <- <-.
  match type of Hnew' with _ = (_, ?st) => set (st0 := st) in * end.
  set (ops := [OpUseLog _ _; _; _; _; _]).
  assert (Hruns : exists st', runs ops st0 st' /\ t_closed st'.2 = true /\ t_state st'.2 = Committed).
  { subst ops st0. eexists. split; [|split].
    - cbn [runs allowed]. do 3 (eexists; split; [first [reflexivity|exact I]|split; [vm_compute; reflexivity|]]).
      eexists; split; [|split; [vm_compute; reflexivity|]].
      { cbn [fst snd t_logEntryBatch t_boundLogStore h_stores t_committedPosition h_world]. intros b q s Hb Hq Hs.
        injection Hb as <-. injection Hq as <-. vm_compute in Hs. injection Hs as <-.
        eexists _, _, _. split; [vm_compute; reflexivity|]. reflexivity. }
      eexists; split; [exact I|split; [vm_compute; reflexivity|]]. reflexivity.
    - reflexivity.
    - reflexivity. }
  destruct Hruns as (st' & Hruns & Hcl & Hst). exists st0, st'.
  destruct (pending_count_restored 1 db0 false false 1000000000 ops shared0 no_txn st0 st' log0) as (s' & Hs' & _ & Hp);
    [reflexivity|reflexivity|exact Hnew'|exact Hruns|exact Hcl|].
  exists s'. split_and!; [exact Hnew'|exact Hruns|exact Hst|exact Hs'|exact Hp].
Defined.

(** A failed write of the log makes a retried commit lose its entries.  The
    write of the only entry fails, the commit is rejected with the entries still
    staged, the program commits again, the commit resolves as logged, and the log
    has no entry: the cursor of the batch had already passed them. *)
Theorem retry_loses_entries :
  let OS := os_fails_at 9 in let RK := rocks_ok in let AL := alloc0 in
  match (staged OS RK;; cs ← Commit_execute 20; r ← Commit_complete 0 cs;
         Commit;; cs' ← Commit_execute 20; r' ← Commit_complete 0 cs';
         mret (ok (cs_status cs), r, cs_hasLog cs', r')) (shared0, no_txn) with
  | (inr (false, Reject _ true, true, Resolve), (h, t)) =>
      t_state t = Committed /\ Z.of_nat (length (contents "/logs/foo/1.txnlog" (h_world h))) = TRANSACTION_LOG_FILE_HEADER_SIZE
  | _ => False
  end.
Proof. vm_compute. split; reflexivity. Qed.

(** A failed write of the log leaks the count of pending transactions.  After
    the rejected commit the program aborts, the transaction is closed, and the
    store still counts it: [tryClose] will not close the store. *)
Theorem failed_write_leaks_pending :
  let OS := os_fails_at 9 in let RK := rocks_ok in let AL := alloc0 in
  match (staged OS RK;; cs ← Commit_execute 20; Commit_complete 0 cs;; Abort;;
         with_store 1 tryClose) (shared0, no_txn) with
  | (inr closed, (h, t)) =>
      closed = false /\ t_closed t = true /\ s_pendingTransactionCount <$> h_stores h !! 1 = Some 1
  | _ => False
  end.
Proof. vm_compute. split_and!; reflexivity. Qed.

(** A synchronous commit that does not find its log store is reported as done
    the next time.  The first call throws and leaves the state [Committing]; the
    second returns as if the transaction had been committed, and so would an
    asynchronous commit; RocksDB was never asked to. *)
Theorem commit_sync_stuck :
  let OS := os_reliable 10 in let RK := rocks_ok in let AL := alloc0 in
  match (TransactionHandle_new db0 false false 1000000000;;
         UseLog "foo" (inr 1);; addLogEntry 1 entry0;;
         shupdate (set_h_stores ∅);;
         r1 ← CommitSync 20; r2 ← CommitSync 20; r3 ← Commit; mret (r1, r2, r3)) (shared0, no_txn) with
  | (inr (Throw code, Undefined, Resolve), (h, t)) =>
      code = "ERR_LOG_STORE_NOT_FOUND" /\ h_calls h = [BeginTransaction 0 Optimistic false] /\
      t_activeAsyncWorkCount t = -1
  | _ => False
  end.
Proof. vm_compute. split_and!; reflexivity. Qed.
