(* ===== verification/TransactionLife.v ===== *)
(** * The life of a transaction

    The states of a transaction handle under every order of the program's calls,
    interleaved with the pieces of an asynchronous commit on a worker thread, the
    pieces of a close on another thread, and whatever other threads do to the
    shared state.  The other calls run on the JavaScript thread and are single
    steps. *)

From S2P Require Import Prelude Encoding LogFormat Os LogFile LogStore VerificationTable Transaction TransactionProofs.
From stdpp Require Import base tactics list gmap strings relations.
From coqutil Require Import Byte LittleEndianList.
From Stdlib Require Import ZArith Lia.

Local Open Scope Z_scope.

Section Life.
Context {OS : Os} {RK : Rocks} {AL : Alloc}.

(** ** The pieces that interleave

    [state] is a plain field: the commit worker and a close on another thread
    read and write it without a lock.  Both are cut where they do. *)

(** The worker tests that it may run; [Some] carries [coordinatedRetry]. *)
Definition exec_test : HM (option bool) :=
  t ← handle id;
  opened ← shared h_opened;
  if t_cancelled t || negb (is_some (t_dbHandle t)) || negb opened then mret None
  else mret (Some (t_coordinatedRetry t)).

Definition exec_refuse : HM CommitState :=
  unregisterAsyncWork;;
  mret (mkCommitState (StAborted "Database closed during transaction commit operation") false []).

Definition exec_commit (retry : bool) (status : Status) : HM (Status * list nat) :=
  if ok status then
    status ← commit_txn;
    slots ← handle t_lockedVTSlots;
    release_if_held;;
    mret (status, if IsBusy status && retry then slots else [])
  else mret (status, []).

Definition exec_state (status : Status) (hasLog : bool) (saved : list nat) : HM CommitState :=
  (if ok status then hupdate (set_state Committed);; notify "committed"
   else when (IsBusy status) resetTransaction);;
  unregisterAsyncWork;;
  mret (mkCommitState status hasLog saved).

(** [closed.exchange(true)] and the removal from the registry; [Some] goes on. *)
Definition close_enter : HM (option nat) :=
  t ← handle id;
  if t_closed t then mret None
  else
    hupdate (set_closed true);;
    match t_dbHandle t with Some _ => transactionRemove (t_id t) | None => mret tt end;;
    mret (t_txn t).

Definition close_test : HM bool :=
  s ← handle t_state;
  mret (bool_decide (s = Pending) || bool_decide (s = Committing)).

Definition close_mark (b : bool) : HM unit := when b (hupdate (set_state Aborted)).

Definition close_cancel : HM unit := hupdate (set_cancelled true).

(** After [waitForAsyncWorkCompletion], which gives up after five seconds. *)
Definition close_rest (n : nat) : HM unit :=
  close_position;;
  close_pending;;
  release_if_held;;
  call (ClearSnapshot n);;
  call (DeleteTxn n);;
  hupdate (set_txn None);;
  hupdate (set_dbHandle None).

(** The pieces, run one after the other, are the two routines. *)
Lemma close_pieces st :
  close st = (o ← close_enter; match o with
                               | None => mret tt
                               | Some n => b ← close_test; close_mark b;; close_cancel;; close_rest n
                               end) st.
Proof using.
  destruct st as [h t]. unfold close, close_enter, close_test, close_mark, close_cancel, transactionRemove, handle, hupdate, shupdate, id. mrun.
  destruct (t_closed t); [done|]. destruct (t_dbHandle t); mrun; (destruct (t_txn t); reflexivity).
Qed.

Lemma Commit_execute_pieces fuel st :
  Commit_execute fuel st =
  (o ← exec_test;
   match o with
   | None => exec_refuse
   | Some retry =>
       '(status, hasLog, sid) ← commit_log fuel;
       '(status, saved) ← exec_commit retry status;
       status ← finish_log status sid;
       exec_state status hasLog saved
   end) st.
Proof using.
  destruct st as [h t]. unfold Commit_execute, exec_test, handle, shared, id. mrun.
  by destruct (t_cancelled t || negb (is_some (t_dbHandle t)) || negb (h_opened h)).
Qed.

(** ** The system *)

(** The asynchronous commit: none, queued, in the worker, or executed. *)
Inductive phase :=
| Idle
| InFlight
| Running (retry : bool)
| Logged (retry : bool) (status : Status) (hasLog : bool) (sid : option Z)
| Tried (status : Status) (hasLog : bool) (sid : option Z) (saved : list nat)
| Finished (status : Status) (hasLog : bool) (saved : list nat)
| Done (cs : CommitState).

(** The one close that goes past the exchange. *)
Inductive closing := NoClose | Entered (n : nat) | Tested (n : nat) (b : bool) | Marked (n : nat) | Waiting (n : nat).

(** [l_overlap]: a close and a commit have run beside each other. *)
Record life := mkLife { l_shared : Shared; l_txn : TransactionHandle; l_phase : phase; l_close : closing; l_overlap : bool }.

Definition active (ph : phase) : bool := match ph with Running _ | Logged _ _ _ _ | Tried _ _ _ _ | Finished _ _ _ => true | _ => false end.

(** A close that has not told the worker yet. *)
Definition unannounced (cl : closing) : bool := match cl with Entered _ | Tested _ _ | Marked _ => true | _ => false end.

(** Calls that do not concern the asynchronous commit or a close, and the ones
    of these that settle the transaction. *)
Definition direct (op : txn_op) : bool :=
  match op with OpCommit | OpExecute _ | OpComplete _ _ | OpClose => false | _ => true end.
Definition settles (op : txn_op) : bool := match op with OpCommitSync _ | OpAbort => true | _ => false end.

Inductive life_step : life -> life -> Prop :=
| ls_others h h' t ph cl ov l :
    h_calls h' = h_calls h ++ l -> life_step (mkLife h t ph cl ov) (mkLife h' t ph cl ov)
| ls_call op h t ph cl ov h' t' :
    direct op = true -> snd (run_op op (h, t)) = (h', t') ->
    life_step (mkLife h t ph cl ov) (mkLife h' t' ph cl (ov || settles op && unannounced cl))
| ls_commit h t ph cl ov r h' t' :
    Commit (h, t) = (inr r, (h', t')) ->
    life_step (mkLife h t ph cl ov) (mkLife h' t' (match r with Queued => InFlight | _ => ph end) cl ov)
| ls_test h t cl ov retry h' t' :
    exec_test (h, t) = (inr (Some retry), (h', t')) ->
    life_step (mkLife h t InFlight cl ov) (mkLife h' t' (Running retry) cl (ov || unannounced cl))
| ls_refuse h t cl ov h1 t1 cs h' t' :
    exec_test (h, t) = (inr None, (h1, t1)) -> exec_refuse (h1, t1) = (inr cs, (h', t')) ->
    life_step (mkLife h t InFlight cl ov) (mkLife h' t' (Done cs) cl ov)
| ls_log fuel h t cl ov retry status hasLog sid h' t' :
    commit_log fuel (h, t) = (inr (status, hasLog, sid), (h', t')) ->
    life_step (mkLife h t (Running retry) cl ov) (mkLife h' t' (Logged retry status hasLog sid) cl ov)
| ls_try h t cl ov retry status hasLog sid status' saved h' t' :
    exec_commit retry status (h, t) = (inr (status', saved), (h', t')) ->
    life_step (mkLife h t (Logged retry status hasLog sid) cl ov) (mkLife h' t' (Tried status' hasLog sid saved) cl ov)
| ls_finish h t cl ov status hasLog sid saved status' h' t' :
    finish_log status sid (h, t) = (inr status', (h', t')) ->
    life_step (mkLife h t (Tried status hasLog sid saved) cl ov) (mkLife h' t' (Finished status' hasLog saved) cl ov)
| ls_state h t cl ov status hasLog saved cs h' t' :
    exec_state status hasLog saved (h, t) = (inr cs, (h', t')) ->
    life_step (mkLife h t (Finished status hasLog saved) cl ov) (mkLife h' t' (Done cs) cl ov)
| ls_complete cb cs h t cl ov h' t' :
    snd (Commit_complete cb cs (h, t)) = (h', t') -> life_step (mkLife h t (Done cs) cl ov) (mkLife h' t' Idle cl ov)
| ls_enter h t ph ov o h' t' :
    close_enter (h, t) = (inr o, (h', t')) ->
    life_step (mkLife h t ph NoClose ov)
      (mkLife h' t' ph (match o with Some n => Entered n | None => NoClose end) (ov || is_some o && active ph))
| ls_close_test h t ph ov n b h' t' :
    close_test (h, t) = (inr b, (h', t')) -> life_step (mkLife h t ph (Entered n) ov) (mkLife h' t' ph (Tested n b) ov)
| ls_close_mark h t ph ov n b h' t' :
    close_mark b (h, t) = (inr tt, (h', t')) -> life_step (mkLife h t ph (Tested n b) ov) (mkLife h' t' ph (Marked n) ov)
| ls_close_cancel h t ph ov n h' t' :
    close_cancel (h, t) = (inr tt, (h', t')) -> life_step (mkLife h t ph (Marked n) ov) (mkLife h' t' ph (Waiting n) ov)
| ls_close_rest h t ph ov n h' t' :
    close_rest n (h, t) = (inr tt, (h', t')) -> life_step (mkLife h t ph (Waiting n) ov) (mkLife h' t' ph NoClose ov).

(** RocksDB was asked to commit and did. *)
Definition commit_ok (calls : list rocks_call) : Prop :=
  exists pre n post, calls = pre ++ CommitTxn n :: post /\ rk_status (pre ++ [CommitTxn n]) = StOk.

Lemma commit_ok_app calls l : commit_ok calls -> commit_ok (calls ++ l).
Proof using. intros (pre & n & post & -> & Hs). exists pre, n, (post ++ l). by rewrite <- app_assoc. Qed.

(** A fact about the state, [closed] and [cancelled]. *)
Definition status_fact : Type := TransactionState -> bool -> bool -> Prop.
Definition fact_of (P : status_fact) (t : TransactionHandle) : Prop := P (t_state t) (t_closed t) (t_cancelled t).

(** [P] holds, the calls to RocksDB extend [c0], and a commit is on record. *)
Record alive (P : status_fact) (c0 : list rocks_call) (st : Shared * TransactionHandle) : Prop := mkAlive {
  al_fact : fact_of P st.2;
  al_committed : t_state st.2 = Committed -> commit_ok (h_calls st.1);
  al_calls : exists l, h_calls st.1 = c0 ++ l;
}.

(** What a whole close may do to the fields. *)
Definition closable (P : status_fact) : Prop :=
  forall s k, P s false k -> P s true k /\
    P (if bool_decide (s = Pending) || bool_decide (s = Committing) then Aborted else s) true true.

(** The state is not mentioned. *)
Definition stateless (P : status_fact) : Prop := forall s s' c k, P s c k -> P s' c k.

Lemma alive_hupdate P c0 f :
  (forall t, t_state (f t) = t_state t /\ t_closed (f t) = t_closed t /\ t_cancelled (f t) = t_cancelled t) ->
  keeps (alive P c0) (hupdate f) T.
Proof using.
  intros Hf. apply keeps_modify. intros [h t] [H1 H2 H3]. destruct (Hf t) as (E1 & E2 & E3).
  constructor; unfold fact_of in *; simpl in *; rewrite ?E1, ?E2, ?E3; auto.
Qed.

Lemma alive_shupdate P c0 f : (forall h, exists l, h_calls (f h) = h_calls h ++ l) -> keeps (alive P c0) (shupdate f) T.
Proof using.
  intros Hf. apply keeps_modify. intros [h t] [H1 H2 H3]. destruct (Hf h) as [l Hl].
  constructor; simpl in *; auto; rewrite Hl; [auto using commit_ok_app|].
  destruct H3 as [l' ->]. exists (l' ++ l). by rewrite app_assoc.
Qed.

Lemma alive_with_store P c0 {A} sid (m : SM A) : keeps (alive P c0) (with_store sid m) T.
Proof using.
  intros [h t] [H1 H2 H3]. unfold with_store. destruct (h_stores h !! sid) as [s|]; [|done].
  destruct (m _) as [r [w' s']]. split; [|done]. by constructor.
Qed.

Lemma alive_on_vt P c0 {A} (m : VM A) : keeps (alive P c0) (on_vt m) T.
Proof using.
  intros [h t] [H1 H2 H3]. unfold on_vt. destruct (h_vt h) as [s|]; [|done]. destruct (m s).
  split; [|done]. by constructor.
Qed.

Lemma alive_write P c0 fuel q b : keeps (alive P c0) (write_batch fuel q b) T.
Proof using.
  intros [h t] [H1 H2 H3]. unfold write_batch. destruct (h_stores h !! q) as [s|]; [|done].
  destruct (writeBatch _ _) as [r [[w' s'] [b' p']]]. split; [|done]. by constructor.
Qed.

Ltac astep :=
  first [ kstep
        | apply alive_hupdate; by split
        | apply alive_shupdate; intros ?; first [by eexists | exists []; by rewrite app_nil_r]
        | apply alive_with_store
        | apply alive_on_vt
        | apply alive_write ].

Lemma alive_call P c0 c : keeps (alive P c0) (call c) T.
Proof using. unfold call. astep. Qed.

Lemma alive_release P c0 slots trackers : keeps (alive P c0) (release_all slots trackers) T.
Proof using. revert trackers. induction slots as [|i slots IH]; intros [|p tr]; cbn [release_all]; repeat first [apply IH|astep]. Qed.

Lemma alive_release_if_held P c0 : keeps (alive P c0) release_if_held T.
Proof using. unfold release_if_held, releaseIntent. repeat first [apply alive_release|astep]. Qed.

Lemma alive_lock P c0 d key : keeps (alive P c0) (lockVTSlot d key) T.
Proof using. unfold lockVTSlot. repeat astep. Qed.

Lemma alive_reset P c0 : keeps (alive P c0) resetTransaction T.
Proof using. unfold resetTransaction, beginTransaction. repeat first [apply alive_call|astep]. Qed.

Lemma alive_bind P c0 q : keeps (alive P c0) (bind_store q) T.
Proof using. unfold bind_store. repeat astep. Qed.

Lemma alive_add P c0 q e : keeps (alive P c0) (addLogEntry q e) T.
Proof using. unfold addLogEntry. repeat first [apply alive_bind|astep]. Qed.

Lemma alive_finish P c0 status q : keeps (alive P c0) (finish_log status q) (fun s => ok s = true -> ok status = true).
Proof using.
  unfold finish_log. eapply (keeps_bind _ _ _ T); [kstep|]. intros p _. destruct (_ && _); [|by apply keeps_ret].
  eapply (keeps_bind _ _ _ T); [kstep|]. intros b _. destruct (match q with Some _ => _ | None => _ end); [|by apply keeps_ret].
  eapply (keeps_bind _ _ _ T); [apply alive_call|]. intros ? _. eapply (keeps_bind _ _ _ T); [kstep|]. intros calls _.
  eapply (keeps_bind _ _ _ T); [apply alive_with_store|]. intros ? _. by apply keeps_ret.
Qed.

Lemma alive_park P c0 cb slots : keeps (alive P c0) (park cb slots) T.
Proof using. induction slots as [|i slots IH]; cbn [park]; repeat first [apply IH|astep]. Qed.

Lemma alive_put_items P c0 n d keys values ko vo c : keeps (alive P c0) (put_items n d keys values ko vo c) T.
Proof using.
  revert ko vo. induction c as [|c IH]; intros ko vo; cbn [put_items]; unfold take_item, readLE32;
    repeat first [apply IH|apply alive_call|apply alive_lock|astep].
Qed.

Lemma alive_close_rest P c0 n : keeps (alive P c0) (close_rest n) T.
Proof using. unfold close_rest, close_position, close_pending. repeat first [apply alive_call|apply alive_release_if_held|astep]. Qed.

Lemma alive_close P c0 : closable P -> keeps (alive P c0) close T.
Proof using.
  intros HP [h t] Ha. rewrite close_pieces. unfold close_enter. rewrite (bind_run _ _ (h, t) (if t_closed t then None else t_txn t)
    (if t_closed t then (h, t) else (match t_dbHandle t with Some _ => set_h_transactions (h_transactions h ∖ {[ t_id t ]}) h | None => h end, set_closed true t))).
  2:{ unfold handle, hupdate, transactionRemove, shupdate, id. mrun. destruct (t_closed t); [done|]. by destruct (t_dbHandle t). }
  destruct (t_closed t) eqn:Hnc; [done|]. set (h1 := match t_dbHandle t with Some _ => _ | None => h end).
  assert (E : h_calls h1 = h_calls h) by (subst h1; by destruct (t_dbHandle t)). destruct Ha as [H1 H2 H3]. unfold fact_of in H1. simpl in *. rewrite Hnc in H1.
  destruct (HP _ _ H1) as [Hc Ha]. destruct (t_txn t) as [n|]; [|split; [|done]; constructor; simpl; by rewrite ?E].
  set (t2 := set_cancelled true (if bool_decide (t_state t = Pending) || bool_decide (t_state t = Committing) then set_state Aborted (set_closed true t) else set_closed true t)).
  replace ((b ← close_test; close_mark b;; close_cancel;; close_rest n) (h1, set_closed true t)) with (close_rest n (h1, t2)).
  2:{ unfold close_test, close_mark, close_cancel, handle, hupdate. mrun. subst t2. simpl. by destruct (bool_decide (t_state t = Pending) || _). }
  apply alive_close_rest. subst t2. destruct (t_state t) eqn:Hst; constructor; unfold fact_of in *; simpl in *; rewrite ?E, ?Hst in *;
    first [done | intros; by apply H2].
Qed.

(** A commit that succeeds is on record. *)
Lemma alive_commit_txn P c0 :
  triple (alive P c0) commit_txn
    (fun status st => alive P c0 st /\ (ok status = true -> commit_ok (h_calls st.1))) (alive P c0).
Proof using.
  intros [h t] Ha. unfold commit_txn, handle, deref_some, call_status, call, shupdate, shared. mrun.
  destruct (t_txn t) as [n|]; [|done]. destruct Ha as [H1 H2 H3]. simpl in *. split.
  - constructor; simpl; auto; [intros Hc; by apply commit_ok_app, H2|].
    destruct H3 as [l ->]. eexists. by rewrite <- app_assoc.
  - intros Hok. exists (h_calls h), n, []. split; [done|]. by destruct (rk_status _).
Qed.

Lemma alive_commit_then P c0 {A} (K : Status -> HM A) Q :
  (forall status c1, (ok status = true -> commit_ok c1) -> keeps (alive P c1) (K status) Q) ->
  keeps (alive P c0) (status ← commit_txn; K status) Q.
Proof using.
  intros HK st Ha. pose proof (alive_commit_txn _ _ st Ha) as Hc. unfold mbind, M_bind.
  destruct (commit_txn st) as [[e|status] st1]; [done|]. destruct Hc as [[H1 H2 [l Hl]] Hc].
  destruct (HK status (h_calls st1.1) Hc st1) as [[K1 K2 [l' Hl']] HQ]; [constructor; auto; exists []; by rewrite app_nil_r|].
  split; [|done]. constructor; auto. exists (l ++ l'). by rewrite Hl', Hl, app_assoc.
Qed.

(** Writes of the state. *)
Lemma alive_set_state P c0 s :
  stateless P -> (s = Committed -> commit_ok c0) -> keeps (alive P c0) (hupdate (set_state s)) T.
Proof using.
  intros HP Hs. apply keeps_modify. intros [h t] [H1 H2 [l Hl]]. constructor; simpl in *.
  - eapply HP, H1.
  - intros E. rewrite Hl. by apply commit_ok_app, Hs.
  - eauto.
Qed.

Lemma alive_reset_pending P c0 : (forall c k, P Committing c k -> P Pending c k) -> keeps (alive P c0) reset_pending T.
Proof using.
  intros HP [h t] [H1 H2 H3]. unfold reset_pending, handle, hupdate. mrun. case_bool_decide as Hst; [|done]. split; [|done].
  constructor; simpl in *; [|done..]. unfold fact_of in *. simpl in *. rewrite Hst in H1. by apply HP.
Qed.

Lemma alive_sync P c0 fuel : stateless P -> closable P -> keeps (alive P c0) (CommitSync fuel) T.
Proof using.
  intros HP Hcl. unfold CommitSync. eapply (keeps_bind _ _ _ T); [kstep|]. intros [] _; [|by apply keeps_ret..].
  eapply (keeps_bind _ _ _ T); [by apply alive_set_state|]. intros ? _.
  eapply (keeps_bind _ _ _ T); [kstep|]. intros batch _.
  eapply (keeps_bind _ _ _ T). { repeat astep. }
  intros [[hasLog q]|] _; [|by apply keeps_ret]. apply alive_commit_then. intros status c1 Hc1.
  eapply (keeps_bind _ _ _ T); [apply alive_release_if_held|]. intros ? _.
  eapply keeps_bind; [apply alive_finish|]. intros status' Hok. destruct (ok status') eqn:Hs'.
  - eapply (keeps_bind _ _ _ T); [apply alive_set_state; auto|].
    intros ? _. eapply (keeps_bind _ _ _ T). { apply alive_shupdate. intros h1. exists []. by rewrite app_nil_r. }
    intros ? _. eapply (keeps_bind _ _ _ T); [by apply alive_close|]. intros ? _. by apply keeps_ret.
  - eapply (keeps_bind _ _ _ T); [apply keeps_when, alive_reset|]. intros ? _.
    eapply (keeps_bind _ _ _ T); [apply alive_reset_pending; eauto|].
    intros ? _. eapply (keeps_bind _ _ _ T); [kstep|]. intros ? _. by apply keeps_ret.
Qed.

Lemma alive_abort P c0 : stateless P -> closable P -> keeps (alive P c0) Abort T.
Proof using.
  intros HP Hcl. unfold Abort. eapply (keeps_bind _ _ _ T); [kstep|]. intros t _. destruct (t_state t); [|by apply keeps_ret..].
  eapply (keeps_bind _ _ _ T); [by apply alive_set_state|]. intros ? _.
  repeat first [apply alive_call|apply alive_close; done|astep].
Qed.

(** A settled transaction stays as it is. *)
Lemma settles_pending op h t :
  settles op = true -> t_state t <> Pending -> snd (run_op op (h, t)) = (h, t).
Proof using.
  intros Hop Ht. destruct op; try done; cbn [run_op]; unfold ignore, CommitSync, Abort, handle, id; mrun; by destruct (t_state t).
Qed.

Lemma alive_commit_log P c0 fuel : keeps (alive P c0) (commit_log fuel) T.
Proof using. unfold commit_log. repeat astep. Qed.

(** The commit of the worker. *)
Lemma alive_exec_commit P retry status h t status' saved h' t' :
  alive P (h_calls h) (h, t) -> exec_commit retry status (h, t) = (inr (status', saved), (h', t')) ->
  alive P (h_calls h) (h', t') /\ (ok status' = true -> commit_ok (h_calls h')).
Proof using.
  intros Ha. unfold exec_commit. destruct (ok status) eqn:Hs; [|intros [= <- <- <- <-]; split; [done|congruence]].
  intros Hrun. apply bind_inv in Hrun as (st & [h1 t1] & Hc & Hrun).
  pose proof (alive_commit_txn _ _ _ Ha) as Hok. rewrite Hc in Hok. destruct Hok as [Ha1 Hok].
  assert (Hrest : forall c, alive P c (h1, t1) -> alive P c (h', t') /\ status' = st).
  { intros c Hc1. apply bind_inv in Hrun as (slots & ? & [= <- <-] & Hrun). apply bind_inv in Hrun as ([] & [h2 t2] & Hr & [= <- <- <- <-]).
    destruct (alive_release_if_held P c (h1, t1) Hc1) as [H _]. by rewrite Hr in H. }
  destruct (Hrest _ Ha1) as [Ha' ->]. split; [done|]. intros Hst.
  destruct (Hrest (h_calls h1)) as [[_ _ [l Hl]] _]; [destruct Ha1; constructor; auto; exists []; by rewrite app_nil_r|].
  simpl in Hl. rewrite Hl. by apply commit_ok_app, Hok.
Qed.

(** Calls that do not settle the transaction keep every fact. *)
Lemma alive_direct P c0 op : direct op = true -> settles op = false -> keeps (alive P c0) (run_op op) T.
Proof using.
  destruct op; try done; intros _ _; cbn [run_op]; [apply alive_add| | | | | |]; unfold ignore;
    (eapply (keeps_bind _ _ _ T); [|intros; by apply keeps_ret]).
  - unfold getSync, ensureSnapshot, set_snapshot, target_handle. repeat first [apply alive_call|astep].
  - unfold putSync, write_snapshot, set_snapshot, target_handle. repeat first [apply alive_call|apply alive_lock|astep].
  - unfold putManySync, write_snapshot, set_snapshot, target_handle. repeat first [apply alive_put_items|apply alive_call|astep].
  - unfold removeSync, write_snapshot, set_snapshot, target_handle. repeat first [apply alive_call|apply alive_lock|astep].
  - unfold SetTimestamp. repeat astep.
  - unfold UseLog. repeat first [apply alive_bind|astep].
Qed.

Lemma alive_settling P c0 op : settles op = true -> stateless P -> closable P -> keeps (alive P c0) (run_op op) T.
Proof using.
  intros Hop HP Hcl. destruct op; try done; cbn [run_op]; unfold ignore;
    (eapply (keeps_bind _ _ _ T); [|intros; by apply keeps_ret]); auto using alive_sync, alive_abort.
Qed.

Lemma alive_complete P c0 cb cs :
  closable P -> (forall c k, P Committing c k -> P Pending c k) -> keeps (alive P c0) (Commit_complete cb cs) T.
Proof using.
  intros Hcl HP. unfold Commit_complete. eapply (keeps_bind _ _ _ T); [kstep|]. intros t _.
  destruct (ok _); [eapply (keeps_bind _ _ _ T); [by apply alive_close|]; intros ? _; by apply keeps_ret|].
  destruct (_ && _); (eapply (keeps_bind _ _ _ T); [by apply alive_reset_pending|]; intros ? _); [|by apply keeps_ret].
  eapply (keeps_bind _ _ _ T); [apply alive_park|]. intros ? _. by apply keeps_ret.
Qed.

(** ** The invariant *)

Definition closing_now (cl : closing) : bool := match cl with NoClose => false | _ => true end.

(** What the phase, the close and the absence of an overlap say of the fields;
    [s0] is an earlier state. *)
Record sound (s0 : TransactionState) (ph : phase) (cl : closing) (ov : bool) (s : TransactionState) (c k : bool) : Prop := mkSound {
  so_final : ov = false -> final s0 -> s = s0;
  so_busy : ph <> Idle -> s <> Pending;
  so_active : ov = false -> active ph = true -> s = Committing /\ cl = NoClose;
  so_flight : ov = false -> ph = InFlight -> s = Committing \/ s = Aborted /\ (k = true \/ exists n, cl = Marked n);
  so_closed : closing_now cl = true -> c = true;
  so_waiting : (exists n, cl = Waiting n) -> k = true;
  so_tested : ov = false -> (exists n, cl = Tested n true) -> s = Pending \/ s = Committing;
}.

(** A commit that the worker was told of is on record. *)
Definition on_record (ph : phase) (calls : list rocks_call) : Prop :=
  match ph with Tried status _ _ _ | Finished status _ _ => ok status = true -> commit_ok calls | _ => True end.

Definition lively (s0 : TransactionState) (x : life) : Prop :=
  alive (sound s0 (l_phase x) (l_close x) (l_overlap x)) (h_calls (l_shared x)) (l_shared x, l_txn x) /\
  on_record (l_phase x) (h_calls (l_shared x)).

Lemma alive_mono (P Q : status_fact) c0 h t :
  (forall s c k, P s c k -> Q s c k) -> alive P c0 (h, t) -> alive Q (h_calls h) (h, t).
Proof using. intros H [H1 H2 H3]. constructor; [by apply H|done|]. exists []. by rewrite app_nil_r. Qed.

Lemma sound_or s0 ph cl ov b s c k : sound s0 ph cl ov s c k -> sound s0 ph cl (ov || b) s c k.
Proof using. intros []. destruct ov, b; by constructor. Qed.

Lemma sound_idle s0 ph cl ov s c k : sound s0 ph cl ov s c k -> sound s0 Idle cl ov s c k.
Proof using. intros []. by constructor. Qed.

Lemma sound_closable s0 cl ov : closable (sound s0 Idle cl ov).
Proof using.
  intros s k [H1 H2 H3 H4 H5 H6 H7]. destruct cl; try discriminate (H5 eq_refl).
  split; constructor; try done; try (by intros _ [? [=]]); intros Ho Hf; rewrite (H1 Ho Hf); by destruct Hf as [->| ->].
Qed.

Lemma sound_resume s0 cl ov c k : sound s0 Idle cl ov Committing c k -> sound s0 Idle cl ov Pending c k.
Proof using.
  intros [H1 H2 H3 H4 H5 H6 H7]. constructor; auto; try done. intros Ho Hf. specialize (H1 Ho Hf). subst. by destruct Hf.
Qed.

(** Nothing but what a close has done so far. *)
Definition loose (cl : closing) : status_fact := fun s c k => (closing_now cl = true -> c = true) /\ ((exists n, cl = Waiting n) -> k = true).

Lemma loose_stateless cl : stateless (loose cl).
Proof using. by intros s s' c k. Qed.

Lemma loose_closable cl : closable (loose cl).
Proof using. intros s k [H1 H2]. repeat split; auto. Qed.

Lemma sound_loose s0 ph cl ov s c k : sound s0 ph cl ov s c k -> loose cl s c k.
Proof using. intros []. by split. Qed.

Lemma loose_sound s0 cl ov s c k : (ov = false -> ~ final s0 /\ unannounced cl = false) -> loose cl s c k -> sound s0 Idle cl ov s c k.
Proof using.
  intros Ho [H1 H2]. constructor; auto; try done; intros E; destruct (Ho E) as [Hf Hu]; [by intros ?|]. by intros [? ->].
Qed.

(** ** Every step keeps the invariant *)

Lemma lively_settle s0 op h t ph cl ov :
  settles op = true -> lively s0 (mkLife h t ph cl ov) ->
  lively s0 (mkLife (run_op op (h, t)).2.1 (run_op op (h, t)).2.2 ph cl (ov || unannounced cl)).
Proof using.
  intros Hop [Ha Hr]. destruct (decide (t_state t = Pending)) as [Hp|Hp].
  - assert (ph = Idle) as -> by (destruct Ha as [Hs _ _]; destruct ph; try done; by destruct (so_busy _ _ _ _ _ _ _ Hs)).
    split; [|done]. apply (alive_mono _ (loose cl)) in Ha as Hl; [|apply sound_loose].
    destruct (alive_settling (loose cl) (h_calls h) op Hop (loose_stateless cl) (loose_closable cl) (h, t) Hl) as [Hl' _].
    destruct (run_op op (h, t)) as [r [h' t']]. eapply alive_mono; [|exact Hl']. intros s c k. apply loose_sound.
    intros Ho. apply orb_false_iff in Ho as [-> Hu]. split; [|done]. intros Hf. destruct Ha as [Hs _ _].
    pose proof (so_final _ _ _ _ _ _ _ Hs eq_refl Hf). simpl in *. rewrite Hp in *. subst. by destruct Hf.
  - rewrite settles_pending by done. split; [|done]. eapply alive_mono; [|exact Ha]. intros. by apply sound_or.
Qed.

(** A piece that keeps every fact. *)
Lemma lively_neutral s0 {A} (m : HM A) h t ph cl ov ph' ov' a h' t' :
  (forall P c0, keeps (alive P c0) m T) -> m (h, t) = (inr a, (h', t')) ->
  lively s0 (mkLife h t ph cl ov) ->
  (forall s c k, sound s0 ph cl ov s c k -> sound s0 ph' cl ov' s c k) -> on_record ph' (h_calls h') ->
  lively s0 (mkLife h' t' ph' cl ov').
Proof using.
  intros Hm Hrun [Ha _] Hs Hr. split; [|done]. simpl in *. destruct (Hm _ _ _ Ha) as [Ha' _]. rewrite Hrun in Ha'.
  by eapply alive_mono.
Qed.

(** The rest of the record when the calls grow. *)
Lemma on_record_grows ph h h' l : h_calls h' = h_calls h ++ l -> on_record ph (h_calls h) -> on_record ph (h_calls h').
Proof using. intros ->. destruct ph; simpl; auto using commit_ok_app. Qed.

Lemma lively_exec_state s0 status hasLog saved h t cl ov cs h' t' :
  exec_state status hasLog saved (h, t) = (inr cs, (h', t')) ->
  lively s0 (mkLife h t (Finished status hasLog saved) cl ov) -> lively s0 (mkLife h' t' (Done cs) cl ov).
Proof using.
  intros Hrun [Ha Hr]. split; [|done]. simpl in *.
  set (P := fun s c k => s <> Pending /\ (ov = false -> ~ final s0 /\ cl = NoClose) /\ loose cl s c k).
  assert (HP : alive P (h_calls h) (h, t)).
  { eapply alive_mono; [|exact Ha]. intros s c k Hs. split_and!; [by eapply so_busy| |by eapply sound_loose].
    intros Ho. destruct (so_active _ _ _ _ _ _ _ Hs Ho eq_refl) as [E ?]. split; [|done]. intros Hf.
    pose proof (so_final _ _ _ _ _ _ _ Hs Ho Hf). subst. by destruct Hf. }
  assert (Hk : keeps (alive P (h_calls h)) (exec_state status hasLog saved) T).
  { unfold exec_state. eapply (keeps_bind _ _ _ T); [|intros ? _; unfold unregisterAsyncWork; repeat astep].
    destruct (ok status); [|apply keeps_when, alive_reset]. eapply (keeps_bind _ _ _ T); [|intros ? _; unfold notify; repeat astep].
    apply keeps_modify. intros [h1 t1] [(_ & H1 & H2) H3 [l Hl]]. constructor; simpl in *; [by split| |by eauto].
    intros _. rewrite Hl. by apply commit_ok_app, Hr. }
  destruct (Hk _ HP) as [Hk' _]. rewrite Hrun in Hk'. eapply alive_mono; [|exact Hk'].
  intros s c k (H1 & H2 & H3 & H4). constructor; auto; try done; intros Ho; destruct (H2 Ho) as [Hf ->]; [done|]. by intros [? [=]].
Qed.

Lemma lively_commit s0 h t ph cl ov r h' t' :
  Commit (h, t) = (inr r, (h', t')) -> lively s0 (mkLife h t ph cl ov) ->
  lively s0 (mkLife h' t' (match r with Queued => InFlight | _ => ph end) cl ov).
Proof using.
  unfold Commit, handle, hupdate, unregisterAsyncWork, registerAsyncWork. mrun.
  destruct (t_state t) eqn:Hst; intros [= <- <- <-] [[Hs Hc Hl] Hr]; unfold fact_of in Hs; simpl in *;
    (split; [|done]); constructor; unfold fact_of; simpl; rewrite ?Hst in *; auto; [|done].
  destruct Hs as [H1 H2 H3 H4 H5 H6 H7]. constructor; auto; try done; try tauto.
  intros Ho Hf. specialize (H1 Ho Hf). subst. by destruct Hf.
Qed.

Lemma exec_test_run h t o h' t' :
  exec_test (h, t) = (inr o, (h', t')) -> (h', t') = (h, t) /\ (is_some o = true -> t_cancelled t = false).
Proof using.
  unfold exec_test, handle, shared, id. mrun. destruct (t_cancelled t); simpl; [by intros [= <- <- <-]|].
  destruct (_ || _); by intros [= <- <- <-].
Qed.

Lemma lively_test s0 h t cl ov retry h' t' :
  exec_test (h, t) = (inr (Some retry), (h', t')) -> lively s0 (mkLife h t InFlight cl ov) ->
  lively s0 (mkLife h' t' (Running retry) cl (ov || unannounced cl)).
Proof using.
  intros Hrun [[Hs Hc Hl] _]. apply exec_test_run in Hrun as [[= -> ->] Hk]. specialize (Hk eq_refl). split; [|done].
  constructor; simpl in *; auto. unfold fact_of in *. simpl in *. rewrite Hk in *. destruct Hs as [H1 H2 H3 H4 H5 H6 H7].
  constructor; auto; try (intros Ho; apply orb_false_iff in Ho as [-> Hu]); auto; try done. intros _.
  destruct (H4 eq_refl eq_refl) as [?|[_ [?|[n ->]]]]; [|done..]. split; [done|]. destruct cl; try done. by specialize (H6 ltac:(eauto)).
Qed.

(** A close that enters. *)
Lemma lively_enter s0 h t ph ov o h' t' :
  close_enter (h, t) = (inr o, (h', t')) -> lively s0 (mkLife h t ph NoClose ov) ->
  lively s0 (mkLife h' t' ph (match o with Some n => Entered n | None => NoClose end) (ov || is_some o && active ph)).
Proof using.
  intros Hrun [[Hs Hc Hl] Hr]. unfold fact_of in Hs. simpl in *.
  assert (E : h_calls h' = h_calls h /\ t_state t' = t_state t /\ t_cancelled t' = t_cancelled t /\
    (t_closed t' = true)).
  { revert Hrun. unfold close_enter, handle, hupdate, transactionRemove, shupdate, id. mrun. destruct (t_closed t) eqn:Ht.
    - intros [= <- <- <-]. done.
    - by destruct (t_dbHandle t); intros [= <- <- <-]. }
  destruct E as (E1 & E2 & E3 & E4). unfold lively. simpl. rewrite E1. split; [|done]. constructor; simpl; rewrite ?E1, ?E2; auto.
  unfold fact_of. simpl. rewrite E2, E3, E4. destruct Hs as [H1 H2 H3 H4 H5 H6 H7].
  assert (Hov : ov || is_some o && active ph = false -> ov = false /\ (o = None \/ active ph = false)).
  { destruct ov, o, (active ph); simpl; auto. }
  constructor; auto.
  - intros Ho. apply Hov in Ho as [? _]. auto.
  - intros Ho Ha. apply Hov in Ho as [Ho [-> |?]]; [auto|congruence].
  - intros Ho Hp. apply Hov in Ho as [Ho _]. destruct (H4 Ho Hp) as [?|[? [?|[? [=]]]]]; auto.
  - destruct o; intros [? [=]].
  - destruct o; intros _ [? [=]].
Qed.

(** The test, the mark and the end of a close. *)
Lemma lively_close_test s0 h t ph ov n b h' t' :
  close_test (h, t) = (inr b, (h', t')) -> lively s0 (mkLife h t ph (Entered n) ov) -> lively s0 (mkLife h' t' ph (Tested n b) ov).
Proof using.
  unfold close_test, handle. mrun. intros [= <- <- <-] [[Hs Hc Hl] Hr]. unfold fact_of in Hs. simpl in *. split; [|done].
  constructor; simpl; auto. unfold fact_of. simpl. destruct Hs as [H1 H2 H3 H4 H5 H6 H7]. constructor; auto.
  - intros Ho Ha. by destruct (H3 Ho Ha).
  - intros Ho Hp. destruct (H4 Ho Hp) as [?|[? [?|[? [=]]]]]; auto.
  - by intros [? [=]].
  - intros _ [? [= _ E]]. apply orb_true_iff in E as [E|E]; apply bool_decide_eq_true in E; auto.
Qed.

Lemma lively_close_mark s0 h t ph ov n b h' t' :
  close_mark b (h, t) = (inr tt, (h', t')) -> lively s0 (mkLife h t ph (Tested n b) ov) -> lively s0 (mkLife h' t' ph (Marked n) ov).
Proof using.
  unfold close_mark, hupdate. mrun. intros Hrun [[Hs Hc Hl] Hr]. unfold fact_of in Hs. simpl in *.
  destruct b; injection Hrun as <- <-; (split; [|done]); constructor; simpl; auto; try done; unfold fact_of; simpl;
    destruct Hs as [H1 H2 H3 H4 H5 H6 H7]; constructor; try done; auto; try (by intros [? [=]]); try (by intros _ [? [=]]);
    try (intros Ho Ha; by destruct (H3 Ho Ha)).
  - intros Ho Hf. specialize (H1 Ho Hf). destruct (H7 Ho ltac:(eauto)), Hf; congruence.
  - intros Ho Hp. right. eauto.
  - intros Ho Hp. destruct (H4 Ho Hp) as [?|[? [?|[? [=]]]]]; auto.
Qed.

Lemma lively_close_cancel s0 h t ph ov n h' t' :
  close_cancel (h, t) = (inr tt, (h', t')) -> lively s0 (mkLife h t ph (Marked n) ov) -> lively s0 (mkLife h' t' ph (Waiting n) ov).
Proof using.
  unfold close_cancel, hupdate. mrun. intros [= <- <-] [[Hs Hc Hl] Hr]. unfold fact_of in Hs. simpl in *. split; [|done].
  constructor; simpl; auto; unfold fact_of; simpl. destruct Hs as [H1 H2 H3 H4 H5 H6 H7]. constructor; auto; try (by intros _ [? [=]]).
  - intros Ho Ha. by destruct (H3 Ho Ha).
  - intros Ho Hp. destruct (H4 Ho Hp) as [?|[? _]]; auto.
Qed.

Lemma lively_close_rest s0 h t ph ov n h' t' :
  close_rest n (h, t) = (inr tt, (h', t')) -> lively s0 (mkLife h t ph (Waiting n) ov) -> lively s0 (mkLife h' t' ph NoClose ov).
Proof using.
  intros Hrun [Ha Hr]. simpl in *. destruct (alive_close_rest _ _ n _ Ha) as [Ha' _]. rewrite Hrun in Ha'. split.
  - eapply alive_mono; [|exact Ha']. intros s c k [H1 H2 H3 H4 H5 H6 H7]. constructor; auto; try done; try (by intros [? [=]]); try (by intros _ [? [=]]).
    + intros Ho Ha1. by destruct (H3 Ho Ha1).
    + intros Ho Hp. destruct (H4 Ho Hp) as [?|[? _]]; [auto|]. right. split; [done|]. left. eauto.
  - destruct Ha' as [_ _ [l Hl]]. by eapply on_record_grows.
Qed.

Lemma lively_step s0 x y : life_step x y -> lively s0 x -> lively s0 y.
Proof using.
  intros Hstep Hx. destruct Hstep as [h h' t ph cl ov l Hl|op h t ph cl ov h' t' Hd Hrun|h t ph cl ov r h' t' Hrun
    |h t cl ov retry h' t' Hrun|h t cl ov h1 t1 cs h' t' Ht Hrun|fuel h t cl ov retry status hasLog sid h' t' Hrun
    |h t cl ov retry status hasLog sid status' saved h' t' Hrun|h t cl ov status hasLog sid saved status' h' t' Hrun
    |h t cl ov status hasLog saved cs h' t' Hrun|cb cs h t cl ov h' t' Hrun|h t ph ov o h' t' Hrun
    |h t ph ov n b h' t' Hrun|h t ph ov n b h' t' Hrun|h t ph ov n h' t' Hrun|h t ph ov n h' t' Hrun].
  - destruct Hx as [[H1 H2 H3] Hr]. simpl in *. split; [|by eapply on_record_grows].
    constructor; simpl; auto; [|exists []; by rewrite app_nil_r]. rewrite Hl. intros Hc. by apply commit_ok_app, H2.
  - destruct (settles op) eqn:Hop; simpl.
    + pose proof (lively_settle s0 op h t ph cl ov Hop Hx) as Hy. by rewrite Hrun in Hy.
    + rewrite orb_false_r. destruct Hx as [Ha Hr]. simpl in *. destruct (alive_direct _ _ op Hd Hop _ Ha) as [Ha' _].
      rewrite Hrun in Ha'. split; [by eapply alive_mono; [|exact Ha']|]. destruct Ha' as [_ _ [l Hl]]. by eapply on_record_grows.
  - by eapply lively_commit.
  - by eapply lively_test.
  - apply exec_test_run in Ht as [[= -> ->] _]. eapply lively_neutral; [|exact Hrun|exact Hx| |done].
    + intros. unfold exec_refuse, unregisterAsyncWork. repeat astep.
    + intros s c k []. by constructor; auto.
  - eapply lively_neutral; [intros; apply alive_commit_log|exact Hrun|exact Hx| |done]. intros s c k []. by constructor; auto.
  - destruct Hx as [Ha _]. destruct (alive_exec_commit _ _ _ _ _ _ _ _ _ Ha Hrun) as [Ha' Hr]. split; [|done].
    eapply alive_mono; [|exact Ha']. intros s c k []. by constructor; auto.
  - destruct Hx as [Ha Hr]. simpl in *. destruct (alive_finish _ _ status sid _ Ha) as [Ha' Hok]. rewrite Hrun in Ha', Hok. split.
    + eapply alive_mono; [|exact Ha']. intros s c k []. by constructor; auto.
    + simpl. intros E. destruct Ha' as [_ _ [l Hl]]. simpl in Hl. rewrite Hl. by apply commit_ok_app, Hr, (Hok status').
  - by eapply lively_exec_state.
  - destruct Hx as [Ha _]. split; [|done]. simpl in *.
    apply (alive_mono _ _ _ _ _ (sound_idle s0 _ cl ov)) in Ha.
    destruct (alive_complete _ _ cb cs (sound_closable s0 cl ov) (sound_resume s0 cl ov) _ Ha) as [Ha' _].
    rewrite Hrun in Ha'. by eapply alive_mono; [|exact Ha'].
  - by eapply lively_enter.
  - by eapply lively_close_test.
  - by eapply lively_close_mark.
  - by eapply lively_close_cancel.
  - by eapply lively_close_rest.
Qed.

Lemma lively_rtc s0 x y : rtc life_step x y -> lively s0 x -> lively s0 y.
Proof using. induction 1 as [|x y z Hxy _ IH]; [done|]. intros Hx. eapply IH, lively_step; done. Qed.

(** An invariant state may be taken as the earlier one. *)
Lemma lively_here s0 x : lively s0 x -> lively (t_state (l_txn x)) x.
Proof using. intros [[[] H2 H3] Hr]. split; [|done]. constructor; [|done..]. by constructor. Qed.

(** C5: the life of a transaction.  Its calls, the pieces of asynchronous commits
    on worker threads and the pieces of a close on another thread interleave in
    every way, whatever RocksDB answers and other threads do.  At every moment a
    handle that is [Committed] has had RocksDB asked to commit, and it did.  As
    long as no close has run beside a commit ([l_overlap]: it entered while the
    worker was past its test, or the test passed, or [CommitSync] or [Abort] ran,
    before it set [cancelled]), [Committed] and [Aborted] are final.  The overlap
    is real ([close_race_commits_aborted], [close_race_aborts_committed]).  The
    calls of the JavaScript thread are single steps: a close beside [CommitSync]
    or [Abort] itself is not interleaved. *)
Theorem txn_lifecycle d ds cr now h t0 h1 t1 x y :
  TransactionHandle_new d ds cr now (h, t0) = (inr tt, (h1, t1)) ->
  rtc life_step (mkLife h1 t1 Idle NoClose false) x -> rtc life_step x y ->
  (l_overlap y = false -> final (t_state (l_txn x)) -> t_state (l_txn y) = t_state (l_txn x)) /\
  (t_state (l_txn y) = Committed -> commit_ok (h_calls (l_shared y))).
Proof using.
  intros [= <- <-] Hx Hy.
  assert (H0 : lively Pending x).
  { eapply lively_rtc; [exact Hx|]. split; [|done].
    constructor; unfold fact_of; simpl; [|done|by exists []; rewrite app_nil_r]. 
    constructor; try done; first [by intros [? [=]]|by intros _ [? [=]]|by intros _ [|]]. }
  apply lively_here, (lively_rtc _ x y Hy) in H0. destruct H0 as [[Hs Hc _] _]. split; [|exact Hc]. apply Hs.
Qed.
End Life.

(** A commit, the complete handler with its close, and an abort that comes too late. *)
Lemma txn_lifecycle_witness :
  let OS := os_reliable 10 in let RK := rocks_ok in let AL := alloc0 in
  exists h1 t1 x y, TransactionHandle_new db0 false false 1000000000 (shared0, no_txn) = (inr tt, (h1, t1)) /\
    rtc life_step (mkLife h1 t1 Idle NoClose false) x /\ rtc life_step x y /\ l_phase y = Idle /\
    t_state (l_txn x) = Committed /\ t_state (l_txn y) = Committed /\ commit_ok (h_calls (l_shared y)).
Proof.
  intros OS RK AL. set (st := snd (TransactionHandle_new db0 false false 1000000000 (shared0, no_txn))).
  assert (Hnew : TransactionHandle_new db0 false false 1000000000 (shared0, no_txn) = (inr tt, (st.1, st.2))) by reflexivity.
  exists st.1, st.2.
  assert (Hx : exists x, rtc life_step (mkLife st.1 st.2 Idle NoClose false) x /\ t_state (l_txn x) = Committed /\
    exists y, rtc life_step x y /\ l_phase y = Idle /\ l_overlap y = false).
  { eexists. split; [|split].
    - eapply rtc_l; [eapply ls_commit; vm_compute; reflexivity|].
      eapply rtc_l; [eapply ls_test; vm_compute; reflexivity|].
      eapply rtc_l; [eapply (ls_log 20); vm_compute; reflexivity|].
      eapply rtc_l; [eapply ls_try; vm_compute; reflexivity|].
      eapply rtc_l; [eapply ls_finish; vm_compute; reflexivity|].
      eapply rtc_once, ls_state. vm_compute. reflexivity.
    - reflexivity.
    - eexists. split; [|split].
      + eapply rtc_l; [eapply (ls_complete 0); vm_compute; reflexivity|].
        eapply rtc_once, (ls_call OpAbort); [reflexivity|]. vm_compute. reflexivity.
      + reflexivity.
      + reflexivity. }
  destruct Hx as (x & Hx & Hst & y & Hy & Hph & Hov). exists x, y.
  destruct (txn_lifecycle db0 false false 1000000000 shared0 no_txn _ _ x y Hnew Hx Hy) as [Hfin Hcom].
  assert (Hsty : t_state (l_txn y) = Committed) by (rewrite Hfin; [exact Hst|exact Hov|left; exact Hst]).
  split_and!; [exact Hnew|exact Hx|exact Hy|exact Hph|exact Hst|exact Hsty|apply Hcom, Hsty].
Defined.

(** The overlap is real.  A close on another thread marks the transaction aborted
    while the worker commits it, which then marks it committed. *)
Example close_race_commits_aborted :
  let OS := os_reliable 10 in let RK := rocks_ok in let AL := alloc0 in
  exists h1 t1 x y, TransactionHandle_new db0 false false 1000000000 (shared0, no_txn) = (inr tt, (h1, t1)) /\
    rtc life_step (mkLife h1 t1 Idle NoClose false) x /\ rtc life_step x y /\
    t_state (l_txn x) = Aborted /\ t_state (l_txn y) = Committed.
Proof.
  intros OS RK AL. eexists _, _, _, _. split; [reflexivity|]. split; [|split; [|split]].
  - eapply rtc_l; [eapply ls_commit; vm_compute; reflexivity|].
    eapply rtc_l; [eapply ls_test; vm_compute; reflexivity|].
    eapply rtc_l; [eapply ls_enter; vm_compute; reflexivity|].
    eapply rtc_l; [eapply ls_close_test; vm_compute; reflexivity|].
    eapply rtc_once, ls_close_mark. vm_compute. reflexivity.
  - eapply rtc_l; [eapply (ls_log 20); vm_compute; reflexivity|].
    eapply rtc_l; [eapply ls_try; vm_compute; reflexivity|].
    eapply rtc_l; [eapply ls_finish; vm_compute; reflexivity|].
    eapply rtc_once, ls_state. vm_compute. reflexivity.
  - reflexivity.
  - reflexivity.
Qed.

(** The other way round: the close reads the state before the worker writes it,
    and marks a committed transaction aborted. *)
Example close_race_aborts_committed :
  let OS := os_reliable 10 in let RK := rocks_ok in let AL := alloc0 in
  exists h1 t1 x y, TransactionHandle_new db0 false false 1000000000 (shared0, no_txn) = (inr tt, (h1, t1)) /\
    rtc life_step (mkLife h1 t1 Idle NoClose false) x /\ rtc life_step x y /\
    t_state (l_txn x) = Committed /\ t_state (l_txn y) = Aborted.
Proof.
  intros OS RK AL. eexists _, _, _, _. split; [reflexivity|]. split; [|split; [|split]].
  - eapply rtc_l; [eapply ls_commit; vm_compute; reflexivity|].
    eapply rtc_l; [eapply ls_test; vm_compute; reflexivity|].
    eapply rtc_l; [eapply (ls_log 20); vm_compute; reflexivity|].
    eapply rtc_l; [eapply ls_try; vm_compute; reflexivity|].
    eapply rtc_l; [eapply ls_finish; vm_compute; reflexivity|].
    eapply rtc_l; [eapply ls_enter; vm_compute; reflexivity|].
    eapply rtc_l; [eapply ls_close_test; vm_compute; reflexivity|].
    eapply rtc_once, ls_state. vm_compute. reflexivity.
  - eapply rtc_once, ls_close_mark. vm_compute. reflexivity.
  - reflexivity.
  - reflexivity.
Qed.
