(* ===== verification/TransactionIntents.v ===== *)
(** * Write intents of transactions

    A transaction registers a write intent in the verification table for each key
    it writes and releases it at commit or close.  The intents the handle records
    are the ones the table counts, and a key that was written does not verify. *)

From S2P Require Import Prelude Encoding LogFormat Os LogFile LogStore VerificationTable VerificationTableProofs VerificationTableSystem Transaction TransactionProofs.
From stdpp Require Import base tactics list gmap strings.
From coqutil Require Import Byte LittleEndianList.
From Stdlib Require Import ZArith Lia.

Local Open Scope Z_scope.

(** ** The table *)

(** As the constructor builds it: [2^k] slots and their mask. *)
Definition table_shape (s : VT) : Prop :=
  exists k, Z.of_nat (length (vt_slots s)) = 2 ^ Z.of_nat k /\ vt_mask s = 2 ^ Z.of_nat k - 1.

Lemma slot_in_shape s dbPtr cfId key :
  table_shape s -> exists i, slotFor s dbPtr cfId key = Some i /\ (i < length (vt_slots s))%nat.
Proof.
  intros (k & Hl & Hm). pose proof (Z.pow_pos_nonneg 2 (Z.of_nat k) ltac:(lia) ltac:(lia)) as Hp.
  unfold slotFor. rewrite Hm. destruct (vt_slots s) as [|v l] eqn:Hs; [simpl in Hl; lia|]. rewrite <- Hs in *.
  eexists. split; [done|]. rewrite Z.sub_1_r, <- Z.ones_equiv, Z.land_ones by lia. apply Nat2Z.inj_lt. rewrite Hl, Z2Nat.id; apply Z.mod_pos_bound; lia.
Qed.

(** No operation of the table changes its shape. *)
Definition shaped (n : nat) (m : Z * Z) (s : VT) : Prop := length (vt_slots s) = n /\ (vt_mask s, vt_seed s) = m.

Lemma shaped_modify n m f :
  (forall s, length (vt_slots (f s)) = length (vt_slots s) /\ vt_mask (f s) = vt_mask s /\ vt_seed (f s) = vt_seed s) ->
  keeps (shaped n m) (modify f) T.
Proof. intros Hf. apply keeps_modify. intros s [H1 H2]. destruct (Hf s) as (E1 & E2 & E3). split; congruence. Qed.

Lemma shaped_read {A} n m (f : VM A) : (forall s, snd (f s) = s) -> keeps (shaped n m) f T.
Proof. intros Hf s Hs. rewrite Hf. done. Qed.

Lemma shaped_load n m i : keeps (shaped n m) (load_slot i) T.
Proof. apply shaped_read. intros s. unfold load_slot. by destruct (_ !! i). Qed.
Lemma shaped_deref n m p : keeps (shaped n m) (deref p) T.
Proof. apply shaped_read. intros s. unfold deref. by destruct (_ !! p). Qed.
Lemma shaped_store n m i v : keeps (shaped n m) (store_slot i v) T.
Proof. apply shaped_modify. intros s. simpl. by rewrite length_insert. Qed.

Ltac vstep :=
  first
  [ lazymatch goal with
    | |- keeps _ (mret _) _ => apply keeps_ret; done
    | |- keeps _ (gets _) _ => apply keeps_gets; done
    | |- keeps _ (load_slot _) _ => apply shaped_load
    | |- keeps _ (store_slot _ _) _ => apply shaped_store
    | |- keeps _ (deref _) _ => apply shaped_deref
    | |- keeps _ (modify _) _ => apply shaped_modify; done
    | |- keeps _ (assign _ _) _ => apply shaped_modify; done
    | |- keeps _ (free _) _ => apply shaped_modify; done
    | |- keeps _ (when _ _) _ => apply keeps_when
    | |- keeps _ (match ?x with _ => _ end) _ => destruct x
    | |- keeps _ (_ ← _; _) _ => eapply (keeps_bind _ _ _ T); [|intros ? _]
    end ].

Lemma shaped_lock n m addr i db : keeps (shaped n m) (lockSlotForWrite addr i db) T.
Proof. unfold lockSlotForWrite, vtNextGen. repeat vstep. Qed.
Lemma shaped_releaseIntent n m i p : keeps (shaped n m) (releaseWriteIntent i p) T.
Proof. unfold releaseWriteIntent, vtNextSettleGen, cas_slot, wake, drop_ref. repeat vstep. Qed.
Lemma shaped_ref n m i : keeps (shaped n m) (refTrackerIfLocked i) T.
Proof. unfold refTrackerIfLocked. repeat vstep. Qed.
Lemma shaped_unref n m p : keeps (shaped n m) (unrefTracker p) T.
Proof. unfold unrefTracker, drop_ref. repeat vstep. Qed.
Lemma shaped_park n m p cb : keeps (shaped n m) (addWakeCallback p cb) T.
Proof. unfold addWakeCallback. repeat vstep. Qed.

Lemma shape_kept {A} (f : VM A) s r s' :
  (forall n m, keeps (shaped n m) f T) -> f s = (r, s') ->
  (table_shape s -> table_shape s') /\ length (vt_slots s') = length (vt_slots s) /\
  forall dbPtr cfId key, slotFor s' dbPtr cfId key = slotFor s dbPtr cfId key.
Proof.
  intros Hf Hr. destruct (Hf (length (vt_slots s)) (vt_mask s, vt_seed s) s) as [[H1 H2] _]; [done|]. rewrite Hr in *. simpl in *.
  injection H2 as H2 H3. split_and!; [|done|].
  - unfold table_shape. by rewrite H1, H2.
  - intros dbPtr cfId key. unfold slotFor. rewrite H2, H3. by destruct (vt_slots s'), (vt_slots s).
Qed.

(** Intents are a multiset. *)
Lemma vt_inv_perm I I' R W s : I ≡ₚ I' -> vt_inv I R W s -> vt_inv I' R W s.
Proof.
  intros HI [H1 H2 H3 H4 H5 H6 H7]. constructor; auto.
  - intros p t Hp. destruct (H3 p t Hp) as [T1 T2 T3 T4 T5 T6 T7 T8].
    constructor; auto; rewrite <- ?(intents_perm p _ _ HI); auto. intros i Hi. apply T6. by rewrite HI.
  - intros i p Hi. apply (H4 i p). by rewrite HI.
Qed.

Lemma size_list_to_set_le (l : list Z) : (size (list_to_set (C := gset Z) l) <= length l)%nat.
Proof.
  induction l as [|a l IH]; [done|]. cbn [list_to_set length]. rewrite size_union_alt, size_singleton.
  pose proof (subseteq_size (C := gset Z) (list_to_set l ∖ {[a]}) (list_to_set l) ltac:(set_solver)). lia.
Qed.

(** Every tracker has an intent or a reference. *)
Lemma heap_bounded I R W s : vt_inv I R W s -> (size (vt_heap s) <= length I + length R)%nat.
Proof.
  intros Hinv. rewrite <- size_dom. 
  assert (Hsub : dom (vt_heap s) ⊆ list_to_set (C := gset Z) (I.*2 ++ R)).
  { intros p Hp. apply elem_of_dom in Hp as [t Ht]. pose proof (vi_tracker _ _ _ _ Hinv p t Ht) as Hok.
    apply elem_of_list_to_set, elem_of_app. pose proof (to_refs _ _ _ _ _ Hok) as Hr. pose proof (to_alive _ _ _ _ _ Hok) as Ha.
    unfold intents, refs in Hr. destruct (filter (fun x => x.2 = p) I) as [|[i q] l] eqn:HI.
    - right. destruct (filter (fun x => x = p) R) as [|q l] eqn:HR; [simpl in Hr; lia|].
      assert (Hq : q ∈ filter (fun x => x = p) R) by (rewrite HR; by left). apply list_elem_of_filter in Hq as [-> Hq]. done.
    - left. assert (Hq : (i, q) ∈ filter (fun x => x.2 = p) I) by (rewrite HI; by left).
      apply list_elem_of_filter in Hq as [Hq1 Hq2]. simpl in Hq1. subst q. apply list_elem_of_fmap. by exists (i, p). }
  etrans; [by apply subseteq_size|]. 
  etrans; [apply size_list_to_set_le|]. by rewrite length_app, length_fmap.
Qed.

(** A locked slot verifies nothing and takes no version. *)
Lemma locked_refuses s i v w :
  vt_slots s !! i = Some v -> vtIsLock v = true ->
  verifyVersion (Some i) w s = (inr false, s) /\ forall n, populateVersion n (Some i) w s = (inr false, s).
Proof.
  intros Hv Hl. split.
  - unfold verifyVersion, load_slot. destruct (vtIsLock w) eqn:Hw; [by rewrite orb_true_r|]. destruct (w =? 0); simpl; [done|].
    mrun. rewrite Hv. destruct (Z.eqb_spec v w) as [->|]; [congruence|done].
  - intros n. unfold populateVersion, load_slot. destruct (negb _); [done|]. mrun. rewrite Hv.
    destruct n; cbn [populate_loop]; by rewrite Hl.
Qed.

(** ** The intents of a handle *)

Section Intents.
Context {OS : Os} {RK : Rocks} {AL : Alloc}.

(** [new] returns an address in user space that no live tracker has, while there
    are less than [2^32]. *)
Definition alloc_ok : Prop := forall heap : gmap Z LockTracker, Z.of_nat (size heap) < 2 ^ 32 ->
  is_ptr (new_tracker heap) /\ heap !! new_tracker heap = None.

Definition held (t : TransactionHandle) : list (nat * Z) := zip (t_lockedVTSlots t) (t_heldTrackers t).

Variables (I : list (nat * Z)) (R : list Z) (W0 : list nat).

(** The table holds the intents of the handle besides [I] of others, the
    references [R], and has accepted at least the waiters [W0]. *)
Definition vt_held (mine : list (nat * Z)) (h : Shared) : Prop :=
  exists s W, h_vt h = Some s /\ W0 ⊆ W /\ vt_inv (mine ++ I) R W s /\ in_table (mine ++ I) s /\ table_shape s.

(** The accounting of a handle that may take [n] more intents, with [X] true of
    it. *)
Record acct (X : TransactionHandle -> Prop) (n : nat) (st : Shared * TransactionHandle) : Prop := mkAcct {
  ac_parallel : length (t_lockedVTSlots st.2) = length (t_heldTrackers st.2);
  ac_extra : X st.2;
  ac_table : vt_held (held st.2) st.1;
  ac_room : Z.of_nat (length (t_lockedVTSlots st.2) + n + length I + length R) + 2 < 2 ^ 32;
}.

(** A closed handle has let go of everything, an open one has its transaction. *)
Definition clean (t : TransactionHandle) : Prop :=
  if t_closed t then t_txn t = None /\ t_dbHandle t = None /\ t_lockedVTSlots t = []
  else is_Some (t_txn t) /\ is_Some (t_dbHandle t).

Abbreviation accounted := (acct clean).

Definition opened (t : TransactionHandle) : Prop := t_closed t = false /\ is_Some (t_txn t) /\ is_Some (t_dbHandle t).

Lemma acct_opened n st : acct opened n st -> accounted n st.
Proof using. intros [H1 (Hc & Ht & Hd) H3 H4]. constructor; auto. unfold clean. by rewrite Hc. Qed.

Lemma acct_of_db n st : accounted n st -> is_Some (t_dbHandle st.2) -> acct opened n st.
Proof using.
  intros [H1 H2 H3 H4] [d Hd]. constructor; auto. unfold clean in H2. destruct (t_closed st.2) eqn:Hc; [|by split].
  destruct H2 as (_ & H2 & _). congruence.
Qed.

Lemma acct_of_txn n st k : accounted n st -> t_txn st.2 = Some k -> acct opened n st.
Proof using.
  intros [H1 H2 H3 H4] Hk. constructor; auto. unfold clean in H2. destruct (t_closed st.2) eqn:Hc; [|by split].
  destruct H2 as (H2 & _). congruence.
Qed.

Lemma acct_less X n n' st : (n' <= n)%nat -> acct X n st -> acct X n' st.
Proof using. intros Hn [H1 H2 H3 H4]. constructor; auto. lia. Qed.

Lemma held_length X n st : acct X n st -> length (held st.2) = length (t_lockedVTSlots st.2).
Proof using. intros [H1 _ _ _]. unfold held. rewrite length_zip. lia. Qed.

Lemma few_of X n st : acct X n st -> few (held st.2 ++ I) R.
Proof using. intros Ha. pose proof (held_length _ _ _ Ha). destruct Ha as [_ _ _ H4]. unfold few. rewrite length_app. lia. Qed.

Section Frame.
Variables (X : TransactionHandle -> Prop) (n : nat).

Lemma ac_hupdate f :
  (forall t, t_lockedVTSlots (f t) = t_lockedVTSlots t /\ t_heldTrackers (f t) = t_heldTrackers t /\ (X t -> X (f t))) ->
  keeps (acct X n) (hupdate f) T.
Proof using.
  intros Hf. apply keeps_modify. intros [h t] [H1 H2 H3 H4]. destruct (Hf t) as (E1 & E2 & E3).
  constructor; unfold held in *; simpl in *; rewrite ?E1, ?E2; auto.
Qed.

Lemma ac_shupdate f : (forall h, h_vt (f h) = h_vt h) -> keeps (acct X n) (shupdate f) T.
Proof using.
  intros Hf. apply keeps_modify. intros [h t] [H1 H2 H3 H4]. constructor; auto. unfold vt_held in *. simpl in *. by rewrite Hf.
Qed.

Lemma ac_call c : keeps (acct X n) (call c) T.
Proof using. by apply ac_shupdate. Qed.

Lemma ac_with_store {A} sid (m : SM A) : keeps (acct X n) (with_store sid m) T.
Proof using.
  intros [h t] [H1 H2 H3 H4]. unfold with_store. destruct (h_stores h !! sid) as [s|]; [|done].
  destruct (m _) as [r [w' s']]. split; [|done]. by constructor.
Qed.

Lemma ac_write fuel q b : (forall b p t, X t -> X (set_batch_position b p t)) -> keeps (acct X n) (write_batch fuel q b) T.
Proof using.
  intros HX [h t] [H1 H2 H3 H4]. unfold write_batch. destruct (h_stores h !! q) as [s|]; [|done].
  destruct (writeBatch _ _) as [r [[w' s'] [b' p']]]. split; [|done]. constructor; auto. by apply HX.
Qed.
End Frame.

(** Taking an intent: the key's slot is then locked. *)
Lemma lock_accounted n d key h t :
  alloc_ok -> acct opened (S n) (h, t) ->
  exists h' t' s', lockVTSlot d key (h, t) = (inr tt, (h', t')) /\ acct opened n (h', t') /\
    t_dbHandle t' = t_dbHandle t /\ h_vt h' = Some s' /\
    forall base, t_dbHandle t = Some base -> exists i v, slotFor s' (dh_descriptor base) (dh_cfId d) key = Some i /\
      vt_slots s' !! i = Some v /\ vtIsLock v = true.
Proof using.
  intros Hal Ha. destruct (ac_extra _ _ _ Ha) as (Hopen & Htxn & [base Hbase]). pose proof (few_of _ _ _ Ha) as Hfew. pose proof Ha as [H1 H2 (s & W & Hs & HW & Hinv & Htab & Hshape) H4].
  cbn [fst snd] in *. unfold lockVTSlot. rewrite (bind_run (shared _) _ (h, t) (Some s) (h, t)) by (unfold shared, gets; by rewrite Hs).
  rewrite (bind_run (handle _) _ (h, t) (Some base) (h, t)) by (unfold handle, gets; by rewrite Hbase).
  rewrite (bind_run (deref_some _ _) _ (h, t) base (h, t)) by done.
  destruct (slot_in_shape s (dh_descriptor base) (dh_cfId d) key Hshape) as (i & Hi & Hlt). rewrite Hi.
  destruct (lookup_lt_is_Some_2 _ _ Hlt) as [v Hv].
  assert (Hlock : exists p s' v', lockSlotForWrite (new_tracker (vt_heap s)) (Some i) (dh_descriptor base) s = (inr (Some p), s') /\
    vt_inv ((i, p) :: held t ++ I) R W s' /\ vt_slots s' !! i = Some v' /\ vtIsLock v' = true).
  { destruct (vtIsLock v) eqn:Hl.
    - destruct (lock_join _ R W s i v (new_tracker (vt_heap s)) (dh_descriptor base) Hinv Hfew Hv Hl) as (s' & Hrun & Hinv' & Hsl & _).
      exists (vtDecodeLock v), s', v. by rewrite Hsl.
    - pose proof (heap_bounded _ _ _ _ Hinv) as Hsz. unfold few in Hfew.
      destruct (Hal (vt_heap s)) as [Hptr Hfresh]; [lia|].
      destruct (lock_install _ R W s i v (new_tracker (vt_heap s)) (dh_descriptor base) Hinv Hv Hl Hptr Hfresh) as (s' & g & Hrun & Hinv' & Hsl & _).
      eexists _, s', _. split; [done|]. split; [done|]. rewrite Hsl, list_lookup_insert_eq by done. split; [done|]. by apply lock_u64. }
  destruct Hlock as (p & s' & v' & Hrun & Hinv' & Hv' & Hl').
  destruct (shape_kept _ _ _ _ (fun n m => shaped_lock n m _ _ _) Hrun) as (Hsh' & Hlen & Hslot).
  rewrite (bind_run (on_vt _) _ (h, t) (Some p) (set_h_vt (Some s') h, t)) by (unfold on_vt; by rewrite Hs, Hrun).
  eexists _, _, s'. split; [done|]. split.
  - assert (Hz : zip (t_lockedVTSlots t ++ [i]) (t_heldTrackers t ++ [p]) ++ I ≡ₚ (i, p) :: held t ++ I).
    { unfold held. rewrite zip_with_app by done. rewrite <- app_assoc. symmetry. apply Permutation_middle. }
    constructor; unfold held in *; simpl in *.
    + rewrite !length_app. simpl. lia.
    + unfold opened. simpl. eauto.
    + exists s', W. split_and!; [done|done|by eapply vt_inv_perm; [symmetry; apply Hz|]| |by apply Hsh'].
      unfold in_table in *. rewrite Hz, Hlen. by constructor.
    + rewrite length_app. simpl. lia.
  - split_and!; [done|done|]. intros b Hb. rewrite Hbase in Hb. injection Hb as <-. exists i, v'. by rewrite Hslot.
Qed.

(** Releasing: none of the handle's intents is left in the table. *)
Lemma release_all_run slots trackers h t s W :
  length slots = length trackers -> h_vt h = Some s ->
  vt_inv (zip slots trackers ++ I) R W s -> in_table (zip slots trackers ++ I) s -> table_shape s ->
  few (zip slots trackers ++ I) R ->
  exists s', release_all slots trackers (h, t) = (inr tt, (set_h_vt (Some s') h, t)) /\
    vt_inv I R W s' /\ in_table I s' /\ table_shape s'.
Proof using.
  revert trackers h s. induction slots as [|i slots IH]; intros [|p trackers] h s Hlen Hs Hinv Htab Hsh Hfew; try done.
  { exists s. split_and!; try done. cbn [release_all]. f_equal. f_equal. by destruct h; simpl in *; subst. }
  cbn [zip zip_with app] in *. cbn [release_all].
  destruct (release_run _ (zip slots trackers ++ I) R W s i p Hinv Hfew Htab (reflexivity _)) as (s1 & g & Hrun & Hinv1 & _).
  destruct (shape_kept _ _ _ _ (fun n m => shaped_releaseIntent n m _ _) Hrun) as (Hsh1 & Hlen1 & _).
  rewrite (bind_run (on_vt _) _ (h, t) tt (set_h_vt (Some s1) h, t)) by (unfold on_vt; by rewrite Hs, Hrun).
  destruct (IH trackers (set_h_vt (Some s1) h) s1) as (s' & Hr & Hi & Ht & Hsh'); [simpl in Hlen; lia|done|done| |auto| |].
  - unfold in_table in *. rewrite Hlen1. by inversion Htab.
  - unfold few in *. simpl in Hfew. lia.
  - exists s'. rewrite Hr. by split_and!.
Qed.

Lemma release_accounted X n h t :
  (forall t, X t -> X (set_intents [] [] t)) -> acct X n (h, t) ->
  exists h' t', release_if_held (h, t) = (inr tt, (h', t')) /\ acct X n (h', t') /\ t_lockedVTSlots t' = [] /\
    t_closed t' = t_closed t /\ t_txn t' = t_txn t /\ t_dbHandle t' = t_dbHandle t.
Proof using.
  intros HX Ha. pose proof (few_of _ _ _ Ha) as Hfew. pose proof Ha as [H1 H2 (s & W & Hs & HW & Hinv & Htab & Hsh) H4]. cbn [fst snd] in *.
  unfold release_if_held. rewrite (bind_run (handle _) _ (h, t) (t_lockedVTSlots t) (h, t)) by done.
  destruct (t_lockedVTSlots t) as [|i0 l0] eqn:Hl; cbn [is_nil negb when].
  { exists h, t. split_and!; try done. }
  rewrite <- Hl in *. unfold releaseIntent. rewrite (bind_run (handle _) _ (h, t) (t_lockedVTSlots t) (h, t)) by done.
  rewrite (bind_run (handle _) _ (h, t) (t_heldTrackers t) (h, t)) by done.
  rewrite (bind_run (shared _) _ (h, t) (Some s) (h, t)) by (unfold shared, gets; by rewrite Hs).
  destruct (release_all_run _ _ h t s W H1 Hs Hinv Htab Hsh Hfew) as (s' & Hrun & Hinv' & Htab' & Hsh').
  rewrite (bind_run _ _ (h, t) tt (set_h_vt (Some s') h, t)) by (rewrite Hl; cbn [is_nil negb andb is_some when]; by rewrite <- Hl).
  eexists _, _. split; [done|]. split_and!; try done. constructor; simpl; [done|by apply HX| |lia].
  exists s', W. by split_and!.
Qed.

Lemma ac_release X n : (forall t, X t -> X (set_intents [] [] t)) -> keeps (acct X n) release_if_held T.
Proof using.
  intros HX [h t] Ha. destruct (release_accounted X n h t HX Ha) as (h' & t' & Hrun & Ha' & _). by rewrite Hrun.
Qed.

Lemma clean_intents t : clean t -> clean (set_intents [] [] t).
Proof using. unfold clean. simpl. destruct (t_closed t); [intros (? & ? & ?); by split_and!|done]. Qed.

(** Steps of methods that keep the accounting. *)
Ltac clean_same := intros ?; split_and!; [reflexivity|reflexivity|exact id].
Ltac istep :=
  first [ kstep
        | apply ac_call
        | apply ac_with_store
        | apply ac_write; intros ? ? ?; exact id
        | apply ac_hupdate; clean_same
        | apply ac_shupdate; done ].

Lemma ac_reset n : keeps (accounted n) resetTransaction T.
Proof using.
  intros [h t] Ha. destruct (t_dbHandle t) as [d|] eqn:Hd.
  - apply acct_of_db in Ha; [|simpl; by rewrite Hd]. enough (Hk : keeps (acct opened n) resetTransaction T).
    { destruct (Hk _ Ha) as [Hk' _]. split; [by apply acct_opened|done]. }
    unfold resetTransaction, beginTransaction. repeat istep.
    apply ac_hupdate. intros u. split_and!; [done|done|]. intros (A & B & C). split_and!; [done|by eexists|done].
  - enough (Hk : keeps (fun st => accounted n st /\ t_dbHandle st.2 = None) resetTransaction T).
    { destruct (Hk (h, t)) as [[? _] _]; [done|]. by split. }
    assert (Hcall : forall c, keeps (fun st => accounted n st /\ t_dbHandle st.2 = None) (call c) T).
    { intros c [h1 t1] [Ha1 Hd1]. destruct (ac_call clean n c (h1, t1) Ha1) as [Ha2 _]. by split. }
    unfold resetTransaction. eapply (keeps_bind _ _ _ T); [kstep|]. intros txn _.
    eapply (keeps_bind _ _ _ T); [destruct txn; repeat first [apply Hcall|kstep]|]. intros ? _.
    eapply (keeps_bind _ _ _ T).
    { intros [h1 t1] [Ha1 Hd1]. split; [|done]. split; [|done]. destruct Ha1 as [A B C D]. by constructor. }
    intros ? _. eapply (keeps_bind _ _ _ (fun o => o = None)); [apply keeps_gets; by intros [h1 t1] []|]. intros ? ->.
    apply (keeps_bind _ _ _ (fun _ => False)); [apply keeps_throw|done].
Qed.

(** The two log steps of [close] return and leave handle and table alone. *)
Lemma close_position_run h t : exists h', close_position (h, t) = (inr tt, (h', t)) /\ h_vt h' = h_vt h.
Proof using.
  unfold close_position. rewrite (bind_run (handle id) _ (h, t) t (h, t)) by done. unfold when. destruct (_ && _); [|by exists h].
  destruct (lock_bound_run h t) as (r & Hr & Hb). rewrite (bind_run _ _ _ _ _ Hr). destruct r as [q|]; [|by exists h].
  destruct Hb as [_ [s Hs]]. unfold with_store. rewrite Hs. by eexists.
Qed.

Lemma close_pending_run h t : exists h', close_pending (h, t) = (inr tt, (h', t)) /\ h_vt h' = h_vt h.
Proof using.
  unfold close_pending. rewrite (bind_run (handle _) _ (h, t) (t_committedPosition t) (h, t)) by done. unfold when.
  destruct (_ =? _); [|by exists h]. destruct (lock_bound_run h t) as (r & Hr & Hb). rewrite (bind_run _ _ _ _ _ Hr).
  destruct r as [q|]; [|by exists h]. destruct Hb as [_ [s Hs]]. unfold with_store. mrun. rewrite Hs. simpl.
  destruct (s_isClosing s); simpl; [by eexists|]. rewrite lookup_insert_eq. by eexists.
Qed.

(** Closing an open handle returns and leaves none of its intents. *)
Lemma close_accounted n h t :
  accounted n (h, t) -> exists h' t', close (h, t) = (inr tt, (h', t')) /\ accounted n (h', t') /\ t_closed t' = true.
Proof using.
  intros Ha. unfold close. rewrite (bind_run (handle id) _ (h, t) t (h, t)) by done.
  destruct (t_closed t) eqn:Hc; [by exists h, t|].
  pose proof (ac_extra _ _ _ Ha) as Hx. unfold clean in Hx. simpl in Hx. rewrite Hc in Hx. destruct Hx as [[k Hk] [d Hd]]. rewrite Hk, Hd.
  set (closing := fun u : TransactionHandle => t_closed u = true).
  rewrite (bind_run (hupdate _) _ (h, t) tt (h, set_closed true t)) by done.
  rewrite (bind_run (transactionRemove _) _ _ tt (set_h_transactions (h_transactions h ∖ {[t_id t]}) h, set_closed true t)) by done.
  set (h1 := set_h_transactions _ h). set (b := bool_decide _ || bool_decide _).
  set (t1 := if b then set_state Aborted (set_closed true t) else set_closed true t).
  rewrite (bind_run (when b _) _ _ tt (h1, t1)) by (subst t1; by destruct b).
  rewrite (bind_run (hupdate _) _ _ tt (h1, set_cancelled true t1)) by done. set (t2 := set_cancelled true t1).
  assert (Hm : acct closing n (h1, t2)) by (destruct Ha; subst t2 t1; destruct b; by constructor).
  destruct (close_position_run h1 t2) as (h2 & Hr2 & Hv2). rewrite (bind_run _ _ _ _ _ Hr2).
  destruct (close_pending_run h2 t2) as (h3 & Hr3 & Hv3). rewrite (bind_run _ _ _ _ _ Hr3).
  assert (Hm3 : acct closing n (h3, t2)).
  { destruct Hm as [A B C D]. constructor; auto. unfold vt_held in *. simpl in *. by rewrite Hv3, Hv2. }
  destruct (release_accounted closing n h3 t2 ltac:(done) Hm3) as (h4 & t4 & Hr4 & Hm4 & Hl4 & Hc4 & _).
  rewrite (bind_run _ _ _ _ _ Hr4). eexists _, _. split; [done|]. split; [|simpl; by rewrite Hc4; subst t2 t1; destruct b].
  destruct Hm4 as [A B C D]. constructor; simpl in *; auto. unfold clean. simpl. rewrite B. by split_and!.
Qed.

Lemma ac_close n : keeps (accounted n) close T.
Proof using. intros [h t] Ha. destruct (close_accounted n h t Ha) as (h' & t' & Hrun & Ha' & _). by rewrite Hrun. Qed.

Lemma vt_inv_fired I' R' W s f : vt_inv I' R' W s -> vt_inv I' R' W (set_fired (vt_fired s ++ f) s).
Proof using.
  intros [H1 H2 H3 H4 H5 H6 H7]. constructor; auto. intros cb Hcb. destruct (H6 cb Hcb) as [Hf|Hf]; [left; apply elem_of_app; by left|by right].
Qed.

Lemma ac_park X n cb slots : keeps (acct X n) (park cb slots) T.
Proof using.
  induction slots as [|i slots IH]; cbn [park]; [by apply keeps_ret|].
  intros [h t] Ha. pose proof (few_of _ _ _ Ha) as Hfew. pose proof Ha as [H1 H2 (s & W & Hs & HW & Hinv & Htab & Hsh) H4]. cbn [fst snd] in *.
  rewrite (bind_run (shared _) _ (h, t) (Some s) (h, t)) by (unfold shared, gets; by rewrite Hs).
  destruct (decide (i < length (vt_slots s))%nat) as [Hi|Hi].
  2: { unfold on_vt, refTrackerIfLocked, load_slot. mrun. rewrite Hs. rewrite (lookup_ge_None_2 (vt_slots s) i) by lia. split; [|done].
       destruct Ha; constructor; auto. by exists s, W. }
  assert (Hfew' : forall p, few (held t ++ I) (p :: R)).
  { intros p. pose proof (held_length _ _ _ Ha) as Hl. unfold few in *. rewrite length_app in *. simpl in *. lia. }
  destruct (ref_run _ R W s i Hinv Hfew Hi) as (r & s1 & Hr1 & _ & _ & Hinv1).
  destruct (shape_kept _ _ _ _ (fun n m => shaped_ref n m _) Hr1) as (Hsh1 & Hl1 & _).
  rewrite (bind_run (on_vt _) _ (h, t) r (set_h_vt (Some s1) h, t)) by (unfold on_vt; by rewrite Hs, Hr1).
  destruct r as [p|].
  2: { apply IH. destruct Ha; constructor; auto. exists s1, W. split_and!; auto. by eapply in_table_slots. }
  destruct (park_run _ (p :: R) W s1 p cb Hinv1 ltac:(by left)) as (b & s2 & Hr2 & _ & _ & Hinv2).
  destruct (shape_kept _ _ _ _ (fun n m => shaped_park n m _ _) Hr2) as (Hsh2 & Hl2 & _).
  rewrite (bind_run (on_vt _) _ _ b (set_h_vt (Some s2) h, t)) by (unfold on_vt; simpl; by rewrite Hr2).
  set (s3 := if b then s2 else set_fired (vt_fired s2 ++ [cb]) s2).
  rewrite (bind_run (when _ _) _ _ tt (set_h_vt (Some s3) h, t)) by (subst s3; by destruct b).
  assert (Hinv3 : vt_inv (held t ++ I) (p :: R) (if b then cb :: W else W) s3) by (subst s3; destruct b; auto using vt_inv_fired).
  destruct (unref_run _ (p :: R) R _ s3 p Hinv3 (Hfew' p) (reflexivity _)) as (s4 & Hr4 & _ & _ & Hinv4).
  destruct (shape_kept _ _ _ _ (fun n m => shaped_unref n m _) Hr4) as (Hsh4 & Hl4 & _).
  rewrite (bind_run (on_vt _) _ _ tt (set_h_vt (Some s4) h, t)) by (unfold on_vt; cbn [h_vt set_h_vt]; by rewrite Hr4).
  assert (Hl34 : length (vt_slots s3) = length (vt_slots s2) /\ (table_shape s2 -> table_shape s3)) by (subst s3; by destruct b).
  split; [|done]. destruct Ha; constructor; auto. exists s4, (if b then cb :: W else W). simpl. split_and!; [done|..].
  - destruct b; set_solver.
  - done.
  - eapply (in_table_slots _ s); [|done]. destruct Hl34. congruence.
  - destruct Hl34. auto.
Qed.

Lemma ac_execute n fuel : keeps (accounted n) (Commit_execute fuel) T.
Proof using.
  unfold Commit_execute, commit_log, commit_txn, finish_log, notify, unregisterAsyncWork.
  repeat first [apply ac_release, clean_intents|apply ac_reset|istep].
Qed.

Lemma ac_complete n cb cs : keeps (accounted n) (Commit_complete cb cs) T.
Proof using. unfold Commit_complete, reset_pending. repeat first [apply ac_close|apply ac_park|istep]. Qed.

Lemma ac_sync n fuel : keeps (accounted n) (CommitSync fuel) T.
Proof using.
  unfold CommitSync, commit_txn, finish_log, notify, reset_pending.
  repeat first [apply ac_release, clean_intents|apply ac_reset|apply ac_close|istep].
Qed.

(** The writes: each key takes an intent. *)
Section Writes.
Hypothesis Hal : alloc_ok.

Lemma lock_triple n d key :
  triple (acct opened (S n)) (lockVTSlot d key) (fun _ => acct opened n) (acct opened n).
Proof using Hal.
  intros [h t] Ha. destruct (lock_accounted n d key h t Hal Ha) as (h' & t' & s' & Hrun & Ha' & _). by rewrite Hrun.
Qed.

Lemma less_triple {A} n n' (m : HM A) :
  (n' <= n)%nat -> keeps (acct opened n) m T -> triple (acct opened n) m (fun _ => acct opened n) (acct opened n').
Proof using. intros Hle Hm. apply triple_weaken; [done|]. intros st. by apply acct_less. Qed.

Lemma put_items_triple n c k d keys values ko vo :
  triple (acct opened (c + n)) (put_items k d keys values ko vo c) (fun _ => acct opened n) (acct opened n).
Proof using Hal.
  revert ko vo. induction c as [|c IH]; intros ko vo; cbn [put_items]; [by apply triple_ret|].
  assert (Hle : forall a st, (n <= a)%nat -> acct opened a st -> acct opened n st) by (intros a st; apply acct_less).
  assert (Hitem : forall noun buf off, keeps (acct opened (S c + n)) (take_item noun buf off) T).
  { intros noun buf off. unfold take_item, readLE32. repeat istep. }
  eapply triple_bind; [apply less_triple; [lia|apply Hitem]|]. intros [msg|[key ko']].
  { apply triple_ret. intros st. apply Hle. lia. }
  eapply triple_bind; [apply less_triple; [lia|apply Hitem]|]. intros [msg|[value vo']].
  { apply triple_ret. intros st. apply Hle. lia. }
  eapply triple_bind; [apply less_triple; [lia|by repeat istep]|]. intros status. destruct (negb (ok status)).
  { apply triple_ret. intros st. apply Hle. lia. }
  eapply triple_bind; [|intros ?; apply IH]. unfold when. destruct (dh_enableVerificationTable d).
  - eapply triple_conseq; [apply (lock_triple (c + n))|done|done|]. intros st. apply Hle. lia.
  - apply triple_ret. intros st. apply acct_less. lia.
Qed.

(** What follows the guards of a write. *)
Lemma guarded_accounted {A} n n' (refuse : Status -> A) (m : nat -> HM A) :
  (n' <= n)%nat -> (forall k, triple (acct opened n) (m k) (fun _ => acct opened n') (acct opened n')) ->
  forall st, accounted n st -> accounted n' (snd (guarded refuse m st)).
Proof using.
  intros Hle Hm [h t] Ha. unfold guarded. rewrite (bind_run (handle _) _ (h, t) (t_txn t) (h, t)) by done.
  destruct (t_txn t) as [k|] eqn:Hk; [|by apply (acct_less _ _ _ _ Hle)].
  rewrite (bind_run (handle _) _ (h, t) (t_state t) (h, t)) by done. destruct (negb _); [by apply (acct_less _ _ _ _ Hle)|].
  pose proof (acct_of_txn n (h, t) k Ha Hk) as Ho. specialize (Hm k (h, t) Ho). apply acct_opened.
  by destruct (m k (h, t)) as [[e|a] st'].
Qed.

Definition locks (op : txn_op) : nat :=
  match op with OpPut _ _ _ | OpRemove _ _ => 1 | OpPutMany _ _ c _ => Z.to_nat c | _ => 0 end.

Lemma write_one_triple n k (c : DBHandle -> rocks_call) key override :
  triple (acct opened (S n))
    (write_snapshot k;; d ← target_handle override; status ← call_status (c d);
     when (ok status && dh_enableVerificationTable d) (lockVTSlot d key);; mret status)
    (fun _ => acct opened n) (acct opened n).
Proof using Hal.
  eapply triple_bind.
  { apply less_triple; [lia|]. unfold write_snapshot, set_snapshot. repeat istep. }
  intros ?. eapply triple_bind; [apply less_triple; [lia|unfold target_handle; by repeat istep]|].
  intros d. eapply triple_bind; [apply less_triple; [lia|by repeat istep]|].
  intros status. eapply (triple_bind _ _ _ (fun _ => acct opened n)); [|intros ?; by apply triple_ret].
  unfold when. destruct (_ && _); [apply lock_triple|]. apply triple_ret. intros st. apply acct_less. lia.
Qed.

Lemma op_accounted op n st : accounted (locks op + n) st -> accounted n (snd (run_op op st)).
Proof using Hal.
  intros Ha.
  assert (Hk : locks op = 0%nat -> keeps (accounted n) (run_op op) T -> accounted n (snd (run_op op st))).
  { intros H0 Hk. rewrite H0 in Ha. by apply Hk. }
  assert (Hig : forall A (m : HM A), snd (ignore m st) = snd (m st)).
  { intros A m. unfold ignore. mrun. by destruct (m st) as [[?|?] ?]. }
  destruct op; cbn [run_op locks] in *; try (apply Hk; [done|]); clear Hk; rewrite ?Hig.
  - unfold addLogEntry, bind_store. repeat istep.
  - unfold getSync, ensureSnapshot, set_snapshot, target_handle. repeat istep.
  - eapply guarded_accounted; [|intros k; apply write_one_triple|done]. lia.
  - eapply guarded_accounted; [|intros k|exact Ha]; [lia|].
    eapply triple_bind. { apply less_triple; [lia|]. unfold write_snapshot, set_snapshot. repeat istep. }
    intros ?. eapply triple_bind; [apply less_triple; [lia|unfold target_handle; by repeat istep]|]. intros d. apply put_items_triple.
  - eapply guarded_accounted; [|intros k; apply (write_one_triple n k (fun d => Transaction.Delete k (dh_cfId d) key))|done]. lia.
  - unfold ignore. eapply keeps_bind; [apply ac_sync|]. intros; by apply keeps_ret.
  - unfold ignore, Abort. repeat first [apply ac_close|istep].
  - apply ac_close.
  - unfold SetTimestamp. repeat istep.
  - unfold UseLog, bind_store. repeat istep.
  - unfold Commit, registerAsyncWork, unregisterAsyncWork. repeat istep.
  - unfold ignore. eapply keeps_bind; [apply ac_execute|]. intros; by apply keeps_ret.
  - unfold ignore. eapply keeps_bind; [apply ac_complete|]. intros; by apply keeps_ret.
Qed.

Lemma accounted_ops ops st : accounted (list_sum (locks <$> ops)) st -> accounted 0 (run_ops ops st).
Proof using Hal.
  revert st. induction ops as [|op ops IH]; intros st Ha; [done|]. cbn [run_ops]. apply IH, op_accounted. exact Ha.
Qed.
End Writes.

Lemma write_snapshot_keeps n k base st :
  acct opened n st -> t_dbHandle st.2 = Some base ->
  acct opened n (snd (write_snapshot k st)) /\ t_dbHandle (snd (write_snapshot k st)).2 = Some base.
Proof using.
  intros Ha Hb. split.
  - unfold write_snapshot, set_snapshot.
    match goal with |- acct _ _ (snd (?m st)) => enough (keeps (acct opened n) m T) as Hk by by apply Hk end. repeat istep.
  - destruct st as [h t]. simpl in Hb. unfold write_snapshot, set_snapshot, handle, hupdate, call, shupdate, deref_some. mrun.
    simpl. rewrite Hb. destruct (_ && _); simpl; [|done]. by destruct (dh_mode base).
Qed.
End Intents.

(** ** An allocator that satisfies the law *)

Definition alloc_first : Alloc :=
  {| new_tracker := fun heap => default 1 (head (filter (fun p => heap !! p = None) (seqZ 1 (Z.of_nat (size heap) + 1)))) |}.

Lemma alloc_first_ok : alloc_ok (AL := alloc_first).
Proof.
  intros heap Hsz. cbn [new_tracker alloc_first]. set (l := seqZ 1 (Z.of_nat (size heap) + 1)).
  destruct (filter (fun p => heap !! p = None) l) as [|p l'] eqn:Hf.
  - exfalso. assert (Hsub : list_to_set (C := gset Z) l ⊆ dom heap).
    { intros p Hp%elem_of_list_to_set. apply elem_of_dom. destruct (heap !! p) eqn:Hh; [by eexists|]. exfalso.
      assert (Hin : p ∈ filter (fun p => heap !! p = None) l) by (by apply list_elem_of_filter). rewrite Hf in Hin. by apply elem_of_nil in Hin. }
    apply subseteq_size in Hsub. rewrite size_list_to_set, size_dom in Hsub by apply NoDup_seqZ.
    subst l. rewrite length_seqZ in Hsub. lia.
  - assert (Hin : p ∈ filter (fun p => heap !! p = None) l) by (rewrite Hf; by left).
    apply list_elem_of_filter in Hin as [Hh Hp]. apply elem_of_seqZ in Hp. simpl. split; [unfold is_ptr; lia|done].
Qed.

(** ** Properties *)

(** C7: the table counts exactly the intents the handles record.  From the
    construction of a transaction on, after any sequence of its operations,
    thrown errors included, the invariant of the verification table holds for the
    intents in the handle besides those of others, the references to trackers are
    as they were, and once the handle is closed it has no intent left. *)
Theorem intents_accounted {OS : Os} {RK : Rocks} {AL : Alloc} I R W d ds cr now ops h t0 h0 t1 s :
  alloc_ok -> h_vt h = Some s -> vt_inv I R W s -> in_table I s -> table_shape s ->
  Z.of_nat (list_sum (locks <$> ops) + length I + length R) + 2 < 2 ^ 32 ->
  TransactionHandle_new d ds cr now (h, t0) = (inr tt, (h0, t1)) ->
  let '(h', t') := run_ops ops (h0, t1) in
  exists s' W', h_vt h' = Some s' /\ W ⊆ W' /\ vt_inv (held t' ++ I) R W' s' /\ (t_closed t' = true -> held t' = []).
Proof.
  intros Hal Hs Hinv Htab Hsh Hroom [= <- <-].
  match goal with |- let '(_, _) := run_ops ops ?st in _ => assert (Ha : acct I R W clean (list_sum (locks <$> ops)) st) end.
  { constructor; simpl; [done|split; by eexists| |lia]. exists s, W. by split_and!. }
  apply (accounted_ops I R W Hal) in Ha. destruct (run_ops _ _) as [h' t']. destruct Ha as [_ Hc (s' & W' & Hs' & HW & Hinv' & _) _].
  exists s', W'. split_and!; [done|done|done|]. simpl in *. unfold clean in Hc. intros Hcl. rewrite Hcl in Hc.
  destruct Hc as (_ & _ & Hl). unfold held. by rewrite Hl.
Qed.

(** A database with the table, and a transaction that writes two keys. *)
Definition shared_vt : Shared := set_h_vt (Some demo_table) shared0.
Definition key0 : bytes := [Byte.x6b].

Lemma demo_table_inv : vt_inv [] [] [] demo_table /\ in_table [] demo_table /\ table_shape demo_table.
Proof.
  destruct (start_inv _ demo_start) as [H _ _ _ _ _ _]. split_and!; [exact H|constructor|]. exists 2%nat. by vm_compute.
Qed.

Lemma intents_accounted_witness :
  let OS := os_reliable 10 in let RK := rocks_ok in let AL := alloc_first in
  let st := snd (TransactionHandle_new db0 false false 1000000000 (shared_vt, no_txn)) in
  let '(h', t') := run_ops [OpPut key0 key0 None; OpRemove key0 None; OpCommitSync 20] st in
  t_state t' = Committed /\ exists s' W', h_vt h' = Some s' /\ vt_inv [] [] W' s'.
Proof.
  intros OS RK AL. destruct demo_table_inv as (Hinv & Htab & Hsh).
  pose proof (intents_accounted [] [] [] db0 false false 1000000000 [OpPut key0 key0 None; OpRemove key0 None; OpCommitSync 20]
    shared_vt no_txn _ _ demo_table alloc_first_ok eq_refl Hinv Htab Hsh ltac:(vm_compute; reflexivity) eq_refl) as H.
  match type of H with let '(_, _) := run_ops _ ?x in _ => set (st0 := x) in H end.
  change (snd (TransactionHandle_new db0 false false 1000000000 (shared_vt, no_txn))) with st0.
  cbv zeta. destruct (run_ops _ st0) as [h' t'] eqn:Hrun. destruct H as (s' & W' & Hs' & _ & Hi & Hc).
  vm_compute in Hrun. injection Hrun as <- <-. split; [reflexivity|]. exists s', W'. split; [exact Hs'|].
  rewrite Hc in Hi by reflexivity. exact Hi.
Defined.

(** A key that a transaction wrote is not verifiable.  As soon as a put
    through a database with the table enabled returns OK, no version verifies for
    the key and none can be published, until the intent is released. *)
Theorem put_invalidates {OS : Os} {RK : Rocks} {AL : Alloc} I R W h t base d key value h' t' :
  alloc_ok -> acct I R W clean 1 (h, t) -> t_dbHandle t = Some base -> dh_enableVerificationTable d = true ->
  putSync key value (Some d) (h, t) = (inr StOk, (h', t')) ->
  exists s' i, h_vt h' = Some s' /\ slotFor s' (dh_descriptor base) (dh_cfId d) key = Some i /\
    forall v, verifyVersion (Some i) v s' = (inr false, s') /\
      forall n, populateVersion n (Some i) v s' = (inr false, s').
Proof.
  intros Hal Ha Hbase Hen. unfold putSync, guarded. rewrite (bind_run (handle _) _ (h, t) (t_txn t) (h, t)) by done.
  destruct (t_txn t) as [k|] eqn:Hk; [|done]. rewrite (bind_run (handle _) _ (h, t) (t_state t) (h, t)) by done.
  destruct (negb _); [done|]. pose proof (acct_of_txn I R W 1 (h, t) k Ha Hk) as Ho. intros Hrun.
  match type of Hrun with ?m _ = _ => enough (triple (fun st => acct I R W opened 1 st /\ t_dbHandle st.2 = Some base) m
    (fun status st => ok status = true -> exists s' i v, h_vt st.1 = Some s' /\ slotFor s' (dh_descriptor base) (dh_cfId d) key = Some i /\
       vt_slots s' !! i = Some v /\ vtIsLock v = true) (fun _ => True)) as Ht end.
  { specialize (Ht (h, t) (conj Ho Hbase)). rewrite Hrun in Ht. destruct (Ht eq_refl) as (s' & i & v & Hs' & Hi & Hv & Hl).
    exists s', i. split_and!; [done|done|]. intros w. by apply locked_refuses with v. }
  eapply (triple_bind _ _ _ (fun _ st => acct I R W opened 1 st /\ t_dbHandle st.2 = Some base)).
  { intros st [Ha1 Hb1]. pose proof (write_snapshot_keeps I R W 1 k base st Ha1 Hb1) as Hw. by destruct (write_snapshot k st) as [[?|?] ?]. }
  intros ?. eapply (triple_bind _ _ _ (fun d' st => d' = d /\ acct I R W opened 1 st /\ t_dbHandle st.2 = Some base)); [by intros st ?|].
  intros d'. eapply (triple_bind _ _ _ (fun status st => d' = d /\ acct I R W opened 1 st /\ t_dbHandle st.2 = Some base)).
  { intros [h1 t1] (-> & Ha1 & Hb1). unfold call_status, call, shupdate, shared. mrun. split_and!; [done| |done].
    by apply (ac_call I R W opened 1 (Put k (dh_cfId d) key value) (h1, t1)). }
  intros status [h1 t1] (-> & Ha1 & Hb1). destruct (ok status) eqn:Hok; cbn [andb]; [|unfold when; mrun; by rewrite Hok].
  rewrite Hen. destruct (lock_accounted I R W 0 d key h1 t1 Hal Ha1) as (h2 & t2 & s2 & Hr2 & _ & _ & Hs2 & Hslot).
  cbn [when]. rewrite (bind_run _ _ _ _ _ Hr2). intros _. destruct (Hslot base Hb1) as (i & v & Hi & Hv & Hl). by exists s2, i, v.
Qed.

