(* ===== verification/PutMany.v ===== *)
(** * Batched puts

    [putManySync] against a reference that parses the two buffers as lists. *)

From S2P Require Import Prelude Encoding LogFormat Os LogFile LogStore VerificationTable Transaction TransactionProofs.
From stdpp Require Import base tactics list gmap strings.
From coqutil Require Import Byte LittleEndianList.
From Stdlib Require Import ZArith Lia.

Local Open Scope Z_scope.

(** ** The reference *)

(** One item off the front of a buffer: a 32-bit little-endian length, then that
    many bytes. *)
Definition parse_item (noun : string) (buffer : bytes) : string + bytes * bytes :=
  if (length buffer <? 4)%nat then inl ("putMany: " +:+ noun +:+ "s buffer truncated (length prefix)")
  else
    let n := Z.to_nat (le_combine (take 4 buffer)) in
    let rest := drop 4 buffer in
    if (length rest <? n)%nat then inl ("putMany: " +:+ noun +:+ " overruns " +:+ noun +:+ "s buffer")
    else inr (take n rest, drop n rest).

(** The pairs up to the first item that does not parse, and its error. *)
Fixpoint parse_items (count : nat) (keys values : bytes) : list (bytes * bytes) * option string :=
  match count with
  | O => ([], None)
  | S count =>
      match parse_item "key" keys with
      | inl msg => ([], Some msg)
      | inr (k, keys) =>
          match parse_item "value" values with
          | inl msg => ([], Some msg)
          | inr (v, values) => let '(l, e) := parse_items count keys values in ((k, v) :: l, e)
          end
      end
  end.

(** Put the pairs in order, up to the first that RocksDB refuses. *)
Fixpoint put_all {RK : Rocks} (n : nat) (cf : Z) (items : list (bytes * bytes)) (e : option string) (calls : list rocks_call)
  : Status * list rocks_call :=
  match items with
  | [] => (match e with None => StOk | Some msg => StAborted msg end, calls)
  | (k, v) :: items =>
      let calls := calls ++ [Put n cf k v] in
      if ok (rk_status calls) then put_all n cf items e calls else (rk_status calls, calls)
  end.

(** The encoding the caller uses. *)
Definition encode_item (b : bytes) : bytes := le_split 4 (Z.of_nat (length b)) ++ b.
Definition encode_items (l : list bytes) : bytes := mjoin (encode_item <$> l).

(** ** Reading an item *)

Lemma le_combine_four a b c d :
  le_combine [a; b; c; d] = Z.lor (byte.unsigned a) (Z.shiftl (Z.lor (byte.unsigned b) (Z.shiftl (Z.lor (byte.unsigned c) (Z.shiftl (Z.lor (byte.unsigned d) 0) 8)) 8)) 8).
Proof. reflexivity. Qed.

Lemma read_run buffer off h t :
  0 <= off -> off + 4 <= Z.of_nat (length buffer) ->
  readLE32 buffer off (h, t) = (inr (le_combine (take 4 (drop (Z.to_nat off) buffer))), (h, t)).
Proof.
  intros H0 Hle. unfold readLE32.
  assert (Hd : forall j, (j < 4)%nat -> exists x, buffer !! Z.to_nat (off + Z.of_nat j) = Some x /\ drop (Z.to_nat off) buffer !! j = Some x).
  { intros j Hj. destruct (lookup_lt_is_Some_2 buffer (Z.to_nat (off + Z.of_nat j))) as [x Hx]; [lia|]. exists x. split; [done|].
    rewrite lookup_drop. by replace (Z.to_nat off + j)%nat with (Z.to_nat (off + Z.of_nat j)) by lia. }
  destruct (Hd 0%nat) as (a & Ha & Ha'); [lia|]. destruct (Hd 1%nat) as (b & Hb & Hb'); [lia|].
  destruct (Hd 2%nat) as (c & Hc & Hc'); [lia|]. destruct (Hd 3%nat) as (d & He & He'); [lia|].
  change (Z.of_nat 0) with 0 in Ha. rewrite Z.add_0_r in Ha. change (Z.of_nat 1) with 1 in Hb. change (Z.of_nat 2) with 2 in Hc.
  change (Z.of_nat 3) with 3 in He. rewrite Ha, Hb, Hc, He.
  destruct (drop (Z.to_nat off) buffer) as [|a1 [|b1 [|c1 [|d1 rest]]]]; try done. simpl in Ha', Hb', Hc', He'.
  injection Ha' as ->. injection Hb' as ->. injection Hc' as ->. injection He' as ->. cbn [take]. rewrite le_combine_four.
  pose proof (byte.unsigned_range a). pose proof (byte.unsigned_range b). pose proof (byte.unsigned_range c). pose proof (byte.unsigned_range d).
  unfold u32. rewrite !Z.mod_small by (rewrite Z.shiftl_mul_pow2 by lia; lia).
  rewrite Z.lor_0_r, !Z.shiftl_lor, !Z.shiftl_shiftl by lia. rewrite !Z.lor_assoc. reflexivity.
Qed.

Lemma take_item_run noun buffer off h t :
  0 <= off <= Z.of_nat (length buffer) -> Z.of_nat (length buffer) < 2 ^ 63 ->
  match parse_item noun (drop (Z.to_nat off) buffer) with
  | inl msg => take_item noun buffer off (h, t) = (inr (inl msg), (h, t))
  | inr (b, rest) => exists off', take_item noun buffer off (h, t) = (inr (inr (b, off')), (h, t)) /\
      off <= off' <= Z.of_nat (length buffer) /\ rest = drop (Z.to_nat off') buffer
  end.
Proof.
  intros Hoff Hlen. unfold parse_item, take_item. rewrite !length_drop. unfold u64. rewrite (Z.mod_small (off + 4)) by lia.
  destruct (Nat.ltb_spec (length buffer - Z.to_nat off) 4) as [Hlt|Hge].
  { replace (Z.of_nat (length buffer) <? off + 4) with true by lia. done. }
  replace (Z.of_nat (length buffer) <? off + 4) with false by lia.
  rewrite (bind_run _ _ _ _ _ (read_run buffer off h t ltac:(lia) ltac:(lia))).
  set (n := le_combine (take 4 (drop (Z.to_nat off) buffer))).
  assert (Hn : 0 <= n < 2 ^ 32).
  { pose proof (le_combine_bound (take 4 (drop (Z.to_nat off) buffer))) as Hb. rewrite length_take_le in Hb by (rewrite length_drop; lia). exact Hb. }
  cbv zeta. rewrite (Z.mod_small (off + 4 + n)) by lia.
  destruct (Nat.ltb_spec (length buffer - Z.to_nat off - 4) (Z.to_nat n)) as [Hlt|Hge2].
  { replace (Z.of_nat (length buffer) <? off + 4 + n) with true by lia. done. }
  replace (Z.of_nat (length buffer) <? off + 4 + n) with false by lia.
  exists (off + 4 + n). split; [|split; [lia|]].
  - rewrite drop_drop. by replace (Z.to_nat off + 4)%nat with (Z.to_nat (off + 4)) by lia.
  - rewrite !drop_drop. by replace (Z.to_nat off + (4 + Z.to_nat n))%nat with (Z.to_nat (off + 4 + n)) by lia.
Qed.

(** ** The loop *)

Lemma put_items_run {OS : Os} {RK : Rocks} {AL : Alloc} n d keys values count ko vo h t :
  dh_enableVerificationTable d = false ->
  0 <= ko <= Z.of_nat (length keys) -> Z.of_nat (length keys) < 2 ^ 63 ->
  0 <= vo <= Z.of_nat (length values) -> Z.of_nat (length values) < 2 ^ 63 ->
  let '(items, e) := parse_items count (drop (Z.to_nat ko) keys) (drop (Z.to_nat vo) values) in
  let '(status, calls) := put_all n (dh_cfId d) items e (h_calls h) in
  put_items n d keys values ko vo count (h, t) = (inr status, (set_h_calls calls h, t)).
Proof.
  intros Hvt Hko Hkl Hvo Hvl. revert ko vo h Hko Hvo. induction count as [|count IH]; intros ko vo h Hko Hvo; cbn [parse_items put_items put_all].
  { by destruct h. }
  pose proof (take_item_run "key" keys ko h t Hko Hkl) as Hk. destruct (parse_item "key" _) as [msg|[k krest]].
  { rewrite (bind_run _ _ _ _ _ Hk). cbn [put_all]. by destruct h. }
  destruct Hk as (ko' & Hk & Hko' & ->). rewrite (bind_run _ _ _ _ _ Hk).
  pose proof (take_item_run "value" values vo h t Hvo Hvl) as Hv. destruct (parse_item "value" _) as [msg|[v vrest]].
  { rewrite (bind_run _ _ _ _ _ Hv). cbn [put_all]. by destruct h. }
  destruct Hv as (vo' & Hv & Hvo' & ->). rewrite (bind_run _ _ _ _ _ Hv).
  set (calls := h_calls h ++ [Put n (dh_cfId d) k v]).
  rewrite (bind_run _ _ (h, t) (rk_status calls) (set_h_calls calls h, t)) by done.
  specialize (IH ko' vo' (set_h_calls calls h) ltac:(lia) ltac:(lia)).
  destruct (parse_items count _ _) as [items e]. cbn [put_all]. fold calls.
  destruct (ok (rk_status calls)); simpl; [|done]. rewrite Hvt.
  rewrite (bind_run _ _ _ tt (set_h_calls calls h, t)) by done. simpl in IH.
  destruct (put_all n (dh_cfId d) items e calls) as [status calls'] eqn:Hp. rewrite IH. done.
Qed.

Lemma write_snapshot_run n h t :
  t_dbHandle t <> None ->
  exists pre t', (pre = [] \/ pre = [SetSnapshot n]) /\ write_snapshot n (h, t) = (inr tt, (set_h_calls (h_calls h ++ pre) h, t')).
Proof.
  intros Hdb. unfold write_snapshot. rewrite (bind_run (handle id) _ (h, t) t (h, t)) by done. unfold when.
  assert (Hnil : (h, t) = (set_h_calls (h_calls h ++ []) h, t)) by (rewrite app_nil_r; by destruct h).
  destruct (_ && _). 2: { exists [], t. split; [by left|]. by rewrite <- Hnil. }
  destruct (t_dbHandle t) as [b|]; [|done]. unfold deref_some. rewrite (bind_run (mret b) _ (h, t) b (h, t)) by done.
  destruct (dh_mode b); [exists [], t; split; [by left|]; by rewrite <- Hnil|]. exists [SetSnapshot n], (set_snapshotSet true t).
  split; [by right|done].
Qed.

(** What the caller encoded is what is parsed. *)
Lemma parse_encoded noun b rest :
  Z.of_nat (length b) < 2 ^ 32 -> parse_item noun (encode_item b ++ rest) = inr (b, rest).
Proof.
  intros Hb. unfold parse_item, encode_item.
  pose proof (length_le_split 4 (Z.of_nat (length b))) as Hl. set (pre := le_split 4 (Z.of_nat (length b))) in *.
  rewrite <- app_assoc, length_app, Hl. replace (4 + length (b ++ rest) <? 4)%nat with false by (symmetry; apply Nat.ltb_ge; lia).
  rewrite (take_app_length' pre (b ++ rest)), (drop_app_length' pre (b ++ rest)) by done.
  subst pre. rewrite le_combine_split, Z.mod_small, Nat2Z.id by (simpl; lia). rewrite length_app.
  replace (length b + length rest <? length b)%nat with false by (symmetry; apply Nat.ltb_ge; lia).
  by rewrite take_app_length, drop_app_length.
Qed.

Lemma parse_items_encoded items :
  Forall (fun kv => Z.of_nat (length kv.1) < 2 ^ 32 /\ Z.of_nat (length kv.2) < 2 ^ 32) items ->
  parse_items (length items) (encode_items items.*1) (encode_items items.*2) = (items, None).
Proof.
  induction items as [|[k v] items IH]; intros Hall; [done|]. inversion_clear Hall as [|? ? [Hk Hv] Hrest]. simpl in Hk, Hv.
  cbn [fmap list_fmap length parse_items]. unfold encode_items in *. cbn [fmap list_fmap mjoin list_join].
  rewrite !parse_encoded by done. 
  match goal with |- (let '(_, _) := ?p in _) = _ => replace p with (items, @None string) by (symmetry; exact (IH Hrest)) end. done.
Qed.

(** ** Properties *)

(** C28: [putManySync] puts what the reference parses, and never reads outside its
    buffers.  For any buffers and count the call returns; the puts it makes are
    the pairs up to the first item that is truncated or overruns, in order, up to
    the first put that fails, after at most a snapshot; and its status says which
    of these ended it.  Buffers that encode a list of pairs are put in full. *)
Theorem put_many_reference {OS : Os} {RK : Rocks} {AL : Alloc} keys values count d h t n :
  t_txn t = Some n -> t_state t = Pending -> t_dbHandle t <> None -> dh_enableVerificationTable d = false ->
  Z.of_nat (length keys) < 2 ^ 63 -> Z.of_nat (length values) < 2 ^ 63 ->
  (exists h1 t1 pre, (pre = [] \/ pre = [SetSnapshot n]) /\
    let '(items, e) := parse_items (Z.to_nat count) keys values in
    let '(status, calls) := put_all n (dh_cfId d) items e (h_calls h ++ pre) in
    putManySync keys values count (Some d) (h, t) = (inr status, (h1, t1)) /\ h_calls h1 = calls) /\
  (forall items, Forall (fun kv => Z.of_nat (length kv.1) < 2 ^ 32 /\ Z.of_nat (length kv.2) < 2 ^ 32) items ->
     parse_items (length items) (encode_items items.*1) (encode_items items.*2) = (items, None)).
Proof.
  intros Htxn Hst Hdb Hvt Hkl Hvl. split; [|apply parse_items_encoded].
  unfold putManySync, guarded. rewrite (bind_run (handle _) _ (h, t) (Some n) (h, t)) by (unfold handle, gets; by rewrite Htxn).
  rewrite (bind_run (handle _) _ (h, t) Pending (h, t)) by (unfold handle, gets; by rewrite Hst). simpl.
  destruct (write_snapshot_run n h t Hdb) as (pre & t1 & Hpre & Hrun). rewrite (bind_run _ _ _ _ _ Hrun).
  set (h1 := set_h_calls (h_calls h ++ pre) h). rewrite (bind_run (mret d) _ (h1, t1) d (h1, t1)) by done.
  pose proof (put_items_run n d keys values (Z.to_nat count) 0 0 h1 t1 Hvt ltac:(lia) Hkl ltac:(lia) Hvl) as Hitems.
  rewrite !drop_0 in Hitems. cbn [h_calls h1 set_h_calls] in Hitems.
  destruct (parse_items _ keys values) as [items e]. destruct (put_all _ _ _ _ _) as [status calls] eqn:Hput.
  exists (set_h_calls calls h1), t1, pre. rewrite Hput. split; [done|]. split; [exact Hitems|done].
Qed.

Lemma put_many_reference_witness :
  let OS := os_reliable 10 in let RK := rocks_ok in let AL := alloc0 in
  let st := snd (TransactionHandle_new (mkDBHandle 256 Pessimistic false false 3) false false 1000000000 (shared0, no_txn)) in
  let items := [([Byte.x61], [Byte.x62; Byte.x63]); ([], [])] in
  (exists h1 t1, putManySync (encode_items items.*1) (encode_items items.*2) 2 (Some (mkDBHandle 256 Pessimistic false false 3)) st
     = (inr StOk, (h1, t1)) /\
   h_calls h1 = [BeginTransaction 0 Pessimistic false; SetSnapshot 0;
                 Put 0 3 [Byte.x61] [Byte.x62; Byte.x63]; Put 0 3 [] []]) /\
  parse_items 2 (encode_items items.*1) (encode_items items.*2) = (items, None).
Proof.
  intros OS RK AL st items.
  destruct (put_many_reference (encode_items items.*1) (encode_items items.*2) 2 (mkDBHandle 256 Pessimistic false false 3)
    (fst st) (snd st) 0) as [(h1 & t1 & pre & Hpre & H) Hround]; try reflexivity; try discriminate.
  split; [|apply (Hround items); repeat constructor].
  assert (Hp : parse_items (Z.to_nat 2) (encode_items items.*1) (encode_items items.*2) = (items, None)) by (apply (Hround items); repeat constructor).
  rewrite Hp in H. destruct (put_all _ _ _ _ _) as [status calls] eqn:Hput. destruct H as [Hrun Hcalls].
  exists h1, t1. pose proof Hrun as Hrun'. vm_compute in Hrun'. injection Hrun' as <- <- _. split; [exact Hrun|reflexivity].
Defined.
