(* ===== verification/Locks.v ===== *)
(** * Key locks ([database/db_descriptor.h], [.cpp], [database/database.cpp])

    A descriptor keeps, per key, a lock with the queue of callbacks that wait for
    it.  [withLock] runs its callbacks one at a time, each to the end of the
    promise it returns; [tryLock] takes a free lock until [unlock], or leaves a
    callback that is told of the release.

    The N-API runtime is a parameter: class [Napi] gives the status of each call
    of a threadsafe function; a call that succeeds queues an event on the thread
    of the function, which later runs [callJsCallback].  What the JavaScript
    function does in between is any sequence of other operations, so
    [callJsCallback] is split at the call.  [LockCallbackCompletionData] objects
    live on a heap whose addresses are not used again: touching one that was
    deleted is an error of the model. *)

From S2P Require Import Prelude.
From stdpp Require Import base tactics list gmap strings.
From Stdlib Require Import ZArith Lia.

Local Open Scope Z_scope.

(** ** State *)

Record LockCallback := mkLockCallback {
  lc_callback : Z;            (* napi_threadsafe_function *)
  lc_deferred : option Z;     (* napi_deferred, null for tryLock *)
}.

Record LockHandle := mkLockHandle {
  threadsafeCallbacks : list LockCallback;
  lh_owner : Z;               (* weak_ptr<DBHandle> *)
  isRunning : bool;
  lh_env : Z;
}.

Definition set_threadsafeCallbacks v h := mkLockHandle v (lh_owner h) (isRunning h) (lh_env h).
Definition set_isRunning v h := mkLockHandle (threadsafeCallbacks h) (lh_owner h) v (lh_env h).

Record LockCallbackCompletionData := mkCompletionData {
  cd_key : string;
  cd_deferred : option Z;
  cd_completed : bool;
  cd_live : bool;             (* not deleted *)
  cd_owners : nat;            (* shared_ptrs that own it *)
}.

Definition set_cd_completed v d := mkCompletionData (cd_key d) (cd_deferred d) v (cd_live d) (cd_owners d).
Definition set_cd_live v d := mkCompletionData (cd_key d) (cd_deferred d) (cd_completed d) v (cd_owners d).
Definition set_cd_owners v d := mkCompletionData (cd_key d) (cd_deferred d) (cd_completed d) (cd_live d) v.

Inductive napi_status := napi_ok | napi_closing | napi_failed.

(** What the code asks of the runtime. *)
Inductive napi_call :=
| CallTsfn (f : Z) (data : option Z) (status : napi_status)
| ReleaseTsfn (f : Z)
| ResolveDeferred (d : Z)
| RejectDeferred (d : Z).

(** The status of a call of a threadsafe function, after the calls made so far. *)
Class Napi := tsfn_status : list napi_call -> Z -> napi_status.

(** The part of a descriptor that its locks use. *)
Record Locks := mkLocks {
  lk_locks : gmap string LockHandle;
  lk_alive : bool;                      (* weak_ptr<DBDescriptor> can be locked *)
  lk_handles : list Z;                  (* the DBHandles that exist *)
  lk_data : gmap Z LockCallbackCompletionData;
  lk_next : Z;                          (* the next address *)
  lk_calls : list napi_call;
  lk_events : list (Z * option Z);      (* queued calls: function, completion data *)
}.

Definition set_lk_locks v s := mkLocks v (lk_alive s) (lk_handles s) (lk_data s) (lk_next s) (lk_calls s) (lk_events s).
Definition set_lk_data v s := mkLocks (lk_locks s) (lk_alive s) (lk_handles s) v (lk_next s) (lk_calls s) (lk_events s).
Definition set_lk_next v s := mkLocks (lk_locks s) (lk_alive s) (lk_handles s) (lk_data s) v (lk_calls s) (lk_events s).
Definition set_lk_calls v s := mkLocks (lk_locks s) (lk_alive s) (lk_handles s) (lk_data s) (lk_next s) v (lk_events s).
Definition set_lk_events v s := mkLocks (lk_locks s) (lk_alive s) (lk_handles s) (lk_data s) (lk_next s) (lk_calls s) v.
Definition set_lk_handles v s := mkLocks (lk_locks s) (lk_alive s) v (lk_data s) (lk_next s) (lk_calls s) (lk_events s).
Definition set_lk_alive v s := mkLocks (lk_locks s) v (lk_handles s) (lk_data s) (lk_next s) (lk_calls s) (lk_events s).

Definition LM (A : Type) : Type := M Locks A.

Definition find_lock (key : string) : LM (option LockHandle) := gets (fun s => lk_locks s !! key).
Definition put_lock (key : string) (h : LockHandle) : LM unit :=
  modify (fun s => set_lk_locks (<[key := h]> (lk_locks s)) s).
Definition erase_lock (key : string) : LM unit :=
  modify (fun s => set_lk_locks (delete key (lk_locks s)) s).

(** ** Completion data *)

(** Follow a pointer to completion data. *)
Definition deref (p : Z) : LM LockCallbackCompletionData := fun s =>
  match lk_data s !! p with
  | Some d => if cd_live d then (inr d, s) else (inl (OutOfRange "use of deleted completion data"), s)
  | None => (inl (OutOfRange "no such completion data"), s)
  end.

Definition put_data (p : Z) (d : LockCallbackCompletionData) : LM unit :=
  modify (fun s => set_lk_data (<[p := d]> (lk_data s)) s).

(** [new LockCallbackCompletionData(key, weak_from_this(), deferred)] *)
Definition new_data (key : string) (deferred : option Z) : LM Z :=
  p ← gets lk_next;
  put_data p (mkCompletionData key deferred false true 0);;
  modify (set_lk_next (p + 1));;
  mret p.

(** [delete callbackData] *)
Definition delete_data (p : Z) : LM unit :=
  d ← deref p; put_data p (set_cd_live false d).

(** A new [shared_ptr], from the raw pointer or as a copy. *)
Definition share (p : Z) : LM unit :=
  d ← deref p; put_data p (set_cd_owners (S (cd_owners d)) d).

(** The end of a [shared_ptr]: the last one deletes the object. *)
Definition unshare (p : Z) : LM unit :=
  d ← gets (fun s => lk_data s !! p);
  match d with
  | Some d =>
      put_data p (set_cd_owners (pred (cd_owners d)) d);;
      if decide (cd_owners d = 1%nat) then delete_data p else mret tt
  | None => throw (OutOfRange "no such completion data")
  end.

(** ** Threadsafe functions *)

Definition record_call (c : napi_call) : LM unit := modify (fun s => set_lk_calls (lk_calls s ++ [c]) s).

Definition call_tsfn {NA : Napi} (f : Z) (data : option Z) : LM napi_status :=
  calls ← gets lk_calls;
  let status := tsfn_status calls f in
  record_call (CallTsfn f data status);;
  (match status with
   | napi_ok => modify (fun s => set_lk_events (lk_events s ++ [(f, data)]) s)
   | _ => mret tt
   end);;
  mret status.

Definition release_tsfn (f : Z) : LM unit := record_call (ReleaseTsfn f).

(** The callback argument of a lock method.  [Function None]: a call that makes
    the threadsafe function failed, and the method returns with an exception
    pending. *)
Inductive js_arg := NotFunction | Function (f : option Z).

(** ** The operations of a descriptor *)

Section Operations.
Context {NA : Napi}.

(** Gives [*isNewLock]. *)
Definition lockEnqueueCallback (env : Z) (key : string) (callback : js_arg) (owner : Z)
    (skipEnqueueIfNewLock : bool) (deferred : option Z) : LM bool :=
  found ← find_lock key;
  let isNewLock := match found with None => true | Some _ => false end in
  let lockHandle := default (mkLockHandle [] owner false env) found in
  when isNewLock (put_lock key lockHandle);;
  if isNewLock && skipEnqueueIfNewLock then mret isNewLock
  else
    (match callback with
     | Function (Some f) =>
         put_lock key (set_threadsafeCallbacks (threadsafeCallbacks lockHandle ++ [mkLockCallback f deferred]) lockHandle)
     | _ => mret tt
     end);;
    mret isNewLock.

(** Take the execution of a key and its first callback, under [locksMutex]. *)
Definition claim (key : string) : LM (option LockCallback) :=
  found ← find_lock key;
  match found with
  | None => mret None
  | Some handle =>
      if isRunning handle then mret None
      else
        match threadsafeCallbacks handle with
        | [] => put_lock key (set_isRunning false handle);; erase_lock key;; mret None
        | c :: rest => put_lock key (mkLockHandle rest (lh_owner handle) true (lh_env handle));; mret (Some c)
        end
  end.

(** The first half of [onCallbackComplete]: is there still a lock? *)
Definition mark_complete (key : string) : LM bool :=
  found ← find_lock key;
  match found with
  | Some handle => put_lock key (set_isRunning false handle);; mret true
  | None => mret false
  end.

(** [status != napi_ok && status != napi_closing] *)
Definition call_failed (status : napi_status) : bool :=
  match status with napi_failed => true | _ => false end.

(** Call the function with new completion data; true when the call failed. *)
Definition call_next (key : string) (c : LockCallback) : LM bool :=
  p ← new_data key (lc_deferred c);
  status ← call_tsfn (lc_callback c) (Some p);
  when (call_failed status) (delete_data p);;
  mret (call_failed status).

(** [onCallbackComplete] calls itself when the next function cannot be called. *)
Fixpoint complete_loop (fuel : nat) (key : string) : LM unit :=
  match fuel with
  | O => throw (Diverges "onCallbackComplete")
  | S fuel =>
      found ← mark_complete key;
      if negb found then mret tt
      else
        c ← claim key;
        match c with
        | None => mret tt
        | Some c =>
            failed ← call_next key c;
            when failed (complete_loop fuel key);;
            release_tsfn (lc_callback c)
        end
  end.

(** The callbacks that wait for a key. *)
Definition waiting (key : string) (s : Locks) : list LockCallback :=
  from_option threadsafeCallbacks [] (lk_locks s !! key).

Definition onCallbackComplete (key : string) : LM unit :=
  n ← gets (fun s => length (waiting key s));
  complete_loop (S n) key.

(** [lockCall] once it has made the lock. *)
Definition lockCall_run (key : string) : LM unit :=
  c ← claim key;
  match c with
  | None => mret tt
  | Some c =>
      if lc_callback c =? 0 then mret tt
      else
        failed ← call_next key c;
        when failed (onCallbackComplete key);;
        release_tsfn (lc_callback c)
  end.

Definition lockCall (env : Z) (key : string) (callback : js_arg) (deferred : option Z) (owner : Z) : LM unit :=
  isNewLock ← lockEnqueueCallback env key callback owner false deferred;
  if negb isNewLock then mret tt else lockCall_run key.

Definition lockExistsByKey (key : string) : LM bool :=
  found ← find_lock key; mret (match found with Some _ => true | None => false end).

(** Tell the functions of the release, one after the other. *)
Fixpoint call_released (fs : list Z) : LM unit :=
  match fs with
  | [] => mret tt
  | f :: fs =>
      status ← call_tsfn f None;
      (match status with napi_closing => mret tt | _ => release_tsfn f end);;
      call_released fs
  end.

(** The critical section of [lockReleaseByKey]: the lock goes, with its queue. *)
Definition take_lock (key : string) : LM (option (list Z)) :=
  found ← find_lock key;
  match found with
  | None => mret None
  | Some handle => erase_lock key;; mret (Some (map lc_callback (threadsafeCallbacks handle)))
  end.

Definition lockReleaseByKey (key : string) : LM bool :=
  taken ← take_lock key;
  match taken with
  | None => mret false
  | Some fs => call_released fs;; mret true
  end.

(** [std::set<napi_threadsafe_function>::insert] *)
Fixpoint fset_insert (f : Z) (fs : list Z) : list Z :=
  match fs with
  | [] => [f]
  | g :: fs' => if f <? g then f :: fs else if f =? g then fs else g :: fset_insert f fs'
  end.

(** [!lockOwner || lockOwner.get() == owner] *)
Definition owned_by (owner : Z) (handles : list Z) (h : LockHandle) : bool :=
  negb (bool_decide (lh_owner h ∈ handles)) || (lh_owner h =? owner).

(** The critical section of [lockReleaseByOwner]. *)
Definition take_owned (owner : Z) : LM (list Z) :=
  s ← get;
  let gone := filter (fun kh => owned_by owner (lk_handles s) kh.2 = true) (lk_locks s) in
  let fs := foldr fset_insert [] (map lc_callback (flat_map (fun kh => threadsafeCallbacks kh.2) (map_to_list gone))) in
  modify (set_lk_locks (filter (fun kh => owned_by owner (lk_handles s) kh.2 = false) (lk_locks s)));;
  mret fs.

Definition lockReleaseByOwner (owner : Z) : LM unit :=
  fs ← take_owned owner;
  call_released fs.

(** ** Running a callback *)

(** How the N-API calls of one [callJsCallback] turn out. *)
Record js_run := mkJsRun {
  jr_env : bool;                  (* env and jsCallback are not null *)
  jr_create_completion : bool;
  jr_get_global : bool;
  jr_promise_ctor : bool;
  jr_instanceof : bool;
  jr_get_then : bool;
  jr_create_resolve : bool;
  jr_create_reject : bool;
  jr_call_then : bool;
}.

(** What the JavaScript function did. *)
Inductive js_result := Threw | Returned (isPromise : bool).

(** Up to [napi_call_function]: is the function called? *)
Definition callJs_enter (r : js_run) (data : option Z) : LM bool :=
  if negb (jr_env r) then mret false
  else
    match data with
    | None => mret (jr_get_global r)
    | Some p =>
        share p;;
        if negb (jr_create_completion r) then delete_data p;; unshare p;; mret false
        else if negb (jr_get_global r) then delete_data p;; unshare p;; mret false
        else mret true
    end.

(** [if (auto desc = callbackData->descriptor.lock()) desc->onCallbackComplete(...)] *)
Definition complete_for (p : Z) : LM unit :=
  d ← deref p;
  alive ← gets lk_alive;
  when alive (onCallbackComplete (cd_key d)).

Definition settle_deferred (c : Z -> napi_call) (d : LockCallbackCompletionData) : LM unit :=
  match cd_deferred d with Some df => record_call (c df) | None => mret tt end.

(** What is left of [callJsCallback] after the function returned; true when the
    completion is left to a promise. *)
Definition callJs_return (r : js_run) (result : js_result) (p : Z) : LM bool :=
  let bail := complete_for p;; delete_data p;; unshare p;; mret false in
  match result with
  | Threw => bail
  | Returned isPromise =>
      if negb (jr_promise_ctor r) then bail
      else if negb (jr_instanceof r) then bail
      else if negb isPromise then
        d ← deref p; settle_deferred ResolveDeferred d;;
        complete_for p;; unshare p;; mret false
      else if negb (jr_get_then r) then bail
      else
        share p;;
        if negb (jr_create_resolve r) then complete_for p;; unshare p;; unshare p;; mret false
        else
          share p;;
          if negb (jr_create_reject r && jr_call_then r) then
            complete_for p;; unshare p;; unshare p;; unshare p;; mret false
          else unshare p;; mret true
  end.

(** The resolve callback of the promise. *)
Definition promise_resolved (p : Z) : LM unit :=
  d ← deref p;
  alive ← gets lk_alive;
  put_data p (set_cd_completed true d);;
  when (negb (cd_completed d) && alive)
    (settle_deferred ResolveDeferred d;; onCallbackComplete (cd_key d));;
  unshare p.

(** The reject callback of the promise. *)
Definition promise_rejected (p : Z) : LM unit :=
  d ← deref p;
  alive ← gets lk_alive;
  when alive (settle_deferred RejectDeferred d;; onCallbackComplete (cd_key d));;
  unshare p.

(** ** The methods of the database *)

Definition HasLock (key : string) : LM bool := lockExistsByKey key.

Definition TryLock (env : Z) (key : string) (callback : js_arg) (owner : Z) : LM bool :=
  lockEnqueueCallback env key callback owner true None.

Definition Unlock (key : string) : LM bool := lockReleaseByKey key.

Definition WithLock (opened : bool) (env : Z) (key : string) (callback : js_arg) (deferred owner : Z) : LM unit :=
  if negb opened then record_call (RejectDeferred deferred)
  else
    match callback with
    | NotFunction => record_call (RejectDeferred deferred)
    | _ => lockCall env key callback (Some deferred) owner
    end.
End Operations.
