(* ===== verification/LocksSystem.v ===== *)
(** * Key locks under concurrency

    The threads of a process that use the locks of one descriptor, as a system of
    atomic steps: each critical section of [locksMutex], each call of the runtime,
    the JavaScript functions and the promises they return, in every order. *)

From S2P Require Import Prelude Locks.
From stdpp Require Import base tactics list gmap strings relations.
From Stdlib Require Import ZArith Lia.

Local Open Scope Z_scope.

Section System.
Context {NA : Napi}.

(** ** [onCallbackComplete] returns *)

Definition lift_call (f : Z) (data : option Z) (s : Locks) : Locks :=
  let st := tsfn_status (lk_calls s) f in
  mkLocks (lk_locks s) (lk_alive s) (lk_handles s) (lk_data s) (lk_next s) (lk_calls s ++ [CallTsfn f data st])
    (match st with napi_ok => lk_events s ++ [(f, data)] | _ => lk_events s end).

Lemma call_tsfn_run f data s : call_tsfn f data s = (inr (tsfn_status (lk_calls s) f), lift_call f data s).
Proof. unfold call_tsfn, record_call, lift_call. mrun. destruct s. simpl. by destruct (tsfn_status _ f). Qed.

(** The state [call_next] leaves. *)
Definition after_call (key : string) (c : LockCallback) (s : Locks) : Locks :=
  let st := tsfn_status (lk_calls s) (lc_callback c) in
  let p := lk_next s in
  mkLocks (lk_locks s) (lk_alive s) (lk_handles s)
    (<[p := mkCompletionData key (lc_deferred c) false (negb (call_failed st)) 0]> (lk_data s))
    (p + 1) (lk_calls s ++ [CallTsfn (lc_callback c) (Some p) st])
    (match st with napi_ok => lk_events s ++ [(lc_callback c, Some p)] | _ => lk_events s end).

Lemma call_next_run key c s :
  call_next key c s = (inr (call_failed (tsfn_status (lk_calls s) (lc_callback c))), after_call key c s).
Proof.
  unfold call_next, new_data, put_data.
  rewrite (bind_run _ _ s (lk_next s)
    (set_lk_next (lk_next s + 1) (set_lk_data (<[lk_next s := mkCompletionData key (lc_deferred c) false true 0]> (lk_data s)) s))) by done.
  erewrite bind_run by apply call_tsfn_run. unfold after_call, lift_call. destruct s as [L al H D n calls E]. simpl.
  destruct (tsfn_status calls (lc_callback c)) eqn:Hst; simpl; mrun; simpl; [done..|].
  unfold delete_data, deref, put_data. mrun. simpl. rewrite lookup_insert_eq. simpl.
  unfold set_lk_data, set_cd_live. simpl. by rewrite insert_insert_eq.
Qed.

(** Mark a key complete, and take its next callback. *)
Lemma mark_complete_run key s :
  mark_complete key s =
  match lk_locks s !! key with
  | Some h => (inr true, set_lk_locks (<[key := set_isRunning false h]> (lk_locks s)) s)
  | None => (inr false, s)
  end.
Proof. unfold mark_complete, find_lock, put_lock. mrun. by destruct (lk_locks s !! key). Qed.

Lemma claim_run key s :
  claim key s =
  match lk_locks s !! key with
  | Some (mkLockHandle q o false env) =>
      match q with
      | [] => (inr None, set_lk_locks (delete key (lk_locks s)) s)
      | c :: rest => (inr (Some c), set_lk_locks (<[key := mkLockHandle rest o true env]> (lk_locks s)) s)
      end
  | _ => (inr None, s)
  end.
Proof.
  unfold claim, find_lock, put_lock, erase_lock. mrun. destruct (lk_locks s !! key) as [[q o [] env]|] eqn:Hh; simpl; [done| |done].
  destruct q as [|c q]; simpl; [|done]. unfold set_lk_locks. simpl. by rewrite delete_insert_eq.
Qed.

(** The calls for callbacks that the runtime refuses, with data from [p] on. *)
Fixpoint refusals (p : Z) (cs : list LockCallback) : list napi_call :=
  match cs with
  | [] => []
  | c :: cs => CallTsfn (lc_callback c) (Some p) napi_failed :: refusals (p + 1) cs
  end.

(** What firing the next callback of [key] does with the handle [h].  The runtime
    refuses the functions of [skipped], in order.  When no other is left the lock
    is removed.  Otherwise the next function is called and the lock is marked as
    its own: with [napi_ok] it is queued to run with its completion data; with
    [napi_closing] it is not, and the lock stays marked with nobody to release it.
    The functions are released on the way back. *)
Definition fired (key : string) (h : LockHandle) (s s' : Locks) : Prop :=
  exists skipped rest, threadsafeCallbacks h = skipped ++ rest /\
    let refused := refusals (lk_next s) skipped in
    let released := rev (map (fun c => ReleaseTsfn (lc_callback c)) skipped) in
    let p := lk_next s + Z.of_nat (length skipped) in
    match rest with
    | [] => lk_locks s' !! key = None /\ lk_calls s' = lk_calls s ++ refused ++ released /\ lk_events s' = lk_events s
    | c :: rest' =>
        lk_locks s' !! key = Some (mkLockHandle rest' (lh_owner h) true (lh_env h)) /\
        exists st, lk_calls s' = lk_calls s ++ refused ++ [CallTsfn (lc_callback c) (Some p) st; ReleaseTsfn (lc_callback c)] ++ released /\
          (st = napi_ok /\ lk_events s' = lk_events s ++ [(lc_callback c, Some p)] \/
           st = napi_closing /\ lk_events s' = lk_events s)
    end.

(** One refused callback before the others. *)
Lemma fired_cons key h c q s1 s2 s3 :
  threadsafeCallbacks h = c :: q ->
  lk_calls s2 = lk_calls s1 ++ [CallTsfn (lc_callback c) (Some (lk_next s1)) napi_failed] ->
  lk_next s2 = lk_next s1 + 1 -> lk_events s2 = lk_events s1 ->
  fired key (mkLockHandle q (lh_owner h) true (lh_env h)) s2 s3 ->
  fired key h s1 (set_lk_calls (lk_calls s3 ++ [ReleaseTsfn (lc_callback c)]) s3).
Proof.
  intros Hq Hc Hn He (sk & rest & Hqr & Hf). simpl in Hqr. exists (c :: sk), rest. split; [by rewrite Hq, Hqr|].
  rewrite Hn in Hf. rewrite He in Hf. cbn [refusals map rev length].
  replace (lk_next s1 + Z.of_nat (S (length sk))) with (lk_next s1 + 1 + Z.of_nat (length sk)) by lia.
  destruct rest as [|c' rest]; simpl in *.
  - destruct Hf as (Hl & Hcs & Hev). split_and!; [done| |done]. rewrite Hcs, Hc, <- !app_assoc. done.
  - destruct Hf as (Hl & st & Hcs & Hst). split; [done|]. exists st. split; [|done]. rewrite Hcs, Hc, <- !app_assoc. done.
Qed.

(** What firing keeps besides. *)
Definition fire_frame (key : string) (s s' : Locks) : Prop :=
  lk_alive s' = lk_alive s /\ forall k, k <> key -> lk_locks s' !! k = lk_locks s !! k.

Lemma complete_loop_fires n key s h :
  lk_locks s !! key = Some h -> (length (threadsafeCallbacks h) <= n)%nat ->
  exists s', complete_loop (S n) key s = (inr tt, s') /\ fired key h s s' /\ fire_frame key s s'.
Proof.
  revert s h. induction n as [|n IH]; intros s h Hh Hn; destruct h as [q o run env]; simpl in Hn; cbn [complete_loop];
    pose (s0 := set_lk_locks (<[key := mkLockHandle q o false env]> (lk_locks s)) s);
    (rewrite (bind_run _ _ s true s0) by (by rewrite mark_complete_run, Hh)); cbn [negb];
    pose proof (claim_run key s0) as Hcl; simpl in Hcl; rewrite lookup_insert_eq in Hcl; (destruct q as [|c q]; [|try (simpl in Hn; lia)]).
  1,2: rewrite (bind_run _ _ _ _ _ Hcl); eexists; split; [reflexivity|]; split.
  1,3: exists [], []; (split; [done|]); cbv zeta iota; simpl; split_and!; [by rewrite lookup_delete_eq|by rewrite app_nil_r|done].
  1,2: split; [done|]; intros k Hk; simpl; by rewrite lookup_delete_ne, lookup_insert_ne by done.
  set (s1 := set_lk_locks (<[key := mkLockHandle q o true env]> (lk_locks s)) s).
  rewrite (bind_run _ _ _ (Some c) s1) by (rewrite Hcl; unfold s1, s0, set_lk_locks; simpl; by rewrite insert_insert_eq).
  rewrite (bind_run _ _ _ _ _ (call_next_run key c s1)). set (s2 := after_call key c s1).
  assert (Hg : fire_frame key s s2).
  { split; [done|]. intros k Hk. simpl. by rewrite lookup_insert_ne. }
  destruct (tsfn_status (lk_calls s1) (lc_callback c)) eqn:Hst; simpl call_failed; cbv iota; change (lk_calls s1) with (lk_calls s) in Hst.
  3: { destruct (IH s2 (mkLockHandle q o true env)) as (s3 & Hrun & Hfired & Hal & Hl3); [apply lookup_insert_eq|simpl in *; lia|].
    unfold when. rewrite (bind_run _ _ _ _ _ Hrun). eexists. split; [reflexivity|]. destruct Hg as (Hal2 & Hl2). split.
    - apply (fired_cons key (mkLockHandle (c :: q) o run env) c q s s2 s3); [done| | | |done]; unfold s2, after_call; simpl; by rewrite ?Hst.
    - split; [simpl; congruence|]. intros k Hk. simpl. by rewrite Hl3, Hl2. }
  all: unfold when; rewrite (bind_run _ _ s2 tt s2) by done; eexists; (split; [reflexivity|]); (split; [|exact Hg]).
  all: exists [], (c :: q); split; [done|]; split; [simpl; by rewrite lookup_insert_eq|]; simpl; rewrite Z.add_0_r; eexists.
  all: (split; [unfold s2, after_call; simpl; rewrite Hst; simpl; by rewrite <- app_assoc|]); unfold s2, after_call; simpl; rewrite Hst; auto.
Qed.

(** C19: completing a lock callback returns and hands the lock on, for every answer
    of the runtime.  [onCallbackComplete] ends, throws nothing and follows no deleted
    pointer.  The functions that the runtime refuses are skipped in order.  Then one
    of three things has happened: no callback is left and the lock is removed; the
    next function is queued to run and has the lock; or the runtime answered
    [napi_closing] for it, and then it is neither run nor skipped and the key stays
    locked ([closing_blocks_key]).  Without a lock nothing is done, and no other key
    is touched. *)
Theorem complete_hands_over key s :
  exists s', onCallbackComplete key s = (inr tt, s') /\
    (forall k, k <> key -> lk_locks s' !! k = lk_locks s !! k) /\
    match lk_locks s !! key with Some h => fired key h s s' | None => s' = s end.
Proof.
  unfold onCallbackComplete. rewrite (bind_run _ _ s (length (waiting key s)) s) by done. unfold waiting.
  destruct (lk_locks s !! key) as [h|] eqn:Hh; simpl.
  - destruct (complete_loop_fires _ key s h Hh (Nat.le_refl _)) as (s' & Hrun & Hf & _ & Hl). by exists s'.
  - exists s. split; [|done]. unfold mark_complete, find_lock. mrun. by rewrite Hh.
Qed.

(** ** Threads

    The atomic actions a thread still has to make inside the operations, with the
    mutex released between any two of them. *)

Inductive cmd :=
| CFirst (key : string)                     (* lockCall after it made the lock *)
| CMark (key : string)                      (* onCallbackComplete, first half *)
| CClaim (key : string)                     (* its second half *)
| CCall (key : string) (c : LockCallback)   (* the mutex is released, the function is next *)
| CRelease (f : Z)
| CTell (f : Z)                             (* tell a waiting callback of the release *)
| CComplete (p : Z)
| CResolve (p : Z)
| CDelete (p : Z)
| CShare (p : Z)
| CUnshare (p : Z)
| CResolved (p : Z)                         (* the promise callbacks *)
| CRejected (p : Z).

(** One action, and the actions it leads to. *)
Definition exec (c : cmd) : LM (list cmd) :=
  match c with
  | CFirst key =>
      c ← claim key;
      mret (match c with Some c => if lc_callback c =? 0 then [] else [CCall key c] | None => [] end)
  | CMark key => found ← mark_complete key; mret (if found : bool then [CClaim key] else [])
  | CClaim key => c ← claim key; mret (match c with Some c => [CCall key c] | None => [] end)
  | CCall key c =>
      failed ← call_next key c;
      mret (if failed : bool then [CMark key; CRelease (lc_callback c)] else [CRelease (lc_callback c)])
  | CRelease f => release_tsfn f;; mret []
  | CTell f =>
      status ← call_tsfn f None;
      mret (match status with napi_closing => [] | _ => [CRelease f] end)
  | CComplete p =>
      d ← deref p; alive ← gets lk_alive; mret (if alive : bool then [CMark (cd_key d)] else [])
  | CResolve p => d ← deref p; settle_deferred ResolveDeferred d;; mret []
  | CDelete p => delete_data p;; mret []
  | CShare p => share p;; mret []
  | CUnshare p => unshare p;; mret []
  | CResolved p =>
      d ← deref p; alive ← gets lk_alive;
      put_data p (set_cd_completed true d);;
      when (negb (cd_completed d) && alive) (settle_deferred ResolveDeferred d);;
      mret ((if negb (cd_completed d) && alive then [CMark (cd_key d)] else []) ++ [CUnshare p])
  | CRejected p =>
      d ← deref p; alive ← gets lk_alive;
      when alive (settle_deferred RejectDeferred d);;
      mret ((if alive : bool then [CMark (cd_key d)] else []) ++ [CUnshare p])
  end.

(** What a thread does after the JavaScript function returned, and whether a
    promise has the completion then. *)
Definition return_cmds (r : js_run) (result : js_result) (p : Z) : list cmd * bool :=
  let bail := ([CComplete p; CDelete p; CUnshare p], false) in
  match result with
  | Threw => bail
  | Returned isPromise =>
      if negb (jr_promise_ctor r) then bail
      else if negb (jr_instanceof r) then bail
      else if negb isPromise then ([CResolve p; CComplete p; CUnshare p], false)
      else if negb (jr_get_then r) then bail
      else if negb (jr_create_resolve r) then ([CShare p; CComplete p; CUnshare p; CUnshare p], false)
      else if negb (jr_create_reject r && jr_call_then r) then
        ([CShare p; CShare p; CComplete p; CUnshare p; CUnshare p; CUnshare p], false)
      else ([CShare p; CShare p; CUnshare p], true)
  end.

(** Run the actions of one thread alone. *)
Inductive run_alone : list cmd -> Locks -> Locks -> Prop :=
| alone_done s : run_alone [] s s
| alone_step c cs cs' s s1 s2 : exec c s = (inr cs', s1) -> run_alone (cs' ++ cs) s1 s2 -> run_alone (c :: cs) s s2.

Lemma alone_app cs1 cs2 s s1 s2 : run_alone cs1 s s1 -> run_alone cs2 s1 s2 -> run_alone (cs1 ++ cs2) s s2.
Proof. induction 1 as [|c cs cs' s s1' s2' Hx _ IH]; intros H2; simpl; [done|]. econstructor; [exact Hx|]. rewrite app_assoc. by apply IH. Qed.

(** A step that leads to [cs'], then the rest. *)
Lemma alone_then {A} (m : LM A) (f : A -> list cmd) c s a s1 s2 :
  exec c = (x ← m; mret (f x)) -> m s = (inr a, s1) -> run_alone (f a) s1 s2 -> run_alone [c] s s2.
Proof. intros Hc Hm Hr. econstructor; [rewrite Hc, (bind_run m _ s a s1 Hm); reflexivity|]. by rewrite app_nil_r. Qed.

Lemma complete_alone n key s s' : complete_loop n key s = (inr tt, s') -> run_alone [CMark key] s s'.
Proof.
  revert s s'. induction n as [|n IH]; intros s s'; cbn [complete_loop]; [done|]. intros (found & s1 & Hm & Hrun)%bind_inv.
  eapply alone_then; [reflexivity|exact Hm|]. destruct found; [|injection Hrun as <-; constructor].
  apply bind_inv in Hrun as (c & s2 & Hc & Hrun). eapply alone_then; [reflexivity|exact Hc|].
  destruct c as [c|]; [|injection Hrun as <-; constructor].
  apply bind_inv in Hrun as (failed & s3 & Hf & Hrun). eapply alone_then; [reflexivity|exact Hf|].
  apply bind_inv in Hrun as ([] & s4 & Hw & Hrun).
  assert (Hrel : run_alone [CRelease (lc_callback c)] s4 s') by (eapply alone_then; [reflexivity|exact Hrun|]; constructor).
  destruct failed; simpl in Hw; [|by injection Hw as ->].
  exact (alone_app [CMark key] _ _ _ _ (IH _ _ Hw) Hrel).
Qed.

Lemma complete_for_alone p s s' : complete_for p s = (inr tt, s') -> run_alone [CComplete p] s s'.
Proof.
  intros (d & s1 & Hd & (alive & s2 & Ha & Hrun)%bind_inv)%bind_inv. econstructor.
  { simpl. rewrite (bind_run _ _ _ _ _ Hd), (bind_run _ _ _ _ _ Ha). reflexivity. }
  rewrite app_nil_r. destruct alive; [|injection Hrun as <-; constructor].
  apply bind_inv in Hrun as (n & s3 & Hn & Hrun). injection Hn as <- <-. by eapply complete_alone.
Qed.

Lemma unit_alone (m : LM unit) c s s' : exec c = (m;; mret []) -> m s = (inr tt, s') -> run_alone [c] s s'.
Proof. intros Hc Hm. apply (alone_then m (fun _ => []) c s tt s' s' Hc Hm). constructor. Qed.

Definition alone (m : LM unit) (c : cmd) : Prop := forall s s', m s = (inr tt, s') -> run_alone [c] s s'.

Lemma alone_seq {B} (m : LM unit) c (k : LM B) cs s (b : B) s' :
  (m;; k) s = (inr b, s') -> alone m c -> (forall s1, k s1 = (inr b, s') -> run_alone cs s1 s') -> run_alone (c :: cs) s s'.
Proof. intros ([] & s1 & Hm & Hk)%bind_inv Hc Hcs. apply (alone_app [c] cs s s1); [by apply Hc|by apply Hcs]. Qed.

Lemma alone_ret {B} (b b' : B) s s' : (mret b : LM B) s = (inr b', s') -> run_alone [] s s'.
Proof. intros [= _ <-]. constructor. Qed.

Lemma alone_complete p : alone (complete_for p) (CComplete p).
Proof. exact (complete_for_alone p). Qed.
Lemma alone_delete p : alone (delete_data p) (CDelete p).
Proof. intros s s'. by apply unit_alone. Qed.
Lemma alone_share p : alone (share p) (CShare p).
Proof. intros s s'. by apply unit_alone. Qed.
Lemma alone_unshare p : alone (unshare p) (CUnshare p).
Proof. intros s s'. by apply unit_alone. Qed.

Lemma alone_resolve p : alone (d ← deref p; settle_deferred ResolveDeferred d) (CResolve p).
Proof.
  intros s s' (d & s1 & Hd & Hs)%bind_inv. apply (alone_step _ _ [] s s' s'); [|constructor].
  simpl. by rewrite (bind_run _ _ _ _ _ Hd), (bind_run _ _ _ _ _ Hs).
Qed.

Lemma bind_assoc {A B C} (m : LM A) (f : A -> LM B) (g : LM C) s : (a ← m; f a;; g) s = ((a ← m; f a);; g) s.
Proof. unfold mbind, M_bind. by destruct (m s) as [[e|a] s1]. Qed.

(** Alone, a thread does after the JavaScript function what [callJsCallback] does. *)
Lemma return_alone r result p s b s' :
  callJs_return r result p s = (inr b, s') -> b = (return_cmds r result p).2 /\ run_alone (return_cmds r result p).1 s s'.
Proof.
  unfold callJs_return, return_cmds.
  destruct result as [|isPromise]; [|destruct (jr_promise_ctor r), (jr_instanceof r), isPromise, (jr_get_then r),
    (jr_create_resolve r), (jr_create_reject r && jr_call_then r)]; cbn [negb fst snd]; intros Hrun; try rewrite (bind_assoc (deref p)) in Hrun.
  all: split; [repeat apply bind_inv in Hrun as (? & ? & _ & Hrun); by injection Hrun as <- _|].
  all: repeat (eapply alone_seq; [exact Hrun|first [apply alone_complete|apply alone_delete|apply alone_share|apply alone_unshare|apply alone_resolve]|];
    clear Hrun; intros ? Hrun).
  all: by eapply alone_ret.
Qed.

(** Alone, a thread that took a lock from the map tells its callbacks as
    [lockReleaseByKey] and [lockReleaseByOwner] do. *)
Lemma released_alone fs s s' : call_released fs s = (inr tt, s') -> run_alone (map CTell fs) s s'.
Proof.
  revert s. induction fs as [|f fs IH]; intros s; cbn [call_released map]; [intros [= <-]; constructor|].
  intros (st & s1 & Hc & ([] & s2 & Hrel & Hrun)%bind_inv)%bind_inv. econstructor.
  { simpl. rewrite (bind_run _ _ _ _ _ Hc). reflexivity. }
  destruct st; [|injection Hrel as ->; by apply IH|]; (econstructor; [simpl; rewrite (bind_run _ _ _ _ _ Hrel); reflexivity|by apply IH]).
Qed.

Lemma unlock_alone key s s' :
  lockReleaseByKey key s = (inr true, s') -> exists fs s1, take_lock key s = (inr (Some fs), s1) /\ run_alone (map CTell fs) s1 s'.
Proof.
  intros (o & s1 & Ht & Hrun)%bind_inv. destruct o as [fs|]; [|done]. apply bind_inv in Hrun as ([] & s2 & Hc & [= <-]).
  exists fs, s1. split; [done|]. by apply released_alone.
Qed.

Lemma close_alone owner s s' :
  lockReleaseByOwner owner s = (inr tt, s') -> exists fs s1, take_owned owner s = (inr fs, s1) /\ run_alone (map CTell fs) s1 s'.
Proof. intros (fs & s1 & Ht & Hrun)%bind_inv. exists fs, s1. split; [done|]. by apply released_alone. Qed.

(** ** The system *)

(** What happens to the callbacks of a key. *)
Inductive label :=
| Asked (key : string) (f : Z)      (* queued on the lock *)
| Started (key : string) (f : Z)    (* its JavaScript function is called with the lock *)
| Lost (key : string) (f : Z)       (* the runtime did not run it *)
| Freed (key : string)              (* the lock was released by unlock or with its owner *)
| Told (f : Z).                     (* called after a release, without the lock *)

(** The duty to complete a lock: it is handed from the thread that made the lock
    to the runtime, the JavaScript function, its promise, and the thread that
    fires the next callback. *)
Inductive token :=
| Tclaim (key : string)             (* about to take the next callback *)
| Tmark (key : string)
| Tcall (key : string) (f : Z)      (* about to call the function *)
| Tevent (f p : Z)                  (* queued in the runtime *)
| Tdata (p : Z).                    (* running, or with its promise *)

Definition tok_data (t : token) : option Z :=
  match t with Tevent _ p | Tdata p => Some p | _ => None end.

(** The key a duty is for. *)
Definition tok_key (s : Locks) (t : token) : option string :=
  match t with
  | Tclaim key | Tmark key | Tcall key _ => Some key
  | Tevent _ p | Tdata p => cd_key <$> lk_data s !! p
  end.

(** A callback that left the queue and has not run. *)
Definition tok_fn (t : token) : list Z :=
  match t with Tcall _ f | Tevent f _ => [f] | _ => [] end.

Definition cmd_tok (c : cmd) : list token :=
  match c with
  | CFirst key | CClaim key => [Tclaim key]
  | CMark key => [Tmark key]
  | CCall key c => [Tcall key (lc_callback c)]
  | CComplete p | CResolved p | CRejected p => [Tdata p]
  | _ => []
  end.

Definition ev_tok (e : Z * option Z) : list token :=
  match e with (f, Some p) => [Tevent f p] | (_, None) => [] end.

Record lk_sys := mkLkSys {
  y_st : Locks;
  y_threads : list (list cmd);
  y_running : list Z;               (* JavaScript functions that run, by completion data *)
  y_promises : list Z;              (* promises that will complete *)
  y_held : list string;             (* locks that tryLock took *)
  y_stuck : list string;            (* locks whose callback the runtime dropped *)
  y_early : list string;            (* keys released while a callback was under way *)
  y_trace : list label;
}.

Definition toks (y : lk_sys) : list token :=
  flat_map (flat_map cmd_tok) (y_threads y) ++ flat_map ev_tok (lk_events (y_st y)) ++
  map Tdata (y_running y) ++ map Tdata (y_promises y).

(** The duties for [key]. *)
Definition drivers (s : Locks) (key : string) (X : list token) : list token :=
  filter (fun t => tok_key s t = Some key) X.

Definition asked_label (key : string) (callback : js_arg) : list label :=
  match callback with Function (Some f) => [Asked key f] | _ => [] end.

Definition valid_arg (callback : js_arg) : Prop := callback <> Function (Some 0).

(** What the runtime's answer to a call means for the callback. *)
Definition exec_label (c : cmd) (s : Locks) : list label :=
  match c with
  | CCall key c => match tsfn_status (lk_calls s) (lc_callback c) with napi_ok => [] | _ => [Lost key (lc_callback c)] end
  | CTell f => [Told f]
  | _ => []
  end.
Definition exec_stuck (c : cmd) (s : Locks) : list string :=
  match c with
  | CCall key c => match tsfn_status (lk_calls s) (lc_callback c) with napi_closing => [key] | _ => [] end
  | _ => []
  end.

Definition without (key : string) (l : list string) : list string := filter (fun k => k <> key) l.

(** The keys whose locks the end of a handle releases. *)
Definition released_keys (owner : Z) (s : Locks) : list string :=
  (map_to_list (filter (fun kh => owned_by owner (lk_handles s) kh.2 = true) (lk_locks s))).*1.

(** [key], when a callback of it is under way. *)
Definition early (s : Locks) (X : list token) (key : string) : list string :=
  match drivers s key X with [] => [] | _ => [key] end.

(** Every step of the code, in any order.  A release takes the lock from the map at
    once and then tells the callbacks one by one; [y_early] keeps the keys that were
    released while a callback of theirs was under way. *)
Inductive lk_step : lk_sys -> lk_sys -> Prop :=
| step_with s T R P H K Y tr env key callback deferred owner isNew s' :
    lk_alive s = true -> valid_arg callback ->
    lockEnqueueCallback env key callback owner false (Some deferred) s = (inr isNew, s') ->
    lk_step (mkLkSys s T R P H K Y tr)
      (mkLkSys s' (if isNew : bool then [CFirst key] :: T else T) R P H K Y (tr ++ asked_label key callback))
| step_try s T R P H K Y tr env key callback owner isNew s' :
    lk_alive s = true -> valid_arg callback ->
    TryLock env key callback owner s = (inr isNew, s') ->
    lk_step (mkLkSys s T R P H K Y tr)
      (mkLkSys s' T R P (if isNew : bool then key :: H else H) K Y (tr ++ if isNew then [] else asked_label key callback))
| step_exec s T T' R P H K Y tr c cs cs' s' :
    T ≡ₚ (c :: cs) :: T' -> exec c s = (inr cs', s') ->
    lk_step (mkLkSys s T R P H K Y tr)
      (mkLkSys s' ((cs' ++ cs) :: T') R P H (exec_stuck c s ++ K) Y (tr ++ exec_label c s))
| step_start s T R P H K Y tr E1 E2 f p d r s' :
    lk_events s = E1 ++ (f, Some p) :: E2 -> lk_data s !! p = Some d ->
    callJs_enter r (Some p) (set_lk_events (E1 ++ E2) s) = (inr true, s') ->
    lk_step (mkLkSys s T R P H K Y tr) (mkLkSys s' T (p :: R) P H K Y (tr ++ [Started (cd_key d) f]))
| step_drop s T R P H K Y tr E1 E2 f p d r s' :
    lk_events s = E1 ++ (f, Some p) :: E2 -> lk_data s !! p = Some d ->
    callJs_enter r (Some p) (set_lk_events (E1 ++ E2) s) = (inr false, s') ->
    lk_step (mkLkSys s T R P H K Y tr) (mkLkSys s' T R P H (cd_key d :: K) Y (tr ++ [Lost (cd_key d) f]))
| step_told s T R P H K Y tr E1 E2 f r b s' :
    lk_events s = E1 ++ (f, None) :: E2 ->
    callJs_enter r None (set_lk_events (E1 ++ E2) s) = (inr b, s') ->
    lk_step (mkLkSys s T R P H K Y tr) (mkLkSys s' T R P H K Y tr)
| step_return s T R R' P H K Y tr p r result cs :
    R ≡ₚ p :: R' -> return_cmds r result p = (cs, false) ->
    lk_step (mkLkSys s T R P H K Y tr) (mkLkSys s (cs :: T) R' P H K Y tr)
| step_promise s T R R' P H K Y tr p r result s' :
    R ≡ₚ p :: R' -> callJs_return r result p s = (inr true, s') ->
    lk_step (mkLkSys s T R P H K Y tr) (mkLkSys s' T R' (p :: P) H K Y tr)
| step_settle s T R P P' H K Y tr p (resolved : bool) :
    P ≡ₚ p :: P' ->
    lk_step (mkLkSys s T R P H K Y tr)
      (mkLkSys s ([if resolved then CResolved p else CRejected p] :: T) R P' H K Y tr)
| step_unlock s T R P H K Y tr key fs s' :
    take_lock key s = (inr (Some fs), s') ->
    lk_step (mkLkSys s T R P H K Y tr)
      (mkLkSys s' (map CTell fs :: T) R P (without key H) (without key K)
        (early s (toks (mkLkSys s T R P H K Y tr)) key ++ Y) (tr ++ [Freed key]))
| step_close s T R P H K Y tr owner fs s' :
    take_owned owner s = (inr fs, s') ->
    lk_step (mkLkSys s T R P H K Y tr)
      (mkLkSys s' (map CTell fs :: T) R P (filter (fun k => k ∉ released_keys owner s) H) (filter (fun k => k ∉ released_keys owner s) K)
        (flat_map (early s (toks (mkLkSys s T R P H K Y tr))) (released_keys owner s) ++ Y) (tr ++ map Freed (released_keys owner s)))
| step_handles s T R P H K Y tr handles :
    lk_step (mkLkSys s T R P H K Y tr) (mkLkSys (set_lk_handles handles s) T R P H K Y tr)
| step_destroyed s T R P H K Y tr :
    lk_step (mkLkSys s T R P H K Y tr) (mkLkSys (set_lk_alive false s) T R P H K Y tr).

End System.
