(* ===== verification/LocksProofs.v ===== *)
(** * Key locks are exclusive and fair

    Over every interleaving of [LocksSystem], for a key that is not released while a
    callback of it is under way: one callback runs at a time, callbacks run in the
    order they were asked for, and none is left waiting for a lock that nobody has. *)

From S2P Require Import Prelude Locks LocksSystem.
From stdpp Require Import base tactics list gmap strings relations.
From Stdlib Require Import ZArith Lia.

Local Open Scope Z_scope.

(** What happened since the lock of [key] was last released by [unlock] or with its
    owner. *)
Definition frees (key : string) (l : label) : bool := match l with Freed k => String.eqb k key | _ => false end.
Definition since (key : string) (tr : list label) : list label :=
  foldl (fun acc l => if frees key l then [] else acc ++ [l]) [] tr.

(** The callbacks of [key] that were asked for since then, and those that are done
    with, in order. *)
Definition asks (key : string) (l : label) : list Z :=
  match l with Asked k f => if String.eqb k key then [f] else [] | _ => [] end.
Definition ends (key : string) (l : label) : list Z :=
  match l with Started k f | Lost k f => if String.eqb k key then [f] else [] | _ => [] end.
Definition asked (key : string) (tr : list label) : list Z := flat_map (asks key) (since key tr).
Definition gone (key : string) (tr : list label) : list Z := flat_map (ends key) (since key tr).

(** No release of [key] among the labels. *)
Definition calm (key : string) (ls : list label) : Prop := Forall (fun l => frees key l = false) ls.

Lemma since_from key acc tr :
  foldl (fun acc l => if frees key l then [] else acc ++ [l]) acc tr =
  (if decide (Forall (fun l => frees key l = false) tr) then acc else []) ++ since key tr.
Proof.
  revert acc. unfold since. induction tr as [|l tr IH]; intros acc; simpl; [by rewrite app_nil_r|]. destruct (frees key l) eqn:Hl.
  - rewrite decide_False by (intros Hf; inversion Hf; congruence). done.
  - rewrite (IH (acc ++ [l])), (IH [l]). destruct (decide (Forall _ tr)) as [Hf|Hf].
    + rewrite decide_True by (by constructor). by rewrite <- app_assoc.
    + rewrite decide_False by (by inversion 1). done.
Qed.

Lemma since_app key t1 t2 : calm key t2 -> since key (t1 ++ t2) = since key t1 ++ since key t2.
Proof. intros Hc. unfold since at 1. rewrite foldl_app, since_from. by rewrite decide_True. Qed.

Lemma asked_app key t1 t2 : calm key t2 -> asked key (t1 ++ t2) = asked key t1 ++ asked key t2.
Proof. intros Hc. unfold asked. by rewrite since_app, flat_map_app. Qed.
Lemma gone_app key t1 t2 : calm key t2 -> gone key (t1 ++ t2) = gone key t1 ++ gone key t2.
Proof. intros Hc. unfold gone. by rewrite since_app, flat_map_app. Qed.

(** Labels that neither ask nor end. *)
Lemma since_freed key ks tr :
  asked key (tr ++ map Freed ks) = (if decide (key ∈ ks) then [] else asked key tr) /\
  gone key (tr ++ map Freed ks) = (if decide (key ∈ ks) then [] else gone key tr).
Proof.
  assert (Hnil : flat_map (asks key) (since key (map Freed ks)) = [] /\ flat_map (ends key) (since key (map Freed ks)) = []).
  { unfold since. assert (Hg : forall acc, flat_map (asks key) acc = [] -> flat_map (ends key) acc = [] ->
      let l := foldl (fun acc l => if frees key l then [] else acc ++ [l]) acc (map Freed ks) in
      flat_map (asks key) l = [] /\ flat_map (ends key) l = []).
    { induction ks as [|k ks IH]; intros acc H1 H2; simpl; [done|]. destruct (String.eqb k key); apply IH; try done; by rewrite flat_map_app, ?H1, ?H2. }
    by apply Hg. }
  destruct Hnil as [Ha He]. unfold asked, gone. unfold since at 1 3. rewrite foldl_app, since_from.
  assert (Hd : Forall (fun l => frees key l = false) (map Freed ks) <-> key ∉ ks).
  { rewrite Forall_forall. split.
    - intros H Hin. specialize (H (Freed key)). simpl in H. rewrite String.eqb_refl in H. by discriminate H; apply list_elem_of_fmap; exists key.
    - intros Hout l (k & -> & Hk)%list_elem_of_fmap. simpl. apply String.eqb_neq. by intros ->. }
  rewrite !flat_map_app, Ha, He, !app_nil_r. destruct (decide (Forall _ _)) as [Hf|Hf], (decide (key ∈ ks)) as [Hk|Hk]; try done; tauto.
Qed.

Lemma drivers_app s key X Y : drivers s key (X ++ Y) = drivers s key X ++ drivers s key Y.
Proof. apply filter_app. Qed.

(** ** Lists of duties *)

#[global] Instance drivers_perm s key : Proper ((≡ₚ) ==> (≡ₚ)) (drivers s key).
Proof. intros X Y H. unfold drivers. by rewrite H. Qed.

Lemma drivers_all s key X : Forall (fun t => tok_key s t = Some key) X -> drivers s key X = X.
Proof. unfold drivers. induction 1 as [|t X Ht _ IH]; [done|]. rewrite filter_cons_True by done. by rewrite IH. Qed.

Lemma drivers_other s key k X : k <> key -> Forall (fun t => tok_key s t = Some key) X -> drivers s k X = [].
Proof. unfold drivers. intros Hne. induction 1 as [|t X Ht _ IH]; [done|]. rewrite filter_cons_False; [done|]. congruence. Qed.

(** ** The invariant *)

(** What holds of one key: at most one duty; while the descriptor lives, a lock
    has a duty unless [tryLock] holds it or the runtime dropped its callback, and
    none while [tryLock] holds it; a
    duty to take the next callback finds the lock free; the queued functions are
    not null; and the callbacks asked
    for are, in order, those done with, the one in flight, and those queued. *)
Definition key_ok (s : Locks) (key : string) (D : list token) (H K : list string) (tr : list label) : Prop :=
  (length D <= 1)%nat /\
  (lk_alive s = true ->
   match lk_locks s !! key with
   | None => D = [] /\ asked key tr = gone key tr /\ key ∉ H
   | Some h =>
       (D = [] -> key ∈ H \/ key ∈ K) /\ (key ∈ H -> D = []) /\ (Tclaim key ∈ D -> isRunning h = false) /\
       Forall (fun c => lc_callback c <> 0) (threadsafeCallbacks h) /\
       asked key tr = gone key tr ++ flat_map tok_fn D ++ map lc_callback (threadsafeCallbacks h)
   end).

(** The keys in [Y] were released while a callback was under way: nothing is said of
    them. *)
Section Invariant.
Variable Y : list string.

(** Completion data that a duty refers to exists and is not completed. *)
Definition data_ok (s : Locks) (t : token) : Prop :=
  forall p, tok_data t = Some p -> exists d, lk_data s !! p = Some d /\ (cd_key d ∉ Y -> cd_completed d = false).

Record good (s : Locks) (X : list token) (H K : list string) (tr : list label) : Prop := mkGood {
  g_fresh : forall p, lk_next s <= p -> lk_data s !! p = None;
  g_data : Forall (data_ok s) X;
  g_key : forall key, key ∉ Y -> key_ok s key (drivers s key X) H K tr;
}.

Lemma short_perm {A} (l l' : list A) : (length l <= 1)%nat -> l ≡ₚ l' -> l = l'.
Proof.
  destruct l as [|x [|y l]]; simpl; intros Hl Hp; [by apply Permutation_nil in Hp|by apply Permutation_length_1_inv in Hp|lia].
Qed.

Lemma good_perm s X X' H K tr : X ≡ₚ X' -> good s X H K tr -> good s X' H K tr.
Proof.
  intros HXY [Hf Hd Hk]. constructor; [done|by rewrite <- HXY|]. intros key. specialize (Hk key).
  intros Hny. specialize (Hk Hny). rewrite <- (short_perm (drivers s key X) (drivers s key X')); [done|apply Hk|by rewrite HXY].
Qed.

(** The data [s] has, [s'] has with the same keys. *)
Definition keys_kept (s s' : Locks) : Prop :=
  forall p d, lk_data s !! p = Some d -> exists d', lk_data s' !! p = Some d' /\ cd_key d' = cd_key d.

Lemma drivers_kept s s' key X : keys_kept s s' -> Forall (data_ok s) X -> drivers s' key X = drivers s key X.
Proof.
  intros Hk. induction 1 as [|t X Ht HX IH]; [done|]. unfold drivers in *.
  assert (Heq : tok_key s' t = tok_key s t).
  { destruct t as [| | |f p|p]; simpl; [done..| |]; destruct (Ht p eq_refl) as (d & Hd & _);
    destruct (Hk p d Hd) as (d' & Hd' & E); rewrite Hd, Hd'; simpl; by rewrite E. }
  rewrite !filter_cons, Heq. by rewrite IH.
Qed.

(** A step that concerns one key: the duties [old] become [new]. *)
Lemma good_step key s s' old new X H H' K K' tr tr' :
  good s (old ++ X) H K tr -> keys_kept s s' ->
  (forall p, lk_next s' <= p -> lk_data s' !! p = None) ->
  Forall (data_ok s') (new ++ X) ->
  (lk_alive s' = true -> lk_alive s = true) ->
  (forall k, k <> key -> lk_locks s' !! k = lk_locks s !! k) ->
  Forall (fun t => tok_key s t = Some key) old -> Forall (fun t => tok_key s' t = Some key) new ->
  (forall k, k <> key -> (k ∈ H <-> k ∈ H') /\ (k ∈ K -> k ∈ K') /\ asked k tr' = asked k tr /\ gone k tr' = gone k tr) ->
  (key ∉ Y -> key_ok s key (old ++ drivers s key X) H K tr -> key_ok s' key (new ++ drivers s key X) H' K' tr') ->
  good s' (new ++ X) H' K' tr'.
Proof.
  intros [Hf Hd Hk] Hkept Hf' Hd' Halive Hlocks Hold Hnew Hframe Hkey. constructor; [done|done|]. intros k Hny.
  assert (HX : Forall (data_ok s) X) by (by apply Forall_app in Hd as [_ ?]).
  specialize (Hk k Hny). rewrite drivers_app in *. rewrite (drivers_kept s s' k X Hkept HX). destruct (decide (k = key)) as [->|Hne].
  - rewrite (drivers_all s key old Hold) in Hk. rewrite (drivers_all s' key new Hnew). auto.
  - rewrite (drivers_other s key k old Hne Hold) in Hk. rewrite (drivers_other s' key k new Hne Hnew).
    simpl in *. destruct (Hframe k Hne) as (HH & HK & Ha & Hg). destruct Hk as [Hlen Hk]. split; [done|].
    intros Hal. specialize (Hk (Halive Hal)). rewrite Hlocks by done. destruct (lk_locks s !! k); rewrite Ha, Hg, <- HH; [|done].
    destruct Hk as (H1 & H2). split; [|done]. intros HD. destruct (H1 HD); [left|right]; auto.
Qed.

(** ** Steps that only touch completion data *)

Definition same_data (d d' : option LockCallbackCompletionData) : Prop :=
  match d, d' with
  | Some d, Some d' => cd_key d' = cd_key d /\ cd_completed d' = cd_completed d
  | None, None => True
  | _, _ => False
  end.

Definition quiet (s s' : Locks) : Prop :=
  lk_locks s' = lk_locks s /\ lk_next s' = lk_next s /\ (lk_alive s' = true -> lk_alive s = true) /\
  lk_events s' = lk_events s /\ forall p, same_data (lk_data s !! p) (lk_data s' !! p).

Lemma quiet_refl s : quiet s s.
Proof. split_and!; try done. intros p. by destruct (lk_data s !! p). Qed.

Lemma quiet_trans s1 s2 s3 : quiet s1 s2 -> quiet s2 s3 -> quiet s1 s3.
Proof.
  intros (L1 & N1 & A1 & E1 & D1) (L2 & N2 & A2 & E2 & D2). split_and!; [congruence|congruence|auto|congruence|].
  intros p. specialize (D1 p). specialize (D2 p).
  destruct (lk_data s1 !! p), (lk_data s2 !! p), (lk_data s3 !! p); simpl in *; try done; intuition congruence.
Qed.

Lemma quiet_kept s s' : quiet s s' -> keys_kept s s'.
Proof.
  intros (_ & _ & _ & _ & D) p d Hd. specialize (D p). rewrite Hd in D. destruct (lk_data s' !! p) as [d'|]; [|done].
  exists d'. split; [done|apply D].
Qed.

Lemma quiet_data_ok s s' t : quiet s s' -> data_ok s t -> data_ok s' t.
Proof.
  intros (_ & _ & _ & _ & D) Ht p Hp. destruct (Ht p Hp) as (d & Hd & Hc). specialize (D p). rewrite Hd in D.
  destruct (lk_data s' !! p) as [d'|]; [|done]. destruct D as [Ek E]. exists d'. by rewrite E, Ek.
Qed.

Lemma good_quiet s s' X H K tr : quiet s s' -> good s X H K tr -> good s' X H K tr.
Proof.
  intros Hq [Hf Hd Hk]. pose proof Hq as (L & N & A & _ & D). constructor.
  - intros p Hp. rewrite N in Hp. specialize (D p). rewrite (Hf p Hp) in D. by destruct (lk_data s' !! p).
  - eapply Forall_impl; [exact Hd|]. intros t. by apply quiet_data_ok.
  - intros key Hny. rewrite (drivers_kept s s' key X (quiet_kept _ _ Hq) Hd). destruct (Hk key Hny) as [Hlen Hkey]. split; [done|].
    intros Hal. rewrite L. exact (Hkey (A Hal)).
Qed.

Lemma quiet_put p d d' s : lk_data s !! p = Some d -> cd_key d' = cd_key d -> cd_completed d' = cd_completed d ->
  quiet s (set_lk_data (<[p := d']> (lk_data s)) s).
Proof.
  intros Hd Hk Hc. split_and!; try done. intros q. simpl. destruct (decide (q = p)) as [->|Hne].
  - by rewrite lookup_insert_eq, Hd.
  - rewrite lookup_insert_ne by done. by destruct (lk_data s !! q).
Qed.

Lemma deref_inv p s d s' : deref p s = (inr d, s') -> s' = s /\ lk_data s !! p = Some d.
Proof. unfold deref. destruct (lk_data s !! p) as [d0|]; [|done]. destruct (cd_live d0); [|done]. by intros [= -> ->]. Qed.

Definition quietly {A} (m : LM A) : Prop := forall s a s', m s = (inr a, s') -> quiet s s'.

Lemma quietly_bind {A B} (m : LM A) (k : A -> LM B) : quietly m -> (forall a, quietly (k a)) -> quietly (a ← m; k a).
Proof. intros Hm Hk s b s' (a & s1 & H1 & H2)%bind_inv. eapply quiet_trans; [by eapply Hm|by eapply Hk]. Qed.

Lemma quietly_ret {A} (a : A) : quietly (mret a).
Proof. intros s b s' [= _ <-]. apply quiet_refl. Qed.

Lemma quietly_deref p : quietly (deref p).
Proof. intros s d s' [-> _]%deref_inv. apply quiet_refl. Qed.

Lemma quietly_record c : quietly (record_call c).
Proof. intros s [] s' [= <-]. split_and!; try done. intros p. simpl. by destruct (lk_data s !! p). Qed.

Lemma quietly_delete p : quietly (delete_data p).
Proof. intros s [] s' (d & s1 & [-> Hd]%deref_inv & [= <-])%bind_inv. by eapply quiet_put. Qed.

Lemma quietly_share p : quietly (share p).
Proof. intros s [] s' (d & s1 & [-> Hd]%deref_inv & [= <-])%bind_inv. by eapply quiet_put. Qed.

Lemma quietly_unshare p : quietly (unshare p).
Proof.
  intros s [] s' (d & s1 & [= <- <-] & Hrun)%bind_inv. destruct (lk_data s !! p) as [d|] eqn:Hd; [|done].
  apply bind_inv in Hrun as ([] & s1 & [= <-] & Hrun). eapply quiet_trans; [by apply (quiet_put p d (set_cd_owners (pred (cd_owners d)) d))|].
  destruct (decide _); [by eapply quietly_delete|injection Hrun as <-; apply quiet_refl].
Qed.

Lemma quietly_settle c d : quietly (settle_deferred c d).
Proof. unfold settle_deferred. destruct (cd_deferred d); [apply quietly_record|apply quietly_ret]. Qed.

Create HintDb quietly discriminated.
#[local] Hint Resolve quietly_ret quietly_deref quietly_record quietly_delete quietly_share quietly_unshare quietly_settle : quietly.

(** ** The steps on one key *)

(** Data, next address and life of the descriptor as before. *)
Definition keeps_data (s s' : Locks) : Prop :=
  lk_data s' = lk_data s /\ lk_next s' = lk_next s /\ lk_alive s' = lk_alive s.

(** A step that changes only the lock of [key] and its duties. *)
Lemma good_lock key s s' old new X H H' K K' tr tr' :
  good s (old ++ X) H K tr -> keeps_data s s' ->
  (forall k, k <> key -> lk_locks s' !! k = lk_locks s !! k) ->
  Forall (fun t => tok_key s t = Some key) old -> Forall (fun t => tok_key s' t = Some key /\ data_ok s' t) new ->
  (forall k, k <> key -> (k ∈ H <-> k ∈ H') /\ (k ∈ K -> k ∈ K') /\ asked k tr' = asked k tr /\ gone k tr' = gone k tr) ->
  (key ∉ Y -> key_ok s key (old ++ drivers s key X) H K tr -> key_ok s' key (new ++ drivers s key X) H' K' tr') ->
  good s' (new ++ X) H' K' tr'.
Proof.
  intros Hg (Hd & Hn & Ha) Hl Hold Hnew Hf Hk. pose proof Hg as [Hfr Hdat _]. eapply good_step; [exact Hg|..]; try done.
  - intros p d E. exists d. by rewrite Hd.
  - intros p Hp. rewrite Hd. apply Hfr. lia.
  - apply Forall_app. split; [eapply Forall_impl; [exact Hnew|]; by intros t [_ ?]|].
    apply Forall_app in Hdat as [_ HX]. eapply Forall_impl; [exact HX|]. intros t Ht p Hp. rewrite Hd. by apply Ht.
  - by rewrite Ha.
  - eapply Forall_impl; [exact Hnew|]. by intros t [? _].
Qed.

(** The key the duty is for has no other. *)
Lemma only_duty s key t D H K tr : key_ok s key ([t] ++ D) H K tr -> D = [].
Proof. intros [Hl _]. by destruct D; simpl in Hl; [|lia]. Qed.

(** Labels of one key leave the others alone. *)
Definition label_of (key : string) (l : label) : Prop :=
  match l with Asked k _ | Started k _ | Lost k _ => k = key | Told _ => True | Freed _ => False end.

Lemma labels_calm key k ls : Forall (label_of key) ls -> calm k ls.
Proof. intros H. eapply Forall_impl; [exact H|]. by intros []. Qed.

Lemma since_calm key ls : calm key ls -> since key ls = ls.
Proof.
  induction ls as [|l ls IH] using rev_ind; [done|]. intros [Hc Hl]%Forall_app. rewrite since_app by done. rewrite IH by done.
  apply Forall_inv in Hl. unfold since. cbn [foldl]. destruct (frees key l); done.
Qed.

Lemma labels_other key k ls : k <> key -> Forall (label_of key) ls -> asked k ls = [] /\ gone k ls = [].
Proof.
  intros Hne Hls. unfold asked, gone. rewrite (since_calm k ls) by by eapply labels_calm.
  induction Hls as [|l ls Hl _ [IHa IHg]]; [done|]. simpl. rewrite IHa, IHg.
  destruct l; simpl in *; subst; try done; by destruct (String.eqb_spec key k); [congruence|].
Qed.

Lemma labels_frame key (H K K' : list string) tr ls :
  Forall (label_of key) ls -> (forall k, k <> key -> k ∈ K -> k ∈ K') ->
  forall k, k <> key -> (k ∈ H <-> k ∈ H) /\ (k ∈ K -> k ∈ K') /\ asked k (tr ++ ls) = asked k tr /\ gone k (tr ++ ls) = gone k tr.
Proof.
  intros Hl HK k Hne. rewrite asked_app, gone_app by by eapply labels_calm. destruct (labels_other key k ls Hne Hl) as [-> ->]. rewrite !app_nil_r. auto.
Qed.

Section Steps.
Context {NA : Napi}.

Lemma good_mark s s' key b X H K tr :
  good s (Tmark key :: X) H K tr -> mark_complete key s = (inr b, s') ->
  good s' ((if b : bool then [Tclaim key] else []) ++ X) H K tr.
Proof.
  intros Hg Hm. rewrite mark_complete_run in Hm.
  apply (good_lock key s s' [Tmark key] _ X H H K K tr tr Hg).
  - by destruct (lk_locks s !! key); injection Hm as <- <-.
  - intros k Hne. destruct (lk_locks s !! key); injection Hm as <- <-; [|done]. simpl. by rewrite lookup_insert_ne.
  - by constructor.
  - destruct b; constructor; [|constructor]. split; done.
  - done.
  - intros _ Hk. pose proof (only_duty _ _ _ _ _ _ _ Hk) as E. rewrite E in *. destruct Hk as [_ Hk]. split; [destruct b; simpl; lia|].
    destruct (lk_locks s !! key) as [h|] eqn:Hh; injection Hm as <- <-; simpl; [rewrite lookup_insert_eq|rewrite Hh]; intros Hal;
      specialize (Hk Hal); simpl in Hk; [|by destruct Hk].
    destruct Hk as (_ & Hh0 & _ & Hq & Ha). split_and!; try done. intros Hin. by specialize (Hh0 Hin).
Qed.

Lemma good_claim s s' key c X H K tr :
  good s (Tclaim key :: X) H K tr -> claim key s = (inr c, s') ->
  (forall c', c = Some c' -> lk_alive s = true -> key ∉ Y -> lc_callback c' <> 0) /\
  good s' ((match c with Some c => [Tcall key (lc_callback c)] | None => [] end) ++ X) H K tr.
Proof.
  intros Hg Hc. rewrite claim_run in Hc. pose proof (g_key _ _ _ _ _ Hg key) as Hkey.
  unfold drivers in Hkey. rewrite filter_cons_True in Hkey by done. fold (drivers s key X) in Hkey.
  change (Tclaim key :: drivers s key X) with ([Tclaim key] ++ drivers s key X) in Hkey.
  assert (Hrun : lk_alive s = true -> key ∉ Y -> exists q o env, lk_locks s !! key = Some (mkLockHandle q o false env) /\
    Forall (fun c => lc_callback c <> 0) q /\ asked key tr = gone key tr ++ map lc_callback q /\ key ∉ H).
  { intros Hal Hny. specialize (Hkey Hny). rewrite (only_duty _ _ _ _ _ _ _ Hkey) in Hkey. destruct Hkey as [_ Hkey]. specialize (Hkey Hal).
    destruct (lk_locks s !! key) as [[q o run env]|]; [|by destruct Hkey]. destruct Hkey as (_ & Hh0 & Hr & Hq & Ha). simpl in *.
    rewrite Hr by set_solver. exists q, o, env. split_and!; try done. intros Hin. by specialize (Hh0 Hin). }
  split.
  { intros c' -> Hal Hny. destruct (Hrun Hal Hny) as (q & o & env & Hh & Hq & _). rewrite Hh in Hc. destruct q as [|c0 q]; [done|].
    injection Hc as -> _. by inversion Hq. }
  apply (good_lock key s s' [Tclaim key] _ X H H K K tr tr Hg).
  - destruct (lk_locks s !! key) as [[[|] o [] env]|]; by injection Hc as <- <-.
  - intros k Hne. destruct (lk_locks s !! key) as [[[|] o [] env]|]; injection Hc as <- <-; simpl; try done;
      by rewrite ?lookup_delete_ne, ?lookup_insert_ne by done.
  - by constructor.
  - destruct c; constructor; [|constructor]. split; done.
  - done.
  - intros Hny Hk. rewrite (only_duty _ _ _ _ _ _ _ Hk). split; [destruct c; simpl; lia|]. intros Hal'.
    assert (Hal : lk_alive s = true) by (by destruct (lk_locks s !! key) as [[[|] o [] env]|]; injection Hc as <- <-).
    destruct (Hrun Hal Hny) as (q & o & env & Hh & Hq & Ha & HH). rewrite Hh in Hc. destruct q as [|c0 q]; injection Hc as <- <-; simpl.
    + rewrite lookup_delete_eq. split; [done|]. by rewrite Ha, app_nil_r.
    + rewrite lookup_insert_eq. simpl. split_and!; [done|done|set_solver|by inversion Hq|done].
Qed.
(** The duty of a call: with the runtime, back, or lost. *)
Definition call_toks (key : string) (c : LockCallback) (s : Locks) : list token :=
  match tsfn_status (lk_calls s) (lc_callback c) with
  | napi_ok => [Tevent (lc_callback c) (lk_next s)]
  | napi_closing => []
  | napi_failed => [Tmark key]
  end.

Lemma good_call s key c X H K tr :
  good s (Tcall key (lc_callback c) :: X) H K tr ->
  good (after_call key c s) (call_toks key c s ++ X) H (exec_stuck (CCall key c) s ++ K) (tr ++ exec_label (CCall key c) s).
Proof.
  intros Hg. pose proof Hg as [Hfr Hdat _]. set (s' := after_call key c s).
  assert (Hne : forall p d, lk_data s !! p = Some d -> lk_data s' !! p = Some d).
  { intros p d Hd. simpl. rewrite lookup_insert_ne; [done|]. intros <-. by rewrite Hfr in Hd. }
  assert (Hnew : Forall (fun t => tok_key s' t = Some key /\ data_ok s' t) (call_toks key c s)).
  { unfold call_toks. destruct (tsfn_status _ _); constructor; try constructor; simpl; try done; [by rewrite lookup_insert_eq|].
    intros p [= <-]. simpl. rewrite lookup_insert_eq. by eexists. }
  apply (good_step key s s' [Tcall key (lc_callback c)] _ X H H K _ tr _ Hg).
  - intros p d Hd. exists d. auto.
  - intros p Hp. simpl in *. rewrite lookup_insert_ne by lia. apply Hfr. lia.
  - apply Forall_app. split; [eapply Forall_impl; [exact Hnew|]; by intros t [_ ?]|].
    apply Forall_cons in Hdat as [_ HX]. eapply Forall_impl; [exact HX|]. intros t Ht p Hp.
    destruct (Ht p Hp) as (d & Hd & Hc). exists d. auto.
  - done.
  - done.
  - by constructor.
  - eapply Forall_impl; [exact Hnew|]. by intros t [? _].
  - apply labels_frame; [simpl; destruct (tsfn_status _ _); by repeat constructor|]. set_solver.
  - intros _ Hk. pose proof (only_duty _ _ _ _ _ _ _ Hk) as E. rewrite E in *. destruct Hk as [_ Hk]. unfold call_toks.
    split; [destruct (tsfn_status _ _); simpl; lia|]. simpl. intros Hal. specialize (Hk Hal).
    destruct (lk_locks s !! key) as [h|]; [|by destruct Hk]. destruct Hk as (_ & Hh0 & _ & Hq & Ha).
    destruct (tsfn_status _ _); simpl; rewrite asked_app, gone_app, Ha by (by repeat constructor); unfold asked, gone; simpl; rewrite ?String.eqb_refl, ?app_nil_r; simpl; rewrite <- ?app_assoc; split_and!; try done; set_solver.
Qed.

(** A duty that is with the data [p] goes to the thread that completes it. *)
Lemma good_complete s p d X H K tr :
  good s (Tdata p :: X) H K tr -> lk_data s !! p = Some d ->
  good s ((if lk_alive s then [Tmark (cd_key d)] else []) ++ X) H K tr.
Proof.
  intros Hg Hd. apply (good_lock (cd_key d) s s [Tdata p] _ X H H K K tr tr Hg); try done.
  - constructor; [|done]. simpl. by rewrite Hd.
  - destruct (lk_alive s); by repeat constructor.
  - intros _ Hk. pose proof (only_duty _ _ _ _ _ _ _ Hk) as E. rewrite E in *. destruct Hk as [_ Hk].
    split; [destruct (lk_alive s); simpl; lia|]. intros Hal. rewrite Hal. specialize (Hk Hal).
    destruct (lk_locks s !! cd_key d) as [h|]; [|by destruct Hk]. destruct Hk as (_ & Hh0 & _ & Hq & Ha). split_and!; try done; set_solver.
Qed.

(** Marking data completed when its duty is gone. *)
Lemma good_completed s p d X H K tr :
  good s X H K tr -> lk_data s !! p = Some d -> (cd_key d ∉ Y -> Forall (fun t => tok_data t <> Some p) X) ->
  good (set_lk_data (<[p := set_cd_completed true d]> (lk_data s)) s) X H K tr.
Proof.
  intros [Hf Hdat Hk] Hd HX. set (s' := set_lk_data _ s).
  assert (Hkept : keys_kept s s').
  { intros q dq Hq. simpl. destruct (decide (q = p)) as [->|Hne].
    - rewrite lookup_insert_eq. eexists. split; [done|]. simpl. congruence.
    - rewrite lookup_insert_ne by done. by exists dq. }
  constructor.
  - intros q Hq. simpl in *. rewrite lookup_insert_ne; [by apply Hf|]. intros <-. by rewrite Hf in Hd.
  - apply Forall_forall. intros t Ht q Hq. rewrite Forall_forall in Hdat. simpl. destruct (decide (q = p)) as [->|Hne].
    + rewrite lookup_insert_eq. eexists. split; [done|]. intros Hny. specialize (HX Hny). rewrite Forall_forall in HX. by destruct (HX t Ht).
    + rewrite lookup_insert_ne by done. by apply (Hdat t Ht).
  - intros key Hny. rewrite (drivers_kept s s' key X Hkept Hdat). exact (Hk key Hny).
Qed.

(** No two duties share their data. *)
Lemma data_unique s p d X H K tr :
  good s (Tdata p :: X) H K tr -> lk_data s !! p = Some d -> cd_key d ∉ Y -> Forall (fun t => tok_data t <> Some p) X.
Proof.
  intros [_ _ Hk] Hd Hny. apply Forall_forall. intros t Ht Htp. destruct (Hk (cd_key d) Hny) as [Hlen _]. unfold drivers in Hlen.
  rewrite filter_cons_True in Hlen by (simpl; by rewrite Hd).
  assert (Hin : t ∈ filter (fun t => tok_key s t = Some (cd_key d)) X).
  { apply list_elem_of_filter. split; [|done]. destruct t; simplify_eq/=; by rewrite Hd. }
  destruct (filter _ X); [set_solver|simpl in Hlen; lia].
Qed.
(** A duty for a key in [Y] may be dropped. *)
Lemma good_drop s key t X H K tr : key ∈ Y -> tok_key s t = Some key -> good s (t :: X) H K tr -> good s X H K tr.
Proof.
  intros Hy Ht [Hf Hd Hk]. constructor; [done|by apply Forall_cons in Hd as [_ ?]|]. intros k Hny. specialize (Hk k Hny).
  unfold drivers in Hk. rewrite filter_cons_False in Hk; [done|]. intros E. congruence.
Qed.

(** ** One action of a thread *)

Lemma mark_events key s b s' : mark_complete key s = (inr b, s') -> lk_events s' = lk_events s.
Proof. rewrite mark_complete_run. by destruct (lk_locks s !! key); intros [= _ <-]. Qed.

Lemma claim_events key s c s' :
  claim key s = (inr c, s') -> lk_events s' = lk_events s /\ lk_alive s' = lk_alive s.
Proof. rewrite claim_run. by destruct (lk_locks s !! key) as [[[|] o [] env]|]; intros [= _ <-]. Qed.

(** An action that does nothing but [quietly] change data. *)
Lemma good_exec_quiet s s' (m : LM unit) (cs' : list cmd) X H K tr :
  quietly m -> (m;; mret []) s = (inr cs', s') -> good s X H K tr ->
  lk_events s' = lk_events s /\ cs' = [] /\ good s' X H K (tr ++ []).
Proof.
  intros Hq ([] & s1 & Hm & [= <- <-])%bind_inv Hg. specialize (Hq _ _ _ Hm). rewrite app_nil_r.
  split; [apply Hq|]. split; [done|]. by eapply good_quiet.
Qed.

Lemma good_resolved s s' cs' p X H K tr :
  good s (Tdata p :: X) H K tr -> exec (CResolved p) s = (inr cs', s') ->
  lk_events s' = lk_events s /\ good s' (flat_map cmd_tok cs' ++ X) H K tr.
Proof.
  intros Hg (d & s1 & [-> Hd]%deref_inv & Hrun)%bind_inv. rewrite (bind_run _ _ s (lk_alive s) s) in Hrun by done.
  pose proof (g_data _ _ _ _ _ Hg) as Hdat. apply Forall_cons in Hdat as [Hp _]. destruct (Hp p eq_refl) as (d0 & Hd0 & Hc).
  rewrite Hd in Hd0. injection Hd0 as <-. set (b := negb (cd_completed d) && lk_alive s) in *.
  apply bind_inv in Hrun as ([] & s2 & [= <-] & ([] & s3 & Hw & [= <- <-])%bind_inv).
  assert (Hq : quiet (set_lk_data (<[p := set_cd_completed true d]> (lk_data s)) s) s3).
  { unfold when in Hw. destruct b; [by eapply quietly_settle|by eapply quietly_ret]. }
  split; [apply Hq|]. eapply good_quiet; [exact Hq|].
  replace (flat_map cmd_tok _ ++ X) with ((if b then [Tmark (cd_key d)] else []) ++ X) by by destruct b.
  apply good_completed; [|done|].
  - unfold b. destruct (cd_completed d) eqn:Hcd; simpl; [|by apply (good_complete s p)].
    eapply (good_drop s (cd_key d) (Tdata p)); [|simpl; by rewrite Hd|exact Hg]. destruct (decide (cd_key d ∈ Y)) as [|Hny]; [done|]. by specialize (Hc Hny).
  - intros Hny. apply Forall_app. split; [by destruct b; repeat constructor|]. by eapply data_unique.
Qed.

Lemma good_rejected s s' cs' p X H K tr :
  good s (Tdata p :: X) H K tr -> exec (CRejected p) s = (inr cs', s') ->
  lk_events s' = lk_events s /\ good s' (flat_map cmd_tok cs' ++ X) H K tr.
Proof.
  intros Hg (d & s1 & [-> Hd]%deref_inv & Hrun)%bind_inv. rewrite (bind_run _ _ s (lk_alive s) s) in Hrun by done.
  apply bind_inv in Hrun as ([] & s2 & Hw & [= <- <-]).
  assert (Hq : quiet s s2).
  { unfold when in Hw. destruct (lk_alive s); [by eapply quietly_settle|by eapply quietly_ret]. }
  split; [apply Hq|]. eapply good_quiet; [exact Hq|]. rewrite flat_map_app, app_nil_r. simpl.
  pose proof (good_complete s p d X H K tr Hg Hd) as Hg2. by destruct (lk_alive s).
Qed.

(** Without a descriptor a duty may be dropped. *)
Lemma good_dead s t X H K tr : lk_alive s = false -> good s (t :: X) H K tr -> good s X H K tr.
Proof.
  intros Hal [Hf Hd Hk]. constructor; [done|by apply Forall_cons in Hd as [_ ?]|]. intros key Hny. destruct (Hk key Hny) as [Hl _].
  split; [|by rewrite Hal]. unfold drivers in *. rewrite filter_cons in Hl. destruct (decide _); simpl in *; lia.
Qed.

Lemma told_frame key f tr : asked key (tr ++ [Told f]) = asked key tr /\ gone key (tr ++ [Told f]) = gone key tr.
Proof. rewrite asked_app, gone_app by by repeat constructor. unfold asked, gone. simpl. by rewrite !app_nil_r. Qed.

Lemma good_told s f X H K tr : good s X H K tr -> good s X H K (tr ++ [Told f]).
Proof.
  intros [Hf Hd Hk]. constructor; [done|done|]. intros key Hny. specialize (Hk key Hny). unfold key_ok in *.
  destruct (told_frame key f tr) as [-> ->]. done.
Qed.

Lemma good_exec s s' c cs' X H K tr :
  good s (cmd_tok c ++ X) H K tr -> exec c s = (inr cs', s') ->
  exists E, lk_events s' = lk_events s ++ E /\
    good s' (flat_map cmd_tok cs' ++ flat_map ev_tok E ++ X) H (exec_stuck c s ++ K) (tr ++ exec_label c s).
Proof.
  intros Hg Hx.
  assert (Hnone : lk_events s' = lk_events s /\ good s' (flat_map cmd_tok cs' ++ X) H (exec_stuck c s ++ K) (tr ++ exec_label c s) ->
    exists E, lk_events s' = lk_events s ++ E /\
      good s' (flat_map cmd_tok cs' ++ flat_map ev_tok E ++ X) H (exec_stuck c s ++ K) (tr ++ exec_label c s)).
  { intros [HE Hg']. exists []. by rewrite app_nil_r. }
  destruct c; cbn [exec cmd_tok app] in *.
  all: try rewrite (bind_assoc (deref p)) in Hx.
  all: try (apply Hnone; eapply good_exec_quiet in Hx as (? & -> & Hg1); [|solve [unfold release_tsfn; eauto using quietly_bind with quietly]|exact Hg];
    by split).
  - apply Hnone; simpl; rewrite app_nil_r; apply bind_inv in Hx as (c & s1 & Hc & Hx). destruct (good_claim _ _ _ _ _ _ _ _ Hg Hc) as [Hnz Hg1]. injection Hx as <- <-.
    pose proof (claim_events _ _ _ _ Hc) as [HE Hal]. split; [done|]. destruct c as [c|]; [|done].
    destruct (Z.eqb_spec (lc_callback c) 0) as [Hz|Hz]; [|done].
    destruct (decide (key ∈ Y)) as [Hy|Hny]; [by eapply (good_drop s1 key); [|simpl|exact Hg1]|].
    destruct (lk_alive s) eqn:Ha; [by destruct (Hnz c eq_refl eq_refl Hny)|]. simpl. by eapply good_dead; [rewrite Hal|exact Hg1].
  - apply Hnone; simpl; rewrite app_nil_r; apply bind_inv in Hx as (b & s1 & Hm & Hx). pose proof (good_mark _ _ _ _ _ _ _ _ Hg Hm) as Hg1. injection Hx as <- <-.
    split; [by eapply mark_events|]. by destruct b.
  - apply Hnone; simpl; rewrite app_nil_r; apply bind_inv in Hx as (c & s1 & Hc & Hx). destruct (good_claim _ _ _ _ _ _ _ _ Hg Hc) as [_ Hg1]. injection Hx as <- <-.
    split; [by eapply claim_events|]. by destruct c.
  - rewrite (bind_run _ _ _ _ _ (call_next_run key c s)) in Hx. injection Hx as <- <-. pose proof (good_call s key c X H K tr Hg) as Hg1.
    unfold call_toks, exec_stuck, exec_label in Hg1. simpl. destruct (tsfn_status (lk_calls s) (lc_callback c)) eqn:Hst; simpl in *.
    + eexists. split; [done|]. done.
    + exists []. by rewrite app_nil_r.
    + exists []. by rewrite app_nil_r.
  - rewrite (bind_run _ _ _ _ _ (call_tsfn_run f None s)) in Hx. injection Hx as <- <-. unfold lift_call.
    exists (match tsfn_status (lk_calls s) f with napi_ok => [(f, None)] | _ => [] end).
    split; [simpl; destruct (tsfn_status _ _); by rewrite ?app_nil_r|].
    replace (flat_map cmd_tok _ ++ _ ++ X) with X by by destruct (tsfn_status _ _).
    apply good_told. by destruct Hg.
  - apply Hnone; simpl; rewrite app_nil_r; apply bind_inv in Hx as (d & s1 & [-> Hd]%deref_inv & Hx). rewrite (bind_run _ _ s (lk_alive s) s) in Hx by done.
    injection Hx as <- <-. split; [done|]. pose proof (good_complete s p d X H K tr Hg Hd). by destruct (lk_alive s).
  - apply Hnone; simpl; rewrite app_nil_r; by apply (good_resolved s s' cs' p).
  - apply Hnone; simpl; rewrite app_nil_r; by apply (good_rejected s s' cs' p).
Qed.
(** ** Asking for a lock, and releasing it *)

Definition arg_queue (callback : js_arg) (deferred : option Z) : list LockCallback :=
  match callback with Function (Some f) => [mkLockCallback f deferred] | _ => [] end.

Lemma lockEnqueueCallback_run env key callback owner skip deferred s :
  lockEnqueueCallback env key callback owner skip deferred s =
  match lk_locks s !! key with
  | None => (inr true, set_lk_locks (<[key := mkLockHandle (if skip then [] else arg_queue callback deferred) owner false env]> (lk_locks s)) s)
  | Some h => (inr false, set_lk_locks (<[key := set_threadsafeCallbacks (threadsafeCallbacks h ++ arg_queue callback deferred) h]> (lk_locks s)) s)
  end.
Proof.
  unfold lockEnqueueCallback, find_lock, put_lock. mrun. unfold set_lk_locks, set_threadsafeCallbacks.
  destruct (lk_locks s !! key) as [[q o run e]|] eqn:Hh; simpl.
  - destruct callback as [|[f|]]; simpl; rewrite ?app_nil_r, ?insert_id by done; by destruct s.
  - destruct skip; [done|]. destruct callback as [|[f|]]; simpl; [done| |done]. by rewrite insert_insert_eq.
Qed.

Lemma valid_queue callback deferred : valid_arg callback -> Forall (fun c => lc_callback c <> 0) (arg_queue callback deferred).
Proof. unfold valid_arg. destruct callback as [|[f|]]; simpl; intros Hv; repeat constructor. simpl. congruence. Qed.

Lemma asked_queue key callback deferred :
  asked key (asked_label key callback) = map lc_callback (arg_queue callback deferred) /\ gone key (asked_label key callback) = [].
Proof. destruct callback as [|[f|]]; [done| |done]. unfold asked, gone. simpl. by rewrite String.eqb_refl. Qed.

Lemma asked_label_of key callback : Forall (label_of key) (asked_label key callback).
Proof. destruct callback as [|[f|]]; by repeat constructor. Qed.

Lemma asked_calm key callback : calm key (asked_label key callback).
Proof. eapply labels_calm, asked_label_of. Qed.

Lemma good_enqueue s s' env key callback owner skip deferred isNew X H K tr :
  good s X H K tr -> lk_alive s = true -> valid_arg callback ->
  lockEnqueueCallback env key callback owner skip deferred s = (inr isNew, s') ->
  lk_events s' = lk_events s /\
  good s' ((if isNew && negb skip then [Tclaim key] else []) ++ X) (if isNew && skip then key :: H else H) K
    (tr ++ if isNew && skip then [] else asked_label key callback).
Proof.
  intros Hg Hal Hv Hrun. rewrite lockEnqueueCallback_run in Hrun.
  assert (HE : lk_events s' = lk_events s) by (by destruct (lk_locks s !! key); injection Hrun as <- <-).
  split; [done|]. pose proof (valid_queue callback deferred Hv) as Hq. destruct (asked_queue key callback deferred) as [Haq Hgq].
  apply (good_lock key s s' [] _ X H _ K K tr _ Hg).
  - by destruct (lk_locks s !! key); injection Hrun as <- <-.
  - intros k Hne. destruct (lk_locks s !! key); injection Hrun as <- <-; simpl; by rewrite lookup_insert_ne.
  - constructor.
  - destruct (isNew && negb skip); by repeat constructor.
  - intros k Hne. assert (Hl : Forall (label_of key) (if isNew && skip then [] else asked_label key callback)).
    { destruct (isNew && skip); [constructor|apply asked_label_of]. }
    destruct (labels_frame key H K K tr _ Hl ltac:(done) k Hne) as (_ & _ & Ha & Hgo). split_and!; [|done|done|done].
    destruct (isNew && skip); set_solver.
  - intros _ [Hlen Hk]. specialize (Hk Hal). destruct (lk_locks s !! key) as [h|] eqn:Hh; injection Hrun as <- <-; simpl in *.
    + split; [done|]. intros _. simpl. rewrite lookup_insert_eq. destruct Hk as (H1 & H0 & H2 & H3 & H4). simpl. split_and!; [done|done|done|by apply Forall_app|].
      rewrite asked_app, gone_app, H4, Haq, Hgq, map_app, app_nil_r by apply asked_calm. by rewrite !app_assoc.
    + destruct Hk as (-> & Ha & HH). split; [destruct skip; simpl; lia|]. intros _. simpl. rewrite lookup_insert_eq. destruct skip; simpl.
      * rewrite !app_nil_r. split_and!; [set_solver|done|done|constructor|done].
      * rewrite asked_app, gone_app, Ha, Haq, Hgq, app_nil_r by apply asked_calm. split_and!; done.
Qed.

Lemma take_lock_run key s fs s' :
  take_lock key s = (inr (Some fs), s') ->
  fs = map lc_callback (waiting key s) /\ s' = set_lk_locks (delete key (lk_locks s)) s.
Proof.
  intros (found & s1 & [= <- <-] & Hrun)%bind_inv. unfold waiting. destruct (lk_locks s !! key) as [h|]; [|done].
  apply bind_inv in Hrun as ([] & s1 & [= <-] & [= <- <-]). done.
Qed.

Lemma good_unlock s s' key fs X H K tr :
  good s X H K tr -> (key ∉ Y -> drivers s key X = []) -> take_lock key s = (inr (Some fs), s') ->
  good s' X (without key H) (without key K) (tr ++ [Freed key]).
Proof.
  intros Hg HD [_ ->]%take_lock_run. apply (good_lock key s _ [] [] X H _ K _ tr _ Hg); [done| |constructor..| |].
  - intros k Hne. simpl. by rewrite lookup_delete_ne.
  - intros k Hne. destruct (since_freed k [key] tr) as [Ha Hgo]. simpl in Ha, Hgo. rewrite Ha, Hgo.
    rewrite !decide_False by set_solver. unfold without. rewrite !list_elem_of_filter. split_and!; [by split; [|intros [_ ?]]|by split|done|done].
  - simpl. intros Hny _. rewrite (HD Hny). split; [simpl; lia|]. intros _. simpl. rewrite lookup_delete_eq.
    destruct (since_freed key [key] tr) as [Ha Hgo]. simpl in Ha, Hgo. rewrite Ha, Hgo. rewrite !decide_True by set_solver.
    split_and!; [done|done|]. unfold without. rewrite list_elem_of_filter. by intros [? _].
Qed.

Lemma released_keys_spec owner s key :
  key ∈ released_keys owner s <-> exists h, lk_locks s !! key = Some h /\ owned_by owner (lk_handles s) h = true.
Proof.
  unfold released_keys. rewrite list_elem_of_fmap. split.
  - intros ([k h] & -> & Hin). apply elem_of_map_to_list, map_lookup_filter_Some in Hin as [Hh Ho]. by exists h.
  - intros (h & Hh & Ho). exists (key, h). split; [done|]. apply elem_of_map_to_list, map_lookup_filter_Some. done.
Qed.

Lemma take_owned_run owner s fs s' :
  take_owned owner s = (inr fs, s') ->
  s' = set_lk_locks (filter (fun kh => owned_by owner (lk_handles s) kh.2 = false) (lk_locks s)) s.
Proof. intros (s0 & s1 & [= <- <-] & ([] & s2 & [= <-] & [= _ <-])%bind_inv)%bind_inv. done. Qed.

Lemma good_close s s' owner fs X H K tr :
  good s X H K tr -> (forall key, key ∈ released_keys owner s -> key ∉ Y -> drivers s key X = []) ->
  take_owned owner s = (inr fs, s') ->
  good s' X (filter (fun k => k ∉ released_keys owner s) H) (filter (fun k => k ∉ released_keys owner s) K)
    (tr ++ map Freed (released_keys owner s)).
Proof.
  intros [Hf Hd Hk] HD ->%take_owned_run. constructor; [done|done|]. intros key Hny.
  set (s' := set_lk_locks _ s). assert (Hkept : keys_kept s s') by (intros p d Hp; by exists d).
  rewrite (drivers_kept s s' key X Hkept Hd). destruct (Hk key Hny) as [Hlen Hkey]. split; [done|]. intros Hal. specialize (Hkey Hal). simpl.
  destruct (since_freed key (released_keys owner s) tr) as [-> ->]. destruct (decide (key ∈ released_keys owner s)) as [Hin|Hout].
  - rewrite (HD key Hin Hny). pose proof Hin as (h & Hh & Ho)%released_keys_spec.
    rewrite (proj2 (map_lookup_filter_None _ _ _)) by (right; intros h' Hh'; simpl; congruence).
    split_and!; [done|done|]. rewrite list_elem_of_filter. by intros [? _].
  - destruct (lk_locks s !! key) as [h|] eqn:Hh.
    + assert (Ho : owned_by owner (lk_handles s) h = false).
      { destruct (owned_by owner (lk_handles s) h) eqn:Ho; [|done]. destruct Hout. apply released_keys_spec. by exists h. }
      rewrite (map_lookup_filter_Some_2 _ _ _ _ Hh Ho). destruct Hkey as (H1 & H0 & H2 & H3 & H4). split_and!; try done.
      * intros HDe. destruct (H1 HDe); [left|right]; by apply list_elem_of_filter.
      * intros [_ Hin]%list_elem_of_filter. auto.
    + rewrite (proj2 (map_lookup_filter_None _ _ _)) by (by left). destruct Hkey as (H1 & H2 & H3). split_and!; try done.
      by intros [_ Hin]%list_elem_of_filter.
Qed.

(** ** Running the JavaScript functions *)

Lemma enter_inv r p s b s' :
  callJs_enter r (Some p) s = (inr b, s') -> quiet s s'.
Proof.
  unfold callJs_enter. destruct (jr_env r); simpl; [|intros [= _ <-]; apply quiet_refl].
  intros Hrun. revert Hrun. apply quietly_bind; [apply quietly_share|]. intros _.
  destruct (jr_create_completion r); simpl; [destruct (jr_get_global r); simpl|]; eauto 10 using quietly_bind with quietly.
Qed.

(** The runtime takes a duty from its queue: the function runs with it, or it is lost. *)
Lemma good_enter s s' r f p d b X H K tr :
  good s (Tevent f p :: X) H K tr -> lk_data s !! p = Some d -> callJs_enter r (Some p) s = (inr b, s') ->
  good s' ((if b : bool then [Tdata p] else []) ++ X) H ((if b then [] else [cd_key d]) ++ K)
    (tr ++ [if b then Started (cd_key d) f else Lost (cd_key d) f]).
Proof.
  intros Hg Hd Hrun. eapply good_quiet; [by eapply enter_inv|]. pose proof (g_data _ _ _ _ _ Hg) as Hdat. apply Forall_cons in Hdat as [Hp _].
  apply (good_lock (cd_key d) s s [Tevent f p] _ X H H K _ tr _ Hg); [done|done|..].
  - constructor; [|constructor]. simpl. by rewrite Hd.
  - destruct b; constructor; [|constructor]. split; [simpl; by rewrite Hd|]. intros q Hq. by apply Hp.
  - apply labels_frame; [by destruct b; repeat constructor|]. set_solver.
  - intros _ Hk. pose proof (only_duty _ _ _ _ _ _ _ Hk) as E. rewrite E in *. destruct Hk as [_ Hk]. split; [destruct b; simpl; lia|].
    intros Hal. specialize (Hk Hal). destruct (lk_locks s !! cd_key d) as [h|]; [|by destruct Hk]. destruct Hk as (_ & Hh0 & _ & Hq & Ha).
    rewrite asked_app, gone_app, Ha by (by destruct b; repeat constructor). unfold asked, gone. destruct b; simpl; rewrite String.eqb_refl, <- !app_assoc; simpl; rewrite ?app_nil_r; split_and!; try done; set_solver.
Qed.
Lemma return_tok r result p cs : return_cmds r result p = (cs, false) -> flat_map cmd_tok cs = [Tdata p].
Proof.
  unfold return_cmds. destruct result as [|isPromise]; [by intros [= <-]|].
  destruct (jr_promise_ctor r), (jr_instanceof r), isPromise, (jr_get_then r), (jr_create_resolve r),
    (jr_create_reject r && jr_call_then r); cbn [negb]; by intros [= <-].
Qed.

Lemma promise_quiet r result p s s' : callJs_return r result p s = (inr true, s') -> quiet s s'.
Proof.
  intros Hrun. destruct (return_alone r result p s true s' Hrun) as [Hb _]. revert Hb Hrun. unfold return_cmds, callJs_return.
  destruct result as [|isPromise]; [done|].
  destruct (jr_promise_ctor r), (jr_instanceof r), isPromise, (jr_get_then r), (jr_create_resolve r),
    (jr_create_reject r && jr_call_then r); cbn [negb snd]; try done.
  intros _. revert s s'. intros s s'. enough (Hq : quietly (share p;; share p;; unshare p;; mret true)) by apply Hq.
  eauto 10 using quietly_bind with quietly.
Qed.

(** The invariant does not read the queue of the runtime. *)
Lemma good_events s E X H K tr : good s X H K tr -> good (set_lk_events E s) X H K tr.
Proof. by intros [Hf Hd Hk]; constructor. Qed.

Lemma quiet_fields s s' : lk_locks s' = lk_locks s -> lk_next s' = lk_next s -> (lk_alive s' = true -> lk_alive s = true) ->
  lk_events s' = lk_events s -> lk_data s' = lk_data s -> quiet s s'.
Proof. intros HL HN HA HE HD. split_and!; try done. intros p. rewrite HD. by destruct (lk_data s !! p). Qed.

End Steps.
End Invariant.

Lemma good_weaken Y Y' s X H K tr : (forall k, k ∈ Y -> k ∈ Y') -> good Y s X H K tr -> good Y' s X H K tr.
Proof.
  intros HY [Hf Hd Hk]. constructor; [done| |].
  - eapply Forall_impl; [exact Hd|]. intros t Ht p Hp. destruct (Ht p Hp) as (d & Hd' & Hc). exists d. split; [done|]. intros Hny. apply Hc. auto.
  - intros key Hny. apply Hk. auto.
Qed.

Definition sys_good (y : lk_sys) : Prop := good (y_early y) (y_st y) (toks y) (y_held y) (y_stuck y) (y_trace y).

Lemma early_elem s X key k : k ∈ early s X key <-> k = key /\ drivers s key X <> [].
Proof. unfold early. destruct (drivers s key X); set_solver. Qed.

Lemma tell_toks fs : flat_map cmd_tok (map CTell fs) = [].
Proof. by induction fs. Qed.

Lemma step_good {NA : Napi} y y' : lk_step y y' -> sys_good y -> sys_good y'.
Proof.
  unfold sys_good. destruct 1 as
    [s T R P H K Y tr env key cb df owner isNew s' Hal Hv Hrun|s T R P H K Y tr env key cb owner isNew s' Hal Hv Hrun
    |s T T' R P H K Y tr c cs cs' s' HT Hx|s T R P H K Y tr E1 E2 f p d r s' HE Hd Hrun|s T R P H K Y tr E1 E2 f p d r s' HE Hd Hrun
    |s T R P H K Y tr E1 E2 f r b s' HE Hrun|s T R R' P H K Y tr p r result cs HR Hcs|s T R R' P H K Y tr p r result s' HR Hrun
    |s T R P P' H K Y tr p resolved HP|s T R P H K Y tr key fs s' Hrun|s T R P H K Y tr owner fs s' Hrun
    |s T R P H K Y tr hs|s T R P H K Y tr]; cbn [y_st y_held y_stuck y_early y_trace]; intros Hg.
  - destruct (good_enqueue _ _ _ _ _ _ _ _ _ _ _ _ _ _ Hg Hal Hv Hrun) as [HE Hg']. rewrite andb_false_r, andb_true_r in Hg'.
    eapply good_perm; [|exact Hg']. unfold toks. simpl. rewrite HE. by destruct isNew.
  - destruct (good_enqueue _ _ _ _ _ _ _ _ _ _ _ _ _ _ Hg Hal Hv Hrun) as [HE Hg']. rewrite andb_false_r, andb_true_r in Hg'.
    eapply good_perm; [|exact Hg']. unfold toks. simpl. by rewrite HE.
  - assert (Hg1 : good Y s (cmd_tok c ++ (flat_map cmd_tok cs ++ flat_map (flat_map cmd_tok) T' ++ flat_map ev_tok (lk_events s) ++ map Tdata R ++ map Tdata P)) H K tr).
    { eapply good_perm; [|exact Hg]. unfold toks. simpl. rewrite HT. simpl. by rewrite <- !app_assoc. }
    destruct (good_exec _ _ _ _ _ _ _ _ _ Hg1 Hx) as (E & HE & Hg'). eapply good_perm; [|exact Hg']. unfold toks. simpl.
    rewrite HE, !flat_map_app. solve_Permutation.
  - assert (Hg1 : good Y (set_lk_events (E1 ++ E2) s)
      (Tevent f p :: flat_map (flat_map cmd_tok) T ++ flat_map ev_tok (E1 ++ E2) ++ map Tdata R ++ map Tdata P) H K tr).
    { apply good_events. eapply good_perm; [|exact Hg]. unfold toks. simpl. rewrite HE, !flat_map_app. simpl. solve_Permutation. }
    pose proof (good_enter _ _ _ _ _ _ d _ _ _ _ _ Hg1 Hd Hrun) as Hg'. eapply good_perm; [|exact Hg'].
    destruct (enter_inv _ _ _ _ _ Hrun) as (_ & _ & _ & HE' & _). unfold toks. simpl. rewrite HE'. simpl. solve_Permutation.
  - assert (Hg1 : good Y (set_lk_events (E1 ++ E2) s)
      (Tevent f p :: flat_map (flat_map cmd_tok) T ++ flat_map ev_tok (E1 ++ E2) ++ map Tdata R ++ map Tdata P) H K tr).
    { apply good_events. eapply good_perm; [|exact Hg]. unfold toks. simpl. rewrite HE, !flat_map_app. simpl. solve_Permutation. }
    pose proof (good_enter _ _ _ _ _ _ d _ _ _ _ _ Hg1 Hd Hrun) as Hg'. eapply good_perm; [|exact Hg'].
    destruct (enter_inv _ _ _ _ _ Hrun) as (_ & _ & _ & HE' & _). unfold toks. simpl. by rewrite HE'.
  - assert (Hs' : s' = set_lk_events (E1 ++ E2) s).
    { revert Hrun. unfold callJs_enter. destruct (jr_env r); by intros [= _ <-]. }
    subst s'. apply good_events. eapply good_perm; [|exact Hg]. unfold toks. simpl. rewrite HE, !flat_map_app. simpl. done.
  - eapply good_perm; [|exact Hg]. unfold toks. simpl. rewrite (return_tok _ _ _ _ Hcs), HR. simpl. solve_Permutation.
  - pose proof (promise_quiet _ _ _ _ _ Hrun) as Hq. eapply good_quiet; [exact Hq|]. eapply good_perm; [|exact Hg]. unfold toks. simpl.
    destruct Hq as (_ & _ & _ & -> & _). rewrite HR. simpl. solve_Permutation.
  - eapply good_perm; [|exact Hg]. unfold toks. simpl. rewrite HP. destruct resolved; simpl; solve_Permutation.
  - set (X := toks _) in *. apply (good_weaken Y (early s X key ++ Y)) in Hg; [|set_solver].
    assert (HD : key ∉ early s X key ++ Y -> drivers s key X = []).
    { intros Hny. destruct (decide (drivers s key X = [])) as [|Hne]; [done|]. destruct Hny. apply elem_of_app. left. by apply early_elem. }
    pose proof (good_unlock _ _ _ _ _ _ _ _ _ Hg HD Hrun) as Hg'. eapply good_perm; [|exact Hg'].
    apply take_lock_run in Hrun as [_ ->]. unfold X, toks. simpl. by rewrite tell_toks.
  - set (X := toks _) in *. set (Y' := flat_map _ _ ++ Y). apply (good_weaken Y Y') in Hg; [|unfold Y'; set_solver].
    assert (HD : forall key, key ∈ released_keys owner s -> key ∉ Y' -> drivers s key X = []).
    { intros key Hin Hny. destruct (decide (drivers s key X = [])) as [|Hne]; [done|]. destruct Hny. apply elem_of_app. left.
      apply list_elem_of_In, in_flat_map. exists key. split; [by apply list_elem_of_In|]. apply list_elem_of_In. by apply early_elem. }
    pose proof (good_close _ _ _ _ _ _ _ _ _ Hg HD Hrun) as Hg'. eapply good_perm; [|exact Hg'].
    apply take_owned_run in Hrun as ->. unfold X, toks. simpl. by rewrite tell_toks.
  - eapply good_quiet; [|exact Hg]. apply quiet_fields; done.
  - eapply good_quiet; [|exact Hg]. apply quiet_fields; done.
Qed.

(** ** The system from its start *)

(** A new descriptor, and the handles on it. *)
Definition lk_new (handles : list Z) : Locks := mkLocks ∅ true handles ∅ 1 [] [].
Definition lk_start (y : lk_sys) : Prop := exists handles, y = mkLkSys (lk_new handles) [] [] [] [] [] [] [].
Definition lk_reachable {NA : Napi} (y : lk_sys) : Prop := exists y0, lk_start y0 /\ rtc lk_step y0 y.

Lemma start_good y : lk_start y -> sys_good y.
Proof. intros [handles ->]. constructor; [done|constructor|]. intros key _. split; [simpl; lia|]. intros _. simpl. rewrite lookup_empty. split_and!; [done|done|intros Hin; inversion Hin]. Qed.

Lemma reachable_good {NA : Napi} y : lk_reachable y -> sys_good y.
Proof. intros (y0 & Hy0 & Hrun). apply start_good in Hy0. revert Hy0. induction Hrun; [done|]. intros Hg. by eapply IHHrun, step_good. Qed.

(** The callbacks of [key] whose JavaScript function runs or whose promise is
    pending. *)
Definition in_progress (key : string) (y : lk_sys) : list Z :=
  filter (fun p => cd_key <$> lk_data (y_st y) !! p = Some key) (y_running y ++ y_promises y).

Lemma in_progress_drivers key y : (length (in_progress key y) <= length (drivers (y_st y) key (toks y)))%nat.
Proof.
  assert (Hm : forall l, length (filter (fun p => cd_key <$> lk_data (y_st y) !! p = Some key) l) = length (drivers (y_st y) key (map Tdata l))).
  { intros l. unfold drivers. induction l as [|p l IH]; [done|]. simpl. rewrite !filter_cons. simpl. destruct (decide _); simpl; by rewrite IH. }
  unfold in_progress, toks. rewrite Hm, map_app, !drivers_app, !length_app. lia.
Qed.

(** ** No callback is forgotten *)

(** No action of a thread brings the descriptor back. *)
Lemma exec_alive {NA : Napi} c s cs s' : exec c s = (inr cs, s') -> lk_alive s' = true -> lk_alive s = true.
Proof.
  intros Hx. assert (Hq : forall p d s0, quiet (set_lk_data (<[p := set_cd_completed true d]> (lk_data s)) s) s0 -> lk_alive s0 = true -> lk_alive s = true)
    by (intros p d s0 (_ & _ & HA & _); exact HA).
  destruct c; cbn [exec] in Hx.
  - apply bind_inv in Hx as (c & s1 & Hc%claim_events & [= _ <-]). by rewrite (proj2 Hc).
  - apply bind_inv in Hx as (b & s1 & Hm & [= _ <-]). rewrite mark_complete_run in Hm. by destruct (lk_locks s !! key); injection Hm as _ <-.
  - apply bind_inv in Hx as (c & s1 & Hc%claim_events & [= _ <-]). by rewrite (proj2 Hc).
  - rewrite (bind_run _ _ _ _ _ (call_next_run key c s)) in Hx. by injection Hx as _ <-.
  - by injection Hx as _ <-.
  - rewrite (bind_run _ _ _ _ _ (call_tsfn_run f None s)) in Hx. by injection Hx as _ <-.
  - apply bind_inv in Hx as (d & s1 & [-> Hd]%deref_inv & Hx). by injection Hx as _ <-.
  - apply (quietly_bind (deref p) (fun d => settle_deferred ResolveDeferred d;; mret [])) in Hx; [|apply quietly_deref|intros d; eauto using quietly_bind, quietly_settle, quietly_ret].
    by destruct Hx as (_ & _ & HA & _).
  - apply quietly_bind in Hx; [by destruct Hx as (_ & _ & HA & _)|apply quietly_delete|intros; apply quietly_ret].
  - apply quietly_bind in Hx; [by destruct Hx as (_ & _ & HA & _)|apply quietly_share|intros; apply quietly_ret].
  - apply quietly_bind in Hx; [by destruct Hx as (_ & _ & HA & _)|apply quietly_unshare|intros; apply quietly_ret].
  - apply bind_inv in Hx as (d & s1 & [-> Hd]%deref_inv & Hx). rewrite (bind_run _ _ s (lk_alive s) s) in Hx by done.
    apply bind_inv in Hx as ([] & s2 & [= <-] & ([] & s3 & Hw & [= _ <-])%bind_inv). apply (Hq p d).
    unfold when in Hw. destruct (_ && _); [by eapply quietly_settle|by eapply quietly_ret].
  - apply bind_inv in Hx as (d & s1 & [-> Hd]%deref_inv & Hx). rewrite (bind_run _ _ s (lk_alive s) s) in Hx by done.
    apply bind_inv in Hx as ([] & s2 & Hw & [= _ <-]). unfold when in Hw. destruct (lk_alive s) eqn:Ha; [done|]. injection Hw as <-. by rewrite Ha.
Qed.

(** The callback [f] asked for on [key] was started, refused or dropped by the
    runtime, or told of a release. *)
Definition handled (key : string) (f : Z) (tr : list label) : Prop :=
  Started key f ∈ tr \/ Lost key f ∈ tr \/ Told f ∈ tr.

(** A callback asked for is one of those since the last release, is handled, or a
    thread is about to tell it. *)
Definition recalled (key : string) (f : Z) (T : list (list cmd)) (tr : list label) : Prop :=
  f ∈ asked key tr \/ handled key f tr \/ CTell f ∈ concat T.
Definition remembered (y : lk_sys) : Prop :=
  forall key f, key ∉ y_early y -> lk_alive (y_st y) = true -> Asked key f ∈ y_trace y -> recalled key f (y_threads y) (y_trace y).

Lemma since_subset key tr l : l ∈ since key tr -> l ∈ tr.
Proof.
  induction tr as [|l' tr IH] using rev_ind; [done|]. unfold since. rewrite foldl_app. simpl. destruct (frees key l'); [set_solver|].
  intros [H|H]%elem_of_app; set_solver.
Qed.

Lemma gone_handled key f tr : f ∈ gone key tr -> handled key f tr.
Proof.
  unfold gone. intros (l & Hl & Hf)%list_elem_of_In%in_flat_map. apply list_elem_of_In, since_subset in Hl.
  destruct l as [| k g | k g | |]; simpl in Hf; try done; destruct (String.eqb_spec k key) as [->|]; try done; destruct Hf as [->|[]]; unfold handled; auto.
Qed.

Lemma asked_elem key f ls : calm key ls -> Asked key f ∈ ls -> f ∈ asked key ls.
Proof.
  intros Hc Hin. unfold asked. rewrite since_calm by done. apply list_elem_of_In, in_flat_map. exists (Asked key f).
  split; [by apply list_elem_of_In|]. simpl. rewrite String.eqb_refl. by left.
Qed.

(** What a step without a release of [key] keeps. *)
Lemma recalled_app key f T T' tr ls :
  calm key ls -> (forall g, CTell g ∈ concat T -> CTell g ∈ concat T' \/ Told g ∈ ls) ->
  (Asked key f ∈ tr -> recalled key f T tr) -> Asked key f ∈ tr ++ ls -> recalled key f T' (tr ++ ls).
Proof.
  intros Hc HT Hr [Hin|Hin]%elem_of_app; unfold recalled, handled; rewrite asked_app by done; [|left; apply elem_of_app; right; by apply asked_elem].
  destruct (Hr Hin) as [Ha|[Hh|Ht]]; [set_solver|unfold handled in Hh; set_solver|]. destruct (HT _ Ht); set_solver.
Qed.

Lemma fset_elem f fs : f ∈ fs -> f ∈ foldr fset_insert [] fs.
Proof.
  assert (Hin : forall g l x, x = g \/ x ∈ l -> x ∈ fset_insert g l).
  { intros g l x. induction l as [|h l IH]; simpl; [set_solver|]. destruct (g <? h); [set_solver|]. destruct (Z.eqb_spec g h) as [->|]; [set_solver|].
    rewrite !elem_of_cons. intros [->|[->|Hx]]; auto. }
  induction fs as [|g fs IH]; [done|]. intros [->|Hf]%elem_of_cons; simpl; apply Hin; auto.
Qed.

Lemma owned_told owner s fs s' key f :
  take_owned owner s = (inr fs, s') -> key ∈ released_keys owner s -> f ∈ map lc_callback (waiting key s) -> f ∈ fs.
Proof.
  intros (s0 & s1 & [= <- <-] & ([] & s2 & [= <-] & [= <- _])%bind_inv)%bind_inv (h & Hh & Ho)%released_keys_spec (c & -> & Hc)%list_elem_of_fmap.
  apply fset_elem, list_elem_of_fmap. exists c. split; [done|]. unfold waiting in Hc. rewrite Hh in Hc. simpl in Hc.
  apply list_elem_of_In, in_flat_map. exists (key, h). split; [|by apply list_elem_of_In].
  apply list_elem_of_In, elem_of_map_to_list, map_lookup_filter_Some. done.
Qed.

(** A release: those that waited are about to be told. *)
Lemma recalled_freed key f ks T fs tr y :
  sys_good y -> y_trace y = tr -> key ∉ y_early y -> lk_alive (y_st y) = true -> y_threads y = T ->
  drivers (y_st y) key (toks y) = [] -> (forall g, g ∈ map lc_callback (waiting key (y_st y)) -> g ∈ fs) ->
  (Asked key f ∈ tr -> recalled key f T tr) -> Asked key f ∈ tr ++ map Freed ks -> recalled key f (map CTell fs :: T) (tr ++ map Freed ks).
Proof.
  intros Hg <- Hny Hal <- HD Hfs Hr [Hin|(? & [=] & _)%list_elem_of_fmap]%elem_of_app. unfold recalled. simpl.
  assert (Hh : forall g, handled key g (y_trace y) -> handled key g (y_trace y ++ map Freed ks)) by (unfold handled; set_solver).
  destruct (Hr Hin) as [Ha|[?|?]]; [|auto|right; right; set_solver]. destruct (g_key _ _ _ _ _ _ Hg key Hny) as [_ Hk]. specialize (Hk Hal). rewrite HD in Hk.
  assert (E : asked key (y_trace y) = gone key (y_trace y) ++ map lc_callback (waiting key (y_st y))).
  { unfold waiting. destruct (lk_locks (y_st y) !! key) as [h|]; [apply Hk|]. simpl. rewrite app_nil_r. apply Hk. }
  rewrite E in Ha. apply elem_of_app in Ha as [Ha|Ha]; [right; left; by apply Hh, gone_handled|].
  right. right. apply elem_of_app. left. apply list_elem_of_fmap. exists f. split; [done|]. by apply Hfs.
Qed.

Lemma step_remembered {NA : Napi} y y' : lk_step y y' -> sys_good y -> remembered y -> remembered y'.
Proof.
  intros Hstep Hg Hr key f. pose proof (Hr key f) as Hk.
  destruct Hstep as
    [s T R P H K Y tr env k cb df owner isNew s' Hal Hv Hrun|s T R P H K Y tr env k cb owner isNew s' Hal Hv Hrun
    |s T T' R P H K Y tr c cs cs' s' HT Hx|s T R P H K Y tr E1 E2 g p d r s' HE Hd Hrun|s T R P H K Y tr E1 E2 g p d r s' HE Hd Hrun
    |s T R P H K Y tr E1 E2 g r b s' HE Hrun|s T R R' P H K Y tr p r result cs HR Hcs|s T R R' P H K Y tr p r result s' HR Hrun
    |s T R P P' H K Y tr p resolved HP|s T R P H K Y tr k fs s' Hrun|s T R P H K Y tr owner fs s' Hrun
    |s T R P H K Y tr hs|s T R P H K Y tr]; cbn [y_st y_early y_trace y_threads] in *; intros Hny Hal'.
  - apply recalled_app with T; [eapply labels_calm, asked_label_of| |auto]. destruct isNew; simpl; set_solver.
  - apply recalled_app with T; [destruct isNew; [constructor|eapply labels_calm, asked_label_of]|auto|auto].
  - apply recalled_app with T.
    + destruct c; simpl; try constructor; [destruct (tsfn_status _ _); by repeat constructor|by repeat constructor..].
    + intros g. rewrite HT. simpl. intros [<-|[Hin|Hin]%elem_of_app]%elem_of_cons; [right; simpl; set_solver|left; set_solver..].
    + intros Hin. apply Hk; [done| |done]. by eapply (exec_alive c).
  - apply recalled_app with T; [by repeat constructor|auto|]. intros Hin. apply Hk; [done| |done].
    destruct (enter_inv _ _ _ _ _ Hrun) as (_ & _ & HA & _). by apply HA.
  - apply recalled_app with T; [by repeat constructor|auto|]. intros Hin. apply Hk; [done| |done].
    destruct (enter_inv _ _ _ _ _ Hrun) as (_ & _ & HA & _). by apply HA.
  - assert (Hs' : s' = set_lk_events (E1 ++ E2) s).
    { revert Hrun. unfold callJs_enter. destruct (jr_env r); by intros [= _ <-]. }
    subst s'. by apply Hk.
  - intros Hin. destruct (Hk Hny Hal' Hin) as [?|[?|?]]; unfold recalled; simpl; [auto..|right; right; set_solver].
  - apply Hk; [done|]. destruct (promise_quiet _ _ _ _ _ Hrun) as (_ & _ & HA & _). by apply HA.
  - intros Hin. destruct (Hk Hny Hal' Hin) as [?|[?|?]]; unfold recalled; simpl; [auto..|right; right; set_solver].
  - assert (Hny0 : key ∉ Y) by set_solver. pose proof (take_lock_run _ _ _ _ Hrun) as [-> ->]. simpl in Hal'.
    destruct (decide (key = k)) as [->|Hne].
    + eapply (recalled_freed k f [k] T _ tr _ Hg); try done; [|by apply Hk]. simpl. destruct (decide (drivers s k (toks (mkLkSys s T R P H K Y tr)) = [])) as [|HD]; [done|].
      destruct Hny. apply elem_of_app. left. by apply early_elem.
    + apply recalled_app with T; [|simpl; set_solver|by apply Hk]. constructor; [|constructor]. simpl. by apply String.eqb_neq.
  - assert (Hny0 : key ∉ Y) by set_solver. pose proof (take_owned_run _ _ _ _ Hrun) as ->. simpl in Hal'.
    destruct (decide (key ∈ released_keys owner s)) as [Hin|Hout].
    + eapply (recalled_freed key f _ T _ tr _ Hg); try done; [| |by apply Hk].
      * simpl. destruct (decide (drivers s key (toks (mkLkSys s T R P H K Y tr)) = [])) as [|HD]; [done|].
        destruct Hny. apply elem_of_app. left. apply list_elem_of_In, in_flat_map. exists key. split; [by apply list_elem_of_In|].
        apply list_elem_of_In. by apply early_elem.
      * intros g. by eapply owned_told.
    + apply recalled_app with T; [|simpl; set_solver|by apply Hk]. apply Forall_forall. intros l (k & -> & Hin)%list_elem_of_fmap. simpl.
      apply String.eqb_neq. by intros ->.
  - by apply Hk.
  - done.
Qed.

Lemma reachable_remembered {NA : Napi} y : lk_reachable y -> remembered y.
Proof.
  intros (y0 & Hy0 & Hrun). assert (Hr : remembered y0) by (destruct Hy0 as [hs ->]; intros key f _ _ Hin; inversion Hin).
  apply start_good in Hy0. revert Hy0 Hr. induction Hrun as [|y z y' Hstep _ IH]; [done|]. intros Hg Hr. apply IH; [by eapply step_good|by eapply step_remembered].
Qed.

(** The functions called without completion data between two states, in order. *)
Definition told_calls (s s' : Locks) : list Z :=
  omap (fun c => match c with CallTsfn f None _ => Some f | _ => None end) (drop (length (lk_calls s)) (lk_calls s')).

Lemma call_released_calls {NA : Napi} fs s u s' :
  call_released fs s = (inr u, s') ->
  exists l, lk_calls s' = lk_calls s ++ l /\ omap (fun c => match c with CallTsfn f None _ => Some f | _ => None end) l = fs.
Proof.
  revert s. induction fs as [|f fs IH]; intros s; cbn [call_released]; [intros [= _ <-]; exists []; by rewrite app_nil_r|].
  rewrite (bind_run _ _ _ _ _ (call_tsfn_run f None s)). intros ([] & s2 & Hrel & Hrun)%bind_inv. destruct (IH _ Hrun) as (l & Hl & <-).
  destruct (tsfn_status (lk_calls s) f); injection Hrel as <-; simpl in Hl; rewrite Hl; eexists; rewrite <- ?app_assoc; split; try done.
Qed.

Lemma unlock_tells {NA : Napi} key s b s' : Unlock key s = (inr b, s') -> told_calls s s' = map lc_callback (waiting key s).
Proof.
  intros (o & s1 & Ht & Hrun)%bind_inv. unfold told_calls. destruct o as [fs|].
  - apply take_lock_run in Ht as [<- ->]. apply bind_inv in Hrun as ([] & s2 & Hc & [= _ <-]). destruct (call_released_calls _ _ _ _ Hc) as (l & Hl & <-).
    simpl in Hl. by rewrite Hl, drop_app_length.
  - injection Hrun as _ <-. revert Ht. unfold take_lock, find_lock, waiting. mrun. destruct (lk_locks s !! key); [done|]. intros [= <-]. by rewrite drop_all.
Qed.

(** C16: a key lock is exclusive, unless it is released under a callback.  In every
    state the threads can reach, whatever the order of the calls and the answers of
    the runtime, for a key that was never released by [unlock] or with its owner
    while a callback of it was under way ([y_early]): at most one callback runs with
    the lock, from the call of its JavaScript function to the end of the promise it
    returned, and while the descriptor lives none does while [tryLock] holds the key.
    Such a release breaks the exclusion ([unlock_breaks_exclusion],
    [close_runs_waiting_callback]); callbacks that are told of a release run without
    the lock and are not counted. *)
Theorem lock_exclusive {NA : Napi} key y :
  lk_reachable y -> key ∉ y_early y ->
  (length (in_progress key y) <= 1)%nat /\
  (lk_alive (y_st y) = true -> key ∈ y_held y -> in_progress key y = []).
Proof.
  intros Hy Hny. destruct (g_key _ _ _ _ _ _ (reachable_good y Hy) key Hny) as [Hlen Hk]. pose proof (in_progress_drivers key y) as Hle.
  split; [lia|]. intros Hal Hin. specialize (Hk Hal). apply length_zero_iff_nil. destruct (lk_locks (y_st y) !! key) as [h|].
  - destruct Hk as (_ & Hh & _). rewrite (Hh Hin) in Hle. simpl in Hle. lia.
  - by destruct Hk as (_ & _ & Hh).
Qed.

(** C17: callbacks get a key lock in the order they asked for it.  For a key that was
    never released while a callback of it was under way ([y_early]), while the
    descriptor lives: the callbacks asked for since the lock was last released by
    [unlock] or with its owner are those that were started or that the runtime
    refused, then at most one on its way, then the queue, in this order; and [unlock]
    calls the functions of the queue in its order.  A release with the owner calls
    them in the order of their addresses, and a callback that asks after a release
    may start before the earlier ones are told. *)
Theorem lock_fifo {NA : Napi} key y :
  lk_reachable y -> key ∉ y_early y -> lk_alive (y_st y) = true ->
  (exists next, (length next <= 1)%nat /\
     asked key (y_trace y) = gone key (y_trace y) ++ next ++ map lc_callback (waiting key (y_st y))) /\
  (forall b s', Unlock key (y_st y) = (inr b, s') -> told_calls (y_st y) s' = map lc_callback (waiting key (y_st y))).
Proof.
  intros Hy Hny Hal. split; [|intros b s'; apply unlock_tells].
  destruct (g_key _ _ _ _ _ _ (reachable_good y Hy) key Hny) as [Hlen Hk]. specialize (Hk Hal).
  exists (flat_map tok_fn (drivers (y_st y) key (toks y))). split.
  - destruct (drivers _ _ _) as [|[] [|]]; simpl in *; lia.
  - unfold waiting. destruct (lk_locks (y_st y) !! key) as [h|]; [apply Hk|]. destruct Hk as (-> & -> & _). by rewrite !app_nil_r.
Qed.

(** C18: no callback waits for a lock that nobody has.  For a key that was never
    released while a callback of it was under way ([y_early]), while the descriptor
    lives: when no thread, event, function or promise is at work on the key,
    [tryLock] does not hold it and the runtime dropped none of its callbacks
    ([y_stuck]: it answered [napi_closing], or its environment was gone, and then the
    key stays locked, [closing_blocks_key]), the lock is gone and every callback ever
    asked for was started, refused by the runtime when it was called, or told of a
    release, or a thread is about to tell it. *)
Theorem lock_no_lost_callback {NA : Napi} key y :
  lk_reachable y -> key ∉ y_early y -> lk_alive (y_st y) = true ->
  drivers (y_st y) key (toks y) = [] -> key ∉ y_held y -> key ∉ y_stuck y ->
  lk_locks (y_st y) !! key = None /\
  forall f, Asked key f ∈ y_trace y -> handled key f (y_trace y) \/ CTell f ∈ concat (y_threads y).
Proof.
  intros Hy Hny Hal HD HH HK. destruct (g_key _ _ _ _ _ _ (reachable_good y Hy) key Hny) as [_ Hk]. specialize (Hk Hal).
  destruct (lk_locks (y_st y) !! key) as [h|]; [destruct Hk as (Hno & _); by destruct (Hno HD)|]. destruct Hk as (_ & E & _). split; [done|].
  intros f Hin. destruct (reachable_remembered y Hy key f Hny Hal Hin) as [Ha|[?|?]]; auto. rewrite E in Ha. left. by apply gone_handled.
Qed.

(** ** Witnesses *)

Definition napi_fine : Napi := fun _ _ => napi_ok.

(** The state an operation leaves. *)
Definition after {A} (m : LM A) (s : Locks) : Locks := snd (m s).

Section Demo.
#[local] Instance fine : Napi := napi_fine.

Definition js_fine : js_run := mkJsRun true true true true true true true true true.

(** Two callbacks ask for "k"; the first one runs. *)
Definition d1 := after (lockEnqueueCallback 0 "k" (Function (Some 7)) 1 false (Some 70)) (lk_new [1]).
Definition d2 := after (lockEnqueueCallback 0 "k" (Function (Some 8)) 1 false (Some 80)) d1.
Definition d3 := after (exec (CFirst "k")) d2.
Definition d4 := after (exec (CCall "k" (mkLockCallback 7 (Some 70)))) d3.
Definition d5 := after (callJs_enter js_fine (Some 1)) (set_lk_events [] d4).

Definition demo : lk_sys := mkLkSys d5 [[CRelease 7]] [1] [] [] [] [] [Asked "k" 7; Asked "k" 8; Started "k" 7].

Lemma demo_reachable : lk_reachable demo.
Proof.
  exists (mkLkSys (lk_new [1]) [] [] [] [] [] [] []). split; [by exists [1]|].
  eapply rtc_l; [eapply (step_with _ [] [] [] [] [] [] [] 0 "k" (Function (Some 7)) 70 1 true d1); [reflexivity|done|reflexivity]|].
  eapply rtc_l; [eapply (step_with _ _ [] [] [] [] [] _ 0 "k" (Function (Some 8)) 80 1 false d2); [reflexivity|done|reflexivity]|].
  eapply rtc_l; [eapply (step_exec _ _ [] [] [] [] [] [] _ (CFirst "k") [] _ d3); [reflexivity|reflexivity]|].
  eapply rtc_l; [eapply (step_exec _ _ [] [] [] [] [] [] _ (CCall "k" (mkLockCallback 7 (Some 70))) [] _ d4); [reflexivity|reflexivity]|].
  eapply rtc_l; [eapply (step_start _ _ [] [] [] [] [] _ [] [] 7 1 _ js_fine d5); reflexivity|]. apply rtc_refl.
Qed.

(** One callback asks for "k", runs and returns; its thread completes the lock. *)
Definition e2 := after (exec (CFirst "k")) d1.
Definition e3 := after (exec (CCall "k" (mkLockCallback 7 (Some 70)))) e2.
Definition e4 := after (callJs_enter js_fine (Some 1)) (set_lk_events [] e3).
Definition e5 := after (exec (CResolve 1)) e4.
Definition e6 := after (exec (CMark "k")) e5.
Definition e7 := after (exec (CClaim "k")) e6.

Definition done_demo : lk_sys := mkLkSys e7 [[CUnshare 1]; [CRelease 7]] [] [] [] [] [] [Asked "k" 7; Started "k" 7].

Lemma done_reachable : lk_reachable done_demo.
Proof.
  exists (mkLkSys (lk_new [1]) [] [] [] [] [] [] []). split; [by exists [1]|].
  eapply rtc_l; [eapply (step_with _ [] [] [] [] [] [] [] 0 "k" (Function (Some 7)) 70 1 true d1); [reflexivity|done|reflexivity]|].
  eapply rtc_l; [eapply (step_exec _ _ [] [] [] [] [] [] _ (CFirst "k") [] _ e2); [reflexivity|reflexivity]|].
  eapply rtc_l; [eapply (step_exec _ _ [] [] [] [] [] [] _ (CCall "k" (mkLockCallback 7 (Some 70))) [] _ e3); [reflexivity|reflexivity]|].
  eapply rtc_l; [eapply (step_start _ _ [] [] [] [] [] _ [] [] 7 1 _ js_fine e4); reflexivity|].
  eapply rtc_l; [eapply (step_return _ _ [1] [] [] [] [] [] _ 1 js_fine (Returned false)); [reflexivity|reflexivity]|].
  eapply rtc_l; [eapply (step_exec _ _ [[CRelease 7]] [] [] [] [] [] _ (CResolve 1) [CComplete 1; CUnshare 1] _ e5); [reflexivity|reflexivity]|].
  eapply rtc_l; [eapply (step_exec _ _ [[CRelease 7]] [] [] [] [] [] _ (CComplete 1) [CUnshare 1] _ e5); [reflexivity|reflexivity]|].
  eapply rtc_l; [eapply (step_exec _ _ [[CRelease 7]] [] [] [] [] [] _ (CMark "k") [CUnshare 1] _ e6); [reflexivity|reflexivity]|].
  eapply rtc_l; [eapply (step_exec _ _ [[CRelease 7]] [] [] [] [] [] _ (CClaim "k") [CUnshare 1] _ e7); [reflexivity|reflexivity]|]. apply rtc_refl.
Qed.
End Demo.

Lemma lock_exclusive_witness : in_progress "k" demo = [1] /\ (length (in_progress "k" demo) <= 1)%nat.
Proof. split; [vm_compute; reflexivity|]. exact (proj1 (lock_exclusive "k" demo demo_reachable ltac:(intros Hin; inversion Hin))). Defined.

Lemma lock_fifo_witness : exists next, (length next <= 1)%nat /\ [7; 8] = [7] ++ next ++ [8].
Proof. exact (proj1 (lock_fifo "k" demo demo_reachable ltac:(intros Hin; inversion Hin) eq_refl)). Defined.

Lemma lock_no_lost_callback_witness :
  lk_locks (y_st done_demo) !! "k" = None /\ (handled "k" 7 (y_trace done_demo) \/ CTell 7 ∈ concat (y_threads done_demo)).
Proof.
  destruct (lock_no_lost_callback "k" done_demo done_reachable) as [Hl Hf];
    [intros Hin; inversion Hin|reflexivity|vm_compute; reflexivity|intros Hin; inversion Hin..|].
  split; [exact Hl|]. apply Hf. left.
Defined.

(** ** Where the locks do not keep their promise *)

Section Flaws.
#[local] Instance fine' : Napi := napi_fine.

(** Take the next event of the runtime and call its function. *)
Definition run_event : LM bool :=
  ev ← gets lk_events;
  match ev with
  | (_, data) :: rest => modify (set_lk_events rest);; callJs_enter js_fine data
  | [] => mret false
  end.

(** [unlock] while a callback runs breaks the exclusion of callbacks that start
    after it.  The first callback of "k" has a pending promise when "k" is
    unlocked; the second one asks for the lock and starts; the third one is queued
    behind it.  When the first promise ends, [onCallbackComplete] finds the lock of
    the second one, takes it for its own and starts the third, while the second
    one is still running. *)
Theorem unlock_breaks_exclusion :
  match (WithLock true 0 "k" (Function (Some 7)) 70 1;; run_event;; callJs_return js_fine (Returned true) 1;;
         Unlock "k";;
         WithLock true 0 "k" (Function (Some 8)) 80 1;; run_event;; callJs_return js_fine (Returned true) 2;;
         WithLock true 0 "k" (Function (Some 9)) 90 1;;
         quiet_before ← gets lk_events;
         promise_resolved 1;;
         started ← run_event;
         d2 ← deref 2; d3 ← deref 3;
         mret (quiet_before, started, cd_completed d2, cd_key d2, cd_key d3)) (lk_new [1]) with
  | (inr (quiet_before, started, completed2, k2, k3), s) =>
      quiet_before = [] /\ started = true /\ completed2 = false /\ k2 = "k" /\ k3 = "k" /\
      ResolveDeferred 80 ∉ lk_calls s /\ RejectDeferred 80 ∉ lk_calls s
  | _ => False
  end.
Proof. vm_compute. split_and!; try reflexivity; intros Hin; repeat (inversion Hin as [|? ? ? Hin']; subst; clear Hin; rename Hin' into Hin). Qed.

(** A callback that throws makes [callJsCallback] delete its completion data
    twice: once by hand, once by the [shared_ptr] that owns it; and the promise of
    [withLock] is never settled. *)
Theorem throw_deletes_twice :
  match (WithLock true 0 "k" (Function (Some 7)) 70 1;; run_event) (lk_new [1]) with
  | (inr started, s) =>
      started = true /\
      exists s', callJs_return js_fine Threw 1 s = (inl (OutOfRange "use of deleted completion data"), s') /\
        ResolveDeferred 70 ∉ lk_calls s' /\ RejectDeferred 70 ∉ lk_calls s'
  | _ => False
  end.
Proof.
  vm_compute. split; [reflexivity|]. eexists. split; [reflexivity|].
  split; intros Hin; repeat (inversion Hin as [|? ? ? Hin']; subst; clear Hin; rename Hin' into Hin).
Qed.

(** Closing the handle that made a lock runs the callbacks that other handles
    queued on it without the lock, and never settles their promises: the function
    is called with no completion data while the first callback still runs. *)
Theorem close_runs_waiting_callback :
  match (WithLock true 0 "k" (Function (Some 7)) 70 1;; run_event;;
         WithLock true 0 "k" (Function (Some 8)) 80 2;;
         lockReleaseByOwner 1;; ev ← gets lk_events; run_event;;
         callJs_return js_fine (Returned false) 1;; mret ev) (lk_new [1; 2]) with
  | (inr ev, s) => ev = [(8, None)] /\ lk_events s = [] /\ lk_locks s = ∅ /\
      ResolveDeferred 70 ∈ lk_calls s /\ ResolveDeferred 80 ∉ lk_calls s /\ RejectDeferred 80 ∉ lk_calls s
  | _ => False
  end.
Proof.
  vm_compute. split_and!; try reflexivity; try (by repeat constructor);
    intros Hin; repeat (inversion Hin as [|? ? ? Hin']; subst; clear Hin; rename Hin' into Hin).
Qed.
End Flaws.

(** A callback whose thread is gone keeps its key locked.  The runtime answers
    [napi_closing] for the function of a worker that ended; the lock stays marked as
    running, and a callback that asks for it later waits for ever. *)
Theorem closing_blocks_key :
  let NA : Napi := fun _ f => if f =? 8 then napi_closing else napi_ok in
  match (WithLock true 0 "k" (Function (Some 7)) 70 1;; run_event;;
         WithLock true 0 "k" (Function (Some 8)) 80 1;;
         callJs_return js_fine (Returned false) 1;;
         WithLock true 0 "k" (Function (Some 9)) 90 1) (lk_new [1]) with
  | (inr _, s) => lk_events s = [] /\ waiting "k" s = [mkLockCallback 9 (Some 90)] /\
      (isRunning <$> lk_locks s !! "k") = Some true
  | _ => False
  end.
Proof. vm_compute. split_and!; reflexivity. Qed.
