(* ===== verification/DbRegistry.v ===== *)
(** * The registry of databases ([database/db_registry.h], [.cpp])

    One RocksDB instance is open per path and read-only flag; the handles of all
    threads share its descriptor, and the last one to close it closes the
    instance.  [databasesMutex] is released while a descriptor closes and while an
    opener waits, so [OpenDB] and [PurgeIfUnreferenced] are split there.

    Descriptors and map nodes live on heaps; an opener that waits keeps a
    reference to its node, and following a reference to a node that was erased is
    an error of the model.  The [shared_ptr]s to a descriptor are those in the
    nodes, in the handles, and those the running calls hold.  What RocksDB
    answers is the parameter [RocksDb]. *)

From S2P Require Import Prelude Encoding LogFormat Os LogFile LogStore VerificationTable Transaction.
From stdpp Require Import base tactics list gmap strings.
From Stdlib Require Import ZArith Lia.

Local Open Scope Z_scope.

(** ** State *)

Abbreviation DBKey := (string * bool)%type.    (* path, readOnly *)

Record DBDescriptor := mkDescriptor {
  ds_path : string;
  ds_readOnly : bool;
  ds_mode : DBMode;
  ds_columns : list (string * Z);
  ds_closing : bool;
  ds_db : bool;                   (* db is not null *)
  ds_closables : list Z;          (* the handles that are attached *)
}.

Definition set_ds_columns v d := mkDescriptor (ds_path d) (ds_readOnly d) (ds_mode d) v (ds_closing d) (ds_db d) (ds_closables d).
Definition set_ds_closing v d := mkDescriptor (ds_path d) (ds_readOnly d) (ds_mode d) (ds_columns d) v (ds_db d) (ds_closables d).
Definition set_ds_db v d := mkDescriptor (ds_path d) (ds_readOnly d) (ds_mode d) (ds_columns d) (ds_closing d) v (ds_closables d).
Definition set_ds_closables v d := mkDescriptor (ds_path d) (ds_readOnly d) (ds_mode d) (ds_columns d) (ds_closing d) (ds_db d) v.

Definition ds_key (d : DBDescriptor) : DBKey := (ds_path d, ds_readOnly d).

(** What the registry asks of RocksDB, the log store registry, the verification
    table and the event emitter. *)
Inductive db_call :=
| DbOpen (key : DBKey)
| DbCreateColumn (d : Z) (name : string)
| LogRegister (path : string)
| DbFlush (d : Z)
| DbCompactColumn (d column : Z)
| DbWaitForCompact (d : Z)
| VtCancel (d : Z)
| EventsRelease (d : Z)
| DbClose (d : Z)
| LogUnregister (path : string)
| DbDestroy (path : string)
| RemovePath (path : string).

Class RocksDb := {
  (** the column families of the instance, or an error *)
  open_answer : list db_call -> DBKey -> string + list string;
  column_answer : list db_call -> string -> option string;   (* an error *)
  destroy_answer : list db_call -> string -> option string;
}.

Record DbReg := mkDbReg {
  dr_databases : gmap DBKey Z;                (* key to map node *)
  dr_entries : gmap Z (option Z);             (* node to descriptor *)
  dr_descriptors : gmap Z DBDescriptor;
  dr_handles : gmap Z (option Z);             (* DBHandle to descriptor *)
  dr_locals : list Z;                         (* shared_ptrs of running calls *)
  dr_next : Z;
  dr_log : list db_call;
  dr_compactOnClose : bool;                   (* of DBSettings *)
}.

Definition set_dr_databases v s := mkDbReg v (dr_entries s) (dr_descriptors s) (dr_handles s) (dr_locals s) (dr_next s) (dr_log s) (dr_compactOnClose s).
Definition set_dr_entries v s := mkDbReg (dr_databases s) v (dr_descriptors s) (dr_handles s) (dr_locals s) (dr_next s) (dr_log s) (dr_compactOnClose s).
Definition set_dr_descriptors v s := mkDbReg (dr_databases s) (dr_entries s) v (dr_handles s) (dr_locals s) (dr_next s) (dr_log s) (dr_compactOnClose s).
Definition set_dr_handles v s := mkDbReg (dr_databases s) (dr_entries s) (dr_descriptors s) v (dr_locals s) (dr_next s) (dr_log s) (dr_compactOnClose s).
Definition set_dr_locals v s := mkDbReg (dr_databases s) (dr_entries s) (dr_descriptors s) (dr_handles s) v (dr_next s) (dr_log s) (dr_compactOnClose s).
Definition set_dr_next v s := mkDbReg (dr_databases s) (dr_entries s) (dr_descriptors s) (dr_handles s) (dr_locals s) v (dr_log s) (dr_compactOnClose s).
Definition set_dr_log v s := mkDbReg (dr_databases s) (dr_entries s) (dr_descriptors s) (dr_handles s) (dr_locals s) (dr_next s) v (dr_compactOnClose s).

Definition DM (A : Type) : Type := M DbReg A.

Definition log_call (c : db_call) : DM unit := modify (fun s => set_dr_log (dr_log s ++ [c]) s).
Definition next_id : DM Z := n ← gets dr_next; modify (set_dr_next (n + 1));; mret n.

Definition descriptor (d : Z) : DM DBDescriptor := fun s =>
  match dr_descriptors s !! d with
  | Some ds => (inr ds, s)
  | None => (inl (OutOfRange "no such descriptor"), s)
  end.
Definition put_descriptor (d : Z) (ds : DBDescriptor) : DM unit :=
  modify (fun s => set_dr_descriptors (<[d := ds]> (dr_descriptors s)) s).

(** [entry.descriptor], through a reference to the map node. *)
Definition entry_descriptor (eid : Z) : DM (option Z) := fun s =>
  match dr_entries s !! eid with
  | Some od => (inr od, s)
  | None => (inl (OutOfRange "use of an erased registry entry"), s)
  end.
Definition put_entry_descriptor (eid : Z) (od : option Z) : DM unit :=
  modify (fun s => set_dr_entries (<[eid := od]> (dr_entries s)) s).

(** [databases.erase]: the node goes with its key. *)
Definition erase_entry (key : DBKey) (eid : Z) : DM unit :=
  modify (fun s => set_dr_entries (delete eid (dr_entries s)) (set_dr_databases (delete key (dr_databases s)) s)).

(** [shared_ptr<DBDescriptor>::use_count()] *)
Definition refs_in (d : Z) (m : gmap Z (option Z)) : nat := size (filter (fun kv => kv.2 = Some d) m).
Definition use_count (d : Z) (s : DbReg) : nat :=
  (refs_in d (dr_entries s) + refs_in d (dr_handles s) + length (filter (fun d' => d' = d) (dr_locals s)))%nat.

(** ** Closing a descriptor *)

Definition beginClose (d : Z) : DM bool :=
  ds ← descriptor d; put_descriptor d (set_ds_closing true ds);; mret (negb (ds_closing ds)).

(** [this->descriptor.reset()] of a handle whose descriptor stays alive: the call
    that closes it holds a reference, or it is being destroyed. *)
Definition reset_handle (h : Z) : DM unit :=
  modify (fun s => set_dr_handles (alter (fun _ => None) h (dr_handles s)) s).

Fixpoint compact_columns (d : Z) (cols : list (string * Z)) : DM unit :=
  match cols with [] => mret tt | (_, c) :: cols => log_call (DbCompactColumn d c);; compact_columns d cols end.

(** Once no operation is in flight: the data is flushed, the handles that are
    attached are closed, and the instance is closed. *)
Definition finishClose (d : Z) : DM unit :=
  ds ← descriptor d;
  log_call (DbFlush d);;
  compact ← gets dr_compactOnClose;
  when (negb (ds_readOnly ds) && compact) (compact_columns d (ds_columns ds));;
  log_call (DbWaitForCompact d);;
  modify (fun s => foldr (fun h s => set_dr_handles (alter (fun _ => None) h (dr_handles s)) s) s (ds_closables ds));;
  log_call (VtCancel d);;
  log_call (LogUnregister (ds_path ds));;
  ds' ← descriptor d;
  put_descriptor d (set_ds_db false (set_ds_columns [] (set_ds_closables [] ds')));;
  log_call (EventsRelease d);;
  log_call (DbClose d).

Definition DBDescriptor_close (d : Z) : DM unit :=
  claimed ← beginClose d; when claimed (finishClose d).

(** After a [shared_ptr] to [d] went away: the last one destroys the descriptor. *)
Definition released (d : Z) : DM unit :=
  n ← gets (use_count d);
  if decide (n = 0%nat) then
    DBDescriptor_close d;;
    modify (fun s => set_dr_descriptors (delete d (dr_descriptors s)) s)
  else mret tt.

Definition take_local (d : Z) : DM unit := modify (fun s => set_dr_locals (d :: dr_locals s) s).

Fixpoint remove_one (d : Z) (l : list Z) : list Z :=
  match l with [] => [] | x :: l => if x =? d then l else x :: remove_one d l end.

Definition drop_local (d : Z) : DM unit :=
  modify (fun s => set_dr_locals (remove_one d (dr_locals s)) s);; released d.

(** ** Opening *)

Record DBOptions := mkOptions { o_name : string; o_mode : DBMode; o_readOnly : bool }.

Definition column_name (o : DBOptions) : string := if String.eqb (o_name o) "" then "default" else o_name o.

Fixpoint find_column (name : string) (cols : list (string * Z)) : option Z :=
  match cols with
  | [] => None
  | (n, c) :: cols => if String.eqb n name then Some c else find_column name cols
  end.

Section Open.
Context {RD : RocksDb}.

Definition create_column (d : Z) (name : string) : DM Z :=
  calls ← gets dr_log;
  log_call (DbCreateColumn d name);;
  match column_answer calls name with
  | Some e => throw (DBException e)
  | None => next_id
  end.

(** A column family descriptor for each handle RocksDB gives. *)
Fixpoint number_columns (names : list string) : DM (list (string * Z)) :=
  match names with
  | [] => mret []
  | n :: names => c ← next_id; cols ← number_columns names; mret ((n, c) :: cols)
  end.

(** The instance, its column families, and the registration of its logs. *)
Definition DBDescriptor_open (path : string) (o : DBOptions) : DM Z :=
  calls ← gets dr_log;
  log_call (DbOpen (path, o_readOnly o));;
  match open_answer calls (path, o_readOnly o) with
  | inl e => throw (DBException e)
  | inr names =>
      d ← next_id;
      cols ← number_columns names;
      cols' ← (match find_column (o_name o) cols with
               | Some _ => mret cols
               | None => c ← create_column d (o_name o); mret ((o_name o, c) :: cols)
               end);
      put_descriptor d (mkDescriptor path (o_readOnly o) (o_mode o) cols' false true []);;
      log_call (LogRegister path);;
      mret d
  end.

(** The predicate of the wait: may the opener go on? *)
Definition open_ready (eid : Z) : DM bool :=
  od ← entry_descriptor eid;
  match od with
  | Some d =>
      ds ← descriptor d;
      if ds_closing ds then put_entry_descriptor eid None;; released d;; mret false
      else mret true
  | None => mret true
  end.

(** [columns.find(name)], else [columns["default"]], which may be null. *)
Definition pick_column (name : string) (cols : list (string * Z)) : option Z :=
  match find_column name cols with Some c => Some c | None => find_column "default" cols end.

Definition mode_name (m : DBMode) : string := match m with Optimistic => "optimistic" | Pessimistic => "pessimistic" end.

(** The descriptor is there: its column family is found or made. *)
Definition open_existing (d : Z) (o : DBOptions) : DM (Z * option Z) :=
  let name := column_name o in
  ds ← descriptor d;
  if negb (bool_decide (mode_name (o_mode o) = mode_name (ds_mode ds))) then
    throw (DBException ("Database already open in '" +:+ mode_name (ds_mode ds) +:+ "' mode"))
  else
    match find_column name (ds_columns ds) with
    | Some _ => mret (d, pick_column name (ds_columns ds))
    | None =>
        if ds_readOnly ds then throw (DBException "cannot create column family in read-only mode")
        else
          c ← create_column d name;
          let cols := ds_columns ds ++ [(name, c)] in
          put_descriptor d (set_ds_columns cols ds);;
          mret (d, pick_column name cols)
    end.

Definition open_fresh (key : DBKey) (eid : Z) (o : DBOptions) : DM (Z * option Z) :=
  d ← catch (DBDescriptor_open key.1 o) (fun e => erase_entry key eid;; throw e);
  put_entry_descriptor eid (Some d);;
  ds ← descriptor d;
  mret (d, pick_column (column_name o) (ds_columns ds)).

(** The rest of [OpenDB], once the predicate holds. *)
Definition open_proceed (key : DBKey) (eid : Z) (o : DBOptions) : DM (Z * option Z) :=
  od ← entry_descriptor eid;
  match od with
  | Some d => open_existing d o
  | None => open_fresh key eid o
  end.

(** The node of the key, made when there is none. *)
Definition get_entry (key : DBKey) : DM Z :=
  found ← gets (fun s => dr_databases s !! key);
  match found with
  | Some eid => mret eid
  | None =>
      eid ← next_id;
      modify (fun s => set_dr_entries (<[eid := None]> (dr_entries s)) (set_dr_databases (<[key := eid]> (dr_databases s)) s));;
      mret eid
  end.

(** Evaluate the predicate and open, or wait: [None]. *)
Definition open_attempt (key : DBKey) (eid : Z) (o : DBOptions) : DM (option (Z * option Z)) :=
  ready ← open_ready eid;
  if ready : bool then r ← open_proceed key eid o; mret (Some r) else mret None.

(** [OpenDB] up to the first wait: the node, and the result if it need not wait. *)
Definition OpenDB (path : string) (o : DBOptions) : DM (Z * option (Z * option Z)) :=
  let key := (path, o_readOnly o) in
  eid ← get_entry key;
  r ← open_attempt key eid o;
  mret (eid, r).

(** [DBHandle::open] and [attach]: the handle takes the descriptor. *)
Definition handle_opened (h d : Z) : DM unit :=
  modify (fun s => set_dr_handles (<[h := Some d]> (dr_handles s)) s);;
  ds ← descriptor d;
  put_descriptor d (set_ds_closables (h :: ds_closables ds) ds).

(** ** Closing *)

(** Under the lock: claim the close of a descriptor that only the registry holds. *)
Definition purge_claim (key : DBKey) : DM (option Z) :=
  found ← gets (fun s => dr_databases s !! key);
  match found with
  | None => mret None
  | Some eid =>
      od ← entry_descriptor eid;
      match od with
      | None => mret None
      | Some d =>
          n ← gets (use_count d);
          if decide (n <= 1)%nat then
            claimed ← beginClose d;
            if claimed : bool then take_local d;; mret (Some d) else mret None
          else mret None
      end
  end.

(** Under the lock again: erase the entry that was claimed. *)
Definition purge_erase (key : DBKey) (d : Z) : DM unit :=
  found ← gets (fun s => dr_databases s !! key);
  (match found with
   | None => mret tt
   | Some eid =>
       od ← entry_descriptor eid;
       match od with
       | None => erase_entry key eid
       | Some d' => when (d' =? d) (erase_entry key eid)
       end
   end);;
  drop_local d.

Definition PurgeIfUnreferenced (key : DBKey) : DM unit :=
  claimed ← purge_claim key;
  match claimed with
  | Some d => finishClose d;; purge_erase key d
  | None => mret tt
  end.

(** [CloseDB] up to the purge: the handle is detached and closed. *)
Definition close_handle (h : Z) : DM (option DBKey) :=
  od ← gets (fun s => dr_handles s !! h);
  match od with
  | Some (Some d) =>
      ds ← descriptor d;
      put_descriptor d (set_ds_closables (filter (fun h' => h' <> h) (ds_closables ds)) ds);;
      reset_handle h;; released d;;
      mret (Some (ds_key ds))
  | _ => mret None
  end.

Definition CloseDB (h : Z) : DM unit :=
  key ← close_handle h;
  match key with Some key => PurgeIfUnreferenced key | None => mret tt end.

(** [DestroyDB], the loop over the entries of the path: [held] is the local
    [descriptor], overwritten by each. *)
Fixpoint destroy_take (keys : list DBKey) (held : option Z) : DM (option Z) :=
  match keys with
  | [] => mret held
  | key :: keys =>
      found ← gets (fun s => dr_databases s !! key);
      match found with
      | None => destroy_take keys held
      | Some eid =>
          od ← entry_descriptor eid;
          (match od with Some d => take_local d | None => mret tt end);;
          (match held with Some d => drop_local d | None => mret tt end);;
          erase_entry key eid;;
          destroy_take keys od
      end
  end.

Definition DestroyDB (path : string) (order : list bool) : DM unit :=
  held ← destroy_take (map (pair path) order) None;
  (match held with
   | Some d =>
       DBDescriptor_close d;;
       n ← gets (use_count d);
       if decide (1 < n)%nat then drop_local d;; throw (DBException "Cannot destroy database: references still held")
       else drop_local d
   | None => mret tt
   end);;
  calls ← gets dr_log;
  log_call (DbDestroy path);;
  match destroy_answer calls path with
  | Some e => throw (DBException e)
  | None => log_call (RemovePath path)
  end.

(** [PurgeAll], entry by entry in the order of the map. *)
Fixpoint PurgeAll (keys : list DBKey) : DM unit :=
  match keys with
  | [] => mret tt
  | key :: keys =>
      found ← gets (fun s => dr_databases s !! key);
      (match found with
       | None => mret tt
       | Some eid =>
           od ← entry_descriptor eid;
           (match od with Some d => take_local d;; DBDescriptor_close d | None => mret tt end);;
           erase_entry key eid;;
           (match od with Some d => drop_local d | None => mret tt end)
       end);;
      PurgeAll keys
  end.

Fixpoint close_all (ds : list Z) : DM unit :=
  match ds with [] => mret tt | d :: ds => DBDescriptor_close d;; close_all ds end.

Fixpoint drop_all (ds : list Z) : DM unit :=
  match ds with [] => mret tt | d :: ds => drop_local d;; drop_all ds end.

(** The descriptors in the registry, in the order of the map. *)
Definition collect (keys : list DBKey) (s : DbReg) : list Z :=
  omap (fun key => match dr_databases s !! key with Some eid => default None (dr_entries s !! eid) | None => None end) keys.

Definition Shutdown (keys : list DBKey) : DM unit :=
  ds ← gets (collect keys);
  modify (fun s => set_dr_locals (ds ++ dr_locals s) s);;
  close_all ds;; PurgeAll keys;; drop_all ds.

Definition Size : DM nat := gets (fun s => size (dr_databases s)).
End Open.
