(* ===== verification/DbRegistryProofs.v ===== *)
(** * The registry of databases never closes a database in use

    Every order of the threads' steps through [OpenDB], [CloseDB],
    [PurgeIfUnreferenced] and the operations that hold a descriptor; and the
    orders in which an opener that waits goes wrong. *)

From S2P Require Import Prelude Encoding LogFormat Os LogFile LogStore VerificationTable Transaction DbRegistry.
From stdpp Require Import base tactics list gmap strings relations.
From Stdlib Require Import ZArith Lia.

Local Open Scope Z_scope.

(** ** References *)

Lemma refs_none d m : refs_in d m = 0%nat -> forall k, m !! k <> Some (Some d).
Proof.
  unfold refs_in. intros H%map_size_empty_iff k Hk. apply (f_equal (lookup k)) in H.
  rewrite (map_lookup_filter_Some_2 (fun kv => kv.2 = Some d) m k (Some d) Hk eq_refl) in H. by rewrite lookup_empty in H.
Qed.

Lemma refs_some d m k : m !! k = Some (Some d) -> (1 <= refs_in d m)%nat.
Proof. intros Hk. destruct (refs_in d m) eqn:E; [|lia]. by destruct (refs_none d m E k). Qed.

Lemma locals_none (d : Z) l : length (filter (fun d' => d' = d) l) = 0%nat -> d ∉ l.
Proof.
  intros H Hin. assert (Hf : d ∈ filter (fun d' => d' = d) l) by (by apply list_elem_of_filter).
  destruct (filter _ l); [by inversion Hf|done].
Qed.

#[global] Instance db_call_eq_dec : EqDecision db_call.
Proof. solve_decision. Defined.

(** How often the instance of [d] was closed. *)
Definition closes (d : Z) (log : list db_call) : nat :=
  length (filter (fun c => c = DbClose d) log).

Lemma closes_app d l c : closes d (l ++ [c]) = (closes d l + if decide (c = DbClose d) then 1 else 0)%nat.
Proof. unfold closes. rewrite filter_app, length_app, filter_cons, filter_nil. by destruct (decide _). Qed.

(** ** The invariant *)

Definition usable (d : Z) (s : DbReg) : Prop := exists ds, dr_descriptors s !! d = Some ds /\ ds_closing ds = false.

(** [pend d]: how many calls have claimed the close of [d] and not run it. *)
Record reg_ok (pend : Z -> nat) (s : DbReg) : Prop := mkRegOk {
  ro_next : forall n, dr_next s <= n -> dr_descriptors s !! n = None /\ closes n (dr_log s) = 0%nat /\ pend n = 0%nat;
  ro_entries : forall e d, dr_entries s !! e = Some (Some d) -> is_Some (dr_descriptors s !! d);
  ro_locals : forall d, d ∈ dr_locals s -> is_Some (dr_descriptors s !! d);
  ro_handles : forall h d, dr_handles s !! h = Some (Some d) -> usable d s;
  ro_db : forall d ds, dr_descriptors s !! d = Some ds -> ds_closing ds = false ->
    ds_db ds = true /\ closes d (dr_log s) = 0%nat /\ pend d = 0%nat;
  ro_once : forall d, (closes d (dr_log s) + pend d <= 1)%nat;
}.

Definition ok_triple {A} (pend : Z -> nat) (m : DM A) (Q : A -> DbReg -> Prop) : Prop :=
  triple (reg_ok pend) m (fun a s => reg_ok pend s /\ Q a s) (reg_ok pend).

Section Ops.
Context (pend : Z -> nat).

Lemma ok_ret {A} (a : A) (Q : A -> DbReg -> Prop) : (forall s, reg_ok pend s -> Q a s) -> ok_triple pend (mret a) Q.
Proof. intros H. apply triple_ret. auto. Qed.

Lemma ok_throw {A} e (Q : A -> DbReg -> Prop) : ok_triple pend (throw e) Q.
Proof. by apply triple_throw. Qed.

Lemma ok_bind {A B} (m : DM A) (k : A -> DM B) R Q :
  ok_triple pend m R -> (forall a, triple (fun s => reg_ok pend s /\ R a s) (k a) (fun b s => reg_ok pend s /\ Q b s) (reg_ok pend)) ->
  ok_triple pend (a ← m; k a) Q.
Proof. intros Hm Hk. exact (triple_bind _ m k _ _ _ Hm Hk). Qed.

(** A state with the same heap, and fewer references. *)
Lemma ok_fewer s s' :
  dr_descriptors s' = dr_descriptors s -> dr_next s' = dr_next s -> dr_log s' = dr_log s ->
  (forall e d, dr_entries s' !! e = Some (Some d) -> is_Some (dr_descriptors s !! d)) ->
  (forall d, d ∈ dr_locals s' -> is_Some (dr_descriptors s !! d)) ->
  (forall h d, dr_handles s' !! h = Some (Some d) -> usable d s) ->
  reg_ok pend s -> reg_ok pend s'.
Proof.
  intros HD HN HL He Hl Hh [N E Lo H D O]. constructor; unfold usable in *; rewrite ?HD, ?HN, ?HL; auto.
Qed.

(** A call that is not a close. *)
Lemma ok_log c s : (forall d, c <> DbClose d) -> reg_ok pend s -> reg_ok pend (set_dr_log (dr_log s ++ [c]) s).
Proof.
  intros Hc [N E Lo H D O].
  assert (Hcl : forall d, closes d (dr_log s ++ [c]) = closes d (dr_log s)).
  { intros d. rewrite closes_app. destruct (decide _) as [->|]; [by destruct (Hc d)|lia]. }
  constructor; simpl; try done.
  - intros n Hn. rewrite Hcl. auto.
  - intros d ds Hd. rewrite Hcl. eauto.
  - intros d. rewrite Hcl. auto.
Qed.

(** Changing a descriptor but not whether it closes. *)
Lemma ok_put d ds ds' s :
  dr_descriptors s !! d = Some ds -> ds_closing ds' = ds_closing ds -> (ds_closing ds = false -> ds_db ds' = ds_db ds) ->
  reg_ok pend s -> reg_ok pend (set_dr_descriptors (<[d := ds']> (dr_descriptors s)) s).
Proof.
  intros Hd Hc Hdb [N E Lo H D O].
  assert (Hs : forall d0, is_Some (dr_descriptors s !! d0) -> is_Some (<[d := ds']> (dr_descriptors s) !! d0)).
  { intros d0. rewrite lookup_insert_is_Some. destruct (decide (d = d0)); auto. }
  constructor; simpl; eauto.
  - intros n Hn. destruct (N n Hn) as (Hn1 & Hn2). rewrite lookup_insert_ne; [done|]. intros <-. congruence.
  - intros h d0 Hh. destruct (H h d0 Hh) as (ds0 & Hd0 & Hc0). unfold usable. simpl. destruct (decide (d = d0)) as [<-|Hne].
    + rewrite lookup_insert_eq. exists ds'. split; [done|]. congruence.
    + rewrite lookup_insert_ne by done. by exists ds0.
  - intros d0 ds0. destruct (decide (d = d0)) as [<-|Hne]; [|rewrite lookup_insert_ne by done; apply D].
    rewrite lookup_insert_eq. intros [= <-] Hc0. rewrite Hdb by congruence. apply (D d ds); congruence.
Qed.
End Ops.

(** ** Closing a descriptor *)

Definition bump (d : Z) (pend : Z -> nat) (x : Z) : nat := if decide (x = d) then S (pend x) else pend x.

Lemma bump_same d pend : bump d pend d = S (pend d).
Proof. unfold bump. by rewrite decide_True. Qed.
Lemma bump_other d pend x : x <> d -> bump d pend x = pend x.
Proof. intros. unfold bump. by rewrite decide_False. Qed.

(** [beginClose] of a descriptor that no handle has. *)
Lemma ok_claimed pend d ds s :
  dr_descriptors s !! d = Some ds -> ds_closing ds = false -> (forall h, dr_handles s !! h <> Some (Some d)) ->
  reg_ok pend s -> reg_ok (bump d pend) (set_dr_descriptors (<[d := set_ds_closing true ds]> (dr_descriptors s)) s).
Proof.
  intros Hd Hc Hno [N E Lo H D O].
  assert (Hs : forall d0, is_Some (dr_descriptors s !! d0) -> is_Some (<[d := set_ds_closing true ds]> (dr_descriptors s) !! d0)).
  { intros d0. rewrite lookup_insert_is_Some. destruct (decide (d = d0)); auto. }
  destruct (D d ds Hd Hc) as (_ & Hcl & Hp). constructor; simpl; eauto.
  - intros n Hn. destruct (N n Hn) as (Hn1 & Hn2 & Hn3). assert (n <> d) by congruence.
    rewrite lookup_insert_ne, bump_other by done. done.
  - intros h d0 Hh. destruct (H h d0 Hh) as (ds0 & Hd0 & Hc0). unfold usable. simpl.
    rewrite lookup_insert_ne by (intros <-; by apply (Hno h)). by exists ds0.
  - intros d0 ds0. destruct (decide (d0 = d)) as [->|Hne]; [rewrite lookup_insert_eq; by intros [= <-]|].
    rewrite lookup_insert_ne, bump_other by done. apply D.
  - intros d0. destruct (decide (d0 = d)) as [->|Hne]; [rewrite bump_same; lia|rewrite bump_other by done; apply O].
Qed.

Lemma ok_closed pend d ds s :
  dr_descriptors s !! d = Some ds -> ds_closing ds = true ->
  reg_ok (bump d pend) s -> reg_ok pend (set_dr_log (dr_log s ++ [DbClose d]) s).
Proof.
  intros Hd Hc [N E Lo H D O].
  assert (Hcl : forall x, closes x (dr_log s ++ [DbClose d]) = (closes x (dr_log s) + if decide (x = d) then 1 else 0)%nat).
  { intros x. rewrite closes_app. destruct (decide (x = d)) as [->|Hne]; [by rewrite decide_True|].
    rewrite decide_False by congruence. done. }
  constructor; simpl; eauto.
  - intros n Hn. destruct (N n Hn) as (Hn1 & Hn2 & Hn3). assert (n <> d) by congruence.
    rewrite Hcl, decide_False, bump_other in * by done. split_and!; [done|lia|done].
  - intros d0 ds0 Hd0 Hc0. destruct (D d0 ds0 Hd0 Hc0) as (H1 & H2 & H3). assert (d0 <> d) by congruence.
    rewrite Hcl, decide_False, bump_other in * by done. split_and!; [done|lia|done].
  - intros d0. specialize (O d0). rewrite Hcl. destruct (decide (d0 = d)) as [->|Hne]; [rewrite bump_same in O; lia|].
    rewrite bump_other in O by done. lia.
Qed.

(** The handles of [hs] lose their descriptor. *)
Definition reset_handles (hs : list Z) (s : DbReg) : DbReg :=
  foldr (fun h s => set_dr_handles (alter (fun _ => None) h (dr_handles s)) s) s hs.

Lemma reset_handles_frame hs s :
  dr_descriptors (reset_handles hs s) = dr_descriptors s /\ dr_next (reset_handles hs s) = dr_next s /\
  dr_log (reset_handles hs s) = dr_log s /\ dr_entries (reset_handles hs s) = dr_entries s /\
  dr_locals (reset_handles hs s) = dr_locals s /\ dr_databases (reset_handles hs s) = dr_databases s /\
  forall h d, dr_handles (reset_handles hs s) !! h = Some (Some d) -> dr_handles s !! h = Some (Some d).
Proof.
  induction hs as [|h0 hs (I1 & I2 & I3 & I4 & I5 & I6 & I7)]; [done|]. simpl. split_and!; try done.
  intros h d. rewrite lookup_alter_Some. intros [(-> & x & _ & [=])|[_ Hx]]. eauto.
Qed.

(** What [finishClose] asks for before it closes the instance. *)
Definition closing_calls (d : Z) (ds : DBDescriptor) (s : DbReg) : list db_call :=
  [DbFlush d] ++ (if negb (ds_readOnly ds) && dr_compactOnClose s then map (fun c => DbCompactColumn d c.2) (ds_columns ds) else []) ++
  [DbWaitForCompact d; VtCancel d; LogUnregister (ds_path ds); EventsRelease d].

(** The state after [finishClose]. *)
Definition finished (d : Z) (ds : DBDescriptor) (s : DbReg) : DbReg :=
  let s1 := reset_handles (ds_closables ds) s in
  set_dr_log (dr_log s ++ closing_calls d ds s ++ [DbClose d])
    (set_dr_descriptors (<[d := set_ds_db false (set_ds_columns [] (set_ds_closables [] ds))]> (dr_descriptors s)) s1).

Lemma compact_columns_run d cols s :
  compact_columns d cols s = (inr tt, set_dr_log (dr_log s ++ map (fun c => DbCompactColumn d c.2) cols) s).
Proof.
  revert s. induction cols as [|[n c] cols IH]; intros s; simpl; [rewrite app_nil_r; by destruct s|].
  rewrite (bind_run _ _ s tt (set_dr_log (dr_log s ++ [DbCompactColumn d c]) s)) by done. rewrite IH. simpl. by rewrite <- app_assoc.
Qed.

Lemma reset_handles_log hs log s : reset_handles hs (set_dr_log log s) = set_dr_log log (reset_handles hs s).
Proof. induction hs as [|h hs IH]; [done|]. simpl. by rewrite IH. Qed.

Lemma finishClose_run d ds s : dr_descriptors s !! d = Some ds -> finishClose d s = (inr tt, finished d ds s).
Proof.
  intros Hd. unfold finishClose. rewrite (bind_run _ _ s ds s) by (unfold descriptor; by rewrite Hd).
  pose proof (reset_handles_frame (ds_closables ds) s) as (HD & _ & HL & _).
  set (mid := if negb (ds_readOnly ds) && dr_compactOnClose s then map (fun c => DbCompactColumn d c.2) (ds_columns ds) else []).
  rewrite (bind_run _ _ s tt (set_dr_log (dr_log s ++ [DbFlush d]) s)) by done.
  rewrite (bind_run _ _ _ (dr_compactOnClose s) (set_dr_log (dr_log s ++ [DbFlush d]) s)) by done.
  rewrite (bind_run _ _ _ tt (set_dr_log ((dr_log s ++ [DbFlush d]) ++ mid) s)).
  2: { unfold when, mid. destruct (negb _ && _); [by rewrite compact_columns_run|]. by rewrite app_nil_r. }
  rewrite (bind_run _ _ _ tt (set_dr_log (((dr_log s ++ [DbFlush d]) ++ mid) ++ [DbWaitForCompact d]) s)) by done.
  rewrite (bind_run _ _ _ tt (set_dr_log (((dr_log s ++ [DbFlush d]) ++ mid) ++ [DbWaitForCompact d]) (reset_handles (ds_closables ds) s)))
    by (rewrite <- reset_handles_log; reflexivity).
  unfold log_call, put_descriptor. mrun. unfold descriptor. simpl.
  assert (E : dr_descriptors (reset_handles (ds_closables ds) s) !! d = Some ds) by (by rewrite HD). rewrite E.
  unfold finished, closing_calls, set_dr_log, set_dr_descriptors. simpl. rewrite HD. fold mid. do 2 f_equal. by rewrite <- !app_assoc.
Qed.

(** A list of calls without a close. *)
Lemma ok_logs pend cs s :
  Forall (fun c => forall d, c <> DbClose d) cs -> reg_ok pend s -> reg_ok pend (set_dr_log (dr_log s ++ cs) s).
Proof.
  intros Hcs. revert s. induction Hcs as [|c cs Hc _ IH]; intros s Hok; [rewrite app_nil_r; by destruct s|].
  apply (ok_log _ c) in Hok; [|done]. specialize (IH _ Hok). simpl in IH. by rewrite <- app_assoc in IH.
Qed.

Lemma closing_calls_other d ds s : Forall (fun c => forall d, c <> DbClose d) (closing_calls d ds s).
Proof.
  unfold closing_calls. repeat (apply Forall_app; split); [by repeat constructor| |by repeat constructor].
  destruct (negb _ && _); [|constructor]. apply Forall_forall. by intros c (x & -> & _)%list_elem_of_fmap.
Qed.

Lemma ok_finished pend d ds s :
  dr_descriptors s !! d = Some ds -> ds_closing ds = true ->
  reg_ok (bump d pend) s -> reg_ok pend (finished d ds s).
Proof.
  intros Hd Hc Hok. pose proof (reset_handles_frame (ds_closables ds) s) as (HD & HN & HL & HE & Hlo & _ & HH).
  set (s1 := reset_handles (ds_closables ds) s) in *.
  assert (Hok1 : reg_ok (bump d pend) s1).
  { apply (ok_fewer _ s); [done|done|done|rewrite HE; apply Hok|rewrite Hlo; apply Hok| |exact Hok].
    intros h x Hx. by eapply (ro_handles _ _ Hok), HH. }
  apply (ok_logs _ (closing_calls d ds s)) in Hok1; [|apply closing_calls_other].
  apply (ok_put _ d ds (set_ds_db false (set_ds_columns [] (set_ds_closables [] ds)))) in Hok1; [|by rewrite <- Hd, <- HD|done|by rewrite Hc].
  eapply ok_closed in Hok1; [|simpl; apply lookup_insert_eq|done]. unfold finished. fold s1. simpl in Hok1.
  rewrite HD, HL, <- app_assoc in Hok1. exact Hok1.
Qed.

(** No reference to a descriptor of count zero: it may be destroyed. *)
Lemma ok_deleted pend d s :
  use_count d s = 0%nat -> reg_ok pend s -> reg_ok pend (set_dr_descriptors (delete d (dr_descriptors s)) s).
Proof.
  intros Hu [N E Lo H D O]. unfold use_count in Hu.
  assert (He := refs_none d (dr_entries s) ltac:(lia)). assert (Hh := refs_none d (dr_handles s) ltac:(lia)).
  assert (Hl := locals_none d (dr_locals s) ltac:(lia)).
  constructor; simpl; try done.
  - intros n Hn. destruct (N n Hn) as (H1 & H2). split; [|done]. destruct (decide (d = n)) as [<-|Hne]; [apply lookup_delete_eq|].
    by rewrite lookup_delete_ne.
  - intros e d0 Hd0. rewrite lookup_delete_ne by (intros <-; by apply (He e)). eauto.
  - intros d0 Hd0. rewrite lookup_delete_ne by (by intros <-). eauto.
  - intros h d0 Hd0. unfold usable. simpl. rewrite lookup_delete_ne by (intros <-; by apply (Hh h)). by eapply H.
  - intros d0 ds0 [_ Hd0]%lookup_delete_Some. by apply D.
Qed.

Lemma refs_in_zero d m : (forall k, m !! k <> Some (Some d)) -> refs_in d m = 0%nat.
Proof.
  intros H. unfold refs_in. apply map_size_empty_iff, map_empty. intros k. apply map_lookup_filter_None. right.
  intros x Hx Hx2. simpl in Hx2. subst x. by apply (H k).
Qed.

Lemma finished_count d ds s : use_count d s = 0%nat -> use_count d (finished d ds s) = 0%nat.
Proof.
  intros Hu. pose proof (reset_handles_frame (ds_closables ds) s) as (HD & HN & HL & HE & Hlo & _ & HH).
  unfold use_count in *. simpl. rewrite HE, Hlo. assert (Hh := refs_none d (dr_handles s) ltac:(lia)).
  rewrite (refs_in_zero d (dr_handles (reset_handles (ds_closables ds) s))); [lia|]. intros h Hx. by apply (Hh h), HH.
Qed.

Lemma beginClose_run d ds s : dr_descriptors s !! d = Some ds ->
  beginClose d s = (inr (negb (ds_closing ds)), set_dr_descriptors (<[d := set_ds_closing true ds]> (dr_descriptors s)) s).
Proof. intros Hd. unfold beginClose, descriptor, put_descriptor. mrun. by rewrite Hd. Qed.

Lemma released_ok pend d : ok_triple pend (released d) (fun _ _ => True).
Proof.
  intros s Hok. unfold released. rewrite (bind_run _ _ s (use_count d s) s) by done. destruct (decide _) as [Hu|Hu]; [|done].
  destruct (dr_descriptors s !! d) as [ds|] eqn:Hd.
  2: { unfold DBDescriptor_close, beginClose, descriptor. mrun. by rewrite Hd. }
  set (s1 := set_dr_descriptors (<[d := set_ds_closing true ds]> (dr_descriptors s)) s).
  assert (Hu1 : use_count d s1 = 0%nat) by exact Hu. unfold DBDescriptor_close.
  assert (Hno := refs_none d (dr_handles s) ltac:(unfold use_count in Hu; lia)).
  assert (Hrun : exists s2, (claimed ← beginClose d; when claimed (finishClose d)) s = (inr tt, s2) /\ reg_ok pend s2 /\ use_count d s2 = 0%nat).
  { rewrite (bind_run _ _ _ _ _ (beginClose_run d ds s Hd)). fold s1. destruct (ds_closing ds) eqn:Hc; simpl.
    - exists s1. split; [done|]. split; [|done]. by apply (ok_put _ d ds).
    - exists (finished d (set_ds_closing true ds) s1). split; [apply finishClose_run, lookup_insert_eq|]. split; [|by apply finished_count].
      apply ok_finished; [apply lookup_insert_eq|done|]. by apply ok_claimed. }
  destruct Hrun as (s2 & Hrun & Hok2 & Hu2). rewrite (bind_run _ _ _ _ _ Hrun). split; [|done]. by apply ok_deleted.
Qed.

(** ** Opening *)

(** Only new numbers were taken, and no instance was closed. *)
Record mild (s s' : DbReg) : Prop := mkMild {
  mi_databases : dr_databases s' = dr_databases s;
  mi_entries : dr_entries s' = dr_entries s;
  mi_descriptors : dr_descriptors s' = dr_descriptors s;
  mi_handles : dr_handles s' = dr_handles s;
  mi_locals : dr_locals s' = dr_locals s;
  mi_next : dr_next s <= dr_next s';
  mi_closes : forall d, closes d (dr_log s') = closes d (dr_log s);
}.

Lemma mild_refl s : mild s s.
Proof. by constructor. Qed.

Lemma mild_trans s1 s2 s3 : mild s1 s2 -> mild s2 s3 -> mild s1 s3.
Proof. intros [] []. constructor; try congruence; try lia; intros d; congruence. Qed.

Lemma mild_ok pend s s' : mild s s' -> reg_ok pend s -> reg_ok pend s'.
Proof.
  intros [Db E D H L N C] [N0 E0 L0 H0 D0 O0]. constructor; unfold usable in *; rewrite ?E, ?D, ?H, ?L; try done.
  - intros n Hn. rewrite C. apply N0. lia.
  - intros d ds. rewrite C. apply D0.
  - intros d. rewrite C. apply O0.
Qed.

Definition mildly {A} (m : DM A) : Prop := forall s, mild s (snd (m s)).

Lemma mildly_bind {A B} (m : DM A) (k : A -> DM B) : mildly m -> (forall a, mildly (k a)) -> mildly (a ← m; k a).
Proof.
  intros Hm Hk s. specialize (Hm s). unfold mbind, M_bind. destruct (m s) as [[e|a] s1]; [done|]. simpl in Hm.
  eapply mild_trans; [exact Hm|apply Hk].
Qed.

Lemma mildly_ret {A} (a : A) : mildly (mret a).
Proof. intros s. apply mild_refl. Qed.
Lemma mildly_throw {A} e : mildly (throw e : DM A).
Proof. intros s. apply mild_refl. Qed.
Lemma mildly_gets {A} (f : DbReg -> A) : mildly (gets f).
Proof. intros s. apply mild_refl. Qed.
Lemma mildly_log c : (forall d, c <> DbClose d) -> mildly (log_call c).
Proof.
  intros Hc s. constructor; simpl; try done. intros d. rewrite closes_app. destruct (decide _) as [->|]; [by destruct (Hc d)|lia].
Qed.
Lemma mildly_next_id : mildly next_id.
Proof. intros s. constructor; simpl; try done. lia. Qed.

Create HintDb mildly discriminated.
#[local] Hint Resolve mildly_bind mildly_ret mildly_throw mildly_gets mildly_next_id : mildly.

(** A number no descriptor ever had. *)
Definition unused (pend : Z -> nat) (d : Z) (s : DbReg) : Prop :=
  d < dr_next s /\ dr_descriptors s !! d = None /\ closes d (dr_log s) = 0%nat /\ pend d = 0%nat.

Lemma unused_mild pend d s s' : mild s s' -> unused pend d s -> unused pend d s'.
Proof. intros [] (H1 & H2 & H3 & H4). split; [lia|]. split; [congruence|]. split; [congruence|done]. Qed.

Lemma ok_new pend d ds s :
  unused pend d s -> ds_closing ds = false -> ds_db ds = true ->
  reg_ok pend s -> reg_ok pend (set_dr_descriptors (<[d := ds]> (dr_descriptors s)) s).
Proof.
  intros (Hn & Hd & Hcl & Hp) Hc Hdb [N E Lo H D O].
  assert (Hs : forall d0, is_Some (dr_descriptors s !! d0) -> is_Some (<[d := ds]> (dr_descriptors s) !! d0)).
  { intros d0. rewrite lookup_insert_is_Some. destruct (decide (d = d0)); auto. }
  constructor; simpl; eauto.
  - intros n Hn'. rewrite lookup_insert_ne by lia. by apply N.
  - intros h d0 Hh. destruct (H h d0 Hh) as (ds0 & Hd0 & Hc0). unfold usable. simpl.
    rewrite lookup_insert_ne by congruence. by exists ds0.
  - intros d0 ds0. destruct (decide (d = d0)) as [<-|Hne]; [rewrite lookup_insert_eq; by intros [= <-]|].
    rewrite lookup_insert_ne by done. apply D.
Qed.

Section Opening.
Context {RD : RocksDb} (pend : Z -> nat).

Lemma mildly_create_column d name : mildly (create_column d name).
Proof.
  unfold create_column. apply mildly_bind; [auto with mildly|]. intros calls. apply mildly_bind; [by apply mildly_log|]. intros _.
  destruct (column_answer calls name); auto with mildly.
Qed.

Lemma mildly_number_columns names : mildly (number_columns names).
Proof. induction names as [|n names IH]; simpl; eauto 10 with mildly. Qed.

(** After [m], which is mild, go on. *)
Lemma mild_triple {A B} (m : DM A) (k : A -> DM B) (P : DbReg -> Prop) Q :
  mildly m -> (forall s s', mild s s' -> P s -> P s') -> (forall s, P s -> reg_ok pend s) ->
  (forall a, triple P (k a) Q (reg_ok pend)) -> triple P (a ← m; k a) Q (reg_ok pend).
Proof.
  intros Hm HP Hok Hk. eapply triple_bind; [|exact Hk]. intros s Hs. specialize (Hm s). destruct (m s) as [[e|a] s']; simpl in Hm; eauto.
Qed.

Lemma open_descriptor_ok path o : ok_triple pend (DBDescriptor_open path o) (fun d s => usable d s).
Proof.
  unfold DBDescriptor_open. assert (Hmild : forall s s', mild s s' -> reg_ok pend s -> reg_ok pend s') by (intros ??; apply mild_ok).
  apply mild_triple; [auto with mildly|done|done|]. intros calls. apply mild_triple; [by apply mildly_log|done|done|]. intros _.
  destruct (open_answer calls (path, o_readOnly o)) as [e|names]; [by apply triple_throw|].
  apply triple_bind with (R := fun d s => reg_ok pend s /\ unused pend d s).
  { intros s Hs. unfold next_id. mrun. pose proof (mildly_next_id s) as Hm. unfold next_id in Hm. mrun in Hm. simpl in Hm.
    destruct (ro_next _ _ Hs (dr_next s) ltac:(lia)) as (H1 & H2 & H3). split; [by eapply mild_ok|]. split; [simpl; lia|done]. }
  intros d. assert (Hmild2 : forall s s', mild s s' -> reg_ok pend s /\ unused pend d s -> reg_ok pend s' /\ unused pend d s').
  { intros s s' Hm [H1 H2]. split; [by eapply mild_ok|by eapply unused_mild]. }
  assert (Hfst : forall s, reg_ok pend s /\ unused pend d s -> reg_ok pend s) by (by intros s [? _]).
  apply mild_triple; [apply mildly_number_columns|done|done|]. intros cols.
  apply mild_triple; [|done|done|].
  { destruct (find_column (o_name o) cols); [apply mildly_ret|]. apply mildly_bind; [apply mildly_create_column|]. intros c. apply mildly_ret. }
  intros cols' s [Hok Hun]. unfold put_descriptor, log_call. mrun. simpl. split.
  - exact (ok_log pend (LogRegister path) _ ltac:(done)
      (ok_new pend d (mkDescriptor path (o_readOnly o) (o_mode o) cols' false true []) s Hun eq_refl eq_refl Hok)).
  - eexists. simpl. rewrite lookup_insert_eq. done.
Qed.

Lemma open_ready_ok eid :
  ok_triple pend (open_ready eid) (fun b s => b = true -> forall d, dr_entries s !! eid = Some (Some d) -> usable d s).
Proof.
  intros s Hok. unfold open_ready, entry_descriptor, mbind, M_bind. destruct (dr_entries s !! eid) as [[d|]|] eqn:He; [|split; [exact Hok|]; intros _ x Hx; congruence|exact Hok].
  unfold descriptor. destruct (dr_descriptors s !! d) as [ds|] eqn:Hd; [|exact Hok]. destruct (ds_closing ds) eqn:Hc.
  - set (s1 := set_dr_entries (<[eid := None]> (dr_entries s)) s). simpl.
    assert (Hok1 : reg_ok pend s1).
    { apply (ok_fewer _ s); try done; try apply Hok. intros e x. simpl. destruct (decide (eid = e)) as [<-|Hne].
      - by rewrite lookup_insert_eq.
      - rewrite lookup_insert_ne by done. apply Hok. }
    pose proof (released_ok pend d s1 Hok1) as Hr. fold s1. destruct (released d s1) as [[e|[]] s2]; [done|]. split; [apply Hr|done].
  - split; [done|]. intros _ x Hx. simplify_eq. by exists ds.
Qed.
Lemma open_existing_ok d o :
  triple (fun s => reg_ok pend s /\ usable d s) (open_existing d o) (fun r s => reg_ok pend s /\ usable r.1 s) (reg_ok pend).
Proof.
  intros s [Hok Hus]. pose proof Hus as (ds & Hd & Hc). unfold open_existing. rewrite (bind_run _ _ s ds s) by (unfold descriptor; by rewrite Hd).
  destruct (negb _); [done|]. destruct (find_column _ _); [done|]. destruct (ds_readOnly ds); [done|].
  pose proof (mildly_create_column d (column_name o) s) as Hm. unfold mbind, M_bind.
  destruct (create_column d (column_name o) s) as [[e|c] s1]; simpl in Hm; [by eapply mild_ok|].
  assert (Hok1 : reg_ok pend s1) by (by eapply mild_ok). unfold put_descriptor. mrun. simpl.
  assert (Hd1 : dr_descriptors s1 !! d = Some ds) by (by rewrite (mi_descriptors _ _ Hm)).
  split; [by apply (ok_put _ d ds)|]. eexists. simpl. by rewrite lookup_insert_eq.
Qed.

Lemma open_fresh_ok key eid o :
  ok_triple pend (open_fresh key eid o) (fun r s => usable r.1 s).
Proof.
  intros s Hok. unfold open_fresh. pose proof (open_descriptor_ok key.1 o s Hok) as Ho. unfold mbind, M_bind, catch.
  destruct (DBDescriptor_open key.1 o s) as [[e|d] s1]; simpl in *.
  - apply (ok_fewer _ s1); try done; try apply Ho. intros e0 x. simpl. rewrite lookup_delete_Some. intros [_ Hx]. by eapply Ho.
  - destruct Ho as [Hok1 (ds & Hd & Hc)]. unfold descriptor. simpl. rewrite Hd. simpl. split; [|by exists ds].
    apply (ok_fewer _ s1); try done; try apply Hok1. intros e0 x. simpl. destruct (decide (eid = e0)) as [<-|Hne].
    + rewrite lookup_insert_eq. intros [= <-]. by eexists.
    + rewrite lookup_insert_ne by done. apply Hok1.
Qed.

(** What a handle gets from an attempt to open can be used. *)
Definition gives_usable (r : option (Z * option Z)) (s : DbReg) : Prop :=
  match r with Some (d, _) => usable d s | None => True end.

Lemma open_attempt_ok key eid o : ok_triple pend (open_attempt key eid o) gives_usable.
Proof.
  unfold open_attempt. eapply ok_bind; [apply open_ready_ok|]. intros ready. destruct ready; [|by apply triple_ret; intros s [? _]].
  apply triple_bind with (R := fun r s => reg_ok pend s /\ usable r.1 s); [|by intros [d c]; apply triple_ret].
  intros s [Hok Hus]. specialize (Hus eq_refl). unfold open_proceed, entry_descriptor, mbind, M_bind.
  destruct (dr_entries s !! eid) as [[d|]|] eqn:He; [|by apply open_fresh_ok|exact Hok].
  apply open_existing_ok. auto.
Qed.

Lemma get_entry_ok key : ok_triple pend (get_entry key) (fun _ _ => True).
Proof.
  intros s Hok. unfold get_entry, mbind, M_bind, gets. destruct (dr_databases s !! key) as [eid|]; [done|]. simpl. split; [|done].
  assert (Hok1 : reg_ok pend (set_dr_next (dr_next s + 1) s)) by (exact (mild_ok pend s _ (mildly_next_id s) Hok)).
  apply (ok_fewer _ (set_dr_next (dr_next s + 1) s)); try done; try apply Hok1.
  intros e x. simpl. destruct (decide (dr_next s = e)) as [<-|Hne]; [by rewrite lookup_insert_eq|].
  rewrite lookup_insert_ne by done. apply Hok.
Qed.

Lemma OpenDB_ok path o : ok_triple pend (OpenDB path o) (fun r s => gives_usable r.2 s).
Proof.
  unfold OpenDB. eapply ok_bind; [apply get_entry_ok|]. intros eid. apply triple_bind with (R := fun r s => reg_ok pend s /\ gives_usable r s).
  - intros s [Hok _]. by apply open_attempt_ok.
  - intros r. by apply triple_ret.
Qed.

Lemma handle_opened_ok h d s s' :
  reg_ok pend s -> usable d s -> handle_opened h d s = (inr tt, s') -> reg_ok pend s'.
Proof.
  intros Hok Hus. pose proof Hus as (ds & Hd & Hc). unfold handle_opened, descriptor, put_descriptor. mrun. simpl. rewrite Hd. intros [= <-].
  set (s1 := set_dr_handles (<[h := Some d]> (dr_handles s)) s).
  assert (Hok1 : reg_ok pend s1).
  { apply (ok_fewer _ s); try done; try apply Hok. intros h0 x. simpl. destruct (decide (h = h0)) as [<-|Hne].
    - rewrite lookup_insert_eq. by intros [= <-].
    - rewrite lookup_insert_ne by done. apply Hok. }
  exact (ok_put pend d ds (set_ds_closables (h :: ds_closables ds) ds) s1 Hd eq_refl (fun _ => eq_refl) Hok1).
Qed.
End Opening.

(** ** Closing *)

Lemma purge_claim_ok pend key s :
  reg_ok pend s ->
  match purge_claim key s with
  | (inr (Some d), s') => reg_ok (bump d pend) s' /\ d ∈ dr_locals s' /\ exists ds, dr_descriptors s' !! d = Some ds /\ ds_closing ds = true
  | (_, s') => reg_ok pend s'
  end.
Proof.
  intros Hok. unfold purge_claim, mbind, M_bind, gets. destruct (dr_databases s !! key) as [eid|]; [|done].
  unfold entry_descriptor. destruct (dr_entries s !! eid) as [[d|]|] eqn:He; [|done|done].
  destruct (decide _) as [Hu|]; [|done]. destruct (ro_entries _ _ Hok _ _ He) as [ds Hd]. rewrite (beginClose_run d ds s Hd).
  set (s1 := set_dr_descriptors _ s). destruct (ds_closing ds) eqn:Hc; simpl.
  - by apply (ok_put _ d ds).
  - assert (Hno : forall h, dr_handles s !! h <> Some (Some d)).
    { apply refs_none. pose proof (refs_some d _ eid He). unfold use_count in Hu. lia. }
    pose proof (ok_claimed pend d ds s Hd Hc Hno Hok) as Hok1. fold s1 in Hok1.
    split; [|split; [apply list_elem_of_here|eexists; split; [simpl; apply lookup_insert_eq|done]]].
    apply (ok_fewer _ s1); try done; try apply Hok1. simpl. intros x [->|Hx]%elem_of_cons.
    + rewrite lookup_insert_eq. by eexists.
    + by apply (ro_locals _ _ Hok1).
Qed.

Lemma remove_one_elem d x l : x ∈ remove_one d l -> x ∈ l.
Proof.
  induction l as [|y l IH]; simpl; [done|]. destruct (y =? d); [by right|]. rewrite !elem_of_cons. naive_solver.
Qed.

Lemma drop_local_ok pend d : ok_triple pend (drop_local d) (fun _ _ => True).
Proof.
  intros s Hok. unfold drop_local. rewrite (bind_run _ _ s tt (set_dr_locals (remove_one d (dr_locals s)) s)) by done.
  apply released_ok. apply (ok_fewer _ s); try done; try apply Hok. simpl. intros x Hx%remove_one_elem. by apply Hok.
Qed.

Lemma erase_entry_ok pend key eid s : reg_ok pend s -> reg_ok pend (snd (erase_entry key eid s)).
Proof.
  intros Hok. apply (ok_fewer _ s); try done; try apply Hok. simpl. intros e x. rewrite lookup_delete_Some. intros [_ Hx]. by eapply Hok.
Qed.

Lemma purge_erase_ok pend key d : ok_triple pend (purge_erase key d) (fun _ _ => True).
Proof.
  unfold purge_erase. intros s Hok. rewrite (bind_run _ _ s (dr_databases s !! key) s) by done.
  pose proof (erase_entry_ok pend key) as He. unfold erase_entry in *. unfold mbind, M_bind.
  destruct (dr_databases s !! key) as [eid|]; [|by apply drop_local_ok].
  unfold entry_descriptor. destruct (dr_entries s !! eid) as [[d'|]|]; [|apply drop_local_ok; by apply He|exact Hok].
  destruct (d' =? d); simpl; apply drop_local_ok; [by apply He|done].
Qed.

Lemma reset_handle_ok pend h s : reg_ok pend s -> reg_ok pend (snd (reset_handle h s)).
Proof.
  intros Hok. destruct (reset_handles_frame [h] s) as (_ & _ & _ & _ & _ & _ & HH).
  apply (ok_fewer _ s); try done; try apply Hok. intros h0 d Hd. eapply (ro_handles _ _ Hok). by apply HH.
Qed.

Lemma close_handle_ok pend h : ok_triple pend (close_handle h) (fun _ _ => True).
Proof.
  intros s Hok. unfold close_handle. rewrite (bind_run _ _ s (dr_handles s !! h) s) by done.
  destruct (dr_handles s !! h) as [[d|]|]; [|done|done]. unfold mbind, M_bind, descriptor.
  destruct (dr_descriptors s !! d) as [ds|] eqn:Hd; [|exact Hok].
  set (ds' := set_ds_closables _ ds). set (s1 := set_dr_descriptors (<[d := ds']> (dr_descriptors s)) s).
  assert (Hok1 : reg_ok pend s1) by (by apply (ok_put _ d ds)).
  pose proof (reset_handle_ok pend h s1 Hok1) as Hok2. simpl in *. fold s1.
  pose proof (released_ok pend d _ Hok2) as Hr. fold s1 in Hr.
  destruct (released d _) as [[e|[]] s2]; [done|]. split; [apply Hr|done].
Qed.

(** ** The system *)

(** A call that waits in [OpenDB], and a close that was claimed. *)
Record opener := mkOpener { op_key : DBKey; op_entry : Z; op_options : DBOptions; op_handle : Z }.
Record closer := mkCloser { cl_key : DBKey; cl_descriptor : Z; cl_done : bool }.

Record db_sys := mkDbSys {
  z_st : DbReg;
  z_openers : list opener;
  z_closers : list closer;
  z_ops : list Z;             (* descriptors that operations under way hold *)
}.

(** An error that the caller sees, as opposed to a use of freed memory. *)
Definition thrown {A} (r : exn + A) : Prop := exists msg, r = inl (DBException msg).

(** An opener got its result. *)
Inductive settles (h : Z) (key : DBKey) (eid : Z) (o : DBOptions) (W : list opener) : option (Z * option Z) -> DbReg -> DbReg -> list opener -> Prop :=
| settles_wait s : settles h key eid o W None s s (mkOpener key eid o h :: W)
| settles_open d c s s' : handle_opened h d s = (inr tt, s') -> settles h key eid o W (Some (d, c)) s s' W.

Inductive db_step {RD : RocksDb} : db_sys -> db_sys -> Prop :=
| step_handle s W C O h :
    dr_handles s !! h = None ->
    db_step (mkDbSys s W C O) (mkDbSys (set_dr_handles (<[h := None]> (dr_handles s)) s) W C O)
| step_open s W W' C O h path o eid r s1 s2 :
    dr_handles s !! h = Some None -> OpenDB path o s = (inr (eid, r), s1) ->
    settles h (path, o_readOnly o) eid o W r s1 s2 W' ->
    db_step (mkDbSys s W C O) (mkDbSys s2 W' C O)
| step_open_throws s W C O path o r s1 :
    OpenDB path o s = (r, s1) -> thrown r -> db_step (mkDbSys s W C O) (mkDbSys s1 W C O)
| step_wake s W W1 W' C O w r s1 s2 :
    W ≡ₚ w :: W1 -> open_attempt (op_key w) (op_entry w) (op_options w) s = (inr r, s1) ->
    settles (op_handle w) (op_key w) (op_entry w) (op_options w) W1 r s1 s2 W' ->
    db_step (mkDbSys s W C O) (mkDbSys s2 W' C O)
| step_wake_throws s W W1 C O w r s1 :
    W ≡ₚ w :: W1 -> open_attempt (op_key w) (op_entry w) (op_options w) s = (r, s1) -> thrown r ->
    db_step (mkDbSys s W C O) (mkDbSys s1 W1 C O)
| step_close_handle s W C O h key s1 :
    close_handle h s = (inr key, s1) -> db_step (mkDbSys s W C O) (mkDbSys s1 W C O)
| step_claim s W C O key od s1 :
    purge_claim key s = (inr od, s1) ->
    db_step (mkDbSys s W C O) (mkDbSys s1 W (match od with Some d => mkCloser key d false :: C | None => C end) O)
| step_finish s W C C' O key d s1 :
    C ≡ₚ mkCloser key d false :: C' -> finishClose d s = (inr tt, s1) ->
    db_step (mkDbSys s W C O) (mkDbSys s1 W (mkCloser key d true :: C') O)
| step_erase s W C C' O key d s1 :
    C ≡ₚ mkCloser key d true :: C' -> purge_erase key d s = (inr tt, s1) ->
    db_step (mkDbSys s W C O) (mkDbSys s1 W C' O)
| step_hold s W C O h d :
    dr_handles s !! h = Some (Some d) ->
    db_step (mkDbSys s W C O) (mkDbSys (set_dr_locals (d :: dr_locals s) s) W C (d :: O))
| step_unhold s W C O O' d s1 :
    O ≡ₚ d :: O' -> drop_local d s = (inr tt, s1) ->
    db_step (mkDbSys s W C O) (mkDbSys s1 W C O').

Definition db_new : DbReg := mkDbReg ∅ ∅ ∅ ∅ [] 1 [] false.
Definition db_reachable {RD : RocksDb} (z : db_sys) : Prop := rtc db_step (mkDbSys db_new [] [] []) z.

(** The closes that are claimed and not run. *)
Definition pending (C : list closer) (d : Z) : nat :=
  length (filter (fun c => cl_descriptor c = d /\ cl_done c = false) C).

Lemma reg_ok_ext pend pend' s : (forall d, pend' d = pend d) -> reg_ok pend s -> reg_ok pend' s.
Proof. intros He [N E Lo H D O]. constructor; try done; intros *; rewrite He; auto. Qed.

Lemma pending_false key d C x : pending (mkCloser key d false :: C) x = bump d (pending C) x.
Proof.
  unfold pending, bump. rewrite filter_cons. simpl. destruct (decide (x = d)) as [->|Hne].
  - rewrite decide_True by done. done.
  - rewrite decide_False; [done|]. intros [? _]. congruence.
Qed.

Lemma pending_true key d C x : pending (mkCloser key d true :: C) x = pending C x.
Proof. unfold pending. rewrite filter_cons. rewrite decide_False; [done|]. by intros [_ ?]. Qed.

Lemma pending_perm C C' x : C ≡ₚ C' -> pending C x = pending C' x.
Proof. intros H. unfold pending. by rewrite H. Qed.

Lemma settles_ok pend h key eid o W r s s' W' :
  reg_ok pend s -> gives_usable r s -> settles h key eid o W r s s' W' -> reg_ok pend s'.
Proof. intros Hok Hr Hset. destruct Hset as [s|d c s s' Hopen]; [done|]. by eapply handle_opened_ok. Qed.

Section Reach.
Context {RD : RocksDb}.

Lemma step_ok z z' : db_step z z' -> reg_ok (pending (z_closers z)) (z_st z) -> reg_ok (pending (z_closers z')) (z_st z').
Proof.
  destruct 1 as [s W C O h Hh|s W W' C O h path o eid r s1 s2 Hh Hrun Hset|s W C O path o r s1 Hrun [msg ->]
    |s W W1 W' C O w r s1 s2 HW Hrun Hset|s W W1 C O w r s1 HW Hrun [msg ->]|s W C O h key s1 Hrun|s W C O key od s1 Hrun
    |s W C C' O key d s1 HC Hrun|s W C C' O key d s1 HC Hrun|s W C O h d Hh|s W C O O' d s1 HO Hrun]; cbn [z_st z_closers]; intros Hok.
  - apply (ok_fewer _ s); try done; try apply Hok. intros h0 d. simpl. destruct (decide (h = h0)) as [<-|Hne].
    + by rewrite lookup_insert_eq.
    + rewrite lookup_insert_ne by done. apply Hok.
  - pose proof (OpenDB_ok (pending C) path o s Hok) as Ho. rewrite Hrun in Ho. destruct Ho as [Ho Hu]. by eapply settles_ok.
  - pose proof (OpenDB_ok (pending C) path o s Hok) as Ho. by rewrite Hrun in Ho.
  - pose proof (open_attempt_ok (pending C) (op_key w) (op_entry w) (op_options w) s Hok) as Ho. rewrite Hrun in Ho.
    destruct Ho as [Ho Hu]. by eapply settles_ok.
  - pose proof (open_attempt_ok (pending C) (op_key w) (op_entry w) (op_options w) s Hok) as Ho. by rewrite Hrun in Ho.
  - pose proof (close_handle_ok (pending C) h s Hok) as Ho. rewrite Hrun in Ho. apply Ho.
  - pose proof (purge_claim_ok (pending C) key s Hok) as Ho. rewrite Hrun in Ho. destruct od as [d|]; [|done].
    eapply reg_ok_ext; [|apply Ho]. intros x. apply pending_false.
  - assert (Hok1 : reg_ok (bump d (pending C')) s).
    { eapply reg_ok_ext; [|exact Hok]. intros x. rewrite <- (pending_false key). by apply pending_perm. }
    destruct (dr_descriptors s !! d) as [ds|] eqn:Hd.
    2: { unfold finishClose, descriptor in Hrun. mrun in Hrun. by rewrite Hd in Hrun. }
    rewrite (finishClose_run d ds s Hd) in Hrun. injection Hrun as <-. eapply reg_ok_ext; [intros x; apply pending_true|].
    apply ok_finished; [done| |done]. destruct (ds_closing ds) eqn:Hc; [done|].
    destruct (ro_db _ _ Hok1 d ds Hd Hc) as (_ & _ & Hp). by rewrite bump_same in Hp.
  - assert (Hok1 : reg_ok (pending C') s).
    { eapply reg_ok_ext; [|exact Hok]. intros x. rewrite <- (pending_true key d). by apply pending_perm. }
    pose proof (purge_erase_ok (pending C') key d s Hok1) as Ho. rewrite Hrun in Ho. apply Ho.
  - apply (ok_fewer _ s); try done; try apply Hok. simpl. intros x [->|Hx]%elem_of_cons; [|by apply Hok].
    destruct (ro_handles _ _ Hok h d Hh) as (ds & Hd & _). by eexists.
  - pose proof (drop_local_ok (pending C) d s Hok) as Ho. rewrite Hrun in Ho. apply Ho.
Qed.

Lemma reachable_ok z : db_reachable z -> reg_ok (pending (z_closers z)) (z_st z).
Proof.
  intros Hr. assert (H0 : reg_ok (pending []) db_new).
  { constructor; simpl; try done.
    - by intros d Hd%not_elem_of_nil.
    - intros d. exact (Nat.le_0_l 1). }
  revert H0. change (pending []) with (pending (z_closers (mkDbSys db_new [] [] []))).
  change db_new with (z_st (mkDbSys db_new [] [] [])) at 2. induction Hr as [|x y z Hxy _ IH]; [done|]. intros Hx. by eapply IH, step_ok.
Qed.

(** C20: a database is never closed under a handle, and never twice.  Whatever the
    threads that open, close and hold databases do, and whatever RocksDB answers,
    every open handle has a descriptor that exists, is not closing and whose
    instance is open; and each instance is closed at most once, the claims that
    have not run yet included. *)
Theorem registry_keeps_open z :
  db_reachable z ->
  (forall h d, dr_handles (z_st z) !! h = Some (Some d) ->
    exists ds, dr_descriptors (z_st z) !! d = Some ds /\ ds_closing ds = false /\ ds_db ds = true) /\
  (forall d, (closes d (dr_log (z_st z)) + pending (z_closers z) d <= 1)%nat).
Proof.
  intros Hz%reachable_ok. split; [|apply Hz]. intros h d Hh. destruct (ro_handles _ _ Hz h d Hh) as (ds & Hd & Hc).
  exists ds. split_and!; [done..|]. by apply (ro_db _ _ Hz d ds).
Qed.
End Reach.

(** ** Runs *)

(** RocksDB opens a database with the default column family. *)
Definition rocks_fine : RocksDb := {|
  open_answer := fun _ _ => inr ["default"];
  column_answer := fun _ _ => None;
  destroy_answer := fun _ _ => None;
|}.

Definition opts : DBOptions := mkOptions "default" Optimistic false.
Definition the_key : DBKey := ("/db", false).
Definition handle_ids (hs : list Z) : gmap Z (option Z) := list_to_map (map (fun h => (h, None)) hs).

(** Open a handle when it need not wait. *)
Definition open_now {RD : RocksDb} (h : Z) : DM bool :=
  r ← OpenDB "/db" opts;
  match r.2 with Some (d, _) => handle_opened h d;; mret true | None => mret false end.

Section Demo.
#[local] Existing Instance rocks_fine.

Definition e0 : DbReg := set_dr_handles (<[1 := None]> ∅) db_new.
Definition e1 : DbReg := snd (OpenDB "/db" opts e0).
Definition e2 : DbReg := snd (handle_opened 1 2 e1).

Lemma demo_open : db_reachable (mkDbSys e2 [] [] []).
Proof.
  eapply rtc_l; [apply (step_handle db_new [] [] [] 1); reflexivity|].
  eapply rtc_l; [|apply rtc_refl].
  eapply (step_open _ [] [] [] [] 1 "/db" opts 1 _ e1 e2); [reflexivity|vm_compute; reflexivity|]. constructor. vm_compute. reflexivity.
Qed.
End Demo.

Lemma registry_keeps_open_witness :
  exists ds, dr_descriptors e2 !! 2 = Some ds /\ ds_closing ds = false /\ ds_db ds = true.
Proof. exact (proj1 (registry_keeps_open (RD := rocks_fine) _ demo_open) 1 2 eq_refl). Defined.

(** An opener that waits uses its map node after the close erased it.  The close of
    the last handle is claimed; a second handle opens the path, takes the
    descriptor out of the node and waits; the close ends and, as the node has no
    descriptor, erases it; the opener wakes and looks at its node. *)
Theorem waiting_opener_uses_erased_entry :
  let RD := rocks_fine in
  match (open_now 1;; close_handle 1;;
         claimed ← purge_claim the_key; r ← OpenDB "/db" opts;
         finishClose 2;; purge_erase the_key 2;;
         mret (claimed, r)) (set_dr_handles (handle_ids [1; 2]) db_new) with
  | (inr (claimed, r), s) =>
      claimed = Some 2 /\ r.2 = None /\
      (open_attempt the_key r.1 opts s).1 = inl (OutOfRange "use of an erased registry entry")
  | _ => False
  end.
Proof. vm_compute. split_and!; reflexivity. Qed.

(** A third opener does not wait for the close.  It finds the node that the second
    one emptied and opens the database while the first instance is still open. *)
Theorem opens_during_close :
  let RD := rocks_fine in
  match (open_now 1;; close_handle 1;; purge_claim the_key;;
         waits ← OpenDB "/db" opts; third ← open_now 3;
         old ← descriptor 2;
         mret (waits.2, third, ds_closing old, ds_db old)) (set_dr_handles (handle_ids [1; 2; 3]) db_new) with
  | (inr (waits, third, closing, still_open), s) =>
      waits = None /\ third = true /\ closing = true /\ still_open = true /\
      DbClose 2 ∉ dr_log s /\ length (filter (fun c => c = DbOpen the_key) (dr_log s)) = 2%nat
  | _ => False
  end.
Proof.
  vm_compute. split_and!; try reflexivity.
  intros Hin; repeat (inversion Hin as [|? ? ? Hin']; subst; clear Hin; rename Hin' into Hin).
Qed.
