(* ===== verification/Json.v ===== *)
(** * JSON payloads of events

    [core/json.h] writes a JSON string literal; [ListenerData::fromStrings]
    ([napi/event_emitter.h]) builds from it the array that the JavaScript side of
    a listener parses.  A [std::string] is its list of bytes.

    The reference is a parser of JSON strings and arrays of strings (RFC 8259,
    sections 5 and 7), written without looking at the encoder: it accepts the
    short escapes, [\uXXXX] for code points outside the surrogates, and any byte
    from 0x20 on. *)

From S2P Require Import Prelude Encoding.
From stdpp Require Import base tactics list strings.
From coqutil Require Import Byte.
From Stdlib Require Import ZArith Lia.

Local Open Scope Z_scope.

(** ** The encoder *)

(** The byte of a character literal. *)
Definition ch (z : Z) : byte := byte.of_Z z.

(** One digit of [snprintf("%x")]. *)
Definition hex_digit (d : Z) : byte := ch (if d <? 10 then 0x30 + d else 0x61 + d - 10).

(** [snprintf(buf, sizeof(buf), "\\u%04x", c)] for [c < 0x10000]. *)
Definition unicode_escape (c : Z) : bytes :=
  [ch 0x5C; ch 0x75; hex_digit (c / 4096 mod 16); hex_digit (c / 256 mod 16);
   hex_digit (c / 16 mod 16); hex_digit (c mod 16)].

(** The [switch] of [appendJsonString]. *)
Definition escape (b : byte) : bytes :=
  let c := byte.unsigned b in
  if c =? 0x22 then [ch 0x5C; ch 0x22]
  else if c =? 0x5C then [ch 0x5C; ch 0x5C]
  else if c =? 0x08 then [ch 0x5C; ch 0x62]
  else if c =? 0x0C then [ch 0x5C; ch 0x66]
  else if c =? 0x0A then [ch 0x5C; ch 0x6E]
  else if c =? 0x0D then [ch 0x5C; ch 0x72]
  else if c =? 0x09 then [ch 0x5C; ch 0x74]
  else if c <? 0x20 then unicode_escape c
  else [b].

Definition appendJsonString (out s : bytes) : bytes :=
  fold_left (fun out b => out ++ escape b) s (out ++ [ch 0x22]) ++ [ch 0x22].

Definition jsonString (s : bytes) : bytes := appendJsonString [] s.

(** [ListenerData::fromStrings]: the loop carries [payload] and [first]. *)
Definition fromStrings (args : list bytes) : bytes :=
  let '(payload, _) :=
    fold_left (fun '(payload, first) arg =>
                 let payload := if first : bool then payload else payload ++ [ch 0x2C] in
                 (appendJsonString payload arg, false))
      args ([ch 0x5B], true) in
  payload ++ [ch 0x5D].

(** ** The reference parser *)

Definition hex_value (b : byte) : option Z :=
  let c := byte.unsigned b in
  if (0x30 <=? c) && (c <=? 0x39) then Some (c - 0x30)
  else if (0x61 <=? c) && (c <=? 0x66) then Some (c - 0x61 + 10)
  else if (0x41 <=? c) && (c <=? 0x46) then Some (c - 0x41 + 10)
  else None.

(** UTF-8 of a code point below 0x10000; the surrogates have none. *)
Definition utf8_of (c : Z) : option bytes :=
  if c <? 0x80 then Some [ch c]
  else if c <? 0x800 then Some [ch (0xC0 + c / 64); ch (0x80 + c mod 64)]
  else if (0xD800 <=? c) && (c <? 0xE000) then None
  else Some [ch (0xE0 + c / 4096); ch (0x80 + c / 64 mod 64); ch (0x80 + c mod 64)].

Definition short_escape (b : byte) : option byte :=
  let c := byte.unsigned b in
  if (c =? 0x22) || (c =? 0x5C) || (c =? 0x2F) then Some b
  else if c =? 0x62 then Some (ch 0x08)
  else if c =? 0x66 then Some (ch 0x0C)
  else if c =? 0x6E then Some (ch 0x0A)
  else if c =? 0x72 then Some (ch 0x0D)
  else if c =? 0x74 then Some (ch 0x09)
  else None.

Definition hex4 (a b c d : byte) : option Z :=
  a ← hex_value a; b ← hex_value b; c ← hex_value c; d ← hex_value d;
  Some (((a * 16 + b) * 16 + c) * 16 + d).

(** The characters of a string, after its opening quote: the text and what
    follows the closing quote. *)
Fixpoint parse_chars (s : bytes) : option (bytes * bytes) :=
  match s with
  | [] => None
  | b :: s =>
      let c := byte.unsigned b in
      if c =? 0x22 then Some ([], s)
      else if c =? 0x5C then
        match s with
        | [] => None
        | e :: s =>
            if byte.unsigned e =? 0x75 then
              match s with
              | h1 :: h2 :: h3 :: h4 :: s =>
                  u ← (hex4 h1 h2 h3 h4 ≫= utf8_of);
                  '(t, r) ← parse_chars s; Some (u ++ t, r)
              | _ => None
              end
            else x ← short_escape e; '(t, r) ← parse_chars s; Some (x :: t, r)
        end
      else if c <? 0x20 then None
      else '(t, r) ← parse_chars s; Some (b :: t, r)
  end.

Definition parse_string (s : bytes) : option (bytes * bytes) :=
  match s with
  | b :: s => if byte.unsigned b =? 0x22 then parse_chars s else None
  | [] => None
  end.

(** The elements after the first of an array without white space, up to [\]]. *)
Fixpoint parse_rest (fuel : nat) (s : bytes) : option (list bytes * bytes) :=
  match fuel, s with
  | S fuel, b :: s =>
      if byte.unsigned b =? 0x5D then Some ([], s)
      else if byte.unsigned b =? 0x2C then
        '(x, s) ← parse_string s; '(l, s) ← parse_rest fuel s; Some (x :: l, s)
      else None
  | _, _ => None
  end.

(** A text that is an array of strings and nothing else. *)
Definition parse_array (s : bytes) : option (list bytes) :=
  match s with
  | b :: s =>
      if byte.unsigned b =? 0x5B then
        match s with
        | c :: s' =>
            '(l, rest) ←
              (if byte.unsigned c =? 0x5D then Some ([], s')
               else '(x, s) ← parse_string s; '(l, s) ← parse_rest (length s) s; Some (x :: l, s));
            match rest with [] => Some l | _ :: _ => None end
        | [] => None
        end
      else None
  | [] => None
  end.

(** ** UTF-8 validity, as an automaton (Unicode, table 3-7): how many
    continuation bytes are due and the range of the next one. *)

Record ustate := mkU { u_due : nat; u_lo : Z; u_hi : Z }.

Definition u_start : ustate := mkU 0 0x80 0xBF.

Definition utf8_step (st : ustate) (b : byte) : option ustate :=
  let c := byte.unsigned b in
  match u_due st with
  | S n => if (u_lo st <=? c) && (c <=? u_hi st) then Some (mkU n 0x80 0xBF) else None
  | O =>
      if c <? 0x80 then Some u_start
      else if (0xC2 <=? c) && (c <=? 0xDF) then Some (mkU 1 0x80 0xBF)
      else if c =? 0xE0 then Some (mkU 2 0xA0 0xBF)
      else if c =? 0xED then Some (mkU 2 0x80 0x9F)
      else if (0xE1 <=? c) && (c <=? 0xEF) then Some (mkU 2 0x80 0xBF)
      else if c =? 0xF0 then Some (mkU 3 0x90 0xBF)
      else if (0xF1 <=? c) && (c <=? 0xF3) then Some (mkU 3 0x80 0xBF)
      else if c =? 0xF4 then Some (mkU 3 0x80 0x8F)
      else None
  end.

Fixpoint utf8_run (st : ustate) (s : bytes) : option ustate :=
  match s with
  | [] => Some st
  | b :: s => st ← utf8_step st b; utf8_run st s
  end.

Definition utf8_valid (s : bytes) : bool :=
  match utf8_run u_start s with Some (mkU O _ _) => true | _ => false end.

(** ** Lemmas *)

Definition escaped (s : bytes) : bytes := s ≫= escape.

Lemma fold_escape s out : fold_left (fun out b => out ++ escape b) s out = out ++ escaped s.
Proof.
  revert out. induction s as [|b s IH]; intros out; [by rewrite app_nil_r|].
  cbn [fold_left]. rewrite IH. unfold escaped. by rewrite bind_cons, app_assoc.
Qed.

Lemma appendJsonString_app out s :
  appendJsonString out s = out ++ ch 0x22 :: escaped s ++ [ch 0x22].
Proof. unfold appendJsonString. rewrite fold_escape, <- !app_assoc. reflexivity. Qed.

Lemma parse_chars_escape b s :
  parse_chars (escape b ++ s) = '(t, r) ← parse_chars s; Some (b :: t, r).
Proof. destruct b; cbn; destruct (parse_chars s) as [[t r]|]; reflexivity. Qed.

Lemma parse_chars_escaped s r : parse_chars (escaped s ++ ch 0x22 :: r) = Some (s, r).
Proof.
  induction s as [|b s IH]; [reflexivity|].
  unfold escaped in *. rewrite bind_cons, <- app_assoc, parse_chars_escape, IH. reflexivity.
Qed.

Lemma parse_string_json s r : parse_string (jsonString s ++ r) = Some (s, r).
Proof.
  unfold jsonString. rewrite appendJsonString_app. cbn [app].
  rewrite <- app_assoc. apply parse_chars_escaped.
Qed.

(** The payload after the first element. *)
Definition more (l : list bytes) : bytes := l ≫= (fun x => ch 0x2C :: jsonString x).

Lemma fold_more l out :
  fold_left (fun '(payload, first) arg =>
               let payload := if first : bool then payload else payload ++ [ch 0x2C] in
               (appendJsonString payload arg, false)) l (out, false)
  = (out ++ more l, false).
Proof.
  revert out. induction l as [|x l IH]; intros out; [by cbn; rewrite app_nil_r|].
  cbn [fold_left]. rewrite IH. f_equal. unfold more. rewrite bind_cons.
  unfold jsonString. rewrite !appendJsonString_app, <- !app_assoc. reflexivity.
Qed.

Lemma fromStrings_cons x l : fromStrings (x :: l) = ch 0x5B :: jsonString x ++ more l ++ [ch 0x5D].
Proof.
  unfold fromStrings. cbn [fold_left]. rewrite fold_more.
  unfold jsonString. rewrite !appendJsonString_app, <- !app_assoc. reflexivity.
Qed.

Lemma length_more l : (length l <= length (more l))%nat.
Proof.
  induction l as [|x l IH]; [done|].
  unfold more in *. rewrite bind_cons, length_app. cbn [length]. lia.
Qed.

Lemma parse_rest_more l fuel r :
  (length l < fuel)%nat -> parse_rest fuel (more l ++ ch 0x5D :: r) = Some (l, r).
Proof.
  revert fuel. induction l as [|x l IH]; intros [|fuel] Hf; cbn [length] in Hf; try lia; [done|].
  unfold more in *. rewrite bind_cons, <- app_assoc. cbn [app parse_rest].
  change (byte.unsigned (ch 0x2C) =? 0x5D) with false. cbn iota.
  change (byte.unsigned (ch 0x2C) =? 0x2C) with true. cbn iota.
  rewrite parse_string_json. cbn. rewrite IH by lia. done.
Qed.

(** No continuation byte is below 0x80, in every state of the automaton. *)
Definition u_ok (st : ustate) : Prop := 0x80 <= u_lo st.

Lemma utf8_step_ok st b st' : utf8_step st b = Some st' -> u_ok st'.
Proof.
  unfold utf8_step, u_ok. intros H.
  repeat case_match; simplify_eq; cbn; lia.
Qed.

Lemma utf8_escape st b s : u_ok st -> utf8_run st (escape b ++ s) = utf8_run st (b :: s).
Proof.
  intros Hok. destruct (decide (0x80 <= byte.unsigned b)) as [Hb|Hb].
  { assert (escape b = [b]) as ->; [|done]. unfold escape.
    repeat (rewrite (proj2 (Z.eqb_neq _ _)) by lia). by rewrite (proj2 (Z.ltb_ge _ _)) by lia. }
  destruct st as [[|n] lo hi]; unfold u_ok in Hok; cbn [u_lo] in Hok.
  - destruct b; first [exfalso; apply Hb; vm_compute; discriminate | reflexivity].
  - assert (forall x s, byte.unsigned x < 0x80 -> utf8_run (mkU (S n) lo hi) (x :: s) = None) as Hno.
    { intros x s' Hx. cbn. by rewrite (proj2 (Z.leb_gt lo _)) by lia. }
    rewrite (Hno b) by lia.
    assert (exists x t, escape b = x :: t /\ byte.unsigned x < 0x80) as (x & t & -> & Hx); [|by apply Hno].
    unfold escape. repeat case_match; eexists _, _; (split; [reflexivity|]);
      first [lia | vm_compute; reflexivity].
Qed.

Lemma utf8_escaped st s r : u_ok st -> utf8_run st (escaped s ++ r) = utf8_run st (s ++ r).
Proof.
  revert st. induction s as [|b s IH]; intros st Hok; [done|].
  unfold escaped in *. rewrite bind_cons, <- app_assoc, utf8_escape by done.
  cbn [app utf8_run]. destruct (utf8_step st b) as [st'|] eqn:E; [|done].
  cbn. apply IH. by eapply utf8_step_ok.
Qed.

Lemma utf8_run_app st s r : utf8_run st (s ++ r) = utf8_run st s ≫= (fun st => utf8_run st r).
Proof.
  revert st. induction s as [|b s IH]; intros st; [done|].
  cbn. destruct (utf8_step st b); [|done]. cbn. apply IH.
Qed.

Lemma utf8_run_ok st s st' : u_ok st -> utf8_run st s = Some st' -> u_ok st'.
Proof.
  revert st. induction s as [|b s IH]; intros st Hok H; [by simplify_eq/=|].
  cbn in H. destruct (utf8_step st b) as [st1|] eqn:E; [|done].
  eapply IH; [by eapply utf8_step_ok | done].
Qed.

(** ** Properties *)

(** Whatever text a native call site puts in an event payload, the array that
    [fromStrings] builds parses back to exactly those strings: no quote, backslash,
    control byte or separator inside an argument can change the number or the
    contents of the arguments the listener receives. *)
Theorem fromStrings_roundtrip args : parse_array (fromStrings args) = Some args.
Proof.
  destruct args as [|x l]; [reflexivity|].
  rewrite fromStrings_cons. cbn [parse_array].
  change (byte.unsigned (ch 0x5B) =? 0x5B) with true. cbn iota.
  assert (exists t, jsonString x ++ more l ++ [ch 0x5D] = ch 0x22 :: t) as [t Ht].
  { unfold jsonString. rewrite appendJsonString_app. by eexists. }
  rewrite Ht. change (byte.unsigned (ch 0x22) =? 0x5D) with false. cbn iota.
  rewrite <- Ht, parse_string_json. cbn [mbind option_bind].
  rewrite parse_rest_more; [done|].
  rewrite length_app. cbn. pose proof (length_more l). lia.
Qed.

(** C40: the JSON literal of a text is one string token that holds exactly that text:
    the parser takes the literal off the front of whatever follows it, gives the
    text back byte for byte and leaves what follows untouched, so no quote, backslash
    or control byte of the text ends the literal early or starts an escape.  The
    literal is valid UTF-8 exactly when the text is: escaping re-encodes no
    multi-byte sequence and neither repairs nor breaks one. *)
Theorem jsonString_utf8 s :
  (forall r, parse_string (jsonString s ++ r) = Some (s, r)) /\
  utf8_valid (jsonString s) = utf8_valid s.
Proof.
  split; [apply parse_string_json|].
  unfold utf8_valid, jsonString. rewrite appendJsonString_app. cbn [app].
  change (ch 0x22) with Byte.x22.
  cbn [utf8_run]. change (utf8_step u_start Byte.x22) with (Some u_start). cbn [mbind option_bind].
  rewrite utf8_escaped by (unfold u_ok; cbn; lia).
  rewrite utf8_run_app. destruct (utf8_run u_start s) as [[[|n] lo hi]|] eqn:E; [reflexivity| |done].
  apply utf8_run_ok in E; [|unfold u_ok; cbn; lia]. unfold u_ok in E; cbn in E.
  cbn. rewrite (proj2 (Z.leb_gt lo _)); [done|]. change (byte.unsigned Byte.x22) with 34. lia.
Qed.
