(* ===== verification/EventEmitter.v ===== *)
(** * The event emitter

    [napi/event_emitter.h], [napi/event_emitter.cpp] and the entry points over it
    ([napi/global_events.cpp], the listener methods of [DBDescriptor]).

    A method runs under [EventEmitter::mutex], so a run of the emitter is a
    sequence of methods; the one exception is the count that [hasListeners] and
    [notify] read without the mutex.  [es_visible] therefore records every pair of
    the map and the count that exists between two writes: the states such a read
    can meet.

    Node-API is not part of the sources.  Which calls fail is [napi_ok], indexed by
    the number of calls made; what the calls do is recorded in [es_trace], and
    [es_queue] holds the calls that were accepted.  A pending JavaScript exception
    is [DBException].  A listener is reached through its vector only, so it is a
    value there; a [ListenerData] lives on [es_heap], where deleting an address
    twice is [OutOfRange]. *)

From S2P Require Import Prelude Encoding Json.
From stdpp Require Import base tactics list gmap strings.
From coqutil Require Import Byte.
From Stdlib Require Import ZArith Lia.

Local Open Scope Z_scope.

(** ** Node-API *)

(** A JavaScript value, as far as listeners receive them. *)
Inductive jsval := JString (s : bytes) | JOther (n : Z).

Class Napi := {
  napi_ok : nat -> bool;                       (* the n-th call returns napi_ok *)
  napi_is_function : Z -> bool;                (* napi_typeof(v) == napi_function *)
  JSON_parse : bytes -> option (list jsval);   (* None: it throws *)
  JSON_stringify : list jsval -> option bytes
}.

(** The calls that create or consume something. *)
Inductive ncall :=
| CreateReference (ref callback : Z)
| DeleteReference (ref : Z)
| CreateTsfn (tsfn ref : Z)
| ReleaseTsfn (tsfn : Z)
| CallTsfn (tsfn : Z) (data : option Z) (accepted : bool)
| CallFunction (callback : Z) (args : list jsval).

(** ** State *)

Record ListenerCallback := mkLC {
  lc_env : Z;
  lc_threadsafeCallback : option Z;    (* std::atomic<napi_threadsafe_function> *)
  lc_callbackRef : option Z;           (* napi_ref *)
  lc_owner : option Z;                 (* std::weak_ptr<void> *)
  lc_hasOwner : bool
}.

Abbreviation listener_map := (gmap string (list ListenerCallback)).

Record ES := mkES {
  es_callbacks : listener_map;
  es_listenerCount : Z;
  es_visible : list (listener_map * Z);
  es_heap : gmap Z bytes;              (* ListenerData::args by address *)
  es_refs : gmap Z Z;                  (* the function a napi_ref refers to *)
  es_tsfns : gmap Z (Z * Z);           (* function and finalize data of a tsfn *)
  es_owners : gset Z;                  (* the owners still alive *)
  es_queue : list (Z * option Z);      (* accepted calls: tsfn and data *)
  es_trace : list ncall;
  es_calls : nat;
  es_next : Z                          (* the next unused address *)
}.

Definition es_init : ES := mkES ∅ 0 [(∅, 0)] ∅ ∅ ∅ ∅ [] [] 0 1.

Abbreviation EM := (M ES).

(** The order in which the [unordered_map] is walked: every key once. *)
Class HashOrder := {
  map_keys : listener_map -> list string;
  map_keys_perm c : map_keys c ≡ₚ (map_to_list c).*1
}.

Definition key_order : HashOrder := {| map_keys c := (map_to_list c).*1; map_keys_perm c := reflexivity _ |}.

Definition is_nil {A} (l : list A) : bool := match l with [] => true | _ :: _ => false end.

Definition is_release (tsfn : Z) (c : ncall) : bool :=
  match c with ReleaseTsfn t => t =? tsfn | _ => false end.

Definition set_callbacks (f : listener_map -> listener_map) : EM unit := modify (fun s =>
  mkES (f (es_callbacks s)) (es_listenerCount s) (es_visible s ++ [(f (es_callbacks s), es_listenerCount s)])
    (es_heap s) (es_refs s) (es_tsfns s) (es_owners s) (es_queue s) (es_trace s) (es_calls s) (es_next s)).
Definition set_count (f : Z -> Z) : EM unit := modify (fun s =>
  mkES (es_callbacks s) (f (es_listenerCount s)) (es_visible s ++ [(es_callbacks s, f (es_listenerCount s))])
    (es_heap s) (es_refs s) (es_tsfns s) (es_owners s) (es_queue s) (es_trace s) (es_calls s) (es_next s)).
Definition set_heap (f : gmap Z bytes -> gmap Z bytes) : EM unit := modify (fun s =>
  mkES (es_callbacks s) (es_listenerCount s) (es_visible s) (f (es_heap s)) (es_refs s) (es_tsfns s)
    (es_owners s) (es_queue s) (es_trace s) (es_calls s) (es_next s)).
Definition set_refs (f : gmap Z Z -> gmap Z Z) : EM unit := modify (fun s =>
  mkES (es_callbacks s) (es_listenerCount s) (es_visible s) (es_heap s) (f (es_refs s)) (es_tsfns s)
    (es_owners s) (es_queue s) (es_trace s) (es_calls s) (es_next s)).
Definition set_tsfns (f : gmap Z (Z * Z) -> gmap Z (Z * Z)) : EM unit := modify (fun s =>
  mkES (es_callbacks s) (es_listenerCount s) (es_visible s) (es_heap s) (es_refs s) (f (es_tsfns s))
    (es_owners s) (es_queue s) (es_trace s) (es_calls s) (es_next s)).
Definition set_queue (f : list (Z * option Z) -> list (Z * option Z)) : EM unit := modify (fun s =>
  mkES (es_callbacks s) (es_listenerCount s) (es_visible s) (es_heap s) (es_refs s) (es_tsfns s)
    (es_owners s) (f (es_queue s)) (es_trace s) (es_calls s) (es_next s)).
Definition record (c : ncall) : EM unit := modify (fun s =>
  mkES (es_callbacks s) (es_listenerCount s) (es_visible s) (es_heap s) (es_refs s) (es_tsfns s)
    (es_owners s) (es_queue s) (es_trace s ++ [c]) (es_calls s) (es_next s)).

(** An address nothing else has. *)
Definition unused : EM Z := fun s =>
  (inr (es_next s),
   mkES (es_callbacks s) (es_listenerCount s) (es_visible s) (es_heap s) (es_refs s) (es_tsfns s)
     (es_owners s) (es_queue s) (es_trace s) (es_calls s) (es_next s + 1)).

Section Emitter.
Context {NA : Napi} {HO : HashOrder}.

(** The status of a call, and [NAPI_STATUS_THROWS]. *)
Definition napi_status : EM bool := fun s =>
  (inr (napi_ok (es_calls s)),
   mkES (es_callbacks s) (es_listenerCount s) (es_visible s) (es_heap s) (es_refs s) (es_tsfns s)
     (es_owners s) (es_queue s) (es_trace s) (S (es_calls s)) (es_next s)).
Definition status_throws : EM unit :=
  b ← napi_status; if b : bool then mret tt else throw (DBException "napi").

Definition new_listener_data (args : bytes) : EM Z :=
  d ← unused; set_heap (<[d := args]>);; mret d.
Definition delete_data (d : Z) : EM unit :=
  h ← gets es_heap;
  match h !! d with
  | Some _ => set_heap (delete d)
  | None => throw (OutOfRange "double delete")
  end.
Definition delete_if (data : option Z) : EM unit :=
  match data with Some d => delete_data d | None => mret tt end.

(** [weak_ptr::lock] is not null. *)
Definition owner_alive (owner : option Z) (s : ES) : bool :=
  match owner with Some o => bool_decide (o ∈ es_owners s) | None => false end.

(** ** The emitter *)

Definition releaseListenerResources (l : ListenerCallback) : EM ListenerCallback :=
  match lc_threadsafeCallback l with
  | Some tsfn => record (ReleaseTsfn tsfn);; _ ← napi_status; mret tt
  | None => mret tt
  end;;
  mret (mkLC (lc_env l) None None (lc_owner l) (lc_hasOwner l)).

(** The locked part of [addListener]. *)
Definition publish (key : string) (l : ListenerCallback) : EM unit :=
  c ← gets es_callbacks;
  when (bool_decide (c !! key = None)) (set_callbacks (<[key := []]>));;
  set_count (fun n => u64 (n + 1));;
  set_callbacks (alter (fun ls => ls ++ [l]) key).

Definition addListener (env : Z) (key : string) (callback : Z) (owner : option Z) : EM Z :=
  status_throws;;
  if negb (napi_is_function callback) then throw (DBException "Callback must be a function") else
  status_throws;;
  status_throws;;
  callbackRef ← unused;
  set_refs (<[callbackRef := callback]>);; record (CreateReference callbackRef callback);;
  hasOwner ← gets (owner_alive owner);
  created ← napi_status;
  if negb created then
    set_refs (delete callbackRef);; record (DeleteReference callbackRef);;
    _ ← napi_status;
    throw (DBException "Failed to create threadsafe function")
  else
    tsfn ← unused;
    set_tsfns (<[tsfn := (callback, callbackRef)]>);; record (CreateTsfn tsfn callbackRef);;
    let l := mkLC env (Some tsfn) (Some callbackRef) owner hasOwner in
    unrefed ← napi_status;
    if negb unrefed then
      _ ← releaseListenerResources l; throw (DBException "Failed to unref threadsafe function")
    else publish key l;; mret callbackRef.

(** The loop of [notify] over one vector. *)
Fixpoint call_listeners (ls : list ListenerCallback) (data : option Z) : EM unit :=
  match ls with
  | [] => mret tt
  | l :: ls =>
      match lc_threadsafeCallback l with
      | None => call_listeners ls data
      | Some tsfn =>
          copy ← match data with
                 | Some d => h ← gets es_heap;
                             match h !! d with
                             | Some args => c ← new_listener_data args; mret (Some c)
                             | None => throw (OutOfRange "deleted data")
                             end
                 | None => mret None
                 end;
          accepted ← napi_status;
          record (CallTsfn tsfn copy accepted);;
          (if accepted : bool then set_queue (fun q => q ++ [(tsfn, copy)]) else delete_if copy);;
          call_listeners ls data
      end
  end.

(** [notify] after the unlocked read of the count, which saw [seen]. *)
Definition notify_seen (seen : Z) (key : string) (data : option Z) : EM bool :=
  if seen =? 0 then delete_if data;; mret false
  else
    c ← gets es_callbacks;
    found ← match c !! key with
            | Some ls => call_listeners ls data;; mret true
            | None => mret false
            end;
    delete_if data;; mret found.

Definition notify (key : string) (data : option Z) : EM bool :=
  seen ← gets es_listenerCount; notify_seen seen key data.

Definition hasListeners (s : ES) : bool := negb (es_listenerCount s =? 0).

Definition listeners (key : string) : EM Z :=
  c ← gets es_callbacks;
  let count := match c !! key with Some ls => Z.of_nat (length ls) | None => 0 end in
  status_throws;; mret (u32 count).

(** The loop of [removeListener] over [before ++ ls]. *)
Fixpoint remove_first (env : Z) (key : string) (callback : Z) (before ls : list ListenerCallback) : EM bool :=
  match ls with
  | [] => mret false
  | l :: ls =>
      if negb (env =? lc_env l) then remove_first env key callback (before ++ [l]) ls
      else
        status_throws;;
        refs ← gets es_refs;
        match lc_callbackRef l ≫= (refs !!.) with
        | None => throw (DBException "napi")
        | Some fn =>
            status_throws;;
            if fn =? callback then
              l' ← releaseListenerResources l;
              set_callbacks (<[key := before ++ l' :: ls]>);;
              set_callbacks (<[key := before ++ ls]>);;
              set_count (fun n => u64 (n - 1));;
              mret true
            else remove_first env key callback (before ++ [l]) ls
        end
  end.

Definition removeListener (env : Z) (key : string) (callback : Z) : EM bool :=
  status_throws;;
  if negb (napi_is_function callback) then throw (DBException "Callback must be a function") else
  c ← gets es_callbacks;
  found ← match c !! key with
          | Some ls =>
              found ← remove_first env key callback [] ls;
              c ← gets es_callbacks;
              when (match c !! key with Some ls => is_nil ls | None => false end) (set_callbacks (delete key));;
              mret found
          | None => mret false
          end;
  status_throws;; mret found.

(** The first inner loop of [removeListenersByOwner] and [removeListenersByEnv]. *)
Fixpoint release_matching (should : ListenerCallback -> bool) (ls : list ListenerCallback) : EM (list ListenerCallback) :=
  match ls with
  | [] => mret []
  | l :: ls =>
      l' ← (if should l then releaseListenerResources l else mret l);
      ls' ← release_matching should ls;
      mret (l' :: ls')
  end.

(** One turn of their outer loop: release, [erase]/[remove_if], count, empty key. *)
Definition sweep_key (should gone : ListenerCallback -> bool) (key : string) : EM unit :=
  c ← gets es_callbacks;
  match c !! key with
  | None => mret tt
  | Some ls =>
      ls' ← release_matching should ls;
      set_callbacks (<[key := ls']>);;
      let kept := filter (fun l => gone l = false) ls' in
      set_callbacks (<[key := kept]>);;
      let removed := Z.of_nat (length ls') - Z.of_nat (length kept) in
      when (negb (removed =? 0)) (set_count (fun n => u64 (n - removed)));;
      when (is_nil kept) (set_callbacks (delete key))
  end.

Fixpoint sweep (should gone : ListenerCallback -> bool) (keys : list string) : EM unit :=
  match keys with
  | [] => mret tt
  | key :: keys => sweep_key should gone key;; sweep should gone keys
  end.

Definition removeListenersByOwner (owner : Z) : EM unit :=
  s ← get;
  sweep
    (fun l => lc_hasOwner l &&
              (bool_decide (lc_owner l = Some owner) && owner_alive (lc_owner l) s || negb (owner_alive (lc_owner l) s)))
    (fun l => lc_hasOwner l && bool_decide (lc_threadsafeCallback l = None))
    (map_keys (es_callbacks s)).

Definition removeListenersByEnv (env : Z) : EM unit :=
  s ← get;
  sweep
    (fun l => lc_env l =? env)
    (fun l => (lc_env l =? env) && bool_decide (lc_threadsafeCallback l = None))
    (map_keys (es_callbacks s)).

Fixpoint release_keys (keys : list string) : EM unit :=
  match keys with
  | [] => mret tt
  | key :: keys =>
      c ← gets es_callbacks;
      match c !! key with
      | Some ls => ls' ← release_matching (fun _ => true) ls; set_callbacks (<[key := ls']>)
      | None => mret tt
      end;;
      release_keys keys
  end.

Definition releaseAll : EM unit :=
  s ← get;
  release_keys (map_keys (es_callbacks s));;
  set_callbacks (fun _ => ∅);;
  set_count (fun _ => 0).

Definition size (s : ES) : Z := Z.of_nat (length (map_keys (es_callbacks s))).

(** ** The JavaScript side *)

(** Run by Node-API on the JavaScript thread when the tsfn's count is zero. *)
Definition finalizeListenerCallback (callbackRef : option Z) : EM unit :=
  match callbackRef with
  | Some r => set_refs (delete r);; record (DeleteReference r);; _ ← napi_status; mret tt
  | None => mret tt
  end.

(** [NAPI_STATUS_THROWS_FREE_DATA] *)
Definition status_throws_free (ok : bool) (data argv : option Z) (k : EM unit) : EM unit :=
  if ok then k
  else delete_if data;; delete_if argv;; throw (DBException "callListenerCallback").

Fixpoint get_elements (n : nat) (data argv : option Z) (k : EM unit) : EM unit :=
  match n with
  | O => k
  | S n => b ← napi_status; status_throws_free b data argv (get_elements n data argv k)
  end.

Definition call_back (jsCallback : Z) (args : list jsval) (argv : option Z) : EM unit :=
  b ← napi_status;
  record (CallFunction jsCallback args);;
  delete_if argv;;
  if b : bool then mret tt else throw (DBException "callListenerCallback").

(** [env] and [jsCallback] are null while the tsfn is torn down.  [argv] is an
    allocation of its own. *)
Definition callListenerCallback (env jsCallback data : option Z) : EM unit :=
  match env, jsCallback with
  | Some _, Some fn =>
      b ← napi_status; status_throws_free b data None (
      match data with
      | None => call_back fn [] None
      | Some d =>
          h ← gets es_heap;
          match h !! d with
          | None => throw (OutOfRange "deleted data")
          | Some [] => delete_data d;; call_back fn [] None
          | Some args =>
              b ← napi_status; status_throws_free b data None (
              b ← napi_status; status_throws_free b data None (
              b ← napi_status; status_throws_free b data None (
              b ← napi_status;
              match JSON_parse args with
              | None => status_throws_free false data None (mret tt)
              | Some vals => status_throws_free b data None (
                  b ← napi_status; status_throws_free b data None (
                  argv ← new_listener_data [];
                  get_elements (length vals) data (Some argv) (
                  delete_data d;; call_back fn vals (Some argv))))
              end)))
          end
      end)
  | _, _ => mret tt
  end.

(** [value]: [None] when it is not an array. *)
Definition serializeListenerArgs (value : option (list jsval)) : EM (option Z) :=
  b ← napi_status;
  match value with
  | Some ((_ :: _) as vals) =>
      if negb b then mret None else
      b ← napi_status; if negb b then mret None else
      b ← napi_status; if negb b then mret None else
      b ← napi_status; if negb b then mret None else
      b ← napi_status; if negb b then mret None else
      b ← napi_status;
      match JSON_stringify vals with
      | Some text =>
          if negb b then mret None else
          b ← napi_status; if negb b then mret None else
          d ← new_listener_data (repeat Byte.x00 (length text));
          b ← napi_status;
          if negb b then delete_data d;; mret None
          else set_heap (<[d := text]>);; mret (Some d)
      | None => mret None
      end
  | Some [] => (if b : bool then napi_status;; mret None else mret None)
  | None => mret None
  end.

(** ** Runs *)

Inductive emitter_op :=
| OpAdd (env : Z) (key : string) (callback : Z) (owner : option Z)
| OpNotify (seen : Z) (key : string) (data : option Z)
| OpListeners (key : string)
| OpRemove (env : Z) (key : string) (callback : Z)
| OpRemoveByOwner (owner : Z)
| OpRemoveByEnv (env : Z)
| OpReleaseAll
| OpNew (args : bytes)                       (* a caller builds a payload *)
| OpOwnerBorn (owner : Z)
| OpOwnerDies (owner : Z)
| OpFinalize (tsfn : Z)                      (* Node finalizes a released tsfn *)
| OpDeliver (env jsCallback data : option Z). (* Node runs the trampoline *)

Definition set_owners (f : gset Z -> gset Z) : EM unit := modify (fun s =>
  mkES (es_callbacks s) (es_listenerCount s) (es_visible s) (es_heap s) (es_refs s) (es_tsfns s)
    (f (es_owners s)) (es_queue s) (es_trace s) (es_calls s) (es_next s)).

(** Node-API runs the finalizer of a tsfn once, after its last release, and forgets
    the tsfn.  What the finalizer does with the reference is the program's. *)
Definition finalize (tsfn : Z) : EM unit :=
  s ← get;
  match es_tsfns s !! tsfn with
  | Some (_, ref) =>
      when (existsb (is_release tsfn) (es_trace s)) (set_tsfns (delete tsfn);; finalizeListenerCallback (Some ref))
  | None => mret tt
  end.

Definition exec_op (o : emitter_op) : EM unit :=
  match o with
  | OpAdd env key callback owner => _ ← addListener env key callback owner; mret tt
  | OpNotify seen key data => _ ← notify_seen seen key data; mret tt
  | OpListeners key => _ ← listeners key; mret tt
  | OpRemove env key callback => _ ← removeListener env key callback; mret tt
  | OpRemoveByOwner owner => removeListenersByOwner owner
  | OpRemoveByEnv env => removeListenersByEnv env
  | OpReleaseAll => releaseAll
  | OpNew args => _ ← new_listener_data args; mret tt
  | OpOwnerBorn owner => set_owners (union {[owner]})
  | OpOwnerDies owner => set_owners (fun os => difference os {[owner]})
  | OpFinalize tsfn => finalize tsfn
  | OpDeliver env jsCallback data => callListenerCallback env jsCallback data
  end.

(** Each operation starts where the last one, failed or not, ended. *)
Definition run_ops (ops : list emitter_op) (s : ES) : ES :=
  fold_left (fun (s : ES) o => snd (exec_op o s)) ops s.

End Emitter.
