(* ===== verification/EventReferences.v ===== *)
(** * The event emitter: references

    A [napi_ref] of a listener is created by [addListener] and handed to the
    threadsafe function as its finalize data; from then on only the finalizer may
    delete it.  This file shows that over every run of the emitter each reference is
    deleted at most once and that each one that exists has exactly one owner. *)

From S2P Require Import Prelude Encoding Json EventEmitter.
From stdpp Require Import base tactics list gmap sets strings.
From coqutil Require Import Byte.
From Stdlib Require Import ZArith Lia.

Local Open Scope Z_scope.

(** ** How a reference may be used *)

(** The references that exist and the deleted ones after a sequence of calls: [None]
    when one is created twice, or handed to a threadsafe function or deleted when it
    does not exist. *)
Fixpoint ref_check (st : gset Z * gset Z) (tr : list ncall) : option (gset Z * gset Z) :=
  match tr with
  | [] => Some st
  | c :: tr =>
      let '(live, dead) := st in
      match c with
      | CreateReference r _ => if bool_decide (r ∈ live ∪ dead) then None else ref_check ({[r]} ∪ live, dead) tr
      | DeleteReference r => if bool_decide (r ∈ live) then ref_check (live ∖ {[r]}, {[r]} ∪ dead) tr else None
      | CreateTsfn _ r => if bool_decide (r ∈ live) then ref_check st tr else None
      | _ => ref_check st tr
      end
  end.

Lemma ref_check_app st tr tr' : ref_check st (tr ++ tr') = ref_check st tr ≫= (fun st => ref_check st tr').
Proof.
  revert st. induction tr as [|c tr IH]; intros [live dead]; [done|].
  cbn. destruct c; try case_bool_decide; auto.
Qed.

(** Calls that concern no reference. *)
Definition no_ref (c : ncall) : Prop :=
  match c with CreateReference _ _ | DeleteReference _ | CreateTsfn _ _ => False | _ => True end.

Lemma no_ref_check st tr : Forall no_ref tr -> ref_check st tr = Some st.
Proof. destruct st as [live dead]. induction 1 as [|c tr Hc _ IH]; [done|]. by destruct c. Qed.

(** ** The invariant *)

(** The references that exist are the finalize data of the threadsafe functions that
    were not finalized, one each. *)
Record refs_ok (s : ES) : Prop := {
  rk_trace : exists dead, ref_check (∅, ∅) (es_trace s) = Some (dom (es_refs s), dead) /\
                          (forall r, r ∈ dead -> r < es_next s);
  rk_next : forall r, r ∈ dom (es_refs s) -> r < es_next s;
  rk_tsfns : forall t, t ∈ dom (es_tsfns s) -> t < es_next s;
  rk_ref : forall t f r, es_tsfns s !! t = Some (f, r) -> es_refs s !! r = Some f;
  rk_owner : forall r f, es_refs s !! r = Some f -> exists t, es_tsfns s !! t = Some (f, r);
  rk_inj : forall t t' f f' r, es_tsfns s !! t = Some (f, r) -> es_tsfns s !! t' = Some (f', r) -> t = t'
}.

Lemma refs_init : refs_ok es_init.
Proof.
  constructor; cbn; try done. by exists ∅.
Qed.

(** A step that leaves the references and the threadsafe functions alone. *)
Lemma refs_frame s s' tr : es_refs s' = es_refs s -> es_tsfns s' = es_tsfns s -> es_next s <= es_next s' ->
  es_trace s' = es_trace s ++ tr -> Forall no_ref tr -> refs_ok s -> refs_ok s'.
Proof.
  intros Hr Ht Hx Htr Hn [(dead & H1 & H1') H2 H3 H4 H5 H6]. constructor; rewrite ?Hr, ?Ht; try done.
  - exists dead. rewrite Htr, ref_check_app, H1. cbn. rewrite no_ref_check by done.
    split; [done|]. intros r Hd. apply H1' in Hd. lia.
  - intros r Hd. apply H2 in Hd. lia.
  - intros t Hd. apply H3 in Hd. lia.
Qed.

(** A reference that was created and deleted again. *)
Lemma refs_undone s s' f : refs_ok s ->
  es_refs s' = delete (es_next s) (<[es_next s := f]> (es_refs s)) -> es_tsfns s' = es_tsfns s ->
  es_next s' = es_next s + 1 ->
  es_trace s' = es_trace s ++ [CreateReference (es_next s) f; DeleteReference (es_next s)] -> refs_ok s'.
Proof.
  intros [(dead & H1 & H1') H2 H3 H4 H5 H6] Hr Ht Hx Htr.
  assert (es_next s ∉ dom (es_refs s)) as Hnew by (intros Hd; apply H2 in Hd; lia).
  rewrite delete_insert_id in Hr by by apply not_elem_of_dom.
  constructor; rewrite ?Hr, ?Ht, ?Hx; try done.
  - exists ({[es_next s]} ∪ dead). rewrite Htr, ref_check_app, H1. cbn.
    rewrite bool_decide_false by (intros [Hd|Hd]%elem_of_union; [done|apply H1' in Hd; lia]).
    cbn. rewrite bool_decide_true by set_solver. split; [do 2 f_equal; set_solver|].
    intros r [->%elem_of_singleton|Hd]%elem_of_union; [lia|]. apply H1' in Hd. lia.
  - intros r Hd. apply H2 in Hd. lia.
  - intros t Hd. apply H3 in Hd. lia.
Qed.

(** A reference and the threadsafe function that owns it. *)
Lemma refs_handed s s' f : refs_ok s ->
  let r := es_next s in let t := es_next s + 1 in
  es_refs s' = <[r := f]> (es_refs s) -> es_tsfns s' = <[t := (f, r)]> (es_tsfns s) -> es_next s' = es_next s + 2 ->
  es_trace s' = es_trace s ++ [CreateReference r f; CreateTsfn t r] -> refs_ok s'.
Proof.
  intros [(dead & H1 & H1') H2 H3 H4 H5 H6] r t Hr Ht Hx Htr.
  assert (r ∉ dom (es_refs s)) as Hnew by (intros Hd; apply H2 in Hd; lia).
  assert (t ∉ dom (es_tsfns s)) as Htnew by (intros Hd; apply H3 in Hd; lia).
  assert (forall t' f', es_tsfns s !! t' <> Some (f', r)) as Hown.
  { intros t' f' E. apply H4 in E. apply Hnew. by eapply elem_of_dom_2. }
  constructor; rewrite ?Hr, ?Ht, ?Hx.
  - exists dead. rewrite Htr, ref_check_app, H1. cbn.
    rewrite bool_decide_false by (intros [Hd|Hd]%elem_of_union; [done|apply H1' in Hd; lia]).
    cbn. rewrite bool_decide_true, dom_insert_L by set_solver. split; [done|]. intros x Hd. apply H1' in Hd. lia.
  - intros x Hd. rewrite dom_insert_L in Hd.
    apply elem_of_union in Hd as [->%elem_of_singleton|Hd]; [lia|]. apply H2 in Hd. lia.
  - intros x Hd. rewrite dom_insert_L in Hd.
    apply elem_of_union in Hd as [->%elem_of_singleton|Hd]; [lia|]. apply H3 in Hd. lia.
  - intros t' f' r' [[<- [= <- <-]]|[_ E]]%lookup_insert_Some; [by rewrite lookup_insert_eq|].
    rewrite lookup_insert_ne; [by eapply H4|]. intros ->. by eapply Hown.
  - intros r' f' [[<- <-]|[Hne E]]%lookup_insert_Some; [exists t; by rewrite lookup_insert_eq|].
    destruct (H5 _ _ E) as [t' Ht']. exists t'. rewrite lookup_insert_ne; [done|]. intros <-.
    apply Htnew. by eapply elem_of_dom_2.
  - intros t1 t2 f1 f2 r' [[<- [= <- <-]]|[_ E]]%lookup_insert_Some [[<- E']|[_ E']]%lookup_insert_Some;
      [done| | |by eapply H6].
    + by apply Hown in E'.
    + injection E' as <- <-. by apply Hown in E.
Qed.

(** A threadsafe function that was finalized, and its reference with it. *)
Lemma refs_finalized s s' t f r : refs_ok s -> es_tsfns s !! t = Some (f, r) ->
  es_refs s' = delete r (es_refs s) -> es_tsfns s' = delete t (es_tsfns s) -> es_next s' = es_next s ->
  es_trace s' = es_trace s ++ [DeleteReference r] -> refs_ok s'.
Proof.
  intros [(dead & H1 & H1') H2 H3 H4 H5 H6] Hl Hr Ht Hx Htr.
  assert (r ∈ dom (es_refs s)) as Hin by (eapply elem_of_dom_2; by eapply H4).
  constructor; rewrite ?Hr, ?Ht, ?Hx.
  - exists ({[r]} ∪ dead). rewrite Htr, ref_check_app, H1. cbn. rewrite bool_decide_true, dom_delete_L by done.
    split; [done|]. intros x [->%elem_of_singleton|Hd]%elem_of_union; auto.
  - intros x Hd. rewrite dom_delete_L in Hd. apply H2. set_solver.
  - intros x Hd. rewrite dom_delete_L in Hd. apply H3. set_solver.
  - intros t' f' r' [Hne E]%lookup_delete_Some. rewrite lookup_delete_ne; [by eapply H4|].
    intros ->. apply Hne. by eapply H6.
  - intros r' f' [Hne E]%lookup_delete_Some. destruct (H5 _ _ E) as [t' Ht']. exists t'.
    rewrite lookup_delete_ne; [done|]. intros <-. by rewrite Hl in Ht'; simplify_eq.
  - intros t1 t2 f1 f2 r' [_ E]%lookup_delete_Some [_ E']%lookup_delete_Some. by eapply H6.
Qed.

(** ** Operations *)

Section Refs.
Context {NA : Napi} {HO : HashOrder}.

Abbreviation refs_step m := (keeps refs_ok m (fun _ => True)).

Lemma refs_modify f : (forall s, es_refs (f s) = es_refs s /\ es_tsfns (f s) = es_tsfns s /\ es_next (f s) = es_next s /\
  es_trace (f s) = es_trace s) -> refs_step (modify f).
Proof.
  intros H. apply keeps_modify. intros s. destruct (H s) as (H1 & H2 & H3 & H4).
  apply (refs_frame _ _ []); [done|done|lia|by rewrite app_nil_r|done].
Qed.

Lemma refs_record c : no_ref c -> refs_step (record c).
Proof. intros Hc. apply keeps_modify. intros s. apply (refs_frame _ _ [c]); cbn; [done|done|lia|done|by constructor]. Qed.

Lemma refs_throw {A} e : keeps refs_ok (throw e : EM A) (fun _ => True).
Proof. intros s Hs. done. Qed.

Lemma refs_get : refs_step (get : EM ES).
Proof. intros s Hs. done. Qed.

Lemma refs_status : refs_step napi_status.
Proof. intros s Hs. split; [|done]. by apply (refs_frame s _ []); cbn; [| |lia|rewrite app_nil_r| |]. Qed.

Lemma refs_unused : refs_step unused.
Proof. intros s Hs. split; [|done]. by apply (refs_frame s _ []); cbn; [| |lia|rewrite app_nil_r| |]. Qed.

Ltac refs_step_tac :=
  match goal with
  | |- keeps _ (_ ≫= _) _ => apply (keeps_bind refs_ok _ _ (fun _ => True)); [|intros ? _]
  | |- keeps _ (mret _) _ => by apply keeps_ret
  | |- keeps _ (gets _) _ => by apply keeps_gets
  | |- keeps _ (when _ _) _ => apply keeps_when
  | |- keeps _ (throw _) _ => apply refs_throw
  | |- keeps _ get _ => apply refs_get
  | |- keeps _ napi_status _ => apply refs_status
  | |- keeps _ unused _ => apply refs_unused
  | |- keeps _ (set_heap _) _ => by apply refs_modify
  | |- keeps _ (set_callbacks _) _ => by apply refs_modify
  | |- keeps _ (set_count _) _ => by apply refs_modify
  | |- keeps _ (set_queue _) _ => by apply refs_modify
  | |- keeps _ (set_owners _) _ => by apply refs_modify
  | |- keeps _ (record _) _ => by apply refs_record
  | |- keeps _ (match ?x with _ => _ end) _ => destruct x
  end.
Ltac refs_tac := repeat (cbv zeta; refs_step_tac).

Lemma refs_delete_if data : refs_step (delete_if data).
Proof. unfold delete_if, delete_data. refs_tac. Qed.

Lemma refs_new_data args : refs_step (new_listener_data args).
Proof. unfold new_listener_data. refs_tac. Qed.

Lemma refs_release l : refs_step (releaseListenerResources l).
Proof. unfold releaseListenerResources. refs_tac. Qed.

Lemma refs_publish key l : refs_step (publish key l).
Proof. unfold publish. refs_tac. Qed.

Lemma refs_tail {A} (m : EM A) s : refs_step m -> refs_ok s -> refs_ok (snd (m s)).
Proof. intros Hm Hs. by apply Hm. Qed.

(** Whichever call fails, [addListener] leaves no reference without an owner. *)
Lemma refs_add env key callback owner : refs_step (addListener env key callback owner).
Proof.
  unfold addListener, status_throws. refs_step_tac; [refs_tac|].
  destruct (napi_is_function callback); cbn [negb]; [|apply refs_throw].
  do 2 (refs_step_tac; [refs_tac|]).
  intros s Hs. split; [|done]. mrun. cbn -[releaseListenerResources publish].
  destruct (napi_ok (es_calls s)); cbn -[releaseListenerResources publish]; cycle 1.
  { eapply refs_undone; [exact Hs|reflexivity..|]. cbn. by rewrite <- app_assoc. }
  match goal with |- context [(if negb _ then _ else _) ?s2] => set (s' := s2) end.
  assert (refs_ok s') as Hs'.
  { eapply refs_handed; [exact Hs|reflexivity..| |]; cbn; [lia|by rewrite <- app_assoc]. }
  destruct (napi_ok _); cbn [negb].
  - match goal with |- context [publish key ?x s'] =>
      pose proof (refs_tail _ s' (refs_publish key x) Hs') as H; by destruct (publish key x s') as [[e|[]] s2] end.
  - match goal with |- context [releaseListenerResources ?x s'] =>
      pose proof (refs_tail _ s' (refs_release x) Hs') as H; by destruct (releaseListenerResources x s') as [[e|l] s2] end.
Qed.

Lemma refs_finalize tsfn : refs_step (finalize tsfn).
Proof.
  intros s Hs. split; [|done]. unfold finalize, finalizeListenerCallback. mrun.
  destruct (es_tsfns s !! tsfn) as [[f r]|] eqn:E; [|done]. destruct (existsb _ _); [|done].
  by eapply (refs_finalized s).
Qed.

Lemma refs_call_listeners ls data : refs_step (call_listeners ls data).
Proof.
  induction ls as [|l ls IH]; [by apply keeps_ret|]. cbn [call_listeners].
  repeat (cbv zeta; first [apply IH | apply refs_delete_if | apply refs_new_data | refs_step_tac]).
Qed.

Lemma refs_remove_first env key callback before ls : refs_step (remove_first env key callback before ls).
Proof.
  revert before. induction ls as [|l ls IH]; intros before; [by apply keeps_ret|]. cbn [remove_first]. unfold status_throws.
  repeat (cbv zeta; first [apply IH | apply refs_release | refs_step_tac]).
Qed.

Lemma refs_release_matching should ls : refs_step (release_matching should ls).
Proof.
  induction ls as [|l ls IH]; [by apply keeps_ret|]. cbn [release_matching].
  repeat (cbv zeta; first [apply IH | apply refs_release | refs_step_tac]).
Qed.

Lemma refs_sweep should gone keys : refs_step (sweep should gone keys).
Proof.
  induction keys as [|key keys IH]; [by apply keeps_ret|]. cbn [sweep]. unfold sweep_key.
  repeat (cbv zeta; first [apply IH | apply refs_release_matching | refs_step_tac]).
Qed.

Lemma refs_release_keys keys : refs_step (release_keys keys).
Proof.
  induction keys as [|key keys IH]; [by apply keeps_ret|]. cbn [release_keys].
  repeat (cbv zeta; first [apply IH | apply refs_release_matching | refs_step_tac]).
Qed.

Lemma refs_free (b : bool) data argv k : refs_step k -> refs_step (status_throws_free b data argv k).
Proof. intros Hk. unfold status_throws_free. repeat (first [apply Hk | apply refs_delete_if | refs_step_tac]). Qed.

Lemma refs_elements n data argv k : refs_step k -> refs_step (get_elements n data argv k).
Proof. intros Hk. induction n as [|n IH]; [done|]. cbn [get_elements]. refs_tac. by apply refs_free. Qed.

Lemma refs_trampoline env fn data : refs_step (callListenerCallback env fn data).
Proof.
  unfold callListenerCallback, call_back, delete_data.
  repeat (cbv zeta; first [apply refs_free | apply refs_elements | apply refs_delete_if | apply refs_new_data | refs_step_tac]).
Qed.

Lemma refs_exec o : refs_step (exec_op o).
Proof.
  destruct o; cbn [exec_op]; unfold notify_seen, removeListener, removeListenersByOwner, removeListenersByEnv, releaseAll,
    listeners, status_throws;
    repeat (cbv zeta; first [apply refs_add | apply refs_finalize | apply refs_call_listeners | apply refs_delete_if
      | apply refs_new_data | apply refs_remove_first | apply refs_sweep | apply refs_release_keys | apply refs_trampoline
      | refs_step_tac]).
Qed.

Lemma run_ops_refs ops s : refs_ok s -> refs_ok (run_ops ops s).
Proof.
  unfold run_ops. revert s. induction ops as [|o ops IH]; intros s Hs; [done|]. cbn. by apply IH, refs_tail; [apply refs_exec|].
Qed.
End Refs.
