(* ===== verification/EventEmitterProofs.v ===== *)
(** * The event emitter: invariant and theorems

    The threadsafe functions of the listeners in the map are exactly the ones that
    were created and not released, and the count is exact whenever the mutex is
    free. *)

From S2P Require Import Prelude Encoding Json EventEmitter EventReferences.
From stdpp Require Import base tactics list gmap sets strings.
From coqutil Require Import Byte.
From Stdlib Require Import ZArith Lia.

Local Open Scope Z_scope.

(** ** How a threadsafe function may be used *)

(** The functions live and dead after a sequence of calls: [None] when a function is
    created twice, released twice, or called when it is not live. *)
Fixpoint tsfn_check (st : gset Z * gset Z) (tr : list ncall) : option (gset Z * gset Z) :=
  match tr with
  | [] => Some st
  | c :: tr =>
      let '(live, dead) := st in
      match c with
      | CreateTsfn t _ => if bool_decide (t ∈ live ∪ dead) then None else tsfn_check ({[t]} ∪ live, dead) tr
      | ReleaseTsfn t => if bool_decide (t ∈ live) then tsfn_check (live ∖ {[t]}, {[t]} ∪ dead) tr else None
      | CallTsfn t _ _ => if bool_decide (t ∈ live) then tsfn_check st tr else None
      | _ => tsfn_check st tr
      end
  end.

Lemma tsfn_check_app st tr tr' : tsfn_check st (tr ++ tr') = tsfn_check st tr ≫= (fun st => tsfn_check st tr').
Proof.
  revert st. induction tr as [|c tr IH]; intros [live dead]; [done|].
  cbn. destruct c; try case_bool_decide; auto.
Qed.

Lemma tsfn_check_disjoint st tr st' : st.1 ## st.2 -> tsfn_check st tr = Some st' -> st'.1 ## st'.2 /\ st.2 ⊆ st'.2.
Proof.
  revert st. induction tr as [|c tr IH]; intros [live dead] Hd H; [by simplify_eq/=|].
  cbn in *. destruct c; try case_bool_decide; try done;
    (apply IH in H; cbn in *; [|set_solver]); set_solver.
Qed.

Lemma tsfn_check_dead t st tr st' : st.1 ## st.2 ->
  tsfn_check st tr = Some st' -> existsb (is_release t) tr = true -> t ∈ st'.2.
Proof.
  revert st. induction tr as [|c tr IH]; intros [live dead] Hd H Hr; [done|].
  cbn in *. destruct c; cbn in Hr; try case_bool_decide; try done; try (eapply IH in H; [done| |done]; cbn; set_solver).
  apply orb_true_iff in Hr as [Hr|Hr]; [|eapply IH in H; [done| |done]; cbn; set_solver].
  apply Z.eqb_eq in Hr as ->. apply tsfn_check_disjoint in H; cbn in *; set_solver.
Qed.

(** ** All the listeners of a map *)

Abbreviation tsfns_of L := (omap lc_threadsafeCallback L).

Definition all_listeners (c : listener_map) : list ListenerCallback := concat (map_to_list c).*2.

Lemma all_listeners_lookup c key ls :
  c !! key = Some ls -> all_listeners c ≡ₚ ls ++ all_listeners (delete key c).
Proof.
  intros H. unfold all_listeners. rewrite <- (insert_id c key ls) at 1 by done.
  rewrite <- insert_delete_eq, map_to_list_insert by apply lookup_delete_eq. done.
Qed.

Lemma all_listeners_insert c key ls :
  all_listeners (<[key := ls]> c) ≡ₚ ls ++ all_listeners (delete key c).
Proof. rewrite (all_listeners_lookup _ key ls) by apply lookup_insert_eq. by rewrite delete_insert_eq. Qed.

Lemma length_all_lookup c key ls :
  c !! key = Some ls -> length (all_listeners c) = (length ls + length (all_listeners (delete key c)))%nat.
Proof. intros H. by rewrite (all_listeners_lookup _ _ _ H), length_app. Qed.

Lemma length_all_insert c key ls :
  length (all_listeners (<[key := ls]> c)) = (length ls + length (all_listeners (delete key c)))%nat.
Proof. by rewrite all_listeners_insert, length_app. Qed.

Lemma all_listeners_none c key : c !! key = None -> all_listeners (delete key c) = all_listeners c.
Proof. intros H. by rewrite delete_id. Qed.

Lemma elem_of_all c l : l ∈ all_listeners c <-> exists key ls, c !! key = Some ls /\ l ∈ ls.
Proof.
  unfold all_listeners. rewrite list_elem_of_In, in_concat. split.
  - intros (ls & Hls & Hl). apply list_elem_of_In, list_elem_of_fmap in Hls as ([key ls'] & -> & H).
    apply elem_of_map_to_list in H. exists key, ls'. by rewrite list_elem_of_In.
  - intros (key & ls & H & Hl). exists ls. split; [|by apply list_elem_of_In].
    apply list_elem_of_In, list_elem_of_fmap. exists (key, ls). by rewrite elem_of_map_to_list.
Qed.

(** ** The invariant *)

(** A listener with its threadsafe function and its reference, which refer to the
    same JavaScript function. *)
Definition listener_ok (s : ES) (l : ListenerCallback) : Prop :=
  exists t r f, lc_threadsafeCallback l = Some t /\ lc_callbackRef l = Some r /\
    es_tsfns s !! t = Some (f, r) /\ es_refs s !! r = Some f.

(** The listeners [L] own exactly the live threadsafe functions. *)
Record owned (L : list ListenerCallback) (s : ES) : Prop := {
  ow_ok : Forall (listener_ok s) L;
  ow_nodup : NoDup (tsfns_of L);
  ow_trace : exists dead, tsfn_check (∅, ∅) (es_trace s) = Some (list_to_set (tsfns_of L), dead) /\
                          (forall t, t ∈ dead -> t < es_next s);
  ow_next : forall t f r, es_tsfns s !! t = Some (f, r) -> t < es_next s /\ r < es_next s;
  ow_inj : forall t t' f f' r, es_tsfns s !! t = Some (f, r) -> es_tsfns s !! t' = Some (f', r) -> t = t'
}.

(** What an unlocked reader can see: a count that is not below the number of
    listeners in the map. *)
Definition visible_ok (next : Z) (v : listener_map * Z) : Prop :=
  exists m : nat, (length (all_listeners v.1) <= m)%nat /\ Z.of_nat m < next /\ v.2 = u64 (Z.of_nat m).

Record shape (s : ES) : Prop := {
  sh_count : es_listenerCount s = u64 (Z.of_nat (length (all_listeners (es_callbacks s))));
  sh_nonempty : forall key, es_callbacks s !! key <> Some [];
  sh_small : Z.of_nat (length (all_listeners (es_callbacks s))) < es_next s;
  sh_visible : Forall (visible_ok (es_next s)) (es_visible s)
}.

Definition wf (s : ES) : Prop := owned (all_listeners (es_callbacks s)) s /\ shape s.

Lemma wf_init : wf es_init.
Proof.
  split; constructor; cbn; try done; try lia.
  - constructor.
  - by exists ∅.
  - constructor; [|constructor]. exists 0%nat. by cbn.
Qed.

#[export] Instance owned_perm : Proper ((≡ₚ) ==> eq ==> impl) owned.
Proof.
  intros L L' HL s ? <- [H1 H2 (dead & H3 & H4) H5 H6].
  assert (tsfns_of L ≡ₚ tsfns_of L') as HT by by rewrite HL.
  constructor; [by rewrite <- HL | by rewrite <- HT | | done | done].
  exists dead. rewrite H3. split; [|done]. do 2 f_equal. apply leibniz_equiv. by rewrite HT.
Qed.

Lemma visible_ok_mono n n' v : n <= n' -> visible_ok n v -> visible_ok n' v.
Proof. intros Hn (m & ? & ? & ?). exists m. repeat split; [done|lia|done]. Qed.

(** Only the calls, the heap, the queue, the owners and the next address differ. *)
Record quiet (s s' : ES) : Prop := {
  q_callbacks : es_callbacks s' = es_callbacks s;
  q_count : es_listenerCount s' = es_listenerCount s;
  q_visible : es_visible s' = es_visible s;
  q_refs : es_refs s' = es_refs s;
  q_tsfns : es_tsfns s' = es_tsfns s;
  q_next : es_next s <= es_next s'
}.

Lemma still_refl s : quiet s s.
Proof. constructor; auto; lia. Qed.

Lemma still_trans s1 s2 s3 : quiet s1 s2 -> quiet s2 s3 -> quiet s1 s3.
Proof. intros [] []. constructor; try congruence; lia. Qed.

Lemma shape_fields s s' : es_callbacks s' = es_callbacks s -> es_listenerCount s' = es_listenerCount s ->
  es_visible s' = es_visible s -> es_next s <= es_next s' -> shape s -> shape s'.
Proof.
  intros Hc Hn Hv Hx [H1 H2 H3 H4]. constructor; rewrite ?Hc, ?Hn, ?Hv; try done; [lia|].
  eapply Forall_impl; [exact H4|]. intros v. by apply visible_ok_mono.
Qed.

Lemma shape_quiet s s' : quiet s s' -> shape s -> shape s'.
Proof. intros [Hc Hn Hv _ _ Hx]. by apply shape_fields. Qed.

(** Calls that leave the live functions alone. *)
Lemma owned_quiet L s s' tr : quiet s s' -> es_trace s' = es_trace s ++ tr ->
  (forall dead, tsfn_check (list_to_set (tsfns_of L), dead) tr = Some (list_to_set (tsfns_of L), dead)) ->
  owned L s -> owned L s'.
Proof.
  intros [Hc Hn Hv Hr Ht Hx] Htr Hck [H1 H2 (dead & H3 & H4) H5 H6]. constructor; rewrite ?Ht; try done.
  - eapply Forall_impl; [exact H1|]. intros l (t & r & f & ? & ? & ? & ?). exists t, r, f. by rewrite Ht, Hr.
  - exists dead. rewrite Htr, tsfn_check_app, H3. cbn. rewrite Hck. split; [done|].
    intros t Hd. apply H4 in Hd. lia.
  - intros t f r Hl. apply H5 in Hl. lia.
Qed.

Lemma wf_quiet s s' tr : quiet s s' -> es_trace s' = es_trace s ++ tr ->
  (forall dead, let L := list_to_set (tsfns_of (all_listeners (es_callbacks s))) in
                tsfn_check (L, dead) tr = Some (L, dead)) -> wf s -> wf s'.
Proof.
  intros Hq Htr Hck [Ho Hs]. split; [|by eapply shape_quiet].
  rewrite (q_callbacks _ _ Hq). by eapply owned_quiet.
Qed.

Section Proofs.
Context {NA : Napi} {HO : HashOrder}.

(** ** Releasing *)

(** A listener after [releaseListenerResources]. *)
Definition torn_down (l : ListenerCallback) : ListenerCallback :=
  mkLC (lc_env l) None None (lc_owner l) (lc_hasOwner l).

Lemma owned_release l t L s s' : lc_threadsafeCallback l = Some t -> quiet s s' ->
  es_trace s' = es_trace s ++ [ReleaseTsfn t] -> owned (l :: L) s -> owned L s'.
Proof.
  intros Hl [Hc Hn Hv Hr Ht Hx] Htr [H1 H2 (dead & H3 & H4) H5 H6]. inversion H1 as [|? ? Hl1 HL1]; subst.
  cbn in H2, H3. rewrite Hl in H2, H3. apply NoDup_cons in H2 as [H2 H2'].
  constructor; rewrite ?Ht; try done.
  - eapply Forall_impl; [exact HL1|]. intros l' (t' & r & f & ? & ? & ? & ?). exists t', r, f. by rewrite Ht, Hr.
  - exists ({[t]} ∪ dead). rewrite Htr, tsfn_check_app, H3. cbn. rewrite bool_decide_true by set_solver.
    split. { do 2 f_equal. set_solver. }
    intros u Hu. destruct Hl1 as (t' & r & f & Hl' & _ & Htt & _). apply H5 in Htt. rewrite Hl in Hl'. simplify_eq.
    apply elem_of_union in Hu as [->%elem_of_singleton|Hu]; [lia|]. apply H4 in Hu. lia.
  - intros t' f r Hlk. apply H5 in Hlk. lia.
Qed.

Lemma release_listener_run l L s : owned (l :: L) s ->
  exists s', releaseListenerResources l s = (inr (torn_down l), s') /\ quiet s s' /\ owned L s'.
Proof.
  intros Ho. pose proof (ow_ok _ _ Ho) as Hok. inversion Hok as [|? ? (t & r & f & Hl & _) _]; subst.
  unfold releaseListenerResources. rewrite Hl. eexists. split; [reflexivity|].
  match goal with |- quiet s ?s' /\ _ => assert (quiet s s') as Hq by (constructor; cbn; auto; lia) end.
  split; [exact Hq|]. by eapply owned_release.
Qed.

Lemma release_matching_run should ls L s : owned (ls ++ L) s ->
  exists s', release_matching should ls s
             = (inr ((fun l => if should l : bool then torn_down l else l) <$> ls), s') /\
    quiet s s' /\ owned (filter (fun l => should l = false) ls ++ L) s'.
Proof.
  revert L s. induction ls as [|l ls IH]; intros L s Ho; [by exists s; split; [|split; [apply still_refl|]]|].
  cbn [release_matching fmap list_fmap]. rewrite filter_cons. destruct (should l) eqn:E.
  - destruct (release_listener_run l (ls ++ L) s Ho) as (s1 & Hr & Hq1 & Ho1).
    destruct (IH L s1 Ho1) as (s2 & Hm & Hq2 & Ho2). exists s2.
    rewrite (bind_run _ _ _ _ _ Hr), (bind_run _ _ _ _ _ Hm), decide_False by done.
    split; [done|]. split; [by eapply still_trans|done].
  - assert (owned (ls ++ l :: L) s) as Ho' by by rewrite <- Permutation_middle.
    destruct (IH (l :: L) s Ho') as (s2 & Hm & Hq2 & Ho2). exists s2. rewrite decide_True by done.
    rewrite (bind_run (mret l) _ s l s) by done. rewrite (bind_run _ _ _ _ _ Hm).
    split; [done|]. split; [done|]. by rewrite <- app_comm_cons, Permutation_middle.
Qed.

(** ** Sweeps *)

(** The predicates of a sweep agree: a listener that still has its function is not
    gone, and one that was torn down is. *)
Definition sweep_ok (should gone : ListenerCallback -> bool) : Prop :=
  (forall l, lc_threadsafeCallback l <> None -> gone l = false) /\
  (forall l, should l = true -> gone (torn_down l) = true).

Lemma sweep_kept should gone ls : sweep_ok should gone ->
  Forall (fun l => lc_threadsafeCallback l <> None) ls ->
  filter (fun l => gone l = false) ((fun l => if should l : bool then torn_down l else l) <$> ls)
  = filter (fun l => should l = false) ls.
Proof.
  intros [H1 H2] Hall. induction Hall as [|l ls Hl _ IH]; [done|].
  rewrite fmap_cons, !filter_cons. destruct (should l) eqn:E.
  - rewrite (decide_False (P := gone _ = false)), (decide_False (P := true = false)); try done.
    by rewrite (H2 l E).
  - rewrite !decide_True by auto. by rewrite IH.
Qed.

(** A vector after a sweep; an empty one is not kept. *)
Definition prune (should : ListenerCallback -> bool) (o : option (list ListenerCallback)) : option (list ListenerCallback) :=
  ls ← o; let kept := filter (fun l => should l = false) ls in if is_nil kept then None else Some kept.

Lemma shape_write s s' c n vs : shape s ->
  es_callbacks s' = c -> es_listenerCount s' = n -> es_visible s' = es_visible s ++ vs -> es_next s <= es_next s' ->
  n = u64 (Z.of_nat (length (all_listeners c))) -> (forall key, c !! key <> Some []) ->
  Z.of_nat (length (all_listeners c)) < es_next s' -> Forall (visible_ok (es_next s')) vs -> shape s'.
Proof.
  intros [H1 H2 H3 H4] <- <- Hv Hx Hn He Hsm Hvs. constructor; try done.
  rewrite Hv. apply Forall_app. split; [|done].
  eapply Forall_impl; [exact H4|]. intros v. by apply visible_ok_mono.
Qed.

Lemma owned_has L s : owned L s -> Forall (fun l => lc_threadsafeCallback l <> None) L.
Proof. intros H. eapply Forall_impl; [apply (ow_ok _ _ H)|]. by intros l (t & r & f & -> & _). Qed.

Lemma u64_sub a b : (b <= a)%nat -> u64 (u64 (Z.of_nat a) - (Z.of_nat a - Z.of_nat b)) = u64 (Z.of_nat b).
Proof. intros H. unfold u64. rewrite Zminus_mod_idemp_l. f_equal. lia. Qed.

Lemma prune_spec should (c : listener_map) key ls :
  c !! key = Some ls ->
  let kept := filter (fun l => should l = false) ls in
  (if is_nil kept then delete key c else <[key := kept]> c) = partial_alter (fun _ => prune should (c !! key)) key c.
Proof. intros Hl. cbn. rewrite Hl. cbn. destruct (filter _ ls) as [|x l]; done. Qed.

Lemma owned_same L s s' : es_refs s' = es_refs s -> es_tsfns s' = es_tsfns s -> es_trace s' = es_trace s ->
  es_next s' = es_next s -> owned L s -> owned L s'.
Proof.
  intros Hr Ht Htr Hx [H1 H2 H3 H5 H6]. constructor; rewrite ?Ht, ?Htr, ?Hx; try done.
  eapply Forall_impl; [exact H1|]. intros l (t & r & f & ? & ? & ? & ?). exists t, r, f. by rewrite Ht, Hr.
Qed.

(** The states of a sweep of one key that an unlocked reader can see. *)
Lemma sweep_visible next (c : listener_map) (key : string) (ls ls' kept : list ListenerCallback) (N N' : nat) :
  c !! key = Some ls -> length ls' = length ls -> (length kept <= length ls)%nat ->
  N = length (all_listeners c) -> N' = length (all_listeners (<[key := kept]> c)) -> (Z.of_nat N < next) ->
  Forall (visible_ok next)
    [(<[key := ls']> c, u64 (Z.of_nat N)); (<[key := kept]> c, u64 (Z.of_nat N));
     (<[key := kept]> c, u64 (Z.of_nat N'))] /\
  (kept = [] -> visible_ok next (delete key c, u64 (Z.of_nat N'))) /\
  (N' <= N)%nat /\ (Z.of_nat N - Z.of_nat N' = Z.of_nat (length ls') - Z.of_nat (length kept)).
Proof.
  intros Hl Hlen Hle -> -> Hn.
  rewrite !Forall_cons. unfold visible_ok. cbn [fst snd].
  rewrite !length_all_insert, (length_all_lookup _ _ _ Hl) in *.
  repeat split; try constructor; try lia; try (eexists; (repeat split); lia).
Qed.

Lemma sweep_key_run should gone key s : sweep_ok should gone -> wf s ->
  exists s', sweep_key should gone key s = (inr tt, s') /\ wf s' /\
  es_callbacks s' = partial_alter (fun _ => prune should (es_callbacks s !! key)) key (es_callbacks s).
Proof.
  intros Hok [Ho Hs]. unfold sweep_key. mrun. destruct (es_callbacks s !! key) as [ls|] eqn:Hl; cycle 1.
  { exists s. split; [done|]. split; [done|]. cbn. rewrite <- Hl. by rewrite partial_alter_self. }
  rewrite <- Hl, <- (prune_spec should _ _ _ Hl).
  rewrite (all_listeners_lookup _ _ _ Hl) in Ho.
  destruct (release_matching_run should ls _ s Ho) as (s1 & Hr & [Qc Qn Qv Qr Qt Qx] & Ho1).
  rewrite Hr. cbv beta iota zeta.
  rewrite (sweep_kept should gone ls Hok) by (apply owned_has in Ho; by apply Forall_app in Ho as [? _]).
  set (ls' := _ <$> ls). set (kept := filter _ ls) in *.
  destruct (sweep_visible (es_next s1) (es_callbacks s) key ls ls' kept _ _ Hl ltac:(by unfold ls'; rewrite length_fmap) (length_filter _ _) eq_refl eq_refl) as (V123 & V4 & Hle & Hrem);
    [pose proof (sh_small _ Hs); lia|]. clearbody kept ls'.
  pose proof (all_listeners_insert (es_callbacks s) key kept) as Hp.
  assert (Z.of_nat (length (all_listeners (<[key := kept]> (es_callbacks s)))) < es_next s1) as Hsm1
    by (pose proof (sh_small _ Hs); lia).
  assert (forall s', es_refs s' = es_refs s1 -> es_tsfns s' = es_tsfns s1 -> es_trace s' = es_trace s1 ->
    es_next s' = es_next s1 -> (exists vs, es_visible s' = es_visible s ++ vs /\ Forall (visible_ok (es_next s1)) vs) ->
    es_callbacks s' = (if is_nil kept then delete key (es_callbacks s) else <[key := kept]> (es_callbacks s)) ->
    es_listenerCount s' = u64 (Z.of_nat (length (all_listeners (<[key := kept]> (es_callbacks s))))) -> wf s') as Hwf.
  { intros s' R1 R2 R3 R4 (vs & R5 & R6) R7 R8.
    assert (all_listeners (es_callbacks s') ≡ₚ kept ++ all_listeners (delete key (es_callbacks s))) as Hp'.
    { rewrite R7. destruct kept; [done|]. apply all_listeners_insert. }
    split; [rewrite Hp'; by eapply owned_same|].
    assert (length (all_listeners (es_callbacks s')) = length (all_listeners (<[key := kept]> (es_callbacks s)))) as Hlen
      by by rewrite Hp', length_all_insert, length_app.
    eapply (shape_write s s' (es_callbacks s') (es_listenerCount s')); try done; rewrite ?R4, ?R8, ?Hlen; try done.
    intros k. rewrite R7. destruct (decide (k = key)) as [->|Hne].
    - destruct kept; cbn [is_nil]; [by rewrite lookup_delete_eq|by rewrite lookup_insert_eq].
    - destruct kept; cbn [is_nil]; rewrite ?lookup_delete_ne, ?lookup_insert_ne by done; apply (sh_nonempty _ Hs). }
  pose proof (sh_count _ Hs) as Hcnt. rewrite !Forall_cons in V123. destruct V123 as (V1 & V2 & V3 & _).
  assert (is_nil kept = true -> kept = []) as Hnil by by destruct kept.
  assert (length ls' = length kept ->
    length (all_listeners (<[key := kept]> (es_callbacks s))) = length (all_listeners (es_callbacks s))) as Hsame by lia.
  rewrite <- Hrem.
  destruct (_ =? 0) eqn:Ez; [apply Z.eqb_eq in Ez; rewrite Hsame in V3, V4 by lia|];
    destruct (is_nil kept) eqn:En; mrun; cbn; eexists; (split; [reflexivity|]);
    (split; [apply Hwf; cbn; rewrite ?En, ?Qv, ?Qc, ?insert_insert_eq, ?delete_insert_eq, ?Qn, ?Hcnt, ?u64_sub by done; try done
            | cbn; rewrite Qc, ?insert_insert_eq, ?delete_insert_eq; done]);
    try (rewrite Hsame by lia; done);
    rewrite <- !app_assoc; eexists; (split; [reflexivity|]); rewrite !Forall_app, !Forall_singleton; split_and?; auto.
Qed.

Lemma sweep_run should gone keys s : sweep_ok should gone -> NoDup keys -> wf s ->
  exists s', sweep should gone keys s = (inr tt, s') /\ wf s' /\
    forall key, es_callbacks s' !! key
                = if bool_decide (key ∈ keys) then prune should (es_callbacks s !! key) else es_callbacks s !! key.
Proof.
  intros Hok. revert s. induction keys as [|k keys IH]; intros s Hnd Hwf.
  { exists s. split; [done|]. split; [done|]. intros key. by rewrite bool_decide_false by apply not_elem_of_nil. }
  apply NoDup_cons in Hnd as [Hk Hnd]. cbn [sweep].
  destruct (sweep_key_run should gone k s Hok Hwf) as (s1 & H1 & Hw1 & Hc1).
  destruct (IH s1 Hnd Hw1) as (s2 & H2 & Hw2 & Hc2).
  exists s2. rewrite (bind_run _ _ _ _ _ H1). split; [done|]. split; [done|]. intros key. rewrite Hc2, Hc1.
  destruct (decide (key = k)) as [->|Hne].
  - by rewrite bool_decide_false, bool_decide_true, lookup_partial_alter_eq by (done || set_solver).
  - rewrite lookup_partial_alter_ne by done.
    by rewrite (bool_decide_ext (key ∈ k :: keys) (key ∈ keys)) by set_solver.
Qed.

Lemma map_keys_nodup c : NoDup (map_keys c).
Proof. rewrite map_keys_perm. apply NoDup_fst_map_to_list. Qed.

Lemma elem_of_map_keys c key : key ∈ map_keys c <-> is_Some (c !! key).
Proof.
  rewrite map_keys_perm, list_elem_of_fmap. split.
  - intros ([k ls] & -> & H%elem_of_map_to_list). by exists ls.
  - intros [ls H]. exists (key, ls). by rewrite elem_of_map_to_list.
Qed.

(** A sweep of the whole map. *)
Lemma sweep_all should gone s : sweep_ok should gone -> wf s ->
  exists s', sweep should gone (map_keys (es_callbacks s)) s = (inr tt, s') /\ wf s' /\
    forall key, es_callbacks s' !! key = prune should (es_callbacks s !! key).
Proof.
  intros Hok Hwf. destruct (sweep_run should gone (map_keys (es_callbacks s)) s Hok (map_keys_nodup _) Hwf) as (s' & Hr & Hw & Hc).
  exists s'. split; [done|]. split; [done|]. intros key. rewrite Hc. case_bool_decide as Hk; [done|].
  rewrite elem_of_map_keys, <- eq_None_not_Some in Hk. by rewrite Hk.
Qed.

(** ** Steps that leave the listeners alone *)

Definition neutral_call (c : ncall) : Prop :=
  match c with CreateReference _ _ | DeleteReference _ | CallFunction _ _ => True | _ => False end.

Definition neutral {A} (m : EM A) : Prop := forall s,
  quiet s (snd (m s)) /\ exists tr, es_trace (snd (m s)) = es_trace s ++ tr /\ Forall neutral_call tr.

Lemma neutral_check st tr : Forall neutral_call tr -> tsfn_check st tr = Some st.
Proof. destruct st as [live dead]. induction 1 as [|c tr Hc _ IH]; [done|]. by destruct c. Qed.

Lemma neutral_wf {A} (m : EM A) s : neutral m -> wf s -> wf (snd (m s)).
Proof.
  intros Hm. destruct (Hm s) as (Hq & tr & Htr & Hn). eapply wf_quiet; [done..|].
  intros dead L. by apply neutral_check.
Qed.

Lemma neutral_owned {A} (m : EM A) L s : neutral m -> owned L s -> owned L (snd (m s)).
Proof.
  intros Hm. destruct (Hm s) as (Hq & tr & Htr & Hn). eapply owned_quiet; [done..|].
  intros dead. by apply neutral_check.
Qed.

Lemma neutral_same {A} (m : EM A) : (forall s, quiet s (snd (m s)) /\ es_trace (snd (m s)) = es_trace s) -> neutral m.
Proof. intros H s. destruct (H s) as [Hq Ht]. split; [done|]. exists []. by rewrite app_nil_r. Qed.

Lemma neutral_bind {A B} (m : EM A) (k : A -> EM B) :
  neutral m -> (forall a, neutral (k a)) -> neutral (a ← m; k a).
Proof.
  intros Hm Hk s. destruct (Hm s) as (Hq & tr & Htr & Hn). unfold mbind, M_bind.
  destruct (m s) as [[e|a] s1]; [by split; [|exists tr]|]. cbn in *.
  destruct (Hk a s1) as (Hq' & tr' & Htr' & Hn'). split; [by eapply still_trans|].
  exists (tr ++ tr'). rewrite Htr', Htr, app_assoc. split; [done|]. by apply Forall_app.
Qed.

Ltac neutral_field := apply neutral_same; intros s; (split; [constructor; cbn; auto; lia | reflexivity]).

Lemma neutral_ret {A} (a : A) : neutral (mret a : EM A).
Proof. neutral_field. Qed.
Lemma neutral_throw {A} e : neutral (throw e : EM A).
Proof. neutral_field. Qed.
Lemma neutral_gets {A} (f : ES -> A) : neutral (gets f).
Proof. neutral_field. Qed.
Lemma neutral_unused : neutral unused.
Proof. neutral_field. Qed.
Lemma neutral_status : neutral napi_status.
Proof. neutral_field. Qed.
Lemma neutral_heap f : neutral (set_heap f).
Proof. neutral_field. Qed.
Lemma neutral_queue f : neutral (set_queue f).
Proof. neutral_field. Qed.
Lemma neutral_owners f : neutral (set_owners f).
Proof. neutral_field. Qed.
Lemma neutral_record c : neutral_call c -> neutral (record c).
Proof.
  intros Hc s. split; [constructor; cbn; auto; lia|]. exists [c]. split; [done|]. by apply Forall_singleton.
Qed.

Ltac neutral_step :=
  match goal with
  | |- neutral (_ ≫= _) => apply neutral_bind; [|intros ?]
  | |- neutral (mret _) => apply neutral_ret
  | |- neutral (throw _) => apply neutral_throw
  | |- neutral (gets _) => apply neutral_gets
  | |- neutral unused => apply neutral_unused
  | |- neutral napi_status => apply neutral_status
  | |- neutral (set_heap _) => apply neutral_heap
  | |- neutral (set_queue _) => apply neutral_queue
  | |- neutral (set_owners _) => apply neutral_owners
  | |- neutral (record _) => apply neutral_record; exact I
  | |- neutral (match ?x with _ => _ end) => destruct x
  end.
Ltac neutral_tac := repeat (intros; cbv zeta; neutral_step).

Lemma neutral_status_throws : neutral status_throws.
Proof. unfold status_throws. neutral_tac. Qed.
Lemma neutral_new args : neutral (new_listener_data args).
Proof. unfold new_listener_data. neutral_tac. Qed.
Lemma neutral_delete d : neutral (delete_data d).
Proof. unfold delete_data. neutral_tac. Qed.
Lemma neutral_delete_if d : neutral (delete_if d).
Proof. unfold delete_if, delete_data. neutral_tac. Qed.

Lemma neutral_free (b : bool) data argv k : neutral k -> neutral (status_throws_free b data argv k).
Proof.
  intros Hk. unfold status_throws_free. destruct b; [done|].
  repeat (apply neutral_bind; [apply neutral_delete_if|intros ?]). apply neutral_throw.
Qed.

Lemma neutral_elements n data argv k : neutral k -> neutral (get_elements n data argv k).
Proof.
  intros Hk. induction n as [|n IH]; [done|]. cbn [get_elements].
  apply neutral_bind; [apply neutral_status|intros b]. by apply neutral_free.
Qed.

Lemma neutral_call_back fn args argv : neutral (call_back fn args argv).
Proof.
  unfold call_back. apply neutral_bind; [apply neutral_status|intros b].
  apply neutral_bind; [by apply neutral_record|intros ?].
  apply neutral_bind; [apply neutral_delete_if|intros ?]. neutral_tac.
Qed.

(** The trampoline touches no listener. *)
Lemma neutral_trampoline env fn data : neutral (callListenerCallback env fn data).
Proof.
  unfold callListenerCallback.
  repeat (intros; cbv zeta; first
    [ apply neutral_free | apply neutral_elements | apply neutral_call_back | apply neutral_delete
    | apply neutral_new | neutral_step ]).
Qed.

(** ** Adding *)

(** Other references than those of live listeners may come and go. *)
Lemma owned_refs L s s' tr : (forall t f r, es_tsfns s !! t = Some (f, r) -> es_refs s' !! r = es_refs s !! r) ->
  es_tsfns s' = es_tsfns s -> es_next s <= es_next s' ->
  es_trace s' = es_trace s ++ tr -> Forall neutral_call tr -> owned L s -> owned L s'.
Proof.
  intros Hr Ht Hx Htr Hn [H1 H2 (dead & H3 & H4) H5 H6]. constructor; rewrite ?Ht; try done.
  - eapply Forall_impl; [exact H1|]. intros l (t & r & f & ? & ? & ? & ?). exists t, r, f.
    by rewrite Ht, (Hr t f r) by done.
  - exists dead. rewrite Htr, tsfn_check_app, H3. cbn. rewrite neutral_check by done. split; [done|].
    intros t Hd. apply H4 in Hd. lia.
  - intros t f r Hl. apply H5 in Hl. lia.
Qed.

Lemma owned_create L s s' l f r : owned L s ->
  lc_threadsafeCallback l = Some (es_next s) -> lc_callbackRef l = Some r ->
  es_refs s' = es_refs s -> es_refs s !! r = Some f ->
  (forall t f' r', es_tsfns s !! t = Some (f', r') -> r' <> r) -> r < es_next s ->
  es_tsfns s' = <[es_next s := (f, r)]> (es_tsfns s) -> es_next s' = es_next s + 1 ->
  es_trace s' = es_trace s ++ [CreateTsfn (es_next s) r] -> owned (l :: L) s'.
Proof.
  intros [H1 H2 (dead & H3 & H4) H5 H6] Hl Hlr Hrs Hr Hfresh Hrn Hts Hx Htr.
  assert (es_tsfns s !! es_next s = None) as Hnone.
  { destruct (es_tsfns s !! es_next s) as [[f' r']|] eqn:E; [|done]. apply H5 in E. lia. }
  assert (forall t, t ∈ tsfns_of L -> t < es_next s) as Hlt.
  { intros t (l' & Hin & Hl')%list_elem_of_omap. rewrite Forall_forall in H1.
    destruct (H1 l' Hin) as (t' & r' & f' & Ht' & _ & E & _). simplify_eq. apply H5 in E. lia. }
  constructor; rewrite ?Hts, ?Hx.
  - constructor.
    + exists (es_next s), r, f. rewrite Hts, Hrs, lookup_insert_eq. done.
    + eapply Forall_impl; [exact H1|]. intros l' (t & r' & f' & ? & ? & ? & ?). exists t, r', f'.
      rewrite Hts, Hrs, lookup_insert_ne by congruence. done.
  - cbn. rewrite Hl. apply NoDup_cons. split; [|done]. intros Hin. apply Hlt in Hin. lia.
  - exists dead. rewrite Htr, tsfn_check_app, H3. cbn. rewrite Hl, bool_decide_false; [split; [done|]|].
    + intros t Hd. apply H4 in Hd. lia.
    + rewrite elem_of_union, elem_of_list_to_set. intros [Hin|Hin]; [apply Hlt in Hin|apply H4 in Hin]; lia.
  - intros t f' r' [[<- [= <- <-]]|[_ E]]%lookup_insert_Some; [lia|]. apply H5 in E. lia.
  - intros t t' f1 f2 r0 [[<- [= <- <-]]|[_ E]]%lookup_insert_Some [[<- E']|[_ E']]%lookup_insert_Some;
      [done| | |by eapply H6].
    + by apply Hfresh in E'.
    + injection E' as <- <-. by apply Hfresh in E.
Qed.

Lemma publish_wf key l s : owned (l :: all_listeners (es_callbacks s)) s -> shape s ->
  Z.of_nat (length (all_listeners (es_callbacks s))) + 1 < es_next s ->
  exists s', publish key l s = (inr tt, s') /\ wf s' /\
    es_callbacks s' = <[key := default [] (es_callbacks s !! key) ++ [l]]> (es_callbacks s).
Proof.
  intros Ho Hs Hx. unfold publish. mrun.
  set (c := es_callbacks s) in *. set (ls := default [] (c !! key)).
  assert (all_listeners c ≡ₚ ls ++ all_listeners (delete key c)) as Hp.
  { unfold ls. destruct (c !! key) eqn:E; [by apply all_listeners_lookup|]. by rewrite delete_id. }
  assert (all_listeners (<[key := ls ++ [l]]> c) ≡ₚ l :: all_listeners c) as Hp'.
  { rewrite all_listeners_insert, Hp, <- app_assoc. symmetry. apply Permutation_middle. }
  assert (forall s' vs, es_refs s' = es_refs s -> es_tsfns s' = es_tsfns s -> es_trace s' = es_trace s ->
    es_next s' = es_next s -> es_visible s' = es_visible s ++ vs -> Forall (visible_ok (es_next s)) vs ->
    es_callbacks s' = <[key := ls ++ [l]]> c ->
    es_listenerCount s' = u64 (es_listenerCount s + 1) -> wf s') as Hwf.
  { intros s' vs R1 R2 R3 R4 R5 R6 R7 R8. split; [rewrite R7, Hp'; by eapply owned_same|].
    eapply (shape_write s s' (es_callbacks s') (es_listenerCount s')); try done; rewrite ?R4, ?R7; try done.
    - rewrite R8, Hp', (sh_count _ Hs). fold c. cbn [length]. unfold u64. rewrite Zplus_mod_idemp_l. f_equal. lia.
    - intros k. destruct (decide (k = key)) as [->|Hne].
      + rewrite lookup_insert_eq. by destruct ls.
      + rewrite lookup_insert_ne by done. apply (sh_nonempty _ Hs).
    - rewrite Hp'. cbn [length]. lia. }
  assert (forall c', length (all_listeners c') = length (all_listeners c) ->
    visible_ok (es_next s) (c', es_listenerCount s) /\ visible_ok (es_next s) (c', u64 (es_listenerCount s + 1))) as Hv1.
  { intros c' Hc'. split; rewrite (sh_count _ Hs); fold c.
    - exists (length (all_listeners c)). cbn. rewrite Hc'. split; [lia|]. split; [lia|done].
    - exists (S (length (all_listeners c))). cbn [fst snd]. rewrite Hc'. split; [lia|]. split; [lia|].
      unfold u64. rewrite Zplus_mod_idemp_l. f_equal. lia. }
  assert (visible_ok (es_next s) (<[key := ls ++ [l]]> c, u64 (es_listenerCount s + 1))) as Hv2.
  { exists (S (length (all_listeners c))). cbn [fst snd]. rewrite Hp'. cbn [length]. split; [lia|]. split; [lia|].
    rewrite (sh_count _ Hs). fold c. unfold u64. rewrite Zplus_mod_idemp_l. f_equal. lia. }
  destruct (c !! key) as [ls0|] eqn:E; cbn in ls; subst ls.
  - rewrite bool_decide_false by done. cbn. eexists. split; [reflexivity|].
    assert (alter (fun ls => ls ++ [l]) key c = <[key := ls0 ++ [l]]> c) as Ha.
    { apply map_eq. intros k. destruct (decide (k = key)) as [->|Hne].
      - by rewrite lookup_alter_eq, lookup_insert_eq, E.
      - by rewrite lookup_alter_ne, lookup_insert_ne. }
    split; [|done]. eapply Hwf; cycle 4; [cbn; by rewrite <- app_assoc | cbn; fold c; rewrite Ha | done..].
    repeat constructor; [by apply Hv1 | done].
  - rewrite bool_decide_true by done. cbn. eexists. split; [reflexivity|].
    assert (alter (fun ls => ls ++ [l]) key (<[key := []]> c) = <[key := [l]]> c) as Ha.
    { apply map_eq. intros k. destruct (decide (k = key)) as [->|Hne].
      - by rewrite lookup_alter_eq, !lookup_insert_eq.
      - by rewrite lookup_alter_ne, !lookup_insert_ne. }
    assert (length (all_listeners (<[key := []]> c)) = length (all_listeners c)) as He.
    { by rewrite length_all_insert, delete_id. }
    destruct (Hv1 _ He) as [V1 V2].
    split; [|done]. eapply Hwf; cycle 4; [cbn; by rewrite <- !app_assoc | cbn; fold c; rewrite Ha | done..].
    by repeat constructor.
Qed.

(** A status check either throws in a state the next statement could not tell from
    the old one, or goes on there. *)
Lemma status_throws_run s : exists s', quiet s s' /\ es_trace s' = es_trace s /\ es_next s' = es_next s /\
  (status_throws s = (inr tt, s') \/ status_throws s = (inl (DBException "napi"), s')).
Proof.
  unfold status_throws. mrun. cbn. destruct (napi_ok _); eexists; (split; [|split; [|split; [|eauto]]]);
    try reflexivity; constructor; cbn; auto; lia.
Qed.

Lemma wf_after_status s s' : quiet s s' -> es_trace s' = es_trace s -> wf s -> wf s'.
Proof. intros Hq Ht. apply (wf_quiet s s' []); [done | by rewrite app_nil_r | done]. Qed.

(** From the reference on. *)
Definition add_from_ref (env : Z) (key : string) (callback : Z) (owner : option Z) : EM Z :=
  callbackRef ← unused;
  set_refs (<[callbackRef := callback]>);; record (CreateReference callbackRef callback);;
  hasOwner ← gets (owner_alive owner);
  created ← napi_status;
  if negb created then
    set_refs (delete callbackRef);; record (DeleteReference callbackRef);;
    _ ← napi_status;
    throw (DBException "Failed to create threadsafe function")
  else
    tsfn ← unused;
    set_tsfns (<[tsfn := (callback, callbackRef)]>);; record (CreateTsfn tsfn callbackRef);;
    let l := mkLC env (Some tsfn) (Some callbackRef) owner hasOwner in
    unrefed ← napi_status;
    if negb unrefed then
      _ ← releaseListenerResources l; throw (DBException "Failed to unref threadsafe function")
    else publish key l;; mret callbackRef.

Definition added (env : Z) (owner : option Z) (s : ES) : ListenerCallback :=
  mkLC env (Some (es_next s + 1)) (Some (es_next s)) owner (owner_alive owner s).

Lemma add_from_ref_run env key callback owner s : wf s ->
  let r := add_from_ref env key callback owner s in
  wf (snd r) /\
  match fst r with
  | inl _ => es_callbacks (snd r) = es_callbacks s
  | inr _ => es_callbacks (snd r)
             = <[key := default [] (es_callbacks s !! key) ++ [added env owner s]]> (es_callbacks s)
  end.
Proof.
  intros [Ho Hs]. cbn zeta. unfold add_from_ref.
  assert (forall t f r, es_tsfns s !! t = Some (f, r) -> r <> es_next s) as Hfr.
  { intros t f r E. apply (ow_next _ _ Ho) in E. lia. }
  mrun. cbn -[releaseListenerResources publish].
  destruct (napi_ok (es_calls s)); cbn -[releaseListenerResources publish]; cycle 1.
  { split; [|done]. split; cbn; [|eapply shape_fields; [..|exact Hs]; cbn; auto; lia].
    eapply (owned_refs _ s); [..|exact Ho]; cbn; [|done|lia|by rewrite <- app_assoc|by repeat constructor].
    intros t f r E. by rewrite lookup_delete_ne, lookup_insert_ne by (by eapply not_eq_sym, Hfr). }
  match goal with |- context [(if negb _ then _ else _) ?s2] => set (s' := s2) end.
  assert (owned (added env owner s :: all_listeners (es_callbacks s)) s') as Ho'.
  { set (s1 := mkES (es_callbacks s) (es_listenerCount s) (es_visible s) (es_heap s)
      (<[es_next s := callback]> (es_refs s)) (es_tsfns s) (es_owners s) (es_queue s)
      (es_trace s ++ [CreateReference (es_next s) callback]) (es_calls s) (es_next s + 1)).
    assert (owned (all_listeners (es_callbacks s)) s1) as Ho1.
    { eapply (owned_refs _ s s1); [..|exact Ho]; cbn; [|done|lia|done|by repeat constructor].
      intros t f r E. by rewrite lookup_insert_ne by (by eapply not_eq_sym, Hfr). }
    eapply (owned_create _ s1); [exact Ho1|..]; cbn; try done; [by rewrite lookup_insert_eq | lia]. }
  assert (shape s') as Hs' by (eapply shape_fields; [..|exact Hs]; cbn; auto; lia).
  destruct (napi_ok _); cbn [negb].
  - destruct (publish_wf key (added env owner s) s' Ho' Hs') as (s2 & Hpub & Hw & Hc);
      [pose proof (sh_small _ Hs); cbn; lia|].
    change (es_callbacks s') with (es_callbacks s) in Hc.
    match goal with |- context [publish key ?x ?y] => change (publish key x y) with (publish key (added env owner s) s') end.
    rewrite Hpub. done.
  - destruct (release_listener_run (added env owner s) _ s' Ho') as (s2 & Hrel & Hq & Hw).
    match goal with |- context [releaseListenerResources ?x ?y] =>
      change (releaseListenerResources x y) with (releaseListenerResources (added env owner s) s') end.
    rewrite Hrel. cbn. rewrite (q_callbacks _ _ Hq). split; [|done].
    split; [by rewrite (q_callbacks _ _ Hq)|]. by eapply shape_quiet.
Qed.

Lemma addListener_run env key callback owner s : wf s ->
  exists s0, quiet s s0 /\ es_next s0 = es_next s /\
  let r := addListener env key callback owner s in
  wf (snd r) /\
  match fst r with
  | inl _ => es_callbacks (snd r) = es_callbacks s
  | inr _ => napi_is_function callback = true /\
             es_callbacks (snd r)
             = <[key := default [] (es_callbacks s !! key) ++ [added env owner s0]]> (es_callbacks s)
  end.
Proof.
  intros Hw. unfold addListener.
  destruct (status_throws_run s) as (s1 & Hq1 & Ht1 & Hn1 & H1).
  pose proof (wf_after_status _ _ Hq1 Ht1 Hw) as Hw1.
  destruct H1 as [H1|H1]; [rewrite (bind_run _ _ _ _ _ H1)|rewrite (bind_fail _ _ _ _ _ H1); exists s1;
    split_and!; try done; cbn; apply Hq1].
  destruct (napi_is_function callback); cbn [negb]; [|exists s1; split_and!; try done; cbn; apply Hq1].
  destruct (status_throws_run s1) as (s2 & Hq2 & Ht2 & Hn2 & H2).
  pose proof (wf_after_status _ _ Hq2 Ht2 Hw1) as Hw2. pose proof (still_trans _ _ _ Hq1 Hq2) as Hq12.
  destruct H2 as [H2|H2]; [rewrite (bind_run _ _ _ _ _ H2)|rewrite (bind_fail _ _ _ _ _ H2); exists s2;
    split_and!; try done; cbn; [congruence|apply Hq12]].
  destruct (status_throws_run s2) as (s3 & Hq3 & Ht3 & Hn3 & H3).
  pose proof (wf_after_status _ _ Hq3 Ht3 Hw2) as Hw3. pose proof (still_trans _ _ _ Hq12 Hq3) as Hq.
  exists s3. split; [done|]. split; [congruence|]. cbn zeta. rewrite <- (q_callbacks _ _ Hq).
  destruct H3 as [H3|H3]; [rewrite (bind_run _ _ _ _ _ H3)|rewrite (bind_fail _ _ _ _ _ H3); done].
  destruct (add_from_ref_run env key callback owner s3 Hw3) as [Hw' Hc'].
  fold (add_from_ref env key callback owner). destruct (add_from_ref env key callback owner s3) as [[e|r] s4]; done.
Qed.

(** ** Notifying *)

(** Steps that call no threadsafe function but those in [T]. *)
Definition allowed (T : gset Z) (c : ncall) : Prop :=
  neutral_call c \/ exists t d b, c = CallTsfn t d b /\ t ∈ T.

Definition calls_in {A} (T : gset Z) (m : EM A) : Prop := forall s,
  quiet s (snd (m s)) /\ exists tr, es_trace (snd (m s)) = es_trace s ++ tr /\ Forall (allowed T) tr.

Lemma neutral_calls_in {A} T (m : EM A) : neutral m -> calls_in T m.
Proof.
  intros Hm s. destruct (Hm s) as (Hq & tr & Htr & Hn). split; [done|]. exists tr. split; [done|].
  eapply Forall_impl; [exact Hn|]. by left.
Qed.

Lemma calls_in_bind {A B} T (m : EM A) (k : A -> EM B) :
  calls_in T m -> (forall a, calls_in T (k a)) -> calls_in T (a ← m; k a).
Proof.
  intros Hm Hk s. destruct (Hm s) as (Hq & tr & Htr & Hn). unfold mbind, M_bind.
  destruct (m s) as [[e|a] s1]; [by split; [|exists tr]|]. cbn in *.
  destruct (Hk a s1) as (Hq' & tr' & Htr' & Hn'). split; [by eapply still_trans|].
  exists (tr ++ tr'). rewrite Htr', Htr, app_assoc. split; [done|]. by apply Forall_app.
Qed.

Lemma calls_in_record T t d b : t ∈ T -> calls_in T (record (CallTsfn t d b)).
Proof.
  intros Ht s. split; [constructor; cbn; auto; lia|]. exists [CallTsfn t d b]. split; [done|].
  apply Forall_singleton. right. by exists t, d, b.
Qed.

Lemma allowed_check T live dead tr : T ⊆ live -> Forall (allowed T) tr ->
  tsfn_check (live, dead) tr = Some (live, dead).
Proof.
  intros HT. induction 1 as [|c tr Hc _ IH]; [done|].
  destruct Hc as [Hc|(t & d & b & -> & Ht)]; [by destruct c|]. cbn. by rewrite bool_decide_true by set_solver.
Qed.

Lemma calls_in_wf {A} T (m : EM A) s : calls_in T m -> T ⊆ list_to_set (tsfns_of (all_listeners (es_callbacks s))) ->
  wf s -> wf (snd (m s)) /\ es_callbacks (snd (m s)) = es_callbacks s.
Proof.
  intros Hm HT Hw. destruct (Hm s) as (Hq & tr & Htr & Hn). split; [|apply Hq].
  eapply wf_quiet; [done..| |done]. intros dead. by eapply allowed_check.
Qed.

Lemma calls_in_listeners T ls data : list_to_set (tsfns_of ls) ⊆ T -> calls_in T (call_listeners ls data).
Proof.
  induction ls as [|l ls IH]; intros HT; [apply neutral_calls_in, neutral_ret|]. cbn [call_listeners].
  cbn in HT. destruct (lc_threadsafeCallback l) as [t|]; [|by apply IH].
  apply calls_in_bind; [|intros copy].
  { apply neutral_calls_in. destruct data; [|apply neutral_ret].
    repeat (intros; first [apply neutral_new | neutral_step]). }
  apply calls_in_bind; [apply neutral_calls_in, neutral_status|intros b].
  apply calls_in_bind; [apply calls_in_record; set_solver|intros _].
  apply calls_in_bind; [apply neutral_calls_in; destruct b; [apply neutral_queue|apply neutral_delete_if]|intros _].
  apply IH. set_solver.
Qed.

Lemma notify_seen_wf seen key data s : wf s ->
  wf (snd (notify_seen seen key data s)) /\ es_callbacks (snd (notify_seen seen key data s)) = es_callbacks s.
Proof.
  intros Hw. set (T := list_to_set (tsfns_of (default [] (es_callbacks s !! key))) : gset Z).
  assert (T ⊆ list_to_set (tsfns_of (all_listeners (es_callbacks s)))) as HT.
  { unfold T. destruct (es_callbacks s !! key) as [ls|] eqn:E; [|cbn; set_solver].
    rewrite (all_listeners_lookup _ _ _ E). cbn. rewrite omap_app. set_solver. }
  assert (calls_in T (delete_if data)) as Hdel by apply neutral_calls_in, neutral_delete_if.
  unfold notify_seen. destruct (seen =? 0).
  { eapply (calls_in_wf T); [|done|done]. apply calls_in_bind; [done|intros _]. apply neutral_calls_in, neutral_ret. }
  rewrite (bind_run (gets es_callbacks) _ s (es_callbacks s) s) by done.
  eapply (calls_in_wf T); [|done|done].
  apply calls_in_bind; [|intros found; apply calls_in_bind; [done|intros _; apply neutral_calls_in, neutral_ret]].
  destruct (es_callbacks s !! key) as [ls|]; [|apply neutral_calls_in, neutral_ret].
  apply calls_in_bind; [by apply calls_in_listeners|intros _; apply neutral_calls_in, neutral_ret].
Qed.

(** ** Finalizing *)

Lemma finalize_wf tsfn s : wf s -> wf (snd (finalize tsfn s)) /\ es_callbacks (snd (finalize tsfn s)) = es_callbacks s.
Proof.
  intros [Ho Hs]. unfold finalize, finalizeListenerCallback. mrun. destruct (es_tsfns s !! tsfn) as [[f r]|] eqn:E; [|done].
  destruct (existsb _ _) eqn:Hrel; [|done]. cbn. split; [|done].
  split; cbn; [|eapply shape_fields; [..|exact Hs]; cbn; auto; lia].
  destruct Ho as [H1 H2 (dead & H3 & H4) H5 H6].
  assert (forall t, t ∈ tsfns_of (all_listeners (es_callbacks s)) -> t <> tsfn) as Hne.
  { intros t Ht ->. assert (tsfn ∈ dead) as Hd by (by eapply tsfn_check_dead in H3; [|cbn; set_solver|]).
    apply tsfn_check_disjoint in H3 as [Hdis _]; cbn in *; [|set_solver]. set_solver. }
  constructor; cbn; try done.
  - rewrite Forall_forall in H1 |- *. intros l Hl. destruct (H1 l Hl) as (t & r' & f' & Hlt & ? & Ht & Hr).
    assert (t <> tsfn) as Htn by (apply Hne, list_elem_of_omap; by exists l).
    exists t, r', f'. cbn. rewrite !lookup_delete_ne; [done| |done]. intros <-. apply Htn. by eapply H6.
  - exists dead. by rewrite tsfn_check_app, H3.
  - intros t f' r' [_ Ht]%lookup_delete_Some. by eapply H5.
  - intros t t' f1 f2 r' [_ Ht]%lookup_delete_Some [_ Ht']%lookup_delete_Some. by eapply H6.
Qed.

(** ** Removing one listener *)

(** The shape, but for a key that may be empty. *)
Record shape_but (key : string) (s : ES) : Prop := {
  sb_count : es_listenerCount s = u64 (Z.of_nat (length (all_listeners (es_callbacks s))));
  sb_nonempty : forall k, k <> key -> es_callbacks s !! k <> Some [];
  sb_small : Z.of_nat (length (all_listeners (es_callbacks s))) < es_next s;
  sb_visible : Forall (visible_ok (es_next s)) (es_visible s)
}.

(** A listener of [env] for the function [callback]. *)
Definition matches (env callback : Z) (s : ES) (l : ListenerCallback) : Prop :=
  lc_env l = env /\ lc_callbackRef l ≫= (es_refs s !!.) = Some callback.

(** The first matching listener of the key's vector is taken out of it. *)
Definition takes_out (env : Z) (key : string) (callback : Z) (s : ES) (vec' : list ListenerCallback) : Prop :=
  exists b l a, es_callbacks s !! key = Some (b ++ l :: a) /\ vec' = b ++ a /\
    matches env callback s l /\ Forall (fun x => ~ matches env callback s x) b.

Lemma take_out_run key l b a s : wf s -> es_callbacks s !! key = Some (b ++ l :: a) ->
  exists s', (l' ← releaseListenerResources l;
              set_callbacks (<[key := b ++ l' :: a]>);;
              set_callbacks (<[key := b ++ a]>);;
              set_count (fun n => u64 (n - 1));; mret true) s = (inr true, s') /\
    es_callbacks s' = <[key := b ++ a]> (es_callbacks s) /\
    owned (all_listeners (es_callbacks s')) s' /\ shape_but key s'.
Proof.
  intros [Ho Hs] Hl. pose proof (all_listeners_lookup _ _ _ Hl) as Hp.
  assert (owned (l :: (b ++ a) ++ all_listeners (delete key (es_callbacks s))) s) as Ho1.
  { rewrite Hp, <- Permutation_middle in Ho. done. }
  destruct (release_listener_run l _ s Ho1) as (s1 & Hr & [Qc Qn Qv Qr Qt Qx] & Ho2).
  rewrite (bind_run _ _ _ _ _ Hr). mrun. cbn. eexists. split; [reflexivity|]. cbn.
  rewrite Qc, insert_insert_eq, Qn, Qv. split; [done|].
  destruct (sweep_visible (es_next s1) (es_callbacks s) key (b ++ l :: a) (b ++ torn_down l :: a) (b ++ a) _ _ Hl
    ltac:(rewrite !length_app; cbn; lia) ltac:(rewrite !length_app; cbn; lia) eq_refl eq_refl) as (V & _ & Hle & Hrem);
    [pose proof (sh_small _ Hs); lia|].
  assert (u64 (es_listenerCount s - 1)
          = u64 (Z.of_nat (length (all_listeners (<[key := b ++ a]> (es_callbacks s)))))) as Hc.
  { rewrite (sh_count _ Hs), <- (u64_sub _ _ Hle). do 2 f_equal. rewrite Hrem, !length_app. cbn. lia. }
  split; [rewrite all_listeners_insert; by apply (owned_same _ s1)|].
  rewrite !Forall_cons in V. destruct V as (V1 & V2 & V3 & _). rewrite <- (sh_count _ Hs) in V1, V2.
  constructor; cbn; rewrite ?Hc; try done.
  - intros k Hk. rewrite lookup_insert_ne by done. apply (sh_nonempty _ Hs).
  - pose proof (sh_small _ Hs). lia.
  - rewrite <- !app_assoc, !Forall_app, !Forall_singleton. split_and!; try done.
    eapply Forall_impl; [apply (sh_visible _ Hs)|]. intros v. by apply visible_ok_mono.
Qed.

Lemma matches_quiet env callback s s' l : quiet s s' -> matches env callback s l <-> matches env callback s' l.
Proof. intros Hq. unfold matches. by rewrite (q_refs _ _ Hq). Qed.

Lemma remove_first_run env key callback before ls s : wf s -> es_callbacks s !! key = Some (before ++ ls) ->
  Forall (fun x => ~ matches env callback s x) before ->
  exists r s', remove_first env key callback before ls s = (r, s') /\
    (quiet s s' /\ es_trace s' = es_trace s /\ r <> inr true /\
       (r = inr false -> Forall (fun x => ~ matches env callback s x) (before ++ ls)) \/
     r = inr true /\ owned (all_listeners (es_callbacks s')) s' /\ shape_but key s' /\
       exists vec', takes_out env key callback s vec' /\ es_callbacks s' = <[key := vec']> (es_callbacks s)).
Proof.
  revert before s. induction ls as [|l ls IH]; intros before s Hw Hl Hb; cbn [remove_first].
  { exists (inr false), s. split; [done|]. left. rewrite app_nil_r. split_and!; try done; apply still_refl. }
  assert (before ++ l :: ls = (before ++ [l]) ++ ls) as Happ by by rewrite <- app_assoc.
  destruct (env =? lc_env l) eqn:He; cbn [negb]; cycle 1.
  { rewrite Happ in *. apply IH; [done..|]. apply Forall_app. split; [done|]. apply Forall_singleton.
    intros [? _]. apply Z.eqb_neq in He. congruence. }
  apply Z.eqb_eq in He.
  destruct (status_throws_run s) as (s1 & Hq1 & Ht1 & _ & [H1|H1]); cycle 1.
  { rewrite (bind_fail _ _ _ _ _ H1). eexists _, s1. split; [done|]. left. done. }
  rewrite (bind_run _ _ _ _ _ H1), (bind_run (gets es_refs) _ s1 (es_refs s1) s1) by done.
  rewrite (q_refs _ _ Hq1). destruct (lc_callbackRef l ≫= _) as [fn|] eqn:Hfn; cycle 1.
  { eexists _, s1. split; [done|]. left. done. }
  destruct (status_throws_run s1) as (s2 & Hq2 & Ht2 & _ & [H2|H2]); pose proof (still_trans _ _ _ Hq1 Hq2) as Hq; cycle 1.
  { rewrite (bind_fail _ _ _ _ _ H2). eexists _, s2. split; [done|]. left. split_and!; try done. congruence. }
  rewrite (bind_run _ _ _ _ _ H2).
  assert (wf s2) as Hw2 by (eapply wf_after_status; [done|congruence|done]).
  assert (es_callbacks s2 !! key = Some (before ++ l :: ls)) as Hl2 by by rewrite (q_callbacks _ _ Hq).
  destruct (fn =? callback) eqn:Hcb.
  - apply Z.eqb_eq in Hcb as ->. destruct (take_out_run key l before ls s2 Hw2 Hl2) as (s3 & H3 & Hc3 & Ho3 & Hs3).
    exists (inr true), s3. split; [done|]. right. split_and!; try done. exists (before ++ ls).
    rewrite Hc3, (q_callbacks _ _ Hq). split; [|done]. exists before, l, ls. done.
  - rewrite Happ in Hl2. destruct (IH (before ++ [l]) s2 Hw2 Hl2) as (r & s3 & H3 & Hr).
    { apply (Forall_impl (fun x => ~ matches env callback s x)); [|intros x Hx Hm; apply Hx; by apply (matches_quiet env callback _ _ x Hq)].
      apply Forall_app. split; [done|]. apply Forall_singleton. intros [_ Hm]. apply Z.eqb_neq in Hcb. congruence. }
    exists r, s3. split; [done|]. destruct Hr as [(Hq3 & Ht3 & Hr & Hnone)|(Hr & Ho3 & Hs3 & vec' & Hto & Hc3)].
    + left. split_and!; [by eapply still_trans | congruence | done |].
      intros ->. rewrite Happ. eapply Forall_impl; [by apply Hnone|].
      intros x Hx Hmx. apply Hx. by apply (matches_quiet env callback _ _ x Hq).
    + right. split_and!; try done. exists vec'. rewrite Hc3, (q_callbacks _ _ Hq). split; [|done].
      destruct Hto as (b & l' & a & E & -> & Hm & Hnb). exists b, l', a. rewrite <- (q_callbacks _ _ Hq).
      split_and!; try done; [by rewrite (matches_quiet _ _ _ _ _ Hq)|].
      eapply Forall_impl; [exact Hnb|]. intros x Hx Hmx. apply Hx. by apply (matches_quiet env callback _ _ x Hq).
Qed.

(** An empty vector goes with its key. *)
Lemma drop_empty key s (m : bool) : owned (all_listeners (es_callbacks s)) s -> shape_but key s ->
  m = match es_callbacks s !! key with Some ls => is_nil ls | None => false end ->
  exists s', when m (set_callbacks (delete key)) s = (inr tt, s') /\ wf s' /\
    es_callbacks s' = (if m then delete key (es_callbacks s) else es_callbacks s).
Proof.
  intros Ho [H1 H2 H3 H4] ->. destruct (es_callbacks s !! key) as [[|x ls]|] eqn:E; mrun; cbn;
    (eexists; split; [reflexivity|]; split; [|done]).
  - assert (all_listeners (es_callbacks s) ≡ₚ all_listeners (delete key (es_callbacks s))) as Hp
      by by rewrite (all_listeners_lookup _ _ _ E) at 1.
    split; cbn; [rewrite Hp in Ho; by apply (owned_same _ s)|].
    constructor; cbn; rewrite <- ?Hp; try done.
    + intros k Hk. destruct (decide (k = key)) as [->|Hne]; [by rewrite lookup_delete_eq in Hk|].
      rewrite lookup_delete_ne in Hk by done. by apply (H2 k).
    + apply Forall_app. split; [done|]. apply Forall_singleton. eexists. cbn. rewrite <- Hp. done.
  - split; [done|]. constructor; try done. intros k. destruct (decide (k = key)) as [->|Hne]; [by rewrite E|auto].
  - split; [done|]. constructor; try done. intros k. destruct (decide (k = key)) as [->|Hne]; [by rewrite E|auto].
Qed.

Lemma keep_status {A} (a : A) s : wf s ->
  let r := (status_throws;; mret a) s in
  wf (snd r) /\ es_callbacks (snd r) = es_callbacks s /\ (forall x, fst r = inr x -> x = a).
Proof.
  intros Hw. cbn zeta. destruct (status_throws_run s) as (s1 & Hq & Ht & _ & [H|H]);
    [rewrite (bind_run _ _ _ _ _ H)|rewrite (bind_fail _ _ _ _ _ H)]; cbn;
    (split; [by eapply wf_after_status|]; split; [apply Hq|congruence]).
Qed.

(** Either the first matching listener is removed, or nothing is. *)
Lemma removeListener_run env key callback s : wf s ->
  let r := removeListener env key callback s in
  wf (snd r) /\
  (es_callbacks (snd r) = es_callbacks s /\ fst r <> inr true \/
   exists vec', takes_out env key callback s vec' /\ fst r <> inr false /\
     es_callbacks (snd r) = (if is_nil vec' then delete key (es_callbacks s) else <[key := vec']> (es_callbacks s))).
Proof.
  intros Hw. cbn zeta. unfold removeListener.
  destruct (status_throws_run s) as (s1 & Hq1 & Ht1 & _ & [H1|H1]); cycle 1.
  { rewrite (bind_fail _ _ _ _ _ H1). cbn. split; [by eapply wf_after_status|]. left. split; [apply Hq1|done]. }
  rewrite (bind_run _ _ _ _ _ H1). pose proof (wf_after_status _ _ Hq1 Ht1 Hw) as Hw1.
  destruct (napi_is_function callback); cbn [negb]; [|cbn; split; [done|]; left; split; [apply Hq1|done]].
  rewrite (bind_run (gets es_callbacks) _ s1 (es_callbacks s1) s1) by done.
  rewrite <- (q_callbacks _ _ Hq1). destruct (es_callbacks s1 !! key) as [ls|] eqn:E; cycle 1.
  { rewrite (bind_run (mret false) _ s1 false s1) by done.
    destruct (keep_status false s1 Hw1) as (W & C & V). split; [done|]. left. split; [done|].
    intros F. by apply V in F. }
  destruct (remove_first_run env key callback [] ls s1 Hw1 E ltac:(constructor)) as (r & s2 & H2 & Hr).
  assert (forall vec', takes_out env key callback s1 vec' -> takes_out env key callback s vec') as Hto'.
  { intros vec' (b & l & a & ? & -> & Hm & Hb). exists b, l, a. rewrite <- (q_callbacks _ _ Hq1).
    split_and!; try done; [by rewrite (matches_quiet _ _ _ _ _ Hq1)|].
    eapply Forall_impl; [exact Hb|]. intros x Hx Hmx. apply Hx. by apply (matches_quiet _ _ _ _ _ Hq1). }
  destruct Hr as [(Hq2 & Ht2 & Hr & _)|(-> & Ho2 & Hs2 & vec' & Hto & Hc2)].
  - pose proof (wf_after_status _ _ Hq2 Ht2 Hw1) as Hw2. destruct r as [e|[]]; [|done|]; cycle 1.
    { assert ((found ← remove_first env key callback [] ls; c ← gets es_callbacks;
               when match c !! key with Some ls => is_nil ls | None => false end (set_callbacks (delete key));;
               mret found) s1 = (inr false, s2)) as Hm.
      { rewrite (bind_run _ _ _ _ _ H2), (bind_run (gets es_callbacks) _ s2 _ s2) by done.
        rewrite (q_callbacks _ _ Hq2), E. destruct ls; [|done].
        destruct Hw1 as [_ Hs1]. by apply (sh_nonempty _ Hs1) in E. }
      rewrite (bind_run _ _ _ _ _ Hm). destruct (keep_status false s2 Hw2) as (W & C & V).
      split; [exact W|]. left. split; [by rewrite C, (q_callbacks _ _ Hq2)|]. intros F. by apply V in F. }
    unfold mbind, M_bind. rewrite H2. cbn. split; [done|]. left. split; [apply Hq2|done].
  - destruct (drop_empty key s2 _ Ho2 Hs2 eq_refl) as (s3 & H3 & Hw3 & Hc3).
    destruct (keep_status true s3 Hw3) as (W & C & V).
    assert ((found ← remove_first env key callback [] ls; c ← gets es_callbacks;
             when match c !! key with Some ls => is_nil ls | None => false end (set_callbacks (delete key));;
             mret found) s1 = (inr true, s3)) as Hm.
    { rewrite (bind_run _ _ _ _ _ H2), (bind_run (gets es_callbacks) _ s2 _ s2) by done.
      by rewrite (bind_run _ _ _ _ _ H3). }
    rewrite (bind_run _ _ _ _ _ Hm). split; [exact W|]. right. exists vec'. split; [by apply Hto'|].
    split; [intros F; by apply V in F|]. rewrite C, Hc3, Hc2, lookup_insert_eq.
    destruct vec'; cbn; [by rewrite delete_insert_eq|done].
Qed.

(** ** Releasing everything *)

Definition vector (c : listener_map) (key : string) : list ListenerCallback := default [] (c !! key).

Lemma all_by_keys c : all_listeners c ≡ₚ concat (vector c <$> map_keys c).
Proof.
  rewrite map_keys_perm. unfold all_listeners. rewrite <- list_fmap_compose.
  assert ((map_to_list c).*2 = (vector c ∘ fst) <$> map_to_list c) as ->; [|done].
  apply list_fmap_ext. intros i [k ls] H%list_elem_of_lookup_2. apply elem_of_map_to_list in H.
  unfold vector. cbn. by rewrite H.
Qed.

(** Half way through [releaseAll], with [keys] to go. *)
Record releasing (c : listener_map) (keys : list string) (s : ES) : Prop := {
  rl_owned : owned (concat (vector c <$> keys)) s;
  rl_todo : forall k, k ∈ keys -> es_callbacks s !! k = c !! k;
  rl_length : length (all_listeners (es_callbacks s)) = length (all_listeners c);
  rl_count : es_listenerCount s = u64 (Z.of_nat (length (all_listeners c)));
  rl_small : Z.of_nat (length (all_listeners c)) < es_next s;
  rl_visible : Forall (visible_ok (es_next s)) (es_visible s)
}.

Lemma release_keys_run c keys s : NoDup keys -> releasing c keys s ->
  exists s', release_keys keys s = (inr tt, s') /\ releasing c [] s'.
Proof.
  revert s. induction keys as [|key keys IH]; intros s Hnd Hr; [by exists s|].
  apply NoDup_cons in Hnd as [Hk Hnd]. destruct Hr as [H1 H2 H3 H4 H5 H6]. cbn [release_keys].
  rewrite (bind_run (gets es_callbacks) _ s _ s) by done.
  pose proof (H2 key ltac:(apply list_elem_of_here)) as Hc. rewrite Hc. cbn in H1.
  unfold vector at 1 in H1. destruct (c !! key) as [ls|] eqn:E; cbn in H1; cycle 1.
  { rewrite (bind_run (mret tt) _ s tt s) by done. apply IH; [done|]. constructor; try done. set_solver. }
  destruct (release_matching_run (fun _ => true) ls _ s H1) as (s1 & Hm & [Qc Qn Qv Qr Qt Qx] & Ho).
  rewrite (bind_run _ _ _ tt (snd (set_callbacks (<[key := torn_down <$> ls]>) s1))); cycle 1.
  { by rewrite (bind_run _ _ _ _ _ Hm). }
  assert (length (all_listeners (<[key := torn_down <$> ls]> (es_callbacks s))) = length (all_listeners c)) as Hlen.
  { rewrite length_all_insert, length_fmap, <- H3, <- (length_all_lookup _ _ _ Hc). done. }
  apply IH; [done|]. constructor; cbn; rewrite ?Qc, ?Qn, ?Qv; try done; [| |lia|].
  - apply (owned_same _ s1); try done. replace (filter _ ls) with (@nil ListenerCallback) in Ho; [done|].
    clear. induction ls as [|l ls IH]; [done|]. by rewrite filter_cons, decide_False.
  - intros k Hin. rewrite lookup_insert_ne by set_solver. apply H2. set_solver.
  - apply Forall_app. split.
    + eapply Forall_impl; [exact H6|]. intros v. by apply visible_ok_mono.
    + apply Forall_singleton. exists (length (all_listeners c)). cbn. rewrite Hlen. split_and!; [lia|lia|done].
Qed.

Lemma releaseAll_run s : wf s ->
  exists s', releaseAll s = (inr tt, s') /\ wf s' /\ es_callbacks s' = ∅.
Proof.
  intros [Ho Hs]. unfold releaseAll. rewrite (bind_run get _ s s s) by done.
  destruct (release_keys_run (es_callbacks s) (map_keys (es_callbacks s)) s (map_keys_nodup _)) as (s1 & H1 & [R1 _ R3 R4 R5 R6]).
  { constructor; try done; try apply Hs. by rewrite <- all_by_keys. }
  rewrite (bind_run _ _ _ _ _ H1). mrun. cbn. eexists. split; [reflexivity|]. split; [|done].
  split; cbn; [by apply (owned_same _ s1)|]. constructor; cbn; try done; [change (length _) with O; lia|].
  rewrite <- app_assoc. apply Forall_app. split; [done|]. rewrite R4. repeat constructor.
  - exists (length (all_listeners (es_callbacks s))). cbn. change (length (all_listeners ∅)) with O. split_and!; [lia|lia|done].
  - exists O. cbn. change (length (all_listeners ∅)) with O. split_and!; [lia|lia|done].
Qed.

(** ** Runs *)

Lemma by_owner_ok (p : ListenerCallback -> bool) :
  sweep_ok (fun l => lc_hasOwner l && p l)
           (fun l => lc_hasOwner l && bool_decide (lc_threadsafeCallback l = None)).
Proof.
  split; intros l H; [by rewrite bool_decide_false, andb_false_r|].
  apply andb_true_iff in H as [H _]. cbn. by rewrite H.
Qed.

Lemma by_env_ok env :
  sweep_ok (fun l => lc_env l =? env) (fun l => (lc_env l =? env) && bool_decide (lc_threadsafeCallback l = None)).
Proof. split; intros l H; [by rewrite bool_decide_false, andb_false_r|]. cbn. by rewrite H. Qed.

Lemma removeListenersByOwner_run owner s : wf s ->
  exists s', removeListenersByOwner owner s = (inr tt, s') /\ wf s' /\
    forall key, es_callbacks s' !! key
      = prune (fun l => lc_hasOwner l && (bool_decide (lc_owner l = Some owner) && owner_alive (lc_owner l) s
                                          || negb (owner_alive (lc_owner l) s))) (es_callbacks s !! key).
Proof.
  intros Hw. unfold removeListenersByOwner. rewrite (bind_run get _ s s s) by done.
  apply sweep_all; [|done]. apply (by_owner_ok (fun l => bool_decide (lc_owner l = Some owner) && owner_alive (lc_owner l) s
                                          || negb (owner_alive (lc_owner l) s))).
Qed.

Lemma removeListenersByEnv_run env s : wf s ->
  exists s', removeListenersByEnv env s = (inr tt, s') /\ wf s' /\
    forall key, es_callbacks s' !! key = prune (fun l => lc_env l =? env) (es_callbacks s !! key).
Proof.
  intros Hw. unfold removeListenersByEnv. rewrite (bind_run get _ s s s) by done.
  apply sweep_all; [apply by_env_ok|done].
Qed.

Lemma snd_ret {A B} (m : EM A) (b : B) s : snd ((_ ← m; mret b) s) = snd (m s).
Proof. unfold mbind, M_bind. by destruct (m s) as [[e|a] s1]. Qed.

Lemma exec_op_wf o s : wf s -> wf (snd (exec_op o s)).
Proof.
  intros Hw. destruct o; cbn [exec_op]; rewrite ?snd_ret.
  - by destruct (addListener_run env key callback owner s Hw) as (s0 & _ & _ & ? & _).
  - by apply notify_seen_wf.
  - apply neutral_wf; [|done]. unfold listeners, status_throws. neutral_tac.
  - by apply removeListener_run.
  - by destruct (removeListenersByOwner_run owner s Hw) as (s' & -> & ? & _).
  - by destruct (removeListenersByEnv_run env s Hw) as (s' & -> & ? & _).
  - by destruct (releaseAll_run s Hw) as (s' & -> & ? & _).
  - apply neutral_wf; [apply neutral_new|done].
  - apply neutral_wf; [apply neutral_owners|done].
  - apply neutral_wf; [apply neutral_owners|done].
  - by apply finalize_wf.
  - apply neutral_wf; [apply neutral_trampoline|done].
Qed.

Lemma run_ops_wf ops s : wf s -> wf (run_ops ops s).
Proof.
  unfold run_ops. revert s. induction ops as [|o ops IH]; intros s Hw; [done|]. cbn. by apply IH, exec_op_wf.
Qed.

(** ** Properties *)

(** The threadsafe functions of the listeners a state holds. *)
Definition held (s : ES) : gset Z := list_to_set (tsfns_of (all_listeners (es_callbacks s))).

(** C39: whatever sequence of registrations, emits, removals, owner deaths, environment
    teardowns and finalizations an emitter goes through, with any N-API call failing:
    every threadsafe function is released at most once and never called before its
    creation or after its release, and the ones created and not yet released are
    exactly those of the listeners in the map, so none leaks.  Every reference to a
    JavaScript function is created once, handed to a threadsafe function only while
    it exists, and deleted at most once; the references that still exist are exactly
    those that are the finalize data of one threadsafe function that Node-API has not
    finalized, which is the one owner of each, so none leaks and none dangles.  The
    count equals the number of listeners, no key has an empty vector, and every
    listener's reference still refers to its function.  Node-API is taken to finalize
    a threadsafe function once, after its release. *)
Theorem emitter_invariant ops :
  let s := run_ops ops es_init in
  (exists dead, tsfn_check (∅, ∅) (es_trace s) = Some (held s, dead)) /\
  NoDup (tsfns_of (all_listeners (es_callbacks s))) /\
  (exists dead, ref_check (∅, ∅) (es_trace s) = Some (dom (es_refs s), dead)) /\
  (forall r f, es_refs s !! r = Some f <-> exists t, es_tsfns s !! t = Some (f, r)) /\
  (forall t t' f f' r, es_tsfns s !! t = Some (f, r) -> es_tsfns s !! t' = Some (f', r) -> t = t') /\
  es_listenerCount s = u64 (Z.of_nat (length (all_listeners (es_callbacks s)))) /\
  (forall key, es_callbacks s !! key <> Some []) /\
  Forall (listener_ok s) (all_listeners (es_callbacks s)).
Proof.
  cbn zeta. destruct (run_ops_wf ops es_init wf_init) as [[H1 H2 (dead & H3 & _) _ _] [H5 H6 _ _]].
  destruct (run_ops_refs ops es_init refs_init) as [(rdead & R1 & _) _ _ R3 R4 R5].
  split_and!; try done; [by exists dead|by exists rdead|]. intros r f. split; [apply R4|]. intros [t Ht]. by eapply R3.
Qed.

(** The count that [notify] and [hasListeners] read without the mutex is never
    below the number of listeners in the map, in any state between two writes: a
    reader that sees zero, at any moment, drops its event when no listener is
    registered for any key. *)
Theorem fast_path_sound ops c n :
  let s := run_ops ops es_init in
  es_next s <= 2 ^ 64 -> (c, n) ∈ es_visible s ->
  Z.of_nat (length (all_listeners c)) <= n /\ (n = 0 -> all_listeners c = []).
Proof.
  cbn zeta. intros Hx Hin. destruct (run_ops_wf ops es_init wf_init) as [_ [_ _ _ Hv]].
  rewrite Forall_forall in Hv. destruct (Hv _ Hin) as (m & Hm & Hb & Hn). cbn in *.
  unfold u64 in Hn. rewrite Z.mod_small in Hn by lia. subst n. split; [lia|].
  intros H0. destruct (all_listeners c); [done|]. cbn in Hm. lia.
Qed.

(** [removeListenersByEnv], which a dying worker environment runs, leaves no
    listener of that environment under any key and every other listener where it
    was, in its order; so no later emit can call a function of that environment. *)
Theorem removeListenersByEnv_scrubs ops env :
  let s := run_ops ops es_init in
  exists s', removeListenersByEnv env s = (inr tt, s') /\
    (forall key, vector (es_callbacks s') key = filter (fun l => lc_env l <> env) (vector (es_callbacks s) key)) /\
    Forall (fun l => lc_env l <> env) (all_listeners (es_callbacks s')).
Proof.
  cbn zeta. set (s := run_ops ops es_init). pose proof (run_ops_wf ops es_init wf_init) as Hw. fold s in Hw.
  destruct (removeListenersByEnv_run env s Hw) as (s' & Hr & _ & Hc). exists s'. split; [done|].
  assert (forall key, vector (es_callbacks s') key = filter (fun l => lc_env l <> env) (vector (es_callbacks s) key)) as Hvec.
  { intros key. unfold vector. rewrite Hc. destruct (es_callbacks s !! key) as [ls|]; [|done]. cbn.
    rewrite (list_filter_iff (fun l => lc_env l <> env) (fun l => (lc_env l =? env) = false)); cycle 1.
    { intros l. by rewrite Z.eqb_neq. }
    by destruct (filter _ ls). }
  split; [exact Hvec|]. apply Forall_forall. intros l (key & ls & Hk & Hl)%elem_of_all.
  pose proof (Hvec key) as Hv. unfold vector in Hv. rewrite Hk in Hv. cbn in Hv. rewrite Hv in Hl.
  by apply list_elem_of_filter in Hl as [? _].
Qed.
End Proofs.

(** ** Witnesses *)

(** An environment whose calls succeed, and whose [JSON.parse] is the reference
    parser. *)
Definition napi_fine : Napi :=
  {| napi_ok := fun _ => true; napi_is_function := fun _ => true;
     JSON_parse := fun s => option_map (map JString) (parse_array s);
     JSON_stringify := fun _ => None |}.

(** Two listeners of [e], of different environments, and one of [f]. *)
Definition demo_ops : list emitter_op :=
  [OpOwnerBorn 9; OpAdd 1 "e" 10 (Some 9); OpAdd 2 "e" 11 None; OpAdd 1 "f" 12 None;
   OpNew (fromStrings [[Byte.x68; Byte.x69]])].

