(* ===== verification/EventDelivery.v ===== *)
(** * Delivering events

    What an emit hands to Node-API, and what the trampoline does with it: who owns
    the [ListenerData] and its copies, and which arguments the JavaScript function
    receives. *)

From S2P Require Import Prelude Encoding Json EventEmitter EventEmitterProofs.
From stdpp Require Import base tactics list gmap sets strings.
From coqutil Require Import Byte.
From Stdlib Require Import ZArith Lia.

Local Open Scope Z_scope.

(** What [JSON.parse] does on an array of strings: [napi_create_string_utf8] keeps
    valid UTF-8. *)
Class JsonLaws {NA : Napi} := {
  json_parse_strings s l : utf8_valid s = true -> parse_array s = Some l -> JSON_parse s = Some (JString <$> l)
}.

#[export] Instance napi_fine_laws : @JsonLaws napi_fine.
Proof. constructor. intros s l _ H. cbn. by rewrite H. Qed.

Section Delivery.
Context {NA : Napi} {HO : HashOrder}.

(** ** Addresses *)

(** No [ListenerData] lives at an address that was never handed out. *)
Definition heap_fresh (s : ES) : Prop := forall d, is_Some (es_heap s !! d) -> d < es_next s.

Abbreviation fresh_step m := (keeps heap_fresh m (fun _ => True)).

Lemma fresh_modify f : (forall s, es_heap (f s) = es_heap s) -> (forall s, es_next (f s) = es_next s) -> fresh_step (modify f).
Proof. intros H1 H2. apply keeps_modify. intros s Hf d. rewrite H1, H2. apply Hf. Qed.

Lemma fresh_heap f : (forall h d, is_Some (f h !! d) -> is_Some (h !! d)) -> fresh_step (set_heap f).
Proof. intros H. apply keeps_modify. intros s Hf d Hd. by apply Hf, (H _ d). Qed.

Lemma fresh_throw {A} e : keeps heap_fresh (throw e : EM A) (fun _ => True).
Proof. intros s Hf. done. Qed.

Lemma fresh_status : fresh_step napi_status.
Proof. intros s Hf. done. Qed.

Lemma fresh_unused : fresh_step unused.
Proof. intros s Hf. split; [|done]. intros d Hd. apply Hf in Hd. cbn. lia. Qed.

Lemma fresh_get : fresh_step (get : EM ES).
Proof. intros s Hf. done. Qed.

Lemma fresh_new args : fresh_step (new_listener_data args).
Proof.
  intros s Hf. unfold new_listener_data. mrun. cbn. split; [|done]. intros d [x H]. cbn in *.
  apply lookup_insert_Some in H as [[<- _]|[_ H]]; [lia|].
  assert (d < es_next s) by by apply Hf. lia.
Qed.

Lemma fresh_delete d : fresh_step (delete_data d).
Proof.
  unfold delete_data. eapply keeps_bind; [by apply (keeps_gets _ _ (fun _ => True))|]. intros h _.
  destruct (h !! d); [|apply fresh_throw]. apply fresh_heap.
  intros h' d' [x [_ H]%lookup_delete_Some]. by exists x.
Qed.

Ltac fresh_step_tac :=
  match goal with
  | |- keeps _ (_ ≫= _) _ => apply (keeps_bind heap_fresh _ _ (fun _ => True)); [|intros ? _]
  | |- keeps _ (mret _) _ => by apply keeps_ret
  | |- keeps _ (gets _) _ => by apply keeps_gets
  | |- keeps _ (when _ _) _ => apply keeps_when
  | |- keeps _ (throw _) _ => apply fresh_throw
  | |- keeps _ get _ => apply fresh_get
  | |- keeps _ napi_status _ => apply fresh_status
  | |- keeps _ unused _ => apply fresh_unused
  | |- keeps _ (new_listener_data _) _ => apply fresh_new
  | |- keeps _ (delete_data _) _ => apply fresh_delete
  | |- keeps _ (set_callbacks _) _ => by apply fresh_modify
  | |- keeps _ (set_count _) _ => by apply fresh_modify
  | |- keeps _ (set_refs _) _ => by apply fresh_modify
  | |- keeps _ (set_tsfns _) _ => by apply fresh_modify
  | |- keeps _ (set_queue _) _ => by apply fresh_modify
  | |- keeps _ (set_owners _) _ => by apply fresh_modify
  | |- keeps _ (record _) _ => by apply fresh_modify
  | |- keeps _ (match ?x with _ => _ end) _ => destruct x
  end.
Ltac fresh_tac := repeat (cbv zeta; fresh_step_tac).

Lemma fresh_delete_if data : fresh_step (delete_if data).
Proof. unfold delete_if. fresh_tac. Qed.

Lemma fresh_release l : fresh_step (releaseListenerResources l).
Proof. unfold releaseListenerResources. fresh_tac. Qed.

Lemma fresh_add env key callback owner : fresh_step (addListener env key callback owner).
Proof. unfold addListener, status_throws, publish, releaseListenerResources. fresh_tac. Qed.

Lemma fresh_call_listeners ls data : fresh_step (call_listeners ls data).
Proof.
  induction ls as [|l ls IH]; [by apply keeps_ret|]. cbn [call_listeners].
  repeat (cbv zeta; first [apply IH | apply fresh_delete_if | fresh_step_tac]).
Qed.

Lemma fresh_notify seen key data : fresh_step (notify_seen seen key data).
Proof. unfold notify_seen. repeat (cbv zeta; first [apply fresh_call_listeners | apply fresh_delete_if | fresh_step_tac]). Qed.

Lemma fresh_remove_first env key callback before ls : fresh_step (remove_first env key callback before ls).
Proof.
  revert before. induction ls as [|l ls IH]; intros before; [by apply keeps_ret|]. cbn [remove_first]. unfold status_throws.
  repeat (cbv zeta; first [apply IH | apply fresh_release | fresh_step_tac]).
Qed.

Lemma fresh_remove env key callback : fresh_step (removeListener env key callback).
Proof. unfold removeListener, status_throws. repeat (cbv zeta; first [apply fresh_remove_first | fresh_step_tac]). Qed.

Lemma fresh_release_matching should ls : fresh_step (release_matching should ls).
Proof.
  induction ls as [|l ls IH]; [by apply keeps_ret|]. cbn [release_matching].
  repeat (cbv zeta; first [apply IH | apply fresh_release | fresh_step_tac]).
Qed.

Lemma fresh_sweep should gone keys : fresh_step (sweep should gone keys).
Proof.
  induction keys as [|key keys IH]; [by apply keeps_ret|]. cbn [sweep]. unfold sweep_key.
  repeat (cbv zeta; first [apply IH | apply fresh_release_matching | fresh_step_tac]).
Qed.

Lemma fresh_release_keys keys : fresh_step (release_keys keys).
Proof.
  induction keys as [|key keys IH]; [by apply keeps_ret|]. cbn [release_keys].
  repeat (cbv zeta; first [apply IH | apply fresh_release_matching | fresh_step_tac]).
Qed.

Lemma fresh_free (b : bool) data argv k : fresh_step k -> fresh_step (status_throws_free b data argv k).
Proof. intros Hk. unfold status_throws_free. repeat (first [apply Hk | apply fresh_delete_if | fresh_step_tac]). Qed.

Lemma fresh_elements n data argv k : fresh_step k -> fresh_step (get_elements n data argv k).
Proof.
  intros Hk. induction n as [|n IH]; [done|]. cbn [get_elements].
  apply (keeps_bind heap_fresh _ _ (fun _ => True)); [apply fresh_status|intros b _]. by apply fresh_free.
Qed.

Lemma fresh_call_back fn args argv : fresh_step (call_back fn args argv).
Proof. unfold call_back. repeat (first [apply fresh_delete_if | fresh_step_tac]). Qed.

Lemma fresh_trampoline env fn data : fresh_step (callListenerCallback env fn data).
Proof.
  unfold callListenerCallback.
  repeat (cbv zeta; first [apply fresh_free | apply fresh_elements | apply fresh_call_back | fresh_step_tac]).
Qed.

Lemma fresh_exec o : fresh_step (exec_op o).
Proof.
  destruct o; cbn [exec_op]; unfold removeListenersByOwner, removeListenersByEnv, releaseAll, finalize,
    finalizeListenerCallback, listeners, status_throws;
    repeat (cbv zeta; first [apply fresh_add | apply fresh_notify | apply fresh_remove | apply fresh_sweep
      | apply fresh_release_keys | apply fresh_trampoline | fresh_step_tac]).
Qed.

Lemma run_ops_fresh ops s : heap_fresh s -> heap_fresh (run_ops ops s).
Proof.
  unfold run_ops. revert s. induction ops as [|o ops IH]; intros s Hs; [done|]. cbn. by apply IH, fresh_exec.
Qed.

Lemma init_fresh : heap_fresh es_init.
Proof. intros d [x H]. cbn in H. by rewrite lookup_empty in H. Qed.

(** ** Emitting *)

(** The functions whose calls, made from the [n]-th on, are accepted. *)
Fixpoint accepted_from (n : nat) (ts : list Z) : list Z :=
  match ts with
  | [] => []
  | t :: ts => (if napi_ok n then [t] else []) ++ accepted_from (S n) ts
  end.

(** [new] was queued between [s] and [s']: each entry with a copy of [args] of its
    own, at an address nothing had. *)
Record handed_over (args : bytes) (new : list (Z * option Z)) (s s' : ES) : Prop := {
  ho_queue : es_queue s' = es_queue s ++ new;
  ho_nodup : NoDup new.*2;
  ho_copy : forall c, c ∈ new.*2 -> exists a, c = Some a /\ es_next s <= a < es_next s';
  ho_heap : forall x, es_heap s' !! x = if bool_decide (Some x ∈ new.*2) then Some args else es_heap s !! x
}.

Lemma call_listeners_run ls d args s : es_heap s !! d = Some args -> heap_fresh s ->
  exists s' new, call_listeners ls (Some d) s = (inr tt, s') /\ handed_over args new s s' /\
    new.*1 = accepted_from (es_calls s) (omap lc_threadsafeCallback ls) /\ es_next s <= es_next s' /\
    es_callbacks s' = es_callbacks s.
Proof.
  revert s. induction ls as [|l ls IH]; intros s Hd Hf.
  { exists s, []. split; [done|]. split; [|by split]. constructor; try done; try constructor.
    - by rewrite app_nil_r. - intros c Hc. by apply not_elem_of_nil in Hc. }
  cbn [call_listeners omap list_omap]. destruct (lc_threadsafeCallback l) as [t|]; [|by apply IH].
  assert (d < es_next s) as Hlt by by apply Hf.
  assert (es_heap s !! es_next s = None) as Hnone.
  { apply eq_None_not_Some. intros H. apply Hf in H. lia. }
  cbn [accepted_from]. unfold new_listener_data, delete_if, delete_data. mrun. rewrite Hd. cbn.
  destruct (napi_ok (es_calls s)) eqn:Hok; cbn.
  - match goal with |- context [call_listeners ls (Some d) ?x] => set (s1 := x) end.
    destruct (IH s1) as (s' & new & Hr & [Q N C H] & Hts & Hx & Hcb).
    { cbn. by rewrite lookup_insert_ne by lia. }
    { intros x [y Hy]. cbn in *. apply lookup_insert_Some in Hy as [[<- _]|[_ Hy]]; [lia|].
      assert (x < es_next s) by by apply Hf. lia. }
    exists s', ((t, Some (es_next s)) :: new). cbn in *.
    assert (Some (es_next s) ∉ new.*2) as Hni.
    { intros Hin. destruct (C _ Hin) as (a & [= <-] & ?). lia. }
    split_and!; [done| |by rewrite Hts|lia|done]. constructor; cbn.
    + by rewrite Q, <- app_assoc.
    + apply NoDup_cons. done.
    + intros c [->|Hc]%elem_of_cons; [exists (es_next s); split; [done|lia]|].
      destruct (C c Hc) as (a & -> & ?). exists a. split; [done|lia].
    + intros x. rewrite H. destruct (decide (x = es_next s)) as [->|Hne].
      * rewrite bool_decide_false, bool_decide_true by (done || apply list_elem_of_here). by rewrite lookup_insert_eq.
      * rewrite lookup_insert_ne by done.
        by rewrite (bool_decide_ext (Some x ∈ Some (es_next s) :: new.*2) (Some x ∈ new.*2)) by set_solver.
  - rewrite lookup_insert_eq. cbn. match goal with |- context [call_listeners ls (Some d) ?x] => set (s1 := x) end.
    assert (es_heap s1 = es_heap s) as Hh by by cbn; rewrite delete_insert_id.
    destruct (IH s1) as (s' & new & Hr & [Q N C H] & Hts & Hx & Hcb).
    { by rewrite Hh. } { intros x. rewrite Hh. intros Hy. apply Hf in Hy. cbn. lia. }
    exists s', new. cbn in *. split_and!; [done| |by rewrite Hts|lia|done]. constructor; try done.
    + intros c Hc. destruct (C c Hc) as (a & -> & ?). exists a. split; [done|lia].
    + intros x. by rewrite H, delete_insert_id.
Qed.

(** An emit calls the threadsafe functions of exactly the listeners of its key, in
    the order they were registered, and returns whether the key had any.  Each call
    that Node-API accepts owns a copy of the payload of its own; the copies of
    refused calls and the payload itself are freed, once, and nothing else on the
    heap changes. *)
Theorem notify_delivers ops key d args :
  let s := run_ops ops es_init in
  es_next s <= 2 ^ 64 -> es_heap s !! d = Some args ->
  exists s' new, notify key (Some d) s = (inr (bool_decide (is_Some (es_callbacks s !! key))), s') /\
    es_queue s' = es_queue s ++ new /\
    new.*1 = accepted_from (es_calls s) (omap lc_threadsafeCallback (vector (es_callbacks s) key)) /\
    NoDup new.*2 /\
    (forall x, es_heap s' !! x = if bool_decide (Some x ∈ new.*2) then Some args
                                 else if bool_decide (x = d) then None else es_heap s !! x) /\
    Forall (fun c => exists a, c = Some a /\ es_heap s !! a = None) new.*2.
Proof.
  cbn zeta. set (s := run_ops ops es_init). intros Hx Hd.
  destruct (run_ops_wf ops es_init wf_init) as [Ho Hs]. fold s in Ho, Hs.
  pose proof (run_ops_fresh ops es_init init_fresh) as Hf. fold s in Hf.
  pose proof (sh_count _ Hs) as Hcnt. unfold u64 in Hcnt.
  rewrite Z.mod_small in Hcnt by (pose proof (sh_small _ Hs); lia).
  assert (forall s1, es_heap s1 !! d = Some args ->
    delete_data d s1 = (inr tt, snd (set_heap (delete d) s1))) as Hdel.
  { intros s1 H1. unfold delete_data. rewrite (bind_run (gets es_heap) _ s1 _ s1) by done. by rewrite H1. }
  unfold notify. rewrite (bind_run (gets es_listenerCount) _ s _ s) by done. unfold notify_seen.
  destruct (es_callbacks s !! key) as [ls|] eqn:E; cycle 1.
  { exists (snd (set_heap (delete d) s)), []. unfold vector. rewrite E. cbn [delete_if default omap list_omap accepted_from].
    split.
    - destruct (es_listenerCount s =? 0); [by rewrite (bind_run _ _ _ _ _ (Hdel s Hd))|].
      rewrite (bind_run (gets es_callbacks) _ s _ s) by done. rewrite E.
      rewrite (bind_run (mret false) _ s false s) by done. by rewrite (bind_run _ _ _ _ _ (Hdel s Hd)).
    - split_and!; [cbn; by rewrite app_nil_r | done | apply NoDup_nil_2 | | by apply Forall_nil_2]. intros x. cbn.
      rewrite bool_decide_false by apply not_elem_of_nil. case_bool_decide as Hxd;
        [by subst; rewrite lookup_delete_eq | by rewrite lookup_delete_ne]. }
  assert (es_listenerCount s =? 0 = false) as ->.
  { apply Z.eqb_neq. rewrite Hcnt, (length_all_lookup _ _ _ E).
    destruct ls; [by apply (sh_nonempty _ Hs) in E|]. cbn. lia. }
  rewrite (bind_run (gets es_callbacks) _ s _ s) by done. rewrite E.
  destruct (call_listeners_run ls d args s Hd Hf) as (s1 & new & Hr & [Q N C H] & Hts & _ & _).
  assert (d < es_next s) as Hlt by by apply Hf.
  assert (Some d ∉ new.*2) as Hni by (intros Hin; destruct (C _ Hin) as (a & [= <-] & ?); lia).
  assert (es_heap s1 !! d = Some args) as Hd1 by by rewrite H, bool_decide_false.
  rewrite (bind_run (call_listeners ls (Some d);; mret true) _ s true s1) by by rewrite (bind_run _ _ _ _ _ Hr).
  cbn [delete_if]. rewrite (bind_run _ _ _ _ _ (Hdel s1 Hd1)).
  exists (snd (set_heap (delete d) s1)), new. unfold vector. rewrite E. split_and!; try done.
  - intros x. cbn. destruct (decide (x = d)) as [->|Hne].
    + by rewrite lookup_delete_eq, bool_decide_false, bool_decide_true.
    + by rewrite lookup_delete_ne, H, (bool_decide_false (x = d)).
  - apply Forall_forall. intros c Hc. destruct (C c Hc) as (a & -> & ?). exists a. split; [done|].
    apply eq_None_not_Some. intros Ha. apply Hf in Ha. lia.
Qed.

(** ** The trampoline *)

Definition at_heap (h : gmap Z bytes) (n : Z) (s : ES) : Prop := es_heap s = h /\ es_next s = n.

(** From the heap [h], [m] ends with the heap [h'] and deletes nothing twice. *)
Definition settles (h : gmap Z bytes) (n : Z) (h' : gmap Z bytes) (m : EM unit) : Prop := forall s,
  at_heap h n s -> es_heap (snd (m s)) = h' /\ (forall msg, fst (m s) <> inl (OutOfRange msg)).

Lemma settles_status h n h' (k : bool -> EM unit) :
  (forall b, settles h n h' (k b)) -> settles h n h' (b ← napi_status; k b).
Proof. intros Hk s Hs. rewrite (bind_run napi_status _ s (napi_ok (es_calls s)) (snd (napi_status s))) by done. by apply Hk. Qed.

Lemma settles_throw h n msg : settles h n h (throw (DBException msg)).
Proof. intros s [Hs _]. done. Qed.

Lemma settles_delete h n h' d (k : unit -> EM unit) : is_Some (h !! d) ->
  settles (delete d h) n h' (k tt) -> settles h n h' (x ← delete_data d; k x).
Proof.
  intros [x Hx] Hk s [<- <-].
  assert (delete_data d s = (inr tt, snd (set_heap (delete d) s))) as Hd.
  { unfold delete_data. rewrite (bind_run (gets es_heap) _ s _ s) by done. by rewrite Hx. }
  rewrite (bind_run _ _ _ _ _ Hd). by apply Hk.
Qed.

Definition without (o : option Z) (h : gmap Z bytes) : gmap Z bytes :=
  match o with Some a => delete a h | None => h end.
Definition present (o : option Z) (h : gmap Z bytes) : Prop :=
  match o with Some a => is_Some (h !! a) | None => True end.

Lemma settles_delete_if h n h' o (k : unit -> EM unit) : present o h ->
  settles (without o h) n h' (k tt) -> settles h n h' (x ← delete_if o; k x).
Proof. destruct o as [a|]; cbn; [apply settles_delete|]. intros _ Hk s Hs. by apply Hk. Qed.

Lemma settles_free h n d argv (b : bool) k :
  is_Some (h !! d) -> present argv (delete d h) ->
  settles h n (without argv (delete d h)) k ->
  settles h n (without argv (delete d h)) (status_throws_free b (Some d) argv k).
Proof.
  intros Hd Ha Hk. unfold status_throws_free. destruct b; [done|].
  apply (settles_delete_if _ _ _ (Some d)); [done|]. apply settles_delete_if; [done|]. apply settles_throw.
Qed.

Lemma settles_elements h n d argv m k :
  is_Some (h !! d) -> present argv (delete d h) ->
  settles h n (without argv (delete d h)) k ->
  settles h n (without argv (delete d h)) (get_elements m (Some d) argv k).
Proof.
  intros Hd Ha Hk. induction m as [|m IH]; [done|]. cbn [get_elements]. apply settles_status. intros b. by apply settles_free.
Qed.

Lemma settles_call_back h n fn vals argv : present argv h -> settles h n (without argv h) (call_back fn vals argv).
Proof.
  intros Ha. unfold call_back. apply settles_status. intros b.
  assert (settles h n (without argv h) (delete_if argv;; if b then mret tt else throw (DBException "callListenerCallback"))) as Hk.
  { apply settles_delete_if; [done|]. destruct b; [by intros s [Hs _]|apply settles_throw]. }
  intros s Hs. rewrite (bind_run (record _) _ s tt (snd (record (CallFunction fn vals) s))) by done. by apply Hk.
Qed.

(** While its environment lives, the trampoline frees the payload it was handed
    exactly once, on every path: a failing N-API call at any point, a text that does
    not parse, no arguments, and a listener that throws; its argument array goes
    with it, and the rest of the heap is untouched. *)
Theorem callListenerCallback_frees ops env fn d args :
  let s := run_ops ops es_init in
  es_heap s !! d = Some args ->
  let r := callListenerCallback (Some env) (Some fn) (Some d) s in
  es_heap (snd r) = delete d (es_heap s) /\ (forall msg, fst r <> inl (OutOfRange msg)).
Proof.
  cbn zeta. set (s := run_ops ops es_init). intros Hd.
  pose proof (run_ops_fresh ops es_init init_fresh) as Hf. fold s in Hf.
  assert (d < es_next s) as Hlt by by apply Hf.
  assert (es_heap s !! es_next s = None) as Hnone.
  { apply eq_None_not_Some. intros H. apply Hf in H. lia. }
  set (h := es_heap s) in *. set (n := es_next s) in *.
  assert (is_Some (h !! d)) as Hsome by by exists args.
  cut (settles h n (delete d h) (callListenerCallback (Some env) (Some fn) (Some d))); [intros H; by apply H|].
  unfold callListenerCallback.
  assert (forall (b : bool) k, settles h n (delete d h) k -> settles h n (delete d h) (status_throws_free b (Some d) None k)) as Hfree.
  { intros b k Hk. by apply (settles_free h n d None). }
  apply settles_status. intros b. apply Hfree.
  intros s1 [Hs1 Hn1]. rewrite (bind_run (gets es_heap) _ s1 _ s1) by done. rewrite Hs1, Hd.
  revert s1 Hs1 Hn1. cut (settles h n (delete d h)
    match args with
    | [] => delete_data d;; call_back fn [] None
    | _ :: _ =>
        b ← napi_status; status_throws_free b (Some d) None (
        b ← napi_status; status_throws_free b (Some d) None (
        b ← napi_status; status_throws_free b (Some d) None (
        b ← napi_status;
        match JSON_parse args with
        | None => status_throws_free false (Some d) None (mret tt)
        | Some vals => status_throws_free b (Some d) None (
            b ← napi_status; status_throws_free b (Some d) None (
            argv ← new_listener_data [];
            get_elements (length vals) (Some d) (Some argv) (
            delete_data d;; call_back fn vals (Some argv))))
        end)))
    end). { intros H s1 Hs1 Hn1. specialize (H s1 (conj Hs1 Hn1)). by destruct args. }
  destruct args as [|x args]; [apply settles_delete; [done|]; by apply (settles_call_back _ _ _ _ None)|].
  do 3 (apply settles_status; intros ?; apply Hfree). apply settles_status. intros b4.
  destruct (JSON_parse _) as [vals|]; [|apply settles_delete; [done|]; apply settles_throw].
  apply Hfree, settles_status. intros b5. apply Hfree.
  intros s1 [Hs1 Hn1].
  rewrite (bind_run (new_listener_data []) _ s1 n (snd (new_listener_data [] s1))) by (unfold new_listener_data; mrun; cbn; by rewrite Hn1).
  assert (delete n (delete d (<[n := []]> h)) = delete d h) as Hh.
  { rewrite delete_delete, delete_insert_id; [done|]. done. }
  rewrite <- Hh. apply (settles_elements (<[n := []]> h) (n + 1) d (Some n)).
  - rewrite lookup_insert_ne by lia. done.
  - cbn. rewrite lookup_delete_ne, lookup_insert_eq by lia. done.
  - apply settles_delete; [rewrite lookup_insert_ne by lia; done|]. cbn.
    apply (settles_call_back _ _ _ _ (Some n)). cbn. rewrite lookup_delete_ne, lookup_insert_eq by lia. done.
  - unfold new_listener_data. mrun. cbn. by rewrite Hs1, Hn1.
Qed.

(** During teardown Node-API runs the trampoline with a null [env] so that it can free
    its data; this one returns at once, and the payload is lost. *)
Lemma trampoline_leaks fn d s : callListenerCallback None fn (Some d) s = (inr tt, s).
Proof. done. Qed.
(** ** Native payloads *)

Lemma utf8_step_start st b st' : utf8_step st b = Some st' -> u_due st' = O -> st' = u_start.
Proof. unfold utf8_step. intros H. repeat case_match; simplify_eq; cbn; intros; subst; done. Qed.

Lemma utf8_valid_run s : utf8_valid s = true -> utf8_run u_start s = Some u_start.
Proof.
  assert (forall st st', utf8_run st s = Some st' -> (u_due st = O -> st = u_start) -> u_due st' = O -> st' = u_start) as H.
  { induction s as [|b s IH]; intros st st' Hr Hst Hd; cbn in Hr; [simplify_eq; auto|].
    destruct (utf8_step st b) as [st1|] eqn:E; [|done]. eapply IH; [done| |done]. by apply (utf8_step_start _ _ _ E). }
  unfold utf8_valid. destruct (utf8_run u_start s) as [[[|n] lo hi]|] eqn:E; try done. intros _. f_equal. by apply (H _ _ E).
Qed.

Lemma utf8_run_json s : utf8_valid s = true -> utf8_run u_start (jsonString s) = Some u_start.
Proof.
  intros H. unfold jsonString. rewrite appendJsonString_app. cbn [app utf8_run].
  change (utf8_step u_start (ch 0x22)) with (Some u_start). cbn [mbind option_bind].
  rewrite utf8_escaped by (unfold u_ok; cbn; lia). rewrite utf8_run_app, (utf8_valid_run _ H). done.
Qed.

Lemma fromStrings_valid args : Forall (fun a => utf8_valid a = true) args -> utf8_valid (fromStrings args) = true.
Proof.
  assert (forall l, Forall (fun a => utf8_valid a = true) l -> utf8_run u_start (more l) = Some u_start) as Hmore.
  { induction 1 as [|x l Hx _ IH]; [done|]. unfold more in *. rewrite bind_cons. cbn [app utf8_run].
    change (utf8_step u_start (ch 0x2C)) with (Some u_start). cbn [mbind option_bind].
    by rewrite utf8_run_app, (utf8_run_json _ Hx). }
  intros H. destruct H as [|x l Hx Hl]; [done|]. rewrite fromStrings_cons. unfold utf8_valid. cbn [utf8_run].
  change (utf8_step u_start (ch 0x5B)) with (Some u_start). cbn [mbind option_bind].
  by rewrite !utf8_run_app, (utf8_run_json _ Hx); cbn; rewrite utf8_run_app, (Hmore _ Hl).
Qed.

Lemma get_elements_ok m data argv k s : (forall n, napi_ok n = true) ->
  exists s', get_elements m data argv k s = k s' /\ es_heap s' = es_heap s /\ es_trace s' = es_trace s.
Proof.
  intros Hok. revert s. induction m as [|m IH]; intros s; [by exists s|]. cbn [get_elements].
  rewrite (bind_run napi_status _ s true (snd (napi_status s))) by (unfold napi_status; by rewrite Hok).
  apply (IH (snd (napi_status s))).
Qed.

Context {JL : JsonLaws}.

(** A native call site that emits strings of valid UTF-8 reaches its listener with
    exactly those strings as arguments: the payload [fromStrings] builds, read back
    by the trampoline through [JSON.parse], calls the JavaScript function once, and
    the payload is freed. *)
Theorem strings_arrive args env fn d s :
  (forall n, napi_ok n = true) -> Forall (fun a => utf8_valid a = true) args ->
  es_heap s !! d = Some (fromStrings args) -> heap_fresh s ->
  exists s', callListenerCallback (Some env) (Some fn) (Some d) s = (inr tt, s') /\
    es_trace s' = es_trace s ++ [CallFunction fn (JString <$> args)] /\ es_heap s' !! d = None.
Proof.
  intros Hok Hutf Hd Hf.
  assert (forall B (k : bool -> EM B) s1, (b ← napi_status; k b) s1 = k true (snd (napi_status s1))) as Hst.
  { intros B k s1. rewrite (bind_run napi_status _ s1 true (snd (napi_status s1))); [done|]. unfold napi_status. by rewrite Hok. }
  assert (d < es_next s) as Hlt by by apply Hf.
  assert (exists x t, fromStrings args = x :: t) as (x & t & Hne).
  { destruct args as [|a l]; [by exists (ch 0x5B), [ch 0x5D]|]. rewrite fromStrings_cons. eauto. }
  unfold callListenerCallback. rewrite Hst. cbn [status_throws_free].
  match goal with |- context [(h ← gets es_heap; _) ?s1] => rewrite (bind_run (gets es_heap) _ s1 (es_heap s) s1) by done end.
  rewrite Hd, Hne. do 4 (rewrite Hst; cbn [status_throws_free]). rewrite <- Hne.
  rewrite (json_parse_strings _ args (fromStrings_valid _ Hutf) (fromStrings_roundtrip args)).
  cbn [status_throws_free]. rewrite Hst. cbn [status_throws_free].
  match goal with |- context [(a ← new_listener_data []; _) ?s1] =>
    rewrite (bind_run (new_listener_data []) _ s1 (es_next s) (snd (new_listener_data [] s1))) by done end.
  match goal with |- context [get_elements ?m ?dd ?aa ?k ?s1] =>
    destruct (get_elements_ok m dd aa k s1 Hok) as (s2 & -> & Hh & Htr) end.
  change (es_heap s2 = <[es_next s := []]> (es_heap s)) in Hh. change (es_trace s2 = es_trace s) in Htr.
  unfold call_back, delete_if, delete_data. mrun. rewrite Hh.
  rewrite lookup_insert_ne, Hd by lia. cbn. rewrite Hok, Hh.
  rewrite lookup_delete_ne, lookup_insert_eq by lia. cbn. eexists. split; [reflexivity|]. cbn. rewrite Htr. split; [done|].
  rewrite lookup_delete_ne, lookup_delete_eq by lia. done.
Qed.
End Delivery.


