(* ===== verification/Iterator.v ===== *)
(** * Iterators

    [iterator/db_iterator_handle.cpp] and [iterator/db_iterator.cpp], and the counting
    loops over a handle ([Database::GetCount], [TransactionHandle::getCount]).

    The RocksDB iterator is a parameter: class [RocksIter] has its methods and
    [RocksIterLaws] what its documentation says of them: an iterator holds the
    entries of a snapshot between its bounds, in bytewise order, and a position.
    The buffers that JavaScript shares with a handle are [Shared]; reading a key
    outside its buffer is [OutOfRange]. *)

From S2P Require Import Prelude Encoding.
From stdpp Require Import base tactics list strings.
From coqutil Require Import Byte.
From Stdlib Require Import ZArith Lia Sorted.

Local Open Scope Z_scope.

(** ** Slices *)

(** [Slice::compare]: [memcmp], then the lengths. *)
Fixpoint slice_compare (a b : bytes) : comparison :=
  match a, b with
  | [], [] => Eq
  | [], _ :: _ => Lt
  | _ :: _, [] => Gt
  | x :: a, y :: b =>
      match byte.unsigned x ?= byte.unsigned y with
      | Eq => slice_compare a b
      | c => c
      end
  end.

Definition slice_ltb (a b : bytes) : bool := match slice_compare a b with Lt => true | _ => false end.
Definition slice_eqb (a b : bytes) : bool := match slice_compare a b with Eq => true | _ => false end.
Definition slice_leb (a b : bytes) : bool := negb (slice_ltb b a).

(** ** The RocksDB iterator *)

Abbreviation entry := (bytes * bytes)%type.

Class RocksIter := {
  It : Type;
  it_new : list entry -> option bytes -> option bytes -> It;   (* NewIterator with lower and upper bound *)
  it_valid : It -> bool;
  it_key : It -> bytes;
  it_value : It -> bytes;
  it_SeekToFirst : It -> It;
  it_SeekToLast : It -> It;
  it_Next : It -> It;
  it_Prev : It -> It
}.

Definition in_bounds (lower upper : option bytes) (e : entry) : bool :=
  match lower with Some lo => slice_leb lo (fst e) | None => true end &&
  match upper with Some up => slice_ltb (fst e) up | None => true end.

Class RocksIterLaws {RI : RocksIter} := {
  it_items : It -> list entry;
  it_pos : It -> option nat;
  law_new db lo up : it_items (it_new db lo up) = filter (fun e => in_bounds lo up e = true) db;
  law_items it : it_items (it_SeekToFirst it) = it_items it /\ it_items (it_SeekToLast it) = it_items it /\
                 it_items (it_Next it) = it_items it /\ it_items (it_Prev it) = it_items it;
  law_valid it : it_valid it = match it_pos it with Some _ => true | None => false end;
  law_pos it i : it_pos it = Some i -> it_items it !! i = Some (it_key it, it_value it);
  law_first it : it_pos (it_SeekToFirst it) = (match it_items it with [] => None | _ :: _ => Some O end);
  law_last it : it_pos (it_SeekToLast it) = (match length (it_items it) with O => None | S n => Some n end);
  law_next it i : it_pos it = Some i ->
    it_pos (it_Next it) = if (S i <? length (it_items it))%nat then Some (S i) else None;
  law_prev it i : it_pos it = Some i -> it_pos (it_Prev it) = (match i with O => None | S i => Some i end)
}.

(** ** Options *)

Definition ITERATOR_REVERSE_FLAG : Z := 0x01.
Definition ITERATOR_INCLUSIVE_END_FLAG : Z := 0x02.
Definition ITERATOR_EXCLUSIVE_START_FLAG : Z := 0x04.
Definition ITERATOR_INCLUDE_VALUES_FLAG : Z := 0x08.
Definition ITERATOR_NEEDS_STABLE_VALUE_BUFFER_FLAG : Z := 0x10.
Definition ITERATOR_CONTEXT_IS_TRANSACTION_FLAG : Z := 0x20.

(** A key in a buffer: the buffer, and where the key starts and ends. *)
Record KeyRef := mkKeyRef { kr_buffer : bytes; kr_start : Z; kr_end : Z }.

Record DBIteratorOptions := mkItOptions {
  io_start : option KeyRef;
  io_end : option KeyRef;
  io_inclusiveEnd : bool;
  io_exclusiveStart : bool;
  io_reverse : bool;
  io_values : bool;
  io_needsStableValueBuffer : bool
}.

Definition DBIteratorOptions_new : DBIteratorOptions := mkItOptions None None false false false true false.

Definition has_flag (flags flag : Z) : bool := negb (Z.land flags flag =? 0).

(** [std::string(ptr + start, end - start)] *)
Definition key_string (k : KeyRef) : exn + bytes :=
  if (0 <=? kr_start k) && (kr_start k <=? kr_end k) && (kr_end k <=? Z.of_nat (length (kr_buffer k))) then
    inr (take (Z.to_nat (kr_end k - kr_start k)) (drop (Z.to_nat (kr_start k)) (kr_buffer k)))
  else inl (OutOfRange "key buffer").

Definition key_or_none (k : option KeyRef) : exn + option bytes :=
  match k with
  | None => inr None
  | Some k => match key_string k with inr s => inr (Some s) | inl e => inl e end
  end.

Section Iterator.
Context {RI : RocksIter}.

(** ** The handle *)

Record DBIteratorHandle := mkItHandle {
  ih_exclusiveStart : bool;
  ih_inclusiveEnd : bool;
  ih_reverse : bool;
  ih_values : bool;
  ih_needsStableValueBuffer : bool;
  ih_iterator : option It;
  ih_startKey : bytes;
  ih_endKey : bytes
}.

(** The bounds [init] sets in the read options. *)
Definition init_bounds (o : DBIteratorOptions) : exn + option bytes * option bytes :=
  match key_or_none (io_start o) with
  | inl e => inl e
  | inr start =>
      match key_or_none (io_end o) with
      | inl e => inl e
      | inr end_ => inr (start, (fun e => if io_inclusiveEnd o then e ++ [Byte.x00] else e) <$> end_)
      end
  end.

Definition seek (o : DBIteratorOptions) (startKey : bytes) (it : It) : It :=
  let it := if io_reverse o then it_SeekToLast it else it_SeekToFirst it in
  if io_exclusiveStart o && (match io_start o with Some _ => true | None => false end) && it_valid it then
    if slice_eqb (it_key it) startKey then if io_reverse o then it_Prev it else it_Next it else it
  else it.

(** The constructors: [db] is what the column family, or the transaction over it,
    holds. *)
Definition DBIteratorHandle_new (db : list entry) (o : DBIteratorOptions) : exn + DBIteratorHandle :=
  match init_bounds o with
  | inl e => inl e
  | inr (lower, upper) =>
      let startKey := default [] lower in
      inr (mkItHandle (io_exclusiveStart o) (io_inclusiveEnd o) (io_reverse o) (io_values o)
             (io_needsStableValueBuffer o) (Some (seek o startKey (it_new db lower upper)))
             startKey (default [] upper))
  end.

Definition set_iterator (h : DBIteratorHandle) (it : option It) : DBIteratorHandle :=
  mkItHandle (ih_exclusiveStart h) (ih_inclusiveEnd h) (ih_reverse h) (ih_values h) (ih_needsStableValueBuffer h)
    it (ih_startKey h) (ih_endKey h).

Definition close (h : DBIteratorHandle) : DBIteratorHandle := set_iterator h None.

(** ** The class *)

(** [DBIterator::Constructor]: [keyBuffer] is the default key buffer of the
    database. *)
Definition Constructor (db : list entry) (keyBuffer : option bytes) (flags startKeyEnd endKeyStart endKeyEnd : Z)
  : exn + DBIteratorHandle :=
  let key present start end_ :=
    if present : bool then
      match keyBuffer with
      | Some b => inr (Some (mkKeyRef b start end_))
      | None => inl (DBException "Default key buffer is not set")
      end
    else inr None in
  match key (0 <? startKeyEnd) 0 startKeyEnd with
  | inl e => inl e
  | inr start =>
      match key (endKeyStart <? endKeyEnd) endKeyStart endKeyEnd with
      | inl e => inl e
      | inr end_ =>
          DBIteratorHandle_new db
            (mkItOptions start end_
               (has_flag flags ITERATOR_INCLUSIVE_END_FLAG)
               (has_flag flags ITERATOR_EXCLUSIVE_START_FLAG)
               (has_flag flags ITERATOR_REVERSE_FLAG)
               (has_flag flags ITERATOR_INCLUDE_VALUES_FLAG)
               (has_flag flags ITERATOR_NEEDS_STABLE_VALUE_BUFFER_FLAG))
      end
  end.

(** The default key and value buffers and the [Uint32Array(2)] of a database handle. *)
Record Shared := mkShared {
  sh_keyBuffer : option bytes;
  sh_valueBuffer : option bytes;
  sh_iteratorState : option (Z * Z)
}.

Inductive next_result :=
| RESULT_DONE
| RESULT_FAST
| RESULT_SLOW (key : bytes) (value : option bytes).

(** [copy_into(buffer, data, size)] *)
Definition copy_into (buffer data : bytes) : bytes := data ++ drop (length data) buffer.

Definition fits (buffer : option bytes) (data : bytes) : bool :=
  match buffer with Some b => (length data <=? length b)%nat | None => false end.

Definition is_some {A} (o : option A) : bool := match o with Some _ => true | None => false end.

(** One step in the iteration's direction. *)
Definition advance (h : DBIteratorHandle) (it : It) : It := if ih_reverse h then it_Prev it else it_Next it.

(** From the comment "Try the fast path" on. *)
Definition emit (h : DBIteratorHandle) (it : It) (sh : Shared) : next_result * DBIteratorHandle * Shared :=
  let key := it_key it in
  let keyFits := fits (sh_keyBuffer sh) key && is_some (sh_iteratorState sh) in
  let value := it_value it in
  let valueFits := if ih_values h then negb (ih_needsStableValueBuffer h) && fits (sh_valueBuffer sh) value else true in
  let h' := set_iterator h (Some (advance h it)) in
  if keyFits && valueFits then
    let '(s0, s1) := default (0, 0) (sh_iteratorState sh) in
    let sh' :=
      mkShared ((fun b => copy_into b key) <$> sh_keyBuffer sh)
        (if ih_values h then (fun b => copy_into b value) <$> sh_valueBuffer sh else sh_valueBuffer sh)
        (Some (u32 (Z.of_nat (length key)), if ih_values h then u32 (Z.of_nat (length value)) else s1)) in
    (RESULT_FAST, h', sh')
  else (RESULT_SLOW key (if ih_values h then Some value else None), h', sh).

(** [DBIterator::Next] *)
Definition Next (h : DBIteratorHandle) (sh : Shared) : (exn + next_result) * DBIteratorHandle * Shared :=
  match ih_iterator h with
  | None => (inl (DBException "Next failed: Iterator not initialized"), h, sh)
  | Some it =>
      if negb (it_valid it) then (inr RESULT_DONE, h, sh)
      else if ih_reverse h && ih_exclusiveStart h && negb (length (ih_startKey h) =? 0)%nat
              && slice_eqb (it_key it) (ih_startKey h) then
        let it := it_Prev it in
        if negb (it_valid it) then (inr RESULT_DONE, set_iterator h (Some it), sh)
        else
          let '(r, h, sh) := emit h (it_Next it) sh in (inr r, h, sh)
      else let '(r, h, sh) := emit h it sh in (inr r, h, sh)
  end.

(** [DBIterator::Return] and [DBIterator::Throw]. *)
Definition Return (h : DBIteratorHandle) : (exn + unit) * DBIteratorHandle :=
  match ih_iterator h with
  | None => (inl (DBException "Return failed: Iterator not initialized"), h)
  | Some _ => (inr tt, close h)
  end.
Definition Throw (h : DBIteratorHandle) : (exn + unit) * DBIteratorHandle :=
  match ih_iterator h with
  | None => (inl (DBException "Throw failed: Iterator not initialized"), h)
  | Some _ => (inr tt, close h)
  end.

(** ** Counting *)

(** [while (Valid()) { ++count; Next(); }], with fuel. *)
Fixpoint count_loop (fuel : nat) (it : It) (count : Z) : option Z :=
  match fuel with
  | O => None
  | S fuel => if it_valid it then count_loop fuel (it_Next it) (u64 (count + 1)) else Some count
  end.

Definition count_entries (fuel : nat) (db : list entry) (o : DBIteratorOptions) : exn + option Z :=
  match DBIteratorHandle_new db o with
  | inl e => inl e
  | inr h => match ih_iterator h with Some it => inr (count_loop fuel it 0) | None => inr None end
  end.

(** [TransactionHandle::getCount]: [own] is what the transaction sees of its own
    column family, [override] of the one [dbHandleOverride] names. *)
Definition TransactionHandle_getCount (fuel : nat) (own : list entry) (override : option (list entry)) (o : DBIteratorOptions)
  : exn + option Z :=
  count_entries fuel own o.

Definition without_values (o : DBIteratorOptions) : DBIteratorOptions :=
  mkItOptions (io_start o) (io_end o) (io_inclusiveEnd o) (io_exclusiveStart o) (io_reverse o) false
    (io_needsStableValueBuffer o).

(** [Database::GetCount] on a database that holds [db]; [txn] is the transaction the
    identifier names: what it sees of its own column family and of this one. *)
Definition Database_GetCount (fuel : nat) (db : list entry) (txn : option (option (list entry * list entry))) (o : DBIteratorOptions)
  : exn + option Z :=
  let o := without_values o in
  match txn with
  | Some None => inl (DBException "Get count failed: Transaction not found")
  | Some (Some (own, here)) => TransactionHandle_getCount fuel own (Some here) o
  | None => count_entries fuel db o
  end.

(** ** Reading *)

(** What the JavaScript side takes from a result. *)
Definition read_result (h : DBIteratorHandle) (r : next_result) (sh : Shared) : option (bytes * option bytes) :=
  match r with
  | RESULT_DONE => None
  | RESULT_SLOW k v => Some (k, v)
  | RESULT_FAST =>
      let '(kl, vl) := default (0, 0) (sh_iteratorState sh) in
      Some (take (Z.to_nat kl) (default [] (sh_keyBuffer sh)),
            if ih_values h then Some (take (Z.to_nat vl) (default [] (sh_valueBuffer sh))) else None)
  end.

(** Call [next] until it is done: what was read, and [false] if the fuel ran out or
    a call threw. *)
Fixpoint drain (fuel : nat) (h : DBIteratorHandle) (sh : Shared) : list (bytes * option bytes) * bool :=
  match fuel with
  | O => ([], false)
  | S fuel =>
      match Next h sh with
      | (inl _, _, _) => ([], false)
      | (inr r, h', sh') =>
          match read_result h r sh' with
          | None => ([], true)
          | Some e => let '(l, b) := drain fuel h' sh' in (e :: l, b)
          end
      end
  end.
End Iterator.

(** ** A RocksDB iterator *)

Record list_iter := mkListIter { li_items : list entry; li_pos : option nat }.

Definition li_entry (it : list_iter) : entry := default ([], []) (li_pos it ≫= (li_items it !!.)).

#[export] Instance list_rocks_iter : RocksIter := {|
  It := list_iter;
  it_new db lo up := mkListIter (filter (fun e => in_bounds lo up e = true) db) None;
  it_valid it := match li_pos it with Some i => (i <? length (li_items it))%nat | None => false end;
  it_key it := fst (li_entry it);
  it_value it := snd (li_entry it);
  it_SeekToFirst it := mkListIter (li_items it) (match li_items it with [] => None | _ :: _ => Some O end);
  it_SeekToLast it := mkListIter (li_items it) (match length (li_items it) with O => None | S n => Some n end);
  it_Next it := mkListIter (li_items it)
    (i ← li_pos it; if (S i <? length (li_items it))%nat then Some (S i) else None);
  it_Prev it := mkListIter (li_items it) (i ← li_pos it; match i with O => None | S i => Some i end)
|}.
