(* ===== verification/IteratorProofs.v ===== *)
(** * Iterators: what they yield

    Draining an iterator gives exactly the entries of its range, in its direction,
    whatever the sizes of the shared buffers. *)

From S2P Require Import Prelude Encoding Iterator.
From stdpp Require Import base tactics list strings.
From coqutil Require Import Byte.
From Stdlib Require Import ZArith Lia Sorted.

Local Open Scope Z_scope.

(** ** The order of slices *)

Lemma slice_compare_eq a b : slice_compare a b = Eq <-> a = b.
Proof.
  revert b. induction a as [|x a IH]; intros [|y b]; cbn; try done.
  destruct (byte.unsigned x ?= byte.unsigned y) eqn:E.
  - apply Z.compare_eq_iff, byte.unsigned_inj in E as ->. rewrite IH. split; [by intros ->|by intros [= ->]].
  - split; [done|]. intros [= -> ->]. by rewrite Z.compare_refl in E.
  - split; [done|]. intros [= -> ->]. by rewrite Z.compare_refl in E.
Qed.

Lemma slice_compare_opp a b : slice_compare b a = CompOpp (slice_compare a b).
Proof.
  revert b. induction a as [|x a IH]; intros [|y b]; cbn; try done.
  rewrite (Z.compare_antisym (byte.unsigned x)). destruct (_ ?= _); cbn; auto.
Qed.

Lemma slice_compare_trans a b c : slice_compare a b = Lt -> slice_compare b c = Lt -> slice_compare a c = Lt.
Proof.
  revert b c. induction a as [|x a IH]; intros [|y b] [|z c]; cbn; try done.
  destruct (byte.unsigned x ?= byte.unsigned y) eqn:E1, (byte.unsigned y ?= byte.unsigned z) eqn:E2; try done;
    rewrite ?Z.compare_eq_iff, ?Z.compare_lt_iff in *; intros H1 H2;
    destruct (Z.compare_spec (byte.unsigned x) (byte.unsigned z)); try lia; try done. by eapply IH.
Qed.

#[export] Instance slice_lt_strict : StrictOrder (fun a b => slice_compare a b = Lt).
Proof.
  split.
  - intros a H. by rewrite (proj2 (slice_compare_eq a a) eq_refl) in H.
  - intros a b c. apply slice_compare_trans.
Qed.

Lemma slice_eqb_spec a b : slice_eqb a b = true <-> a = b.
Proof. unfold slice_eqb. rewrite <- slice_compare_eq. by destruct (slice_compare a b). Qed.

(** The key after every key up to [e]: appending a zero byte makes an exclusive bound
    inclusive. *)
Lemma slice_ltb_zero k e : slice_ltb k (e ++ [Byte.x00]) = slice_leb k e.
Proof.
  unfold slice_leb, slice_ltb. rewrite (slice_compare_opp k e).
  revert e. induction k as [|x k IH]; intros [|y e]; cbn; try done.
  - destruct (byte.unsigned x ?= 0) eqn:E; try done; [by destruct k|].
    exfalso. pose proof (byte.unsigned_range x) as Hx. rewrite Z.compare_lt_iff in E. destruct Hx. by apply Zle_not_lt in E.
  - destruct (byte.unsigned x ?= byte.unsigned y); cbn; auto.
Qed.

(** ** The range *)

(** The entries the options ask for. *)
Definition in_range (start end_ : option bytes) (exclusiveStart inclusiveEnd : bool) (e : entry) : bool :=
  match start with
  | Some s => if exclusiveStart then slice_ltb s (fst e) else slice_leb s (fst e)
  | None => true
  end &&
  match end_ with
  | Some x => if inclusiveEnd then slice_leb (fst e) x else slice_ltb (fst e) x
  | None => true
  end.

Definition key_lt (a b : entry) : Prop := slice_compare (fst a) (fst b) = Lt.

(** Not the start key of an exclusive range. *)
Definition wanted (start : option bytes) (exclusiveStart : bool) (e : entry) : bool :=
  match start with Some s => negb (exclusiveStart && slice_eqb (fst e) s) | None => true end.

Lemma range_split start end_ ex inc e :
  in_range start end_ ex inc e
  = wanted start ex e && in_bounds start ((fun x => if inc then x ++ [Byte.x00] else x) <$> end_) e.
Proof.
  unfold in_range, wanted, in_bounds. rewrite andb_assoc. f_equal.
  - destruct start as [s|]; [|done]. unfold slice_leb, slice_ltb, slice_eqb. rewrite (slice_compare_opp s (fst e)).
    destruct ex; [|done]. by destruct (slice_compare s (fst e)).
  - destruct end_ as [x|]; [|done]. cbn. destruct inc; [|done]. by rewrite slice_ltb_zero.
Qed.

Lemma filter_sorted {A} (R : A -> A -> Prop) (P : A -> Prop) `{!forall x, Decision (P x)} l :
  StronglySorted R l -> StronglySorted R (filter P l).
Proof.
  induction 1 as [|x l Hl IH Hx]; [constructor|]. rewrite filter_cons. case_decide; [|done].
  constructor; [done|]. apply Forall_forall. intros y [_ Hy]%list_elem_of_filter. rewrite Forall_forall in Hx. by apply Hx.
Qed.

Lemma filter_all {A} (P : A -> Prop) `{!forall x, Decision (P x)} (l : list A) : Forall P l -> filter P l = l.
Proof. induction 1 as [|x l Hx _ IH]; [done|]. by rewrite filter_cons, decide_True, IH. Qed.

(** Only the first of the entries at or after the start key can be the start key. *)
Lemma wanted_later start ex (l : list entry) i e :
  StronglySorted key_lt l -> Forall (fun e => in_bounds start None e = true) l ->
  l !! i = Some e -> wanted start ex e = false -> i = O.
Proof.
  intros Hs Hb Hi Hw. destruct i as [|i]; [done|]. exfalso. destruct l as [|x l]; [done|]. cbn in Hi.
  inversion Hs as [|? ? _ Hx]; subst. rewrite Forall_forall in Hx.
  pose proof (Hx e (list_elem_of_lookup_2 _ _ _ Hi)) as Hlt. unfold key_lt in Hlt.
  unfold wanted in Hw. destruct start as [s|]; [|done]. apply negb_false_iff, andb_true_iff in Hw as [_ Heq].
  apply slice_eqb_spec in Heq as <-. inversion Hb as [|? ? Hbx _]; subst.
  unfold in_bounds, slice_leb, slice_ltb in Hbx. by rewrite Hlt in Hbx.
Qed.

Section Proofs.
Context {RI : RocksIter} {RL : RocksIterLaws}.

(** ** One call *)

Definition output (values : bool) (e : entry) : bytes * option bytes := (fst e, if values then Some (snd e) else None).

(** Buffers a [uint32_t] can measure. *)
Definition shared_ok (sh : Shared) : Prop :=
  (forall b, sh_keyBuffer sh = Some b -> Z.of_nat (length b) < 2 ^ 32) /\
  (forall b, sh_valueBuffer sh = Some b -> Z.of_nat (length b) < 2 ^ 32).

Lemma memcpy_length buffer data : (length data <= length buffer)%nat -> length (copy_into buffer data) = length buffer.
Proof. intros H. unfold copy_into. rewrite length_app, length_drop. lia. Qed.

Lemma memcpy_take buffer data : take (length data) (copy_into buffer data) = data.
Proof. unfold copy_into. by rewrite take_app_length. Qed.

Lemma u32_length {A} (l b : list A) : (length l <= length b)%nat -> Z.of_nat (length b) < 2 ^ 32 ->
  Z.to_nat (u32 (Z.of_nat (length l))) = length l.
Proof. intros H1 H2. unfold u32. rewrite Z.mod_small by lia. lia. Qed.

Lemma emit_reads h it sh : shared_ok sh ->
  exists r sh', emit h it sh = (r, set_iterator h (Some (advance h it)), sh') /\ shared_ok sh' /\
    read_result h r sh' = Some (output (ih_values h) (it_key it, it_value it)).
Proof.
  intros Hsh. pose proof Hsh as [Hk Hv]. unfold emit, fits, is_some. destruct sh as [kb vb st]; cbn in Hk, Hv |- *.
  destruct kb as [kb|]; [|eexists _, _; split; [reflexivity|]; split; done].
  destruct (length (it_key it) <=? length kb)%nat eqn:Ek; [|eexists _, _; split; [reflexivity|]; split; done].
  apply Nat.leb_le in Ek. destruct st as [[s0 s1]|]; [|eexists _, _; split; [reflexivity|]; split; done].
  specialize (Hk kb eq_refl). pose proof (u32_length _ _ Ek Hk) as Hu. cbn [andb default].
  destruct (ih_values h) eqn:Ev; cycle 1.
  { eexists _, _. split; [reflexivity|]. split; [split; cbn; [intros b [= <-]; by rewrite memcpy_length | done]|].
    cbn. rewrite Ev. by rewrite Hu, memcpy_take. }
  destruct (ih_needsStableValueBuffer h); cbn [negb andb]; [eexists _, _; split; [reflexivity|]; cbn; done|].
  destruct vb as [vb|]; [|eexists _, _; split; [reflexivity|]; cbn; done].
  destruct (length (it_value it) <=? length vb)%nat eqn:Evv; [|eexists _, _; split; [reflexivity|]; cbn; done].
  apply Nat.leb_le in Evv. specialize (Hv vb eq_refl). pose proof (u32_length _ _ Evv Hv) as Hu2.
  eexists _, _. split; [reflexivity|]. split; [split; cbn; intros b [= <-]; by rewrite memcpy_length|].
  cbn. by rewrite Ev, Hu, Hu2, !memcpy_take.
Qed.

(** ** Draining *)

(** The handle of options whose keys are [start] and [end_], on an iterator over
    [items] at [pos]. *)
Record handle_at (start : option bytes) (ex rv vs : bool) (items : list entry) (pos : option nat) (h : DBIteratorHandle) : Prop := {
  ha_ex : ih_exclusiveStart h = ex;
  ha_rv : ih_reverse h = rv;
  ha_vs : ih_values h = vs;
  ha_start : ih_startKey h = default [] start;
  ha_it : exists it, ih_iterator h = Some it /\ it_items it = items /\ it_pos it = pos
}.

Lemma handle_at_move start ex rv vs items pos h it pos' : handle_at start ex rv vs items pos h ->
  it_items it = items -> it_pos it = pos' -> handle_at start ex rv vs items pos' (set_iterator h (Some it)).
Proof. intros [] Hi Hp. constructor; try done. by exists it. Qed.

Lemma next_done start ex rv vs items h sh : handle_at start ex rv vs items None h -> Next h sh = (inr RESULT_DONE, h, sh).
Proof. intros [_ _ _ _ (it & Hit & _ & Hp)]. unfold Next. by rewrite Hit, law_valid, Hp. Qed.

(** A call at a wanted entry reads it and moves on. *)
Lemma next_entry start ex rv vs items i e h sh :
  start <> Some [] -> handle_at start ex rv vs items (Some i) h -> shared_ok sh -> items !! i = Some e ->
  (rv = true -> wanted start ex e = true) ->
  exists r h' sh', Next h sh = (inr r, h', sh') /\ read_result h r sh' = Some (output vs e) /\ shared_ok sh' /\
    handle_at start ex rv vs items
      (if rv then match i with O => None | S i => Some i end
       else if (S i <? length items)%nat then Some (S i) else None) h'.
Proof.
  intros Hne Hh Hsh Hi Hw. pose proof Hh as [Hex Hrv Hvs Hst (it & Hit & Hitems & Hp)].
  pose proof (law_pos it i Hp) as Hl. rewrite Hitems, Hi in Hl. injection Hl as ->.
  destruct (emit_reads h it sh Hsh) as (r & sh' & He & Hsh' & Hr).
  exists r, (set_iterator h (Some (advance h it))), sh'. rewrite Hvs in Hr. split_and!; try done; cycle 1.
  { pose proof (law_items it) as (_ & _ & I3 & I4). unfold advance. rewrite Hrv.
    destruct rv; (eapply handle_at_move; [exact Hh|congruence|]);
      [by apply law_prev | rewrite <- Hitems; by apply law_next]. }
  unfold Next. rewrite Hit, law_valid, Hp. cbn [negb].
  assert (ih_reverse h && ih_exclusiveStart h && negb (length (ih_startKey h) =? 0)%nat
          && slice_eqb (it_key it) (ih_startKey h) = false) as ->; [|by rewrite He].
  rewrite Hrv, Hex, Hst. destruct rv; [|done]. specialize (Hw eq_refl). unfold wanted in Hw.
  destruct start as [s|]; [|by rewrite andb_false_r]. cbn in *. apply negb_true_iff in Hw.
  destruct ex; [|done]. cbn in *. by rewrite Hw, andb_false_r.
Qed.

Lemma drain_step (fuel : nat) h sh r h' sh' (e : bytes * option bytes) : Next h sh = (inr r, h', sh') -> read_result h r sh' = Some e ->
  drain (S fuel) h sh = let '(l, b) := drain fuel h' sh' in (e :: l, b).
Proof. intros H1 H2. cbn [drain]. by rewrite H1, H2. Qed.

Lemma drain_done fuel start ex rv vs items h sh : handle_at start ex rv vs items None h -> drain (S fuel) h sh = ([], true).
Proof. intros Hh. cbn [drain]. by rewrite (next_done _ _ _ _ _ _ _ Hh). Qed.

Lemma drain_forward start ex vs items n i h sh fuel : start <> Some [] ->
  handle_at start ex false vs items (Some i) h -> shared_ok sh -> (i + n = length items)%nat -> (0 < n)%nat -> (n < fuel)%nat ->
  drain fuel h sh = (output vs <$> drop i items, true).
Proof.
  intros Hne. revert i h sh fuel. induction n as [|n IH]; intros i h sh fuel Hh Hsh Hlen Hn Hf; [lia|].
  destruct (lookup_lt_is_Some_2 items i) as [e He]; [lia|].
  destruct fuel as [|fuel]; [lia|].
  destruct (next_entry _ _ _ _ _ _ _ _ _ Hne Hh Hsh He ltac:(done)) as (r & h' & sh' & H1 & H2 & Hsh' & Hh').
  rewrite (drain_step _ _ _ _ _ _ _ H1 H2), (drop_S _ _ _ He), fmap_cons.
  destruct (S i <? length items)%nat eqn:E.
  - apply Nat.ltb_lt in E. rewrite (IH (S i) h' sh' fuel Hh' Hsh') by lia. done.
  - apply Nat.ltb_ge in E. destruct fuel; [lia|]. rewrite (drain_done _ _ _ _ _ _ _ _ Hh').
    by rewrite (drop_ge items) by lia.
Qed.

Lemma drain_reverse start ex vs items i h sh fuel : start <> Some [] -> StronglySorted key_lt items ->
  Forall (fun e => in_bounds start None e = true) items ->
  handle_at start ex true vs items (Some i) h -> shared_ok sh -> (i < length items)%nat -> (S i < fuel)%nat ->
  drain fuel h sh = (output vs <$> filter (fun e => wanted start ex e = true) (rev (take (S i) items)), true).
Proof.
  intros Hne Hs Hb. revert h sh fuel. induction i as [|i IH]; intros h sh fuel Hh Hsh Hlen Hf;
    (destruct (lookup_lt_is_Some_2 items _ Hlen) as [e He]; rewrite (take_S_r _ _ _ He), rev_app_distr; cbn [rev app];
     rewrite filter_cons; destruct fuel as [|fuel]; [lia|]).
  - destruct (wanted start ex e) eqn:Hw.
    + destruct (next_entry _ _ _ _ _ _ _ _ _ Hne Hh Hsh He ltac:(done)) as (r & h' & sh' & H1 & H2 & Hsh' & Hh').
      rewrite (drain_step _ _ _ _ _ _ _ H1 H2). destruct fuel; [lia|]. by rewrite (drain_done _ _ _ _ _ _ _ _ Hh').
    + cbn. pose proof Hh as [Hex Hrv _ Hst (it & Hit & Hitems & Hp)].
      pose proof (law_pos it _ Hp) as Hl. rewrite Hitems, He in Hl. injection Hl as ->.
      unfold Next. rewrite Hit, law_valid, Hp, Hrv, Hex, Hst. cbn [negb andb].
      unfold wanted in Hw. destruct start as [s|]; [|done]. apply negb_false_iff, andb_true_iff in Hw as [-> Heq].
      cbn in Heq |- *. rewrite Heq. destruct s; [done|]. cbn. by rewrite law_valid, (law_prev _ _ Hp).
  - rewrite decide_True; cycle 1.
    { destruct (wanted start ex e) eqn:Hw; [done|]. by pose proof (wanted_later _ _ _ _ _ Hs Hb He Hw). }
    destruct (next_entry _ _ _ _ _ _ _ _ _ Hne Hh Hsh He) as (r & h' & sh' & H1 & H2 & Hsh' & Hh').
    { intros _. destruct (wanted start ex e) eqn:Hw; [done|]. by pose proof (wanted_later _ _ _ _ _ Hs Hb He Hw). }
    rewrite (drain_step _ _ _ _ _ _ _ H1 H2), (IH h' sh' fuel Hh' Hsh') by lia. done.
Qed.

(** ** Where a new handle stands *)

(** The entries the bounds of the options leave. *)
Definition bounded (db : list entry) (start end_ : option bytes) (inc : bool) : list entry :=
  filter (fun e => in_bounds start ((fun x => if inc then x ++ [Byte.x00] else x) <$> end_) e = true) db.

Lemma filter_range db start end_ ex inc :
  filter (fun e => in_range start end_ ex inc e = true) db
  = filter (fun e => wanted start ex e = true) (bounded db start end_ inc).
Proof.
  unfold bounded. rewrite list_filter_filter. apply list_filter_iff. intros e.
  by rewrite range_split, andb_true_iff.
Qed.

Lemma bounded_facts db start end_ inc : StronglySorted key_lt db ->
  StronglySorted key_lt (bounded db start end_ inc) /\
  Forall (fun e => in_bounds start None e = true) (bounded db start end_ inc) /\
  (length (bounded db start end_ inc) <= length db)%nat.
Proof.
  intros Hs. split_and!; [by apply filter_sorted| |apply length_filter].
  apply Forall_forall. intros e [He _]%list_elem_of_filter. unfold in_bounds in *.
  apply andb_true_iff in He as [-> _]. done.
Qed.

Lemma all_wanted start ex (l : list entry) : StronglySorted key_lt l ->
  Forall (fun e => in_bounds start None e = true) l ->
  filter (fun e => wanted start ex e = true) l
  = match l with [] => [] | e :: l' => if wanted start ex e then l else l' end.
Proof.
  intros Hs Hb. destruct l as [|e l]; [done|]. rewrite filter_cons.
  assert (filter (fun e => wanted start ex e = true) l = l) as ->; [|by destruct (wanted start ex e)].
  apply filter_all, Forall_lookup. intros i x Hx. destruct (wanted start ex x) eqn:Hw; [done|].
  by pose proof (wanted_later start ex (e :: l) (S i) x Hs Hb Hx Hw).
Qed.

(** The position [seek] leaves the iterator at. *)
Definition seek_pos (start : option bytes) (ex rv : bool) (items : list entry) : option nat :=
  if rv then
    match length items with
    | O => None
    | S n => match items !! n with
             | Some e => if wanted start ex e then Some n else (match n with O => None | S n => Some n end)
             | None => None
             end
    end
  else
    match items with
    | [] => None
    | e :: _ => if wanted start ex e then Some O else if (1 <? length items)%nat then Some 1%nat else None
    end.

Lemma seek_at o startKey start it : is_Some (io_start o) <-> is_Some start -> startKey = default [] start ->
  it_items (seek o startKey it) = it_items it /\
  it_pos (seek o startKey it) = seek_pos start (io_exclusiveStart o) (io_reverse o) (it_items it).
Proof.
  intros Hstart ->. unfold seek, seek_pos. pose proof (law_items it) as (I1 & I2 & _ & _).
  set (it1 := if io_reverse o then it_SeekToLast it else it_SeekToFirst it).
  assert (it_items it1 = it_items it) as Hi by (unfold it1; by destruct (io_reverse o)).
  pose proof (law_items it1) as (_ & _ & J3 & J4).
  assert (forall i, it_pos it1 = Some i -> exists e, it_items it !! i = Some e /\
    (io_exclusiveStart o && (match io_start o with Some _ => true | None => false end) && it_valid it1
     && slice_eqb (it_key it1) (default [] start)) = negb (wanted start (io_exclusiveStart o) e)) as Hw.
  { intros i Hp. pose proof (law_pos it1 i Hp) as Hl. rewrite Hi in Hl. eexists. split; [exact Hl|].
    rewrite law_valid, Hp, andb_true_r. unfold wanted. destruct start as [s|].
    - destruct (io_start o); [|by destruct (proj2 Hstart (ex_intro _ s eq_refl))]. cbn.
      by rewrite negb_involutive, andb_true_r.
    - destruct (io_start o) as [k|]; [by destruct (proj1 Hstart (ex_intro _ k eq_refl))|]. by rewrite andb_false_r. }
  assert (it_pos it1 = None -> (io_exclusiveStart o && (match io_start o with Some _ => true | None => false end) && it_valid it1) = false) as Hn.
  { intros Hp. by rewrite law_valid, Hp, andb_false_r. }
  split.
  { destruct (_ && it_valid it1); [|done]. destruct (slice_eqb _ _); [|done]. destruct (io_reverse o); congruence. }
  assert (it_pos it1 = if io_reverse o then match length (it_items it) with O => None | S n => Some n end
                       else match it_items it with [] => None | _ :: _ => Some O end) as Hp.
  { unfold it1. destruct (io_reverse o); [apply law_last|apply law_first]. }
  destruct (io_reverse o).
  - destruct (length (it_items it)) as [|n] eqn:El; [by rewrite Hn|].
    destruct (Hw n Hp) as (e & He & Hc). rewrite He. destruct (wanted _ _ e); cbn in Hc.
    + destruct (_ && it_valid it1); [cbn in Hc; by rewrite Hc|done].
    + apply andb_true_iff in Hc as [-> ->]. by apply law_prev.
  - destruct (it_items it) as [|e0 l] eqn:El; [by rewrite Hn|].
    destruct (Hw O Hp) as (e & He & Hc). cbn in He. injection He as ->. destruct (wanted _ _ e); cbn in Hc.
    + destruct (_ && it_valid it1); [cbn in Hc; by rewrite Hc|done].
    + apply andb_true_iff in Hc as [-> ->]. rewrite (law_next _ _ Hp), Hi. done.
Qed.

Lemma new_handle_at db o start end_ :
  key_or_none (io_start o) = inr start -> key_or_none (io_end o) = inr end_ ->
  exists h, DBIteratorHandle_new db o = inr h /\
    handle_at start (io_exclusiveStart o) (io_reverse o) (io_values o) (bounded db start end_ (io_inclusiveEnd o))
      (seek_pos start (io_exclusiveStart o) (io_reverse o) (bounded db start end_ (io_inclusiveEnd o))) h.
Proof.
  intros Hs He. unfold DBIteratorHandle_new, init_bounds. rewrite Hs, He. eexists. split; [reflexivity|].
  constructor; try done. eexists. split; [reflexivity|].
  assert (is_Some (io_start o) <-> is_Some start) as Hiff.
  { unfold key_or_none in Hs. destruct (io_start o) as [k|]; [|by simplify_eq].
    destruct (key_string k); simplify_eq. split; by eexists. }
  match goal with |- context [seek _ _ ?it] =>
    destruct (seek_at o (default [] start) start it Hiff eq_refl) as [-> ->]; rewrite (law_new db) end. done.
Qed.

(** What the options ask for, in the order they ask for it. *)
Definition expected (db : list entry) (start end_ : option bytes) (ex inc rv vs : bool) : list (bytes * option bytes) :=
  let l := filter (fun e => in_range start end_ ex inc e = true) db in
  output vs <$> (if rv then rev l else l).

Lemma filter_rev {A} (P : A -> Prop) `{!forall x, Decision (P x)} (l : list A) : filter P (rev l) = rev (filter P l).
Proof.
  induction l as [|x l IH]; [done|]. cbn [rev]. rewrite filter_app, IH, !filter_cons, filter_nil.
  case_decide; [done|]. by rewrite app_nil_r.
Qed.

Lemma drain_new db start end_ ex inc rv vs h sh : start <> Some [] -> StronglySorted key_lt db -> shared_ok sh ->
  handle_at start ex rv vs (bounded db start end_ inc) (seek_pos start ex rv (bounded db start end_ inc)) h ->
  drain (S (S (length db))) h sh = (expected db start end_ ex inc rv vs, true).
Proof.
  intros Hne Hs Hsh Hh. destruct (bounded_facts db start end_ inc Hs) as (Hbs & Hbb & Hbl).
  unfold expected. rewrite filter_range. set (items := bounded db start end_ inc) in *.
  unfold seek_pos in Hh. destruct rv.
  - destruct (length items) as [|n] eqn:El.
    { apply nil_length_inv in El. rewrite El in *. by rewrite (drain_done _ _ _ _ _ _ _ _ Hh). }
    destruct (lookup_lt_is_Some_2 items n) as [e He]; [lia|]. rewrite He in Hh. rewrite <- filter_rev.
    destruct (wanted start ex e) eqn:Hw.
    + rewrite (drain_reverse _ _ _ _ _ _ _ _ Hne Hbs Hbb Hh Hsh) by lia. by rewrite take_ge by lia.
    + pose proof (wanted_later _ _ _ _ _ Hbs Hbb He Hw) as ->. rewrite (drain_done _ _ _ _ _ _ _ _ Hh).
      destruct items as [|x [|y l]]; try done. cbn in He. injection He as ->. cbn [rev app].
      by rewrite filter_cons, Hw.
  - rewrite (all_wanted start ex items Hbs Hbb). destruct items as [|e l]; [by rewrite (drain_done _ _ _ _ _ _ _ _ Hh)|].
    destruct (wanted start ex e) eqn:Hw.
    + by rewrite (drain_forward _ _ _ _ (length (e :: l)) _ _ _ _ Hne Hh Hsh) by (cbn in *; lia).
    + destruct l as [|e2 l]; [by rewrite (drain_done _ _ _ _ _ _ _ _ Hh)|]. cbn [length Nat.ltb Nat.leb] in Hh.
      by rewrite (drain_forward _ _ _ _ (length (e2 :: l)) _ _ _ _ Hne Hh Hsh) by (cbn in *; lia).
Qed.

(** ** Counting *)

Lemma count_loop_run it n i count fuel : it_pos it = Some i -> (i + S n = length (it_items it))%nat -> (S n < fuel)%nat ->
  count_loop fuel it count = Some (Nat.iter (S n) (fun c => u64 (c + 1)) count).
Proof.
  revert it i count fuel. induction n as [|n IH]; intros it i count fuel Hp Hlen Hf; (destruct fuel as [|fuel]; [lia|]);
    cbn [count_loop]; rewrite law_valid, Hp; pose proof (law_items it) as (_ & _ & J & _); pose proof (law_next it i Hp) as Hn.
  - rewrite (proj2 (Nat.ltb_ge _ _)) in Hn by lia. destruct fuel as [|fuel]; [lia|]. cbn [count_loop]. by rewrite law_valid, Hn.
  - rewrite (proj2 (Nat.ltb_lt _ _)) in Hn by lia. rewrite (IH _ (S i)) by (rewrite ?J; done || lia).
    f_equal. symmetry. apply Nat.iter_succ_r with (f := fun c => u64 (c + 1)).
Qed.

Lemma iter_count n c : Nat.iter n (fun c => u64 (c + 1)) (u64 c) = u64 (c + Z.of_nat n).
Proof.
  induction n as [|n IH]; [by rewrite Z.add_0_r|]. change (u64 (Nat.iter n (fun c => u64 (c + 1)) (u64 c) + 1) = u64 (c + Z.of_nat (S n))). rewrite IH. unfold u64.
  rewrite Zplus_mod_idemp_l. f_equal. lia.
Qed.

Lemma count_entries_run db o start end_ :
  StronglySorted key_lt db -> io_reverse o = false ->
  key_or_none (io_start o) = inr start -> key_or_none (io_end o) = inr end_ ->
  count_entries (S (S (length db))) db o
  = inr (Some (u64 (Z.of_nat (length (filter (fun e => in_range start end_ (io_exclusiveStart o) (io_inclusiveEnd o) e = true) db))))).
Proof.
  intros Hs Hrv Hst Hen. destruct (new_handle_at db o start end_ Hst Hen) as (h & Hh & Hat).
  destruct Hat as [_ _ _ _ (it & Hit & Hitems & Hpos)]. unfold count_entries. rewrite Hh, Hit. f_equal.
  destruct (bounded_facts db start end_ (io_inclusiveEnd o) Hs) as (Hbs & Hbb & Hbl).
  rewrite filter_range, (all_wanted _ _ _ Hbs Hbb), <- Hitems in *. rewrite Hrv in Hpos. cbn [seek_pos] in Hpos.
  assert (it_pos it = None -> count_loop (S (S (length db))) it 0 = Some 0) as Hnone.
  { intros H. cbn [count_loop]. by rewrite law_valid, H. }
  destruct (it_items it) as [|e l] eqn:El; [by rewrite Hnone|]. cbn in Hbl.
  assert (forall n, Nat.iter n (fun c => u64 (c + 1)) 0 = u64 (Z.of_nat n)) as Hiter by (intros n; apply (iter_count n 0)).
  destruct (wanted _ _ e).
  - rewrite (count_loop_run it (length l) O) by (rewrite ?El; cbn in *; done || lia). by rewrite Hiter.
  - destruct l as [|e2 l]; [by rewrite (Hnone Hpos)|].
    rewrite (count_loop_run it (length l) 1%nat) by (rewrite ?El; cbn in *; done || lia). by rewrite Hiter.
Qed.

(** ** Properties *)

(** The keys the arguments of the constructor name in the shared key buffer. *)
Definition named_start (buffer : bytes) (startKeyEnd : Z) : option bytes :=
  if 0 <? startKeyEnd then Some (take (Z.to_nat startKeyEnd) buffer) else None.
Definition named_end (buffer : bytes) (endKeyStart endKeyEnd : Z) : option bytes :=
  if endKeyStart <? endKeyEnd then Some (take (Z.to_nat (endKeyEnd - endKeyStart)) (drop (Z.to_nat endKeyStart) buffer)) else None.

(** C38: an iterator yields exactly the entries of its range, each once, in key order
    or in reverse, with both bounds taken as the flags say, and then reports that
    it is done: for every combination of the flags, every pair of keys in the
    shared key buffer, and whatever the sizes of the shared buffers, so whichever
    of the two result paths each entry takes. *)
Theorem iterator_yields db buffer flags startKeyEnd endKeyStart endKeyEnd sh :
  StronglySorted key_lt db -> shared_ok sh ->
  startKeyEnd <= Z.of_nat (length buffer) -> 0 <= endKeyStart -> endKeyEnd <= Z.of_nat (length buffer) ->
  exists h, Constructor db (Some buffer) flags startKeyEnd endKeyStart endKeyEnd = inr h /\
    drain (S (S (length db))) h sh
    = (expected db (named_start buffer startKeyEnd) (named_end buffer endKeyStart endKeyEnd)
         (has_flag flags ITERATOR_EXCLUSIVE_START_FLAG) (has_flag flags ITERATOR_INCLUSIVE_END_FLAG)
         (has_flag flags ITERATOR_REVERSE_FLAG) (has_flag flags ITERATOR_INCLUDE_VALUES_FLAG), true).
Proof.
  intros Hs Hsh H1 H2 H3. unfold Constructor.
  set (start := if 0 <? startKeyEnd then Some (mkKeyRef buffer 0 startKeyEnd) else None).
  set (end_ := if endKeyStart <? endKeyEnd then Some (mkKeyRef buffer endKeyStart endKeyEnd) else None).
  assert (key_or_none start = inr (named_start buffer startKeyEnd)) as Hstart.
  { unfold start, named_start. destruct (0 <? startKeyEnd) eqn:E; [|done]. apply Z.ltb_lt in E.
    unfold key_or_none, key_string. cbn [kr_start kr_end kr_buffer].
    rewrite !(proj2 (Z.leb_le _ _)) by lia. cbn [andb]. by rewrite Z.sub_0_r. }
  assert (key_or_none end_ = inr (named_end buffer endKeyStart endKeyEnd)) as Hend.
  { unfold end_, named_end. destruct (endKeyStart <? endKeyEnd) eqn:E; [|done]. apply Z.ltb_lt in E.
    unfold key_or_none, key_string. cbn [kr_start kr_end kr_buffer]. by rewrite !(proj2 (Z.leb_le _ _)) by lia. }
  assert (forall b s e, (if b : bool then inr (Some (mkKeyRef buffer s e)) else inr None)
    = inr (if b then Some (mkKeyRef buffer s e) else None) :> (exn + option KeyRef)) as Hif by by intros [].
  cbv zeta. rewrite !Hif. fold start end_.
  match goal with |- context [DBIteratorHandle_new db ?o] =>
    destruct (new_handle_at db o _ _ Hstart Hend) as (h & Hh & Hat) end.
  exists h. split; [done|]. apply drain_new; try done.
  unfold named_start. destruct (0 <? startKeyEnd) eqn:E; [|done]. apply Z.ltb_lt in E.
  intros [= Heq%(f_equal length)]. rewrite length_take in Heq. cbn in Heq. lia.
Qed.

(** [getCount] on a database is the number of entries of the range the options
    name, whatever combination of bounds they give. *)
Theorem getCount_correct db o start end_ :
  StronglySorted key_lt db -> Z.of_nat (length db) < 2 ^ 64 -> io_reverse o = false ->
  key_or_none (io_start o) = inr start -> key_or_none (io_end o) = inr end_ ->
  Database_GetCount (S (S (length db))) db None o
  = inr (Some (Z.of_nat (length (filter (fun e => in_range start end_ (io_exclusiveStart o) (io_inclusiveEnd o) e = true) db)))).
Proof.
  intros Hs Hl Hrv Hst Hen. unfold Database_GetCount.
  rewrite (count_entries_run db (without_values o) start end_ Hs Hrv Hst Hen). do 2 f_equal.
  unfold u64. apply Z.mod_small. cbn.
  pose proof (length_filter (fun e => in_range start end_ (io_exclusiveStart o) (io_inclusiveEnd o) e = true) db). lia.
Qed.

(** With a transaction of another column family, the count is that of the
    transaction's own column family: the database it was asked of is not looked at. *)
Lemma getCount_ignores_database fuel db own here o :
  Database_GetCount fuel db (Some (Some (own, here))) o = Database_GetCount fuel own None o.
Proof. done. Qed.

(** After [return] or [throw] the iterator is closed: [next] reports it. *)
Lemma closed_next h sh : Next (snd (Return h)) sh
  = match ih_iterator h with
    | Some _ => (inl (DBException "Next failed: Iterator not initialized"), close h, sh)
    | None => (inl (DBException "Next failed: Iterator not initialized"), h, sh)
    end.
Proof. unfold Return, Next. by destruct (ih_iterator h) eqn:E; cbn; rewrite ?E. Qed.
End Proofs.

(** ** The list iterator keeps the laws *)

Definition li_at (it : list_iter) : option nat :=
  i ← li_pos it; if (i <? length (li_items it))%nat then Some i else None.

#[export] Instance list_iter_laws : @RocksIterLaws list_rocks_iter.
Proof.
  refine {| it_items := li_items; it_pos := li_at |}; try done.
  - intros it. cbn -[Nat.ltb]. unfold li_at. destruct (li_pos it) as [i|]; [|done]. cbn -[Nat.ltb]. by destruct (i <? _)%nat.
  - intros it i. cbn -[Nat.ltb]. unfold li_at, li_entry. destruct (li_pos it) as [j|]; [|done]. cbn -[Nat.ltb].
    destruct (j <? length (li_items it))%nat eqn:E; [|done]. intros [= <-]. apply Nat.ltb_lt in E.
    destruct (lookup_lt_is_Some_2 _ _ E) as [[k v] ->]. done.
  - intros it. cbn -[Nat.ltb]. unfold li_at. cbn -[Nat.ltb]. by destruct (li_items it).
  - intros it. cbn -[Nat.ltb]. unfold li_at. cbn -[Nat.ltb]. destruct (length (li_items it)) as [|n] eqn:E; [done|]. cbn -[Nat.ltb].
    by rewrite (proj2 (Nat.ltb_lt n (S n))) by lia.
  - intros it i. cbn -[Nat.ltb]. unfold li_at. destruct (li_pos it) as [j|]; [|done]. cbn -[Nat.ltb].
    destruct (j <? length (li_items it))%nat; [|done]. intros [= ->]. cbn -[Nat.ltb].
    destruct (S i <? length (li_items it))%nat eqn:E; [|done]. cbn -[Nat.ltb]. by rewrite E.
  - intros it i. cbn -[Nat.ltb]. unfold li_at. destruct (li_pos it) as [j|]; [|done]. cbn -[Nat.ltb].
    destruct (j <? length (li_items it))%nat eqn:E; [|done]. intros [= ->]. cbn -[Nat.ltb]. apply Nat.ltb_lt in E.
    destruct i as [|i]; [done|]. cbn -[Nat.ltb]. by rewrite (proj2 (Nat.ltb_lt i (length (li_items it)))) by lia.
Defined.

(** ** Witnesses *)

Definition demo_db : list entry :=
  [([Byte.x61], [Byte.x31]); ([Byte.x62], [Byte.x32]); ([Byte.x62; Byte.x00], [Byte.x33]); ([Byte.x63], [Byte.x34])].

Lemma demo_sorted : StronglySorted key_lt demo_db.
Proof. repeat constructor. Defined.

(** From [a], excluded, to [b], included, backwards, with values. *)
Lemma iterator_yields_witness :
  exists h, Constructor demo_db (Some [Byte.x61; Byte.x62]) 0x0F 1 1 2 = inr h /\
    drain 6 h (mkShared (Some (repeat Byte.x00 8)) None (Some (0, 0))) = ([([Byte.x62], Some [Byte.x32])], true).
Proof.
  exact (iterator_yields demo_db [Byte.x61; Byte.x62] 0x0F 1 1 2 (mkShared (Some (repeat Byte.x00 8)) None (Some (0, 0)))
    demo_sorted ltac:(split; [intros b [= <-]; vm_compute; reflexivity | done])
    ltac:(vm_compute; discriminate) ltac:(lia) ltac:(vm_compute; discriminate)).
Defined.

