(* ===== verification/BackupLogs.v ===== *)
(** * Backing up the transaction logs

    [database/backup_transaction_logs.cpp]: copying the snapshot of the logs into a
    staging directory and publishing it with one rename.

    Files are inodes with names: a log file has a name in the log directory, and a
    hard link gives its inode a second name under the backup directory, so a write
    through one name is seen through the other.  The tree under the backup's
    [transaction_logs] is a map of directories, each a map from store and file name
    to an inode.  The rest of the process runs between any two system calls:
    [be_step] is what it did before the n-th (it appends to the current log file
    and unlinks purged ones).  [b_hist] lists every state the disk went through, so
    that a crash at any moment is one of its members.  Returning a status that is
    not OK is [DBException]; what [fsync] makes durable is not modelled. *)

From S2P Require Import Prelude Encoding LogFormat Os LogFile LogStore.
From stdpp Require Import base tactics list gmap strings.
From coqutil Require Import Byte.
From Stdlib Require Import ZArith Lia.

Local Open Scope Z_scope.

(** ** The disk *)

Abbreviation file_key := (string * string)%type.

Record BW := mkBW {
  bw_inodes : gmap Z inode;
  bw_src : gmap string Z;                       (* log files by path *)
  bw_tree : gmap string (gmap file_key Z);      (* <directory>/<store>/<file> *)
  bw_next : Z
}.

Class BackupEnv := {
  be_fails : nat -> bool;          (* the n-th call fails *)
  be_remove_fails : nat -> bool;   (* remove() *)
  be_stat_fails : nat -> bool;     (* exists() with an error code *)
  be_nosync : nat -> bool;         (* EINVAL or ENOTSUP from fsync on a directory *)
  be_step : nat -> BW -> BW
}.

Record BSt := mkBSt { b_w : BW; b_n : nat; b_hist : list BW }.

Abbreviation BM := (M BSt).

Record NamedTransactionLogBackupEntry := mkNamed { ne_storeName : string; ne_file : TransactionLogBackupEntry }.

Definition ne_key (e : NamedTransactionLogBackupEntry) : file_key := (ne_storeName e, relativeName (ne_file e)).

Definition TRANSACTION_LOG_STAGING_PREFIX : string := ".staging-".

Section Backup.
Context {BE : BackupEnv}.

(** A system call: the rest of the process runs up to it; [true] when it succeeds. *)
Definition call (fails : nat -> bool) : BM bool := fun s =>
  let w := be_step (b_n s) (b_w s) in
  (inr (negb (fails (b_n s))), mkBSt w (S (b_n s)) (b_hist s ++ [w])).

Definition change (f : BW -> BW) : BM unit := fun s =>
  (inr tt, mkBSt (f (b_w s)) (b_n s) (b_hist s ++ [f (b_w s)])).

Definition set_inode (id : Z) (i : inode) (w : BW) : BW :=
  mkBW (<[id := i]> (bw_inodes w)) (bw_src w) (bw_tree w) (bw_next w).
Definition set_tree (f : gmap string (gmap file_key Z) -> gmap string (gmap file_key Z)) (w : BW) : BW :=
  mkBW (bw_inodes w) (bw_src w) (f (bw_tree w)) (bw_next w).

Definition files_of (dir : string) (w : BW) : gmap file_key Z := default ∅ (bw_tree w !! dir).
Definition data_of (id : Z) (w : BW) : bytes := from_option i_data [] (bw_inodes w !! id).
Definition mtime_of (id : Z) (w : BW) : Z := from_option i_mtime 0 (bw_inodes w !! id).

(** The caller returns the status [msg] unless the call succeeded. *)
Definition require (msg : string) (m : BM bool) : BM unit :=
  ok ← m; if ok : bool then mret tt else throw (DBException msg).

Definition create_directories (dir : string) : BM bool :=
  ok ← call be_fails;
  (if ok : bool then change (set_tree (fun t => match t !! dir with None => <[dir := ∅]> t | Some _ => t end)) else mret tt);;
  mret ok.

(** [std::ofstream out(dst, std::ios::trunc)]: an existing file is truncated in
    place. *)
Definition open_trunc (dir : string) (k : file_key) : BM (option Z) :=
  ok ← call be_fails;
  if negb ok then mret None
  else
    w ← gets b_w;
    match files_of dir w !! k with
    | Some id => change (set_inode id (mkInode [] (mtime_of id w)));; mret (Some id)
    | None =>
        change (fun w => mkBW (<[bw_next w := mkInode [] 0]> (bw_inodes w)) (bw_src w)
                           (<[dir := <[k := bw_next w]> (files_of dir w)]> (bw_tree w)) (bw_next w + 1));;
        mret (Some (bw_next w))
    end.

Definition write_inode (id : Z) (b : bytes) : BM bool :=
  ok ← call be_fails;
  (if ok : bool then change (fun w => set_inode id (mkInode (data_of id w ++ b) (mtime_of id w)) w) else mret tt);;
  mret ok.

Definition set_mtime (id : Z) (t : Z) : BM bool :=
  ok ← call be_fails;
  (if ok : bool then change (fun w => set_inode id (mkInode (data_of id w) t) w) else mret tt);;
  mret ok.

(** ** Copying *)

Definition syncFile : BM unit :=
  require "Failed to open backup transaction log file for sync" (call be_fails);;
  require "Failed to sync backup transaction log file" (call be_fails).

Definition syncDirectory : BM unit :=
  require "Failed to open backup log directory for sync" (call be_fails);;
  n ← gets b_n;
  require "Failed to sync backup log directory" (ok ← call be_fails; mret (ok || be_nosync n)).

(** The loop of [copyPrefixWithMtime], [pos] bytes into the source. *)
Fixpoint copy_loop (fuel : nat) (src dst : Z) (pos remaining : Z) : BM unit :=
  if remaining <=? 0 then mret tt
  else
    match fuel with
    | O => throw (Diverges "copyPrefixWithMtime")
    | S fuel =>
        let toRead := Z.min remaining 65536 in
        require "Failed to read transaction log file" (call be_fails);;
        w ← gets b_w;
        let got := take (Z.to_nat toRead) (drop (Z.to_nat pos) (data_of src w)) in
        if (length got =? 0)%nat then throw (DBException "Transaction log file shorter than recorded size")
        else
          require "Failed to write backup transaction log file" (write_inode dst got);;
          let n := Z.of_nat (length got) in
          copy_loop fuel src dst (pos + n) (remaining - n)
    end.

Definition copyPrefixWithMtime (path dir : string) (k : file_key) (limit mtime : Z) : BM unit :=
  ok ← call be_fails;
  w ← gets b_w;
  match bw_src w !! path with
  | Some src =>
      if negb ok then throw (DBException "Failed to open transaction log file")
      else
        out ← open_trunc dir k;
        match out with
        | None => throw (DBException "Failed to create backup transaction log file")
        | Some dst =>
            copy_loop (S (Z.to_nat limit)) src dst 0 limit;;
            require "Failed to flush backup transaction log file" (call be_fails);;
            require "Failed to preserve transaction log mtime" (set_mtime dst mtime)
        end
  | None => throw (DBException "Failed to open transaction log file")
  end.

Definition writeBytesWithMtime (dir : string) (k : file_key) (contents : bytes) (mtime : Z) : BM unit :=
  out ← open_trunc dir k;
  match out with
  | None => throw (DBException "Failed to create backup transaction log file")
  | Some dst =>
      ok ← write_inode dst contents;
      require "Failed to write backup transaction log file" (ok' ← call be_fails; mret (ok && ok'));;
      require "Failed to preserve transaction log mtime" (set_mtime dst mtime)
  end.

(** [create_hard_link]: it fails when the source is gone or the name is taken. *)
Definition create_hard_link (path dir : string) (k : file_key) : BM bool :=
  ok ← call be_fails;
  w ← gets b_w;
  match bw_src w !! path, files_of dir w !! k with
  | Some id, None =>
      if ok : bool then
        change (set_tree (fun t => <[dir := <[k := id]> (default ∅ (t !! dir))]> t));; mret true
      else mret false
  | _, _ => mret false
  end.

(** [!exists(path, ec) || ec] *)
Definition missing (path : string) : BM bool :=
  n ← gets b_n;
  _ ← call be_fails;
  w ← gets b_w;
  mret (be_stat_fails n || match bw_src w !! path with Some _ => false | None => true end).

Definition remove_file (dir : string) (k : file_key) : BM unit :=
  ok ← call be_remove_fails;
  if ok : bool then change (set_tree (fun t => <[dir := delete k (default ∅ (t !! dir))]> t)) else mret tt.

(** One turn of the loop of [copySnapshotEntries]. *)
Definition copy_entry (dir : string) (sync : bool) (e : NamedTransactionLogBackupEntry) : BM unit :=
  let f := ne_file e in
  require "Failed to create backup log directory" (create_directories dir);;
  if negb (length (inlineContents f) =? 0)%nat then
    writeBytesWithMtime dir (ne_key e) (inlineContents f) (be_mtime f);;
    when sync syncFile
  else
    linked ← (if immutable f then create_hard_link (sourcePath f) dir (ne_key e) else mret false);
    if linked : bool then when sync syncFile
    else
      copied ← catch (copyPrefixWithMtime (sourcePath f) dir (ne_key e) (byteLimit f) (be_mtime f);; mret (inr tt))
                 (fun err => mret (inl err));
      match copied with
      | inl err =>
          gone ← missing (sourcePath f);
          if gone : bool then remove_file dir (ne_key e) else throw err
      | inr _ => when sync syncFile
      end.

Fixpoint copy_entries (dir : string) (sync : bool) (es : list NamedTransactionLogBackupEntry) : BM unit :=
  match es with
  | [] => mret tt
  | e :: es => copy_entry dir sync e;; copy_entries dir sync es
  end.

(** The directories of the stores, each once. *)
Fixpoint sync_directories (n : nat) : BM unit :=
  match n with
  | O => mret tt
  | S n => syncDirectory;; sync_directories n
  end.

Definition store_dirs (es : list NamedTransactionLogBackupEntry) : nat := length (remove_dups (ne_storeName <$> es)).

Definition copySnapshotEntries (dir : string) (es : list NamedTransactionLogBackupEntry) (sync : bool) : BM unit :=
  copy_entries dir sync es;;
  when sync (
    sync_directories (store_dirs es);;
    when (negb (store_dirs es =? 0)%nat) syncDirectory).

(** ** Publishing *)

(** [rename(staging, final)]: a directory replaces only an empty one. *)
Definition rename (staging final : string) : BM bool :=
  ok ← call be_fails;
  w ← gets b_w;
  match bw_tree w !! staging with
  | Some files =>
      if ok && (match bw_tree w !! final with Some old => bool_decide (old = ∅) | None => true end) then
        change (set_tree (fun t => <[final := files]> (delete staging t)));; mret true
      else mret false
  | None => mret false
  end.

Definition remove_tree (dir : string) : BM unit :=
  ok ← call be_remove_fails;
  if ok : bool then change (set_tree (delete dir)) else mret tt.

Definition backupTransactionLogsToDir (es : list NamedTransactionLogBackupEntry) (final : string) (sync : bool) : BM unit :=
  match es with
  | [] => mret tt
  | _ :: _ =>
      let staging := TRANSACTION_LOG_STAGING_PREFIX +:+ final in
      catch
        (copySnapshotEntries staging es sync;;
         require "Failed to publish transaction log snapshot" (rename staging final);;
         when sync syncDirectory)
        (fun err => remove_tree staging;; throw err)
  end.

(** The names [removeStaleTransactionLogStaging] sweeps. *)
Definition is_staging (dir : string) : bool := String.prefix TRANSACTION_LOG_STAGING_PREFIX dir.

Fixpoint sweep_staging (dirs : list string) : BM unit :=
  match dirs with
  | [] => mret tt
  | d :: dirs => (if is_staging d then remove_tree d else mret tt);; sweep_staging dirs
  end.

Definition removeStaleTransactionLogStaging : BM unit :=
  ok ← call be_fails;
  w ← gets b_w;
  if ok : bool then sweep_staging ((map_to_list (bw_tree w)).*1) else mret tt.

End Backup.

(** [collectTransactionLogBackupEntries], from the snapshot of each store. *)
Definition collectTransactionLogBackupEntries (stores : list (string * list TransactionLogBackupEntry))
  : list NamedTransactionLogBackupEntry :=
  stores ≫= (fun '(name, files) => mkNamed name <$> files).
