(* ===== verification/BackupLogsProofs.v ===== *)
(** * Backing up the transaction logs: crash atomicity

    At every moment the final directory is absent or holds the complete snapshot,
    and the log files themselves are never written. *)

From S2P Require Import Prelude Encoding LogFormat Os LogFile LogStore BackupLogs.
From stdpp Require Import base tactics list gmap strings.
From coqutil Require Import Byte.
From Stdlib Require Import ZArith Lia.

Local Open Scope Z_scope.

(** ** What the rest of the process may do *)

(** While the backup runs, the process appends to the files in [growing] and unlinks
    log files; it touches neither rotated files nor the backup. *)
Record env_ok {BE : BackupEnv} (growing : Z -> Prop) : Prop := {
  eo_tree n w : bw_tree (be_step n w) = bw_tree w;
  eo_next n w : bw_next (be_step n w) = bw_next w;
  eo_src n w p id : bw_src (be_step n w) !! p = Some id -> bw_src w !! p = Some id;
  eo_same n w id : ~ growing id -> bw_inodes (be_step n w) !! id = bw_inodes w !! id;
  eo_grow n w id i : bw_inodes w !! id = Some i ->
    exists more t, bw_inodes (be_step n w) !! id = Some (mkInode (i_data i ++ more) t)
}.

Section Backup.
Context {BE : BackupEnv} (growing : Z -> Prop) (EO : env_ok growing).
Context (w0 : BW) (es : list NamedTransactionLogBackupEntry) (final : string).

Definition staging : string := TRANSACTION_LOG_STAGING_PREFIX +:+ final.

(** The bytes an entry of the snapshot stands for. *)
Definition entry_bytes (e : NamedTransactionLogBackupEntry) : bytes :=
  let f := ne_file e in
  if (length (inlineContents f) =? 0)%nat then
    match bw_src w0 !! sourcePath f with
    | Some id => take (Z.to_nat (byteLimit f)) (data_of id w0)
    | None => []
    end
  else inlineContents f.

(** What the snapshot says of an entry is true of the disk it was taken from: the
    file has the recorded bytes, and a rotated file has no others. *)
Definition entry_ok (e : NamedTransactionLogBackupEntry) : Prop :=
  let f := ne_file e in
  length (inlineContents f) = O -> 0 <= byteLimit f /\
  forall id, bw_src w0 !! sourcePath f = Some id ->
    exists i, bw_inodes w0 !! id = Some i /\ byteLimit f <= Z.of_nat (length (i_data i)) /\
      (immutable f = true -> ~ growing id /\ Z.of_nat (length (i_data i)) = byteLimit f /\ i_mtime i = be_mtime f).

(** The disk the backup starts from: nothing under the two names, and every inode
    has an address below [bw_next]. *)
Record start_ok : Prop := {
  so_final : bw_tree w0 !! final = None;
  so_staging : bw_tree w0 !! staging = None;
  so_src : forall p id, bw_src w0 !! p = Some id -> id < bw_next w0;
  so_inodes : forall id, is_Some (bw_inodes w0 !! id) -> id < bw_next w0;
  so_growing : forall id, growing id -> id < bw_next w0;
  so_entries : Forall entry_ok es;
  so_keys : NoDup (ne_key <$> es)
}.

(** A log file is as it was, or longer if it grows. *)
Definition live (w : BW) : Prop := forall id i, bw_inodes w0 !! id = Some i ->
  exists i', bw_inodes w !! id = Some i' /\ i_data i `prefix_of` i_data i' /\ (~ growing id -> i' = i).

(** An entry is in the directory [files] with its bytes and its time, or its file was
    purged. *)
Definition entry_done (files : gmap file_key Z) (w : BW) (e : NamedTransactionLogBackupEntry) : Prop :=
  match files !! ne_key e with
  | Some id => data_of id w = entry_bytes e /\ mtime_of id w = be_mtime (ne_file e)
  | None => length (inlineContents (ne_file e)) = O /\ bw_src w !! sourcePath (ne_file e) = None
  end.

(** The snapshot is all there, and nothing else. *)
Definition complete (files : gmap file_key Z) (w : BW) : Prop :=
  Forall (entry_done files w) es /\ forall k, is_Some (files !! k) -> k ∈ ne_key <$> es.

Record base (w : BW) : Prop := {
  ba_final : bw_tree w !! final = None;
  ba_live : live w;
  ba_src : forall p id, bw_src w !! p = Some id -> bw_src w0 !! p = Some id;
  ba_next : bw_next w0 <= bw_next w;
  ba_ids : forall k id, files_of staging w !! k = Some id -> id < bw_next w /\ ~ growing id;
  ba_inodes : forall id, is_Some (bw_inodes w !! id) -> id < bw_next w;
  ba_keys : forall k, is_Some (files_of staging w !! k) -> k ∈ ne_key <$> es
}.

Record good (D T : list NamedTransactionLogBackupEntry) (w : BW) : Prop := {
  go_base : base w;
  go_done : Forall (entry_done (files_of staging w) w) D;
  go_todo : Forall (fun e => files_of staging w !! ne_key e = None) T
}.

(** [c] is the new inode under the name [k], which no entry of [D] uses. *)
Record current (c : Z) (k : file_key) (D : list NamedTransactionLogBackupEntry) (w : BW) : Prop := {
  cu_new : bw_next w0 <= c;
  cu_file : files_of staging w !! k = Some c;
  cu_inode : is_Some (bw_inodes w !! c);
  cu_other : Forall (fun e => files_of staging w !! ne_key e <> Some c) D
}.

Context (SO : start_ok).

Lemma new_not_growing c : bw_next w0 <= c -> ~ growing c.
Proof. intros H Hg. apply (so_growing SO) in Hg. lia. Qed.

(** ** The rest of the process *)

Lemma files_step n w : files_of staging (be_step n w) = files_of staging w.
Proof. unfold files_of. by rewrite (eo_tree _ EO). Qed.

Lemma data_step n w id : ~ growing id ->
  data_of id (be_step n w) = data_of id w /\ mtime_of id (be_step n w) = mtime_of id w.
Proof. intros H. unfold data_of, mtime_of. by rewrite (eo_same _ EO). Qed.

Lemma live_step n w : live w -> live (be_step n w).
Proof.
  intros Hl id i Hi. destruct (Hl id i Hi) as (i' & Hi' & Hp & Heq).
  destruct (eo_grow _ EO n w id i' Hi') as (more & t & Hs). eexists. split; [exact Hs|]. split.
  - cbn. etrans; [exact Hp|]. by exists more.
  - intros Hng. rewrite (eo_same _ EO) in Hs by done. rewrite Hi' in Hs. injection Hs as <-. auto.
Qed.

Lemma base_step n w : base w -> base (be_step n w).
Proof.
  intros [H1 H2 H3 H4 H5 H6 H7]. constructor; rewrite ?files_step, ?(eo_tree _ EO), ?(eo_next _ EO); try done.
  - by apply live_step.
  - intros p id Hp. apply (eo_src _ EO) in Hp. auto.
  - intros id Hid. destruct (bw_inodes w !! id) as [i|] eqn:E; [by apply H6; exists i|].
    destruct (decide (id < bw_next w)) as [|Hge]; [done|].
    rewrite (eo_same _ EO), E in Hid; [by destruct Hid|]. apply new_not_growing. lia.
Qed.

Lemma entry_done_step n w e files : (forall id, files !! ne_key e = Some id -> ~ growing id) ->
  entry_done files w e -> entry_done files (be_step n w) e.
Proof.
  unfold entry_done. intros Hg H. destruct (files !! ne_key e) as [id|].
  - destruct (data_step n w id) as [-> ->]; [by apply Hg|done].
  - destruct H as [Hi Hs]. split; [done|]. apply eq_None_not_Some. intros [id Hid].
    apply (eo_src _ EO) in Hid. congruence.
Qed.

Lemma staged_step n D T w : good D T w -> good D T (be_step n w).
Proof.
  intros [Hb Hd Ht]. constructor; rewrite ?files_step; [by apply base_step| |done].
  eapply Forall_impl; [exact Hd|]. intros e. apply entry_done_step. intros id Hid. by apply (ba_ids _ Hb) in Hid as [_ ?].
Qed.

Lemma current_step n c k D w : current c k D w -> current c k D (be_step n w).
Proof.
  intros [H1 H2 [i Hi] H4]. constructor; rewrite ?files_step; try done.
  destruct (eo_grow _ EO n w c i Hi) as (more & t & ->). by eexists.
Qed.

(** ** Writing to a new file *)

Lemma base_write c i w : bw_next w0 <= c -> is_Some (bw_inodes w !! c) -> base w -> base (set_inode c i w).
Proof.
  intros Hc Hin [H1 H2 H3 H4 H5 H6 H7]. constructor; cbn; try done.
  - intros id j Hj. destruct (H2 id j Hj) as (j' & Hj' & Hp & Heq). exists j'. split; [|done].
    cbn. rewrite lookup_insert_ne; [done|]. intros <-.
    assert (c < bw_next w0) by (apply (so_inodes SO); by eexists). lia.
  - intros id Hid. destruct (decide (id = c)) as [->|Hne]; [by apply H6|]. rewrite lookup_insert_ne in Hid by done. by apply H6.
Qed.

Lemma good_write c k i D T w : current c k D w -> good D T w -> good D T (set_inode c i w).
Proof.
  intros [C1 C2 C3 C4] [Hb Hd Ht]. constructor; [by apply base_write| |done].
  rewrite Forall_forall in Hd, C4 |- *. intros e He. specialize (Hd e He). specialize (C4 e He).
  change (files_of staging (set_inode c i w)) with (files_of staging w). unfold entry_done in *.
  destruct (files_of staging w !! ne_key e) as [id|]; [|done].
  unfold data_of, mtime_of in *. cbn. by rewrite lookup_insert_ne by congruence.
Qed.

Lemma current_write c k i D w : current c k D w -> current c k D (set_inode c i w).
Proof. intros [C1 C2 C3 C4]. constructor; try done. cbn. rewrite lookup_insert_eq. by eexists. Qed.

(** ** Reading the source *)

Lemma source_data e id w n : entry_ok e -> length (inlineContents (ne_file e)) = O -> base w ->
  bw_src w0 !! sourcePath (ne_file e) = Some id -> (n <= Z.to_nat (byteLimit (ne_file e)))%nat ->
  take n (data_of id w) = take n (entry_bytes e) /\ length (entry_bytes e) = Z.to_nat (byteLimit (ne_file e)).
Proof.
  intros Hok Hi Hb Hsrc Hn. destruct (Hok Hi) as [H0 Hid]. destruct (Hid id Hsrc) as (i & Hi0 & Hlen & _).
  destruct (ba_live _ Hb id i Hi0) as (i' & Hi' & [more Hm] & _).
  unfold entry_bytes. rewrite Hi, Hsrc. cbn. unfold data_of. rewrite Hi', Hi0. cbn.
  rewrite Hm, take_take, length_take, take_app_le by lia. split; [f_equal; lia|lia].
Qed.

(** ** States *)

(** Every state so far had nothing under the final name, and the last satisfies [P]. *)
Definition holds (P : BW -> Prop) (s : BSt) : Prop := Forall base (b_hist s) /\ P (b_w s).

Definition stable (P : BW -> Prop) : Prop := (forall n w, P w -> P (be_step n w)) /\ (forall w, P w -> base w).

Lemma triple_call P fails E : stable P -> triple (holds P) (call fails) (fun _ => holds P) E.
Proof.
  intros [Hs Hb] s [Hh HP]. cbn. split; cbn; [|by apply Hs].
  apply Forall_app. split; [done|]. apply Forall_singleton. by apply Hb, Hs.
Qed.

Lemma triple_change P Q f E : (forall w, P w -> Q (f w)) -> (forall w, Q w -> base w) ->
  triple (holds P) (change f) (fun _ => holds Q) E.
Proof.
  intros HPQ Hb s [Hh HP]. cbn. split; cbn; [|by apply HPQ].
  apply Forall_app. split; [done|]. apply Forall_singleton. by apply Hb, HPQ.
Qed.

Lemma triple_require P Q msg m : triple (holds P) m (fun _ => holds Q) (holds Q) ->
  triple (holds P) (require msg m) (fun _ => holds Q) (holds Q).
Proof.
  intros Hm. unfold require. eapply triple_bind; [exact Hm|]. intros [|]; [by apply triple_ret|by apply triple_throw].
Qed.

Lemma stable_good D T : stable (good D T).
Proof. split; [intros n w; apply staged_step|by intros w []]. Qed.

Lemma stable_base : stable base.
Proof. split; [intros n w; apply base_step|done]. Qed.

Lemma triple_weak {A} (P P' : BSt -> Prop) (m : BM A) Q Q' (E E' : BSt -> Prop) :
  triple P m Q E -> (forall s, P' s -> P s) -> (forall a s, Q a s -> Q' a s) -> (forall s, E s -> E' s) -> triple P' m Q' E'.
Proof. apply triple_conseq. Qed.

Lemma holds_impl (P Q : BW -> Prop) s : (forall w, P w -> Q w) -> holds P s -> holds Q s.
Proof. intros H [? ?]. split; auto. Qed.

Lemma triple_gets_w {A} (P : BW -> Prop) (f : BW -> A) (k : A -> BM unit) Q E :
  (forall w, P w -> triple (fun s => holds P s /\ b_w s = w) (k (f w)) Q E) ->
  triple (holds P) (a ← gets (fun s => f (b_w s)); k a) Q E.
Proof. intros H s Hs. apply (H (b_w s)); [apply Hs|]. done. Qed.

Lemma staging_ne_final : staging <> final.
Proof.
  intros H. apply (f_equal String.length) in H. unfold staging, TRANSACTION_LOG_STAGING_PREFIX in H.
  unfold String.app in H. simpl in H. lia.
Qed.

(** The staging directory with a name added to it. *)
Lemma files_insert t w files : files_of staging (mkBW (bw_inodes w) (bw_src w) (<[staging := files]> t) (bw_next w)) = files.
Proof. unfold files_of. cbn. by rewrite lookup_insert_eq. Qed.

(** A new name [k] for the inode [id], which may be new itself. *)
Lemma good_name k id inodes' next' D T w : good D T w -> files_of staging w !! k = None ->
  k ∈ ne_key <$> es -> k ∉ ne_key <$> D -> k ∉ ne_key <$> T ->
  bw_next w <= next' -> id < next' -> ~ growing id ->
  (forall x, x < bw_next w -> inodes' !! x = bw_inodes w !! x) -> (forall x, is_Some (inodes' !! x) -> x < next') ->
  good D T (mkBW inodes' (bw_src w) (<[staging := <[k := id]> (files_of staging w)]> (bw_tree w)) next').
Proof.
  intros [[B1 B2 B3 B4 B5 B6 B7] Hd Ht] Hk Hes HD HT Hn Hid Hg Hin Hlt.
  set (w' := mkBW _ _ _ _).
  assert (files_of staging w' = <[k := id]> (files_of staging w)) as Hf by (unfold files_of; cbn; by rewrite lookup_insert_eq).
  constructor.
  - constructor; rewrite ?Hf; cbn; try done; try lia.
    + rewrite lookup_insert_ne by apply staging_ne_final. done.
    + intros x i Hi. destruct (B2 x i Hi) as (i' & Hi' & Hp). exists i'. split; [|done].
      rewrite Hin; [done|]. apply B6. by eexists.
    + intros k' x [[<- <-]|[_ Hx]]%lookup_insert_Some; [done|]. apply B5 in Hx as [? ?]. split; [lia|done].
    + intros k' [x [[<- <-]|[_ Hx]]%lookup_insert_Some]; [done|]. apply B7. by eexists.
  - rewrite Hf. rewrite Forall_forall in Hd |- *. intros e He. specialize (Hd e He).
    assert (ne_key e <> k) as Hne by (intros <-; apply HD, list_elem_of_fmap; by exists e).
    unfold entry_done in *. rewrite lookup_insert_ne by done.
    destruct (files_of staging w !! ne_key e) as [x|] eqn:Ex; [|done].
    apply B5 in Ex as [Ex _]. unfold data_of, mtime_of in *. cbn. by rewrite Hin.
  - rewrite Hf. rewrite Forall_forall in Ht |- *. intros e He. rewrite lookup_insert_ne; [by apply Ht|].
    intros ->. apply HT, list_elem_of_fmap. by exists e.
Qed.

Lemma open_trunc_triple k D T : k ∈ ne_key <$> es -> k ∉ ne_key <$> D -> k ∉ ne_key <$> T ->
  triple (holds (fun w => good D T w /\ files_of staging w !! k = None)) (open_trunc staging k)
    (fun r => match r with
              | Some c => holds (fun w => good D T w /\ current c k D w /\ data_of c w = [])
              | None => holds (good D T)
              end) (holds (good D T)).
Proof.
  intros Hes HD HT. unfold open_trunc. eapply triple_bind.
  { apply triple_call. split; [intros n w [H1 H2]; split; [by apply staged_step|by rewrite files_step]|by intros w [[] _]]. }
  intros [|]; cbn [negb]; [|apply triple_ret; intros s; apply holds_impl; by intros w []].
  intros s [Hh [Hg Hk]]. mrun. cbn -[files_of]. rewrite Hk. cbn.
  assert (bw_inodes (b_w s) !! bw_next (b_w s) = None) as Hnone.
  { apply eq_None_not_Some. intros H. apply (ba_inodes _ (go_base _ _ _ Hg)) in H. lia. }
  pose proof (ba_next _ (go_base _ _ _ Hg)) as Hnx.
  match goal with |- holds _ (mkBSt ?w' _ _) => assert (good D T w') as Hg' end.
  { apply (good_name k); try done; try lia; [apply new_not_growing; lia| |].
    - intros x Hx. rewrite lookup_insert_ne by lia. done.
    - intros x Hx. destruct (decide (x = bw_next (b_w s))) as [->|Hne]; [lia|]. rewrite lookup_insert_ne in Hx by done.
      apply (ba_inodes _ (go_base _ _ _ Hg)) in Hx. lia. }
  split; cbn; [apply Forall_app; split; [done|]; apply Forall_singleton, Hg'|]. split; [done|]. split.
  - constructor; cbn; try done.
    + unfold files_of. cbn. rewrite lookup_insert_eq. cbn. by rewrite lookup_insert_eq.
    + rewrite lookup_insert_eq. by eexists.
    + apply Forall_forall. intros e He Hx. unfold files_of in Hx. cbn in Hx. rewrite lookup_insert_eq in Hx. cbn in Hx.
      rewrite lookup_insert_ne in Hx by (intros ->; apply HD, list_elem_of_fmap; by exists e).
      apply (ba_ids _ (go_base _ _ _ Hg)) in Hx. lia.
  - unfold data_of. cbn. by rewrite lookup_insert_eq.
Qed.

(** The new file with the contents [b]. *)
Definition holding (c : Z) (k : file_key) (D T : list NamedTransactionLogBackupEntry) (b : bytes) (w : BW) : Prop :=
  good D T w /\ current c k D w /\ data_of c w = b.

Lemma stable_holding c k D T b : stable (holding c k D T b).
Proof.
  split; [|by intros w [[] _]]. intros n w (Hg & Hc & Hd). split_and!; [by apply staged_step|by apply current_step|].
  rewrite <- Hd. apply data_step, new_not_growing, (cu_new _ _ _ _ Hc).
Qed.

Lemma holding_good c k D T b s : holds (holding c k D T b) s -> holds (good D T) s.
Proof. apply holds_impl. by intros w []. Qed.

Lemma triple_seq_ret {A} (P : BSt -> Prop) (m : BM unit) (a : A) Q E :
  triple P m (fun _ => Q a) E -> triple P (m;; mret a) Q E.
Proof. intros Hm. eapply triple_bind; [exact Hm|]. intros []. by apply triple_ret. Qed.

Lemma write_inode_triple c k D T b more :
  triple (holds (holding c k D T b)) (write_inode c more)
    (fun ok => if ok then holds (holding c k D T (b ++ more)) else holds (good D T)) (holds (good D T)).
Proof.
  unfold write_inode. eapply triple_bind; [apply triple_call, stable_holding|]. intros [|].
  - apply triple_seq_ret, triple_change; [|by intros w [[] _]]. intros w (Hg & Hc & Hd).
    split_and!; [by eapply good_write|by eapply current_write|].
    unfold data_of in *. cbn. rewrite lookup_insert_eq. cbn. by rewrite Hd.
  - apply triple_seq_ret, triple_ret. intros s. apply holding_good.
Qed.

Lemma set_mtime_triple c k D T b t :
  triple (holds (holding c k D T b)) (set_mtime c t)
    (fun ok => if ok then holds (fun w => holding c k D T b w /\ mtime_of c w = t) else holds (good D T)) (holds (good D T)).
Proof.
  unfold set_mtime. eapply triple_bind; [apply triple_call, stable_holding|]. intros [|].
  - apply triple_seq_ret, triple_change; [|by intros w [[[] _] _]]. intros w (Hg & Hc & Hd).
    split; [split_and!; [by eapply good_write|by eapply current_write|]|].
    + unfold data_of in *. cbn. rewrite lookup_insert_eq. done.
    + unfold mtime_of. cbn. by rewrite lookup_insert_eq.
  - apply triple_seq_ret, triple_ret. intros s. apply holding_good.
Qed.

(** [require] of a step whose failure loses only what was being written. *)
Lemma require_triple (P Q : BSt -> Prop) msg m E :
  triple P m (fun ok : bool => if ok then Q else E) E -> triple P (require msg m) (fun _ => Q) E.
Proof.
  intros Hm. unfold require. eapply triple_bind; [exact Hm|]. intros [|]; [by apply triple_ret|by apply triple_throw].
Qed.

Lemma call_require P msg fails E : stable P -> (forall s, holds P s -> E s) ->
  triple (holds P) (require msg (call fails)) (fun _ => holds P) E.
Proof.
  intros HP HE. apply require_triple. eapply triple_conseq; [exact (triple_call P fails E HP)|done| |done].
  intros [|] s Hs; [done|by apply HE].
Qed.

Lemma triple_at {A} (P : BSt -> Prop) w (m : BM A) Q E : triple P m Q E -> triple (fun s => P s /\ b_w s = w) m Q E.
Proof. intros H s [Hs _]. by apply H. Qed.

(** ** Copying a file *)

Lemma copy_loop_triple e src c k D T fuel pos remaining :
  entry_ok e -> length (inlineContents (ne_file e)) = O -> bw_src w0 !! sourcePath (ne_file e) = Some src ->
  0 <= pos -> 0 <= remaining -> pos + remaining = byteLimit (ne_file e) -> (Z.to_nat remaining <= fuel)%nat ->
  triple (holds (holding c k D T (take (Z.to_nat pos) (entry_bytes e)))) (copy_loop fuel src c pos remaining)
    (fun _ => holds (holding c k D T (entry_bytes e))) (holds (good D T)).
Proof.
  intros Hok Hin Hsrc. revert pos remaining. induction fuel as [|fuel IH]; intros pos remaining H0 H1 Hsum Hf; cbn [copy_loop].
  - assert (remaining = 0) as -> by lia. cbn. apply triple_ret. intros s. apply holds_impl. intros w (Hg & Hc & Hd).
    split_and!; try done. rewrite Hd. apply take_ge.
    destruct (source_data e src w 0 Hok Hin (go_base _ _ _ Hg) Hsrc ltac:(lia)) as [_ ->]. lia.
  - destruct (remaining <=? 0) eqn:Er; [apply Z.leb_le in Er|apply Z.leb_gt in Er].
    { apply triple_ret. intros s. apply holds_impl. intros w (Hg & Hc & Hd). split_and!; try done. rewrite Hd. apply take_ge.
      destruct (source_data e src w 0 Hok Hin (go_base _ _ _ Hg) Hsrc ltac:(lia)) as [_ ->]. lia. }
    eapply triple_bind; [apply call_require; [apply stable_holding|apply holding_good]|]. intros [].
    apply (triple_gets_w _ (fun w => w)). intros w (Hg & Hc & Hd).
    set (toRead := Z.min remaining 65536).
    destruct (source_data e src w (Z.to_nat (pos + toRead)) Hok Hin (go_base _ _ _ Hg) Hsrc ltac:(lia)) as [Hdata Hlen].
    assert (take (Z.to_nat toRead) (drop (Z.to_nat pos) (data_of src w))
            = take (Z.to_nat toRead) (drop (Z.to_nat pos) (entry_bytes e))) as ->.
    { rewrite !take_drop_commute. replace (Z.to_nat pos + Z.to_nat toRead)%nat with (Z.to_nat (pos + toRead)) by lia.
      by rewrite Hdata. }
    set (got := take (Z.to_nat toRead) (drop (Z.to_nat pos) (entry_bytes e))).
    assert (length got = Z.to_nat toRead) as Hgot by (unfold got; rewrite length_take, length_drop, Hlen; lia).
    rewrite (proj2 (Nat.eqb_neq (length got) 0)) by lia.
    apply triple_at.
    eapply triple_bind; [apply require_triple, write_inode_triple|]. intros [].
    replace (take (Z.to_nat pos) (entry_bytes e) ++ got) with (take (Z.to_nat (pos + Z.of_nat (length got))) (entry_bytes e)).
    + apply IH; lia.
    + replace (Z.to_nat (pos + Z.of_nat (length got))) with (Z.to_nat pos + Z.to_nat toRead)%nat by lia.
      symmetry. apply take_take_drop.
Qed.

(** What one entry leaves behind. *)
Definition placed (e : NamedTransactionLogBackupEntry) (D T : list NamedTransactionLogBackupEntry) (w : BW) : Prop :=
  good (e :: D) T w.

Lemma holding_placed e c D T w : holding c (ne_key e) D T (entry_bytes e) w -> mtime_of c w = be_mtime (ne_file e) ->
  placed e D T w.
Proof.
  intros ([Hb Hd Ht] & Hc & Hdata) Hm. constructor; try done. constructor; [|done].
  unfold entry_done. by rewrite (cu_file _ _ _ _ Hc).
Qed.

Definition fresh_name (e : NamedTransactionLogBackupEntry) (D T : list NamedTransactionLogBackupEntry) : Prop :=
  e ∈ es /\ ne_key e ∉ ne_key <$> D /\ ne_key e ∉ ne_key <$> T.

Lemma fresh_es e D T : fresh_name e D T -> ne_key e ∈ ne_key <$> es.
Proof. intros [He _]. apply list_elem_of_fmap. by exists e. Qed.

Definition nameless (e : NamedTransactionLogBackupEntry) (D T : list NamedTransactionLogBackupEntry) (w : BW) : Prop :=
  good D T w /\ files_of staging w !! ne_key e = None.

Lemma stable_nameless e D T : stable (nameless e D T).
Proof. split; [intros n w [H1 H2]; split; [by apply staged_step|by rewrite files_step]|by intros w [[] _]]. Qed.

Lemma nameless_good e D T s : holds (nameless e D T) s -> holds (good D T) s.
Proof. apply holds_impl. by intros w []. Qed.

Lemma copy_triple e D T : fresh_name e D T -> entry_ok e -> length (inlineContents (ne_file e)) = O ->
  triple (holds (nameless e D T))
    (copyPrefixWithMtime (sourcePath (ne_file e)) staging (ne_key e) (byteLimit (ne_file e)) (be_mtime (ne_file e)))
    (fun _ => holds (placed e D T)) (holds (good D T)).
Proof.
  intros Hf Hok Hin. pose proof Hf as (He & HD & HT). unfold copyPrefixWithMtime.
  eapply triple_bind; [apply triple_call, stable_nameless|]. intros ok.
  apply (triple_gets_w _ (fun w => w)). intros w [Hg _].
  apply triple_at.
  destruct (bw_src w !! sourcePath (ne_file e)) as [src|] eqn:Esrc; [|apply triple_throw, nameless_good].
  apply (ba_src _ (go_base _ _ _ Hg)) in Esrc.
  destruct ok; cbn [negb]; [|apply triple_throw, nameless_good].
  eapply triple_bind; [apply open_trunc_triple; [by eapply fresh_es|done|done]|].
  intros [c|]; [|apply triple_throw; done].
  destruct (Hok Hin) as [H0 _].
  eapply triple_bind.
  { eapply triple_conseq; [apply (copy_loop_triple e src c (ne_key e) D T _ 0 (byteLimit (ne_file e))); try done; lia| |done|done].
    intros s. apply holds_impl. intros w' (Hg' & Hc' & Hd'). split_and!; try done. }
  intros []. eapply triple_bind; [apply call_require; [apply stable_holding|apply holding_good]|]. intros [].
  eapply triple_conseq; [apply require_triple, set_mtime_triple|done| |done].
  intros ? s. apply holds_impl. intros w' [Hh Hm]. by eapply holding_placed.
Qed.

Lemma writeBytes_triple e D T : fresh_name e D T -> length (inlineContents (ne_file e)) <> O ->
  triple (holds (nameless e D T)) (writeBytesWithMtime staging (ne_key e) (inlineContents (ne_file e)) (be_mtime (ne_file e)))
    (fun _ => holds (placed e D T)) (holds (good D T)).
Proof.
  intros Hf Hin. pose proof Hf as (He & HD & HT). unfold writeBytesWithMtime.
  eapply triple_bind; [apply open_trunc_triple; [by eapply fresh_es|done|done]|].
  intros [c|]; [|apply triple_throw; done].
  assert (entry_bytes e = inlineContents (ne_file e)) as <-.
  { unfold entry_bytes. by rewrite (proj2 (Nat.eqb_neq _ _)). }
  eapply triple_bind; [apply write_inode_triple with (b := [])|]. cbn [app]. intros ok.
  eapply (triple_bind _ _ _ (fun _ => holds (holding c (ne_key e) D T (entry_bytes e)))).
  - apply require_triple. destruct ok; (eapply triple_bind; [apply triple_call; first [apply stable_holding | apply stable_good]|]);
      intros ok'; cbn; apply triple_ret; [|done]. intros s Hs. destruct ok'; [done|by eapply holding_good].
  - intros []. eapply triple_conseq; [apply require_triple, set_mtime_triple|done| |done].
    intros ? s. apply holds_impl. intros w' [Hh Hm]. by eapply holding_placed.
Qed.

Lemma link_triple e D T : fresh_name e D T -> entry_ok e -> length (inlineContents (ne_file e)) = O -> immutable (ne_file e) = true ->
  triple (holds (nameless e D T)) (create_hard_link (sourcePath (ne_file e)) staging (ne_key e))
    (fun ok => if ok then holds (placed e D T) else holds (nameless e D T)) (holds (good D T)).
Proof.
  intros Hf Hok Hin Him. pose proof Hf as (He & HD & HT). unfold create_hard_link.
  eapply triple_bind; [apply triple_call, stable_nameless|]. intros ok.
  intros s [Hh [Hg Hk]]. mrun. destruct (bw_src (b_w s) !! sourcePath (ne_file e)) as [id|] eqn:Esrc; [|done].
  rewrite Hk. destruct ok; [|done]. cbn.
  apply (ba_src _ (go_base _ _ _ Hg)) in Esrc. destruct (Hok Hin) as [_ Hid].
  destruct (Hid id Esrc) as (i & Hi & Hlen & Himm). destruct (Himm Him) as (Hng & Hlen' & Hmt).
  destruct (ba_live _ (go_base _ _ _ Hg) id i Hi) as (i' & Hi' & _ & Heq). rewrite (Heq Hng) in Hi'.
  assert (id < bw_next (b_w s)) as Hlt by (pose proof (so_src SO _ _ Esrc); pose proof (ba_next _ (go_base _ _ _ Hg)); lia).
  assert (good D T (set_tree (fun t => <[staging := <[ne_key e := id]> (default ∅ (t !! staging))]> t) (b_w s))) as Hg'.
  { apply (good_name (ne_key e) id (bw_inodes (b_w s)) (bw_next (b_w s))); try done; [by eapply fresh_es|apply (go_base _ _ _ Hg)]. }
  split; cbn; [apply Forall_app; split; [done|]; apply Forall_singleton, Hg'|].
  destruct Hg' as [Hb' Hd' Ht']. constructor; [done| |done]. constructor; [|done].
  unfold entry_done, files_of. cbn. rewrite lookup_insert_eq. cbn. rewrite lookup_insert_eq.
  unfold data_of, mtime_of, entry_bytes. cbn. rewrite Hi', Hin, Esrc. cbn. unfold data_of. rewrite Hi. cbn.
  split; [|done]. symmetry. apply take_ge. lia.
Qed.

Context (NoRemoveFail : forall n, be_remove_fails n = false) (NoStatFail : forall n, be_stat_fails n = false).

Lemma stable_placed e D T : stable (placed e D T).
Proof. apply stable_good. Qed.

Lemma sync_triple P : stable P -> triple (holds P) syncFile (fun _ => holds P) (holds base).
Proof.
  intros HP. assert (forall s, holds P s -> holds base s) as HE by (intros s; apply holds_impl, HP).
  unfold syncFile. eapply triple_bind; [by apply call_require|]. intros []. by apply call_require.
Qed.

Lemma when_sync_triple P sync : stable P -> triple (holds P) (when sync syncFile) (fun _ => holds P) (holds base).
Proof. intros HP. destruct sync; [by apply sync_triple|by apply triple_ret]. Qed.

(** An entry that was not copied: its file is gone and so is what was written of it,
    or the backup stops. *)
Lemma skip_triple e D T err : fresh_name e D T -> length (inlineContents (ne_file e)) = O ->
  triple (holds (good D T))
    (gone ← missing (sourcePath (ne_file e)); if gone : bool then remove_file staging (ne_key e) else throw err)
    (fun _ => holds (placed e D T)) (holds base).
Proof.
  intros Hf Hin. pose proof Hf as (He & HD & HT). unfold missing, remove_file.
  intros s [Hh Hg]. mrun. cbn. rewrite NoStatFail. cbn.
  pose proof (staged_step (b_n s) D T _ Hg) as Hg1. set (w1 := be_step (b_n s) (b_w s)) in *.
  destruct (bw_src w1 !! sourcePath (ne_file e)) as [id|] eqn:Esrc; cbn.
  { split; [apply Forall_app; split; [done|]; apply Forall_singleton|]; apply Hg1. }
  rewrite NoRemoveFail. cbn.
  pose proof (staged_step (S (b_n s)) D T _ Hg1) as Hg2. set (w2 := be_step (S (b_n s)) w1) in *.
  assert (bw_src w2 !! sourcePath (ne_file e) = None) as Esrc2.
  { apply eq_None_not_Some. intros [id Hid]. apply (eo_src _ EO) in Hid. congruence. }
  set (w3 := set_tree _ w2).
  assert (files_of staging w3 = delete (ne_key e) (files_of staging w2)) as Hfiles.
  { unfold w3, files_of. cbn. by rewrite lookup_insert_eq. }
  assert (good (e :: D) T w3) as Hg3.
  { destruct Hg2 as [[B1 B2 B3 B4 B5 B6 B7] Hd Ht]. constructor.
    - constructor; rewrite ?Hfiles; try done.
      + unfold w3. cbn. rewrite lookup_insert_ne by apply staging_ne_final. done.
      + intros k id [_ Hk]%lookup_delete_Some. eauto.
      + intros k [id [_ Hk]%lookup_delete_Some]. apply B7. by eexists.
    - rewrite Hfiles. constructor; [unfold entry_done; by rewrite lookup_delete_eq|].
      rewrite Forall_forall in Hd |- *. intros e' He'. specialize (Hd e' He'). unfold entry_done in *.
      rewrite lookup_delete_ne; [done|]. intros Heq. apply HD. rewrite Heq. apply list_elem_of_fmap. by exists e'.
    - rewrite Hfiles. eapply Forall_impl; [exact Ht|]. intros e' He'. by rewrite lookup_delete_None; right. }
  split; cbn; [|exact Hg3]. rewrite !Forall_app, !Forall_singleton. split_and!; [done|apply Hg1|apply Hg2|apply Hg3].
Qed.

(** ** The snapshot *)

Lemma mkdir_triple D T :
  triple (holds (good D T)) (require "Failed to create backup log directory" (create_directories staging))
    (fun _ => holds (good D T)) (holds base).
Proof.
  assert (forall s, holds (good D T) s -> holds base s) as Hgb by (intros s; apply holds_impl; by intros w []).
  apply require_triple. unfold create_directories.
  eapply triple_bind; [apply triple_call, stable_good|]. intros [|]; apply triple_seq_ret; [|by apply triple_ret].
  apply triple_change; [|by intros w []]. intros w [[B1 B2 B3 B4 B5 B6 B7] Hd Ht].
  set (w' := set_tree _ w).
  assert (files_of staging w' = files_of staging w) as Hf.
  { unfold w', files_of. cbn. destruct (bw_tree w !! staging) eqn:E; [by rewrite E|by rewrite lookup_insert_eq]. }
  constructor; rewrite ?Hf; try done. constructor; rewrite ?Hf; try done.
  unfold w'. cbn. destruct (bw_tree w !! staging); [done|]. by rewrite lookup_insert_ne by apply staging_ne_final.
Qed.

Lemma copy_entry_triple sync e D T : fresh_name e D T -> entry_ok e ->
  triple (holds (good D (e :: T))) (copy_entry staging sync e) (fun _ => holds (good (e :: D) T)) (holds base).
Proof.
  intros Hf Hok.
  assert (forall D T s, holds (good D T) s -> holds base s) as Hgb by (intros D' T' s; apply holds_impl; by intros w []).
  unfold copy_entry. eapply triple_bind; [apply mkdir_triple|]. intros [].
  eapply (triple_conseq (holds (nameless e D T))); [| |intros a s H; exact H|intros s H; exact H]; cycle 1.
  { intros s. apply holds_impl. intros w [Hb Hd Ht]. inversion Ht; subst. by split. }
  destruct (length (inlineContents (ne_file e)) =? 0)%nat eqn:Ein; cbn [negb];
    [apply Nat.eqb_eq in Ein|apply Nat.eqb_neq in Ein]; cycle 1.
  { eapply triple_bind; [eapply triple_conseq; [by apply writeBytes_triple|done|intros a s H; exact H|apply Hgb]|].
    intros []. apply when_sync_triple, stable_placed. }
  eapply (triple_bind _ _ _ (fun ok : bool => if ok then holds (placed e D T) else holds (nameless e D T))).
  { destruct (immutable (ne_file e)) eqn:Eim; [|by apply triple_ret].
    eapply triple_conseq; [by apply link_triple|done|intros a s H; exact H|apply Hgb]. }
  intros [|]; [apply when_sync_triple, stable_placed|].
  eapply (triple_bind _ _ _ (fun r : exn + unit => match r with inl _ => holds (good D T) | inr _ => holds (placed e D T) end)).
  { intros s Hs. pose proof (copy_triple e D T Hf Hok Ein s Hs) as Hc. unfold catch, mbind, M_bind.
    destruct (copyPrefixWithMtime _ _ _ _ _ s) as [[err|[]] s1]; exact Hc. }
  intros [err|[]]; [by apply skip_triple|apply when_sync_triple, stable_placed].
Qed.

Lemma copy_entries_triple sync todo D : (forall e, e ∈ todo -> e ∈ es) -> NoDup (ne_key <$> (D ++ todo)) ->
  triple (holds (good D todo)) (copy_entries staging sync todo) (fun _ => holds (good (rev todo ++ D) [])) (holds base).
Proof.
  revert D. induction todo as [|e todo IH]; intros D Hin Hnd; cbn [copy_entries].
  { by apply triple_ret. }
  rewrite fmap_app, fmap_cons in Hnd. apply NoDup_app in Hnd as (HD & Hdis & Hnd). apply NoDup_cons in Hnd as [He Hnd].
  assert (fresh_name e D todo) as Hf.
  { split_and!; [apply Hin, list_elem_of_here|intros H; by apply (Hdis _ H), list_elem_of_here|done]. }
  assert (entry_ok e) as Hok.
  { pose proof (so_entries SO) as Hall. rewrite Forall_forall in Hall. apply Hall, Hin, list_elem_of_here. }
  eapply triple_bind; [by apply copy_entry_triple|]. intros []. cbn [rev]. rewrite <- app_assoc. apply (IH (e :: D)).
  - intros e' He'. apply Hin. by apply list_elem_of_further.
  - rewrite fmap_app, fmap_cons. apply NoDup_app. split_and!; [| |done]; cycle 1.
    { intros x [->|Hx]%elem_of_cons Hx'; [by apply He|by apply (Hdis x Hx), list_elem_of_further]. }
    apply NoDup_cons. split; [|done]. intros H. by apply (Hdis _ H), list_elem_of_here.
Qed.

Lemma sync_dir_triple P : stable P -> triple (holds P) syncDirectory (fun _ => holds P) (holds base).
Proof.
  intros HP. assert (forall s, holds P s -> holds base s) as HE by (intros s; apply holds_impl, HP).
  unfold syncDirectory. eapply triple_bind; [by apply call_require|]. intros [].
  eapply triple_bind; [apply (triple_gets _ _ (fun _ => holds P)); done|]. intros n. apply require_triple.
  eapply triple_bind; [by apply triple_call|]. intros ok. apply triple_ret. intros s Hs. destruct (ok || be_nosync n); auto.
Qed.

Lemma snapshot_triple sync :
  triple (holds (good [] es)) (copySnapshotEntries staging es sync) (fun _ => holds (good (rev es) [])) (holds base).
Proof.
  unfold copySnapshotEntries. eapply triple_bind.
  { apply copy_entries_triple; [done|apply (so_keys SO)]. }
  intros []. rewrite app_nil_r. destruct sync; [|by apply triple_ret]. cbn [when].
  apply (triple_bind _ _ _ (fun _ => holds (good (rev es) [])));
    [|intros []; destruct (negb _); [apply sync_dir_triple, stable_good|by apply triple_ret]].
  generalize (store_dirs es). intros n. induction n as [|n IH]; cbn [sync_directories]; [by apply triple_ret|].
  eapply triple_bind; [apply sync_dir_triple, stable_good|]. by intros [].
Qed.

(** ** Publishing *)

(** The final directory is there, with the whole snapshot. *)
Record published (w : BW) : Prop := {
  pu_files : exists files, bw_tree w !! final = Some files /\ complete files w /\
               forall k id, files !! k = Some id -> ~ growing id;
  pu_live : live w
}.

(** What a crash may leave. *)
Definition crash_safe (w : BW) : Prop :=
  live w /\ (bw_tree w !! final = None \/ exists files, bw_tree w !! final = Some files /\ complete files w).

Lemma base_safe w : base w -> crash_safe w.
Proof. intros Hb. split; [apply Hb|]. left. apply Hb. Qed.

Lemma published_safe w : published w -> crash_safe w.
Proof. intros [(files & H1 & H2 & _) Hl]. split; [done|]. right. by exists files. Qed.

Lemma published_step n w : published w -> published (be_step n w).
Proof.
  intros [(files & H1 & [H2 H3] & H4) Hl]. constructor; [|by apply live_step].
  exists files. rewrite (eo_tree _ EO). split_and!; try done. split; [|done].
  eapply Forall_impl; [exact H2|]. intros e. apply entry_done_step. intros id. apply H4.
Qed.

(** As [holds], once the snapshot may be published. *)
Definition safe_so_far (P : BW -> Prop) (s : BSt) : Prop := Forall crash_safe (b_hist s) /\ P (b_w s).

Lemma holds_safe P s : holds P s -> safe_so_far P s.
Proof. intros [Hh HP]. split; [|done]. eapply Forall_impl; [exact Hh|]. apply base_safe. Qed.

Definition base_or_published (w : BW) : Prop := base w \/ published w.

Lemma either_call P fails E : (forall n w, P w -> P (be_step n w)) -> (forall w, P w -> crash_safe w) ->
  triple (safe_so_far P) (call fails) (fun _ => safe_so_far P) E.
Proof.
  intros Hs Hc s [Hh HP]. cbn. split; cbn; [|by apply Hs]. apply Forall_app. split; [done|]. apply Forall_singleton. by apply Hc, Hs.
Qed.

Lemma rename_triple :
  triple (holds (good (rev es) [])) (rename staging final)
    (fun ok => if ok then safe_so_far published else holds base) (holds base).
Proof.
  unfold rename. eapply triple_bind; [apply triple_call, stable_good|]. intros ok s [Hh [Hb Hd _]]. mrun.
  destruct (bw_tree (b_w s) !! staging) as [files|] eqn:Est; [|done].
  rewrite (ba_final _ Hb), andb_true_r. destruct ok; [|done]. cbn.
  assert (files_of staging (b_w s) = files) as Hfiles by (unfold files_of; by rewrite Est).
  set (w' := set_tree _ (b_w s)).
  assert (published w') as Hp.
  { constructor; [|apply Hb]. exists files. unfold w'. cbn. rewrite lookup_insert_eq. split_and!; [done| |].
    - split; [|intros k Hk; apply (ba_keys _ Hb); by rewrite Hfiles].
      rewrite Forall_forall in Hd |- *. intros e He. specialize (Hd e). rewrite Hfiles in Hd. apply Hd.
      by rewrite list_elem_of_In, <- in_rev, <- list_elem_of_In.
    - intros k id Hk. rewrite <- Hfiles in Hk. by apply (ba_ids _ Hb) in Hk as [_ ?]. }
  split; cbn; [|done]. apply Forall_app. split; [|apply Forall_singleton; by apply published_safe].
  eapply Forall_impl; [exact Hh|]. apply base_safe.
Qed.

Lemma base_remove_all w : base w -> base (set_tree (delete staging) w).
Proof.
  intros [B1 B2 B3 B4 B5 B6 B7].
  assert (files_of staging (set_tree (delete staging) w) = ∅) as Hf by (unfold files_of; cbn; by rewrite lookup_delete_eq).
  constructor; rewrite ?Hf; try done.
  - cbn. rewrite lookup_delete_ne by apply staging_ne_final. done.
  - intros k [id Hk]. by rewrite lookup_empty in Hk.
Qed.

Lemma published_remove_all w : published w -> published (set_tree (delete staging) w).
Proof.
  intros [(files & H1 & H2 & H3) Hl]. constructor; [|done]. exists files. split_and!; try done.
  cbn. rewrite lookup_delete_ne by apply staging_ne_final. done.
Qed.

Lemma cleanup_run s : safe_so_far base_or_published s -> exists s', remove_tree staging s = (inr tt, s') /\ safe_so_far base_or_published s'.
Proof.
  intros [Hh HP]. unfold remove_tree. mrun. cbn. rewrite NoRemoveFail. cbn. eexists. split; [reflexivity|].
  assert (forall w, base_or_published w -> crash_safe w) as Hsafe by (intros w [H|H]; [by apply base_safe|by apply published_safe]).
  assert (base_or_published (be_step (b_n s) (b_w s))) as H1 by (destruct HP; [left; by apply base_step|right; by apply published_step]).
  assert (base_or_published (set_tree (delete staging) (be_step (b_n s) (b_w s)))) as H2
    by (destruct H1; [left; by apply base_remove_all|right; by apply published_remove_all]).
  split; cbn; [|done]. rewrite !Forall_app, !Forall_singleton. auto.
Qed.

Lemma staged_start : good [] es w0.
Proof.
  assert (files_of staging w0 = ∅) as Hf by (unfold files_of; by rewrite (so_staging SO)).
  constructor; rewrite ?Hf; [|constructor|apply Forall_forall; intros; apply lookup_empty].
  constructor; rewrite ?Hf; try done; [apply SO| |apply SO|].
  - intros id i Hi. exists i. done.
  - intros k [id Hk]. by rewrite lookup_empty in Hk.
Qed.

Lemma backup_run sync :
  let '(r, s) := backupTransactionLogsToDir es final sync (mkBSt w0 0 [w0]) in
  Forall crash_safe (b_hist s) /\ (r = inr tt -> es <> [] -> published (b_w s)).
Proof.
  pose proof staged_start as Hg. unfold backupTransactionLogsToDir.
  destruct es as [|e0 es'] eqn:Ees; [split; [|done]; apply Forall_singleton, base_safe, Hg|].
  rewrite <- Ees in Hg |- *. fold staging.
  assert (triple (holds (good [] es))
    (copySnapshotEntries staging es sync;;
     require "Failed to publish transaction log snapshot" (rename staging final);; when sync syncDirectory)
    (fun _ => safe_so_far published) (safe_so_far base_or_published)) as Ht.
  { assert (forall s, holds base s -> safe_so_far base_or_published s) as HE.
    { intros s Hs. apply holds_safe in Hs as [? ?]. split; [done|by left]. }
    assert (forall s, safe_so_far published s -> safe_so_far base_or_published s) as HE'.
    { intros s [? ?]. split; [done|by right]. }
    eapply triple_bind; [eapply triple_conseq; [apply snapshot_triple|done|intros a s H; exact H|apply HE]|]. intros [].
    eapply triple_bind.
    { eapply triple_conseq; [apply require_triple, rename_triple|done|intros a s H; exact H|apply HE]. }
    intros []. destruct sync; [|by apply triple_ret]. unfold when, syncDirectory.
    assert (forall msg (f : bool -> bool), triple (safe_so_far published) (require msg (ok ← call be_fails; mret (f ok)))
      (fun _ => safe_so_far published) (safe_so_far base_or_published)) as Hreq.
    { intros msg f. unfold require. eapply triple_bind.
      - eapply (triple_bind _ _ _ (fun _ => safe_so_far published)); [|intros ok; by apply (triple_ret _ _ (fun _ => safe_so_far published))].
        apply either_call; [intros n w; apply published_step|apply published_safe].
      - intros [|]; [by apply triple_ret|by apply triple_throw]. }
    eapply (triple_bind _ _ _ (fun _ => safe_so_far published)); [|intros []].
    { intros s Hs. specialize (Hreq "Failed to open backup log directory for sync" (fun b => b) s Hs). cbn in *.
      destruct (be_fails (b_n s)); exact Hreq. }
    eapply triple_bind; [by apply (triple_gets _ _ (fun _ => safe_so_far published))|]. intros n. apply Hreq. }
  assert (holds (good [] es) (mkBSt w0 0 [w0])) as Hs0 by (split; [apply Forall_singleton, Hg|exact Hg]).
  specialize (Ht _ Hs0). unfold catch.
  match type of Ht with context [match ?x with _ => _ end] => destruct x as [[err|[]] s1] end; cycle 1.
  { destruct Ht as [Hh Hp]. by split. }
  destruct (cleanup_run s1 Ht) as (s2 & H2 & Hh2 & _). rewrite (bind_run _ _ _ _ _ H2). cbn. split; [done|]. done.
Qed.

(** C36: a backup of the transaction logs is atomic: at every moment of the copy,
    whichever of its opens, reads, writes, syncs, links and renames fail, and
    whatever the process appends or purges meanwhile, the final directory does not
    exist or holds the complete snapshot, every entry with its recorded bytes and its
    time, but for files that were purged.  A backup that reports success has
    published it.  The backup starts with neither its directory nor a staging
    directory of that name there ([start_ok]; [stale_staging_truncates] shows why it
    matters).  Two kinds of call are taken to work ([NoRemoveFail],
    [NoStatFail]): removing a file or a directory of the staging area, and asking
    whether a source file exists; the code ignores the errors of both, and
    [failed_remove_publishes_partial] shows what it publishes when a remove fails. *)
Theorem backup_crash_atomic sync :
  let '(r, s) := backupTransactionLogsToDir es final sync (mkBSt w0 0 [w0]) in
  Forall (fun w => bw_tree w !! final = None \/ exists files, bw_tree w !! final = Some files /\ complete files w) (b_hist s) /\
  (r = inr tt -> es <> [] -> exists files, bw_tree (b_w s) !! final = Some files /\ complete files (b_w s)).
Proof.
  pose proof (backup_run sync) as H. destruct (backupTransactionLogsToDir _ _ _ _) as [r s]. destruct H as [H1 H2]. split.
  - eapply Forall_impl; [exact H1|]. by intros w [_ ?].
  - intros Hr Hne. destruct (H2 Hr Hne) as [(files & ? & ? & _) _]. by exists files.
Qed.

(** The copy never changes a log file: although a rotated file and its backup are
    the same inode, every log file keeps its bytes throughout, and only the process
    itself makes one longer. *)
Theorem backup_keeps_logs sync :
  let '(_, s) := backupTransactionLogsToDir es final sync (mkBSt w0 0 [w0]) in Forall live (b_hist s).
Proof.
  pose proof (backup_run sync) as H. destruct (backupTransactionLogsToDir _ _ _ _) as [r s]. destruct H as [H1 _].
  eapply Forall_impl; [exact H1|]. by intros w [? _].
Qed.
End Backup.

(** ** Witnesses *)

(** Every call succeeds but those in [bad], and the process does nothing meanwhile. *)
Definition calm (bad : nat -> bool) : BackupEnv :=
  {| be_fails := bad; be_remove_fails := fun _ => false; be_stat_fails := fun _ => false;
     be_nosync := fun _ => false; be_step := fun _ w => w |}.

(** A rotated file of two bytes and a current one that has one byte more than its
    snapshot. *)
Definition demo_disk (tree : gmap string (gmap file_key Z)) : BW :=
  mkBW {[ 1 := mkInode [Byte.x61; Byte.x62] 7; 2 := mkInode [Byte.x63; Byte.x64] 9 ]}
    {[ "l/1.txnlog" := 1; "l/2.txnlog" := 2 ]} tree 3.

Definition demo_entries : list NamedTransactionLogBackupEntry :=
  [mkNamed "l" (mkBackupEntry "1.txnlog" "l/1.txnlog" 2 7 true []);
   mkNamed "l" (mkBackupEntry "2.txnlog" "l/2.txnlog" 1 8 false []);
   mkNamed "l" (mkBackupEntry "txn.state" "l/txn.state" 1 6 false [Byte.x2a])].

Definition demo_growing (id : Z) : Prop := id = 2.

Lemma calm_ok bad : env_ok (BE := calm bad) demo_growing.
Proof.
  constructor; try done. intros n w id [d t] H. exists [], t. cbn. by rewrite app_nil_r.
Defined.

Lemma backup_demo_start : start_ok demo_growing (demo_disk ∅) demo_entries "3".
Proof.
  constructor; try done.
  - intros p id H. cbn in *. repeat (apply lookup_insert_Some in H as [[_ <-]|[_ H]]; [lia|]). apply lookup_singleton_Some in H as [_ <-]. lia.
  - intros id [i H]. cbn in *. repeat (apply lookup_insert_Some in H as [[<- _]|[_ H]]; [lia|]). apply lookup_singleton_Some in H as [<- _]. lia.
  - intros id ->. cbn. lia.
  - unfold demo_entries. rewrite !Forall_cons. split_and!; [| | |done]; intros Hin; cbn in *; try discriminate Hin.
    + split; [lia|]. intros id [= <-]. exists (mkInode [Byte.x61; Byte.x62] 7). split_and!; [done|cbn; lia|].
      intros _. split_and!; [intros [=]|reflexivity|reflexivity].
    + split; [lia|]. intros id [= <-]. exists (mkInode [Byte.x63; Byte.x64] 9). split_and!; [done|cbn; lia|]. intros [=].
  - apply (bool_decide_unpack _). vm_compute. exact I.
Defined.

Definition demo_backup (bad : nat -> bool) (tree : gmap string (gmap file_key Z)) (sync : bool) : (exn + unit) * BSt :=
  backupTransactionLogsToDir (BE := calm bad) demo_entries "3" sync (mkBSt (demo_disk tree) 0 [demo_disk tree]).

Lemma backup_crash_atomic_witness :
  exists files, bw_tree (b_w (snd (demo_backup (fun _ => false) ∅ true))) !! "3" = Some files /\
    complete (demo_disk ∅) demo_entries files (b_w (snd (demo_backup (fun _ => false) ∅ true))).
Proof.
  pose proof (backup_crash_atomic (BE := calm (fun _ => false)) demo_growing (calm_ok _) (demo_disk ∅) demo_entries "3"
    backup_demo_start (fun _ => eq_refl) (fun _ => eq_refl) true) as H.
  fold (demo_backup (fun _ => false) ∅ true) in H.
  destruct (demo_backup (fun _ => false) ∅ true) as [r s] eqn:E. destruct H as [_ H]. apply H; [|discriminate].
  replace r with (fst (demo_backup (fun _ => false) ∅ true)) by (by rewrite E).
  vm_compute. reflexivity.
Defined.


(** ** Where the guarantees end *)

Definition failed (r : (exn + unit) * BSt) : bool := match fst r with inl _ => true | inr _ => false end.

(** A leftover staging directory that still links a rotated file: the link fails, the
    byte copy truncates the shared inode, and the log file is lost. *)
Example stale_staging_truncates :
  let r := demo_backup (fun _ => false) {[ ".staging-3" := {[ ("l", "1.txnlog") := 1 ]} ]} false in
  (failed r, length (data_of 1 (b_w (snd r)))) = (true, 0%nat).
Proof. vm_compute. reflexivity. Qed.

(** The last call of a synchronous backup fails: the backup reports an error and yet
    its directory stays, so that the next backup under that name cannot publish. *)
Example failed_sync_leaves_directory :
  let r := demo_backup (fun n => (n =? 26)%nat) ∅ true in
  (failed r, size (files_of "3" (b_w (snd r))),
   failed (backupTransactionLogsToDir (BE := calm (fun _ => false)) demo_entries "3" true (mkBSt (b_w (snd r)) 0 [])))
  = (true, 3%nat, true).
Proof. vm_compute. reflexivity. Qed.

(** The write of a copied file fails, its log is purged before the code asks whether
    it exists, and the removal of the partial copy fails as well: the backup
    succeeds and publishes the partial file. *)
Definition failed_remove : BackupEnv :=
  {| be_fails := fun n => (n =? 4)%nat; be_remove_fails := fun n => (n =? 6)%nat; be_stat_fails := fun _ => false;
     be_nosync := fun _ => false;
     be_step := fun n w => if (n =? 5)%nat then mkBW (bw_inodes w) ∅ (bw_tree w) (bw_next w) else w |}.

Example failed_remove_publishes_partial :
  let entries := [mkNamed "l" (mkBackupEntry "2.txnlog" "l/2.txnlog" 1 8 false [])] in
  let r := backupTransactionLogsToDir (BE := failed_remove) entries "3" false (mkBSt (demo_disk ∅) 0 []) in
  (failed r, (fun id => data_of id (b_w (snd r))) <$> files_of "3" (b_w (snd r)) !! ("l", "2.txnlog")) = (false, Some []).
Proof. vm_compute. reflexivity. Qed.
