(* ===== verification/BackupStream.v ===== *)
(** * Streaming a backup

    [database/backup_stream.cpp], the worker's side: the sequence of header and chunk
    events that [doBackupStream] hands to JavaScript, which frames them as a tar
    archive.

    The RocksDB environment and the consumer are parameters: what the n-th event
    meets, how many bytes the n-th read returns, what a path holds at the n-th
    access.  A status that is not OK is [DBException].  The handshake under [emit]
    is in [BackupHandshake]. *)

From S2P Require Import Prelude Encoding LogFormat Os LogFile LogStore BackupLogs.
From stdpp Require Import base tactics list gmap strings.
From coqutil Require Import Byte.
From Stdlib Require Import ZArith Lia.

Local Open Scope Z_scope.

Definition kChunkSize : Z := 1048576.

(** [kEventFile] and [kEventChunk]. *)
Inductive StreamEvent :=
| EventFile (name : string) (fileSize mtime : Z)
| EventChunk (data : bytes).

(** What happens to an event: the consumer took it and asks for more, took it and the
    stream stops, or it could not be delivered. *)
Inductive emit_outcome := Acked | AbortedAfter | NotDelivered.

Record LiveFileStorageInfo := mkLiveFile {
  relative_filename : string;
  directory : string;
  lf_size : Z;
  replacement_contents : bytes
}.

Class StreamEnv := {
  se_emit : nat -> emit_outcome;
  se_fails : nat -> bool;                  (* the n-th open, read or listing fails *)
  se_read : nat -> Z -> Z;                 (* bytes the n-th read returns, asked for so many *)
  se_file : nat -> string -> option bytes; (* what a path holds at the n-th access *)
  se_cancelled : nat -> bool;              (* the handle is cancelled at the n-th access *)
  (* a read that is not at the end returns something, and no more than was asked for *)
  se_read_range n k : 0 < k -> 0 < se_read n k <= k
}.

Record SS := mkSS { ss_events : list StreamEvent; ss_n : nat; ss_deletions : bool }.

Abbreviation StM := (M SS).

Section Stream.
Context {SE : StreamEnv}.

Definition access : StM nat := fun s => (inr (ss_n s), mkSS (ss_events s) (S (ss_n s)) (ss_deletions s)).

(** [AsyncBackupStreamState::emit], and the early return of its callers. *)
Definition emit (ev : StreamEvent) : StM unit := fun s =>
  let n := length (ss_events s) in
  match se_emit n with
  | Acked => (inr tt, mkSS (ss_events s ++ [ev]) (ss_n s) (ss_deletions s))
  | AbortedAfter => (inl (DBException "aborted"), mkSS (ss_events s ++ [ev]) (ss_n s) (ss_deletions s))
  | NotDelivered => (inl (DBException "aborted"), s)
  end.

(** The loop of [streamFilePrefix], [pos] bytes into the file. *)
Fixpoint stream_loop (fuel : nat) (path : string) (pos remaining : Z) : StM unit :=
  if remaining <=? 0 then mret tt
  else
    match fuel with
    | O => throw (Diverges "streamFilePrefix")
    | S fuel =>
        let toRead := Z.min remaining kChunkSize in
        n ← access;
        if se_fails n then throw (DBException "read")
        else
          let data := default [] (se_file n path) in
          let result := take (Z.to_nat (se_read n toRead)) (drop (Z.to_nat pos) data) in
          if (length result =? 0)%nat then throw (DBException "File shorter than recorded size")
          else
            emit (EventChunk result);;
            let k := Z.of_nat (length result) in
            stream_loop fuel path (pos + k) (remaining - k)
    end.

Definition streamFilePrefix (path : string) (limit : Z) : StM unit :=
  n ← access;
  if se_fails n || match se_file n path with Some _ => false | None => true end then throw (DBException "open")
  else stream_loop (Z.to_nat limit) path 0 limit.

(** The loop over contents held in memory. *)
Fixpoint stream_inline (fuel : nat) (contents : bytes) : StM unit :=
  match contents with
  | [] => mret tt
  | _ :: _ =>
      match fuel with
      | O => throw (Diverges "doBackupStream")
      | S fuel =>
          let n := Z.to_nat (Z.min kChunkSize (Z.of_nat (length contents))) in
          emit (EventChunk (take n contents));;
          stream_inline fuel (drop n contents)
      end
  end.

Definition check_cancelled : StM unit :=
  n ← access;
  if se_cancelled n then throw (DBException "Database closed during backup stream operation") else mret tt.

(** One live file. *)
Definition stream_live (f : LiveFileStorageInfo) : StM unit :=
  check_cancelled;;
  emit (EventFile (relative_filename f) (lf_size f) 0);;
  if negb (length (replacement_contents f) =? 0)%nat then
    stream_inline (length (replacement_contents f)) (replacement_contents f)
  else streamFilePrefix (directory f +:+ "/" +:+ relative_filename f) (lf_size f).

(** [duration_cast<seconds>] of a time in nanoseconds. *)
Definition fileTimeToEpochSeconds (t : Z) : Z := Z.quot t 1000000000.

Definition tar_path (e : NamedTransactionLogBackupEntry) : string :=
  "transaction_logs/" +:+ ne_storeName e +:+ "/" +:+ relativeName (ne_file e).

(** One entry of the transaction logs. *)
Definition stream_log (e : NamedTransactionLogBackupEntry) : StM unit :=
  let f := ne_file e in
  let mtime := fileTimeToEpochSeconds (be_mtime f) in
  if negb (length (inlineContents f) =? 0)%nat then
    emit (EventFile (tar_path e) (Z.of_nat (length (inlineContents f))) mtime);;
    stream_inline (length (inlineContents f)) (inlineContents f)
  else
    n ← access;
    match (if se_fails n then None else se_file n (sourcePath f)) with
    | None => mret tt
    | Some _ =>
        emit (EventFile (tar_path e) (byteLimit f) mtime);;
        streamFilePrefix (sourcePath f) (byteLimit f)
    end.

Fixpoint stream_all {A} (step : A -> StM unit) (l : list A) : StM unit :=
  match l with
  | [] => mret tt
  | x :: l => step x;; stream_all step l
  end.

Definition set_deletions (b : bool) : StM unit := modify (fun s => mkSS (ss_events s) (ss_n s) b).

(** The work between [DisableFileDeletions] and the end of the guard. *)
Definition stream_files (files : list LiveFileStorageInfo) (logs : list NamedTransactionLogBackupEntry) (backupTransactionLogs : bool)
  : StM unit :=
  n ← access;
  if se_fails n then throw (DBException "GetLiveFilesStorageInfo")
  else
    stream_all stream_live files;;
    if backupTransactionLogs then stream_all stream_log logs else mret tt.

(** [files] is what [GetLiveFilesStorageInfo] returns, [logs] what
    [collectTransactionLogBackupEntries] does. *)
Definition doBackupStream (opened closing : bool) (files : list LiveFileStorageInfo) (logs : list NamedTransactionLogBackupEntry)
    (backupTransactionLogs : bool) : StM unit :=
  n ← access;
  if closing || se_cancelled n then throw (DBException "Database closed during backup stream operation")
  else if negb opened then throw (DBException "Database is not open")
  else
    n ← access;
    if se_fails n then throw (DBException "DisableFileDeletions")
    else
      set_deletions false;;
      r ← catch (stream_files files logs backupTransactionLogs;; mret (inr tt)) (fun e => mret (inl e));
      set_deletions true;;
      match r with inl e => throw e | inr _ => mret tt end.

(** ** Framing *)

(** Read a stream of events: how many bytes the open file still lacks; [None] when a
    header comes early, a chunk is empty or too large, or more bytes than declared
    arrive. *)
Fixpoint frame (remaining : Z) (evs : list StreamEvent) : option Z :=
  match evs with
  | [] => Some remaining
  | EventFile _ size _ :: evs => if (remaining =? 0) && (0 <=? size) then frame size evs else None
  | EventChunk d :: evs =>
      let k := Z.of_nat (length d) in
      if (0 <? k) && (k <=? kChunkSize) && (k <=? remaining) then frame (remaining - k) evs else None
  end.

(** The bytes of a stream's chunks. *)
Definition payload (evs : list StreamEvent) : bytes :=
  evs ≫= (fun ev => match ev with EventChunk d => d | EventFile _ _ _ => [] end).

End Stream.
