(* ===== verification/BackupStreamProofs.v ===== *)
(** * Streaming a backup: framing and contents

    Every file of the stream is exactly as long as its header says, whatever fails,
    and a stream that ends well carries exactly the bytes of the snapshot. *)

From S2P Require Import Prelude Encoding LogFormat Os LogFile LogStore BackupLogs BackupStream.
From stdpp Require Import base tactics list gmap strings.
From coqutil Require Import Byte.
From Stdlib Require Import ZArith Lia.

Local Open Scope Z_scope.

Lemma frame_app r a b : frame r (a ++ b) = frame r a ≫= (fun r => frame r b).
Proof.
  revert r. induction a as [|[name size mtime|d] a IH]; intros r; [done| |]; cbn; case_match; auto.
Qed.

(** ** Specifications that tell which exception *)

Definition spec {A} (P : SS -> Prop) (m : StM A) (Q : A -> SS -> Prop) (E : exn -> SS -> Prop) : Prop :=
  forall s, P s -> match m s with (inr a, s') => Q a s' | (inl e, s') => E e s' end.

Lemma spec_ret {A} (P : SS -> Prop) (a : A) (Q : A -> SS -> Prop) E : (forall s, P s -> Q a s) -> spec P (mret a) Q E.
Proof. intros H s HP. by apply H. Qed.

Lemma spec_throw {A} (P : SS -> Prop) e (Q : A -> SS -> Prop) (E : exn -> SS -> Prop) :
  (forall s, P s -> E e s) -> spec P (throw e) Q E.
Proof. intros H s HP. by apply H. Qed.

Lemma spec_bind {A B} P (m : StM A) (k : A -> StM B) R Q E :
  spec P m R E -> (forall a, spec (R a) (k a) Q E) -> spec P (a ← m; k a) Q E.
Proof.
  intros Hm Hk s HP. specialize (Hm s HP). unfold mbind, M_bind. destruct (m s) as [[e|a] s']; [done|]. exact (Hk a s' Hm).
Qed.

Lemma spec_weak {A} (P P' : SS -> Prop) (m : StM A) (Q Q' : A -> SS -> Prop) (E E' : exn -> SS -> Prop) :
  spec P m Q E -> (forall s, P' s -> P s) -> (forall a s, Q a s -> Q' a s) -> (forall e s, E e s -> E' e s) -> spec P' m Q' E'.
Proof. intros Hm HP HQ HE s Hs. specialize (Hm s (HP s Hs)). destruct (m s) as [[e|a] s']; auto. Qed.

(** ** What a stream carries *)

(** A header and its chunks. *)
Record segment := mkSegment { sg_name : string; sg_size : Z; sg_mtime : Z; sg_bytes : bytes }.

Definition chunks_ok (chunks : list bytes) : Prop :=
  Forall (fun d => (0 < length d)%nat /\ Z.of_nat (length d) <= kChunkSize) chunks.

Definition carries (g : segment) (evs : list StreamEvent) : Prop :=
  exists chunks, evs = EventFile (sg_name g) (sg_size g) (sg_mtime g) :: (EventChunk <$> chunks) /\
    concat chunks = sg_bytes g /\ chunks_ok chunks.

Fixpoint carries_all (gs : list segment) (evs : list StreamEvent) : Prop :=
  match gs with
  | [] => evs = []
  | g :: gs => exists e1 e2, evs = e1 ++ e2 /\ carries g e1 /\ carries_all gs e2
  end.

Section Proofs.
Context {SE : StreamEnv}.

(** The stream so far is [evs], and [r] bytes of its last file are missing. *)
Definition sent (evs : list StreamEvent) (r : Z) (s : SS) : Prop := ss_events s = evs /\ frame 0 evs = Some r.

(** After a failure: still well framed, and no loop ran out. *)
Definition cut (e : exn) (s : SS) : Prop := (exists r, frame 0 (ss_events s) = Some r) /\ (forall msg, e <> Diverges msg).

Lemma sent_cut evs r msg s : sent evs r s -> cut (DBException msg) s.
Proof. intros [H1 H2]. split; [rewrite H1; by exists r|done]. Qed.

Lemma spec_access {B} evs r (k : nat -> StM B) Q :
  (forall n, spec (sent evs r) (k n) Q cut) -> spec (sent evs r) (n ← access; k n) Q cut.
Proof. intros H s Hs. apply (H (ss_n s)). exact Hs. Qed.

(** The number of accesses only grows. *)
Definition counts {A} (m : StM A) : Prop := forall s, (ss_n s <= ss_n (snd (m s)))%nat.

Lemma counts_ret {A} (a : A) : counts (mret a : StM A).
Proof. intros s. done. Qed.
Lemma counts_throw {A} e : counts (throw e : StM A).
Proof. intros s. done. Qed.
Lemma counts_access : counts access.
Proof. intros s. cbn. lia. Qed.
Lemma counts_emit ev : counts (emit ev).
Proof. intros s. unfold emit. by destruct (se_emit _). Qed.
Lemma counts_bind {A B} (m : StM A) (k : A -> StM B) : counts m -> (forall a, counts (k a)) -> counts (a ← m; k a).
Proof.
  intros Hm Hk s. specialize (Hm s). unfold mbind, M_bind. destruct (m s) as [[e|a] s']; [done|].
  specialize (Hk a s'). cbn in *. lia.
Qed.

Ltac counts_step := first
  [ apply counts_bind; [|intros ?] | apply counts_ret | apply counts_throw | apply counts_access | apply counts_emit
  | match goal with |- counts (match ?x with _ => _ end) => destruct x end ].
Ltac counts_tac := repeat (cbv zeta; counts_step).

Lemma counts_loop fuel path pos remaining : counts (stream_loop fuel path pos remaining).
Proof.
  revert pos remaining. induction fuel as [|fuel IH]; intros pos remaining; cbn [stream_loop]; counts_tac; apply IH.
Qed.

Lemma counts_inline fuel contents : counts (stream_inline fuel contents).
Proof. revert contents. induction fuel as [|fuel IH]; intros [|b l]; cbn [stream_inline]; counts_tac; apply IH. Qed.

Lemma counts_prefix path limit : counts (streamFilePrefix path limit).
Proof. unfold streamFilePrefix. counts_tac. apply counts_loop. Qed.

Lemma spec_emit evs r r' ev : frame r [ev] = Some r' ->
  spec (sent evs r) (emit ev) (fun _ => sent (evs ++ [ev]) r') cut.
Proof.
  intros Hf s [H1 H2]. unfold emit.
  assert (frame 0 (evs ++ [ev]) = Some r') as H3 by by rewrite frame_app, H2.
  destruct (se_emit _); rewrite ?H1; [by split| |]; (split; [|done]); cbn; rewrite ?H1; eauto.
Qed.

Lemma frame_chunk r d : (0 < length d)%nat -> Z.of_nat (length d) <= kChunkSize -> Z.of_nat (length d) <= r ->
  frame r [EventChunk d] = Some (r - Z.of_nat (length d)).
Proof.
  intros H1 H2 H3. cbn -[kChunkSize]. rewrite (proj2 (Z.ltb_lt _ _)), !(proj2 (Z.leb_le _ _)) by lia. done.
Qed.

(** Chunks of [bytes], after [evs], with [r] bytes to go before them. *)
Definition sent_bytes (evs : list StreamEvent) (r : Z) (bytes : bytes) (s : SS) : Prop :=
  exists chunks, concat chunks = bytes /\ chunks_ok chunks /\ sent (evs ++ (EventChunk <$> chunks)) r s.

Lemma sent_bytes_cons evs d r b s : (0 < length d)%nat -> Z.of_nat (length d) <= kChunkSize ->
  sent_bytes (evs ++ [EventChunk d]) r b s -> sent_bytes evs r (d ++ b) s.
Proof.
  intros H1 H2 (chunks & <- & Hok & Hs). exists (d :: chunks). split_and!; [done|by constructor|].
  by rewrite <- app_assoc in Hs.
Qed.

(** [bytes] is what the first bytes of [path] are, whenever it is read. *)
Definition holds_prefix (path : string) (bytes : bytes) : Prop :=
  forall n d, se_file n path = Some d -> take (length bytes) d = bytes.

Lemma stream_loop_spec path bytes fuel pos remaining evs :
  holds_prefix path bytes -> 0 <= pos -> 0 <= remaining -> pos + remaining = Z.of_nat (length bytes) ->
  (Z.to_nat remaining <= fuel)%nat ->
  spec (sent evs remaining) (stream_loop fuel path pos remaining)
    (fun _ => sent_bytes evs 0 (drop (Z.to_nat pos) bytes)) cut.
Proof.
  intros Hp. revert pos remaining evs. induction fuel as [|fuel IH]; intros pos remaining evs H0 H1 Hsum Hf; cbn [stream_loop].
  { assert (remaining = 0) as -> by lia. cbn. apply spec_ret. intros s Hs. exists []. rewrite app_nil_r.
    split_and!; [|constructor|done]. symmetry. apply drop_ge. lia. }
  destruct (remaining <=? 0) eqn:Er; [apply Z.leb_le in Er|apply Z.leb_gt in Er].
  { apply spec_ret. intros s Hs. exists []. rewrite app_nil_r. assert (remaining = 0) as -> by lia.
    split_and!; [|constructor|done]. symmetry. apply drop_ge. lia. }
  apply spec_access. intros n. destruct (se_fails n); [apply spec_throw; intros s; apply sent_cut|].
  set (toRead := Z.min remaining kChunkSize).
  assert (0 < toRead <= kChunkSize /\ toRead <= remaining) as [Htr Htr2] by (unfold toRead, kChunkSize; lia).
  pose proof (se_read_range n toRead ltac:(lia)) as Hrange.
  set (result := take _ _). destruct (length result =? 0)%nat eqn:El; [apply spec_throw; intros s; apply sent_cut|].
  apply Nat.eqb_neq in El.
  assert (result = take (length result) (drop (Z.to_nat pos) bytes)) as Hres.
  { unfold result. destruct (se_file n path) as [d|] eqn:E; cbn [default]; [|by rewrite !drop_nil, take_nil].
    rewrite <- (Hp n d E), skipn_firstn_comm, take_take, length_take.
    set (m := Z.to_nat (se_read n toRead)). set (X := drop (Z.to_nat pos) d).
    rewrite (Nat.min_l (m `min` length X)) by lia.
    destruct (decide (m <= length X)%nat); [by rewrite Nat.min_l|]. rewrite Nat.min_r, firstn_all by lia. apply take_ge. lia. }
  assert (length result <= Z.to_nat toRead)%nat as Hlen.
  { unfold result. rewrite length_take. lia. }
  eapply spec_bind.
  { apply (spec_emit evs remaining (remaining - Z.of_nat (length result))). apply frame_chunk; lia. }
  intros []. eapply spec_weak; [apply (IH (pos + Z.of_nat (length result))); lia|done| |done].
  intros [] s Hs. cbn beta in Hs. replace (drop (Z.to_nat pos) bytes) with (result ++ drop (Z.to_nat (pos + Z.of_nat (length result))) bytes).
  - apply sent_bytes_cons; [lia|lia|done].
  - rewrite Hres at 1. rewrite Z2Nat.inj_add, Nat2Z.id, <- drop_drop by lia. apply take_drop.
Qed.

Lemma stream_prefix_spec path bytes evs : holds_prefix path bytes ->
  spec (sent evs (Z.of_nat (length bytes))) (streamFilePrefix path (Z.of_nat (length bytes)))
    (fun _ => sent_bytes evs 0 bytes) cut.
Proof.
  intros Hp. unfold streamFilePrefix. apply spec_access. intros n.
  destruct (se_fails n || _); [apply spec_throw; intros s; apply sent_cut|].
  apply (stream_loop_spec path bytes _ 0); try done; lia.
Qed.

Lemma stream_inline_spec fuel contents evs : (length contents <= fuel)%nat ->
  spec (sent evs (Z.of_nat (length contents))) (stream_inline fuel contents) (fun _ => sent_bytes evs 0 contents) cut.
Proof.
  revert contents evs. induction fuel as [|fuel IH]; intros contents evs Hf.
  { destruct contents; [|cbn in Hf; lia]. apply spec_ret. intros s Hs. exists []. rewrite app_nil_r. split_and!; [done|constructor|done]. }
  destruct contents as [|b rest] eqn:Ec.
  { apply spec_ret. intros s Hs. exists []. rewrite app_nil_r. split_and!; [done|constructor|done]. }
  cbn [stream_inline]. rewrite <- Ec in *. set (n := Z.to_nat (Z.min kChunkSize (Z.of_nat (length contents)))).
  assert (0 < length contents)%nat as Hc by (rewrite Ec; cbn; lia).
  assert (0 < n)%nat as Hn by (unfold n, kChunkSize; lia).
  assert (Z.of_nat n <= kChunkSize) as Hn' by (unfold n, kChunkSize; lia).
  assert (length (take n contents) + length (drop n contents) = length contents)%nat as Hsum
    by (rewrite length_take, length_drop; lia).
  assert (0 < length (take n contents) <= n)%nat as Htake by (rewrite length_take; lia).
  eapply spec_bind.
  { apply (spec_emit evs _ (Z.of_nat (length (drop n contents)))).
    rewrite frame_chunk by lia. f_equal. lia. }
  intros []. eapply spec_weak; [apply IH; lia|done| |done].
  intros [] s Hs. cbn beta in Hs. rewrite <- (take_drop n contents). apply sent_bytes_cons; [lia|lia|done].
Qed.

(** ** Files *)

(** A whole file: its header, then its bytes. *)
Definition sent_segment (evs : list StreamEvent) (g : segment) (s : SS) : Prop :=
  exists e, carries g e /\ sent (evs ++ e) 0 s.

Lemma segment_spec name mtime bytes evs (body : StM unit) :
  (forall evs, spec (sent evs (Z.of_nat (length bytes))) body (fun _ => sent_bytes evs 0 bytes) cut) ->
  spec (sent evs 0) (emit (EventFile name (Z.of_nat (length bytes)) mtime);; body)
    (fun _ => sent_segment evs (mkSegment name (Z.of_nat (length bytes)) mtime bytes)) cut.
Proof.
  intros Hb. eapply spec_bind; [apply (spec_emit evs 0 (Z.of_nat (length bytes)))|].
  { cbn. by rewrite (proj2 (Z.leb_le 0 _)) by lia. }
  intros []. eapply spec_weak; [apply Hb|done| |done].
  intros [] s (chunks & <- & Hok & Hs). eexists. split; [exists chunks; split_and!; [reflexivity|done|done]|].
  by rewrite <- app_assoc in Hs.
Qed.

(** What the listing of the live files promises: contents held in memory are as long
    as declared, and a file on disk has at least the bytes it had, which are never
    rewritten. *)
Definition live_ok (bytes_of : LiveFileStorageInfo -> bytes) (f : LiveFileStorageInfo) : Prop :=
  lf_size f = Z.of_nat (length (bytes_of f)) /\
  (replacement_contents f <> [] -> bytes_of f = replacement_contents f) /\
  (replacement_contents f = [] -> holds_prefix (directory f +:+ "/" +:+ relative_filename f) (bytes_of f)).

Definition log_ok (bytes_of : NamedTransactionLogBackupEntry -> bytes) (e : NamedTransactionLogBackupEntry) : Prop :=
  (inlineContents (ne_file e) <> [] -> bytes_of e = inlineContents (ne_file e)) /\
  (inlineContents (ne_file e) = [] ->
     byteLimit (ne_file e) = Z.of_nat (length (bytes_of e)) /\ holds_prefix (sourcePath (ne_file e)) (bytes_of e)).

Definition live_segment (bytes_of : LiveFileStorageInfo -> bytes) (f : LiveFileStorageInfo) : segment :=
  mkSegment (relative_filename f) (lf_size f) 0 (bytes_of f).
Definition log_segment (bytes_of : NamedTransactionLogBackupEntry -> bytes) (e : NamedTransactionLogBackupEntry) : segment :=
  mkSegment (tar_path e) (Z.of_nat (length (bytes_of e))) (fileTimeToEpochSeconds (be_mtime (ne_file e))) (bytes_of e).

Lemma nonempty_length {A} (l : list A) : (length l =? 0)%nat = false -> l <> [].
Proof. by destruct l. Qed.

Lemma stream_live_spec bytes_of f evs : live_ok bytes_of f ->
  spec (sent evs 0) (stream_live f) (fun _ => sent_segment evs (live_segment bytes_of f)) cut.
Proof.
  intros (Hsize & Hrep & Hdisk). unfold stream_live, check_cancelled, live_segment. rewrite Hsize.
  eapply (spec_bind _ _ _ (fun _ => sent evs 0)).
  { apply spec_access. intros n. destruct (se_cancelled n); [apply spec_throw; intros s; apply sent_cut|by apply spec_ret]. }
  intros []. apply segment_spec. intros evs'.
  destruct (length (replacement_contents f) =? 0)%nat eqn:E; cbn [negb].
  - apply stream_prefix_spec, Hdisk. apply Nat.eqb_eq in E. by apply nil_length_inv.
  - rewrite (Hrep (nonempty_length _ E)). by apply stream_inline_spec.
Qed.

(** What the [exists] check at access [n] answers. *)
Definition found_at (n : nat) (path : string) : Prop := se_fails n = false /\ is_Some (se_file n path).

(** A log goes out or is left out by the answer of its [exists] check, which is the
    first access its turn makes. *)
Lemma stream_log_spec bytes_of e evs n : log_ok bytes_of e ->
  spec (fun s => sent evs 0 s /\ ss_n s = n) (stream_log e)
    (fun _ s =>
      sent_segment evs (log_segment bytes_of e) s /\ (n <= ss_n s)%nat /\
        (inlineContents (ne_file e) = [] -> found_at n (sourcePath (ne_file e)) /\ (n < ss_n s)%nat) \/
      sent evs 0 s /\ (n < ss_n s)%nat /\ inlineContents (ne_file e) = [] /\ ~ found_at n (sourcePath (ne_file e))) cut.
Proof.
  intros (Hin & Hdisk) s [Hs <-]. unfold stream_log, log_segment, found_at.
  destruct (length (inlineContents (ne_file e)) =? 0)%nat eqn:E; cbn [negb].
  - apply Nat.eqb_eq, nil_length_inv in E. destruct (Hdisk E) as [-> Hp].
    set (s1 := mkSS (ss_events s) (S (ss_n s)) (ss_deletions s)).
    rewrite (bind_run access _ s (ss_n s) s1) by done.
    destruct (if se_fails (ss_n s) then None else _) as [d|] eqn:Ef; cycle 1.
    { right. split_and!; [done|cbn; lia|done|]. intros [H1 [d H2]]. by rewrite H1, H2 in Ef. }
    destruct (se_fails (ss_n s)) eqn:Ef1; [done|].
    pose proof (segment_spec (tar_path e) (fileTimeToEpochSeconds (be_mtime (ne_file e))) (bytes_of e) evs _
      (fun evs' => stream_prefix_spec _ _ evs' Hp) s1 Hs) as H.
    pose proof (counts_bind _ _ (counts_emit (EventFile (tar_path e) (Z.of_nat (length (bytes_of e))) (fileTimeToEpochSeconds (be_mtime (ne_file e)))))
      (fun _ => counts_prefix (sourcePath (ne_file e)) (Z.of_nat (length (bytes_of e)))) s1) as Hc.
    match type of H with match ?x with _ => _ end => destruct x as [[err|[]] s'] end; [done|]. cbn in Hc. left. split_and!; [done|lia|]. intros _. split; [by rewrite Ef|lia].
  - pose proof (nonempty_length _ E) as Hne. pose proof (Hin Hne) as Hb. rewrite <- Hb.
    pose proof (segment_spec (tar_path e) (fileTimeToEpochSeconds (be_mtime (ne_file e))) (bytes_of e) evs _
      (fun evs' => stream_inline_spec (length (bytes_of e)) (bytes_of e) evs' ltac:(lia)) s Hs) as H.
    pose proof (counts_bind _ _ (counts_emit (EventFile (tar_path e) (Z.of_nat (length (bytes_of e))) (fileTimeToEpochSeconds (be_mtime (ne_file e)))))
      (fun _ => counts_inline (length (bytes_of e)) (bytes_of e)) s) as Hc.
    match type of H with match ?x with _ => _ end => destruct x as [[err|[]] s'] end; [done|]. cbn in Hc. left. split_and!; [done|lia|]. intros H0. by rewrite <- Hb in Hne.
Qed.

(** ** The whole stream *)

Lemma stream_files_spec bytes_of files evs : Forall (live_ok bytes_of) files ->
  spec (sent evs 0) (stream_all stream_live files)
    (fun _ s => exists e, carries_all (live_segment bytes_of <$> files) e /\ sent (evs ++ e) 0 s) cut.
Proof.
  intros Hall. revert evs. induction Hall as [|f files Hf _ IH]; intros evs; cbn [stream_all].
  { apply spec_ret. intros s Hs. exists []. by rewrite app_nil_r. }
  eapply spec_bind; [by apply stream_live_spec|]. intros [] s (e1 & Hc & Hs).
  specialize (IH (evs ++ e1) s Hs). destruct (stream_all stream_live files s) as [[err|[]] s']; [done|].
  destruct IH as (e2 & Hc2 & Hs2). exists (e1 ++ e2). rewrite app_assoc. split; [|done]. by exists e1, e2.
Qed.

(** The logs kept in a stream that made the accesses from [a] on, up to [b]: those held
    in memory, and of the files on disk exactly those that were found when the stream
    asked for them, once each and in the order of the list. *)
Inductive kept_logs (b : nat) : nat -> list NamedTransactionLogBackupEntry -> list NamedTransactionLogBackupEntry -> Prop :=
| kept_nil a : (a <= b)%nat -> kept_logs b a [] []
| kept_memory a e l k : inlineContents (ne_file e) <> [] -> kept_logs b a l k -> kept_logs b a (e :: l) (e :: k)
| kept_file a n e l k : inlineContents (ne_file e) = [] -> (a <= n < b)%nat -> found_at n (sourcePath (ne_file e)) ->
    kept_logs b (S n) l k -> kept_logs b a (e :: l) (e :: k)
| kept_gone a n e l k : inlineContents (ne_file e) = [] -> (a <= n < b)%nat -> ~ found_at n (sourcePath (ne_file e)) ->
    kept_logs b (S n) l k -> kept_logs b a (e :: l) k.

Lemma kept_later b a a' l k : (a' <= a)%nat -> kept_logs b a l k -> kept_logs b a' l k.
Proof.
  intros Ha H. revert a' Ha. induction H; intros a' Ha.
  - apply kept_nil. lia.
  - apply kept_memory; auto.
  - apply (kept_file _ _ n); [done|lia|done|done].
  - apply (kept_gone _ _ n); [done|lia|done|done].
Qed.

Lemma kept_range b a l k : kept_logs b a l k -> (a <= b)%nat.
Proof. induction 1; lia. Qed.

Lemma stream_logs_spec bytes_of logs evs n : Forall (log_ok bytes_of) logs ->
  spec (fun s => sent evs 0 s /\ ss_n s = n) (stream_all stream_log logs)
    (fun _ s => exists kept e, kept_logs (ss_n s) n logs kept /\ carries_all (log_segment bytes_of <$> kept) e /\ sent (evs ++ e) 0 s) cut.
Proof.
  intros Hall. revert evs n. induction Hall as [|f logs Hf _ IH]; intros evs n; cbn [stream_all].
  { apply spec_ret. intros s [Hs <-]. exists [], []. rewrite app_nil_r. split_and!; [by constructor|done|done]. }
  eapply spec_bind; [by apply stream_log_spec|]. intros [] s [((e1 & Hc & Hs) & Hn & Hk1)|(Hs & Hn & Hin & Hgone)].
  - specialize (IH (evs ++ e1) (ss_n s) s (conj Hs eq_refl)). destruct (stream_all stream_log logs s) as [[err|[]] s']; [done|].
    destruct IH as (kept & e2 & Hk & Hc2 & Hs2). exists (f :: kept), (e1 ++ e2). rewrite app_assoc.
    split_and!; [|by exists e1, e2|done]. pose proof (kept_range _ _ _ _ Hk).
    destruct (inlineContents (ne_file f)) eqn:Ei.
    + destruct (Hk1 eq_refl) as [Hfound Hlt]. apply (kept_file _ _ n); [done|lia|done|]. by eapply kept_later.
    + apply kept_memory; [by rewrite Ei|]. by eapply kept_later.
  - specialize (IH evs (ss_n s) s (conj Hs eq_refl)). destruct (stream_all stream_log logs s) as [[err|[]] s']; [done|].
    destruct IH as (kept & e2 & Hk & Hc2 & Hs2). exists kept, e2. split_and!; [|done|done].
    pose proof (kept_range _ _ _ _ Hk). apply (kept_gone _ _ n); [done|lia|done|]. by eapply kept_later.
Qed.

Lemma carries_all_app g1 g2 e1 e2 : carries_all g1 e1 -> carries_all g2 e2 -> carries_all (g1 ++ g2) (e1 ++ e2).
Proof.
  revert e1. induction g1 as [|g g1 IH]; intros e1 H1 H2; cbn in *; [by subst|].
  destruct H1 as (a & b & -> & Ha & Hb). exists a, (b ++ e2). rewrite app_assoc. split_and!; [done|done|by apply IH].
Qed.

(** The contents of a stream that ends well, after [accesses] accesses. *)
Definition stream_result (live_bytes : LiveFileStorageInfo -> bytes) (log_bytes : NamedTransactionLogBackupEntry -> bytes)
    (files : list LiveFileStorageInfo) (logs : list NamedTransactionLogBackupEntry) (withLogs : bool)
    (accesses : nat) (evs : list StreamEvent) : Prop :=
  exists kept, kept_logs accesses 0 (if withLogs then logs else []) kept /\
    carries_all ((live_segment live_bytes <$> files) ++ (log_segment log_bytes <$> kept)) evs.

Lemma stream_work_spec live_bytes log_bytes files logs withLogs :
  Forall (live_ok live_bytes) files -> Forall (log_ok log_bytes) logs ->
  spec (sent [] 0) (stream_files files logs withLogs)
    (fun _ s => stream_result live_bytes log_bytes files logs withLogs (ss_n s) (ss_events s) /\ frame 0 (ss_events s) = Some 0) cut.
Proof.
  intros Hf Hl. unfold stream_files. apply spec_access. intros n.
  destruct (se_fails n); [apply spec_throw; intros s; apply sent_cut|].
  eapply spec_bind; [by apply stream_files_spec|]. intros [] s (e1 & Hc1 & Hs1). cbn [app] in Hs1.
  destruct withLogs.
  - pose proof (stream_logs_spec log_bytes logs e1 (ss_n s) Hl s (conj Hs1 eq_refl)) as H.
    destruct (stream_all stream_log logs s) as [[err|[]] s']; [done|].
    destruct H as (kept & e2 & Hk & Hc2 & [-> Hfr]). split; [|done]. exists kept.
    split; [eapply kept_later; [|exact Hk]; lia|]. by apply carries_all_app.
  - destruct Hs1 as [Hev Hfr]. unfold mret, M_ret. rewrite Hev. split; [|done]. exists []. split; [constructor; lia|]. rewrite <- (app_nil_r e1). by apply carries_all_app.
Qed.

Definition stream_start : SS := mkSS [] 0 true.

(** Whatever fails while a backup is streamed (a read, the consumer, a
    cancellation, a file that got shorter), the events handed over so far are well
    framed: every header comes when the file before it is complete, no chunk is
    empty or larger than the chunk size, and no file receives more bytes than its
    header declared.  When the stream succeeds its last file is complete as well,
    and on every path file deletions are enabled again and no loop runs on. *)
Theorem stream_framed live_bytes log_bytes opened closing files logs withLogs :
  Forall (live_ok live_bytes) files -> Forall (log_ok log_bytes) logs ->
  let '(r, s) := doBackupStream opened closing files logs withLogs stream_start in
  (exists rest, frame 0 (ss_events s) = Some rest /\ (r = inr tt -> rest = 0)) /\
  ss_deletions s = true /\ (forall msg, r <> inl (Diverges msg)).
Proof.
  intros Hf Hl. unfold doBackupStream. mrun. cbn.
  destruct (closing || _); [cbn; split_and!; [by exists 0|done|done]|].
  destruct opened; cbn [negb]; [|cbn; split_and!; [by exists 0|done|done]].
  cbn -[stream_files]. destruct (se_fails 1); [cbn; split_and!; [by exists 0|done|done]|]. cbn -[stream_files].
  pose proof (stream_work_spec live_bytes log_bytes files logs withLogs Hf Hl (mkSS [] 2 false) (conj eq_refl eq_refl)) as H.
  destruct (stream_files files logs withLogs (mkSS [] 2 false)) as [[e|[]] s]; cbn in *.
  - destruct H as [[rest Hr] Hd]. split_and!; [by exists rest|done|]. intros msg [= He]. by apply (Hd msg).
  - destruct H as [_ Hr]. split_and!; [by exists 0|done|done].
Qed.

(** C37: a stream that succeeds carries every live file of the database, then the
    entries of the transaction logs, in order, each under its name with its declared
    size and its time, and in its chunks exactly the bytes it had when the snapshot
    was taken.  The only entries left out are files on disk that the stream did not
    find when their turn came, at an access of its own made in that order: the file
    had been purged, or the [exists] call failed, which the code does not tell apart
    from a purge.  Every file that was found is carried. *)
Theorem stream_contents live_bytes log_bytes opened closing files logs withLogs s :
  Forall (live_ok live_bytes) files -> Forall (log_ok log_bytes) logs ->
  doBackupStream opened closing files logs withLogs stream_start = (inr tt, s) ->
  stream_result live_bytes log_bytes files logs withLogs (ss_n s) (ss_events s).
Proof.
  intros Hf Hl. unfold doBackupStream. mrun. cbn.
  destruct (closing || _); [done|]. destruct opened; cbn [negb]; [|done].
  cbn -[stream_files]. destruct (se_fails 1); [done|]. cbn -[stream_files].
  pose proof (stream_work_spec live_bytes log_bytes files logs withLogs Hf Hl (mkSS [] 2 false) (conj eq_refl eq_refl)) as H.
  destruct (stream_files files logs withLogs (mkSS [] 2 false)) as [[e|[]] s1]; cbn in *; [done|]. intros [= <-]. apply H.
Qed.
End Proofs.

(** ** Witnesses *)

(** Files on disk that are longer than their snapshot, read two bytes at a time, and
    one live file in memory; of three log entries one is on disk, one was purged and
    one is in memory. *)
Program Definition demo_stream : StreamEnv :=
  {| se_emit := fun _ => Acked; se_fails := fun _ => false; se_read := fun _ k => Z.min 2 k;
     se_file := fun _ p => if String.eqb p "d/1.sst" then Some [Byte.x61; Byte.x62; Byte.x63; Byte.x64]
                           else if String.eqb p "l/2.txnlog" then Some [Byte.x65; Byte.x66] else None;
     se_cancelled := fun _ => false |}.
Next Obligation. lia. Defined.

Definition demo_live : list LiveFileStorageInfo :=
  [mkLiveFile "1.sst" "d" 3 []; mkLiveFile "CURRENT" "d" 1 [Byte.x0a]].
Definition demo_live_bytes (f : LiveFileStorageInfo) : bytes :=
  if String.eqb (relative_filename f) "1.sst" then [Byte.x61; Byte.x62; Byte.x63] else [Byte.x0a].

Definition demo_logs : list NamedTransactionLogBackupEntry :=
  [mkNamed "l" (mkBackupEntry "1.txnlog" "l/1.txnlog" 2 7000000000 true []);
   mkNamed "l" (mkBackupEntry "2.txnlog" "l/2.txnlog" 1 8000000000 false []);
   mkNamed "l" (mkBackupEntry "txn.state" "l/txn.state" 1 6000000000 false [Byte.x2a])].
Definition demo_log_bytes (e : NamedTransactionLogBackupEntry) : bytes :=
  if String.eqb (relativeName (ne_file e)) "1.txnlog" then [Byte.x67; Byte.x68]
  else if String.eqb (relativeName (ne_file e)) "2.txnlog" then [Byte.x65] else [Byte.x2a].

Lemma demo_live_ok : Forall (live_ok (SE := demo_stream) demo_live_bytes) demo_live.
Proof.
  unfold demo_live. rewrite !Forall_cons. split_and!; [| |done]; (split_and!; [done|done|]); [|done].
  intros _ n d H. cbn in H. injection H as <-. done.
Defined.

Lemma demo_log_ok : Forall (log_ok (SE := demo_stream) demo_log_bytes) demo_logs.
Proof.
  unfold demo_logs. rewrite !Forall_cons. split_and!; [| | |done]; (split; [done|]); [| |done];
    (intros _; split; [done|]; intros n d H; cbn in H; try discriminate H; injection H as <-; done).
Defined.

Lemma stream_contents_witness :
  stream_result (SE := demo_stream) demo_live_bytes demo_log_bytes demo_live demo_logs true 12
    [EventFile "1.sst" 3 0; EventChunk [Byte.x61; Byte.x62]; EventChunk [Byte.x63]; EventFile "CURRENT" 1 0; EventChunk [Byte.x0a];
     EventFile "transaction_logs/l/2.txnlog" 1 8; EventChunk [Byte.x65];
     EventFile "transaction_logs/l/txn.state" 1 6; EventChunk [Byte.x2a]].
Proof.
  exact (stream_contents (SE := demo_stream) demo_live_bytes demo_log_bytes true false demo_live demo_logs true
    (snd (doBackupStream (SE := demo_stream) true false demo_live demo_logs true stream_start))
    demo_live_ok demo_log_ok ltac:(vm_compute; reflexivity)).
Defined.
