(* ===== verification/BackupHandshake.v ===== *)
(** * The handshake of a streamed backup

    [database/backup_stream.cpp], the two threads under [emit]: the worker hands one
    event to the JavaScript thread and waits; the trampoline copies it, calls
    JavaScript and attaches a continuation to the promise; the continuation wakes
    the worker.  While the database closes, the worker gives up waiting and frees
    the memory its event borrows, and the JavaScript thread must neither read that
    memory nor touch the shared state after it is deleted.

    A step is one critical section of [ackMutex], or one action outside of it that
    the other thread can tell apart.  The states a step may start from are its
    premises; which N-API calls fail and when the database closes is the choice of
    the step. *)

From S2P Require Import Prelude.
From stdpp Require Import base tactics list.
From Stdlib Require Import ZArith Lia.

Local Open Scope Z_scope.

(** ** State *)

(** The worker: working between two events, about to hand over an event, waiting for
    the ack, returning from [doBackupStream], or done. *)
Inductive worker_pc := Working | Waiting | Returning | Done.

(** Which kind of event is in the queue of the threadsafe function. *)
Inductive ev_kind := KFile | KChunk.

Record AsyncBackupStreamState := mkHS {
  hs_worker : worker_pc;
  hs_ackReady : bool;
  hs_aborted : bool;
  hs_refCount : Z;
  hs_deleted : nat;               (* times [delete this] ran *)
  hs_queue : list ev_kind;        (* events the trampoline has not run for *)
  hs_inside : option ev_kind;     (* the trampoline is past its copy, before its end *)
  hs_pending : nat;               (* continuations attached and not run *)
  hs_completed : bool;            (* the complete callback has run *)
  hs_released : bool;             (* the threadsafe function has been released *)
  hs_finalized : bool;            (* its finalizer has run *)
  hs_buffer : bool;               (* the memory that chunk events borrow is alive *)
  hs_bad_read : bool;             (* a chunk was copied from memory that was freed *)
  hs_bad_use : bool               (* the state was used after it was deleted *)
}.

(** After [Database::BackupStream]: the complete callback and the threadsafe function
    hold a reference each. *)
Definition hs_start : AsyncBackupStreamState :=
  mkHS Working false false 2 0 [] None 0 false false false true false false.

(** ** Actions *)

Definition set_worker pc s := mkHS pc (hs_ackReady s) (hs_aborted s) (hs_refCount s) (hs_deleted s) (hs_queue s)
  (hs_inside s) (hs_pending s) (hs_completed s) (hs_released s) (hs_finalized s) (hs_buffer s) (hs_bad_read s) (hs_bad_use s).
Definition set_ack r a s := mkHS (hs_worker s) r a (hs_refCount s) (hs_deleted s) (hs_queue s)
  (hs_inside s) (hs_pending s) (hs_completed s) (hs_released s) (hs_finalized s) (hs_buffer s) (hs_bad_read s) (hs_bad_use s).
Definition set_refs n d s := mkHS (hs_worker s) (hs_ackReady s) (hs_aborted s) n d (hs_queue s)
  (hs_inside s) (hs_pending s) (hs_completed s) (hs_released s) (hs_finalized s) (hs_buffer s) (hs_bad_read s) (hs_bad_use s).
Definition set_queue q i s := mkHS (hs_worker s) (hs_ackReady s) (hs_aborted s) (hs_refCount s) (hs_deleted s) q
  i (hs_pending s) (hs_completed s) (hs_released s) (hs_finalized s) (hs_buffer s) (hs_bad_read s) (hs_bad_use s).
Definition set_pending n s := mkHS (hs_worker s) (hs_ackReady s) (hs_aborted s) (hs_refCount s) (hs_deleted s) (hs_queue s)
  (hs_inside s) n (hs_completed s) (hs_released s) (hs_finalized s) (hs_buffer s) (hs_bad_read s) (hs_bad_use s).
Definition set_life c r f s := mkHS (hs_worker s) (hs_ackReady s) (hs_aborted s) (hs_refCount s) (hs_deleted s) (hs_queue s)
  (hs_inside s) (hs_pending s) c r f (hs_buffer s) (hs_bad_read s) (hs_bad_use s).
Definition set_buffer b r s := mkHS (hs_worker s) (hs_ackReady s) (hs_aborted s) (hs_refCount s) (hs_deleted s) (hs_queue s)
  (hs_inside s) (hs_pending s) (hs_completed s) (hs_released s) (hs_finalized s) b r (hs_bad_use s).

(** Every access to the object. *)
Definition touch s := mkHS (hs_worker s) (hs_ackReady s) (hs_aborted s) (hs_refCount s) (hs_deleted s) (hs_queue s)
  (hs_inside s) (hs_pending s) (hs_completed s) (hs_released s) (hs_finalized s) (hs_buffer s) (hs_bad_read s)
  (hs_bad_use s || negb (hs_deleted s =? 0)%nat).

Definition acquire s := let s := touch s in set_refs (hs_refCount s + 1) (hs_deleted s) s.
Definition release s := let s := touch s in
  set_refs (hs_refCount s - 1) (if hs_refCount s =? 1 then S (hs_deleted s) else hs_deleted s) s.

Definition signalAck (ok : bool) s := let s := touch s in set_ack true (if ok then hs_aborted s else true) s.

(** [emit] of the worker: the flag is reset and the event queued; *)
Definition emit_queue (k : ev_kind) s := let s := touch s in
  set_worker Waiting (set_queue (hs_queue s ++ [k]) (hs_inside s) (set_ack false (hs_aborted s) s)).
(** or the call fails, the event is reclaimed and the stream stops; *)
Definition emit_fails s := let s := touch s in set_worker Returning (set_ack false true s).
(** the wait ends with the ack; *)
Definition emit_acked s := let s := touch s in set_worker (if hs_aborted s then Returning else Working) s.
(** or is given up, the abort published under the mutex. *)
Definition emit_abandoned s := let s := touch s in set_worker Returning (set_ack (hs_ackReady s) true s).

(** The end of [doBackupStream] frees the read buffer and the file list with its inline
    contents; the rest of [backupStreamExecute] uses the state once more. *)
Definition backupStreamExecute_end s := set_worker Done (set_buffer false (hs_bad_read s) (touch s)).

(** [emitTrampoline] takes the event and fails before it is built; *)
Definition trampoline_fails q s := signalAck false (set_queue q None s).
(** copies the borrowed bytes ([napi_create_buffer_copy]); *)
Definition copy_chunk s := set_buffer (hs_buffer s) (hs_bad_read s || negb (hs_buffer s)) s.
(** attaches the continuation; *)
Definition attach_ack s := let s := acquire s in set_pending (S (hs_pending s)) (set_queue (hs_queue s) None s).
(** or fails to, after the reference was taken. *)
Definition attach_fails s := release (signalAck false (acquire (set_queue (hs_queue s) None s))).

(** [onAckResolved] and [onAckRejected]. *)
Definition onAck (ok : bool) s := release (signalAck ok s).

Definition backupStreamComplete s := release (set_life true true (hs_finalized s) (touch s)).

Definition tsfnFinalize s := release (set_life (hs_completed s) (hs_released s) true s).

(** ** Steps *)

(** [closing]: what [isClosing() || isCancelled()] answers.  The step [J_continue] is one
    of the two continuations of a promise, so each attachment is taken by one of them.
    [emit] resets the flag and queues the event in two critical sections; nothing is in
    flight in between, so the two are one step. *)
Inductive hs_step (closing : bool) : AsyncBackupStreamState -> AsyncBackupStreamState -> Prop :=
(* emit: reset the flag and queue the event *)
| W_emit s k : hs_worker s = Working ->
    hs_step closing s (emit_queue k s)
(* emit: the call fails; the event is reclaimed and the stream stops *)
| W_emit_fails s : hs_worker s = Working ->
    hs_step closing s (emit_fails s)
(* emit: the ack is there *)
| W_ack s : hs_worker s = Waiting -> hs_ackReady s = true ->
    hs_step closing s (emit_acked s)
(* emit: the database is closing and there is no ack *)
| W_abandon s : closing = true -> hs_worker s = Waiting -> hs_ackReady s = false ->
    hs_step closing s (emit_abandoned s)
(* doBackupStream fails or ends by itself *)
| W_return s : hs_worker s = Working -> hs_step closing s (set_worker Returning s)
(* doBackupStream returns: the read buffer goes, then backupStreamExecute ends *)
| W_free s : hs_worker s = Returning -> hs_step closing s (backupStreamExecute_end s)
(* emitTrampoline: no environment *)
| J_no_env s k q : hs_queue s = k :: q -> hs_inside s = None ->
    hs_step closing s (trampoline_fails q s)
(* emitTrampoline: a failure before the copy *)
| J_build_fails s k q : hs_queue s = k :: q -> hs_inside s = None ->
    hs_step closing s (trampoline_fails q s)
(* emitTrampoline: a header is built from the event's own fields *)
| J_file s q : hs_queue s = KFile :: q -> hs_inside s = None ->
    hs_step closing s (set_queue q (Some KFile) (touch s))
(* emitTrampoline: a chunk, under the mutex *)
| J_chunk_aborted s q : hs_queue s = KChunk :: q -> hs_inside s = None -> hs_aborted s = true ->
    hs_step closing s (set_queue q None (touch s))
| J_chunk s q : hs_queue s = KChunk :: q -> hs_inside s = None -> hs_aborted s = false ->
    hs_step closing s (copy_chunk (set_queue q (Some KChunk) (touch s)))
(* emitTrampoline: a failure after the copy *)
| J_call_fails s k : hs_inside s = Some k -> hs_step closing s (signalAck false (set_queue (hs_queue s) None s))
(* emitTrampoline: then() is attached, or fails after the reference was taken *)
| J_attach s k : hs_inside s = Some k ->
    hs_step closing s (attach_ack s)
| J_attach_fails s k : hs_inside s = Some k ->
    hs_step closing s (attach_fails s)
(* onAckResolved and onAckRejected *)
| J_continue s n ok : hs_pending s = S n -> hs_inside s = None ->
    hs_step closing s (onAck ok (set_pending n s))
(* backupStreamComplete *)
| J_complete s : hs_worker s = Done -> hs_completed s = false -> hs_inside s = None ->
    hs_step closing s (backupStreamComplete s)
(* tsfnFinalize: after the release, when the queue has drained *)
| J_finalize s : hs_released s = true -> hs_finalized s = false -> hs_queue s = [] -> hs_inside s = None ->
    hs_step closing s (tsfnFinalize s).

Inductive hs_reachable : AsyncBackupStreamState -> Prop :=
| hs_init : hs_reachable hs_start
| hs_next closing s s' : hs_reachable s -> hs_step closing s s' -> hs_reachable s'.

(** ** Invariant *)

Definition b2z (b : bool) : Z := if b then 1 else 0.

(** Where the event in flight can be. *)
Definition flight (s : AsyncBackupStreamState) : nat :=
  (length (hs_queue s) + (if hs_inside s is Some _ then 1 else 0) + hs_pending s)%nat.

Record hs_inv (s : AsyncBackupStreamState) : Prop := {
  (* one reference for the complete callback, the threadsafe function and each continuation *)
  hi_refs : hs_refCount s = b2z (negb (hs_completed s)) + b2z (negb (hs_finalized s)) + Z.of_nat (hs_pending s);
  hi_deleted : hs_deleted s = if hs_refCount s =? 0 then 1%nat else 0%nat;
  hi_flight : (flight s <= 1)%nat;
  hi_working : hs_worker s = Working -> hs_aborted s = false /\ flight s = 0%nat;
  hi_waiting : hs_worker s = Waiting ->
    if hs_ackReady s then flight s = 0%nat else flight s = 1%nat /\ hs_aborted s = false;
  hi_gone : hs_worker s = Returning \/ hs_worker s = Done -> flight s = 0%nat \/ hs_aborted s = true;
  hi_life : (hs_completed s = true -> hs_worker s = Done) /\ (hs_released s = hs_completed s) /\
            (hs_finalized s = true -> hs_released s = true);
  hi_drained : hs_finalized s = true -> hs_queue s = [] /\ hs_inside s = None;
  hi_buffer : hs_worker s <> Done -> hs_buffer s = true;
  hi_good : hs_bad_read s = false /\ hs_bad_use s = false
}.

(** Someone who holds a reference finds the object alive. *)
Lemma hs_held s : hs_inv s ->
  hs_completed s = false \/ hs_finalized s = false \/ (0 < hs_pending s)%nat ->
  hs_deleted s = 0%nat /\ 0 < hs_refCount s.
Proof.
  intros I H. pose proof (hi_refs s I) as Hr. rewrite (hi_deleted s I).
  assert (0 < hs_refCount s) as Hp.
  { rewrite Hr. unfold b2z. destruct H as [H | [H | H]]; try rewrite H; simpl;
      repeat match goal with |- context [if ?b then _ else _] => destruct b end; lia. }
  split; [| exact Hp]. destruct (hs_refCount s =? 0) eqn:E; [lia | reflexivity].
Qed.

Lemma hs_start_inv : hs_inv hs_start.
Proof. split; cbn; try done; try lia; intros [H | H]; discriminate H. Qed.

(** Who takes a step holds a reference. *)
Lemma hs_step_held closing s s' : hs_inv s -> hs_step closing s s' ->
  hs_completed s = false \/ hs_finalized s = false \/ (0 < hs_pending s)%nat.
Proof.
  intros I St.
  pose proof (hi_life s I) as [Hc _]. pose proof (hi_drained s I) as Hd.
  assert (hs_worker s <> Done -> hs_completed s = false) as Hw.
  { intros N. destruct (hs_completed s); [destruct N; by apply Hc | done]. }
  assert (hs_queue s <> [] \/ hs_inside s <> None -> hs_finalized s = false) as Hq.
  { intros N. destruct (hs_finalized s); [| done]. destruct (Hd eq_refl) as [E1 E2]. rewrite E1, E2 in N. naive_solver. }
  inversion St; subst;
    first [ left; apply Hw; congruence | right; left; apply Hq; first [left; congruence | right; congruence]
          | right; right; lia | left; assumption | right; left; assumption ].
Qed.

(** The cases of the invariant after a step on a state in its parts. *)
Ltac hs_solve :=
  rewrite ?length_app in *; cbn in *; intros; destruct_and?; simplify_eq/=;
  repeat match goal with
  | |- context [if ?b then _ else _] => destruct b eqn:?; simplify_eq/=
  | H : context [if ?b then _ else _] |- _ => destruct b eqn:?; simplify_eq/=
  end; destruct_and?; try first [done | lia | split; (done || lia) | left; lia | right; done | intuition (congruence || lia)].

(** A chunk whose event is in the queue, and no abort published: the worker waits. *)
Lemma hs_borrow s q : hs_inv s -> hs_queue s = KChunk :: q -> hs_aborted s = false -> hs_buffer s = true.
Proof.
  intros I Hq Ha. apply (hi_buffer s I). intros Hw.
  pose proof (hi_gone s I (or_intror Hw)) as [F | F]; [| congruence].
  unfold flight in F. rewrite Hq in F. discriminate F.
Qed.

Lemma hs_step_inv closing s s' : hs_inv s -> hs_step closing s s' -> hs_inv s'.
Proof.
  intros I St. pose proof (hs_held s I (hs_step_held closing s s' I St)) as [Hd Hr].
  pose proof (fun q => hs_borrow s q I) as Hb.
  destruct I as [Ir Id If Iw Ia Ig Il Idr Ib Igd].
  destruct s as [pc ack ab rc del qu ins pend comp rel fin buf br bu]; inversion St; clear St; subst;
    unfold emit_queue, emit_fails, emit_acked, emit_abandoned, backupStreamExecute_end, trampoline_fails,
      attach_ack, attach_fails, onAck, backupStreamComplete, tsfnFinalize, flight, acquire, release,
      signalAck, copy_chunk, touch in *; cbn in *; subst; cbn in *;
    try specialize (Hb _ eq_refl eq_refl).
  all: split; unfold flight; cbn; solve [hs_solve].
Qed.

Lemma hs_reachable_inv s : hs_reachable s -> hs_inv s.
Proof. induction 1; eauto using hs_start_inv, hs_step_inv. Qed.

(** ** Claims *)

(** C32: in every interleaving of the worker, the trampoline, the promise continuations,
    the complete callback and the finalizer - the database closing at any moment and any
    N-API call failing - no chunk is copied from memory the worker has freed, the shared
    state is not used after it is deleted, it is deleted at most once, and at most one
    event is in flight. *)
Theorem handshake_safe s : hs_reachable s ->
  hs_bad_read s = false /\ hs_bad_use s = false /\ (hs_deleted s <= 1)%nat /\ (flight s <= 1)%nat.
Proof.
  intros R. apply hs_reachable_inv in R. destruct (hi_good s R) as [Hr Hu].
  repeat split; [done | done | | apply (hi_flight s R)].
  rewrite (hi_deleted s R). by destruct (_ =? _); lia.
Qed.

(** C33: the stream cannot hang and does not leak.  A state where nothing can happen any
    more, the database staying open and every promise of the consumer settled, is one where the worker has returned, the promise
    is settled, the threadsafe function is finalized and the state has been deleted,
    exactly once. *)
Theorem handshake_ends s : hs_reachable s -> (forall s', ~ hs_step false s s') ->
  hs_worker s = Done /\ hs_completed s = true /\ hs_finalized s = true /\ hs_deleted s = 1%nat.
Proof.
  intros R Stuck. apply hs_reachable_inv in R.
  assert (hs_inside s = None) as Hi.
  { destruct (hs_inside s) eqn:E; [| done]. destruct (Stuck _ (J_call_fails _ s _ E)). }
  assert (hs_queue s = []) as Hq.
  { destruct (hs_queue s) eqn:E; [done |]. destruct (Stuck _ (J_no_env _ s _ _ E Hi)). }
  assert (hs_pending s = 0%nat) as Hp.
  { destruct (hs_pending s) eqn:E; [done |]. destruct (Stuck _ (J_continue _ s _ true E Hi)). }
  assert (hs_worker s = Done) as Hw.
  { destruct (hs_worker s) eqn:E; [| | | done].
    - destruct (Stuck _ (W_return _ s E)).
    - pose proof (hi_waiting s R E) as H. destruct (hs_ackReady s) eqn:Ea.
      + destruct (Stuck _ (W_ack _ s E Ea)).
      + unfold flight in H. rewrite Hi, Hq, Hp in H. by destruct H.
    - destruct (Stuck _ (W_free _ s E)). }
  assert (hs_completed s = true) as Hc.
  { destruct (hs_completed s) eqn:E; [done |]. destruct (Stuck _ (J_complete _ s Hw E Hi)). }
  assert (hs_finalized s = true) as Hf.
  { destruct (hs_finalized s) eqn:E; [done |].
    apply not_false_iff_true. intros _. refine (Stuck _ (J_finalize _ s _ E Hq Hi)).
    destruct (hi_life s R) as [_ [-> _]]. exact Hc. }
  repeat split; [assumption .. |].
  rewrite (hi_deleted s R), (hi_refs s R), Hc, Hf, Hp. reflexivity.
Qed.

(** The database closes while a chunk is queued; the trampoline runs after the complete
    callback, and the finalizer last. *)
Definition closed_stream : AsyncBackupStreamState :=
  mkHS Done false true 0 1 [] None 0 true true true false false false.

Lemma closed_stream_reachable : hs_reachable closed_stream.
Proof.
  pose proof hs_init as R.
  eapply (hs_next true) in R; [| apply (W_emit _ _ KChunk); reflexivity].
  eapply (hs_next true) in R; [| apply W_abandon; reflexivity].
  eapply (hs_next true) in R; [| apply W_free; reflexivity].
  eapply (hs_next true) in R; [| apply J_complete; reflexivity].
  eapply (hs_next true) in R; [| eapply J_chunk_aborted; reflexivity].
  eapply (hs_next true) in R; [| apply J_finalize; reflexivity].
  exact R.
Qed.

Lemma handshake_safe_witness : hs_reachable closed_stream /\ hs_bad_read closed_stream = false /\
  hs_bad_use closed_stream = false /\ (hs_deleted closed_stream <= 1)%nat /\ (flight closed_stream <= 1)%nat.
Proof. split; [apply closed_stream_reachable | apply (handshake_safe closed_stream), closed_stream_reachable]. Defined.

Lemma handshake_ends_witness : hs_deleted closed_stream = 1%nat /\ hs_worker closed_stream = Done.
Proof.
  destruct (handshake_ends closed_stream closed_stream_reachable) as [H1 [_ [_ H2]]].
  - intros s' St. inversion St; discriminate.
  - split; assumption.
Defined.
