(* ===== verification/VerifiedRead.v ===== *)
(** * Reads that the verification table answers

    [database/database.h] (parsing a version, the slot of a key, the gated populate,
    the result of an asynchronous read), the reads and the writes outside of
    transactions of [database/database.cpp], [Transaction::GetSync] and [Get]
    ([transaction/transaction.cpp]) and [TransactionHandle::get].

    These functions touch three shared things: RocksDB, the slots of the table and the
    snapshot of a transaction, and other threads run between any two of the accesses.
    A function is therefore a program: a finite tree of requests, one per access, whose
    branches are the answers.  [VerifiedReadSystem] runs the programs in every
    interleaving. *)

From S2P Require Import Prelude Encoding VerificationTable.
From stdpp Require Import base tactics list strings.
From coqutil Require Import Byte LittleEndianList.
From Stdlib Require Import ZArith Lia SpecFloat.

Local Open Scope Z_scope.

(** ** Programs *)

(** A column family and a key of it. *)
Definition key : Type := Z * bytes.
#[export] Instance byte_eq_dec : EqDecision Byte.byte := Byte.byte_eq_dec.
#[export] Instance key_eq_dec : EqDecision key := _.

Inductive rstatus := ROk | RNotFound | RIncomplete | RError (message : string).

Inductive req :=
| QPending                                   (* the tests of a transaction read: its message, or none *)
| QEnsure                                    (* TransactionHandle::ensureSnapshot *)
| QReadSnapshot                              (* TransactionHandle::readSnapshot: its sequence number *)
| QTxnGet (cacheOnly : bool) (k : key)       (* txn->Get *)
| QOpened                                    (* the handle is open and not cancelled *)
| QGet (cacheOnly : bool) (k : key)          (* db->Get *)
| QLatestSeq                                 (* db->GetLatestSequenceNumber *)
| QIntProperty (name : string)               (* db->GetIntProperty *)
| QWrite (ws : list (key * option bytes))    (* db->Put, Delete, Write *)
| QBatchPut (k : key) (value : bytes)         (* batch.Put *)
| QLoad (i : nat)                            (* slot->load *)
| QPublish (i : nat) (observed version : Z)  (* populateVersionIfUnchanged *)
| QPopulate (i : nat) (version : Z)          (* populateVersion *)
| QLock (i : nat)                            (* lockSlotForWrite: the tracker *)
| QRelease (i : nat) (tracker : Z).          (* releaseWriteIntent *)

Definition resp (q : req) : Type :=
  match q with
  | QPending => option string
  | QEnsure => unit
  | QReadSnapshot => option Z
  | QTxnGet _ _ | QGet _ _ => rstatus * bytes
  | QOpened => bool
  | QLatestSeq => Z
  | QIntProperty _ => option Z
  | QWrite _ | QBatchPut _ _ => rstatus
  | QLoad _ => Z
  | QPublish _ _ _ | QPopulate _ _ => bool
  | QLock _ => Z
  | QRelease _ _ => unit
  end.

Inductive prog (A : Type) : Type :=
| Ret (a : A)
| Ask (q : req) (k : resp q -> prog A).
Arguments Ret {A} a.
Arguments Ask {A} q k.

#[export] Instance prog_ret : MRet prog := fun A => Ret.
#[export] Instance prog_bind : MBind prog := fun A B f =>
  fix bind (p : prog A) : prog B := match p with Ret a => f a | Ask q k => Ask q (fun r => bind (k r)) end.

Definition ask (q : req) : prog (resp q) := Ask q Ret.

(** ** Versions and flags *)

(** [arg]: the bits of the double, when the argument is a number. *)
Definition parseExpectedVersion (arg : option Z) : option Z :=
  match arg with
  | None => None
  | Some v => if vtIsLock v || (v =? 0) then None else Some v
  end.

Definition vtSlotFor (vt : option VT) (dbPtr cfId : Z) (k : bytes) : option nat :=
  match vt with None => None | Some vt => slotFor vt dbPtr cfId k end.

Definition ONLY_IF_IN_MEMORY_CACHE_FLAG : Z := 0x40000000.
Definition NOT_IN_MEMORY_CACHE_FLAG : Z := 0x40000000.
Definition ALWAYS_CREATE_NEW_BUFFER_FLAG : Z := 0x20000000.
Definition POPULATE_VERSION_FLAG : Z := 0x10000000.
Definition FRESH_VERSION_FLAG : Z := 0x08000000.

Definition set_in (flags f : Z) : bool := negb (Z.land flags f =? 0).

Definition is_some {A} (o : option A) : bool := match o with Some _ => true | None => false end.

(** ** The gated populate *)

(** A [double] from its bits, and from an integer. *)
Definition double_of_bits (d : Z) : spec_float :=
  let m := Z.land d (Z.ones 52) in
  let e := Z.land (Z.shiftr d 52) (Z.ones 11) in
  let s := Z.testbit d 63 in
  if e =? 2047 then if m =? 0 then S754_infinity s else S754_nan
  else if e =? 0 then match m with Zpos p => S754_finite s p (-1074) | _ => S754_zero s end
  else match Z.lor m (Z.shiftl 1 52) with Zpos p => S754_finite s p (e - 1075) | _ => S754_nan end.
Definition double_of_Z (n : Z) : spec_float := binary_normalize 53 1024 n 0 false.

(** Gate 1: [static_cast<double>(oldestSnapshotSec) * 1000.0 < versionMs]. *)
Definition forward_dated (oldestSnapshotSec version : Z) : bool :=
  SFltb (SFmul 53 1024 (double_of_Z oldestSnapshotSec) (double_of_Z 1000)) (double_of_bits version).

(** A version that cannot be published. *)
Definition no_version (v : Z) : bool := (v =? 0) || vtIsLock v.

(** The latest committed version, when it is known or can be read. *)
Definition latest_version (k : key) (readVersion : Z) (readSnapshot : option Z) : prog (option Z) :=
  match readSnapshot with
  | None => mret (Some readVersion)
  | Some s =>
      latest ← ask QLatestSeq;
      if latest <=? s then mret (Some readVersion)
      else
        r ← ask (QGet false k);
        match r with
        | (ROk, value) =>
            let v := extractVersionFromValue value in
            if no_version v then mret None else mret (Some v)
        | _ => mret None
        end
  end.

(** The two gates: whether the version may be published. *)
Definition snapshot_gates (version : Z) : prog bool :=
  time ← ask (QIntProperty "rocksdb.oldest-snapshot-time");
  match time with
  | None | Some 0 => mret true
  | Some oldestSnapshotSec =>
      if forward_dated oldestSnapshotSec version then mret false
      else
        latestSeq ← ask QLatestSeq;
        oldest ← ask (QIntProperty "rocksdb.oldest-snapshot-sequence");
        match oldest with
        | Some oldestSnapshotSeq => mret (negb (oldestSnapshotSeq <? latestSeq))
        | None => mret true
        end
  end.

(** The descriptor has its [db] while the caller's operation guard is alive. *)
Definition vtPopulateIfSettled (slot : option nat) (k : key) (readVersion : Z) (readSnapshot : option Z)
    (observedSlot : Z) : prog unit :=
  match slot with
  | None => mret tt
  | Some i =>
      if no_version readVersion then mret tt
      else
        version ← latest_version k readVersion readSnapshot;
        match version with
        | None => mret tt
        | Some version =>
            go ← snapshot_gates version;
            if go : bool then _ ← ask (QPublish i observedSlot version); mret tt else mret tt
        end
  end.

(** ** Synchronous reads *)

(** What a read hands to JavaScript.  [InBuffer]: the bytes are in the default value
    buffer and the length is returned. *)
Inductive get_result :=
| Undefined
| Int32 (n : Z)
| InBuffer (data : bytes)
| NewBuffer (data : bytes)
| Throws (message : string).

(** [argv] of a transaction identifier: none, one that is not found, a transaction. *)
Inductive txn_arg := NoTxn | TxnMissing | Txn.

Definition TransactionHandle_getSync (cacheOnly : bool) (k : key) : prog (rstatus * bytes) :=
  refused ← ask QPending;
  match refused with
  | Some message => mret (RError message, [])
  | None => ask QEnsure;; ask (QTxnGet cacheOnly k)
  end.

Definition return_value (bufferLength : option nat) (flags : Z) (value : bytes) : get_result :=
  match bufferLength with
  | Some n => if negb (set_in flags ALWAYS_CREATE_NEW_BUFFER_FLAG) && (length value <=? n)%nat
              then InBuffer value else NewBuffer value
  | None => NewBuffer value
  end.

(** From the comment "Seed the slot" on. *)
Definition seed_and_return (bufferLength : option nat) (flags : Z) (vtSlot : option nat) (k : key)
    (expected : option Z) (readSnapshot : option Z) (vtObserved : Z) (value : bytes) : prog get_result :=
  match vtSlot with
  | None => mret (return_value bufferLength flags value)
  | Some _ =>
      let extracted := extractVersionFromValue value in
      vtPopulateIfSettled vtSlot k extracted readSnapshot vtObserved;;
      mret (if bool_decide (expected = Some extracted) then Int32 FRESH_VERSION_FLAG
            else return_value bufferLength flags value)
  end.

Definition load_observed (vtSlot : option nat) : prog Z :=
  match vtSlot with Some i => ask (QLoad i) | None => mret 0 end.

Section handle.

(** The handle: its column family, the slot of the key, the length of its default
    value buffer. *)
Context (cf : Z) (bufferLength : option nat).

(** From the load of the slot on. *)
Definition GetSync_from_load (vtSlot : option nat) (k : bytes) (flags : Z) (inTxn : bool) (expected : option Z) : prog get_result :=
  vtObserved ← load_observed vtSlot;
  if is_some vtSlot && bool_decide (expected = Some vtObserved) then mret (Int32 FRESH_VERSION_FLAG)
  else
    let cacheOnly := set_in flags ONLY_IF_IN_MEMORY_CACHE_FLAG in
    r ← (if inTxn then TransactionHandle_getSync cacheOnly (cf, k) else ask (QGet cacheOnly (cf, k)));
    readSnapshot ← (if inTxn then ask QReadSnapshot else mret None);
    match r with
    | (RNotFound, _) => mret Undefined
    | (RIncomplete, _) => mret (Int32 NOT_IN_MEMORY_CACHE_FLAG)
    | (RError message, _) => mret (Throws message)
    | (ROk, value) => seed_and_return bufferLength flags vtSlot (cf, k) expected readSnapshot vtObserved value
    end.

Definition Database_GetSync (slot : option nat) (k : bytes) (flags : Z) (txn : txn_arg) (arg : option Z) : prog get_result :=
  let expected := parseExpectedVersion arg in
  let vtSlot := if is_some expected || set_in flags POPULATE_VERSION_FLAG then slot else None in
  match txn with
  | TxnMissing => mret (Throws "Get sync failed: Transaction not found")
  | Txn => ask QEnsure;; GetSync_from_load vtSlot k flags true expected
  | NoTxn => GetSync_from_load vtSlot k flags false expected
  end.

(** The transaction's own handle; [Incomplete] is not [ok], so its test comes too late. *)
Definition Transaction_GetSync (slot : option nat) (k : bytes) (flags : Z) (arg : option Z) : prog get_result :=
  let expected := parseExpectedVersion arg in
  let vtSlot := if is_some expected || set_in flags POPULATE_VERSION_FLAG then slot else None in
  ask QEnsure;;
  vtObserved ← load_observed vtSlot;
  if is_some vtSlot && bool_decide (expected = Some vtObserved) then mret (Int32 FRESH_VERSION_FLAG)
  else
    r ← TransactionHandle_getSync (set_in flags ONLY_IF_IN_MEMORY_CACHE_FLAG) (cf, k);
    match r with
    | (RNotFound, _) => mret Undefined
    | (RIncomplete, _) => mret (Throws "Incomplete")
    | (RError message, _) => mret (Throws message)
    | (ROk, value) =>
        readSnapshot ← (match vtSlot with Some _ => ask QReadSnapshot | None => mret None end);
        seed_and_return bufferLength flags vtSlot (cf, k) expected readSnapshot vtObserved value
    end.

Definition Database_VerifyVersion (slot : option nat) (arg : option Z) : prog (string + bool) :=
  match arg with
  | None => mret (inl "Version must be a number")
  | Some _ =>
      match parseExpectedVersion arg, slot with
      | Some version, Some i => v ← ask (QLoad i); mret (inr (v =? version))
      | _, _ => mret (inr false)
      end
  end.

Definition Database_PopulateVersion (slot : option nat) (arg : option Z) : prog (string + unit) :=
  match arg with
  | None => mret (inl "Version must be a number")
  | Some _ =>
      match parseExpectedVersion arg, slot with
      | Some version, Some i => _ ← ask (QPopulate i version); mret (inr tt)
      | _, _ => mret (inr tt)
      end
  end.

(** ** Writes outside of a transaction *)

(** [slot] is the slot of the key when the handle has the table enabled. *)
Definition write_locked (slot : option nat) (ws : list (key * option bytes)) : prog rstatus :=
  match slot with
  | None => ask (QWrite ws)
  | Some i =>
      tracker ← ask (QLock i);
      status ← ask (QWrite ws);
      ask (QRelease i tracker);;
      mret status
  end.

Definition throws_unless_ok (status : rstatus) : get_result :=
  match status with
  | ROk => Undefined
  | RNotFound => Throws "NotFound"
  | RIncomplete => Throws "Incomplete"
  | RError message => Throws message
  end.

Definition Database_PutSync (slot : option nat) (k value : bytes) : prog get_result :=
  status ← write_locked slot [((cf, k), Some value)]; mret (throws_unless_ok status).

Definition Database_RemoveSync (slot : option nat) (k : bytes) : prog get_result :=
  status ← write_locked slot [((cf, k), None)]; mret (throws_unless_ok status).

(** One [[u32 length][bytes]] item at [off], and the offset after it. *)
Definition next_item (noun : string) (buffer : bytes) (off : Z) : string + bytes * Z :=
  let len := Z.of_nat (length buffer) in
  if len <? u64 (off + 4) then inl ("putMany: " +:+ noun +:+ "s buffer truncated (length prefix)")
  else
    let n := le_combine (take 4 (drop (Z.to_nat off) buffer)) in
    let off := u64 (off + 4) in
    if len <? u64 (off + n) then inl ("putMany: " +:+ noun +:+ " overruns " +:+ noun +:+ "s buffer")
    else inr (take (Z.to_nat n) (drop (Z.to_nat off) buffer), u64 (off + n)).

(** The loop of [PutManySync]: the status, the batch and the locks, the last one first. *)
Fixpoint batch_items (slot_of : bytes -> option nat) (keys values : bytes) (ko vo : Z) (count : nat)
    (batch : list (key * option bytes)) (locks : list (nat * Z))
    : prog (rstatus * list (key * option bytes) * list (nat * Z)) :=
  match count with
  | O => mret (ROk, batch, locks)
  | S count =>
      match next_item "key" keys ko with
      | inl message => mret (RError message, batch, locks)
      | inr (k, ko) =>
          match next_item "value" values vo with
          | inl message => mret (RError message, batch, locks)
          | inr (value, vo) =>
              locks ← (match slot_of k with
                       | Some i => tracker ← ask (QLock i); mret ((i, tracker) :: locks)
                       | None => mret locks
                       end);
              status ← ask (QBatchPut (cf, k) value);
              match status with
              | ROk => batch_items slot_of keys values ko vo count (((cf, k), Some value) :: batch) locks
              | status => mret (status, batch, locks)
              end
          end
      end
  end.

Fixpoint release_items (locks : list (nat * Z)) : prog unit :=
  match locks with
  | [] => mret tt
  | (i, tracker) :: locks => ask (QRelease i tracker);; release_items locks
  end.

Definition Database_PutManySync (slot_of : bytes -> option nat) (keys values : bytes) (count : Z) : prog get_result :=
  r ← batch_items slot_of keys values 0 0 (Z.to_nat count) [] [];
  let '(status, batch, locks) := r in
  status ← (match status with ROk => ask (QWrite (rev batch)) | status => mret status end);
  release_items (rev locks);;
  mret (throws_unless_ok status).

End handle.

(** ** Asynchronous reads *)

(** What the promise becomes, or the exception before it. *)
Inductive async_result := Resolves (r : get_result) | Rejects (message : string) | Refused (message : string).

Definition resolveGetSyncResult (status : rstatus) (value : bytes) : async_result :=
  match status with
  | RNotFound => Resolves Undefined
  | ROk => Resolves (NewBuffer value)
  | RIncomplete => Rejects "Incomplete"
  | RError message => Rejects message
  end.

(** The completion of the asynchronous part publishes without the gates. *)
Definition resolveGetResult (vtSlot : option nat) (vtObserved : Z) (expected : option Z) (wantsPopulate : bool)
    (status : rstatus) (value : bytes) : prog async_result :=
  match status, vtSlot with
  | ROk, Some i =>
      let extracted := extractVersionFromValue value in
      if bool_decide (expected = Some extracted) && negb (extracted =? 0) then
        _ ← ask (QPublish i vtObserved extracted); mret (Resolves (Int32 FRESH_VERSION_FLAG))
      else if (wantsPopulate || is_some expected) && negb (extracted =? 0) then
        _ ← ask (QPublish i vtObserved extracted); mret (Resolves (NewBuffer value))
      else mret (Resolves (NewBuffer value))
  | _, _ => mret (resolveGetSyncResult status value)
  end.

(** [cf] is the column family of the transaction's handle, [override] that of the
    database that was asked: the asynchronous part reads from the former. *)
Definition TransactionHandle_get (cf : Z) (override : option Z) (vtSlot : option nat) (vtObserved : Z) (expected : option Z)
    (wantsPopulate : bool) (k : bytes) : prog async_result :=
  refused ← ask QPending;
  match refused with
  | Some message => mret (Refused message)
  | None =>
      ask QEnsure;;
      let k' := (match override with Some c => c | None => cf end, k) in
      r ← ask (QTxnGet true k');
      match r with
      | (RIncomplete, _) =>
          opened ← ask QOpened;
          r ← (if opened : bool then ask (QTxnGet false (cf, k))
               else mret (RError "Database closed during transaction get operation", []));
          resolveGetResult vtSlot vtObserved expected wantsPopulate r.1 r.2
      | (ROk, value) =>
          match vtSlot with
          | None => mret (resolveGetSyncResult ROk value)
          | Some _ =>
              let extracted := extractVersionFromValue value in
              readSnapshot ← ask QReadSnapshot;
              if bool_decide (expected = Some extracted) && negb (extracted =? 0) then
                vtPopulateIfSettled vtSlot k' extracted readSnapshot vtObserved;;
                mret (Resolves (Int32 FRESH_VERSION_FLAG))
              else
                (if (is_some expected || wantsPopulate) && negb (extracted =? 0)
                 then vtPopulateIfSettled vtSlot k' extracted readSnapshot vtObserved else mret tt);;
                mret (resolveGetSyncResult ROk value)
          end
      | (status, value) => mret (resolveGetSyncResult status value)
      end
  end.

(** [txnCf]: the column family of the transaction's own handle. *)
Definition Database_Get (cf txnCf : Z) (slot : option nat) (k : bytes) (txn : txn_arg) (arg : option Z) : prog async_result :=
  let expected := parseExpectedVersion arg in
  let vtSlot := if is_some expected then slot else None in
  vtObserved ← load_observed vtSlot;
  match txn with
  | TxnMissing => mret (Refused "Get failed: Transaction not found")
  | Txn => TransactionHandle_get txnCf (Some cf) vtSlot vtObserved expected false k
  | NoTxn =>
      opened ← ask QOpened;
      r ← (if opened : bool then ask (QGet false (cf, k))
           else mret (RError "Database closed during get operation", []));
      resolveGetResult vtSlot vtObserved expected false r.1 r.2
  end.

Definition Transaction_Get (cf : Z) (slot : option nat) (k : bytes) (arg : option Z) : prog async_result :=
  let expected := parseExpectedVersion arg in
  let vtSlot := if is_some expected then slot else None in
  vtObserved ← load_observed vtSlot;
  TransactionHandle_get cf None vtSlot vtObserved expected false k.
