(* ===== verification/VerifiedReadSystem.v ===== *)
(** * Reads and writes of one key, in every interleaving

    The programs of [VerifiedRead] as threads over RocksDB and the verification table.
    Both are seen through an interface: [SlotTable] says what the readers and writers
    rely on of the table (the instance is the concurrent system of
    [VerificationTableSystem]), [Mvcc] what they rely on of RocksDB (an assumption about
    code that is not ours; [Versions] is an instance of it). *)

From S2P Require Import Prelude Encoding VerificationTable VerificationTableProofs VerificationTableSystem VerifiedRead.
From stdpp Require Import base tactics list strings.
From coqutil Require Import Byte.
From Stdlib Require Import ZArith Lia.

Local Open Scope Z_scope.

(** ** Interfaces *)

Class SlotTable (T : Type) := {
  tb_ok : T -> Prop;
  tb_slot : T -> nat -> option Z;
  tb_intents : T -> list (nat * Z);                        (* write intents that are held *)
  tb_lock : nat -> Z -> T -> T -> Prop;                    (* an intent is taken *)
  tb_release : nat -> Z -> T -> T -> Prop;
  tb_other : T -> T -> Prop;                               (* sweeps and waiters *)
  tb_publish : nat -> Z -> Z -> bool -> T -> T -> Prop;    (* populateVersionIfUnchanged *)
  tb_gone : nat -> Z -> T -> Prop                          (* the value will not come back *)
}.

Definition tb_move {T} `{SlotTable T} (t t' : T) : Prop :=
  (exists i p, tb_lock i p t t') \/ (exists i p, tb_release i p t t') \/ tb_other t t'.

Class SlotTableLaws T `{SlotTable T} := {
  move_ok t t' : tb_ok t -> tb_move t t' -> tb_ok t';
  lock_adds t t' i p : tb_ok t -> tb_lock i p t t' -> tb_intents t' = (i, p) :: tb_intents t;
  release_drops t t' i p : tb_ok t -> tb_release i p t t' -> tb_intents t ≡ₚ (i, p) :: tb_intents t';
  other_same t t' : tb_ok t -> tb_other t t' -> tb_intents t' = tb_intents t;
  held_locked t i p : tb_ok t -> (i, p) ∈ tb_intents t -> exists v, tb_slot t i = Some v /\ vtIsLock v = true;
  move_versions t t' i v : tb_ok t -> tb_move t t' -> tb_slot t' i = Some v -> vtIsVersion v = true -> tb_slot t i = Some v;
  publish_ok t t' i o v b : tb_ok t -> tb_publish i o v b t t' -> tb_ok t';
  publish_cases t t' i o v b : tb_ok t -> tb_publish i o v b t t' -> t' = t \/
    tb_slot t i = Some o /\ vtIsLock o = false /\ vtIsVersion v = true /\ tb_slot t' i = Some v /\
    (forall j, j <> i -> tb_slot t' j = tb_slot t j) /\ tb_intents t' = tb_intents t;
  gone_slot t i x : tb_gone i x t -> tb_slot t i <> Some x;
  gone_move t t' i x : tb_ok t -> tb_move t t' -> tb_gone i x t -> tb_gone i x t';
  gone_publish t t' i x j o v b : tb_ok t -> tb_publish j o v b t t' -> tb_gone i x t -> tb_gone i x t';
  leaves_move t t' i x : tb_ok t -> tb_move t t' -> tb_slot t i = Some x -> vtIsVersion x = false -> vtIsLock x = false ->
    tb_slot t' i <> Some x -> tb_gone i x t';
  leaves_publish t t' i x j o v b : tb_ok t -> tb_publish j o v b t t' -> tb_slot t i = Some x ->
    vtIsVersion x = false -> vtIsLock x = false -> tb_slot t' i <> Some x -> tb_gone i x t'
}.

(** RocksDB: what a key holds at a snapshot or in the latest state, the sequence number
    of its last write, and the open snapshots.  Writing a batch, taking and releasing a
    snapshot change it. *)
Class Mvcc (D : Type) := {
  db_view : D -> option Z -> key -> option bytes;
  db_seq : D -> Z;
  db_last : D -> key -> Z;
  db_snaps : D -> list Z;
  db_write : list (key * option bytes) -> D -> D;
  db_snapshot : D -> D;
  db_release : Z -> D -> D
}.

Class MvccLaws D `{Mvcc D} := {
  last_le d k : db_last d k <= db_seq d;
  view_latest d k s : db_last d k <= s -> db_view d (Some s) k = db_view d None k;
  write_seq ws d : db_seq d <= db_seq (db_write ws d);
  write_other ws d k : k ∉ ws.*1 -> db_view (db_write ws d) None k = db_view d None k /\ db_last (db_write ws d) k = db_last d k;
  write_old ws d k s : s <= db_seq d -> db_view (db_write ws d) (Some s) k = db_view d (Some s) k;
  write_snaps ws d : db_snaps (db_write ws d) = db_snaps d;
  snaps_le d s : s ∈ db_snaps d -> s <= db_seq d;
  snapshot_snaps d : db_snaps (db_snapshot d) = db_seq d :: db_snaps d;
  snapshot_same d : db_seq (db_snapshot d) = db_seq d /\ (forall s k, db_view (db_snapshot d) s k = db_view d s k) /\
    forall k, db_last (db_snapshot d) k = db_last d k;
  release_snaps s d x : x ∈ db_snaps (db_release s d) -> x ∈ db_snaps d;
  release_same s d : db_seq (db_release s d) = db_seq d /\ (forall x k, db_view (db_release s d) x k = db_view d x k) /\
    forall k, db_last (db_release s d) k = db_last d k
}.

(** What [GetIntProperty] says of the open snapshots: while one is open, the time of the
    oldest is not 0 and its sequence number is the least. *)
Definition property_ok {D} `{Mvcc D} (d : D) (name : string) (r : option Z) : Prop :=
  db_snaps d <> [] ->
  (name = "rocksdb.oldest-snapshot-time" -> exists t, r = Some t /\ t <> 0) /\
  (name = "rocksdb.oldest-snapshot-sequence" -> exists q, r = Some q /\ Forall (Z.le q) (db_snaps d)).

(** ** What a thread knows

    [good] runs a program over the accesses it has made: it says what must be known
    when it publishes, writes or releases, and when it answers that a version is fresh. *)

Record knowledge := mkKn {
  kn_ensured : bool;            (* ensureSnapshot was called *)
  kn_obs : option Z;            (* what the slot held *)
  kn_read : option bytes;       (* what the transaction read *)
  kn_got : option Z;            (* the version of the latest value, as read since *)
  kn_val : option Z;            (* the latest version, if the key was not written since the load *)
  kn_snap : option Z;           (* the snapshot of the transaction *)
  kn_seq : option Z;            (* the sequence number, as read since the load *)
  kn_clear : bool;              (* no snapshot is older than the key's last write, likewise *)
  kn_locks : list (nat * Z)     (* the intents the thread holds *)
}.

Definition know_nothing : knowledge := mkKn false None None None None None None false [].

Fixpoint drop_lock (x : nat * Z) (l : list (nat * Z)) : list (nat * Z) :=
  match l with [] => [] | y :: l => if decide (y = x) then l else y :: drop_lock x l end.

Section protocol.

(** The key, and the slot that no other key of the run shares. *)
Context (k0 : key) (i0 : nat).

Definition learn (q : req) : resp q -> knowledge -> knowledge :=
  match q return resp q -> knowledge -> knowledge with
  | QEnsure => fun _ g => mkKn true (kn_obs g) (kn_read g) (kn_got g) (kn_val g) (kn_snap g) (kn_seq g) (kn_clear g) (kn_locks g)
  | QLoad i => fun o g =>
      if decide (i = i0) then mkKn (kn_ensured g) (Some o) None None None (kn_snap g) None false (kn_locks g) else g
  | QTxnGet _ k => fun r g =>
      if decide (k = k0) then
        mkKn (kn_ensured g) (kn_obs g) (match r with (ROk, b) => Some b | _ => None end) (kn_got g) (kn_val g) (kn_snap g)
          (kn_seq g) (kn_clear g) (kn_locks g)
      else g
  | QGet _ k => fun r g =>
      if decide (k = k0) then
        let v := match r with (ROk, b) => Some (extractVersionFromValue b) | _ => None end in
        mkKn (kn_ensured g) (kn_obs g) (kn_read g) v v (kn_snap g) (kn_seq g) (kn_clear g) (kn_locks g)
      else g
  | QReadSnapshot => fun r g =>
      mkKn (kn_ensured g) (kn_obs g) (kn_read g) (kn_got g)
        (match r with None => option_map extractVersionFromValue (kn_read g) | Some _ => kn_val g end) r
        (kn_seq g) (kn_clear g) (kn_locks g)
  | QLatestSeq => fun q g =>
      mkKn (kn_ensured g) (kn_obs g) (kn_read g) (kn_got g)
        (match kn_val g, kn_snap g with
         | None, Some s => if q <=? s then option_map extractVersionFromValue (kn_read g) else None
         | v, _ => v
         end) (kn_snap g) (Some q) (kn_clear g) (kn_locks g)
  | QIntProperty name => fun r g =>
      let clear :=
        if String.eqb name "rocksdb.oldest-snapshot-time" then match r with None | Some 0 => true | _ => kn_clear g end
        else if String.eqb name "rocksdb.oldest-snapshot-sequence" then
          match r, kn_seq g with
          | None, _ => true
          | Some o, Some q => (q <=? o) || kn_clear g
          | _, _ => kn_clear g
          end
        else kn_clear g in
      mkKn (kn_ensured g) (kn_obs g) (kn_read g) (kn_got g) (kn_val g) (kn_snap g) (kn_seq g) clear (kn_locks g)
  | QLock i => fun r g =>
      mkKn (kn_ensured g) (kn_obs g) (kn_read g) (kn_got g) (kn_val g) (kn_snap g) (kn_seq g) (kn_clear g)
        ((i, r) :: kn_locks g)
  | QRelease i tracker => fun _ g =>
      mkKn (kn_ensured g) (kn_obs g) (kn_read g) (kn_got g) (kn_val g) (kn_snap g) (kn_seq g) (kn_clear g)
        (drop_lock (i, tracker) (kn_locks g))
  | _ => fun _ g => g
  end.

Definition may (q : req) (txn : bool) (g : knowledge) : Prop :=
  match q with
  | QPending | QEnsure | QReadSnapshot | QTxnGet _ _ => txn = true
  | QLoad i => i = i0 -> txn = true -> kn_ensured g = true
  | QPublish i o v => i = i0 -> vtIsVersion v = true -> vtIsLock o = false ->
      kn_obs g = Some o /\ kn_val g = Some v /\ kn_clear g = true
  | QPopulate _ _ => False
  | QWrite ws => k0 ∈ ws.*1 -> exists p, (i0, p) ∈ kn_locks g
  | QRelease i p => (i, p) ∈ kn_locks g
  | _ => True
  end.

(** The answer [FRESH] for an expected version needs a reason. *)
Definition fresh_ok (txn : bool) (expected : option Z) (a : get_result) (g : knowledge) : Prop :=
  a = Int32 FRESH_VERSION_FLAG -> forall v, expected = Some v ->
  kn_obs g = Some v \/ (if txn then exists b, kn_obs g <> None /\ kn_read g = Some b /\ extractVersionFromValue b = v
                        else kn_got g = Some v).

Fixpoint wp (txn : bool) {A : Type} (Q : knowledge -> A -> Prop) (g : knowledge) (p : prog A) : Prop :=
  match p with
  | Ret a => Q g a
  | Ask q k => may q txn g /\ forall r, wp txn Q (learn q r g) (k r)
  end.

Definition good (txn : bool) (expected : option Z) (g : knowledge) (p : prog get_result) : Prop :=
  wp txn (fun g a => fresh_ok txn expected a g) g p.

End protocol.

(** ** The system *)

Section system.

Context {T D : Type} `{TL : SlotTableLaws T} `{DL : MvccLaws D} (k0 : key) (i0 : nat).

(** [sh_vers]: the versions of the values the key has had, the latest first. *)
Record shared := mkShared { sh_t : T; sh_d : D; sh_vers : list Z }.

Definition version_of (value : option bytes) : Z :=
  match value with Some b => extractVersionFromValue b | None => 0 end.

(** A thread: its program, whether it runs in a transaction, the version a reader of the
    key expects, whether the transaction reads without a snapshot, the snapshot, what it
    has written to the key itself, what it knows, and the versions at its start and when
    it loaded the slot. *)
Record thread := mkThread {
  th_prog : prog get_result;
  th_txn : bool;
  th_expected : option Z;
  th_disable : bool;
  th_snap : option Z;
  th_own : option (option bytes);
  th_kn : knowledge;
  th_start : list Z;
  th_base : list Z
}.

Definition th_next (th : thread) (p : prog get_result) (g : knowledge) (snap : option Z) (base : list Z) : thread :=
  mkThread p (th_txn th) (th_expected th) (th_disable th) snap (th_own th) g (th_start th) base.

(** What the transaction reads: its own write, its snapshot, or the latest state. *)
Definition visible (d : D) (th : thread) : option bytes :=
  match th_own th with Some w => w | None => db_view d (th_snap th) k0 end.

Definition answer_ok (value : option bytes) (r : rstatus * bytes) : Prop :=
  match r with
  | (ROk, b) => value = Some b
  | (RNotFound, _) => value = None
  | _ => True
  end.

(** A batch is written; a version that the key had is not written again. *)
Definition written (ws : list (key * option bytes)) (s s' : shared) : Prop :=
  sh_t s' = sh_t s /\ sh_d s' = db_write ws (sh_d s) /\
  if decide (k0 ∈ ws.*1) then
    let v := version_of (db_view (sh_d s') None k0) in
    (vtIsVersion v = true -> v ∉ sh_vers s) /\ sh_vers s' = v :: sh_vers s
  else sh_vers s' = sh_vers s.

(** The answer to a request: the state after it, the snapshot and the versions at the
    last load of the slot. *)
Definition serve (q : req) : resp q -> thread -> shared -> shared -> option Z -> list Z -> Prop :=
  match q return resp q -> thread -> shared -> shared -> option Z -> list Z -> Prop with
  | QPending | QOpened | QBatchPut _ _ => fun _ th s s' snap base => s' = s /\ snap = th_snap th /\ base = th_base th
  | QEnsure => fun _ th s s' snap base => base = th_base th /\
      match th_snap th, th_disable th with
      | None, false => s' = mkShared (sh_t s) (db_snapshot (sh_d s)) (sh_vers s) /\ snap = Some (db_seq (sh_d s))
      | old, _ => s' = s /\ snap = old
      end
  | QReadSnapshot => fun r th s s' snap base => s' = s /\ snap = th_snap th /\ base = th_base th /\ r = th_snap th
  | QTxnGet _ k => fun r th s s' snap base => s' = s /\ snap = th_snap th /\ base = th_base th /\
      (k = k0 -> answer_ok (visible (sh_d s) th) r)
  | QGet _ k => fun r th s s' snap base => s' = s /\ snap = th_snap th /\ base = th_base th /\
      answer_ok (db_view (sh_d s) None k) r
  | QLatestSeq => fun r th s s' snap base => s' = s /\ snap = th_snap th /\ base = th_base th /\ r = db_seq (sh_d s)
  | QIntProperty name => fun r th s s' snap base => s' = s /\ snap = th_snap th /\ base = th_base th /\
      property_ok (sh_d s) name r
  | QWrite ws => fun r th s s' snap base => snap = th_snap th /\ base = th_base th /\
      match r with ROk => written ws s s' | _ => s' = s end
  | QLoad i => fun r th s s' snap base => s' = s /\ snap = th_snap th /\ tb_slot (sh_t s) i = Some r /\
      if decide (i = i0) then
        base = sh_vers s /\ (th_own th <> None -> exists p, (i0, p) ∈ tb_intents (sh_t s))
      else base = th_base th
  | QPublish i o v => fun r th s s' snap base => snap = th_snap th /\ base = th_base th /\
      exists t', tb_publish i o v r (sh_t s) t' /\ s' = mkShared t' (sh_d s) (sh_vers s)
  | QPopulate _ _ => fun _ _ _ _ _ _ => False
  | QLock i => fun r th s s' snap base => snap = th_snap th /\ base = th_base th /\
      exists t', tb_lock i r (sh_t s) t' /\ s' = mkShared t' (sh_d s) (sh_vers s)
  | QRelease i tracker => fun _ th s s' snap base => snap = th_snap th /\ base = th_base th /\
      exists t', tb_release i tracker (sh_t s) t' /\ s' = mkShared t' (sh_d s) (sh_vers s)
  end.

(** The programs that run: synchronous reads and writes of the key and of others.  The
    key's writers use its slot; no other key does.  Left out are the asynchronous reads and
    [PopulateVersion], which publish without the gates, writers that do not use the table,
    keys that share the slot, [cancelForDB], and [clear] and [drop], which write without
    intents: each can put an old version into the slot, or leave one there. *)
Definition routed (k : key) (slot : option nat) : Prop := forall i, slot = Some i -> (i = i0 <-> k = k0).

Inductive program : prog get_result -> bool -> option Z -> Prop :=
| p_get cf buffer slot k flags txn arg : routed (cf, k) slot ->
    program (Database_GetSync cf buffer slot k flags txn arg) (match txn with Txn => true | _ => false end)
      (if decide ((cf, k) = k0) then parseExpectedVersion arg else None)
| p_txn_get cf buffer slot k flags arg : routed (cf, k) slot ->
    program (Transaction_GetSync cf buffer slot k flags arg) true
      (if decide ((cf, k) = k0) then parseExpectedVersion arg else None)
| p_put cf slot k value : routed (cf, k) slot -> ((cf, k) = k0 -> slot = Some i0) ->
    program (Database_PutSync cf slot k value) false None
| p_remove cf slot k : routed (cf, k) slot -> ((cf, k) = k0 -> slot = Some i0) ->
    program (Database_RemoveSync cf slot k) false None
| p_put_many cf slot_of keys values count : (forall k, routed (cf, k) (slot_of k)) ->
    (forall k, (cf, k) = k0 -> slot_of k = Some i0) ->
    program (Database_PutManySync cf slot_of keys values count) false None.

(** The intents of the transactions are [sy_env]. *)
Record sys := mkRSys { sy_s : shared; sy_env : list (nat * Z); sy_threads : list thread }.

Inductive sys_step : sys -> sys -> Prop :=
(* a thread starts, within a transaction that may have its snapshot already *)
| s_start s E ths p txn expected disable snap own :
    program p txn expected -> (forall x, snap = Some x -> x ∈ db_snaps (sh_d s) /\ txn = true) -> (own <> None -> txn = true) ->
    sys_step (mkRSys s E ths)
      (mkRSys s E (mkThread p txn expected disable snap own know_nothing (sh_vers s) (sh_vers s) :: ths))
(* a thread makes its next access *)
| s_ask s s' E ths1 th ths2 q k r snap base :
    th_prog th = Ask q k -> serve q r th s s' snap base ->
    sys_step (mkRSys s E (ths1 ++ th :: ths2)) (mkRSys s' E (ths1 ++ th_next th (k r) (learn k0 i0 q r (th_kn th)) snap base :: ths2))
(* a thread is done *)
| s_done s E ths1 th ths2 a : th_prog th = Ret a -> kn_locks (th_kn th) = [] ->
    sys_step (mkRSys s E (ths1 ++ th :: ths2)) (mkRSys s E (ths1 ++ ths2))
(* transactions take and release write intents, and commit *)
| s_lock t t' d vs E ths i p : tb_lock i p t t' ->
    sys_step (mkRSys (mkShared t d vs) E ths) (mkRSys (mkShared t' d vs) ((i, p) :: E) ths)
| s_release t t' d vs E E' ths i p : E ≡ₚ (i, p) :: E' -> tb_release i p t t' ->
    sys_step (mkRSys (mkShared t d vs) E ths) (mkRSys (mkShared t' d vs) E' ths)
| s_commit s s' E ths ws : (k0 ∈ ws.*1 -> exists p, (i0, p) ∈ E) -> written ws s s' ->
    sys_step (mkRSys s E ths) (mkRSys s' E ths)
(* sweeps and waiters; versions of other keys *)
| s_other t t' d vs E ths : tb_other t t' ->
    sys_step (mkRSys (mkShared t d vs) E ths) (mkRSys (mkShared t' d vs) E ths)
| s_publish t t' d vs E ths i o v b : i <> i0 -> tb_publish i o v b t t' ->
    sys_step (mkRSys (mkShared t d vs) E ths) (mkRSys (mkShared t' d vs) E ths)
(* snapshots of others open and close *)
| s_snapshot t d vs E ths : sys_step (mkRSys (mkShared t d vs) E ths) (mkRSys (mkShared t (db_snapshot d) vs) E ths)
| s_unsnapshot t d vs E ths x : (forall th y, th ∈ ths -> th_snap th = Some y -> y ∈ db_snaps (db_release x d)) ->
    sys_step (mkRSys (mkShared t d vs) E ths) (mkRSys (mkShared t (db_release x d) vs) E ths).

(** A table without a version in the slot, nobody at work. *)
Definition sys_start (y : sys) : Prop :=
  exists t d, y = mkRSys (mkShared t d [version_of (db_view d None k0)]) [] [] /\ tb_ok t /\ tb_intents t = [] /\
    (forall v, tb_slot t i0 = Some v -> vtIsVersion v = false).

Inductive sys_reachable : sys -> Prop :=
| sr_start y : sys_start y -> sys_reachable y
| sr_step y y' : sys_reachable y -> sys_step y y' -> sys_reachable y'.

End system.
