(* ===== verification/VerifiedReadPrograms.v ===== *)
(** * The programs keep the protocol

    Every read and write of [VerifiedRead] that the system runs publishes, writes,
    releases and answers only with what it has learned. *)

From S2P Require Import Prelude Encoding VerificationTable VerificationTableProofs VerificationTableSystem.
From S2P Require Import VerifiedRead VerifiedReadSystem.
From stdpp Require Import base tactics list sets strings.
From coqutil Require Import Byte.
From Stdlib Require Import ZArith Lia.

Local Open Scope Z_scope.

Lemma drop_lock_perm x l : x ∈ l -> l ≡ₚ x :: drop_lock x l.
Proof.
  induction l as [|y l IH]; [by intros ?%elem_of_nil|]. cbn. intros [->|Hin]%elem_of_cons; [by rewrite decide_True|].
  destruct (decide (y = x)) as [->|]; [done|]. rewrite (IH Hin) at 1. apply Permutation_swap.
Qed.

Section programs.

Context (k0 : key) (i0 : nat).

Abbreviation wp := (VerifiedReadSystem.wp k0 i0).

Lemma wp_bind {A B} txn (p : prog A) (f : A -> prog B) Q g :
  wp txn (fun g a => wp txn Q g (f a)) g p -> wp txn Q g (p ≫= f).
Proof. revert g. induction p as [a|q k IH]; intros g; [done|]. intros [Hm Hr]. split; [done|]. intros r. apply IH, Hr. Qed.

Lemma wp_weaken {A} txn (p : prog A) Q Q' g :
  (forall g a, Q g a -> Q' g a) -> wp txn Q g p -> wp txn Q' g p.
Proof. intros HQ. revert g. induction p as [a|q k IH]; intros g; [apply HQ|]. intros [Hm Hr]. split; [done|]. intros r. apply IH, Hr. Qed.

Lemma wp_ask txn q Q g : may k0 i0 q txn g -> (forall r, Q (learn k0 i0 q r g) r) -> wp txn Q g (ask q).
Proof. intros Hm Hr. by split. Qed.

Lemma wp_ret {A} txn (a : A) Q g : Q g a -> wp txn Q g (mret a).
Proof. done. Qed.

(** *** The gated populate *)

(** What stays known. *)
Definition kept (clean : bool) (g g' : knowledge) : Prop :=
  kn_obs g' = kn_obs g /\ kn_read g' = kn_read g /\ kn_locks g' = kn_locks g /\ (clean = true -> kn_got g' = kn_got g).

Lemma kept_refl c g : kept c g g.
Proof. by repeat split. Qed.

Lemma kept_trans c g1 g2 g3 : kept c g1 g2 -> kept c g2 g3 -> kept c g1 g3.
Proof. intros (?&?&?&H) (?&?&?&H'). repeat split; try congruence. intros Hc. rewrite H', H; done. Qed.

(** What the populate needs: the value that was read is the latest, or was read by a
    transaction at the snapshot that is given. *)
Definition populates (g : knowledge) (readVersion : Z) (readSnapshot : option Z) : Prop :=
  match readSnapshot with
  | None => kn_val g = Some readVersion
  | Some x => kn_snap g = Some x /\ kn_val g = None /\ exists b, kn_read g = Some b /\ extractVersionFromValue b = readVersion
  end.

Lemma latest_version_wp txn k v snap g :
  (k = k0 -> populates g v snap) ->
  wp txn (fun g' r => kept (negb (is_some snap)) g g' /\ (k = k0 -> forall v', r = Some v' -> kn_val g' = Some v')) g
    (latest_version k v snap).
Proof.
  intros H. unfold latest_version. destruct snap as [x|].
  2:{ apply wp_ret. split; [apply kept_refl|]. intros Hk v' [= <-]. exact (H Hk). }
  apply wp_bind, wp_ask; [done|]. intros q. destruct (q <=? x) eqn:Hq.
  { apply wp_ret. split; [by repeat split|]. intros Hk v' [= <-]. destruct (H Hk) as (Hs & Hv & b & Hb & <-).
    cbn. by rewrite Hv, Hs, Hq, Hb. }
  apply wp_bind, wp_ask; [done|]. intros [st c]. cbn [learn].
  destruct (decide (k = k0)) as [Hk|Hk]; destruct st; try (destruct (no_version _));
    apply wp_ret; (split; [by repeat split|]); intros Hk' v' [= <-]; done.
Qed.

Lemma snapshot_gates_wp txn v g :
  wp txn (fun g' go => kept true g g' /\
    forall w, kn_val g = Some w -> kn_val g' = Some w /\ (go = true -> kn_clear g' = true)) g (snapshot_gates v).
Proof.
  unfold snapshot_gates. apply wp_bind, wp_ask; [done|]. intros time.
  destruct time as [[|t|t]|]; try (apply wp_ret; by repeat split).
  all: destruct (forward_dated _ _); [apply wp_ret; by repeat split|].
  all: apply wp_bind, wp_ask; [done|]; intros q; apply wp_bind, wp_ask; [done|]; intros o; destruct o as [o|]; apply wp_ret;
    (split; [by repeat split|]); intros w Hw; cbn; rewrite Hw; (split; [done|]); [|done].
  all: intros Ho; rewrite negb_true_iff, Z.ltb_ge in Ho; destruct (Z.leb_spec q o); [done|lia].
Qed.

Lemma vtPopulateIfSettled_wp txn slot k v snap o g (Q : knowledge -> unit -> Prop) :
  routed k0 i0 k slot -> (slot = Some i0 -> kn_obs g = Some o /\ populates g v snap) ->
  (forall g', kept (negb (is_some snap)) g g' -> Q g' tt) ->
  wp txn Q g (vtPopulateIfSettled slot k v snap o).
Proof.
  intros Hroute Hpop HQ. unfold vtPopulateIfSettled. destruct slot as [i|]; [|apply wp_ret, HQ, kept_refl].
  specialize (Hroute i eq_refl). destruct (no_version v); [apply wp_ret, HQ, kept_refl|].
  apply wp_bind. eapply wp_weaken; [|apply latest_version_wp; intros Hk; apply Hpop; f_equal; by apply Hroute].
  intros g1 [w|] [Hkept Hval]; [|apply wp_ret, HQ, Hkept].
  apply wp_bind. eapply wp_weaken; [|apply snapshot_gates_wp].
  intros g2 [] [Hkept2 Hgo]; [|apply wp_ret, HQ; eapply kept_trans; [exact Hkept|]].
  - apply wp_bind, wp_ask.
    + intros -> _ _. destruct (Hgo w) as [? Hc]; [apply Hval; [by apply Hroute|done]|].
      split_and!; [|done|by apply Hc]. destruct Hkept2 as (-> & _). destruct Hkept as (-> & _). by apply Hpop.
    + intros b. apply wp_ret, HQ. cbn [learn]. eapply kept_trans; [exact Hkept|].
      destruct Hkept2 as (?&?&?&H). repeat split; auto.
  - destruct Hkept2 as (?&?&?&H). repeat split; auto.
Qed.

(** *** The reads *)

(** The value that was read: seed the slot and return. *)
Lemma seed_wp (txn : bool) buffer flags slot k expected snap o value g :
  routed k0 i0 k slot ->
  (slot = Some i0 -> kn_obs g = Some o /\ populates g (extractVersionFromValue value) snap) ->
  (slot = Some i0 -> if txn then kn_read g = Some value else snap = None /\ kn_got g = Some (extractVersionFromValue value)) ->
  wp txn (fun g a => fresh_ok txn (if decide (k = k0) then expected else None) a g) g
    (seed_and_return buffer flags slot k expected snap o value).
Proof.
  intros Hroute Hpop Hread. unfold seed_and_return.
  assert (forall v g, return_value buffer flags v = Int32 FRESH_VERSION_FLAG -> fresh_ok txn (if decide (k = k0) then expected else None)
    (return_value buffer flags v) g) as Hplain.
  { intros v g'. unfold return_value. destruct buffer; [destruct (_ && _)|]; discriminate. }
  destruct slot as [i|].
  2:{ apply wp_ret. intros Hf. by apply (Hplain _ g Hf). }
  apply wp_bind, vtPopulateIfSettled_wp; [done|done|]. intros g' (Hobs & Hrd & _ & Hgot). apply wp_ret.
  destruct (bool_decide_reflect (expected = Some (extractVersionFromValue value))) as [He|He].
  2:{ intros Hf. by apply (Hplain _ g' Hf). }
  intros _ v Hv. destruct (decide (k = k0)) as [Hk|]; [|done]. rewrite He in Hv. injection Hv as <-.
  assert (Hi : Some i = Some i0) by (f_equal; by apply (Hroute i)).
  specialize (Hread Hi). destruct (Hpop Hi) as [Ho _]. right. destruct txn.
  - exists value. rewrite Hrd, Hobs, Ho. by split.
  - destruct Hread as [-> Hr]. by rewrite Hgot.
Qed.

(** The slot is loaded; afterwards the thread knows what was in it. *)
Lemma load_wp txn slot (Q : knowledge -> Z -> Prop) g :
  (slot = Some i0 -> txn = true -> kn_ensured g = true) ->
  (forall o g', (slot = Some i0 -> g' = learn k0 i0 (QLoad i0) o g) -> (slot <> Some i0 -> g' = g) -> Q g' o) ->
  wp txn Q g (load_observed slot).
Proof.
  intros He HQ. unfold load_observed. destruct slot as [i|]; [|by apply wp_ret, HQ].
  apply wp_ask; [intros ->; by apply He|]. intros o. apply HQ.
  - by intros [= ->].
  - intros Hne. cbn [learn]. by rewrite decide_False by congruence.
Qed.

(** *** Claims about single programs *)

Lemma getSync_wp txn cacheOnly k (Q : knowledge -> rstatus * bytes -> Prop) g :
  txn = true ->
  (forall r g', kn_obs g' = kn_obs g -> kn_val g' = kn_val g -> kn_snap g' = kn_snap g ->
     (k = k0 -> forall b, r = (ROk, b) -> kn_read g' = Some b) -> Q g' r) ->
  wp txn Q g (TransactionHandle_getSync cacheOnly k).
Proof.
  intros Ht HQ. apply wp_bind, wp_ask; [done|]. intros [m|]; [by apply wp_ret, HQ|].
  apply wp_bind, wp_ask; [done|]. intros []. apply wp_ask; [done|]. intros r. cbn [learn].
  destruct (decide (k = k0)) as [->|Hk]; apply HQ; try done. by intros _ b ->.
Qed.

(** The fast path, and what the thread knows when it misses. *)
Lemma fast_path_wp (txn : bool) slot k expected (rest : Z -> prog get_result) g :
  routed k0 i0 k slot -> (txn = true -> kn_ensured g = true) -> kn_val g = None -> kn_snap g = None ->
  (forall o g', (slot = Some i0 -> kn_obs g' = Some o /\ k = k0) -> kn_val g' = None -> kn_snap g' = None ->
     wp txn (fun g a => fresh_ok txn (if decide (k = k0) then expected else None) a g) g' (rest o)) ->
  wp txn (fun g a => fresh_ok txn (if decide (k = k0) then expected else None) a g) g
    (o ← load_observed slot;
     if is_some slot && bool_decide (expected = Some o) then mret (Int32 FRESH_VERSION_FLAG) else rest o).
Proof.
  intros Hroute Hens Hval Hsnap Hrest. apply wp_bind, load_wp; [by intros _|]. intros o g1 H1 H2.
  destruct (is_some slot && _) eqn:Hfast.
  - apply wp_ret. intros _ v Hv. apply andb_true_iff in Hfast as [Hs He%bool_decide_eq_true].
    destruct (decide (k = k0)) as [Hk|]; [|done]. left. rewrite He in Hv. injection Hv as <-.
    destruct slot as [i|] eqn:Evt; [|done]. rewrite H1; [by cbn; rewrite decide_True|]. f_equal. by apply (Hroute i).
  - apply Hrest.
    + intros E. rewrite (H1 E). cbn. rewrite decide_True by done. split; [done|by apply (Hroute i0 E)].
    + destruct (decide (slot = Some i0)) as [E|E]; [rewrite (H1 E); cbn; by rewrite decide_True|by rewrite (H2 E)].
    + destruct (decide (slot = Some i0)) as [E|E]; [rewrite (H1 E); cbn; by rewrite decide_True|by rewrite (H2 E)].
Qed.

(** A read within a transaction, from the answer of [Get] on. *)
Lemma txn_seed_wp buffer flags slot k expected snap o value g :
  routed k0 i0 k slot -> (slot = Some i0 -> kn_obs g = Some o /\ kn_val g = None /\ kn_read g = Some value) ->
  wp true (fun g a => fresh_ok true (if decide (k = k0) then expected else None) a g) (learn k0 i0 QReadSnapshot snap g)
    (seed_and_return buffer flags slot k expected snap o value).
Proof.
  intros Hroute H. apply seed_wp; [done| |]; intros E; destruct (H E) as (Ho & Hv & Hr); cbn; [|done].
  split; [done|]. unfold populates. cbn. rewrite Hr. destruct snap; [|done]. split_and!; [done|done|by exists value].
Qed.

Lemma slot_routed (b : bool) k slot : routed k0 i0 k slot -> routed k0 i0 k (if b then slot else None).
Proof. destruct b; [done|]. by intros. Qed.

Lemma GetSync_from_load_wp cf buffer slot k flags (txn : bool) expected g :
  routed k0 i0 (cf, k) slot -> (txn = true -> kn_ensured g = true) -> kn_val g = None -> kn_snap g = None ->
  wp txn (fun g a => fresh_ok txn (if decide ((cf, k) = k0) then expected else None) a g) g
    (GetSync_from_load cf buffer slot k flags txn expected).
Proof.
  intros Hroute Hens Hval Hsnap. apply fast_path_wp; try done. intros o g1 Hobs Hval1 Hsnap1. destruct txn.
  - apply wp_bind, getSync_wp; [done|]. intros [st value] g2 Ho2 Hv2 Hs2 Hr2. apply wp_bind, wp_ask; [done|].
    intros snap. destruct st; try (by apply wp_ret). apply txn_seed_wp; [done|]. intros E. destruct (Hobs E) as [Ho Hk].
    split_and!; [congruence|congruence|by apply Hr2].
  - apply wp_bind, wp_ask; [done|]. intros [st value]. apply wp_bind, wp_ret. destruct st; try (by apply wp_ret).
    apply seed_wp; [done| |]; intros E; destruct (Hobs E) as [Ho Hk]; cbn [learn]; rewrite decide_True by done; by cbn.
Qed.

Lemma Database_GetSync_good cf buffer slot k flags txn arg :
  routed k0 i0 (cf, k) slot ->
  good k0 i0 (match txn with Txn => true | _ => false end)
    (if decide ((cf, k) = k0) then parseExpectedVersion arg else None) know_nothing
    (Database_GetSync cf buffer slot k flags txn arg).
Proof.
  intros Hroute. unfold good, Database_GetSync. destruct txn; [|by apply wp_ret|].
  - apply GetSync_from_load_wp; [by apply slot_routed|done..].
  - apply wp_bind, wp_ask; [done|]. intros []. apply GetSync_from_load_wp; [by apply slot_routed|done..].
Qed.

Lemma Transaction_GetSync_good cf buffer slot k flags arg :
  routed k0 i0 (cf, k) slot ->
  good k0 i0 true (if decide ((cf, k) = k0) then parseExpectedVersion arg else None) know_nothing
    (Transaction_GetSync cf buffer slot k flags arg).
Proof.
  intros Hroute. unfold good, Transaction_GetSync. apply wp_bind, wp_ask; [done|]. intros [].
  pose proof (slot_routed (is_some (parseExpectedVersion arg) || set_in flags POPULATE_VERSION_FLAG) _ _ Hroute) as Hr.
  apply fast_path_wp; try done. intros o g1 Hobs Hval1 Hsnap1. apply wp_bind, getSync_wp; [done|].
  intros [st value] g2 Ho2 Hv2 Hs2 Hr2. destruct st; try (by apply wp_ret). apply wp_bind.
  destruct (if _ || _ then slot else None) as [i|] eqn:Es.
  - apply wp_ask; [done|]. intros snap. apply txn_seed_wp; [done|]. intros E. destruct (Hobs E) as [Ho Hk].
    split_and!; [congruence|congruence|by apply Hr2].
  - apply wp_ret. by apply seed_wp.
Qed.

(** *** The writes *)

Definition never_fresh (a : get_result) : Prop := a <> Int32 FRESH_VERSION_FLAG.

Lemma throws_never_fresh status : never_fresh (throws_unless_ok status).
Proof. by destruct status. Qed.

Lemma fresh_never txn expected a g : never_fresh a -> fresh_ok txn expected a g.
Proof. by intros H Ha. Qed.

Lemma write_locked_good slot ws :
  (k0 ∈ ws.*1 -> slot = Some i0) ->
  good k0 i0 false None know_nothing (status ← write_locked slot ws; mret (throws_unless_ok status)).
Proof.
  intros Hk. unfold good, write_locked. apply wp_bind. destruct slot as [i|].
  - apply wp_bind, wp_ask; [done|]. intros p. apply wp_bind, wp_ask; [intros Hin; injection (Hk Hin) as ->; exists p; by left|].
    intros st. apply wp_bind, wp_ask; [by left|]. intros []. apply wp_ret, wp_ret, fresh_never, throws_never_fresh.
  - apply wp_ask; [intros Hin; discriminate (Hk Hin)|]. intros st. apply wp_ret, fresh_never, throws_never_fresh.
Qed.

(** The locks of the items of a batch, released in any order. *)
Lemma release_items_wp locks (Q : knowledge -> unit -> Prop) g :
  kn_locks g ≡ₚ locks -> (forall g', Q g' tt) -> wp false Q g (release_items locks).
Proof.
  intros Hl HQ. revert g Hl. induction locks as [|[i p] locks IH]; intros g Hl; [apply wp_ret, HQ|].
  apply wp_bind, wp_ask; [cbn; rewrite Hl; by left|]. intros []. apply IH. cbn.
  assert (Hin : (i, p) ∈ kn_locks g) by (rewrite Hl; by left). apply drop_lock_perm in Hin.
  apply (Permutation_cons_inv (a := (i, p))). by rewrite <- Hin.
Qed.

Lemma batch_items_wp cf slot_of keys values count ko vo batch locks (Q : _ -> _ -> Prop) g :
  (forall k, (cf, k) = k0 -> slot_of k = Some i0) -> kn_locks g ≡ₚ locks ->
  (k0 ∈ batch.*1 -> exists p, (i0, p) ∈ locks) ->
  (forall g' st batch' locks', kn_locks g' ≡ₚ locks' -> (k0 ∈ batch'.*1 -> exists p, (i0, p) ∈ locks') -> Q g' (st, batch', locks')) ->
  wp false Q g (batch_items cf slot_of keys values ko vo count batch locks).
Proof.
  intros Hslot Hl Hb HQ. revert ko vo batch locks g Hl Hb. induction count as [|count IH]; intros ko vo batch locks g Hl Hb.
  { by apply wp_ret, HQ. }
  cbn [batch_items]. destruct (next_item "key" keys ko) as [|[k ko']]; [by apply wp_ret, HQ|].
  destruct (next_item "value" values vo) as [|[value vo']]; [by apply wp_ret, HQ|].
  assert (forall g locks', kn_locks g ≡ₚ locks' -> locks ⊆ locks' -> ((cf, k) = k0 -> exists p, (i0, p) ∈ locks') ->
    wp false Q g (status ← ask (QBatchPut (cf, k) value);
      match status with
      | ROk => batch_items cf slot_of keys values ko' vo' count ((cf, k, Some value) :: batch) locks'
      | status => mret (status, batch, locks')
      end)) as Hrest.
  { intros g' locks' Hl' Hsub Hk. apply wp_bind, wp_ask; [done|]. intros st. cbn [learn].
    assert (k0 ∈ batch.*1 -> exists p, (i0, p) ∈ locks') by (intros Hin; destruct (Hb Hin) as [p Hp]; exists p; by apply Hsub).
    destruct st; try (by apply wp_ret, HQ). apply IH; [done|]. intros [?|?]%elem_of_cons; auto. }
  apply wp_bind. destruct (slot_of k) as [i|] eqn:Es.
  - apply wp_bind, wp_ask; [done|]. intros p. apply wp_ret, Hrest; [cbn; by rewrite Hl|set_solver|].
    intros Hk. rewrite (Hslot k Hk) in Es. injection Es as <-. exists p. by left.
  - apply wp_ret, Hrest; [done|done|]. intros Hk. by rewrite (Hslot k Hk) in Es.
Qed.

Lemma Database_PutManySync_good cf slot_of keys values count :
  (forall k, (cf, k) = k0 -> slot_of k = Some i0) ->
  good k0 i0 false None know_nothing (Database_PutManySync cf slot_of keys values count).
Proof.
  intros Hslot. unfold good, Database_PutManySync. apply wp_bind, batch_items_wp; [done|done|by intros ?%elem_of_nil|].
  intros g st batch locks Hl Hb. apply wp_bind.
  assert (forall g st, kn_locks g ≡ₚ locks -> wp false (fun g a => fresh_ok false None a g) g
    (release_items (rev locks);; mret (throws_unless_ok st))) as Hend.
  { intros g' st' Hl'. apply wp_bind, release_items_wp; [rewrite Hl'; apply Permutation_rev|]. intros g''.
    apply wp_ret, fresh_never, throws_never_fresh. }
  destruct st; try (by apply wp_ret, Hend). apply wp_ask.
  - intros Hin. rewrite <- Permutation_rev in Hin. destruct (Hb Hin) as [p Hp]. exists p. by rewrite Hl.
  - intros st. by apply Hend.
Qed.

Lemma program_good p txn expected : program k0 i0 p txn expected -> good k0 i0 txn expected know_nothing p.
Proof.
  intros [cf buffer slot k flags t arg Hr|cf buffer slot k flags arg Hr|cf slot k value Hr Hk|cf slot k Hr Hk
    |cf slot_of keys values count Hr Hk].
  - by apply Database_GetSync_good.
  - by apply Transaction_GetSync_good.
  - apply write_locked_good. intros [->|[]%elem_of_nil]%elem_of_cons. by apply Hk.
  - apply write_locked_good. intros [->|[]%elem_of_nil]%elem_of_cons. by apply Hk.
  - by apply Database_PutManySync_good.
Qed.

End programs.
