(* ===== verification/VerifiedReadProofs.v ===== *)
(** * What the verification table says is true

    The invariant of the system of [VerifiedReadSystem]: a version in the slot of the key
    is the version of its latest value, and every open snapshot sees that value. *)

From S2P Require Import Prelude Encoding VerificationTable VerificationTableProofs VerificationTableSystem.
From S2P Require Import VerifiedRead VerifiedReadSystem VerifiedReadPrograms.
From stdpp Require Import base tactics list sets strings.
From coqutil Require Import Byte.
From Stdlib Require Import ZArith Lia.

Local Open Scope Z_scope.

Section proofs.

Context {T D : Type} `{TL : SlotTableLaws T} `{DL : MvccLaws D} (k0 : key) (i0 : nat).

Implicit Types (s : shared (T := T) (D := D)) (th : thread) (d : D) (t : T).

(** ** The invariant of the shared state *)

(** No version occurs twice. *)
Fixpoint unrepeated (vs : list Z) : Prop :=
  match vs with [] => True | v :: vs => (vtIsVersion v = true -> v ∉ vs) /\ unrepeated vs end.

Record sh_inv s : Prop := {
  si_table : tb_ok (sh_t s);
  si_latest : exists vs, sh_vers s = version_of (db_view (sh_d s) None k0) :: vs;
  si_unrepeated : unrepeated (sh_vers s);
  si_published : forall v, tb_slot (sh_t s) i0 = Some v -> vtIsVersion v = true ->
    head (sh_vers s) = Some v /\ forall x, x ∈ db_snaps (sh_d s) -> db_last (sh_d s) k0 <= x
}.

(** A version that was the latest and is again: nothing was written in between. *)
Lemma unrepeated_base vs base v :
  unrepeated vs -> base `suffix_of` vs -> vtIsVersion v = true -> head vs = Some v -> head base = Some v -> vs = base.
Proof.
  intros Hu [l ->] Hv Hvs Hb. destruct l as [|x l]; [done|]. exfalso. cbn in Hvs. injection Hvs as ->.
  cbn in Hu. destruct Hu as [Hu _]. apply (Hu Hv), elem_of_app. right. destruct base as [|y base]; [done|].
  cbn in Hb. injection Hb as ->. by left.
Qed.

(** ** What other threads may do to what a thread knows *)

Record calm s s' : Prop := {
  ca_vers : sh_vers s' = sh_vers s \/ exists v p, sh_vers s' = v :: sh_vers s /\ sh_t s' = sh_t s /\ (i0, p) ∈ tb_intents (sh_t s);
  ca_view x : x ∈ db_snaps (sh_d s) -> db_view (sh_d s') (Some x) k0 = db_view (sh_d s) (Some x) k0;
  ca_last : sh_vers s' = sh_vers s -> db_last (sh_d s') k0 = db_last (sh_d s) k0;
  ca_snaps x : x ∈ db_snaps (sh_d s') -> x ∈ db_snaps (sh_d s) \/ db_last (sh_d s') k0 <= x;
  ca_slot o : vtIsVersion o = false -> vtIsLock o = false -> tb_slot (sh_t s) i0 = Some o ->
    tb_slot (sh_t s') i0 = Some o \/ tb_gone i0 o (sh_t s');
  ca_gone o : tb_gone i0 o (sh_t s) -> tb_gone i0 o (sh_t s')
}.

(** A version the key had since the thread started. *)
Definition during s th (v : Z) : Prop :=
  exists l, sh_vers s = l ++ th_start th /\ (v ∈ l \/ head (th_start th) = Some v).

Definition seen s th (o : Z) : Prop :=
  (vtIsLock o = false -> vtIsVersion o = false ->
     sh_vers s = th_base th /\ tb_slot (sh_t s) i0 = Some o \/ tb_gone i0 o (sh_t s)) /\
  (vtIsVersion o = true -> th_own th = None /\ head (th_base th) = Some o /\
     match th_snap th with Some x => version_of (db_view (sh_d s) (Some x) k0) = o | None => during s th o end) /\
  (th_own th <> None -> vtIsLock o = true).

Record knows s th : Prop := {
  kw_start : th_start th `suffix_of` th_base th;
  kw_base : th_base th `suffix_of` sh_vers s;
  kw_snap x : th_snap th = Some x -> x ∈ db_snaps (sh_d s) /\ th_txn th = true;
  kw_own : th_own th <> None -> th_txn th = true;
  kw_ensured : kn_ensured (th_kn th) = true -> th_snap th <> None \/ th_disable th = true;
  kw_loaded : kn_obs (th_kn th) <> None -> th_txn th = true -> kn_ensured (th_kn th) = true;
  kw_obs o : kn_obs (th_kn th) = Some o -> seen s th o;
  kw_read b : kn_read (th_kn th) = Some b -> kn_obs (th_kn th) <> None ->
    match th_own th, th_snap th with
    | Some w, _ => w = Some b
    | None, Some x => db_view (sh_d s) (Some x) k0 = Some b
    | None, None => during s th (extractVersionFromValue b) /\
        (sh_vers s = th_base th -> head (th_base th) = Some (extractVersionFromValue b))
    end;
  kw_got v : kn_got (th_kn th) = Some v -> during s th v;
  kw_val v o : kn_val (th_kn th) = Some v -> kn_obs (th_kn th) = Some o -> vtIsLock o = false ->
    sh_vers s = th_base th -> head (th_base th) = Some v;
  kw_kn_snap x : kn_snap (th_kn th) = Some x -> th_snap th = Some x;
  kw_seq q : kn_seq (th_kn th) = Some q -> kn_obs (th_kn th) <> None -> sh_vers s = th_base th -> db_last (sh_d s) k0 <= q;
  kw_clear : kn_clear (th_kn th) = true -> kn_obs (th_kn th) <> None -> sh_vers s = th_base th ->
    forall x, x ∈ db_snaps (sh_d s) -> db_last (sh_d s) k0 <= x
}.

Lemma during_grows s s' th v : calm s s' -> during s th v -> during s' th v.
Proof.
  intros C (l & Hl & Hv). unfold during. destruct (ca_vers s s' C) as [->|(w & p & -> & _)]; [by exists l|].
  exists (w :: l). rewrite Hl. split; [done|]. destruct Hv; [left; by right|by right].
Qed.

Lemma suffix_longer {A} (x : A) l base : base `suffix_of` l -> x :: l <> base.
Proof. intros [m ->] E. apply (f_equal length) in E. cbn in E. rewrite length_app in E. lia. Qed.

(** The versions are those of the load still, so they were before. *)
Lemma base_before s s' th : calm s s' -> th_base th `suffix_of` sh_vers s -> sh_vers s' = th_base th ->
  sh_vers s = th_base th /\ sh_vers s' = sh_vers s.
Proof.
  intros C Hb Hv. destruct (ca_vers s s' C) as [E|(w & p & E & _)]; [split; congruence|].
  rewrite E in Hv. by destruct (suffix_longer w (sh_vers s) (th_base th) Hb).
Qed.

Lemma seen_stable s s' th o : sh_inv s -> calm s s' -> th_base th `suffix_of` sh_vers s ->
  (forall x, th_snap th = Some x -> x ∈ db_snaps (sh_d s)) -> seen s th o -> seen s' th o.
Proof.
  intros I C Hb Hsn (H1 & H2 & H3). split_and!; [| |done].
  - intros Hl Hn. destruct (H1 Hl Hn) as [[Hv Hs]|Hg]; [|right; by apply (ca_gone s s' C)].
    destruct (ca_vers s s' C) as [E|(w & p & E & _ & Hp)].
    + destruct (ca_slot s s' C o Hn Hl Hs) as [Hs'|Hg]; [left; split; congruence|by right].
    + destruct (held_locked _ _ _ (si_table s I) Hp) as (v & Hv' & Hlk). congruence.
  - intros Hv. destruct (H2 Hv) as (Ho & Hh & Hd). split_and!; [done|done|].
    destruct (th_snap th) as [x|]; [|by eapply during_grows]. rewrite (ca_view s s' C); auto.
Qed.

Lemma knows_stable s s' th : sh_inv s -> calm s s' ->
  (forall x, th_snap th = Some x -> x ∈ db_snaps (sh_d s')) -> knows s th -> knows s' th.
Proof.
  intros I C Hsn K. pose proof (kw_base s th K) as Hb.
  pose proof (fun x H => proj1 (kw_snap s th K x H)) as Hsn0.
  pose proof (base_before s s' th C Hb) as Hbb. destruct K as [K1 _ K3 K4 K5 K6 K7 K8 K9 K10 K11 K12 K13]. constructor; try done.
  - destruct (ca_vers s s' C) as [->|(w & p & -> & _)]; [done|]. by apply suffix_cons_r.
  - intros x Hx. split; [by apply Hsn|by eapply K3].
  - intros o Ho. by eapply seen_stable; eauto.
  - intros b Hr Ho. specialize (K8 b Hr Ho). destruct (th_own th); [done|]. destruct (th_snap th) as [x|].
    + rewrite (ca_view s s' C); auto.
    + destruct K8 as [Hd Hc]. split; [by eapply during_grows|]. intros Hv. apply Hc, (Hbb Hv).
  - intros v Hv. by eapply during_grows; eauto.
  - intros v o Hv Ho Hl Hs. eapply K10; eauto. apply (Hbb Hs).
  - intros q Hq Ho Hs. destruct (Hbb Hs) as [? E]. rewrite (ca_last s s' C E). by apply K12.
  - intros Hc Ho Hs x Hx. destruct (Hbb Hs) as [? E]. destruct (ca_snaps s s' C x Hx) as [Hx'|]; [|done].
    rewrite (ca_last s s' C E). by apply K13.
Qed.

(** ** Steps on the shared state *)

Lemma lock_no_version v : vtIsLock v = true -> vtIsVersion v = false.
Proof. unfold vtIsLock, vtIsVersion. destruct (Z.land v VT_TAG_BIT =? 0); [done|]. intros _. apply andb_false_r. Qed.

Lemma calm_table t t' d vs :
  (forall o, vtIsVersion o = false -> vtIsLock o = false -> tb_slot t i0 = Some o -> tb_slot t' i0 <> Some o -> tb_gone i0 o t') ->
  (forall o, tb_gone i0 o t -> tb_gone i0 o t') -> calm (mkShared t d vs) (mkShared t' d vs).
Proof.
  intros Hs Hg. constructor; cbn; auto. intros o Hn Hl Ho.
  destruct (decide (tb_slot t' i0 = Some o)) as [|Hne]; [by left|right; by apply Hs].
Qed.

Lemma move_step t t' d vs : sh_inv (mkShared t d vs) -> tb_move t t' ->
  sh_inv (mkShared t' d vs) /\ calm (mkShared t d vs) (mkShared t' d vs).
Proof.
  intros I Hm. pose proof (si_table _ I) as Hok. split.
  - destruct I as [_ I2 I3 I4]. constructor; cbn in *; [by eapply move_ok|done|done|].
    intros v Hv Hver. apply I4; [by eapply move_versions|done].
  - apply calm_table; [|intros o; by apply gone_move]. intros o Hn Hl Ho Hne. by eapply leaves_move.
Qed.

Lemma publish_step t t' d vs i o v b : sh_inv (mkShared t d vs) -> tb_publish i o v b t t' ->
  (i = i0 -> tb_slot t i0 = Some o -> vtIsLock o = false -> vtIsVersion v = true ->
     head vs = Some v /\ forall x, x ∈ db_snaps d -> db_last d k0 <= x) ->
  sh_inv (mkShared t' d vs) /\ calm (mkShared t d vs) (mkShared t' d vs).
Proof.
  intros I Hp Hnew. pose proof (si_table _ I) as Hok. cbn in Hok. split.
  - destruct I as [_ I2 I3 I4]. constructor; cbn in *; [by eapply publish_ok|done|done|].
    intros w Hw Hver. destruct (publish_cases t t' i o v b Hok Hp) as [->|(Ho & Hl & Hv & Hs & Hoth & _)]; [by apply I4|].
    destruct (decide (i = i0)) as [->|Hi]; [|apply I4; [by rewrite <- Hoth by done|done]].
    rewrite Hs in Hw. injection Hw as <-. by apply Hnew.
  - apply calm_table; [|intros x; by eapply gone_publish]. intros x Hn Hl Ho Hne. by eapply leaves_publish.
Qed.

Lemma written_step ws s s' : sh_inv s -> written k0 ws s s' -> (k0 ∈ ws.*1 -> exists p, (i0, p) ∈ tb_intents (sh_t s)) ->
  sh_inv s' /\ calm s s'.
Proof.
  intros I (Ht & Hd & Hw) Hheld. pose proof I as [I1 I2 I3 I4].
  assert (Hview : forall x, x ∈ db_snaps (sh_d s) -> db_view (sh_d s') (Some x) k0 = db_view (sh_d s) (Some x) k0).
  { intros x Hx. rewrite Hd. apply write_old. by apply snaps_le. }
  assert (Hsn : db_snaps (sh_d s') = db_snaps (sh_d s)) by (rewrite Hd; apply write_snaps).
  destruct (decide (k0 ∈ ws.*1)) as [Hin|Hin].
  - destruct Hw as [Hfresh Hvs]. destruct (Hheld Hin) as [p Hp].
    destruct (held_locked _ _ _ I1 Hp) as (v & Hv & Hlk). split; constructor; rewrite ?Ht, ?Hvs, ?Hsn; try done.
    + by eexists.
    + intros w Hw. rewrite Hv in Hw. injection Hw as <-. by rewrite lock_no_version.
    + right. by eexists _, p.
    + intros E. by destruct (suffix_longer (version_of (db_view (sh_d s') None k0)) (sh_vers s) (sh_vers s)).
    + auto.
    + auto.
  - destruct (write_other ws (sh_d s) k0 Hin) as [Hvw Hlast]. rewrite <- Hd in Hvw, Hlast.
    split; constructor; rewrite ?Ht, ?Hw, ?Hsn, ?Hvw, ?Hlast; auto.
Qed.

Lemma snapshot_step t d vs : sh_inv (mkShared t d vs) ->
  sh_inv (mkShared t (db_snapshot d) vs) /\ calm (mkShared t d vs) (mkShared t (db_snapshot d) vs).
Proof.
  intros [I1 I2 I3 I4]. destruct (snapshot_same d) as (Hs & Hv & Hl). cbn in *.
  split; constructor; cbn; rewrite ?Hv, ?Hl, ?snapshot_snaps; auto.
  - intros v Hsl Hver. destruct (I4 v Hsl Hver) as [Hh Hx]. split; [done|].
    intros x [->|Hin]%elem_of_cons; [apply last_le|by apply Hx].
  - intros x [->|Hin]%elem_of_cons; [right; apply last_le|by left].
Qed.

Lemma unsnapshot_step t d vs x : sh_inv (mkShared t d vs) ->
  sh_inv (mkShared t (db_release x d) vs) /\ calm (mkShared t d vs) (mkShared t (db_release x d) vs).
Proof.
  intros [I1 I2 I3 I4]. destruct (release_same x d) as (Hs & Hv & Hl). cbn in *.
  split; constructor; cbn; rewrite ?Hv, ?Hl; auto.
  - intros v Hsl Hver. destruct (I4 v Hsl Hver) as [Hh Hx]. split; [done|]. intros y Hin%release_snaps. by apply Hx.
  - intros y Hin%release_snaps. by left.
Qed.

(** ** What a thread learns is true *)

(** Only the program and the locks change. *)
Lemma knows_locks s th p ls :
  knows s th ->
  knows s (th_next th p (mkKn (kn_ensured (th_kn th)) (kn_obs (th_kn th)) (kn_read (th_kn th)) (kn_got (th_kn th))
    (kn_val (th_kn th)) (kn_snap (th_kn th)) (kn_seq (th_kn th)) (kn_clear (th_kn th)) ls) (th_snap th) (th_base th)).
Proof. intros []. by constructor. Qed.

Lemma knows_same s th p : knows s th -> knows s (th_next th p (th_kn th) (th_snap th) (th_base th)).
Proof. intros []. by constructor. Qed.

Lemma knows_ensured s th p :
  knows s th -> th_snap th <> None \/ th_disable th = true ->
  knows s (th_next th p (learn k0 i0 QEnsure tt (th_kn th)) (th_snap th) (th_base th)).
Proof. intros [] He. by constructor. Qed.

Lemma learn_ensure s s' th p snap base :
  sh_inv s -> knows s th -> th_txn th = true -> serve k0 i0 QEnsure tt th s s' snap base ->
  sh_inv s' /\ calm s s' /\ knows s' (th_next th p (learn k0 i0 QEnsure tt (th_kn th)) snap base).
Proof.
  intros I K Ht [-> Hsv]. destruct (th_snap th) as [x|] eqn:Esn.
  { destruct Hsv as [-> ->]. split_and!; [done|constructor; auto|]. rewrite <- Esn. apply knows_ensured; [done|left; congruence]. }
  destruct (th_disable th) eqn:Ed.
  { destruct Hsv as [-> ->]. split_and!; [done|constructor; auto|]. rewrite <- Esn. apply knows_ensured; [done|by right]. }
  destruct Hsv as [-> ->]. destruct s as [t d vs]. destruct (snapshot_step t d vs I) as [I' C]. cbn in *.
  assert (kn_obs (th_kn th) = None) as Hobs.
  { destruct (kn_obs (th_kn th)) eqn:E; [|done]. pose proof (kw_loaded _ _ K ltac:(by rewrite E) Ht) as He.
    destruct (kw_ensured _ _ K He); congruence. }
  split_and!; [done|done|]. apply (knows_stable _ _ th I C) in K; [|by rewrite Esn].
  destruct K as [K1 K2 K3 K4 K5 K6 K7 K8 K9 K10 K11 K12 K13]. constructor; cbn in *; rewrite ?Hobs in *; try done.
  - intros x [= <-]. rewrite snapshot_snaps. split; [by left|done].
  - by left.
  - intros x Hx. specialize (K11 x Hx). congruence.
Qed.

Lemma learn_read_snapshot s th p :
  knows s th -> knows s (th_next th p (learn k0 i0 QReadSnapshot (th_snap th) (th_kn th)) (th_snap th) (th_base th)).
Proof.
  intros [K1 K2 K3 K4 K5 K6 K7 K8 K9 K10 K11 K12 K13]. constructor; cbn; try done.
  intros v o Hv Ho Hl Hs. destruct (th_snap th) as [x|] eqn:Esn; [by eapply K10|].
  destruct (kn_read (th_kn th)) as [b|] eqn:Er; [|done]. injection Hv as <-.
  specialize (K8 b eq_refl ltac:(congruence)). destruct (th_own th) eqn:Eo; [|by apply K8].
  destruct (K7 o Ho) as (_ & _ & Hlk). rewrite Hlk in Hl by congruence. done.
Qed.

Lemma latest_during s th b : sh_inv s -> knows s th -> db_view (sh_d s) None k0 = Some b ->
  during s th (extractVersionFromValue b) /\ head (sh_vers s) = Some (extractVersionFromValue b).
Proof.
  intros I [K1 K2 _ _ _ _ _ _ _ _ _ _ _] Hb. destruct (si_latest s I) as [vs Hvs]. rewrite Hb in Hvs. cbn in Hvs.
  rewrite Hvs. split; [|done]. destruct (transitivity K1 K2) as [l Hl]. exists l. split; [done|].
  destruct l as [|y l]; [right; cbn in Hl; by rewrite <- Hl, Hvs|left]. rewrite Hvs in Hl. injection Hl as -> _. by left.
Qed.

Lemma learn_txn_get s th p cacheOnly k r :
  sh_inv s -> knows s th -> (k = k0 -> answer_ok (visible k0 (sh_d s) th) r) ->
  knows s (th_next th p (learn k0 i0 (QTxnGet cacheOnly k) r (th_kn th)) (th_snap th) (th_base th)).
Proof.
  intros I K Ha. cbn [learn]. destruct (decide (k = k0)) as [->|]; [|by apply knows_same].
  pose proof (latest_during s th) as Hl. specialize (Ha eq_refl).
  pose proof K as [K1 K2 K3 K4 K5 K6 K7 K8 K9 K10 K11 K12 K13].
  constructor; cbn; try done. intros b Hb Ho. destruct r as [[] c]; try done. injection Hb as <-. cbn in Ha.
  unfold visible in Ha. destruct (th_own th) as [w|]; [done|]. destruct (th_snap th) as [x|]; [done|].
  destruct (Hl c I K Ha) as [Hd Hh]. split; [done|]. by intros <-.
Qed.

Lemma learn_get s th p cacheOnly k r :
  sh_inv s -> knows s th -> answer_ok (db_view (sh_d s) None k) r ->
  knows s (th_next th p (learn k0 i0 (QGet cacheOnly k) r (th_kn th)) (th_snap th) (th_base th)).
Proof.
  intros I K Ha. cbn [learn]. destruct (decide (k = k0)) as [->|]; [|by apply knows_same].
  pose proof (latest_during s th) as Hl.
  pose proof K as [K1 K2 K3 K4 K5 K6 K7 K8 K9 K10 K11 K12 K13].
  constructor; cbn; try done; destruct r as [[] c]; try done; cbn in Ha; destruct (Hl c I K Ha) as [Hd Hh].
  - by intros v [= <-].
  - intros v o [= <-] _ _ <-. done.
Qed.

Lemma learn_latest_seq s th p :
  sh_inv s -> knows s th ->
  knows s (th_next th p (learn k0 i0 QLatestSeq (db_seq (sh_d s)) (th_kn th)) (th_snap th) (th_base th)).
Proof.
  intros I [K1 K2 K3 K4 K5 K6 K7 K8 K9 K10 K11 K12 K13]. constructor; cbn; try done.
  - intros v o Hv Ho Hl Hs. destruct (kn_val (th_kn th)) as [w|] eqn:Ev; [by eapply K10; [rewrite <- Hv|..]|].
    destruct (kn_snap (th_kn th)) as [x|] eqn:Esn; [|done]. destruct (Z.leb_spec (db_seq (sh_d s)) x); [|done].
    destruct (kn_read (th_kn th)) as [b|] eqn:Er; [|done]. injection Hv as <-.
    specialize (K8 b eq_refl ltac:(congruence)). rewrite (K11 x eq_refl) in K8.
    destruct (th_own th) eqn:Eo; [destruct (K7 o Ho) as (_ & _ & Hlk); by rewrite Hlk in Hl by congruence|].
    rewrite view_latest in K8 by (pose proof (last_le (sh_d s) k0); lia).
    destruct (si_latest s I) as [vs Hvs]. by rewrite <- Hs, Hvs, K8.
  - intros q [= <-] _ _. apply last_le.
Qed.

Lemma learn_property s th p name r :
  knows s th -> property_ok (sh_d s) name r ->
  knows s (th_next th p (learn k0 i0 (QIntProperty name) r (th_kn th)) (th_snap th) (th_base th)).
Proof.
  intros [K1 K2 K3 K4 K5 K6 K7 K8 K9 K10 K11 K12 K13] Hp. constructor; cbn; try done.
  intros Hc Ho Hs x Hx. assert (Hne : db_snaps (sh_d s) <> []) by (intros E; rewrite E in Hx; by apply elem_of_nil in Hx).
  destruct (Hp Hne) as [Htime Hseq]. destruct (String.eqb_spec name "rocksdb.oldest-snapshot-time") as [En|_].
  - destruct (Htime En) as (tm & -> & Htm). destruct tm; [done|by apply K13..].
  - destruct (String.eqb_spec name "rocksdb.oldest-snapshot-sequence") as [En|_]; [|by apply K13].
    destruct (Hseq En) as (o & -> & Hall). destruct (kn_seq (th_kn th)) as [q|] eqn:Eq; [|by apply K13].
    apply orb_true_iff in Hc as [Hle%Z.leb_le|Hc]; [|by apply K13]. rewrite Forall_forall in Hall.
    specialize (Hall x Hx). specialize (K12 q eq_refl Ho Hs). lia.
Qed.

Lemma learn_load s th p i o base :
  sh_inv s -> knows s th -> (i = i0 -> th_txn th = true -> kn_ensured (th_kn th) = true) ->
  tb_slot (sh_t s) i = Some o ->
  (if decide (i = i0) then base = sh_vers s /\ (th_own th <> None -> exists p, (i0, p) ∈ tb_intents (sh_t s)) else base = th_base th) ->
  knows s (th_next th p (learn k0 i0 (QLoad i) o (th_kn th)) (th_snap th) base).
Proof.
  intros I K Hm Hs Hb. cbn [learn]. destruct (decide (i = i0)) as [->|].
  2:{ subst base. by apply knows_same. }
  destruct Hb as [-> Hown]. destruct K as [K1 K2 K3 K4 K5 K6 K7 K8 K9 K10 K11 K12 K13].
  constructor; cbn; try done; [by etrans|intros _; by apply Hm|].
  intros o' [= <-]. unfold seen. cbn. split_and!.
  - intros _ _. by left.
  - intros Hv. destruct (si_published s I o Hs Hv) as [Hh Hx].
    assert (Ho : th_own th = None).
    { destruct (th_own th) eqn:E; [|done]. destruct (Hown ltac:(done)) as [q Hq].
      destruct (held_locked _ _ _ (si_table s I) Hq) as (w & Hw & Hlk). rewrite Hs in Hw. injection Hw as <-.
      by rewrite (lock_no_version o Hlk) in Hv. }
    split_and!; [done|done|]. destruct (si_latest s I) as [vs Hvs]. rewrite Hvs in Hh. injection Hh as Hh.
    destruct (th_snap th) as [x|] eqn:Esn.
    + rewrite view_latest; [done|]. by apply Hx, (K3 x).
    + destruct (transitivity K1 K2) as [l Hl]. exists l. split; [done|]. rewrite Hvs in Hl. cbn.
      destruct l as [|y l]; [right; cbn in Hl; by rewrite <- Hl, Hh|left]. injection Hl as <- _. rewrite Hh. by left.
  - intros Hne. destruct (Hown Hne) as [q Hq]. destruct (held_locked _ _ _ (si_table s I) Hq) as (w & Hw & Hlk). congruence.
Qed.

(** The version that is published is the latest one, and no snapshot is older. *)
Lemma publish_current s th o v :
  sh_inv s -> knows s th -> kn_obs (th_kn th) = Some o -> kn_val (th_kn th) = Some v -> kn_clear (th_kn th) = true ->
  tb_slot (sh_t s) i0 = Some o -> vtIsLock o = false ->
  head (sh_vers s) = Some v /\ forall x, x ∈ db_snaps (sh_d s) -> db_last (sh_d s) k0 <= x.
Proof.
  intros I K Ho Hv Hc Hs Hl.
  assert (Hb : sh_vers s = th_base th).
  { destruct (kw_obs s th K o Ho) as (H1 & H2 & _). destruct (vtIsVersion o) eqn:Hver.
    - destruct (H2 eq_refl) as (_ & Hh & _). destruct (si_published s I o Hs Hver) as [Hh' _].
      by eapply unrepeated_base; [apply I|apply K|..].
    - destruct (H1 Hl eq_refl) as [[? _]|Hg]; [done|]. by destruct (gone_slot _ _ _ Hg). }
  split; [rewrite Hb; by eapply (kw_val s th K)|]. apply (kw_clear s th K); [done|congruence|done].
Qed.

(** ** A thread's access *)

Lemma serve_step q r s s' th p snap base :
  sh_inv s -> knows s th -> may k0 i0 q (th_txn th) (th_kn th) -> serve k0 i0 q r th s s' snap base ->
  (forall x, x ∈ kn_locks (th_kn th) -> x ∈ tb_intents (sh_t s)) ->
  sh_inv s' /\ calm s s' /\ knows s' (th_next th p (learn k0 i0 q r (th_kn th)) snap base).
Proof.
  intros I K Hm Hsv Hlk.
  assert (Hkeep : forall s', sh_inv s' /\ calm s s' -> db_snaps (sh_d s') = db_snaps (sh_d s) -> sh_inv s' /\ calm s s' /\ knows s' th).
  { intros s1 [I1 C1] Hsn. split_and!; [done|done|]. eapply knows_stable; [exact I|exact C1| |done].
    intros x Hx. rewrite Hsn. by apply (kw_snap s th K). }
  assert (Hid : sh_inv s /\ calm s s) by (split; [done|constructor; auto]).
  destruct q as [| | |cacheOnly k| |cacheOnly k| |name|ws|k value|i|i o v|i v|i|i tr]; cbn [serve] in Hsv.
  - destruct Hsv as (-> & -> & ->). split; [done|]. split; [apply Hid|by apply knows_same].
  - destruct r. by apply learn_ensure.
  - destruct Hsv as (-> & -> & -> & ->). split; [done|]. split; [apply Hid|by apply learn_read_snapshot].
  - destruct Hsv as (-> & -> & -> & Ha). split; [done|]. split; [apply Hid|by apply learn_txn_get].
  - destruct Hsv as (-> & -> & ->). split; [done|]. split; [apply Hid|by apply knows_same].
  - destruct Hsv as (-> & -> & -> & Ha). split; [done|]. split; [apply Hid|by apply learn_get].
  - destruct Hsv as (-> & -> & -> & ->). split; [done|]. split; [apply Hid|by apply learn_latest_seq].
  - destruct Hsv as (-> & -> & -> & Hp). split; [done|]. split; [apply Hid|by apply learn_property].
  - destruct Hsv as (-> & -> & Hw). destruct (Hkeep s') as (I' & C' & K'); [| |split_and!; [done|done|by apply knows_same]].
    + destruct r; try (by subst s'). eapply written_step; [done|exact Hw|]. intros Hin. destruct (Hm Hin) as [t Ht]. exists t. by apply Hlk.
    + destruct r; try (by subst s'). destruct Hw as (_ & -> & _). apply write_snaps.
  - destruct Hsv as (-> & -> & ->). split; [done|]. split; [apply Hid|by apply knows_same].
  - destruct Hsv as (-> & -> & Hs & Hb). split; [done|]. split; [apply Hid|by apply learn_load].
  - destruct Hsv as (-> & -> & t' & Hp & ->). destruct s as [t d vs]. cbn in *.
    destruct (Hkeep (mkShared t' d vs)) as (I' & C' & K'); [|done|split_and!; [done|done|by apply knows_same]].
    eapply publish_step; [done|exact Hp|]. intros -> Hs Hl Hv. destruct (Hm eq_refl Hv Hl) as (Ho & Hval & Hc).
    by apply (publish_current (mkShared t d vs) th o v).
  - done.
  - destruct Hsv as (-> & -> & t' & Hp & ->). destruct s as [t d vs]. cbn in *.
    destruct (Hkeep (mkShared t' d vs)) as (I' & C' & K'); [|done|split_and!; [done|done|by apply knows_locks]].
    apply move_step; [done|]. left. by exists i, r.
  - destruct Hsv as (-> & -> & t' & Hp & ->). destruct s as [t d vs]. cbn in *.
    destruct (Hkeep (mkShared t' d vs)) as (I' & C' & K'); [|done|split_and!; [done|done|by apply knows_locks]].
    apply move_step; [done|]. right. left. by exists i, tr.
Qed.

Lemma serve_snaps q r s s' th snap base x :
  serve k0 i0 q r th s s' snap base -> x ∈ db_snaps (sh_d s) -> x ∈ db_snaps (sh_d s').
Proof.
  intros Hsv Hx. destruct q; cbn [serve] in Hsv; try (destruct_and?; simplify_eq; done).
  - destruct Hsv as [_ Hsv]. destruct (th_snap th), (th_disable th); destruct_and?; simplify_eq; try done. cbn. rewrite snapshot_snaps. by right.
  - destruct r; try (destruct_and?; by simplify_eq). destruct Hsv as (_ & _ & _ & -> & _). by rewrite write_snaps.
  - destruct Hsv as (_ & _ & t' & _ & ->). done.
  - destruct Hsv as (_ & _ & t' & _ & ->). done.
  - destruct Hsv as (_ & _ & t' & _ & ->). done.
Qed.

(** The intents a thread holds are those it took and did not release. *)
Lemma serve_intents q r s s' th snap base rest :
  tb_ok (sh_t s) -> may k0 i0 q (th_txn th) (th_kn th) -> serve k0 i0 q r th s s' snap base ->
  tb_intents (sh_t s) ≡ₚ kn_locks (th_kn th) ++ rest ->
  tb_intents (sh_t s') ≡ₚ kn_locks (learn k0 i0 q r (th_kn th)) ++ rest.
Proof.
  intros Hok Hm Hsv Hi.
  destruct q as [| | |cacheOnly k| |cacheOnly k| |name|ws|k value|i|i o v|i v|i|i tr]; cbn [serve learn] in *;
    try (destruct_and?; simplify_eq; try (destruct (decide _)); done).
  - destruct Hsv as [_ Hsv]. destruct (th_snap th), (th_disable th); destruct_and?; by simplify_eq.
  - destruct r; try (destruct_and?; by simplify_eq). by destruct Hsv as (_ & _ & -> & _).
  - destruct Hsv as (_ & _ & t' & Hp & ->). cbn.
    destruct (publish_cases _ _ _ _ _ _ Hok Hp) as [->|(_ & _ & _ & _ & _ & ->)]; done.
  - destruct Hsv as (_ & _ & t' & Hp & ->). cbn. rewrite (lock_adds _ _ _ _ Hok Hp), Hi. done.
  - destruct Hsv as (_ & _ & t' & Hp & ->). cbn. apply (Permutation_cons_inv (a := (i, tr))).
    rewrite <- (release_drops _ _ _ _ Hok Hp), Hi, app_comm_cons. f_equiv. by apply drop_lock_perm.
Qed.

(** ** The invariant of the system *)

Definition th_ok s th : Prop := knows s th /\ good k0 i0 (th_txn th) (th_expected th) (th_kn th) (th_prog th).

Definition all_locks (ths : list thread) : list (nat * Z) := concat (map (fun th => kn_locks (th_kn th)) ths).

Record sys_ok (y : sys) : Prop := {
  so_shared : sh_inv (sy_s y);
  so_intents : tb_intents (sh_t (sy_s y)) ≡ₚ sy_env y ++ all_locks (sy_threads y);
  so_threads : Forall (th_ok (sy_s y)) (sy_threads y)
}.

Lemma threads_stable s s' ths : sh_inv s -> calm s s' ->
  (forall th x, th ∈ ths -> th_snap th = Some x -> x ∈ db_snaps (sh_d s')) ->
  Forall (th_ok s) ths -> Forall (th_ok s') ths.
Proof.
  intros I C Hsn Hall. rewrite Forall_forall in Hall |- *. intros th Hin. destruct (Hall th Hin) as [K G].
  split; [|done]. eapply knows_stable; eauto.
Qed.

Lemma env_step s s' E E' ths : sys_ok (mkRSys s E ths) -> sh_inv s' /\ calm s s' ->
  (forall th x, th ∈ ths -> th_snap th = Some x -> x ∈ db_snaps (sh_d s')) ->
  (forall rest, tb_intents (sh_t s) ≡ₚ E ++ rest -> tb_intents (sh_t s') ≡ₚ E' ++ rest) -> sys_ok (mkRSys s' E' ths).
Proof.
  intros [I Hi Ht] [I' C] Hsn Hint. constructor; cbn in *; [done|by apply Hint|].
  eapply threads_stable; [exact I|exact C|exact Hsn|exact Ht].
Qed.

Lemma snap_kept s E ths th x : sys_ok (mkRSys s E ths) -> th ∈ ths -> th_snap th = Some x -> x ∈ db_snaps (sh_d s).
Proof.
  intros [_ _ Ht] Hin Hx. cbn in Ht. rewrite Forall_forall in Ht. destruct (Ht th Hin) as [K _]. by apply (kw_snap s th K).
Qed.

Lemma all_locks_split ths1 th ths2 :
  all_locks (ths1 ++ th :: ths2) ≡ₚ kn_locks (th_kn th) ++ all_locks (ths1 ++ ths2).
Proof.
  unfold all_locks. rewrite !map_app, !concat_app. cbn. rewrite !app_assoc. apply Permutation_app_tail, Permutation_app_comm.
Qed.

Lemma ask_step s s' E ths1 th ths2 q k r snap base :
  sys_ok (mkRSys s E (ths1 ++ th :: ths2)) -> th_prog th = Ask q k -> serve k0 i0 q r th s s' snap base ->
  sys_ok (mkRSys s' E (ths1 ++ th_next th (k r) (learn k0 i0 q r (th_kn th)) snap base :: ths2)).
Proof.
  intros Y Hp Hsv. pose proof Y as [I Hi Ht]. cbn [sy_s sy_env sy_threads] in *. apply Forall_app in Ht as [Ht1 Ht2].
  apply Forall_cons in Ht2 as [[K G] Ht2]. rewrite Hp in G. destruct G as [Hm Hg].
  rewrite all_locks_split, app_assoc, (Permutation_app_comm E), <- app_assoc in Hi.
  destruct (serve_step q r s s' th (k r) snap base I K Hm Hsv) as (I' & C & K').
  { intros x Hx. rewrite Hi. apply elem_of_app. by left. }
  assert (Hsn : forall th' x, th' ∈ ths1 ++ th :: ths2 -> th_snap th' = Some x -> x ∈ db_snaps (sh_d s')).
  { intros th' x Hin Hx. eapply serve_snaps; [exact Hsv|]. by eapply (snap_kept s E _ th' x Y). }
  constructor; cbn [sy_s sy_env sy_threads]; [done| |].
  - rewrite all_locks_split, app_assoc, (Permutation_app_comm E), <- app_assoc. by eapply serve_intents; [apply I|..].
  - apply Forall_app. split; [|apply Forall_cons; split].
    + eapply threads_stable; [exact I|exact C| |exact Ht1]. intros th' x Hin. apply Hsn. apply elem_of_app. by left.
    + split; [done|]. apply Hg.
    + eapply threads_stable; [exact I|exact C| |exact Ht2]. intros th' x Hin. apply Hsn. apply elem_of_app. right. by right.
Qed.

Lemma start_thread s p txn expected disable snap own :
  program k0 i0 p txn expected -> (forall x, snap = Some x -> x ∈ db_snaps (sh_d s) /\ txn = true) -> (own <> None -> txn = true) ->
  th_ok s (mkThread p txn expected disable snap own know_nothing (sh_vers s) (sh_vers s)).
Proof. intros Hp Hsn Hown. split; [|by apply program_good]. by constructor. Qed.

Lemma sys_step_ok y y' : sys_ok y -> sys_step k0 i0 y y' -> sys_ok y'.
Proof.
  intros Y St. destruct St as [s E ths p txn expected disable snap own Hp Hsn Hown|s s' E ths1 th ths2 q k r snap base Hp Hsv
    |s E ths1 th ths2 a Hp Hl|t t' d vs E ths i p Hp|t t' d vs E E' ths i p HE Hp|s s' E ths ws Hheld Hw|t t' d vs E ths Hp
    |t t' d vs E ths i o v b Hne Hp|t d vs E ths|t d vs E ths x Hsn]; pose proof Y as [I Hi Ht];
    pose proof (fun th x => snap_kept _ _ _ th x Y) as Hkept; cbn [sy_s sy_env sy_threads] in *.
  - constructor; cbn; [done|done|]. apply Forall_cons. split; [by apply start_thread|done].
  - by eapply ask_step.
  - rewrite all_locks_split, Hl in Hi. constructor; cbn [sy_s sy_env sy_threads]; [done|done|]. apply Forall_app in Ht as [Ht1 Ht2].
    apply Forall_cons in Ht2 as [_ Ht2]. by apply Forall_app.
  - eapply env_step; [exact Y|apply move_step; [done|left; by exists i, p]|done|]. cbn. intros rest Hr.
    by rewrite (lock_adds _ _ _ _ (si_table _ I) Hp), Hr.
  - eapply env_step; [exact Y|apply move_step; [done|right; left; by exists i, p]|done|]. cbn. intros rest Hr.
    apply (Permutation_cons_inv (a := (i, p))). rewrite <- (release_drops _ _ _ _ (si_table _ I) Hp), Hr, app_comm_cons. by f_equiv.
  - eapply env_step; [exact Y| | |].
    + eapply written_step; [done|exact Hw|]. intros Hin. destruct (Hheld Hin) as [p Hp']. exists p. rewrite Hi. apply elem_of_app. by left.
    + destruct Hw as (_ & -> & _). intros th x. rewrite write_snaps. apply Hkept.
    + by destruct Hw as (-> & _).
  - eapply env_step; [exact Y|apply move_step; [done|by right; right]|done|]. cbn. intros rest Hr.
    by rewrite (other_same _ _ (si_table _ I) Hp).
  - eapply env_step; [exact Y|eapply publish_step; [done|exact Hp|done]|done|]. cbn. intros rest Hr.
    destruct (publish_cases _ _ _ _ _ _ (si_table _ I) Hp) as [->|(_ & _ & _ & _ & _ & ->)]; done.
  - eapply env_step; [exact Y|by apply snapshot_step| |done]. cbn. intros th x Hin Hx. rewrite snapshot_snaps. right. by eapply Hkept.
  - eapply env_step; [exact Y|by apply unsnapshot_step|done|done].
Qed.

Lemma sys_reachable_ok y : sys_reachable k0 i0 y -> sys_ok y.
Proof.
  induction 1 as [y (t & d & -> & Hok & Hint & Hslot)|y y' _ IH St]; [|by eapply sys_step_ok].
  constructor; cbn; [|by rewrite Hint|done]. constructor; cbn; [done|by eexists|split; [by intros _ ?%elem_of_nil|done]|].
  intros v Hv Hver. rewrite (Hslot v Hv) in Hver. done.
Qed.

End proofs.
