(* ===== verification/VerifiedReadTable.v ===== *)
(** * The verification table keeps the promises its readers rely on

    The concurrent system of [VerificationTableSystem], without the cancellation of a
    closing database, is an instance of [SlotTable]. *)

From S2P Require Import Prelude Encoding VerificationTable VerificationTableProofs VerificationTableSystem.
From S2P Require Import VerifiedRead VerifiedReadSystem.
From stdpp Require Import base tactics list gmap strings relations.
From Stdlib Require Import ZArith Lia.

Local Open Scope Z_scope.

(** A slot with a write intent holds the lock of its tracker. *)
Definition locked (y : vt_sys) : Prop :=
  forall i p, (i, p) ∈ y_intents y -> exists v, vt_slots (y_vt y) !! i = Some v /\ vtIsLock v = true /\ vtDecodeLock v = p.

(** What a step of the table leaves alone. *)
Definition same_clients (y y' : vt_sys) : Prop :=
  y_refs y' = y_refs y /\ y_parked y' = y_parked y /\ y_sweeps y' = y_sweeps y.

#[export] Instance vt_table : SlotTable vt_sys := {|
  tb_ok y := sys_inv y /\ locked y;
  tb_slot y i := vt_slots (y_vt y) !! i;
  tb_intents := y_intents;
  tb_lock i p y y' := vt_step y y' /\ y_intents y' = (i, p) :: y_intents y /\ same_clients y y' /\
    (i < length (vt_slots (y_vt y)))%nat /\ vt_room y /\
    exists db addr, is_ptr addr /\ vt_heap (y_vt y) !! addr = None /\
      lockSlotForWrite addr (Some i) db (y_vt y) = (inr (Some p), y_vt y');
  tb_release i p y y' := vt_step y y' /\ y_intents y ≡ₚ (i, p) :: y_intents y' /\ same_clients y y' /\ vt_room y /\
    releaseWriteIntent i (Some p) (y_vt y) = (inr tt, y_vt y');
  tb_other y y' := vt_step y y' /\ y_intents y' = y_intents y /\
    (vt_slots (y_vt y') = vt_slots (y_vt y) \/
     exists g j, (j < length (vt_slots (y_vt y)))%nat /\ settle_slot (vtEncodeSettled g) j (y_vt y) = (inr tt, y_vt y'));
  tb_publish i o v b y y' := is_u64 v /\ (i < length (vt_slots (y_vt y)))%nat /\
    populateVersionIfUnchanged (Some i) o v (y_vt y) = (inr b, y_vt y') /\
    y' = mkSys (y_vt y') (y_intents y) (y_refs y) (y_parked y) (y_sweeps y);
  tb_gone := gone
|}.

Lemma publish_is_step i o v b y y' : tb_publish i o v b y y' -> vt_step y y'.
Proof. destruct y, y'. intros (Hv & Hi & Hrun & [= -> -> -> ->]). by eapply step_publish. Qed.

Lemma move_is_step y y' : tb_move y y' -> vt_step y y'.
Proof. by intros [(i & p & H & _)|[(i & p & H & _)|[H _]]]. Qed.

Lemma step_sys_inv y y' : sys_inv y -> vt_step y y' -> sys_inv y' /\ slots_change y y'.
Proof. intros Hy Hst. destruct (step_change y y' Hy Hst) as [Hok Hch]. split; [by eapply change_inv|done]. Qed.

(** The slots after a lock was taken: the same, or the lock in the slot. *)
Lemma lock_slots i p (y y' : vt_sys) : sys_inv y -> tb_lock i p y y' ->
  (exists v, vt_slots (y_vt y) !! i = Some v /\ vtIsLock v = true /\ vtDecodeLock v = p /\ vt_slots (y_vt y') = vt_slots (y_vt y)) \/
  (exists v v', vt_slots (y_vt y) !! i = Some v /\ vtIsLock v = false /\ vtIsLock v' = true /\ vtDecodeLock v' = p /\
     vt_slots (y_vt y') = <[i := v']> (vt_slots (y_vt y))).
Proof.
  intros Hy (_ & _ & _ & Hi & [Hfew _] & db & addr & Hp & Hfr & Hrun). pose proof (yi_table _ Hy) as Hinv.
  destruct (vt_inv_lookup _ _ _ _ i Hinv Hi) as (v & Hv & _). destruct (vtIsLock v) eqn:Hl; [left|right].
  - destruct (lock_join _ _ _ _ i v addr db Hinv Hfew Hv Hl) as (s' & Hrun' & _ & Hs & _).
    rewrite Hrun in Hrun'. injection Hrun' as -> <-. by exists v.
  - destruct (lock_install _ _ _ _ i v addr db Hinv Hv Hl Hp Hfr) as (s' & g & Hrun' & _ & Hs & _).
    rewrite Hrun in Hrun'. injection Hrun' as -> <-. destruct (lock_u64 addr g Hp) as [_ Hlk].
    exists v, (vtEncodeLock addr g). split_and!; [done|done|done|by apply VerificationTableProofs.decode_encode|done].
Qed.

(** A release changes the slot only when it was the last intent of the tracker. *)
Lemma release_last i p s s' : releaseWriteIntent i (Some p) s = (inr tt, s') -> vt_slots s' <> vt_slots s ->
  exists t, vt_heap s !! p = Some t /\ lt_holders t = 1.
Proof.
  intros Hrun Hne. unfold releaseWriteIntent, deref, assign in Hrun. mrun in Hrun.
  destruct (vt_heap s !! p) as [t|] eqn:Ht; [|done]. exists t. split; [done|].
  destruct (Z.eqb_spec (lt_holders t) 1) as [|Hn]; [done|]. exfalso. apply Hne. clear Hne.
  unfold drop_ref, deref, assign, free in Hrun. mrun in Hrun. cbn [vt_heap set_heap] in Hrun. rewrite lookup_insert_eq in Hrun.
  destruct (_ =? 1) in Hrun; by injection Hrun as <-.
Qed.

(** The slots after a release: the same, or a settled mark in place of a lock nobody
    holds any more. *)
Lemma release_slots i p (y y' : vt_sys) : sys_inv y -> tb_release i p y y' ->
  vt_slots (y_vt y') = vt_slots (y_vt y) \/
  (exists g, vt_slots (y_vt y') = <[i := vtEncodeSettled g]> (vt_slots (y_vt y))) /\ forall j, (j, p) ∉ y_intents y'.
Proof.
  intros Hy (_ & HI & _ & [Hfew _] & Hrun). pose proof (yi_table _ Hy) as Hinv.
  destruct (release_run _ _ _ _ _ i p Hinv Hfew (yi_slots _ Hy) HI) as (s' & g & Hrun' & _ & Hcase).
  rewrite Hrun in Hrun'. injection Hrun' as <-. destruct (decide (vt_slots (y_vt y') = vt_slots (y_vt y))) as [|Hne]; [by left|right].
  destruct Hcase as [[? _]|(_ & _ & [?|[_ Hs]])]; [done|done|]. split; [by exists g|]. intros j Hj.
  destruct (release_last _ _ _ _ Hrun Hne) as (t & Ht & Hh).
  pose proof (to_holders _ _ _ _ _ (vi_tracker _ _ _ _ Hinv p t Ht)) as Hcount.
  rewrite (intents_perm p _ _ HI), intents_cons, decide_True in Hcount by done. apply intents_pos in Hj. lia.
Qed.

(** ** The laws *)

Lemma lock_locked i p (y y' : vt_sys) : sys_inv y -> locked y -> tb_lock i p y y' -> locked y'.
Proof.
  intros Hy Hl Hlock j q Hin. pose proof Hlock as (_ & HI & _ & Hi & _). rewrite HI in Hin.
  destruct (lock_slots i p y y' Hy Hlock) as [(v & Hv & Hlk & Hd & Hs)|(v & v' & Hv & Hnl & Hlk & Hd & Hs)]; rewrite Hs.
  - apply elem_of_cons in Hin as [[= -> ->]|Hin]; [by exists v|by apply Hl].
  - apply elem_of_cons in Hin as [[= -> ->]|Hin]; [exists v'; by rewrite list_lookup_insert_eq|].
    destruct (Hl j q Hin) as (w & Hw & Hwl & Hwd). exists w. split; [|done].
    rewrite list_lookup_insert_ne; [done|]. intros <-. congruence.
Qed.

Lemma release_locked i p (y y' : vt_sys) : sys_inv y -> locked y -> tb_release i p y y' -> locked y'.
Proof.
  intros Hy Hl Hrel j q Hin. pose proof Hrel as (_ & HI & _). assert (Hin' : (j, q) ∈ y_intents y) by (rewrite HI; by right).
  destruct (Hl j q Hin') as (w & Hw & Hwl & Hwd).
  destruct (release_slots i p y y' Hy Hrel) as [Hs|[[g Hs] Hno]]; rewrite Hs; [by exists w|].
  assert (Hip : (i, p) ∈ y_intents y) by (rewrite HI; by left). destruct (Hl i p Hip) as (w' & Hw' & _ & Hd').
  exists w. split; [|done]. rewrite list_lookup_insert_ne; [done|]. intros <-. rewrite Hw in Hw'. injection Hw' as ->.
  apply (Hno i). congruence.
Qed.

Lemma other_slots (y y' : vt_sys) : sys_inv y -> tb_other y y' ->
  vt_slots (y_vt y') = vt_slots (y_vt y) \/
  exists g j v, vt_slots (y_vt y) !! j = Some v /\ vtIsLock v = false /\ vt_slots (y_vt y') = <[j := vtEncodeSettled g]> (vt_slots (y_vt y)).
Proof.
  intros Hy (_ & _ & [Hs|(g & j & Hj & Hrun)]); [by left|].
  destruct (lookup_lt_is_Some_2 _ _ Hj) as [v Hv]. unfold settle_slot, load_slot, store_slot in Hrun. mrun in Hrun.
  rewrite Hv in Hrun. destruct (vtIsLock v) eqn:Hl; mrun in Hrun.
  - injection Hrun as <-. by left.
  - right. exists g, j, v. split_and!; [done|done|]. by injection Hrun as <-.
Qed.

Lemma other_locked (y y' : vt_sys) : sys_inv y -> locked y -> tb_other y y' -> locked y'.
Proof.
  intros Hy Hl Hoth j q Hin. pose proof Hoth as (_ & HI & _). rewrite HI in Hin. destruct (Hl j q Hin) as (w & Hw & Hwl & Hwd).
  destruct (other_slots y y' Hy Hoth) as [Hs|(g & i & v & Hv & Hnl & Hs)]; rewrite Hs; [by exists w|].
  exists w. split; [|done]. rewrite list_lookup_insert_ne; [done|]. intros <-. congruence.
Qed.

Lemma publish_slots i o v b (y y' : vt_sys) : tb_publish i o v b y y' -> y' = y \/
  vt_slots (y_vt y) !! i = Some o /\ vtIsLock o = false /\ vtIsVersion v = true /\ vt_slots (y_vt y') = <[i := v]> (vt_slots (y_vt y)).
Proof.
  destruct y as [s I R W Sw], y' as [s' I' R' W' Sw']. intros (Hv & Hi & Hrun & [= -> -> -> ->]). ysimpl.
  destruct (lookup_lt_is_Some_2 _ _ Hi) as [v0 Hv0]. unfold populateVersionIfUnchanged in Hrun.
  destruct (vtIsVersion v) eqn:Hver; cbn [negb] in Hrun; [|injection Hrun as _ <-; by left].
  destruct (vtIsLock o) eqn:Hl; [injection Hrun as _ <-; by left|].
  destruct (o =? v); [injection Hrun as _ <-; by left|]. rewrite (cas_run s i v0) in Hrun by done.
  destruct (Z.eqb_spec v0 o) as [E|]; [|injection Hrun as _ <-; by left]. right. injection Hrun as _ <-. rewrite <- E at 1. by split_and!.
Qed.

Lemma settled_no_version g : vtIsVersion (vtEncodeSettled g) = false.
Proof. pose proof (settled_is_settled g) as Hs. unfold vtIsSettled, vtIsVersion in *. destruct (Z.land _ VT_TAG_BIT =? 0); [done|]. apply andb_false_r. Qed.

Lemma not_version_lock x : is_u64 x -> vtIsVersion x = false -> vtIsLock x = false -> x = 0 \/ vtIsSettled x = true.
Proof. intros Hu. rewrite vtIsVersion_spec, vtIsLock_spec, vtIsSettled_spec by done. unfold is_u64 in Hu. lia. Qed.

Lemma insert_version (l : list Z) i w j v :
  vtIsVersion w = false -> <[i := w]> l !! j = Some v -> vtIsVersion v = true -> l !! j = Some v.
Proof.
  intros Hw Hj Hv. destruct (decide (i = j)) as [<-|Hne]; [|by rewrite list_lookup_insert_ne in Hj].
  pose proof (lookup_lt_Some _ _ _ Hj) as Hlt. rewrite length_insert in Hlt. rewrite list_lookup_insert_eq in Hj by done.
  injection Hj as ->. congruence.
Qed.

Lemma table_move_versions (y y' : vt_sys) i v :
  sys_inv y -> tb_move y y' -> vt_slots (y_vt y') !! i = Some v -> vtIsVersion v = true -> vt_slots (y_vt y) !! i = Some v.
Proof.
  intros Hy [(j & p & Hm)|[(j & p & Hm)|Hm]] Hi Hv.
  - destruct (lock_slots j p y y' Hy Hm) as [(w & _ & _ & _ & Hs)|(w & w' & _ & _ & Hlk & _ & Hs)]; rewrite Hs in Hi; [done|].
    eapply insert_version; [|done|done]. unfold vtIsLock in Hlk. unfold vtIsVersion. destruct (Z.land w' VT_TAG_BIT =? 0); [done|]. apply andb_false_r.
  - destruct (release_slots j p y y' Hy Hm) as [Hs|[[g Hs] _]]; rewrite Hs in Hi; [done|].
    eapply insert_version; [apply settled_no_version|done..].
  - destruct (other_slots y y' Hy Hm) as [Hs|(g & k & w & _ & _ & Hs)]; rewrite Hs in Hi; [done|].
    eapply insert_version; [apply settled_no_version|done..].
Qed.

Lemma table_leaves (y y' : vt_sys) i x : sys_inv y -> vt_step y y' -> vt_slots (y_vt y) !! i = Some x ->
  vtIsVersion x = false -> vtIsLock x = false -> vt_slots (y_vt y') !! i <> Some x -> gone i x y'.
Proof.
  intros Hy Hst Hi Hv Hl Hne. apply (leaves_gone y y'); [done|by apply step_sys_inv|done| |done].
  apply not_version_lock; [|done|done]. eapply Forall_lookup_1; [apply (yi_table _ Hy)|done].
Qed.

#[export] Instance vt_table_laws : SlotTableLaws vt_sys.
Proof.
  constructor.
  - intros y y' [Hy Hl] Hm. split; [apply (step_sys_inv y y' Hy); by apply move_is_step|].
    destruct Hm as [(i & p & Hm)|[(i & p & Hm)|Hm]]; [by eapply lock_locked|by eapply release_locked|by eapply other_locked].
  - by intros y y' i p _ (_ & HI & _).
  - by intros y y' i p _ (_ & HI & _).
  - by intros y y' _ (_ & HI & _).
  - intros y i p [_ Hl] Hin. destruct (Hl i p Hin) as (v & Hv & Hlk & _). by exists v.
  - intros y y' i v [Hy _]. by apply table_move_versions.
  - intros y y' i o v b [Hy Hl] Hp. split; [apply (step_sys_inv y y' Hy); by eapply publish_is_step|].
    destruct (publish_slots i o v b y y' Hp) as [->|(Ho & Hnl & Hv & Hs)]; [done|]. intros j q Hin.
    assert (HI : y_intents y' = y_intents y) by (destruct Hp as (_ & _ & _ & ->); done). rewrite HI in Hin.
    destruct (Hl j q Hin) as (w & Hw & Hwl & Hwd). exists w. split; [|done]. rewrite Hs, list_lookup_insert_ne; [done|].
    intros <-. congruence.
  - intros y y' i o v b _ Hp. destruct (publish_slots i o v b y y' Hp) as [->|(Ho & Hnl & Hv & Hs)]; [by left|right].
    cbn. rewrite Hs. split_and!; [done|done|done|apply list_lookup_insert_eq; by eapply lookup_lt_Some| |].
    + intros j Hj. by rewrite list_lookup_insert_ne.
    + by destruct Hp as (_ & _ & _ & ->).
  - intros y i x [Hne _]. done.
  - intros y y' i x [Hy _] Hm. eapply gone_step; [done|]. apply step_sys_inv; [done|by apply move_is_step].
  - intros y y' i x j o v b [Hy _] Hp. eapply gone_step; [done|]. apply step_sys_inv; [done|by eapply publish_is_step].
  - intros y y' i x [Hy _] Hm. apply table_leaves; [done|by apply move_is_step].
  - intros y y' i x j o v b [Hy _] Hp. apply table_leaves; [done|by eapply publish_is_step].
Qed.

(** A new table keeps them. *)
Lemma start_table_ok y : vt_start y -> tb_ok y /\ tb_intents y = [].
Proof.
  intros Hs. pose proof (start_inv y Hs) as Hy. destruct Hs as (n & seed & s & _ & ->). split; [|done].
  split; [done|]. by intros i p ?%elem_of_nil.
Qed.
