(* ===== verification/VerifiedReadClaims.v ===== *)
(** * Verified reads: the theorems, a concrete database, and where they stop

    The two theorems about the verification table in use, an instance of the interface of
    RocksDB for their witnesses, and the asynchronous reads, which publish versions the
    theorems would refuse. *)

From S2P Require Import Prelude Encoding VerificationTable VerificationTableProofs VerificationTableSystem.
From S2P Require Import VerifiedRead VerifiedReadSystem VerifiedReadPrograms VerifiedReadProofs VerifiedReadTable.
From stdpp Require Import base tactics list gmap sets strings relations.
From coqutil Require Import Byte.
From Stdlib Require Import ZArith Lia.

Local Open Scope Z_scope.

(** ** A database as a list of batches *)

Record Versions := mkVersions {
  ve_history : list (list (key * option bytes));   (* the latest first *)
  ve_snaps : list Z;
  ve_ok : Forall (fun x => x <= Z.of_nat (length ve_history)) ve_snaps
}.

(** The last write of a key in a batch. *)
Fixpoint in_batch (ws : list (key * option bytes)) (k : key) : option (option bytes) :=
  match ws with
  | [] => None
  | (k', v) :: ws => match in_batch ws k with Some w => Some w | None => if decide (k' = k) then Some v else None end
  end.

Fixpoint in_history (h : list (list (key * option bytes))) (k : key) : option bytes :=
  match h with
  | [] => None
  | ws :: h => match in_batch ws k with Some w => w | None => in_history h k end
  end.

Fixpoint last_write (h : list (list (key * option bytes))) (k : key) : Z :=
  match h with
  | [] => 0
  | ws :: h => match in_batch ws k with Some _ => Z.of_nat (S (length h)) | None => last_write h k end
  end.

(** The history as of a sequence number. *)
Definition as_of (s : Z) (h : list (list (key * option bytes))) : list (list (key * option bytes)) :=
  drop (length h - Z.to_nat s) h.

Fixpoint remove_snap (x : Z) (l : list Z) : list Z :=
  match l with [] => [] | y :: l => if x =? y then l else y :: remove_snap x l end.

Lemma remove_snap_in x y l : y ∈ remove_snap x l -> y ∈ l.
Proof.
  induction l as [|z l IH]; [done|]. cbn. destruct (x =? z); [by right|].
  intros [->|Hin]%elem_of_cons; [by left|right; auto].
Qed.

Lemma write_keeps_ok ws d : Forall (fun x => x <= Z.of_nat (length (ws :: ve_history d))) (ve_snaps d).
Proof. eapply Forall_impl; [apply (ve_ok d)|]. cbn. lia. Qed.

Lemma snapshot_keeps_ok d :
  Forall (fun x => x <= Z.of_nat (length (ve_history d))) (Z.of_nat (length (ve_history d)) :: ve_snaps d).
Proof. constructor; [lia|apply (ve_ok d)]. Qed.

Lemma release_keeps_ok s d : Forall (fun x => x <= Z.of_nat (length (ve_history d))) (remove_snap s (ve_snaps d)).
Proof. rewrite Forall_forall. intros x Hx%remove_snap_in. pose proof (ve_ok d) as H. rewrite Forall_forall in H. by apply H. Qed.

#[export] Instance versions_mvcc : Mvcc Versions := {|
  db_view d s k := in_history (match s with Some s => as_of s (ve_history d) | None => ve_history d end) k;
  db_seq d := Z.of_nat (length (ve_history d));
  db_last d k := last_write (ve_history d) k;
  db_snaps := ve_snaps;
  db_write ws d := mkVersions (ws :: ve_history d) (ve_snaps d) (write_keeps_ok ws d);
  db_snapshot d := mkVersions (ve_history d) (Z.of_nat (length (ve_history d)) :: ve_snaps d) (snapshot_keeps_ok d);
  db_release s d := mkVersions (ve_history d) (remove_snap s (ve_snaps d)) (release_keeps_ok s d)
|}.

Lemma last_write_le h k : 0 <= last_write h k <= Z.of_nat (length h).
Proof. induction h as [|ws h IH]; cbn; [lia|]. destruct (in_batch ws k); lia. Qed.

Lemma as_of_latest h k s : last_write h k <= s -> in_history (as_of s h) k = in_history h k.
Proof.
  unfold as_of. induction h as [|ws h IH]; intros Hs; [by rewrite drop_nil|]. cbn [last_write] in Hs.
  destruct (decide (Z.of_nat (S (length h)) <= s)) as [Hle|Hgt].
  - replace (length (ws :: h) - Z.to_nat s)%nat with 0%nat by (cbn; lia). done.
  - destruct (in_batch ws k) eqn:E; [cbn in Hs; lia|].
    replace (length (ws :: h) - Z.to_nat s)%nat with (S (length h - Z.to_nat s)) by (cbn; lia). cbn. rewrite E. by apply IH.
Qed.

Lemma not_in_batch ws k : k ∉ ws.*1 -> in_batch ws k = None.
Proof.
  induction ws as [|[k' v] ws IH]; [done|]. cbn. intros Hn. rewrite IH by (intros ?; apply Hn; by right).
  rewrite decide_False; [done|]. intros ->. apply Hn. by left.
Qed.

#[export] Instance versions_laws : MvccLaws Versions.
Proof.
  constructor; cbn [db_view db_seq db_last db_snaps db_write db_snapshot db_release versions_mvcc ve_history ve_snaps].
  - intros d k. apply last_write_le.
  - intros d k s. apply as_of_latest.
  - intros ws d. cbn. lia.
  - intros ws d k Hn. cbn. by rewrite (not_in_batch ws k Hn).
  - intros ws d k s Hs. unfold as_of.
    replace (length (ws :: ve_history d) - Z.to_nat s)%nat with (S (length (ve_history d) - Z.to_nat s)) by (cbn; lia). done.
  - done.
  - intros d s Hin. pose proof (ve_ok d) as H. rewrite Forall_forall in H. by apply H.
  - done.
  - done.
  - intros s d x. apply remove_snap_in.
  - done.
Qed.

(** ** Theorems *)

(** The version is that of the latest value of the key, and of the value every open
    snapshot sees. *)
Definition only_version {D} `{Mvcc D} (d : D) (k0 : key) (v : Z) : Prop :=
  version_of (db_view d None k0) = v /\ forall x, x ∈ db_snaps d -> version_of (db_view d (Some x) k0) = v.

(** C14: a version in the table is the single accessible version of its key.  Over every
    interleaving of gated reads, writes in and outside of transactions, snapshots and
    sweeps, whenever the slot of a key that shares it with no other holds a version, the
    latest value of the key carries that version and so does the value that every open
    snapshot sees - provided that writers do not give the key a version it has had
    before. *)
Theorem published_is_latest {T D} `{SlotTableLaws T} `{MvccLaws D} (k0 : key) (i0 : nat) (y : sys (T := T) (D := D)) v :
  sys_reachable k0 i0 y -> tb_slot (sh_t (sy_s y)) i0 = Some v -> vtIsVersion v = true -> only_version (sh_d (sy_s y)) k0 v.
Proof.
  intros Hr%sys_reachable_ok Hs Hv. pose proof (so_shared _ _ _ Hr) as I.
  destruct (si_published _ _ _ I v Hs Hv) as [Hh Hx]. destruct (si_latest _ _ _ I) as [vs Hvs].
  rewrite Hvs in Hh. injection Hh as Hh. split; [done|]. intros x Hin. by rewrite view_latest by (by apply Hx).
Qed.

(** What a finished read of the key was to see: the write of its own transaction, the
    value of its snapshot, or the latest value at some time since it started. *)
Definition saw_version {T D} `{SlotTable T} `{Mvcc D} (k0 : key) (s : shared (T := T) (D := D)) (th : thread) (v : Z) : Prop :=
  match th_own th, th_snap th with
  | Some w, _ => version_of w = v
  | None, Some x => version_of (db_view (sh_d s) (Some x) k0) = v
  | None, None => during s th v
  end.

(** C15: the answer FRESH of a synchronous read is right.  Among synchronous gated reads
    and writers that use the table, when [Database::GetSync] or [Transaction::GetSync]
    answers that the expected version is fresh, from the table alone or after a read, the
    value the read was to see carries that version.  This is for a version that
    [vtIsVersion] accepts ([settled_mark_is_fresh] shows another), a key that shares its
    slot with no other ([collision_verifies_stale]), versions that a key does not have
    twice, and a system without asynchronous reads ([async_read_publishes_stale]),
    [PopulateVersion], writers without the table, [cancelForDB], [clear] and [drop]. *)
Theorem fresh_is_current {T D} `{SlotTableLaws T} `{MvccLaws D} (k0 : key) (i0 : nat) (y : sys (T := T) (D := D)) th v :
  sys_reachable k0 i0 y -> th ∈ sy_threads y -> th_prog th = Ret (Int32 FRESH_VERSION_FLAG) ->
  th_expected th = Some v -> vtIsVersion v = true -> saw_version k0 (sy_s y) th v.
Proof.
  intros Hr%sys_reachable_ok Hin Hp He Hv. pose proof (so_threads _ _ _ Hr) as Ht. rewrite Forall_forall in Ht.
  destruct (Ht th Hin) as [K G]. rewrite Hp in G. unfold saw_version.
  destruct (G eq_refl v He) as [Ho|Hread].
  - destruct (kw_obs _ _ _ _ K v Ho) as (_ & Hver & _). destruct (Hver Hv) as (-> & _ & Hm). done.
  - destruct (th_txn th) eqn:Et.
    + destruct Hread as (b & Hob & Hrd & <-). pose proof (kw_read _ _ _ _ K b Hrd Hob) as Hm.
      destruct (th_own th) as [w|]; [by subst w|]. destruct (th_snap th); [by rewrite Hm|by apply Hm].
    + destruct (th_own th) eqn:Eo; [rewrite (kw_own _ _ _ _ K ltac:(congruence)) in Et; done|].
      destruct (th_snap th) as [x|] eqn:Es; [destruct (kw_snap _ _ _ _ K x Es); congruence|].
      by apply (kw_got _ _ _ _ K).
Qed.

(** ** A run

    The database holds one record.  A reader with the right version finds the slot empty,
    reads the record and publishes its version; a transaction then finds it in the
    slot. *)

Lemma run_ask {T D} `{SlotTable T} `{Mvcc D} (k0 : key) (i0 : nat) (s s' : shared (T := T) (D := D)) E th ths q k r snap base :
  sys_reachable k0 i0 (mkRSys s E (th :: ths)) -> th_prog th = Ask q k -> serve k0 i0 q r th s s' snap base ->
  sys_reachable k0 i0 (mkRSys s' E (th_next th (k r) (learn k0 i0 q r (th_kn th)) snap base :: ths)).
Proof. intros Hr Hp Hs. eapply sr_step; [exact Hr|]. by apply (s_ask k0 i0 s s' E [] th ths). Qed.

Definition demo_key : key := (0, [Byte.x6b]).
Definition demo_version : Z := 0x42776B4D3B8D4000.
Definition demo_value : bytes := [Byte.x42; Byte.x77; Byte.x6b; Byte.x4d; Byte.x3b; Byte.x8d; Byte.x40; Byte.x00; Byte.x21].
Definition demo_db : Versions := mkVersions [[(demo_key, Some demo_value)]] [] (Forall_nil_2 _).
Definition demo_vt (slot : Z) : vt_sys := mkSys (mkVT [slot] 0 7 ∅ 0 1 []) [] [] [] [].
Definition demo_shared (slot : Z) : shared := mkShared (demo_vt slot) demo_db [demo_version].

Definition demo_read (txn : txn_arg) : prog get_result :=
  Database_GetSync 0 None (Some 0%nat) [Byte.x6b] 0 txn (Some demo_version).

Lemma demo_vt_start : vt_start (demo_vt 0).
Proof. exists 1, 7, (mkVT [0] 0 7 ∅ 0 1 []). split; [vm_compute; reflexivity|done]. Qed.

Lemma demo_begin : sys_reachable demo_key 0 (mkRSys (demo_shared 0) [] []).
Proof.
  apply sr_start. exists (demo_vt 0), demo_db. destruct (start_table_ok _ demo_vt_start) as [Hok Hi].
  split_and!; [reflexivity|done|done|]. intros v [= <-]. reflexivity.
Qed.

(** After the first read. *)
Lemma demo_published : exists g, sys_reachable demo_key 0 (mkRSys (demo_shared demo_version) []
  [mkThread (Ret (Int32 FRESH_VERSION_FLAG)) false (Some demo_version) false None None g [demo_version] [demo_version]]).
Proof.
  pose proof demo_begin as R.
  eapply sr_step in R; [|apply (s_start demo_key 0 _ _ _ (demo_read NoTxn) false (Some demo_version) false None None);
    [apply (p_get demo_key 0 0 None (Some 0%nat) [Byte.x6b] 0 NoTxn (Some demo_version)); by intros i [= <-]|done|done]].
  eapply (run_ask _ _ _ _ _ _ _ (QLoad 0) _ 0) in R; [|reflexivity|by split_and!].
  eapply (run_ask _ _ _ _ _ _ _ (QGet false demo_key) _ (ROk, demo_value)) in R; [|reflexivity|by split_and!].
  eapply (run_ask _ _ _ _ _ _ _ (QIntProperty "rocksdb.oldest-snapshot-time") _ (Some 0)) in R; [|reflexivity|by split_and!].
  eapply (run_ask _ _ _ (demo_shared demo_version) _ _ _ (QPublish 0 0 demo_version) _ true) in R; [|reflexivity|].
  2:{ split_and!; [reflexivity|reflexivity|]. exists (demo_vt demo_version). split; [|reflexivity].
      split_and!; [unfold is_u64, demo_version; lia|cbn; lia|vm_compute; reflexivity|reflexivity]. }
  eexists. exact R.
Qed.

Lemma published_is_latest_witness : only_version demo_db demo_key demo_version.
Proof.
  destruct demo_published as [g R].
  apply (published_is_latest demo_key 0 _ demo_version R); reflexivity.
Defined.

(** The transaction's snapshot is the one it took first. *)
Lemma fresh_is_current_witness :
  exists (y : sys) th, th ∈ sy_threads y /\ th_prog th = Ret (Int32 FRESH_VERSION_FLAG) /\ th_snap th = Some 1 /\
    saw_version demo_key (sy_s y) th demo_version.
Proof.
  destruct demo_published as [g R].
  eapply sr_step in R; [|apply (s_start demo_key 0 _ _ _ (demo_read Txn) true (Some demo_version) false None None);
    [apply (p_get demo_key 0 0 None (Some 0%nat) [Byte.x6b] 0 Txn (Some demo_version)); by intros i [= <-]|done|done]].
  eapply (run_ask _ _ _ _ _ _ _ QEnsure _ tt) in R; [|reflexivity|split; [reflexivity|split; reflexivity]].
  eapply (run_ask _ _ _ _ _ _ _ (QLoad 0) _ demo_version) in R; [|reflexivity|by split_and!].
  match type of R with sys_reachable _ _ (mkRSys ?s ?E (?th :: ?ths)) => exists (mkRSys s E (th :: ths)), th end.
  split; [apply list_elem_of_here|]. split; [reflexivity|]. split; [reflexivity|].
  apply (fresh_is_current demo_key 0 _ _ demo_version R); [apply list_elem_of_here|reflexivity..].
Defined.

(** ** Asynchronous reads *)

(** The promise of an asynchronous read, as the result of a thread. *)
Definition settled (r : async_result) : get_result :=
  match r with Resolves r => r | Rejects m | Refused m => Throws m end.

(** The system with asynchronous reads of a transaction besides. *)
Inductive async_reachable {T D} `{SlotTable T} `{Mvcc D} (k0 : key) (i0 : nat) : sys (T := T) (D := D) -> Prop :=
| ar_sync y : sys_reachable k0 i0 y -> async_reachable k0 i0 y
| ar_start s E ths snap arg : (forall x, snap = Some x -> x ∈ db_snaps (sh_d s)) ->
    async_reachable k0 i0 (mkRSys s E ths) ->
    async_reachable k0 i0 (mkRSys s E (mkThread (r ← Transaction_Get k0.1 (Some i0) k0.2 arg; mret (settled r)) true
      (parseExpectedVersion arg) false snap None know_nothing (sh_vers s) (sh_vers s) :: ths))
| ar_step y y' : async_reachable k0 i0 y -> sys_step k0 i0 y y' -> async_reachable k0 i0 y'.

Lemma async_ask {T D} `{SlotTable T} `{Mvcc D} (k0 : key) (i0 : nat) (s s' : shared (T := T) (D := D)) E th ths q k r snap base :
  async_reachable k0 i0 (mkRSys s E (th :: ths)) -> th_prog th = Ask q k -> serve k0 i0 q r th s s' snap base ->
  async_reachable k0 i0 (mkRSys s' E (th_next th (k r) (learn k0 i0 q r (th_kn th)) snap base :: ths)).
Proof. intros Hr Hp Hs. eapply ar_step; [exact Hr|]. by apply (s_ask k0 i0 s s' E [] th ths). Qed.

Definition newer_version : Z := 0x42776B4D3B8D5000.
Definition newer_value : bytes := [Byte.x42; Byte.x77; Byte.x6b; Byte.x4d; Byte.x3b; Byte.x8d; Byte.x50; Byte.x00; Byte.x22].
Definition snap_db : Versions := db_snapshot demo_db.
Definition newer_db : Versions := db_write [(demo_key, Some newer_value)] snap_db.

Definition vt_locked : vt_sys := mkSys (snd (lockSlotForWrite 4096 (Some 0%nat) 1 (y_vt (demo_vt 0)))) [(0%nat, 4096)] [] [] [].
Definition vt_settled : vt_sys := mkSys (snd (releaseWriteIntent 0 (Some 4096) (y_vt vt_locked))) [] [] [] [].
Definition vt_stale : vt_sys :=
  mkSys (snd (populateVersionIfUnchanged (Some 0%nat) (vtEncodeSettled 1) demo_version (y_vt vt_settled))) [] [] [] [].

Lemma demo_locks : tb_lock 0 4096 (demo_vt 0) vt_locked.
Proof.
  split; [apply (step_lock _ [] [] [] [] 0 1 4096 4096); try (vm_compute; reflexivity);
    [unfold is_ptr; lia|vm_compute; split; reflexivity]|].
  split_and!; [reflexivity|by repeat split|cbn; lia|vm_compute; split; reflexivity|].
  exists 1, 4096. split_and!; [unfold is_ptr; lia|reflexivity|vm_compute; reflexivity].
Qed.

Lemma demo_releases : tb_release 0 4096 vt_locked vt_settled.
Proof.
  split; [apply (step_release _ _ [] [] [] [] 0 4096); try (vm_compute; reflexivity);
    vm_compute; split; reflexivity|].
  split_and!; [done|by repeat split|vm_compute; split; reflexivity|vm_compute; reflexivity].
Qed.

(** A put of the newer record, while a snapshot of the older one is open. *)
Lemma demo_overwritten : exists ths, sys_reachable demo_key 0
  (mkRSys (mkShared vt_settled newer_db [newer_version; demo_version]) [] ths).
Proof.
  pose proof demo_begin as R. eapply sr_step in R; [|apply s_snapshot].
  eapply sr_step in R; [|apply (s_start demo_key 0 _ _ _ (Database_PutSync 0 (Some 0%nat) [Byte.x6b] newer_value) false None false None None);
    [apply (p_put demo_key 0); [by intros i [= <-]|done]|done|done]].
  eapply (run_ask _ _ _ (mkShared vt_locked snap_db [demo_version]) _ _ _ (QLock 0) _ 4096) in R; [|reflexivity|].
  2:{ split_and!; [reflexivity|reflexivity|]. exists vt_locked. split; [apply demo_locks|reflexivity]. }
  eapply (run_ask _ _ _ (mkShared vt_locked newer_db [newer_version; demo_version]) _ _ _
    (QWrite [(demo_key, Some newer_value)]) _ ROk) in R; [|reflexivity|].
  2:{ split_and!; [reflexivity|reflexivity|]. split; [reflexivity|]. split; [reflexivity|].
      rewrite decide_True by (by left). split; [|reflexivity]. intros _ [E|E%elem_of_nil]%elem_of_cons; [discriminate E|done]. }
  eapply (run_ask _ _ _ (mkShared vt_settled newer_db [newer_version; demo_version]) _ _ _ (QRelease 0 4096) _ tt) in R; [|reflexivity|].
  2:{ split_and!; [reflexivity|reflexivity|]. exists vt_settled. split; [apply demo_releases|reflexivity]. }
  eexists. exact R.
Qed.

(** An asynchronous read in a transaction publishes the version its snapshot sees although
    a newer one is committed: the table then vouches for an overwritten record. *)
Theorem async_read_publishes_stale :
  exists y : sys, async_reachable demo_key 0 y /\ tb_slot (sh_t (sy_s y)) 0 = Some demo_version /\
    version_of (db_view (sh_d (sy_s y)) None demo_key) = newer_version /\
    fst (verifyVersion (Some 0%nat) demo_version (y_vt (sh_t (sy_s y)))) = inr true.
Proof.
  destruct demo_overwritten as [ths R%ar_sync].
  apply (ar_start demo_key 0 _ _ _ (Some 1) (Some demo_version)) in R; [|intros x [= <-]; by left].
  eapply (async_ask _ _ _ _ _ _ _ (QLoad 0) _ (vtEncodeSettled 1)) in R; [|reflexivity|split_and!; [done|done|vm_compute; reflexivity|]].
  2:{ rewrite decide_True by done. by split. }
  eapply (async_ask _ _ _ _ _ _ _ QPending _ None) in R; [|reflexivity|by split_and!].
  eapply (async_ask _ _ _ _ _ _ _ QEnsure _ tt) in R; [|reflexivity|by split_and!].
  eapply (async_ask _ _ _ _ _ _ _ (QTxnGet true demo_key) _ (RIncomplete, [])) in R; [|reflexivity|by split_and!].
  eapply (async_ask _ _ _ _ _ _ _ QOpened _ true) in R; [|reflexivity|by split_and!].
  eapply (async_ask _ _ _ _ _ _ _ (QTxnGet false demo_key) _ (ROk, demo_value)) in R; [|reflexivity|by split_and!].
  eapply (async_ask _ _ _ (mkShared vt_stale newer_db [newer_version; demo_version]) _ _ _
    (QPublish 0 (vtEncodeSettled 1) demo_version) _ true) in R; [|reflexivity|].
  2:{ split_and!; [reflexivity|reflexivity|]. exists vt_stale. split; [|reflexivity].
      split_and!; [unfold is_u64, demo_version; lia|vm_compute; lia|vm_compute; reflexivity|reflexivity]. }
  eexists. split; [exact R|]. cbn [sy_s sh_t sh_d]. clear. split_and!; vm_compute; reflexivity.
Qed.

(** ** Single calls *)

(** A call by itself: its requests and its result, for given answers. *)
Fixpoint run_with (answer : forall q, resp q) {A} (p : prog A) : list req * A :=
  match p with
  | Ret a => ([], a)
  | Ask q k => let '(qs, a) := run_with answer (k (answer q)) in (q :: qs, a)
  end.

(** Answers: the slot holds [slot], the block cache misses, a full read finds [value]. *)
Definition cache_misses (slot : Z) (value : bytes) (q : req) : resp q :=
  match q return resp q with
  | QPending => None
  | QEnsure => tt
  | QReadSnapshot => None
  | QTxnGet cacheOnly _ | QGet cacheOnly _ => if cacheOnly then (RIncomplete, []) else (ROk, value)
  | QOpened => true
  | QLatestSeq => 1
  | QIntProperty _ => None
  | QWrite _ | QBatchPut _ _ => ROk
  | QLoad _ => slot
  | QPublish _ _ _ | QPopulate _ _ => false
  | QLock _ => 0
  | QRelease _ _ => tt
  end.

(** A negative number passes for a version and is fresh when the slot holds the settled
    mark with its bits, which says nothing about any version. *)
Lemma settled_mark_is_fresh g k flags :
  (run_with (cache_misses (vtEncodeSettled g) []) (Database_GetSync 0 None (Some 0%nat) k flags NoTxn (Some (vtEncodeSettled g)))).2
  = Int32 FRESH_VERSION_FLAG.
Proof.
  destruct (settled_u64 g) as (_ & Hl & Hz). unfold Database_GetSync, parseExpectedVersion.
  rewrite Hl. destruct (Z.eqb_spec (vtEncodeSettled g) 0); [done|]. cbn. by rewrite bool_decide_true.
Qed.

(** The asynchronous read of a transaction for a database of another column family reads
    the column family of the transaction, and would publish that record's version. *)
Lemma async_read_wrong_column own other i v k value :
  parseExpectedVersion (Some v) = Some v ->
  exists qs, (run_with (cache_misses 0 value) (Database_Get other own (Some i) k Txn (Some v))).1 =
    [QLoad i; QPending; QEnsure; QTxnGet true (other, k); QOpened; QTxnGet false (own, k)] ++ qs.
Proof.
  intros Hv. unfold Database_Get. rewrite Hv. cbn.
  repeat match goal with |- context [if ?b then _ else _] => destruct b end; eexists; reflexivity.
Qed.

(** The same miss of the block cache is a flag from the database and an exception from
    the transaction. *)
Lemma cache_miss_results slot k v :
  (run_with (cache_misses slot v) (Database_GetSync 0 None None k ONLY_IF_IN_MEMORY_CACHE_FLAG NoTxn None)).2 = Int32 NOT_IN_MEMORY_CACHE_FLAG /\
  (run_with (cache_misses slot v) (Transaction_GetSync 0 None None k ONLY_IF_IN_MEMORY_CACHE_FLAG None)).2 = Throws "Incomplete".
Proof. by split. Qed.
