(* ===== verification/BackupDir.v ===== *)
(** * Writers of a backup directory

    [database/backup.cpp] (creating, deleting, purging, restoring, listing and
    verifying backups) over [core/file_lock.cpp] (the advisory lock on the
    directory), with [withBackupDirLock] of [src/backup.ts], the other user of the
    lock.

    A call is a program: a tree of requests to the operating system, to the table
    of lock tokens and to RocksDB's backup engine, each answered by the system
    ([BackupDirSystem]).  Several processes, each with several threads, run such
    programs on the same directories.  The copy of the transaction logs is the pair
    [QSnapshotStart], [QSnapshotEnd] here; [BackupLogs] models what it does in
    between.  A path stands for the file it names: two spellings of one directory
    are not considered. *)

From S2P Require Import Prelude.
From stdpp Require Import base tactics list gmap strings.
From Stdlib Require Import ZArith Lia Eqdep_dec.

Local Open Scope Z_scope.

(** ** Requests *)

Inductive errno := ENOENT | EWOULDBLOCK | EOPNOTSUPP | EINTR | EOTHER (message : string).

Inductive bstatus :=
| BOk
| BAborted (message : string)
| BIOError (message : string)
| BBusy (message : string)
| BEngine (message : string).      (* a failure of the backup engine or of the log snapshot *)

Definition ok_status (s : bstatus) : bool := match s with BOk => true | _ => false end.

Record BackupInfo := mkInfo {
  bi_id : Z;
  bi_timestamp : Z;
  bi_size : Z;
  bi_number_files : Z;
  bi_app_metadata : string
}.

Inductive restore_mode := kKeepLatestDbSessionIdFiles | kVerifyChecksum | kPurgeAllFiles.

Inductive breq :=
| QCancelled                                     (* no descriptor, no handle, or a close was asked for *)
| QMkdirs (dir : string)                         (* create_directories *)
| QOpen (file : string)                          (* ::open(O_RDWR | O_CREAT | O_CLOEXEC) *)
| QFlock (fd : Z)                                (* ::flock(LOCK_EX | LOCK_NB) *)
| QClose (fd : Z)                                (* ::close *)
| QRegister (fd : Z)                             (* the critical section of registerHandle *)
| QTake (token : Z)                              (* the critical section of releaseFileLock *)
| QStall                                         (* no answer ever comes *)
| QSweep (dir : string)                          (* removeStaleTransactionLogStaging *)
| QEngineOpen (dir : string) (writable : bool)   (* BackupEngine::Open, BackupEngineReadOnly::Open *)
| QEngineClose                                   (* delete engine *)
| QCreate (dir : string)                         (* CreateNewBackupWithMetadata *)
| QSnapshotStart (dir : string) (id : Z)
| QSnapshotEnd (dir : string) (id : Z) (sync : bool)
| QDelete (dir : string) (id : Z)                (* DeleteBackup *)
| QPurge (dir : string) (keep : Z)               (* PurgeOldBackups *)
| QRemoveLogs (dir : string) (id : Z)            (* rm transaction_logs/<id> *)
| QPrune (dir : string)                          (* pruneOrphanedTransactionLogs *)
| QRestore (dir : string) (id : option Z) (mode : restore_mode) (keepLogFiles : bool) (dbDir walDir : string)
| QInfo (dir : string)                           (* GetBackupInfo *)
| QVerify (dir : string) (id : Z) (checksum : bool).

#[export] Instance restore_mode_eq_dec : EqDecision restore_mode.
Proof. solve_decision. Defined.
#[export] Instance breq_eq_dec : EqDecision breq.
Proof. solve_decision. Defined.

Definition bresp (q : breq) : Type :=
  match q with
  | QCancelled => bool
  | QMkdirs _ => option string
  | QOpen _ => (errno + Z)%type
  | QFlock _ => option errno
  | QRegister _ => Z
  | QTake _ => option Z
  | QStall => Empty_set
  | QCreate _ => (bstatus * Z)%type
  | QEngineOpen _ _ | QSnapshotEnd _ _ _ | QDelete _ _ | QPurge _ _ | QVerify _ _ _ => bstatus
  | QRestore _ _ _ _ _ _ => bstatus
  | QInfo _ => list BackupInfo
  | _ => unit
  end.

Inductive bprog (A : Type) : Type :=
| Done (a : A)
| Call (q : breq) (k : bresp q -> bprog A).
Arguments Done {A} a.
Arguments Call {A} q k.

#[export] Instance bprog_ret : MRet bprog := fun A => Done.
#[export] Instance bprog_bind : MBind bprog := fun A B f =>
  fix bind (p : bprog A) : bprog B := match p with Done a => f a | Call q k => Call q (fun r => bind (k r)) end.

Definition request (q : breq) : bprog (bresp q) := Call q Done.

(** ** The file lock *)

(** The table of tokens of a process; a token is a [uint32_t]. *)
Record proc := mkProc {
  g_locks : gmap Z Z;
  g_nextToken : Z;
  p_count : Z          (* how many tokens were given out *)
}.

Definition registerHandle (handle : Z) (p : proc) : Z * proc :=
  let token := g_nextToken p in
  let next := (token + 1) mod 2 ^ 32 in
  (token, mkProc (<[token := handle]> (g_locks p)) (if next =? 0 then 1 else next) (p_count p + 1)).

Definition takeHandle (token : Z) (p : proc) : option Z * proc :=
  match g_locks p !! token with
  | None => (None, p)
  | Some handle => (Some handle, mkProc (delete token (g_locks p)) (g_nextToken p) (p_count p))
  end.

(** The loop on [flock]; [interrupts] bounds how often a signal interrupts it, a
    call interrupted more often than that never comes back. *)
Fixpoint flock_loop (interrupts : nat) (fd : Z) : bprog (exn + Z) :=
  match interrupts with
  | O => Call QStall (fun r => match r with end)
  | S n =>
      r ← request (QFlock fd);
      match r with
      | None | Some EOPNOTSUPP => token ← request (QRegister fd); mret (inr token)
      | Some EWOULDBLOCK => request (QClose fd);; mret (inr 0)
      | Some EINTR => flock_loop n fd
      | Some _ => request (QClose fd);; mret (inl (DBException "tryAcquireFileLock: flock failed"))
      end
  end.

Definition tryAcquireFileLock (interrupts : nat) (file : string) : bprog (exn + Z) :=
  r ← request (QOpen file);
  match r with
  | inl ENOENT => mret (inl (DBException ("File does not exist: " +:+ file)))
  | inl _ => mret (inl (DBException "tryAcquireFileLock: open failed"))
  | inr fd => flock_loop interrupts fd
  end.

Definition releaseFileLock (token : Z) : bprog unit :=
  if token =? 0 then mret tt
  else
    r ← request (QTake token);
    match r with
    | None => mret tt
    | Some handle => request (QClose handle)
    end.

(** ** Creating a backup *)

Definition BACKUP_LOCK_FILENAME : string := ".backup.lock".
Definition lock_file (dir : string) : string := dir +:+ "/" +:+ BACKUP_LOCK_FILENAME.

(** The fields of [AsyncBackupState] that [runCreateBackup] reads. *)
Record AsyncBackupState := mkBackupState {
  as_backup_dir : string;
  as_backupTransactionLogs : bool;
  as_sync : bool
}.

Definition exn_message (e : exn) : string :=
  match e with DBException m | FilesystemError m | OutOfRange m => m | _ => "" end.

(** The part with the engine open; the status and the backup's id. *)
Definition create_with_engine (st : AsyncBackupState) : bprog (bstatus * Z) :=
  let dir := as_backup_dir st in
  opened ← request (QEngineOpen dir true);
  if ok_status opened then
    '(created, id) ← request (QCreate dir);
    if ok_status created && as_backupTransactionLogs st then
      request (QSnapshotStart dir id);;
      snapshot ← request (QSnapshotEnd dir id (as_sync st));
      (if ok_status snapshot then mret tt else _ ← request (QDelete dir id); mret tt);;
      mret (snapshot, id)
    else mret (created, id)
  else mret (opened, 0).

Definition runCreateBackup (interrupts : nat) (st : AsyncBackupState) : bprog (bstatus * Z) :=
  let dir := as_backup_dir st in
  cancelled ← request QCancelled;
  if cancelled : bool then mret (BAborted "Database closed during backup operation", 0)
  else
    made ← request (QMkdirs dir);
    match made with
    | Some e => mret (BIOError ("Failed to create backup directory: " +:+ e), 0)
    | None =>
        lock ← tryAcquireFileLock interrupts (lock_file dir);
        match lock with
        | inl e => mret (BIOError (exn_message e), 0)
        | inr lockToken =>
            if lockToken =? 0 then mret (BBusy ("Backup directory is locked: " +:+ dir), 0)
            else
              (if as_backupTransactionLogs st then request (QSweep dir) else mret tt);;
              result ← create_with_engine st;
              request QEngineClose;;
              releaseFileLock lockToken;;
              mret result
        end
    end.

(** ** The other operations *)

Definition parseRestoreMode (mode : string) : restore_mode :=
  if decide (mode = "keepLatestDbSessionIdFiles") then kKeepLatestDbSessionIdFiles
  else if decide (mode = "verifyChecksum") then kVerifyChecksum
  else kPurgeAllFiles.

(** [execute] of [BackupRestore]; [None]: the latest backup. *)
Definition BackupRestore_execute (dir dbDir walDir mode : string) (keepLogFiles : bool) (backupId : option Z) : bprog bstatus :=
  s ← request (QEngineOpen dir false);
  s' ← (if ok_status s then request (QRestore dir backupId (parseRestoreMode mode) keepLogFiles dbDir walDir) else mret s);
  request QEngineClose;;
  mret s'.

Definition BackupList_execute (dir : string) : bprog (bstatus * list BackupInfo) :=
  s ← request (QEngineOpen dir false);
  infos ← (if ok_status s then request (QInfo dir) else mret []);
  request QEngineClose;;
  mret (s, infos).

Inductive backup_op := OpDelete (id : Z) | OpPurge (keep : Z) | OpVerify (id : Z) (checksum : bool).

(** [execute] of [queueBackupOp]. *)
Definition backupOp_execute (dir : string) (op : backup_op) : bprog bstatus :=
  match op with
  | OpVerify id checksum =>
      s ← request (QEngineOpen dir false);
      s' ← (if ok_status s then request (QVerify dir id checksum) else mret s);
      request QEngineClose;; mret s'
  | OpDelete id =>
      s ← request (QEngineOpen dir true);
      s' ← (if ok_status s then request (QDelete dir id) else mret s);
      request QEngineClose;; mret s'
  | OpPurge keep =>
      s ← request (QEngineOpen dir true);
      s' ← (if ok_status s then request (QPurge dir keep) else mret s);
      request QEngineClose;; mret s'
  end.

(** [withBackupDirLock]; the release is in a [finally] block, and a rejection of the
    body is its status. *)
Definition withBackupDirLock (interrupts : nat) (dir : string) (fn : bprog bstatus) : bprog (exn + bstatus) :=
  lock ← tryAcquireFileLock interrupts (lock_file dir);
  match lock with
  | inl e => mret (inl e)
  | inr token =>
      if token =? 0 then mret (inl (DBException ("Backup directory is locked: " +:+ dir)))
      else
        s ← fn;
        releaseFileLock token;;
        mret (inr s)
  end.

(** The bodies [backups.delete] and [backups.purge] run under the lock. *)
Definition js_delete (dir : string) (id : Z) : bprog bstatus :=
  s ← backupOp_execute dir (OpDelete id);
  (if ok_status s then request (QRemoveLogs dir id) else mret tt);;
  mret s.

Definition js_purge (dir : string) (keep : Z) : bprog bstatus :=
  s ← backupOp_execute dir (OpPurge keep);
  (if ok_status s then request (QPrune dir) else mret tt);;
  mret s.

(** ** Runs of one program

    The requests made, with their answers, and the result. *)

Abbreviation bcall := {q : breq & bresp q}.

Fixpoint runs {A} (p : bprog A) (tr : list bcall) (a : A) : Prop :=
  match p with
  | Done a' => tr = [] /\ a = a'
  | Call q k => exists r tr', tr = existT q r :: tr' /\ runs (k r) tr' a
  end.

Lemma runs_bind {A B} (p : bprog A) (f : A -> bprog B) tr b :
  runs (p ≫= f) tr b -> exists tr1 tr2 a, tr = tr1 ++ tr2 /\ runs p tr1 a /\ runs (f a) tr2 b.
Proof.
  revert tr. induction p as [a|q k IH]; intros tr H; cbn in H.
  - exists [], tr, a. repeat split. exact H.
  - destruct H as (r & tr' & -> & H). destruct (IH _ _ H) as (tr1 & tr2 & a & -> & H1 & H2).
    exists (existT q r :: tr1), tr2, a. repeat split; [|exact H2]. exists r, tr1. split; [reflexivity|exact H1].
Qed.

Lemma runs_request {B} q (f : bresp q -> bprog B) tr b :
  runs (request q ≫= f) tr b -> exists r tr', tr = existT q r :: tr' /\ runs (f r) tr' b.
Proof. intros H. exact H. Qed.

Lemma call_eq q (r r' : bresp q) : existT q r = existT q r' -> r = r'.
Proof. apply inj_pair2_eq_dec. intros x y. apply breq_eq_dec. Qed.

(** Decompose the membership of a call in a trace. *)
Ltac in_trace :=
  repeat match goal with
  | H : existT _ _ ∈ [] |- _ => apply not_elem_of_nil in H; destruct H
  | H : existT _ _ ∈ _ :: _ |- _ => apply elem_of_cons in H as [H|H]
  | H : existT _ _ ∈ _ ++ _ |- _ => apply elem_of_app in H as [H|H]
  | H : existT ?q _ = existT ?q _ |- _ => apply call_eq in H; simplify_eq
  | H : existT _ _ = existT _ _ |- _ => apply (f_equal (@projT1 _ _)) in H; cbn in H; simplify_eq
  end.

(** Both parts of a result, when the trace is known. *)
Ltac settled :=
  split; [intros E; first [discriminate E|split; [|intros ?; try congruence]; set_solver]|intros ? ?; in_trace; try (split; [reflexivity|]; try (left; reflexivity))].

(** Which requests are made, with which answers. *)
Definition asked (q : breq) (r : bresp q) (tr : list bcall) : Prop := existT q r ∈ tr.

(** ** What creating a backup means *)

(** The engine's part: a success is a backup with its logs; a failure after the
    backup exists is a backup that was deleted again. *)
Lemma create_with_engine_spec st tr status id :
  runs (create_with_engine st) tr (status, id) ->
  (status = BOk -> asked (QCreate (as_backup_dir st)) (BOk, id) tr /\
     (as_backupTransactionLogs st = true -> asked (QSnapshotEnd (as_backup_dir st) id (as_sync st)) BOk tr)) /\
  (forall id', asked (QCreate (as_backup_dir st)) (BOk, id') tr ->
     id' = id /\ (status = BOk \/ exists s, asked (QDelete (as_backup_dir st) id) s tr)).
Proof.
  unfold create_with_engine, asked. intros (opened & tr0 & -> & H)%runs_request.
  destruct opened; cbn [ok_status] in H.
  2-5: (destruct H as (-> & E); simplify_eq; settled).
  apply runs_request in H as ((created & id0) & tr1 & -> & H).
  destruct (as_backupTransactionLogs st) eqn:El; destruct created; cbn [ok_status andb] in H.
  2-10: (destruct H as (-> & E); simplify_eq; settled).
  apply runs_request in H as ([] & tr2 & -> & H). apply runs_request in H as (snapshot & tr3 & -> & H).
  destruct snapshot; cbn [ok_status] in H.
  1: (destruct H as (-> & E); simplify_eq; settled).
  1-4: (destruct H as (s & tr4 & -> & -> & E); simplify_eq; settled; right; exists s; set_solver).
Qed.

(** The lock is taken before anything of the backup is touched; a call that gets no
    lock leaves the directory as it was. *)
Lemma tryAcquire_trace n file tr r : runs (tryAcquireFileLock n file) tr r ->
  forall c, c ∈ tr -> match projT1 c with QOpen _ | QFlock _ | QClose _ | QRegister _ => True | _ => False end.
Proof.
  intros (o & tr' & -> & H)%runs_request c [->|Hc]%elem_of_cons; [exact I|]. cbn in H.
  destruct o as [[]|fd]; try (destruct H as (-> & _); set_solver).
  revert tr' H Hc. induction n as [|n IH]; intros tr' H Hc; [destruct H as ([] & _)|].
  apply runs_request in H as (f & tr1 & -> & H). apply elem_of_cons in Hc as [->|Hc]; [exact I|].
  destruct f as [[]|]; try (eapply IH; eassumption);
    (apply runs_request in H as (x & tr2 & -> & -> & _)); apply list_elem_of_singleton in Hc as ->; exact I.
Qed.

(** The calls that change the backup directory. *)
Definition touches (q : breq) : bool :=
  match q with
  | QSweep _ | QCreate _ | QSnapshotStart _ _ | QSnapshotEnd _ _ _ | QDelete _ _ | QPurge _ _ | QRemoveLogs _ _ | QPrune _ => true
  | QEngineOpen _ writable => writable
  | _ => false
  end.

Definition hands_off (tr : list bcall) : Prop := forall c, c ∈ tr -> touches (projT1 c) = false.

Lemma hands_off_app tr1 tr2 : hands_off tr1 -> hands_off tr2 -> hands_off (tr1 ++ tr2).
Proof. intros H1 H2 c [Hc|Hc]%elem_of_app; auto. Qed.

Lemma hands_off_cons q r tr : touches q = false -> hands_off tr -> hands_off (existT q r :: tr).
Proof. intros H1 H2 c [->|Hc]%elem_of_cons; [exact H1|auto]. Qed.

Lemma hands_off_nil : hands_off [].
Proof. intros c Hc%not_elem_of_nil. destruct Hc. Qed.

Lemma acquire_hands_off n file tr r : runs (tryAcquireFileLock n file) tr r -> hands_off tr.
Proof. intros H c Hc. apply (tryAcquire_trace _ _ _ _ H) in Hc. destruct c as ([] & ?); destruct Hc; reflexivity. Qed.

(** A token comes from the last call. *)
Lemma acquire_token n file tr token : runs (tryAcquireFileLock n file) tr (inr token) -> token <> 0 ->
  exists pre fd, tr = pre ++ [existT (QRegister fd) token].
Proof.
  intros (o & tr' & -> & H)%runs_request Ht. cbn in H. destruct o as [[]|fd]; try (destruct H as (_ & [=])).
  enough (exists pre, tr' = pre ++ [existT (QRegister fd) token]) as (pre & ->) by (eexists (_ :: pre), fd; reflexivity).
  revert tr' H. induction n as [|n IH]; intros tr' H; [destruct H as ([] & _)|].
  apply runs_request in H as (f & tr1 & -> & H).
  destruct f as [[]|]; try (destruct H as (x & tr2 & -> & -> & E); simplify_eq; eexists [_]; reflexivity).
  destruct (IH _ H) as (pre & ->). exists (existT (QFlock fd) (Some EINTR) :: pre). reflexivity.
Qed.

Lemma release_trace token tr u : runs (releaseFileLock token) tr u -> token <> 0 ->
  exists r post, tr = existT (QTake token) r :: post /\ hands_off post.
Proof.
  unfold releaseFileLock. intros H Ht. rewrite (proj2 (Z.eqb_neq _ _) Ht) in H.
  apply runs_request in H as (r & tr' & -> & H). exists r, tr'. split; [reflexivity|].
  destruct r as [fd|].
  - destruct H as (x & tr2 & -> & -> & _). apply hands_off_cons; [reflexivity|apply hands_off_nil].
  - destruct H as (-> & _). apply hands_off_nil.
Qed.

(** Every change to the directory is made between the registration of a token and
    its release. *)
Definition within_lock (tr : list bcall) : Prop :=
  hands_off tr \/
  exists pre fd token body r post,
    tr = pre ++ existT (QRegister fd) token :: body ++ existT (QTake token) r :: post /\
    token <> 0 /\ hands_off pre /\ hands_off post.

Lemma sweep_trace (b : bool) dir tr u : runs (if b then request (QSweep dir) else mret tt) tr u ->
  forall id, ~ asked (QCreate dir) (BOk, id) tr.
Proof. destruct b; [intros (r & tr' & -> & -> & _)|intros (-> & _)]; intros id Hin; unfold asked in Hin; in_trace. Qed.

(** A run that ends before the lock is had. *)
Ltac untouched :=
  match goal with
  | |- _ /\ _ /\ within_lock ?tr =>
      let Hno := fresh "Hno" in
      assert (Hno : hands_off tr)
        by (repeat first [eassumption|apply hands_off_nil|apply hands_off_app|apply hands_off_cons; [reflexivity|]]);
      split; [intros E; discriminate E|split; [|left; exact Hno]];
      let Hin := fresh "Hin" in intros ? Hin; specialize (Hno _ Hin); discriminate Hno
  end.

(** C35: [runCreateBackup] is all or nothing.  When it reports success the backup
    was created, and if the transaction logs were asked for their snapshot was
    published; when a backup was created and the call still fails, that backup was
    deleted again; and every change to the directory is made while the lock's token
    is registered, which is released on every path. *)
Theorem create_backup_all_or_nothing n st tr status id :
  runs (runCreateBackup n st) tr (status, id) ->
  (status = BOk -> asked (QCreate (as_backup_dir st)) (BOk, id) tr /\
     (as_backupTransactionLogs st = true -> asked (QSnapshotEnd (as_backup_dir st) id (as_sync st)) BOk tr)) /\
  (forall id', asked (QCreate (as_backup_dir st)) (BOk, id') tr ->
     id' = id /\ (status = BOk \/ exists s, asked (QDelete (as_backup_dir st) id) s tr)) /\
  within_lock tr.
Proof.
  unfold runCreateBackup. intros (c & tr0 & -> & H)%runs_request.
  destruct c; [destruct H as (-> & E); simplify_eq; untouched|].
  apply runs_request in H as (m & tr1 & -> & H). destruct m as [e|]; [destruct H as (-> & E); simplify_eq; untouched|].
  apply runs_bind in H as (trL & tr2 & lock & -> & HL & H). pose proof (acquire_hands_off _ _ _ _ HL) as Hoff.
  destruct lock as [e|token]; [destruct H as (-> & E); simplify_eq; untouched|].
  destruct (Z.eqb_spec token 0) as [->|Ht]; [destruct H as (-> & E); simplify_eq; untouched|].
  destruct (acquire_token _ _ _ _ HL Ht) as (pre & fd & ->).
  apply runs_bind in H as (trS & tr3 & u & -> & HS & H).
  apply runs_bind in H as (trC & tr4 & (s & i) & -> & HC & H).
  apply runs_request in H as (u' & tr5 & -> & H). apply runs_bind in H as (trR & tr6 & u'' & -> & HR & (-> & E)). simplify_eq.
  apply create_with_engine_spec in HC as (HC1 & HC2). destruct (release_trace _ _ _ HR Ht) as (r & post & -> & Hpost).
  pose proof (sweep_trace _ _ _ _ HS) as HS'.
  split_and!.
  - intros ->. destruct (HC1 eq_refl) as (H1 & H2). split; [|intros El; specialize (H2 El)]; unfold asked in *; set_solver.
  - intros id' Hin. assert (Hin' : asked (QCreate (as_backup_dir st)) (BOk, id') trC).
    { unfold asked in *. in_trace; try exact Hin.
      - assert (Hn : touches (QCreate (as_backup_dir st)) = false) by (apply (Hoff (existT (QCreate _) (BOk, id'))); set_solver). discriminate Hn.
      - destruct (HS' _ Hin).
      - specialize (Hpost _ Hin). discriminate Hpost. }
    destruct (HC2 id' Hin') as (-> & [->|(sd & Hs)]); (split; [reflexivity|]); [left; reflexivity|right; exists sd; unfold asked in *; set_solver].
  - right. eexists (_ :: _ :: pre), fd, token, (trS ++ trC ++ [_]), r, post. split_and!; [|exact Ht| |exact Hpost].
    + cbn. rewrite <- !app_assoc. cbn. rewrite app_nil_r. reflexivity.
    + repeat apply hands_off_cons; try reflexivity. intros c Hc. apply Hoff. set_solver.
Qed.

Definition demo_trace : list bcall :=
  [existT QCancelled false; existT (QMkdirs "b") None; existT (QOpen (lock_file "b")) (inr 3);
   existT (QFlock 3) (Some EINTR); existT (QFlock 3) None; existT (QRegister 3) 1;
   existT (QSweep "b") tt; existT (QEngineOpen "b" true) BOk; existT (QCreate "b") (BOk, 7);
   existT (QSnapshotStart "b" 7) tt; existT (QSnapshotEnd "b" 7 true) (BEngine "disk full"); existT (QDelete "b" 7) BOk;
   existT QEngineClose tt; existT (QTake 1) (Some 3); existT (QClose 3) tt].

Lemma create_backup_all_or_nothing_witness :
  runs (runCreateBackup 2 (mkBackupState "b" true true)) demo_trace (BEngine "disk full", 7) /\
  within_lock demo_trace.
Proof.
  assert (H : runs (runCreateBackup 2 (mkBackupState "b" true true)) demo_trace (BEngine "disk full", 7))
    by (repeat (eexists _, _; split; [reflexivity|]); split; reflexivity).
  split; [exact H|]. apply (create_backup_all_or_nothing _ _ _ _ _ H).
Defined.
