(* ===== verification/BackupDirSystem.v ===== *)
(** * Processes that share backup directories

    The programs of [BackupDir] run by the threads of any number of processes.  The
    kernel keeps the open descriptors and the advisory locks; a process keeps its
    token table; a backup directory its listed backups, its published log snapshots
    and its staging directories.  A process can die at any moment: its descriptors
    are closed, its locks released, and what it left on disk stays. *)

From S2P Require Import Prelude BackupDir.
From stdpp Require Import base tactics list gmap strings.
From Stdlib Require Import ZArith Lia.

Local Open Scope Z_scope.

(** ** State *)

Record dirst := mkDir {
  d_backups : gset Z;       (* the backups the engine lists *)
  d_logs : gset Z;          (* transaction_logs/<id> *)
  d_staging : gset Z        (* transaction_logs/.staging-<id> *)
}.

Record shared := mkShared {
  sh_open : gmap (Z * Z) (option string);  (* descriptors by process; [None]: of other code *)
  sh_flock : gmap string (Z * Z);          (* the descriptor that has the lock of a file *)
  sh_procs : gmap Z proc;
  sh_dirs : gmap string dirst
}.

Definition proc_init : proc := mkProc ∅ 1 0.
Definition proc_of (s : shared) (pid : Z) : proc := default proc_init (sh_procs s !! pid).
Definition dir_of (s : shared) (dir : string) : dirst := default (mkDir ∅ ∅ ∅) (sh_dirs s !! dir).

Definition with_proc (pid : Z) (p : proc) (s : shared) : shared :=
  mkShared (sh_open s) (sh_flock s) (<[pid := p]> (sh_procs s)) (sh_dirs s).
Definition with_dir (dir : string) (d : dirst) (s : shared) : shared :=
  mkShared (sh_open s) (sh_flock s) (sh_procs s) (<[dir := d]> (sh_dirs s)).

(** Closing a descriptor releases its lock. *)
Definition close_fd (pf : Z * Z) (s : shared) : shared :=
  mkShared (delete pf (sh_open s)) (filter (fun e => e.2 <> pf) (sh_flock s)) (sh_procs s) (sh_dirs s).

Definition kill (pid : Z) (s : shared) : shared :=
  mkShared (filter (fun e => e.1.1 <> pid) (sh_open s)) (filter (fun e => e.2.1 <> pid) (sh_flock s))
    (delete pid (sh_procs s)) (sh_dirs s).

Section system.
(** The file systems with [flock]. *)
Context (supported : string -> bool).

(** How the system answers a request of a thread of process [pid]. *)
Definition serve (pid : Z) (q : breq) : bresp q -> shared -> shared -> Prop :=
  match q return bresp q -> shared -> shared -> Prop with
  | QOpen file => fun r s s' =>
      match r with
      | inl _ => s' = s
      | inr fd => sh_open s !! (pid, fd) = None /\
                  s' = mkShared (<[(pid, fd) := Some file]> (sh_open s)) (sh_flock s) (sh_procs s) (sh_dirs s)
      end
  | QFlock fd => fun r s s' =>
      exists file, sh_open s !! (pid, fd) = Some (Some file) /\
      match r with
      | None => supported file = true /\ (sh_flock s !! file = None \/ sh_flock s !! file = Some (pid, fd)) /\
                s' = mkShared (sh_open s) (<[file := (pid, fd)]> (sh_flock s)) (sh_procs s) (sh_dirs s)
      | Some EWOULDBLOCK => s' = s /\ supported file = true /\ exists pf, sh_flock s !! file = Some pf /\ pf <> (pid, fd)
      | Some EOPNOTSUPP => s' = s /\ supported file = false
      | Some _ => s' = s
      end
  | QClose fd => fun _ s s' => s' = close_fd (pid, fd) s
  | QRegister fd => fun r s s' =>
      (r, s') = (fst (registerHandle fd (proc_of s pid)), with_proc pid (snd (registerHandle fd (proc_of s pid))) s)
  | QTake token => fun r s s' =>
      (r, s') = (fst (takeHandle token (proc_of s pid)), with_proc pid (snd (takeHandle token (proc_of s pid))) s)
  | QStall => fun _ _ _ => False
  (* the sweep removes what it can *)
  | QSweep dir => fun _ s s' =>
      exists staging, staging ⊆ d_staging (dir_of s dir) /\
        s' = with_dir dir (mkDir (d_backups (dir_of s dir)) (d_logs (dir_of s dir)) staging) s
  | QCreate dir => fun r s s' =>
      match r with
      | (BOk, id) => id ∉ d_backups (dir_of s dir) /\
          s' = with_dir dir (mkDir ({[id]} ∪ d_backups (dir_of s dir)) (d_logs (dir_of s dir)) (d_staging (dir_of s dir))) s
      | _ => s' = s
      end
  | QSnapshotStart dir id => fun _ s s' =>
      s' = with_dir dir (mkDir (d_backups (dir_of s dir)) (d_logs (dir_of s dir)) ({[id]} ∪ d_staging (dir_of s dir))) s
  (* published from its staging directory; or failed, with what is left behind; or nothing to copy *)
  | QSnapshotEnd dir id _ => fun r s s' =>
      exists logs staging, s' = with_dir dir (mkDir (d_backups (dir_of s dir)) logs staging) s /\
      d_staging (dir_of s dir) ∖ {[id]} ⊆ staging /\ staging ⊆ d_staging (dir_of s dir) /\
      match r with
      | BOk => id ∉ staging /\ (logs = d_logs (dir_of s dir) \/ (id ∈ d_staging (dir_of s dir) /\ logs = {[id]} ∪ d_logs (dir_of s dir)))
      | _ => logs = d_logs (dir_of s dir) \/ (id ∈ d_staging (dir_of s dir) /\ logs = {[id]} ∪ d_logs (dir_of s dir))
      end
  | QDelete dir id => fun r s s' =>
      match r with
      | BOk => s' = with_dir dir (mkDir (d_backups (dir_of s dir) ∖ {[id]}) (d_logs (dir_of s dir)) (d_staging (dir_of s dir))) s
      | _ => s' = s
      end
  | QPurge dir _ => fun _ s s' =>
      exists backups, backups ⊆ d_backups (dir_of s dir) /\
        s' = with_dir dir (mkDir backups (d_logs (dir_of s dir)) (d_staging (dir_of s dir))) s
  | QRemoveLogs dir id => fun _ s s' =>
      s' = s \/ s' = with_dir dir (mkDir (d_backups (dir_of s dir)) (d_logs (dir_of s dir) ∖ {[id]}) (d_staging (dir_of s dir))) s
  (* orphans: snapshots of unlisted backups, and staging directories *)
  | QPrune dir => fun _ s s' =>
      exists logs staging, staging ⊆ d_staging (dir_of s dir) /\ logs ⊆ d_logs (dir_of s dir) /\
        (forall id, id ∈ d_logs (dir_of s dir) -> id ∈ d_backups (dir_of s dir) -> id ∈ logs) /\
        s' = with_dir dir (mkDir (d_backups (dir_of s dir)) logs staging) s
  | _ => fun _ s s' => s' = s
  end.

(** ** What a thread has *)

Inductive hold :=
| HNone
| HFd (file : string) (fd : Z)                               (* opened, no lock *)
| HLocked (file : string) (fd : Z)
| HToken (file : string) (token fd : Z) (stage : option Z)   (* and the snapshot under way *)
| HTaken (file : string) (fd : Z).                           (* the token is gone, the lock not yet *)

(** A thread that changes the directory [dir] has its token. *)
Definition at_work (dir : string) (stage : option Z) (h : hold) : Prop :=
  match h with HToken file _ _ st => file = lock_file dir /\ st = stage | _ => False end.

Definition may_call (q : breq) (h : hold) : Prop :=
  match q with
  | QOpen _ => h = HNone
  | QFlock fd => exists file, h = HFd file fd
  | QClose fd => exists file, h = HFd file fd \/ h = HTaken file fd
  | QRegister fd => exists file, h = HLocked file fd
  | QTake token => exists file fd, h = HToken file token fd None
  | QSweep dir | QCreate dir | QSnapshotStart dir _ | QDelete dir _ | QPurge dir _ | QRemoveLogs dir _ | QPrune dir
  | QEngineOpen dir true => at_work dir None h
  | QSnapshotEnd dir id _ => at_work dir (Some id) h
  | _ => True
  end.

Definition learn (q : breq) : bresp q -> hold -> hold :=
  match q return bresp q -> hold -> hold with
  | QOpen file => fun r h => match r with inr fd => HFd file fd | inl _ => h end
  | QFlock fd => fun r h =>
      match r, h with
      | (None | Some EOPNOTSUPP), HFd file fd' => HLocked file fd'
      | _, _ => h
      end
  | QClose _ => fun _ _ => HNone
  | QRegister _ => fun t h => match h with HLocked file fd => HToken file t fd None | _ => h end
  | QTake _ => fun r h => match r, h with Some fd, HToken file _ _ _ => HTaken file fd | _, _ => HNone end
  | QSnapshotStart _ id => fun _ h => match h with HToken file t fd _ => HToken file t fd (Some id) | _ => h end
  | QSnapshotEnd _ _ _ => fun _ h => match h with HToken file t fd _ => HToken file t fd None | _ => h end
  | _ => fun _ h => h
  end.

(** A token is never 0. *)
Definition answer_ok (q : breq) : bresp q -> Prop :=
  match q return bresp q -> Prop with QRegister _ => fun t => t <> 0 | _ => fun _ => True end.

(** A program that, holding [h], makes only requests it may, and ends in [Q]. *)
Fixpoint safe {A} (p : bprog A) (Q : A -> hold -> Prop) (h : hold) : Prop :=
  match p with
  | Done a => Q a h
  | Call q k => may_call q h /\ forall r, answer_ok q r -> safe (k r) Q (learn q r h)
  end.

Lemma safe_bind {A B} (p : bprog A) (f : A -> bprog B) Q R h :
  safe p R h -> (forall a h', R a h' -> safe (f a) Q h') -> safe (p ≫= f) Q h.
Proof.
  revert h. induction p as [a|q k IH]; intros h H HR; [apply HR, H|].
  destruct H as (Hg & H). split; [exact Hg|]. intros r Hr. apply IH; auto.
Qed.

Definition ends {A} (p : bprog A) : Prop := safe p (fun _ h => h = HNone) HNone.

Record thread := mkThread { th_pid : Z; th_prog : bprog unit; th_hold : hold }.
Record sys := mkSys { y_sh : shared; y_threads : list thread }.

(** What the threads run. *)
Inductive program : bprog unit -> Prop :=
| p_create n st : program (_ ← runCreateBackup n st; mret tt)
| p_js_delete n dir id : program (_ ← withBackupDirLock n dir (js_delete dir id); mret tt)
| p_js_purge n dir keep : program (_ ← withBackupDirLock n dir (js_purge dir keep); mret tt)
| p_restore dir dbDir walDir mode keep id : program (_ ← BackupRestore_execute dir dbDir walDir mode keep id; mret tt)
| p_list dir : program (_ ← BackupList_execute dir; mret tt)
| p_verify dir id checksum : program (_ ← backupOp_execute dir (OpVerify id checksum); mret tt).

Inductive sys_step : sys -> sys -> Prop :=
| s_start s ths pid p : program p -> sys_step (mkSys s ths) (mkSys s (mkThread pid p HNone :: ths))
| s_call s s' ths ths' pid q k h r : ths ≡ₚ mkThread pid (Call q k) h :: ths' -> serve pid q r s s' ->
    sys_step (mkSys s ths) (mkSys s' (mkThread pid (k r) (learn q r h) :: ths'))
| s_end s ths ths' pid h : ths ≡ₚ mkThread pid (Done tt) h :: ths' -> sys_step (mkSys s ths) (mkSys s ths')
(* other code of a process opens and closes its own files *)
| s_open s ths pid fd : sh_open s !! (pid, fd) = None ->
    sys_step (mkSys s ths) (mkSys (mkShared (<[(pid, fd) := None]> (sh_open s)) (sh_flock s) (sh_procs s) (sh_dirs s)) ths)
| s_close s ths pid fd : sh_open s !! (pid, fd) = Some None -> sys_step (mkSys s ths) (mkSys (close_fd (pid, fd) s) ths)
(* a process dies *)
| s_kill s ths pid : sys_step (mkSys s ths) (mkSys (kill pid s) (filter (fun th => th_pid th <> pid) ths)).

(** No process runs; the disk is as an earlier run left it. *)
Definition sys_start (y : sys) : Prop := exists dirs, y = mkSys (mkShared ∅ ∅ ∅ dirs) [].

(** Runs in which no process gives out all its tokens. *)
Definition bounded (s : shared) : Prop := forall pid, p_count (proc_of s pid) < 2 ^ 32 - 1.

Inductive sys_reachable : sys -> Prop :=
| sr_start y : sys_start y -> sys_reachable y
| sr_step y y' : sys_reachable y -> sys_step y y' -> bounded (y_sh y') -> sys_reachable y'.

End system.
