(* ===== verification/BackupDirProofs.v ===== *)
(** * One writer per backup directory

    The invariant of [BackupDirSystem] has three parts: the descriptors and locks of
    the kernel, the token tables, and the staging directories under way.  Each part
    sees of a thread only what concerns it. *)

From S2P Require Import Prelude BackupDir BackupDirSystem.
From stdpp Require Import base tactics list gmap strings.
From Stdlib Require Import ZArith Lia.

Local Open Scope Z_scope.

(** ** Three views of what a thread has *)

Record kview := mkK { kv_pid : Z; kv_fd : Z; kv_file : string; kv_locked : bool }.

Definition k_of (e : Z * hold) : option kview :=
  match e.2 with
  | HNone => None
  | HFd file fd => Some (mkK e.1 fd file false)
  | HLocked file fd | HToken file _ fd _ | HTaken file fd => Some (mkK e.1 fd file true)
  end.

(** Process, token and descriptor. *)
Definition t_of (e : Z * hold) : option (Z * Z * Z) :=
  match e.2 with HToken _ t fd _ => Some (e.1, t, fd) | _ => None end.

Section proofs.
Context (supported : string -> bool).

Record kernel_ok (s : shared) (ks : list kview) : Prop := {
  ko_nodup : NoDup ((fun v => (kv_pid v, kv_fd v)) <$> ks);
  ko_open : forall v, v ∈ ks -> sh_open s !! (kv_pid v, kv_fd v) = Some (Some (kv_file v));
  ko_lock : forall v, v ∈ ks -> kv_locked v = true -> supported (kv_file v) = true ->
    sh_flock s !! kv_file v = Some (kv_pid v, kv_fd v);
  ko_held : forall file p fd, sh_flock s !! file = Some (p, fd) -> mkK p fd file true ∈ ks
}.

Record tokens_ok (s : shared) (ts : list (Z * Z * Z)) : Prop := {
  to_nodup : NoDup ts;
  to_table : forall p t fd, (p, t, fd) ∈ ts <-> g_locks (proc_of s p) !! t = Some fd;
  to_next : forall p, g_nextToken (proc_of s p) = p_count (proc_of s p) + 1 /\ 0 <= p_count (proc_of s p);
  to_live : forall p t fd, g_locks (proc_of s p) !! t = Some fd -> 0 < t <= p_count (proc_of s p)
}.

Definition stages_ok (s : shared) (hs : list (Z * hold)) : Prop :=
  forall p dir t fd id, (p, HToken (lock_file dir) t fd (Some id)) ∈ hs -> supported (lock_file dir) = true ->
    id ∈ d_staging (dir_of s dir).

Record ok (s : shared) (hs : list (Z * hold)) : Prop := mkOk {
  ok_kernel : kernel_ok s (omap k_of hs);
  ok_tokens : tokens_ok s (omap t_of hs);
  ok_stages : stages_ok s hs
}.

#[export] Instance kernel_proper s : Proper ((≡ₚ) ==> iff) (kernel_ok s).
Proof.
  assert (forall ks ks', ks ≡ₚ ks' -> kernel_ok s ks -> kernel_ok s ks') as H.
  { intros ks ks' E []. constructor; intros; rewrite <- ?E in *; eauto. }
  intros ks ks' E. split; apply H; [exact E|symmetry; exact E].
Qed.

#[export] Instance tokens_proper s : Proper ((≡ₚ) ==> iff) (tokens_ok s).
Proof.
  assert (forall ts ts', ts ≡ₚ ts' -> tokens_ok s ts -> tokens_ok s ts') as H.
  { intros ts ts' E []. constructor; intros; rewrite <- ?E in *; eauto. }
  intros ts ts' E. split; apply H; [exact E|symmetry; exact E].
Qed.

#[export] Instance stages_proper s : Proper ((≡ₚ) ==> iff) (stages_ok s).
Proof. intros hs hs' E. unfold stages_ok. setoid_rewrite E. reflexivity. Qed.

#[export] Instance ok_proper s : Proper ((≡ₚ) ==> iff) (ok s).
Proof.
  intros hs hs' E. split; intros []; constructor; rewrite ?E in *; rewrite <- ?E in *; assumption.
Qed.

(** ** The kernel *)

Lemma kernel_frame s s' ks : sh_open s' = sh_open s -> sh_flock s' = sh_flock s -> kernel_ok s ks -> kernel_ok s' ks.
Proof. intros E1 E2 []. constructor; rewrite ?E1, ?E2; assumption. Qed.

Lemma kernel_open s s' p fd file ks : sh_open s !! (p, fd) = None -> sh_open s' = <[(p, fd) := Some file]> (sh_open s) ->
  sh_flock s' = sh_flock s -> kernel_ok s ks -> kernel_ok s' (mkK p fd file false :: ks).
Proof.
  intros Hf E1 E2 [Hn Ho Hl Hh].
  assert (Hnew : forall v, v ∈ ks -> (kv_pid v, kv_fd v) <> (p, fd)) by (intros v Hv E; rewrite <- E, (Ho v Hv) in Hf; discriminate Hf).
  constructor.
  - cbn. constructor; [|exact Hn]. intros (v & E & Hv)%list_elem_of_fmap. exact (Hnew v Hv (eq_sym E)).
  - intros v [->|Hv]%elem_of_cons; rewrite E1; [apply lookup_insert_eq|].
    rewrite lookup_insert_ne by (apply not_eq_sym, Hnew, Hv). apply Ho, Hv.
  - intros v [->|Hv]%elem_of_cons Hvl; [discriminate Hvl|]. rewrite E2. apply Hl; assumption.
  - intros file' p' fd'. rewrite E2. intros H. apply list_elem_of_further, Hh, H.
Qed.

Lemma kernel_flock s s' p fd file ks : sh_flock s !! file = None \/ sh_flock s !! file = Some (p, fd) ->
  sh_open s' = sh_open s -> sh_flock s' = <[file := (p, fd)]> (sh_flock s) ->
  kernel_ok s (mkK p fd file false :: ks) -> kernel_ok s' (mkK p fd file true :: ks).
Proof.
  intros Hf E1 E2 [Hn Ho Hl Hh].
  assert (Hfree : sh_flock s !! file = None).
  { destruct Hf as [Hf|Hf]; [exact Hf|]. specialize (Hh _ _ _ Hf) as [[=]|Hin]%elem_of_cons.
    apply NoDup_cons in Hn as (Hn & _). destruct Hn. apply list_elem_of_fmap. eexists; split; [|exact Hin]. reflexivity. }
  constructor; [exact Hn| | |].
  - intros v [->|Hv]%elem_of_cons; rewrite E1; [apply (Ho (mkK p fd file false))|apply Ho]; set_solver.
  - intros v [->|Hv]%elem_of_cons Hvl Hs; rewrite E2; [apply lookup_insert_eq|].
    rewrite lookup_insert_ne; [apply Hl; [set_solver|assumption..]|].
    intros E. rewrite E, Hl in Hfree; [discriminate Hfree|set_solver|assumption..].
  - intros file' p' fd'. rewrite E2. intros [(<- & [= <- <-])|(Hne & H)]%lookup_insert_Some; [apply list_elem_of_here|].
    apply Hh in H as [[=]|H]%elem_of_cons. apply list_elem_of_further, H.
Qed.

Lemma kernel_noflock s p fd file ks : supported file = false ->
  kernel_ok s (mkK p fd file false :: ks) -> kernel_ok s (mkK p fd file true :: ks).
Proof.
  intros Hs [Hn Ho Hl Hh]. constructor; [exact Hn| | |].
  - intros v [->|Hv]%elem_of_cons; [apply (Ho (mkK p fd file false))|apply Ho]; set_solver.
  - intros v [->|Hv]%elem_of_cons Hvl Hsv; [cbn in Hsv; congruence|]. apply Hl; [set_solver|assumption..].
  - intros file' p' fd' [[=]|H]%Hh%elem_of_cons. apply list_elem_of_further, H.
Qed.

Lemma flock_close s pf file : sh_flock (close_fd pf s) !! file = (x ← sh_flock s !! file; if decide (x = pf) then None else Some x).
Proof.
  cbn. rewrite map_lookup_filter. destruct (sh_flock s !! file) as [x|]; cbn; [|reflexivity].
  destruct (decide (x = pf)); [rewrite option_guard_False by tauto|rewrite option_guard_True by tauto]; reflexivity.
Qed.

(** A descriptor is closed, whose it was or not. *)
Lemma kernel_close s pf ks : Forall (fun v => (kv_pid v, kv_fd v) <> pf) ks ->
  (forall v, v ∈ ks -> sh_open s !! (kv_pid v, kv_fd v) = Some (Some (kv_file v))) ->
  (forall v, v ∈ ks -> kv_locked v = true -> supported (kv_file v) = true -> sh_flock s !! kv_file v = Some (kv_pid v, kv_fd v)) ->
  (forall file p fd, sh_flock s !! file = Some (p, fd) -> (p, fd) = pf \/ mkK p fd file true ∈ ks) ->
  NoDup ((fun v => (kv_pid v, kv_fd v)) <$> ks) -> kernel_ok (close_fd pf s) ks.
Proof.
  rewrite Forall_forall. intros Hne Ho Hl Hh Hn. constructor; [exact Hn| | |].
  - intros v Hv. cbn. rewrite lookup_delete_ne by (apply not_eq_sym, Hne, Hv). apply Ho, Hv.
  - intros v Hv H1 H2. rewrite flock_close, (Hl v Hv H1 H2). cbn. rewrite decide_False by (apply Hne, Hv). reflexivity.
  - intros file p fd. rewrite flock_close. destruct (sh_flock s !! file) as [x|] eqn:Ex; cbn; [|discriminate].
    destruct (decide (x = pf)) as [|Hx]; [discriminate|]. intros [= ->]. destruct (Hh _ _ _ Ex) as [E|H]; [destruct (Hx E)|exact H].
Qed.

Lemma kernel_close_own s v ks : kernel_ok s (v :: ks) -> kernel_ok (close_fd (kv_pid v, kv_fd v) s) ks.
Proof.
  intros [Hn Ho Hl Hh]. cbn in Hn. apply NoDup_cons in Hn as (Hni & Hn).
  apply kernel_close; [|intros; apply Ho; set_solver|intros; apply Hl; [set_solver|assumption..]| |exact Hn].
  - apply Forall_forall. intros w Hw E. apply Hni. rewrite <- E. apply list_elem_of_fmap. exists w. split; [reflexivity|exact Hw].
  - intros file p fd [<-|H]%Hh%elem_of_cons; [left; reflexivity|right; exact H].
Qed.

Lemma kernel_close_other s pf ks : sh_open s !! pf = Some None -> kernel_ok s ks -> kernel_ok (close_fd pf s) ks.
Proof.
  intros Hpf [Hn Ho Hl Hh]. apply kernel_close; [|assumption..| |exact Hn].
  - apply Forall_forall. intros v Hv E. rewrite <- E, (Ho v Hv) in Hpf. discriminate Hpf.
  - intros file p fd H%Hh. right. exact H.
Qed.

Lemma kernel_open_other s s' pf ks : sh_open s !! pf = None -> sh_open s' = <[pf := None]> (sh_open s) ->
  sh_flock s' = sh_flock s -> kernel_ok s ks -> kernel_ok s' ks.
Proof.
  intros Hpf E1 E2 [Hn Ho Hl Hh]. constructor; rewrite ?E2; [exact Hn| |assumption..].
  intros v Hv. rewrite E1, lookup_insert_ne; [apply Ho, Hv|]. intros E. rewrite E, (Ho v Hv) in Hpf. discriminate Hpf.
Qed.

Lemma NoDup_fmap_filter {A B} (f : A -> B) (P : A -> Prop) `{forall x, Decision (P x)} l :
  NoDup (f <$> l) -> NoDup (f <$> filter P l).
Proof.
  induction l as [|x l IH]; [auto|]. intros (Hx & Hn)%NoDup_cons. rewrite filter_cons. case_decide; [|auto].
  cbn. constructor; [|auto]. intros (y & Ey & (_ & Hy)%list_elem_of_filter)%list_elem_of_fmap. apply Hx, list_elem_of_fmap. eauto.
Qed.

Lemma kernel_kill s pid ks : kernel_ok s ks -> kernel_ok (kill pid s) (filter (fun v => kv_pid v <> pid) ks).
Proof.
  intros [Hn Ho Hl Hh]. constructor; cbn [kill sh_open sh_flock].
  - apply NoDup_fmap_filter, Hn.
  - intros v (Hp & Hv)%list_elem_of_filter. rewrite map_lookup_filter, (Ho v Hv). cbn. rewrite option_guard_True by exact Hp. reflexivity.
  - intros v (Hp & Hv)%list_elem_of_filter H1 H2. rewrite map_lookup_filter, (Hl v Hv H1 H2). cbn. rewrite option_guard_True by exact Hp. reflexivity.
  - intros file p fd (H & Hp)%map_lookup_filter_Some. apply list_elem_of_filter. split; [exact Hp|apply Hh, H].
Qed.

(** Two holders of a lock are one. *)
Lemma kernel_exclusive s v w ks : kernel_ok s (v :: ks) -> w ∈ ks -> kv_locked v = true -> kv_locked w = true ->
  kv_file v = kv_file w -> supported (kv_file v) = true -> False.
Proof.
  intros [Hn Ho Hl Hh] Hw Hv1 Hw1 E Hs. cbn in Hn. apply NoDup_cons in Hn as (Hni & _). apply Hni.
  pose proof (Hl v (list_elem_of_here _ _) Hv1 Hs) as H1.
  assert (H2 : sh_flock s !! kv_file w = Some (kv_pid w, kv_fd w)) by (apply Hl; [set_solver|exact Hw1|congruence]).
  rewrite E, H2 in H1. simplify_eq. apply list_elem_of_fmap. exists w. split; [congruence|exact Hw].
Qed.

(** ** The token tables *)

Lemma tokens_frame s s' ts : sh_procs s' = sh_procs s -> tokens_ok s ts -> tokens_ok s' ts.
Proof. intros E []. assert (Ep : forall p, proc_of s' p = proc_of s p) by (intros p; unfold proc_of; rewrite E; reflexivity).
  constructor; intros; rewrite ?Ep in *; eauto. Qed.

Lemma proc_with p pr s q : proc_of (with_proc p pr s) q = if decide (p = q) then pr else proc_of s q.
Proof.
  unfold proc_of. cbn. destruct (decide (p = q)) as [->|H]; [rewrite lookup_insert_eq|rewrite lookup_insert_ne by exact H]; reflexivity.
Qed.

Lemma register_eq fd pr : g_nextToken pr = p_count pr + 1 -> 0 <= p_count pr -> p_count pr + 1 < 2 ^ 32 - 1 ->
  registerHandle fd pr = (p_count pr + 1, mkProc (<[p_count pr + 1 := fd]> (g_locks pr)) (p_count pr + 2) (p_count pr + 1)).
Proof.
  intros En H0 Hb. unfold registerHandle. rewrite En. rewrite (Z.mod_small (p_count pr + 1 + 1)) by lia.
  destruct (Z.eqb_spec (p_count pr + 1 + 1) 0) as [E|_]; [lia|].
  replace (p_count pr + 1 + 1) with (p_count pr + 2) by lia. reflexivity.
Qed.

Lemma tokens_register s p fd ts : bounded (with_proc p (snd (registerHandle fd (proc_of s p))) s) -> tokens_ok s ts ->
  fst (registerHandle fd (proc_of s p)) <> 0 /\
  tokens_ok (with_proc p (snd (registerHandle fd (proc_of s p))) s) ((p, fst (registerHandle fd (proc_of s p)), fd) :: ts).
Proof.
  intros Hb [Hn Ht Hx Hl]. destruct (Hx p) as (En & H0).
  assert (Hb' : p_count (proc_of s p) + 1 < 2 ^ 32 - 1).
  { specialize (Hb p). rewrite proc_with, decide_True in Hb by reflexivity. exact Hb. }
  rewrite (register_eq _ _ En H0 Hb'). cbn [fst snd]. split; [lia|].
  assert (Hfree : g_locks (proc_of s p) !! (p_count (proc_of s p) + 1) = None).
  { destruct (g_locks (proc_of s p) !! (p_count (proc_of s p) + 1)) eqn:E; [|reflexivity]. apply Hl in E. lia. }
  constructor.
  - constructor; [|exact Hn]. intros H%Ht. congruence.
  - intros q t fd'. rewrite proc_with, elem_of_cons, Ht. destruct (decide (p = q)) as [<-|Hq]; cbn [g_locks].
    + rewrite lookup_insert_Some. split; [intros [[= -> ->]|H]|intros [(<- & <-)|(_ & H)]]; auto.
      right. split; [|exact H]. intros <-. congruence.
    + split; [intros [[= -> _ _]|H]; [destruct (Hq eq_refl)|exact H]|auto].
  - intros q. rewrite proc_with. destruct (decide (p = q)) as [<-|]; cbn; [lia|apply Hx].
  - intros q t fd'. rewrite proc_with. destruct (decide (p = q)) as [<-|]; cbn [g_locks p_count]; [|apply Hl].
    intros [(<- & _)|(_ & H%Hl)]%lookup_insert_Some; lia.
Qed.

Lemma tokens_take s p t fd ts : tokens_ok s ((p, t, fd) :: ts) ->
  fst (takeHandle t (proc_of s p)) = Some fd /\ tokens_ok (with_proc p (snd (takeHandle t (proc_of s p))) s) ts.
Proof.
  intros [Hn Ht Hx Hl]. apply NoDup_cons in Hn as (Hni & Hn).
  assert (E : g_locks (proc_of s p) !! t = Some fd) by (apply Ht, list_elem_of_here).
  unfold takeHandle. rewrite E. cbn [fst snd]. split; [reflexivity|]. constructor; [exact Hn| | |].
  - intros q t' fd'. rewrite proc_with. specialize (Ht q t' fd'). rewrite elem_of_cons in Ht.
    destruct (decide (p = q)) as [<-|Hq]; cbn [g_locks].
    + rewrite lookup_delete_Some. split.
      * intros H. split; [|apply Ht; right; exact H]. intros <-. assert (fd' = fd) as -> by (assert (Some fd' = Some fd) by (rewrite <- E; symmetry; apply Ht; right; exact H); congruence). exact (Hni H).
      * intros (Hne & H). apply Ht in H as [[= -> ->]|H]; [destruct (Hne eq_refl)|exact H].
    + rewrite <- Ht. split; [auto|]. intros [[= -> _ _]|H]; [destruct (Hq eq_refl)|exact H].
  - intros q. rewrite proc_with. destruct (decide (p = q)) as [<-|]; cbn; apply Hx.
  - intros q t' fd'. rewrite proc_with. destruct (decide (p = q)) as [<-|]; cbn [g_locks p_count]; [|apply Hl].
    intros (_ & H)%lookup_delete_Some. apply Hl in H. exact H.
Qed.

Lemma tokens_kill s pid ts : tokens_ok s ts -> tokens_ok (kill pid s) (filter (fun t => t.1.1 <> pid) ts).
Proof.
  intros [Hn Ht Hx Hl].
  assert (Ep : forall q, proc_of (kill pid s) q = if decide (pid = q) then proc_init else proc_of s q).
  { intros q. unfold proc_of. cbn. destruct (decide (pid = q)) as [->|H]; [rewrite lookup_delete_eq|rewrite lookup_delete_ne by exact H]; reflexivity. }
  constructor.
  - apply NoDup_filter, Hn.
  - intros q t fd. rewrite Ep, list_elem_of_filter, Ht. cbn. destruct (decide (pid = q)) as [->|H]; cbn; [|naive_solver].
    rewrite lookup_empty. split; [intros ([] & _); reflexivity|discriminate].
  - intros q. rewrite Ep. destruct (decide (pid = q)); [cbn; lia|apply Hx].
  - intros q t fd. rewrite Ep. destruct (decide (pid = q)); [cbn; rewrite lookup_empty; discriminate|apply Hl].
Qed.

(** ** The steps of a thread *)

Lemma lock_file_inj dir dir' : lock_file dir = lock_file dir' -> dir = dir'.
Proof. apply append_inj_r. Qed.

Lemma stages_swap s s' p h h' hs : sh_dirs s' = sh_dirs s -> (forall file t fd id, h' <> HToken file t fd (Some id)) ->
  stages_ok s ((p, h) :: hs) -> stages_ok s' ((p, h') :: hs).
Proof.
  intros E Hh H q dir t fd id [[= -> <-]|Hin]%elem_of_cons Hs; [destruct (Hh _ _ _ _ eq_refl)|].
  unfold dir_of. rewrite E. eapply H; [apply list_elem_of_further, Hin|exact Hs].
Qed.

Lemma dir_with dir d s dir' : dir_of (with_dir dir d s) dir' = if decide (dir = dir') then d else dir_of s dir'.
Proof.
  unfold dir_of. cbn. destruct (decide (dir = dir')) as [->|H]; [rewrite lookup_insert_eq|rewrite lookup_insert_ne by exact H]; reflexivity.
Qed.

(** A change of a directory by the thread that has its token. *)
Lemma ok_dir s p dir d t fd st st' hs : ok s ((p, HToken (lock_file dir) t fd st) :: hs) ->
  (forall id, st' = Some id -> id ∈ d_staging d) ->
  ok (with_dir dir d s) ((p, HToken (lock_file dir) t fd st') :: hs).
Proof.
  intros [Hk Ht Hs] Hd. constructor.
  - exact (kernel_frame s (with_dir dir d s) _ eq_refl eq_refl Hk).
  - exact (tokens_frame s (with_dir dir d s) _ eq_refl Ht).
  - intros q dir' t' fd' id Hin Hsup. rewrite dir_with. apply elem_of_cons in Hin as [E|Hin].
    + injection E as _ E _ _ <-. apply lock_file_inj in E as ->. rewrite decide_True by reflexivity. apply Hd. reflexivity.
    + destruct (decide (dir = dir')) as [<-|_]; [|eapply Hs; [apply list_elem_of_further, Hin|exact Hsup]]. exfalso.
      eapply (kernel_exclusive _ (mkK p fd (lock_file dir) true) (mkK q fd' (lock_file dir) true));
        [exact Hk| |reflexivity..|exact Hsup]. apply list_elem_of_omap. eexists; split; [exact Hin|reflexivity].
Qed.

(** A thread that has no part in the token table changes what it has of the kernel. *)
Lemma ok_swap s s' p h h' hs : t_of (p, h) = None -> t_of (p, h') = None ->
  sh_procs s' = sh_procs s -> sh_dirs s' = sh_dirs s ->
  (kernel_ok s (omap k_of ((p, h) :: hs)) -> kernel_ok s' (omap k_of ((p, h') :: hs))) ->
  ok s ((p, h) :: hs) -> ok s' ((p, h') :: hs).
Proof.
  intros E1 E2 Ep Ed Hk' [Hk Ht Hs]. constructor; [exact (Hk' Hk)| |].
  - apply (tokens_frame s); [exact Ep|]. cbn in Ht |- *. rewrite E1 in Ht. rewrite E2. exact Ht.
  - apply (stages_swap s s' p h); [exact Ed| |exact Hs]. intros file t fd id ->. discriminate E2.
Qed.

Lemma ok_flock s s' p fd file hs r : serve supported p (QFlock fd) r s s' -> ok s ((p, HFd file fd) :: hs) ->
  ok s' ((p, learn (QFlock fd) r (HFd file fd)) :: hs).
Proof.
  intros (file' & Ho & Hr) H.
  assert (file' = file) as ->.
  { pose proof (ko_open _ _ (ok_kernel _ _ H) (mkK p fd file false)) as E. cbn in E. rewrite Ho in E.
    specialize (E (list_elem_of_here _ _)). congruence. }
  destruct r as [[]|]; cbn [learn]; [subst s'; exact H| | |subst s'; exact H|subst s'; exact H|].
  - destruct Hr as (-> & _). exact H.
  - destruct Hr as (-> & Hs). revert H. apply ok_swap; [reflexivity..|]. apply kernel_noflock, Hs.
  - destruct Hr as (Hs & Hf & ->). revert H. apply ok_swap; [reflexivity..|]. apply kernel_flock with (s := s); auto.
Qed.

Lemma ok_close s p fd file h hs : h = HFd file fd \/ h = HTaken file fd -> ok s ((p, h) :: hs) ->
  ok (close_fd (p, fd) s) ((p, HNone) :: hs).
Proof.
  intros Hh. apply ok_swap; [destruct Hh as [-> | ->]; reflexivity|reflexivity..|].
  destruct Hh as [-> | ->]; [apply (kernel_close_own s (mkK p fd file false))|apply (kernel_close_own s (mkK p fd file true))].
Qed.

Lemma ok_register s p fd file hs : bounded (with_proc p (snd (registerHandle fd (proc_of s p))) s) ->
  ok s ((p, HLocked file fd) :: hs) ->
  fst (registerHandle fd (proc_of s p)) <> 0 /\
  ok (with_proc p (snd (registerHandle fd (proc_of s p))) s) ((p, HToken file (fst (registerHandle fd (proc_of s p))) fd None) :: hs).
Proof.
  intros Hb [Hk Ht Hs]. destruct (tokens_register s p fd _ Hb Ht) as (H0 & Ht'). split; [exact H0|].
  constructor; [|exact Ht'|].
  - revert Hk. apply kernel_frame; reflexivity.
  - apply (stages_swap s _ p (HLocked file fd)); [reflexivity|intros ???? [=]|exact Hs].
Qed.

Lemma ok_take s p t fd file hs : ok s ((p, HToken file t fd None) :: hs) ->
  fst (takeHandle t (proc_of s p)) = Some fd /\
  ok (with_proc p (snd (takeHandle t (proc_of s p))) s) ((p, HTaken file fd) :: hs).
Proof.
  intros [Hk Ht Hs]. destruct (tokens_take s p t fd _ Ht) as (Ef & Ht'). split; [exact Ef|].
  constructor; [|exact Ht'|].
  - revert Hk. apply kernel_frame; reflexivity.
  - apply (stages_swap s _ p (HToken file t fd None)); [reflexivity|intros ???? [=]|exact Hs].
Qed.

(** A request that changes a directory, or nothing. *)
Lemma ok_write s s' p dir t fd st st' hs : ok s ((p, HToken (lock_file dir) t fd st) :: hs) ->
  s' = s \/ (exists d, s' = with_dir dir d s) ->
  (forall id, st' = Some id -> id ∈ d_staging (dir_of s' dir)) ->
  ok s' ((p, HToken (lock_file dir) t fd st') :: hs).
Proof.
  intros H Hs Hst.
  assert (exists d, s' = with_dir dir d s \/ s' = s) as (d & Hd) by (destruct Hs as [->|(d & ->)]; [exists (dir_of s dir)|exists d]; auto).
  destruct Hd as [->| ->]; [eapply ok_dir; [exact H|]|].
  - intros id Hid. specialize (Hst id Hid). rewrite dir_with, decide_True in Hst by reflexivity. exact Hst.
  - destruct H as [Hk Ht Hs']. constructor; [exact Hk|exact Ht|].
    intros q dir' t' fd' id [E|Hin]%elem_of_cons Hsup; [|eapply Hs'; [apply list_elem_of_further, Hin|exact Hsup]].
    injection E as _ E _ _ E'. apply lock_file_inj in E as ->. apply Hst. symmetry. exact E'.
Qed.

Lemma at_work_inv dir st h : at_work dir st h -> exists t fd, h = HToken (lock_file dir) t fd st.
Proof. destruct h; cbn; try done. intros (-> & ->). eauto. Qed.

Ltac at_work Hg :=
  apply at_work_inv in Hg as (? & ? & ->); split; [exact I|]; cbn [learn]; eapply ok_write; [eassumption| |].

Lemma ok_call s s' p q r h hs : may_call q h -> serve supported p q r s s' -> bounded s' -> ok s ((p, h) :: hs) ->
  answer_ok q r /\ ok s' ((p, learn q r h) :: hs).
Proof.
  intros Hg Hr Hb H. destruct q; cbn [may_call] in Hg; cbn [answer_ok];
    try (cbn [serve] in Hr; subst s'; split; [exact I|exact H]).
  - (* QOpen *) subst h. split; [exact I|]. cbn in Hr. destruct r as [e|fd]; cbn [learn]; [subst s'; exact H|].
    destruct Hr as (Hf & ->). revert H. apply ok_swap; [reflexivity..|]. apply kernel_open with (s := s); auto.
  - (* QFlock *) destruct Hg as (file & ->). split; [exact I|]. eapply ok_flock; eassumption.
  - (* QClose *) destruct Hg as (file & Hh). split; [exact I|]. cbn in Hr. subst s'. eapply ok_close; eassumption.
  - (* QRegister *) destruct Hg as (file & ->). cbn [serve] in Hr. injection Hr as -> ->. apply ok_register; assumption.
  - (* QTake *) destruct Hg as (file & fd & ->). cbn [serve] in Hr. injection Hr as -> ->.
    destruct (ok_take _ _ _ _ _ _ H) as (-> & H'). split; [exact I|exact H'].
  - (* QStall *) destruct Hr.
  - (* QSweep *) at_work Hg; [|intros id [=]]. destruct Hr as (st & _ & ->). eauto.
  - (* QCreate *) at_work Hg; [|intros id [=]]. cbn in Hr. destruct r as ([] & id); [|left; exact Hr..].
    destruct Hr as (_ & ->). eauto.
  - (* QSnapshotStart *) cbn in Hr. subst s'. at_work Hg; [eauto|]. intros id' [= <-]. rewrite dir_with, decide_True by reflexivity. set_solver.
  - (* QSnapshotEnd *) at_work Hg; [|intros id' [=]]. destruct Hr as (l & st & -> & _). eauto.
  - (* QDelete *) at_work Hg; [|intros id' [=]]. cbn in Hr. destruct r; [subst; eauto|left; exact Hr..].
  - (* QPurge *) at_work Hg; [|intros id [=]]. destruct Hr as (b & _ & ->). eauto.
  - (* QRemoveLogs *) at_work Hg; [|intros id' [=]]. destruct Hr as [->| ->]; eauto.
  - (* QPrune *) at_work Hg; [|intros id [=]]. destruct Hr as (l & st & _ & _ & _ & ->). eauto.
Qed.

Lemma omap_filter_comm {A B} (f : A -> option B) (P : A -> Prop) (Q : B -> Prop)
    `{forall x, Decision (P x)} `{forall y, Decision (Q y)} (l : list A) :
  (forall x y, f x = Some y -> P x <-> Q y) -> omap f (filter P l) = filter Q (omap f l).
Proof.
  intros HPQ. induction l as [|x l IH]; [reflexivity|]. rewrite filter_cons. cbn. destruct (f x) as [y|] eqn:E.
  - rewrite filter_cons. specialize (HPQ x y E). case_decide; case_decide; try tauto; cbn; rewrite ?E, IH; reflexivity.
  - case_decide; cbn; rewrite ?E; exact IH.
Qed.

Lemma ok_kill s pid hs : ok s hs -> ok (kill pid s) (filter (fun e => e.1 <> pid) hs).
Proof.
  intros [Hk Ht Hs]. constructor.
  - rewrite (omap_filter_comm _ _ (fun v => kv_pid v <> pid)); [apply kernel_kill, Hk|].
    intros (q & []) y; cbn; intros [= <-]; reflexivity.
  - rewrite (omap_filter_comm _ _ (fun t => t.1.1 <> pid)); [apply tokens_kill, Ht|].
    intros (q & []) y; cbn; intros [= <-]; reflexivity.
  - intros q dir t fd id (_ & Hin)%list_elem_of_filter Hsup. exact (Hs _ _ _ _ _ Hin Hsup).
Qed.

(** ** The programs *)

Definition got_token (file : string) (r : exn + Z) (h : hold) : Prop :=
  match r with
  | inl _ => h = HNone
  | inr t => if t =? 0 then h = HNone else exists fd, h = HToken file t fd None
  end.

Lemma safe_flock_loop n fd file : safe (flock_loop n fd) (got_token file) (HFd file fd).
Proof.
  induction n as [|n IH]; [split; [exact I|intros []]|].
  split; [exists file; reflexivity|]. intros r _.
  assert (Hreg : safe (token ← request (QRegister fd); mret (inr token)) (got_token file) (HLocked file fd)).
  { split; [exists file; reflexivity|]. intros t Ht. cbn in Ht |- *. rewrite (proj2 (Z.eqb_neq _ _) Ht). eauto. }
  assert (Hclose : forall e : exn + Z, match e with inl _ => True | inr t => t = 0 end ->
    safe (request (QClose fd);; mret e) (got_token file) (HFd file fd)).
  { intros e He. split; [exists file; left; reflexivity|]. intros u _. destruct e as [|t]; [reflexivity|subst t; reflexivity]. }
  destruct r as [[]|]; [apply Hclose; exact I|apply Hclose; reflexivity|exact Hreg|exact IH|apply Hclose; exact I|exact Hreg].
Qed.

Lemma safe_acquire n file : safe (tryAcquireFileLock n file) (got_token file) HNone.
Proof. split; [reflexivity|]. intros [[]|fd] _; try reflexivity. apply safe_flock_loop. Qed.

Lemma release_safe {B} file t fd (b : B) : t <> 0 ->
  safe (releaseFileLock t;; mret b) (fun _ h => h = HNone) (HToken file t fd None).
Proof.
  unfold releaseFileLock. intros Ht. rewrite (proj2 (Z.eqb_neq _ _) Ht).
  split; [exists file, fd; reflexivity|]. intros [fd'|] _; [|reflexivity].
  split; [exists file; right; reflexivity|]. intros u _. reflexivity.
Qed.

(** With the lock of [dir] had, and kept. *)
Definition keeps_token (dir : string) {A} (p : bprog A) : Prop :=
  forall t fd, safe p (fun _ h => h = HToken (lock_file dir) t fd None) (HToken (lock_file dir) t fd None).

Ltac token_steps :=
  intros t fd; repeat (split; [first [exact I|split; reflexivity]|intros ?r _]; cbn;
    try match goal with |- context [ok_status ?s] => destruct s; cbn end); try reflexivity.

Lemma create_keeps_token st : keeps_token (as_backup_dir st) (create_with_engine st).
Proof.
  intros t fd. split; [split; reflexivity|]. intros r _. destruct r; cbn; try reflexivity.
  split; [split; reflexivity|]. intros (created & id) _. cbn.
  destruct created; cbn; try reflexivity. destruct (as_backupTransactionLogs st); cbn; [|reflexivity].
  split; [split; reflexivity|]. intros _ _. split; [split; reflexivity|]. intros r _.
  destruct r; cbn; try reflexivity; (split; [split; reflexivity|]; intros; reflexivity).
Qed.

Lemma js_delete_keeps_token dir id : keeps_token dir (js_delete dir id).
Proof. token_steps. Qed.

Lemma js_purge_keeps_token dir keep : keeps_token dir (js_purge dir keep).
Proof. token_steps. Qed.

Lemma locked_safe {A B} dir token fd (p : bprog A) (b : A -> B) : token <> 0 -> keeps_token dir p ->
  safe (a ← p; releaseFileLock token;; mret (b a)) (fun _ h => h = HNone) (HToken (lock_file dir) token fd None).
Proof.
  intros Ht Hp. eapply safe_bind; [apply Hp|]. intros a h ->. apply release_safe, Ht.
Qed.

Lemma program_ends p : program p -> ends p.
Proof.
  assert (Hmap : forall A (q : bprog A), safe q (fun _ h => h = HNone) HNone -> ends (_ ← q; mret tt)).
  { intros A q H. eapply safe_bind; [exact H|]. intros a h ->. reflexivity. }
  assert (Hlock : forall A n dir (k : exn + Z -> bprog A), (forall e, safe (k (inl e)) (fun _ h => h = HNone) HNone) ->
    safe (k (inr 0)) (fun _ h => h = HNone) HNone ->
    (forall t fd, t <> 0 -> safe (k (inr t)) (fun _ h => h = HNone) (HToken (lock_file dir) t fd None)) ->
    safe (tryAcquireFileLock n (lock_file dir) ≫= k) (fun _ h => h = HNone) HNone).
  { intros A n dir k H1 H2 H3. eapply safe_bind; [apply safe_acquire|]. intros [e|t] h; cbn; [intros ->; apply H1|].
    destruct (Z.eqb_spec t 0) as [->|Ht]; [intros ->; exact H2|]. intros (fd & ->). apply H3, Ht. }
  destruct 1; apply Hmap.
  - (* create *) split; [exact I|]. intros [] _; [reflexivity|]. split; [exact I|]. intros [e|] _; [reflexivity|].
    apply Hlock; [reflexivity|reflexivity|]. intros t fd Ht. rewrite (proj2 (Z.eqb_neq _ _) Ht).
    eapply (safe_bind _ _ _ (fun _ h => h = HToken (lock_file (as_backup_dir st)) t fd None)).
    { destruct (as_backupTransactionLogs st); [split; [split; reflexivity|intros; reflexivity]|reflexivity]. }
    intros u h ->. eapply safe_bind; [apply create_keeps_token|]. intros res h ->. split; [exact I|]. intros r _.
    exact (release_safe (lock_file (as_backup_dir st)) t fd res Ht).
  - (* delete *) apply Hlock; [reflexivity|reflexivity|]. intros t fd Ht. rewrite (proj2 (Z.eqb_neq _ _) Ht).
    apply (locked_safe dir t fd _ inr Ht), js_delete_keeps_token.
  - (* purge *) apply Hlock; [reflexivity|reflexivity|]. intros t fd Ht. rewrite (proj2 (Z.eqb_neq _ _) Ht).
    apply (locked_safe dir t fd _ inr Ht), js_purge_keeps_token.
  - (* restore *) split; [exact I|]. intros [] _; cbn; repeat (split; [exact I|intros ? _]); reflexivity.
  - (* list *) split; [exact I|]. intros [] _; cbn; repeat (split; [exact I|intros ? _]); reflexivity.
  - (* verify *) split; [exact I|]. intros [] _; cbn; repeat (split; [exact I|intros ? _]); reflexivity.
Qed.

(** ** Every reachable state *)

Definition views (ths : list thread) : list (Z * hold) := (fun th => (th_pid th, th_hold th)) <$> ths.

Record sys_ok (y : sys) : Prop := {
  so_ok : ok (y_sh y) (views (y_threads y));
  so_safe : forall th, th ∈ y_threads y -> safe (th_prog th) (fun _ h => h = HNone) (th_hold th)
}.

Lemma views_perm ths ths' : ths ≡ₚ ths' -> views ths ≡ₚ views ths'.
Proof. intros E. unfold views. rewrite E. reflexivity. Qed.

Lemma ok_drop s p hs : ok s ((p, HNone) :: hs) <-> ok s hs.
Proof.
  split; intros [Hk Ht Hs]; (constructor; [exact Hk|exact Ht|]).
  - intros q dir t fd id Hin. apply (Hs q dir t fd id), list_elem_of_further, Hin.
  - intros q dir t fd id [[=]|Hin]%elem_of_cons. apply (Hs q dir t fd id), Hin.
Qed.

Lemma views_filter pid ths : views (filter (fun th => th_pid th <> pid) ths) = filter (fun e => e.1 <> pid) (views ths).
Proof.
  unfold views. induction ths as [|th ths IH]; [reflexivity|]. rewrite filter_cons, fmap_cons, filter_cons. cbn [fst].
  case_decide; rewrite <- IH; reflexivity.
Qed.

Lemma backup_step_ok y y' : sys_ok y -> sys_step supported y y' -> bounded (y_sh y') -> sys_ok y'.
Proof.
  intros [H Hp] Hs Hb. destruct Hs as [s ths pid p Hpr|s s' ths ths' pid q k h r E Hr|s ths ths' pid h E|s ths pid fd Hf|s ths pid fd Hf|s ths pid];
    cbn [y_sh y_threads] in *.
  - constructor; [apply ok_drop, H|]. intros th [->|Hth]%elem_of_cons; [apply program_ends, Hpr|apply Hp, Hth].
  - rewrite (views_perm _ _ E) in H. destruct (Hp (mkThread pid (Call q k) h)) as (Hg & Hk); [rewrite E; apply list_elem_of_here|].
    destruct (ok_call _ _ _ _ _ _ _ Hg Hr Hb H) as (Ha & H'). constructor; [exact H'|].
    intros th [->|Hth]%elem_of_cons; [apply Hk, Ha|apply Hp; rewrite E; apply list_elem_of_further, Hth].
  - rewrite (views_perm _ _ E) in H. assert (h = HNone) as -> by (apply (Hp (mkThread pid (Done tt) h)); rewrite E; apply list_elem_of_here).
    constructor; [apply (ok_drop _ pid), H|]. intros th Hth. apply Hp. rewrite E. apply list_elem_of_further, Hth.
  - constructor; [|exact Hp]. destruct H as [Hk Ht Hst]. constructor; [|exact (tokens_frame s (mkShared _ _ (sh_procs s) _) _ eq_refl Ht)|exact Hst].
    exact (kernel_open_other s (mkShared _ _ _ _) (pid, fd) _ Hf eq_refl eq_refl Hk).
  - constructor; [|exact Hp]. destruct H as [Hk Ht Hst].
    constructor; [apply kernel_close_other; assumption|exact (tokens_frame s (close_fd (pid, fd) s) _ eq_refl Ht)|exact Hst].
  - constructor; cbn [y_sh y_threads]; [rewrite views_filter; apply ok_kill, H|]. intros th (_ & Hth)%list_elem_of_filter. apply Hp, Hth.
Qed.

Lemma backup_reachable_ok y : sys_reachable supported y -> sys_ok y.
Proof.
  induction 1 as [y (dirs & ->)|y y' _ IH Hs Hb]; [|eapply backup_step_ok; eassumption].
  constructor; cbn; [|intros th Hth%not_elem_of_nil; destruct Hth]. constructor.
  - constructor; cbn; [constructor|intros v Hv%not_elem_of_nil; destruct Hv|intros v Hv%not_elem_of_nil; destruct Hv|].
    intros file p fd. rewrite lookup_empty. discriminate.
  - constructor; cbn; [constructor| | |].
    + intros p t fd. unfold proc_of. cbn. rewrite lookup_empty. cbn. rewrite lookup_empty. split; [intros H%not_elem_of_nil; destruct H|discriminate].
    + intros p. unfold proc_of. cbn. rewrite lookup_empty. cbn. lia.
    + intros p t fd. unfold proc_of. cbn. rewrite lookup_empty. cbn. rewrite lookup_empty. discriminate.
  - intros p dir t fd id Hin%not_elem_of_nil. destruct Hin.
Qed.

(** ** What it means *)

(** The directory a request changes. *)
Definition dir_touched (q : breq) : option string :=
  match q with
  | QSweep dir | QCreate dir | QSnapshotStart dir _ | QSnapshotEnd dir _ _ | QDelete dir _ | QPurge dir _ | QRemoveLogs dir _
  | QPrune dir | QEngineOpen dir true => Some dir
  | _ => None
  end.

(** The thread is about to change [dir]. *)
Definition writes (dir : string) (th : thread) : Prop :=
  match th_prog th with Call q _ => dir_touched q = Some dir | Done _ => False end.

Lemma writes_token dir th : safe (th_prog th) (fun _ h => h = HNone) (th_hold th) -> writes dir th ->
  exists t fd st, th_hold th = HToken (lock_file dir) t fd st.
Proof.
  unfold writes. destruct (th_prog th) as [u|q k]; [intros _ []|]. intros (Hg & _) Hd.
  destruct q; cbn in Hd; try discriminate Hd; simplify_eq; try (apply at_work_inv in Hg as (t & fd & ->); eauto).
  destruct writable; [|discriminate Hd]. simplify_eq. apply at_work_inv in Hg as (t & fd & ->). eauto.
Qed.

(** C34: two threads, of one process or of two, never change the same backup directory
    at the same time when its file system has advisory locks, whatever else the
    processes open and close and whichever of them dies; and a log snapshot that is
    being finished finds its staging directory in place: no sweep of another backup
    has removed it. *)
Theorem one_writer y a b ths dir : sys_reachable supported y -> y_threads y ≡ₚ a :: b :: ths ->
  supported (lock_file dir) = true -> writes dir a ->
  ~ writes dir b /\
  (forall id sync k, th_prog a = Call (QSnapshotEnd dir id sync) k -> id ∈ d_staging (dir_of (y_sh y) dir)).
Proof.
  intros [H Hp]%backup_reachable_ok E Hs Ha. rewrite (views_perm _ _ E) in H.
  assert (Ia : a ∈ y_threads y) by (rewrite E; apply list_elem_of_here).
  destruct (writes_token _ _ (Hp a Ia) Ha) as (t & fd & st & Ea). split.
  - intros Hb. assert (Ib : b ∈ y_threads y) by (rewrite E; set_solver).
    destruct (writes_token _ _ (Hp b Ib) Hb) as (t' & fd' & st' & Eb). pose proof (ok_kernel _ _ H) as Hk.
    cbn in Hk. rewrite Ea, Eb in Hk. cbn in Hk.
    eapply kernel_exclusive; [exact Hk|apply list_elem_of_here|reflexivity..|exact Hs].
  - intros id sync k Ek. specialize (Hp a Ia). rewrite Ek in Hp. destruct Hp as (Hg & _).
    apply at_work_inv in Hg as (t' & fd' & Eh). apply (ok_stages _ _ H (th_pid a) dir t' fd' id); [|exact Hs].
    cbn. rewrite Eh. apply list_elem_of_here.
Qed.

(** A lock is held, and a token is registered, only for a thread that is still
    running its operation: every way out of an operation, and the death of its
    process, gives both back.  A directory is found locked only while another
    operation is under way. *)
Theorem lock_not_leaked y p : sys_reachable supported y ->
  (forall file fd, sh_flock (y_sh y) !! file = Some (p, fd) ->
     exists th, th ∈ y_threads y /\ th_pid th = p /\ th_prog th <> Done tt) /\
  (forall t fd, g_locks (proc_of (y_sh y) p) !! t = Some fd ->
     exists th, th ∈ y_threads y /\ th_pid th = p /\ th_prog th <> Done tt).
Proof.
  intros [H Hp]%backup_reachable_ok.
  assert (Hrun : forall th, th ∈ y_threads y -> th_hold th <> HNone -> th_prog th <> Done tt).
  { intros th Hth Hne E. specialize (Hp th Hth). rewrite E in Hp. exact (Hne Hp). }
  split.
  - intros file fd Hf. apply (ko_held _ _ (ok_kernel _ _ H)) in Hf.
    apply list_elem_of_omap in Hf as ((q & h) & Hin & Eh). apply list_elem_of_fmap in Hin as (th & [= -> ->] & Hth).
    exists th. split; [exact Hth|]. split; [|apply Hrun; [exact Hth|]]; destruct (th_hold th); cbn in Eh; simplify_eq; try reflexivity; discriminate.
  - intros t fd Ht. apply (to_table _ _ (ok_tokens _ _ H)) in Ht.
    apply list_elem_of_omap in Ht as ((q & h) & Hin & Eh). apply list_elem_of_fmap in Hin as (th & [= -> ->] & Hth).
    exists th. split; [exact Hth|]. split; [|apply Hrun; [exact Hth|]]; destruct (th_hold th); cbn in Eh; simplify_eq; try reflexivity; discriminate.
Qed.
End proofs.

(** ** A backup under way, with another waiting *)

Definition answer {A} (q : breq) (r : bresp q) (p : bprog A) : option (bprog A) :=
  match p with
  | Call q' k => match decide (q = q') with left E => Some (k (eq_rect q bresp r q' E)) | right _ => None end
  | Done _ => None
  end.

Lemma reach_call supported s s' pid p p' h ths q r : sys_reachable supported (mkSys s (mkThread pid p h :: ths)) ->
  answer q r p = Some p' -> serve supported pid q r s s' -> bounded s' ->
  sys_reachable supported (mkSys s' (mkThread pid p' (learn q r h) :: ths)).
Proof.
  intros H Ha Hr Hb. destruct p as [|q' k]; [discriminate Ha|]. cbn in Ha.
  destruct (decide (q = q')) as [<-|]; [|discriminate Ha]. injection Ha as <-.
  eapply sr_step; [exact H| |exact Hb]. eapply s_call; [reflexivity|exact Hr].
Qed.

Definition all_fs (_ : string) : bool := true.
Definition demo_program : bprog unit := _ ← runCreateBackup 1 (mkBackupState "b" true false); mret tt.
Definition demo_open : gmap (Z * Z) (option string) := {[(1, 3) := Some (lock_file "b")]}.
Definition demo_flock : gmap string (Z * Z) := {[lock_file "b" := (1, 3)]}.
Definition demo_after (qs : list bcall) : bprog unit :=
  default (Done tt) (foldl (fun p c => p ≫= answer (projT1 c) (projT2 c)) (Some demo_program) qs).
Definition demo_calls : list bcall :=
  [existT QCancelled false; existT (QMkdirs "b") None; existT (QOpen (lock_file "b")) (inr 3); existT (QFlock 3) None;
   existT (QRegister 3) 1].
Definition demo_waiting : thread := mkThread 2 demo_program HNone.
Definition demo_thread : thread := mkThread 1 (demo_after demo_calls) (HToken (lock_file "b") 1 3 None).
Definition demo_sys : sys := mkSys (mkShared demo_open demo_flock {[1 := mkProc {[1 := 3]} 2 1]} ∅) [demo_thread; demo_waiting].

Lemma bounded_one o f d pid pr : p_count pr < 2 ^ 32 - 1 -> bounded (mkShared o f {[pid := pr]} d).
Proof.
  intros H q. unfold proc_of. cbn [sh_procs]. destruct (decide (pid = q)) as [<-|Hne].
  - rewrite lookup_singleton_eq. exact H.
  - rewrite lookup_singleton_ne by exact Hne. cbn. lia.
Qed.

Lemma bounded_none o f d : bounded (mkShared o f ∅ d).
Proof. intros q. unfold proc_of. cbn [sh_procs]. rewrite lookup_empty. cbn. lia. Qed.

Lemma backup_demo_reachable : sys_reachable all_fs demo_sys.
Proof.
  assert (H : sys_reachable all_fs (mkSys (mkShared ∅ ∅ ∅ ∅) [mkThread 1 demo_program HNone; demo_waiting])).
  { eapply sr_step; [eapply sr_step; [apply sr_start; exists ∅; reflexivity|apply (s_start _ _ _ 2); constructor|]|apply s_start; constructor|];
      apply bounded_none. }
  eapply (reach_call _ _ _ _ _ _ _ _ QCancelled false) in H; [|reflexivity|reflexivity|apply bounded_none].
  eapply (reach_call _ _ _ _ _ _ _ _ (QMkdirs "b") None) in H; [|reflexivity|reflexivity|apply bounded_none].
  eapply (reach_call _ _ (mkShared demo_open ∅ ∅ ∅) _ _ _ _ _ (QOpen (lock_file "b")) (inr 3)) in H;
    [|reflexivity|split; reflexivity|apply bounded_none].
  eapply (reach_call _ _ (mkShared demo_open demo_flock ∅ ∅) _ _ _ _ _ (QFlock 3) None) in H;
    [|reflexivity|exists (lock_file "b"); repeat split; left; reflexivity|apply bounded_none].
  eapply (reach_call _ _ (mkShared demo_open demo_flock {[1 := mkProc {[1 := 3]} 2 1]} ∅) _ _ _ _ _ (QRegister 3) 1) in H;
    [|reflexivity|reflexivity|apply bounded_one; reflexivity].
  exact H.
Qed.

Lemma one_writer_witness : ~ writes "b" demo_waiting.
Proof.
  apply (one_writer all_fs demo_sys demo_thread demo_waiting [] "b" backup_demo_reachable); reflexivity.
Defined.

