(* ===== verification/AsyncWork.v ===== *)
(** * Asynchronous work

    [napi/async.h]: the state of one piece of asynchronous work ([BaseAsyncState])
    and the count of the work of a handle ([AsyncWorkHandle]), which a close waits
    on.  N-API answers are a parameter: [napi n] says whether the n-th call returns
    [napi_ok].  A macro that throws on a bad status returns from its function. *)

From S2P Require Import Prelude.
From stdpp Require Import base tactics list strings.
From Stdlib Require Import ZArith Lia.

Local Open Scope Z_scope.

(** ** The count of work *)

Record AsyncWorkHandle := mkAsyncWorkHandle {
  ah_cancelled : bool;
  ah_active : Z          (* atomic<int32_t> *)
}.

Definition i32 (z : Z) : Z := (z + 2 ^ 31) mod 2 ^ 32 - 2 ^ 31.

Definition registerWork (h : AsyncWorkHandle) : AsyncWorkHandle :=
  mkAsyncWorkHandle (ah_cancelled h) (i32 (ah_active h + 1)).

(** The waiting close polls, so that the notification is only a shortcut. *)
Definition unregisterWork (h : AsyncWorkHandle) : AsyncWorkHandle :=
  mkAsyncWorkHandle (ah_cancelled h) (i32 (ah_active h - 1)).

Definition cancelAllAsyncWork (h : AsyncWorkHandle) : AsyncWorkHandle := mkAsyncWorkHandle true (ah_active h).
Definition resetCancelled (h : AsyncWorkHandle) : AsyncWorkHandle := mkAsyncWorkHandle false (ah_active h).

Lemma i32_add a b : i32 (i32 a + b) = i32 (a + b).
Proof.
  unfold i32. f_equal. replace ((a + 2 ^ 31) mod 2 ^ 32 - 2 ^ 31 + b + 2 ^ 31) with ((a + 2 ^ 31) mod 2 ^ 32 + b) by lia.
  rewrite Z.add_mod_idemp_l by lia. f_equal. lia.
Qed.

Lemma i32_small z : - 2 ^ 31 <= z < 2 ^ 31 -> i32 z = z.
Proof. intros H. unfold i32. rewrite Z.mod_small by lia. lia. Qed.

(** ** Waiting *)

Inductive wait_result := WNothing | WCompleted | WTimedOut.

Definition wait_timeout : Z := 5000.
Definition poll_interval : Z := 10.

(** One round: the time that passed since the start, and whether the predicate held
    within the wait of that round.  The number loaded before the loop is not loaded
    again. *)
Fixpoint wait_rounds (fuel : nat) (elapsed : nat -> Z) (none_left : nat -> bool) (i : nat) : option wait_result :=
  match fuel with
  | O => None
  | S fuel =>
      if wait_timeout <=? elapsed i then Some WTimedOut
      else if none_left i then Some WCompleted
      else wait_rounds fuel elapsed none_left (S i)
  end.

Definition waitForAsyncWorkCompletion (fuel : nat) (active : Z) (elapsed : nat -> Z) (none_left : nat -> bool) : option wait_result :=
  if active =? 0 then Some WNothing
  else if 0 <? active then wait_rounds fuel elapsed none_left 0
  else Some WNothing.

(** What a wait takes: [waitTime], unless the predicate holds earlier. *)
Definition clock_ok (elapsed : nat -> Z) (none_left : nat -> bool) : Prop :=
  0 <= elapsed O /\
  forall i, elapsed i < wait_timeout -> none_left i = false ->
    elapsed i + Z.min poll_interval (wait_timeout - elapsed i) <= elapsed (S i).

Lemma wait_rounds_end elapsed none_left : clock_ok elapsed none_left ->
  forall fuel i, 0 <= elapsed i -> wait_timeout - elapsed i <= poll_interval * Z.of_nat fuel ->
  wait_rounds (S fuel) elapsed none_left i <> None.
Proof.
  intros (_ & Hc). induction fuel as [|fuel IH]; intros i Hi Hf; cbn [wait_rounds];
    (destruct (Z.leb_spec wait_timeout (elapsed i)) as [|Hlt]; [discriminate|]); [unfold poll_interval in Hf; lia|].
  destruct (none_left i) eqn:En; [discriminate|]. specialize (Hc i Hlt En).
  apply IH; unfold poll_interval, wait_timeout in *; lia.
Qed.

(** Waiting for the work of a handle ends, within 501 rounds, for every count that is
    loaded and whenever the work ends; it reports completion only in a round in which
    no work was left, and a timeout only after the five seconds. *)
Theorem wait_terminates active elapsed none_left : clock_ok elapsed none_left ->
  exists r, waitForAsyncWorkCompletion 501 active elapsed none_left = Some r /\
    match r with
    | WNothing => active <= 0
    | WCompleted => exists i, none_left i = true /\ elapsed i < wait_timeout
    | WTimedOut => exists i, wait_timeout <= elapsed i /\ forall j, (j < i)%nat -> none_left j = false
    end.
Proof.
  intros Hc. unfold waitForAsyncWorkCompletion. destruct (Z.eqb_spec active 0) as [->|H0]; [exists WNothing; split; [reflexivity|lia]|].
  destruct (Z.ltb_spec 0 active) as [Hp|Hn]; [|exists WNothing; split; [reflexivity|lia]].
  assert (Hend : wait_rounds 501 elapsed none_left 0 <> None).
  { apply (wait_rounds_end _ _ Hc 500); [apply Hc|]. destruct Hc as (H & _). unfold wait_timeout, poll_interval. lia. }
  assert (Hres : forall fuel i r, (forall j, (j < i)%nat -> none_left j = false) -> wait_rounds fuel elapsed none_left i = Some r ->
    match r with
    | WNothing => False
    | WCompleted => exists i, none_left i = true /\ elapsed i < wait_timeout
    | WTimedOut => exists i, wait_timeout <= elapsed i /\ forall j, (j < i)%nat -> none_left j = false
    end).
  { clear. induction fuel as [|fuel IH]; intros i r Hj; [discriminate|]. cbn [wait_rounds].
    destruct (Z.leb_spec wait_timeout (elapsed i)) as [Hle|Hlt]; [intros [= <-]; eauto|].
    destruct (none_left i) eqn:En; [intros [= <-]; eauto|]. apply IH. intros j Hji.
    destruct (decide (j = i)) as [->|]; [exact En|apply Hj; lia]. }
  destruct (wait_rounds 501 elapsed none_left 0) as [r|] eqn:E; [|destruct (Hend eq_refl)]. exists r. split; [reflexivity|].
  specialize (Hres 501%nat O r ltac:(lia) E). destruct r; [destruct Hres|exact Hres..].
Qed.

(** ** One piece of work *)

(** The fields of [BaseAsyncState]; the references to the two functions of the
    promise, and what JavaScript has seen of them. *)
Record WorkState := mkWork {
  ws_asyncWork : bool;
  ws_resolveRef : bool;
  ws_rejectRef : bool;
  ws_ok : bool;                (* status.ok() *)
  ws_completed : bool;
  ws_hasHandle : bool;
  ws_handle : AsyncWorkHandle; (* the handle it belongs to *)
  ws_settled : list bool;      (* the calls: resolve is [true], reject is [false] *)
  ws_refs : Z;                 (* references that exist *)
  ws_alive : bool;             (* the state was not deleted *)
  ws_n : nat                   (* N-API calls so far *)
}.

Definition set_ws_asyncWork v w := mkWork v (ws_resolveRef w) (ws_rejectRef w) (ws_ok w) (ws_completed w) (ws_hasHandle w) (ws_handle w) (ws_settled w) (ws_refs w) (ws_alive w) (ws_n w).
Definition set_ws_resolveRef v w := mkWork (ws_asyncWork w) v (ws_rejectRef w) (ws_ok w) (ws_completed w) (ws_hasHandle w) (ws_handle w) (ws_settled w) (ws_refs w) (ws_alive w) (ws_n w).
Definition set_ws_rejectRef v w := mkWork (ws_asyncWork w) (ws_resolveRef w) v (ws_ok w) (ws_completed w) (ws_hasHandle w) (ws_handle w) (ws_settled w) (ws_refs w) (ws_alive w) (ws_n w).
Definition set_ws_signal h w := mkWork (ws_asyncWork w) (ws_resolveRef w) (ws_rejectRef w) (ws_ok w) true (ws_hasHandle w) h (ws_settled w) (ws_refs w) (ws_alive w) (ws_n w).
Definition add_ws_settled b w := mkWork (ws_asyncWork w) (ws_resolveRef w) (ws_rejectRef w) (ws_ok w) (ws_completed w) (ws_hasHandle w) (ws_handle w) (ws_settled w ++ [b]) (ws_refs w) (ws_alive w) (ws_n w).
Definition drop_ws_ref w := mkWork (ws_asyncWork w) (ws_resolveRef w) (ws_rejectRef w) (ws_ok w) (ws_completed w) (ws_hasHandle w) (ws_handle w) (ws_settled w) (ws_refs w - 1) (ws_alive w) (ws_n w).
Definition set_ws_alive v w := mkWork (ws_asyncWork w) (ws_resolveRef w) (ws_rejectRef w) (ws_ok w) (ws_completed w) (ws_hasHandle w) (ws_handle w) (ws_settled w) (ws_refs w) v (ws_n w).
Definition next_ws_call w := mkWork (ws_asyncWork w) (ws_resolveRef w) (ws_rejectRef w) (ws_ok w) (ws_completed w) (ws_hasHandle w) (ws_handle w) (ws_settled w) (ws_refs w) (ws_alive w) (S (ws_n w)).

Abbreviation WM := (M WorkState).

Section work.
Context (napi : nat -> bool).

(** A call; [true]: it returned [napi_ok]. *)
Definition napi_call : WM bool :=
  n ← gets ws_n; modify next_ws_call;; mret (napi n).

(** [NAPI_STATUS_THROWS_VOID]: on a bad status the function returns; the JavaScript
    exception it leaves is [DBException]. *)
Definition napi_throws : WM unit :=
  ok ← napi_call; if ok : bool then mret tt else throw (DBException "napi").

Definition delete_reference : WM unit := napi_throws;; modify drop_ws_ref.

(** The call of a function of the promise: it is made whatever its status. *)
Definition call_js (b : bool) : WM unit := modify (add_ws_settled b);; napi_throws.

Definition deleteAsyncWork : WM unit :=
  w ← gets ws_asyncWork;
  if w : bool then ok ← napi_call; when ok (modify (set_ws_asyncWork false)) else mret tt.

Definition signalExecuteCompleted : WM unit :=
  done ← gets ws_completed;
  if done : bool then mret tt
  else
    has ← gets ws_hasHandle;
    h ← gets ws_handle;
    modify (set_ws_signal (if has : bool then unregisterWork h else h)).

Definition callResolve : WM unit :=
  resolve ← gets ws_resolveRef;
  if negb resolve then mret tt
  else
    reject ← gets ws_rejectRef;
    when reject (delete_reference;; modify (set_ws_rejectRef false));;
    napi_throws;;                      (* napi_get_global *)
    napi_throws;;                      (* napi_get_reference_value *)
    call_js true;;
    delete_reference;;
    modify (set_ws_resolveRef false).

Definition callReject : WM unit :=
  reject ← gets ws_rejectRef;
  if negb reject then mret tt
  else
    resolve ← gets ws_resolveRef;
    when resolve (delete_reference;; modify (set_ws_resolveRef false));;
    napi_throws;;
    napi_throws;;
    call_js false;;
    delete_reference;;
    modify (set_ws_rejectRef false).

(** [~BaseAsyncState]: the references are forgotten, not deleted. *)
Definition delete_state : WM unit :=
  modify (set_ws_resolveRef false);;
  modify (set_ws_rejectRef false);;
  signalExecuteCompleted;;
  modify (set_ws_alive false).

(** The complete callbacks that settle a promise without a value differ in the calls
    they make before: [doClear] asks for the global object, and a checkpoint makes its
    error with [createRocksDBError], which returns on a bad status and does not leave
    the callback. *)
Inductive completion := CompleteClear | CompleteWork | CompleteCheckpoint.

Definition create_error (c : completion) : WM unit :=
  match c with
  | CompleteClear | CompleteWork => napi_throws;; napi_throws    (* the string, the error *)
  | CompleteCheckpoint => mret tt
  end.

(** An exception inside [callResolve] or [callReject] does not leave them. *)
Definition complete_work (c : completion) (cancelled : bool) : WM unit :=
  deleteAsyncWork;;
  (if cancelled then mret tt
   else
     match c with CompleteClear => napi_throws | _ => mret tt end;;
     ok ← gets ws_ok;
     if ok : bool then napi_throws;; catch callResolve (fun _ => mret tt)
     else create_error c;; catch callReject (fun _ => mret tt));;
  delete_state.
End work.

(** Work that was queued with both references and has run, or was cancelled. *)
Definition queued_work (ok completed : bool) (h : AsyncWorkHandle) (n : nat) : WorkState :=
  mkWork true true true ok completed true h [] 2 true n.

(** Run up to the next answer of the runtime, and take both. *)
Ltac napi_cases napi :=
  cbv -[unregisterWork];
  repeat match goal with |- context [napi ?k] => destruct (napi k) eqn:?; cbv -[unregisterWork] end.

(** The promise of a piece of work is settled at most once, by the function its
    status chooses; exactly once, with both references deleted and the state gone,
    when the runtime answers every call; and a run through the whole callback has
    counted the work down exactly once, whether or not it had executed. *)
Theorem settled_once napi c cancelled ok completed h n :
  let '(r, w) := complete_work napi c cancelled (queued_work ok completed h n) in
  (ws_settled w = [] \/ (ws_settled w = [ok] /\ cancelled = false)) /\
  (cancelled = false -> (forall i, napi i = true) -> r = inr tt /\ ws_settled w = [ok] /\ ws_refs w = 0 /\ ws_alive w = false) /\
  (r = inr tt -> ws_handle w = if completed then h else unregisterWork h).
Proof.
  destruct c, cancelled, ok, completed; napi_cases napi;
    (split; [tauto|split; [intros ? Hall; try discriminate; first [repeat split; reflexivity|congruence]|intros ?; first [reflexivity|discriminate]]]).
Qed.
