(* ===== verification/AsyncWorkSystem.v ===== *)
(** * Work, close and teardown

    The asynchronous methods of one database handle ([Clear], [Compact], [Flush],
    [Get], [Backup], [CreateCheckpoint]), the operations that hold an
    [OperationGuard], [DBHandle::close], and the teardown [DBDescriptor::finishClose]
    with its wait for the operations in flight, as threads that interleave.  One
    session of the handle is considered: it is not opened again. *)

From S2P Require Import Prelude AsyncWork.
From stdpp Require Import base tactics list list_numbers.
From Stdlib Require Import ZArith Lia.

Local Open Scope Z_scope.

(** ** State *)

(** [WWork]: clear, compact and flush. *)
Inductive wkind := WWork | WGet | WBackup | WCheckpoint.

#[export] Instance wkind_eq_dec : EqDecision wkind.
Proof. solve_decision. Defined.

(** [Database::Get] does not call [registerAsyncWork]; the others do. *)
Definition registers (k : wkind) : bool := match k with WGet => false | _ => true end.

Inductive wstage :=
| TClaimed      (* a checkpoint that has counted itself and not yet looked at the closing flag *)
| TQueued
| TRunning      (* the worker passed its test and uses the database *)
| TExecuted
| TLeaked.      (* napi_queue_async_work failed *)

Record item := mkItem { it_kind : wkind; it_stage : wstage; it_completed : bool }.

Inductive gstage := GClaimed | GInside.

Inductive cstage := CStart | CLoop | CWaited.
(** A call of [DBHandle::close]; the flag: made by [finishClose]. *)
Record closer := mkCloser { cl_stage : cstage; cl_fin : bool }.

Inductive fstage := FNone | FWait | FTear | FClosing | FDone.

Record hstate := mkH { hs_work : AsyncWorkHandle; hs_desc : bool; hs_attached : bool }.
Record dstate := mkD { ds_ops : Z; ds_closing : bool; ds_db : bool; ds_fin : fstage }.

Record wsys := mkW {
  w_h : hstate;
  w_d : dstate;
  w_items : list item;
  w_guards : list gstage;
  w_closers : list closer;
  w_timed : bool;       (* a close gave up waiting *)
  w_lost : nat;         (* claims of checkpoints that were cancelled *)
  w_gets : nat          (* calls of [Database::Get] so far *)
}.

(** ** Atomic actions *)

Definition take_claim (d : dstate) : dstate := mkD (u32 (ds_ops d + 1)) (ds_closing d) (ds_db d) (ds_fin d).
Definition unclaim (d : dstate) : dstate := mkD (u32 (ds_ops d - 1)) (ds_closing d) (ds_db d) (ds_fin d).
Definition with_fin (f : fstage) (d : dstate) : dstate := mkD (ds_ops d) (ds_closing d) (ds_db d) f.
Definition with_work (f : AsyncWorkHandle -> AsyncWorkHandle) (h : hstate) : hstate :=
  mkH (f (hs_work h)) (hs_desc h) (hs_attached h).

(** [DBHandle::opened] *)
Definition handle_open (h : hstate) (d : dstate) : bool := hs_desc h && ds_db d.

(** The test at the start of the execute callback. *)
Definition may_execute (k : wkind) (h : hstate) (d : dstate) : bool :=
  match k with
  | WWork | WGet => handle_open h d && negb (ah_cancelled (hs_work h))
  | WBackup | WCheckpoint => negb (ah_cancelled (hs_work h))
  end.

Definition register_item (k : wkind) (h : hstate) : hstate := if registers k then with_work registerWork h else h.

(** [signalExecuteCompleted] *)
Definition signal (completed : bool) (h : hstate) : hstate := if completed then h else with_work unregisterWork h.

(** A worker that is done gives back the claim of a checkpoint. *)
Definition give_back (k : wkind) (d : dstate) : dstate := match k with WCheckpoint => unclaim d | _ => d end.

(** The start of [DBHandle::close]. *)
Definition start_close (h : hstate) : hstate := mkH (cancelAllAsyncWork (hs_work h)) (hs_desc h) false.

(** ** Steps *)

Definition count_get (k : wkind) (g : nat) : nat := match k with WGet => S g | _ => g end.

Inductive w_step : wsys -> wsys -> Prop :=
| w_start h d I G C t l g k st : k <> WCheckpoint -> handle_open h d = true -> st = TQueued \/ st = TLeaked ->
    w_step (mkW h d I G C t l g) (mkW (register_item k h) d (mkItem k st false :: I) G C t l (count_get k g))
| w_claim h d I G C t l g : handle_open h d = true ->
    w_step (mkW h d I G C t l g) (mkW h (take_claim d) (mkItem WCheckpoint TClaimed false :: I) G C t l g)
| w_bail h d I I' G C t l g : I ≡ₚ mkItem WCheckpoint TClaimed false :: I' -> ds_closing d = true ->
    w_step (mkW h d I G C t l g) (mkW h (unclaim d) I' G C t l g)
| w_go h d I I' G C t l g : I ≡ₚ mkItem WCheckpoint TClaimed false :: I' -> ds_closing d = false ->
    w_step (mkW h d I G C t l g) (mkW (register_item WCheckpoint h) d (mkItem WCheckpoint TQueued false :: I') G C t l g)
| w_go_leak h d I I' G C t l g : I ≡ₚ mkItem WCheckpoint TClaimed false :: I' -> ds_closing d = false ->
    w_step (mkW h d I G C t l g) (mkW (register_item WCheckpoint h) (unclaim d) (mkItem WCheckpoint TLeaked false :: I') G C t l g)
| w_execute h d I I' G C t l g k b : I ≡ₚ mkItem k TQueued b :: I' -> may_execute k h d = true ->
    w_step (mkW h d I G C t l g) (mkW h d (mkItem k TRunning b :: I') G C t l g)
| w_refuse h d I I' G C t l g k b : I ≡ₚ mkItem k TQueued b :: I' -> may_execute k h d = false ->
    w_step (mkW h d I G C t l g) (mkW (signal b h) (give_back k d) (mkItem k TExecuted true :: I') G C t l g)
| w_executed h d I I' G C t l g k b : I ≡ₚ mkItem k TRunning b :: I' ->
    w_step (mkW h d I G C t l g) (mkW (signal b h) (give_back k d) (mkItem k TExecuted true :: I') G C t l g)
| w_complete h d I I' G C t l g k b : I ≡ₚ mkItem k TExecuted b :: I' ->
    w_step (mkW h d I G C t l g) (mkW (signal b h) d I' G C t l g)
| w_cancelled h d I I' G C t l g k b : I ≡ₚ mkItem k TQueued b :: I' ->
    w_step (mkW h d I G C t l g) (mkW (signal b h) d I' G C t (if decide (k = WCheckpoint) then S l else l) g)
(* ACQUIRE_OPERATIONS_LOCK and the end of its scope *)
| w_guard h d I G C t l g : hs_desc h = true -> w_step (mkW h d I G C t l g) (mkW h (take_claim d) I (GClaimed :: G) C t l g)
| w_guard_bail h d I G G' C t l g : G ≡ₚ GClaimed :: G' -> hs_desc h = true -> ds_closing d = true ->
    w_step (mkW h d I G C t l g) (mkW h (unclaim d) I G' C t l g)
| w_guard_in h d I G G' C t l g : G ≡ₚ GClaimed :: G' -> hs_desc h = true -> ds_closing d = false ->
    w_step (mkW h d I G C t l g) (mkW h d I (GInside :: G') C t l g)
| w_guard_out h d I G G' C t l g : G ≡ₚ GInside :: G' -> w_step (mkW h d I G C t l g) (mkW h (unclaim d) I G' C t l g)
(* DBHandle::close *)
| c_start h d I G C t l g : hs_desc h = true ->
    w_step (mkW h d I G C t l g) (mkW (start_close h) d I G (mkCloser CStart false :: C) t l g)
| c_nothing h d I G C C' t l g f : C ≡ₚ mkCloser CStart f :: C' -> ah_active (hs_work h) <= 0 ->
    w_step (mkW h d I G C t l g) (mkW h d I G (mkCloser CWaited f :: C') t l g)
| c_loop h d I G C C' t l g f : C ≡ₚ mkCloser CStart f :: C' -> 0 < ah_active (hs_work h) ->
    w_step (mkW h d I G C t l g) (mkW h d I G (mkCloser CLoop f :: C') t l g)
| c_completed h d I G C C' t l g f : C ≡ₚ mkCloser CLoop f :: C' -> ah_active (hs_work h) = 0 ->
    w_step (mkW h d I G C t l g) (mkW h d I G (mkCloser CWaited f :: C') t l g)
| c_timeout h d I G C C' t l g f : C ≡ₚ mkCloser CLoop f :: C' ->
    w_step (mkW h d I G C t l g) (mkW h d I G (mkCloser CWaited f :: C') true l g)
| c_release h d I G C C' t l g f : C ≡ₚ mkCloser CWaited f :: C' ->
    w_step (mkW h d I G C t l g)
      (mkW (mkH (hs_work h) false (hs_attached h)) (if f then with_fin FTear d else d) I G C' t l g)
(* DBDescriptor::finishClose *)
| f_begin h d I G C t l g : ds_fin d = FNone ->
    w_step (mkW h d I G C t l g) (mkW h (mkD (ds_ops d) true (ds_db d) FWait) I G C t l g)
| f_waited h d I G C t l g : ds_fin d = FWait -> ds_ops d = 0 ->
    w_step (mkW h d I G C t l g) (mkW h (with_fin FTear d) I G C t l g)
| f_handle h d I G C t l g : ds_fin d = FTear -> hs_attached h = true ->
    w_step (mkW h d I G C t l g) (mkW (start_close h) (with_fin FClosing d) I G (mkCloser CStart true :: C) t l g)
| f_reset h d I G C t l g : ds_fin d = FTear -> hs_attached h = false ->
    w_step (mkW h d I G C t l g) (mkW h (mkD (ds_ops d) (ds_closing d) false FDone) I G C t l g).

(** The handle was just opened. *)
Definition w_init : wsys := mkW (mkH (mkAsyncWorkHandle false 0) true true) (mkD 0 false true FNone) [] [] [] false 0 0.

(** Fewer than 2^31 operations at a time. *)
Definition few (y : wsys) : Prop := Z.of_nat (length (w_items y) + length (w_guards y) + w_lost y) < 2 ^ 31.

Inductive w_reachable : wsys -> Prop :=
| wr_init : w_reachable w_init
| wr_step y y' : w_reachable y -> w_step y y' -> few y' -> w_reachable y'.
