(* ===== verification/AsyncWorkProofs.v ===== *)
(** * A close waits for the work

    Invariants of [AsyncWorkSystem]: the count of a handle is the number of its
    pieces of work that are not done less the reads, and the count of a descriptor is the number of
    operations that hold it. *)

From S2P Require Import Prelude AsyncWork AsyncWorkSystem.
From stdpp Require Import base tactics list list_numbers.
From Stdlib Require Import ZArith Lia.

Local Open Scope Z_scope.

(** ** The count of work *)

(** Work that has not counted itself down yet. *)
Definition open_work (it : item) : nat :=
  match it_stage it with TClaimed => 0%nat | _ => if it_completed it then 0%nat else 1%nat end.

Definition item_ok (it : item) : Prop := it_completed it = true <-> it_stage it = TExecuted.

Definition close_released (y : wsys) : Prop := hs_desc (w_h y) = false \/ exists f, mkCloser CWaited f ∈ w_closers y.

Record work_ok (y : wsys) : Prop := {
  wo_items : Forall item_ok (w_items y);
  wo_count : ah_active (hs_work (w_h y)) = i32 (Z.of_nat (sum_list_with open_work (w_items y)) - Z.of_nat (w_gets y));
  wo_cancelled : hs_desc (w_h y) = false \/ w_closers y <> [] -> ah_cancelled (hs_work (w_h y)) = true;
  wo_released : w_timed y = false -> w_gets y = O -> close_released y -> Forall (fun it => it_stage it <> TRunning) (w_items y)
}.

Lemma i32_up n g : i32 (i32 (Z.of_nat n - Z.of_nat g) + 1) = i32 (Z.of_nat (S n) - Z.of_nat g).
Proof. rewrite i32_add. f_equal. lia. Qed.

Lemma i32_down n g : i32 (i32 (Z.of_nat (S n) - Z.of_nat g) - 1) = i32 (Z.of_nat n - Z.of_nat g).
Proof. rewrite <- Z.add_opp_r, i32_add. f_equal. lia. Qed.

Lemma open_work_le I : (sum_list_with open_work I <= length I)%nat.
Proof.
  induction I as [|it I IH]; [reflexivity|]. cbn. unfold open_work at 1. destruct (it_stage it), (it_completed it); lia.
Qed.

(** One item changes, or comes, or goes. *)
Lemma work_swap h h' d d' I I' G G' C t l g l' old new {g'} :
  I ≡ₚ old ++ I' -> Forall item_ok new -> hs_desc h' = hs_desc h -> ah_cancelled (hs_work h') = ah_cancelled (hs_work h) ->
  (forall n, ah_active (hs_work h) = i32 (Z.of_nat (sum_list_with open_work old + n) - Z.of_nat g) ->
     ah_active (hs_work h') = i32 (Z.of_nat (sum_list_with open_work new + n) - Z.of_nat g')) ->
  ah_cancelled (hs_work h) = false \/ Forall (fun it => it_stage it <> TRunning) new -> (g' = O -> g = O) ->
  work_ok (mkW h d I G C t l g) -> work_ok (mkW h' d' (new ++ I') G' C t l' g').
Proof.
  intros E Hn Ed Ec Ha Hrun Hgg [Hi Hc Hx Hr]. cbn in Hi, Hc, Hx, Hr. unfold close_released in Hr. cbn in Hr.
  rewrite E in Hi, Hc. apply Forall_app in Hi as (_ & Hi). rewrite sum_list_with_app in Hc.
  constructor; cbn; unfold close_released; cbn; rewrite ?Ed, ?Ec.
  - apply Forall_app. split; assumption.
  - rewrite sum_list_with_app. apply Ha, Hc.
  - exact Hx.
  - intros Ht Hg0 Hre. specialize (Hr Ht (Hgg Hg0) Hre). rewrite E in Hr. apply Forall_app in Hr as (_ & Hr). apply Forall_app. split; [|exact Hr].
    destruct Hrun as [Hca|Hrun]; [|exact Hrun]. rewrite Hx in Hca; [discriminate Hca|].
    destruct Hre as [->|(f & Hf)]; [left; reflexivity|right; intros ->; apply not_elem_of_nil in Hf; exact Hf].
Qed.

Lemma may_execute_cancelled k h d : may_execute k h d = true -> ah_cancelled (hs_work h) = false.
Proof. unfold may_execute, handle_open. destruct k, (ah_cancelled (hs_work h)), (hs_desc h), (ds_db d); cbn; congruence. Qed.

(** The handle's part of a close. *)
Lemma work_close h h' d d' I G C C' t t' l g :
  work_ok (mkW h d I G C t l g) -> ah_active (hs_work h') = ah_active (hs_work h) -> ah_cancelled (hs_work h') = true ->
  (t' = false -> g = O -> close_released (mkW h' d' I G C' t' l g) ->
     t = false /\ (close_released (mkW h d I G C t l g) \/ sum_list_with open_work I = O)) ->
  work_ok (mkW h' d' I G C' t' l g).
Proof.
  intros [Hi Hc Hx Hr] Ea Eca Hrel. cbn in Hi, Hc, Hx, Hr. constructor; cbn; [exact Hi|rewrite Ea; exact Hc|intros _; exact Eca|].
  intros Ht Hg0 Hre. destruct (Hrel Ht Hg0 Hre) as (Ht0 & [H|H]); [exact (Hr Ht0 Hg0 H)|].
  apply Forall_forall. intros it Hit Hst. assert (Ho : open_work it = 1%nat).
  { rewrite Forall_forall in Hi. unfold open_work. rewrite Hst. destruct (it_completed it) eqn:Eb; [|reflexivity].
    apply (Hi it Hit) in Eb. congruence. }
  pose proof (sum_list_with_in it open_work I Hit). lia.
Qed.

Lemma item_ok_of h d I I' G C t l g it : work_ok (mkW h d I G C t l g) -> I ≡ₚ it :: I' -> item_ok it.
Proof. intros [Hi _ _ _] E. cbn in Hi. rewrite E in Hi. apply Forall_cons in Hi as (Hi & _). exact Hi. Qed.

Lemma queued_open h d I I' G C t l g k st b : work_ok (mkW h d I G C t l g) -> I ≡ₚ mkItem k st b :: I' -> st <> TExecuted -> b = false.
Proof.
  intros Hw E Hst. pose proof (item_ok_of _ _ _ _ _ _ _ _ _ _ Hw E) as [H _]. cbn in H. destruct b; [destruct (Hst (H eq_refl))|reflexivity].
Qed.

Lemma closer_cancelled h d I G C C' t l g c : work_ok (mkW h d I G C t l g) -> C ≡ₚ c :: C' -> ah_cancelled (hs_work h) = true.
Proof.
  intros Hw E. apply (wo_cancelled _ Hw). right. cbn. intros ->. apply Permutation_nil_cons in E. exact E.
Qed.

(** Facts about a list of at most one item. *)
Ltac one_item := repeat constructor; unfold item_ok; cbn; try split; try discriminate; try tauto.

Lemma work_ok_step y y' : work_ok y -> w_step y y' -> few y -> work_ok y'.
Proof.
  intros Hw Hs Hf. assert (Hsmall : Z.of_nat (sum_list_with open_work (w_items y)) < 2 ^ 31).
  { unfold few in Hf. pose proof (open_work_le (w_items y)). lia. }
  assert (Hzero : w_gets y = O -> ah_active (hs_work (w_h y)) <= 0 -> sum_list_with open_work (w_items y) = O).
  { intros Hg0. rewrite (wo_count _ Hw), Hg0, i32_small by lia. lia. }
  destruct Hs as [h d I G C t l g k st Hk Ho Hst|h d I G C t l g Ho|h d I I' G C t l g E Hcl|h d I I' G C t l g E Hcl
    |h d I I' G C t l g E Hcl|h d I I' G C t l g k b E Hm|h d I I' G C t l g k b E Hm|h d I I' G C t l g k b E|h d I I' G C t l g k b E
    |h d I I' G C t l g k b E|h d I G C t l g Hd|h d I G G' C t l g E Hd Hcl|h d I G G' C t l g E Hd Hcl|h d I G G' C t l g E
    |h d I G C t l g Hd|h d I G C C' t l g f E Ha|h d I G C C' t l g f E Ha|h d I G C C' t l g f E Ha|h d I G C C' t l g f E
    |h d I G C C' t l g f E|h d I G C t l g Hfin|h d I G C t l g Hfin Hops|h d I G C t l g Hfin Hat|h d I G C t l g Hfin Hat];
    cbn [w_h w_items w_gets] in Hsmall, Hzero.
  - (* w_start *)
    apply (work_swap h _ d _ I I G _ C t l g _ [] [mkItem k st false]);
      [reflexivity| |unfold register_item; destruct (registers k); reflexivity..| |right|destruct k; [auto|discriminate|auto..]|exact Hw].
    + destruct Hst as [->| ->]; one_item.
    + intros n Hn. replace (sum_list_with open_work [mkItem k st false] + n)%nat with (S n) by (destruct Hst as [->| ->]; reflexivity).
      destruct k; cbn in *; rewrite Hn; try apply i32_up; f_equal; lia.
    + destruct Hst as [->| ->]; one_item.
  - (* w_claim *) apply (work_swap h h d _ I I G _ C t l g _ [] [mkItem WCheckpoint TClaimed false]);
      [reflexivity|one_item|reflexivity|reflexivity|intros n H; exact H|right; one_item|auto|exact Hw].
  - (* w_bail *) apply (work_swap h h d _ I I' G _ C t l g _ [mkItem WCheckpoint TClaimed false] []);
      [exact E|constructor|reflexivity|reflexivity|intros n H; exact H|right; constructor|auto|exact Hw].
  - (* w_go *) apply (work_swap h _ d _ I I' G _ C t l g _ [mkItem WCheckpoint TClaimed false] [mkItem WCheckpoint TQueued false]);
      [exact E|one_item|reflexivity|reflexivity|intros n H; cbn in *; rewrite H; apply i32_up|right; one_item|auto|exact Hw].
  - (* w_go_leak *) apply (work_swap h _ d _ I I' G _ C t l g _ [mkItem WCheckpoint TClaimed false] [mkItem WCheckpoint TLeaked false]);
      [exact E|one_item|reflexivity|reflexivity|intros n H; cbn in *; rewrite H; apply i32_up|right; one_item|auto|exact Hw].
  - (* w_execute *) assert (b = false) as -> by (eapply queued_open; [exact Hw|exact E|discriminate]).
    apply (work_swap h h d _ I I' G _ C t l g _ [mkItem k TQueued false] [mkItem k TRunning false]);
      [exact E|one_item|reflexivity|reflexivity|intros n H; exact H|left; exact (may_execute_cancelled _ _ _ Hm)|auto|exact Hw].
  - (* w_refuse *) assert (b = false) as -> by (eapply queued_open; [exact Hw|exact E|discriminate]).
    apply (work_swap h _ d _ I I' G _ C t l g _ [mkItem k TQueued false] [mkItem k TExecuted true]);
      [exact E|one_item|reflexivity|reflexivity|intros n H; cbn in *; rewrite H; apply i32_down|right; one_item|auto|exact Hw].
  - (* w_executed *) assert (b = false) as -> by (eapply queued_open; [exact Hw|exact E|discriminate]).
    apply (work_swap h _ d _ I I' G _ C t l g _ [mkItem k TRunning false] [mkItem k TExecuted true]);
      [exact E|one_item|reflexivity|reflexivity|intros n H; cbn in *; rewrite H; apply i32_down|right; one_item|auto|exact Hw].
  - (* w_complete *) assert (b = true) as -> by (apply (item_ok_of _ _ _ _ _ _ _ _ _ _ Hw E); reflexivity).
    apply (work_swap h h d _ I I' G _ C t l g _ [mkItem k TExecuted true] []);
      [exact E|constructor|reflexivity|reflexivity|intros n H; exact H|right; constructor|auto|exact Hw].
  - (* w_cancelled *) assert (b = false) as -> by (eapply queued_open; [exact Hw|exact E|discriminate]).
    apply (work_swap h _ d _ I I' G _ C t l g _ [mkItem k TQueued false] []);
      [exact E|constructor|reflexivity|reflexivity|intros n H; cbn in *; rewrite H; apply i32_down|right; constructor|auto|exact Hw].
  - destruct Hw; constructor; assumption.
  - destruct Hw; constructor; assumption.
  - destruct Hw; constructor; assumption.
  - destruct Hw; constructor; assumption.
  - (* c_start *) eapply work_close; [exact Hw|reflexivity|reflexivity|]. intros -> Hg0. intros [H|(f & [[=]|H]%elem_of_cons)]; cbn in H;
      (split; [reflexivity|left]); [left; exact H|right; eauto].
  - (* c_nothing *) eapply work_close; [exact Hw|reflexivity| |].
    { exact (closer_cancelled _ _ _ _ _ _ _ _ _ _ Hw E). }
    intros -> Hg0. intros _. split; [reflexivity|right; apply Hzero; [exact Hg0|exact Ha]].
  - (* c_loop *) eapply work_close; [exact Hw|reflexivity| |].
    { exact (closer_cancelled _ _ _ _ _ _ _ _ _ _ Hw E). }
    intros -> Hg0. intros [H|(f' & [[=]|H]%elem_of_cons)]; cbn in H; (split; [reflexivity|left]); [left; exact H|].
    right. exists f'. cbn. rewrite E. apply list_elem_of_further, H.
  - (* c_completed *) eapply work_close; [exact Hw|reflexivity| |].
    { exact (closer_cancelled _ _ _ _ _ _ _ _ _ _ Hw E). }
    intros -> Hg0. intros _. split; [reflexivity|right; apply Hzero; [exact Hg0|lia]].
  - (* c_timeout *) eapply work_close; [exact Hw|reflexivity| |intros [=]].
    exact (closer_cancelled _ _ _ _ _ _ _ _ _ _ Hw E).
  - (* c_release *) eapply work_close; [exact Hw|reflexivity| |].
    { exact (closer_cancelled _ _ _ _ _ _ _ _ _ _ Hw E). }
    intros -> Hg0. intros _. split; [reflexivity|left]. right. exists f. cbn. rewrite E. apply list_elem_of_here.
  - destruct Hw; constructor; assumption.
  - destruct Hw; constructor; assumption.
  - (* f_handle *) eapply work_close; [exact Hw|reflexivity|reflexivity|]. intros -> Hg0. intros [H|(f & [[=]|H]%elem_of_cons)]; cbn in H;
      (split; [reflexivity|left]); [left; exact H|right; eauto].
  - destruct Hw; constructor; assumption.
Qed.

(** ** The operations in flight *)

Definition claims (it : item) : nat :=
  match it_kind it, it_stage it with WCheckpoint, (TClaimed | TQueued | TRunning) => 1%nat | _, _ => 0%nat end.

(** Past the test of the closing flag. *)
Definition passed (it : item) : Prop := it_kind it = WCheckpoint /\ (it_stage it = TQueued \/ it_stage it = TRunning).

Definition tearing (f : fstage) : bool := match f with FTear | FClosing | FDone => true | _ => false end.

Definition by_fin (c : closer) : nat := if cl_fin c then 1%nat else 0%nat.

Record claims_ok (y : wsys) : Prop := {
  co_ops : ds_ops (w_d y) = u32 (Z.of_nat (sum_list_with claims (w_items y) + length (w_guards y) + w_lost y));
  co_closing : ds_closing (w_d y) = false -> ds_fin (w_d y) = FNone;
  co_tearing : tearing (ds_fin (w_d y)) = true -> Forall (fun it => ~ passed it) (w_items y) /\ GInside ∉ w_guards y;
  co_db : ds_db (w_d y) = false -> ds_fin (w_d y) = FDone;
  co_fin : sum_list_with by_fin (w_closers y) = match ds_fin (w_d y) with FClosing => 1%nat | _ => 0%nat end
}.

Lemma u32_up n m : n = S m -> u32 (u32 (Z.of_nat m) + 1) = u32 (Z.of_nat n).
Proof. intros ->. unfold u32. rewrite Z.add_mod_idemp_l by lia. f_equal. lia. Qed.

Lemma u32_down n m : m = S n -> u32 (u32 (Z.of_nat m) - 1) = u32 (Z.of_nat n).
Proof. intros ->. unfold u32. rewrite Zminus_mod_idemp_l. f_equal. lia. Qed.

Lemma claims_le I : (sum_list_with claims I <= length I)%nat.
Proof. induction I as [|it I IH]; [reflexivity|]. cbn. unfold claims at 1. destruct (it_kind it), (it_stage it); lia. Qed.

Lemma claims_passed it : passed it -> claims it = 1%nat.
Proof. intros (Hk & Hs). unfold claims. rewrite Hk. destruct Hs as [->| ->]; reflexivity. Qed.

(** Operations in flight change: items, guards and the count with them. *)
Lemma claims_swap h h' d d' I I' G G' C t l g l' old new gold gnew (G0 : list gstage) {g'} :
  I ≡ₚ old ++ I' -> G ≡ₚ gold ++ G0 -> G' = gnew ++ G0 ->
  ds_closing d' = ds_closing d -> ds_fin d' = ds_fin d -> ds_db d' = ds_db d ->
  (forall n, ds_ops d = u32 (Z.of_nat (sum_list_with claims old + length gold + l + n)) ->
     ds_ops d' = u32 (Z.of_nat (sum_list_with claims new + length gnew + l' + n))) ->
  (tearing (ds_fin d) = false \/ (Forall (fun it => ~ passed it) old -> Forall (fun it => ~ passed it) new /\ GInside ∉ gnew)) ->
  claims_ok (mkW h d I G C t l g) -> claims_ok (mkW h' d' (new ++ I') G' C t l' g').
Proof.
  intros E1 E2 -> Ec Ef Eb Ho Hp [H1 H2 H3 H4 H5]. cbn in *. rewrite E1, E2, sum_list_with_app, length_app in H1.
  constructor; cbn; rewrite ?Ec, ?Ef, ?Eb; [|exact H2| |exact H4|exact H5].
  - rewrite sum_list_with_app, length_app.
    replace (sum_list_with claims new + sum_list_with claims I' + (length gnew + length G0) + l')%nat
      with (sum_list_with claims new + length gnew + l' + (sum_list_with claims I' + length G0))%nat by lia.
    apply Ho. rewrite H1. do 2 f_equal. lia.
  - intros Ht. destruct Hp as [Hp|Hp]; [congruence|]. destruct (H3 Ht) as (Hi & Hg). rewrite E1 in Hi. apply Forall_app in Hi as (Hi1 & Hi2).
    destruct (Hp Hi1) as (Hn & Hgn). split; [apply Forall_app; split; assumption|]. rewrite E2 in Hg. rewrite not_elem_of_app in *. tauto.
Qed.

Lemma passed_tearing h d I I' G C t l g it : claims_ok (mkW h d I G C t l g) -> I ≡ₚ it :: I' -> passed it -> tearing (ds_fin d) = false.
Proof.
  intros [_ _ H3 _ _] E Hp. cbn in H3. destruct (tearing (ds_fin d)); [|reflexivity]. destruct (H3 eq_refl) as (Hi & _).
  rewrite E in Hi. apply Forall_cons in Hi as (Hi & _). destruct (Hi Hp).
Qed.

Lemma open_tearing h d I G C t l g : claims_ok (mkW h d I G C t l g) -> ds_closing d = false -> tearing (ds_fin d) = false.
Proof. intros [_ H2 _ _ _] Hcl. cbn in H2. rewrite (H2 Hcl). reflexivity. Qed.

(** The handle, the closers and the timeout are of no concern to the claims. *)
Lemma claims_frame h h' d I G C C' t t' l g : sum_list_with by_fin C' = sum_list_with by_fin C ->
  claims_ok (mkW h d I G C t l g) -> claims_ok (mkW h' d I G C' t' l g).
Proof. intros E [H1 H2 H3 H4 H5]. constructor; cbn in *; try assumption; congruence. Qed.

Ltac no_pass := intros ?Hall; repeat constructor; try apply not_elem_of_nil;
  try match goal with H : Forall _ [_] |- _ => apply Forall_cons in H as (H & _) end; unfold passed in *; cbn in *; intuition congruence.

Lemma claims_ok_step y y' : claims_ok y -> w_step y y' -> few y -> claims_ok y'.
Proof.
  intros Hw Hs Hf.
  destruct Hs as [h d I G C t l g k st Hk Ho Hst|h d I G C t l g Ho|h d I I' G C t l g E Hcl|h d I I' G C t l g E Hcl
    |h d I I' G C t l g E Hcl|h d I I' G C t l g k b E Hm|h d I I' G C t l g k b E Hm|h d I I' G C t l g k b E|h d I I' G C t l g k b E
    |h d I I' G C t l g k b E|h d I G C t l g Hd|h d I G G' C t l g E Hd Hcl|h d I G G' C t l g E Hd Hcl|h d I G G' C t l g E
    |h d I G C t l g Hd|h d I G C C' t l g f E Ha|h d I G C C' t l g f E Ha|h d I G C C' t l g f E Ha|h d I G C C' t l g f E
    |h d I G C C' t l g f E|h d I G C t l g Hfin|h d I G C t l g Hfin Hops|h d I G C t l g Hfin Hat|h d I G C t l g Hfin Hat].
  - (* w_start *) refine (claims_swap h _ d d I I G G C t l g l [] [mkItem k st false] [] [] G _ _ _ _ _ _ _ _ Hw); try reflexivity.
    + intros n. destruct k; try congruence; cbn; auto.
    + right. intros _. split; [|apply not_elem_of_nil]. constructor; [|constructor]. intros (Hc & _). cbn in Hc. congruence.
  - (* w_claim *) refine (claims_swap h h d _ I I G G C t l g l [] [mkItem WCheckpoint TClaimed false] [] [] G _ _ _ _ _ _ _ _ Hw); try reflexivity.
    + intros n H. cbn [take_claim ds_ops]. rewrite H. apply u32_up. cbn. lia.
    + right. no_pass.
  - (* w_bail *) refine (claims_swap h h d _ I I' G G C t l g l [mkItem WCheckpoint TClaimed false] [] [] [] G E _ _ _ _ _ _ _ Hw); try reflexivity.
    + intros n H. cbn [unclaim ds_ops]. rewrite H. apply u32_down. cbn. lia.
    + right. no_pass.
  - (* w_go *) refine (claims_swap h _ d d I I' G G C t l g l [mkItem WCheckpoint TClaimed false] [mkItem WCheckpoint TQueued false] [] [] G E _ _ _ _ _ _ _ Hw); try reflexivity.
    + intros n H. exact H.
    + left. exact (open_tearing _ _ _ _ _ _ _ _ Hw Hcl).
  - (* w_go_leak *) refine (claims_swap h _ d _ I I' G G C t l g l [mkItem WCheckpoint TClaimed false] [mkItem WCheckpoint TLeaked false] [] [] G E _ _ _ _ _ _ _ Hw); try reflexivity.
    + intros n H. cbn [unclaim ds_ops]. rewrite H. apply u32_down. cbn. lia.
    + right. no_pass.
  - (* w_execute *) refine (claims_swap h h d d I I' G G C t l g l [mkItem k TQueued b] [mkItem k TRunning b] [] [] G E _ _ _ _ _ _ _ Hw); try reflexivity.
    + intros n H. destruct k; exact H.
    + right. no_pass.
  - (* w_refuse *) refine (claims_swap h _ d _ I I' G G C t l g l [mkItem k TQueued b] [mkItem k TExecuted true] [] [] G E _ _ _ _ _ _ _ Hw);
      try (destruct k; reflexivity).
    + intros n H. destruct k; [exact H..|]. cbn [give_back unclaim ds_ops]. rewrite H. apply u32_down. cbn. lia.
    + right. no_pass.
  - (* w_executed *) refine (claims_swap h _ d _ I I' G G C t l g l [mkItem k TRunning b] [mkItem k TExecuted true] [] [] G E _ _ _ _ _ _ _ Hw);
      try (destruct k; reflexivity).
    + intros n H. destruct k; [exact H..|]. cbn [give_back unclaim ds_ops]. rewrite H. apply u32_down. cbn. lia.
    + right. no_pass.
  - (* w_complete *) refine (claims_swap h _ d d I I' G G C t l g l [mkItem k TExecuted b] [] [] [] G E _ _ _ _ _ _ _ Hw); try reflexivity.
    + intros n H. destruct k; exact H.
    + right. no_pass.
  - (* w_cancelled *) refine (claims_swap h _ d d I I' G G C t l g _ [mkItem k TQueued b] [] [] [] G E _ _ _ _ _ _ _ Hw); try reflexivity.
    + intros n H. destruct k; cbn in *; rewrite H; reflexivity.
    + right. no_pass.
  - (* w_guard *) refine (claims_swap h h d _ I I G (GClaimed :: G) C t l g l [] [] [] [GClaimed] G _ _ _ _ _ _ _ _ Hw); try reflexivity.
    + intros n H. cbn [take_claim ds_ops]. rewrite H. apply u32_up. cbn. lia.
    + right. intros _. split; [constructor|]. intros Hg%list_elem_of_singleton. discriminate Hg.
  - (* w_guard_bail *) refine (claims_swap h h d _ I I G G' C t l g l [] [] [GClaimed] [] G' _ E _ _ _ _ _ _ Hw); try reflexivity.
    + intros n H. cbn [unclaim ds_ops]. rewrite H. apply u32_down. cbn. lia.
    + right. intros _. split; [constructor|apply not_elem_of_nil].
  - (* w_guard_in *) refine (claims_swap h h d d I I G (GInside :: G') C t l g l [] [] [GClaimed] [GInside] G' _ E _ _ _ _ _ _ Hw); try reflexivity.
    + intros n H. exact H.
    + left. exact (open_tearing _ _ _ _ _ _ _ _ Hw Hcl).
  - (* w_guard_out *) refine (claims_swap h h d _ I I G G' C t l g l [] [] [GInside] [] G' _ E _ _ _ _ _ _ Hw); try reflexivity.
    + intros n H. cbn [unclaim ds_ops]. rewrite H. apply u32_down. cbn. lia.
    + right. intros _. split; [constructor|apply not_elem_of_nil].
  - (* c_start *) revert Hw. apply claims_frame. reflexivity.
  - revert Hw. apply claims_frame. rewrite E. reflexivity.
  - revert Hw. apply claims_frame. rewrite E. reflexivity.
  - revert Hw. apply claims_frame. rewrite E. reflexivity.
  - revert Hw. apply claims_frame. rewrite E. reflexivity.
  - (* c_release *) pose proof Hw as [H1 H2 H3 H4 H5]. cbn in *. rewrite E in H5. cbn in H5.
    destruct f; [|constructor; cbn; assumption]. cbn in H5.
    destruct (ds_fin d) eqn:Ed; try discriminate H5.
    constructor; cbn; [exact H1|intros Hcl; discriminate (H2 Hcl)|exact H3|intros Hdb; discriminate (H4 Hdb)|lia].
  - (* f_begin *) destruct Hw as [H1 H2 H3 H4 H5]. cbn in *. rewrite Hfin in *.
    constructor; cbn; [exact H1|discriminate|discriminate|intros Hdb; discriminate (H4 Hdb)|exact H5].
  - (* f_waited *) pose proof Hw as [H1 H2 H3 H4 H5]. cbn in *. rewrite Hfin in *.
    assert (Hz : (sum_list_with claims I + length G + l)%nat = O).
    { unfold few in Hf. cbn in Hf. pose proof (claims_le I). rewrite Hops in H1. symmetry in H1.
      rewrite u32_small in H1 by (split; lia). lia. }
    constructor; cbn; [exact H1|intros Hcl; discriminate (H2 Hcl)| |intros Hdb; discriminate (H4 Hdb)|exact H5].
    intros _. split; [|destruct G; [apply not_elem_of_nil|cbn in Hz; lia]].
    apply Forall_forall. intros it Hit Hp%claims_passed. pose proof (sum_list_with_in it claims I Hit). lia.
  - (* f_handle *) destruct Hw as [H1 H2 H3 H4 H5]. cbn in *. rewrite Hfin in *.
    constructor; cbn; [exact H1|intros Hcl; discriminate (H2 Hcl)|exact H3|intros Hdb; discriminate (H4 Hdb)|lia].
  - (* f_reset *) destruct Hw as [H1 H2 H3 H4 H5]. cbn in *. rewrite Hfin in *.
    constructor; cbn; [exact H1|intros Hcl; discriminate (H2 Hcl)|exact H3|reflexivity|exact H5].
Qed.

(** ** Every reachable state *)

Lemma w_reachable_few y : w_reachable y -> few y.
Proof. destruct 1 as [|y y' _ _ H]; [unfold few; cbn; lia|exact H]. Qed.

Lemma w_reachable_work y : w_reachable y -> work_ok y.
Proof.
  induction 1 as [|y y' Hr IH Hs _]; [|eapply work_ok_step; [exact IH|exact Hs|exact (w_reachable_few _ Hr)]].
  constructor; cbn; [constructor|reflexivity|intros [H|H]; [discriminate H|destruct (H eq_refl)]|constructor].
Qed.

Lemma w_reachable_claims y : w_reachable y -> claims_ok y.
Proof.
  induction 1 as [|y y' Hr IH Hs _]; [|eapply claims_ok_step; [exact IH|exact Hs|exact (w_reachable_few _ Hr)]].
  constructor; cbn; [reflexivity|reflexivity|discriminate|discriminate|reflexivity].
Qed.

(** C22: a close waits for the work.  In every interleaving of clears, compactions,
    flushes, reads, backups and checkpoints with the closes of their handle and the
    teardown of the database, the count of the handle is the number of pieces of work
    not done less the number of calls of [Database::Get], which counts itself down and
    never up.  As long as no asynchronous [Get] was called on the handle and no close
    gave up after its five seconds, no worker is at work on the database from the
    moment a close stops waiting: the references the close then drops are not in use.
    With a [Get] this fails ([get_outlives_close], [get_unbalances_count]). *)
Theorem close_waits y : w_reachable y ->
  ah_active (hs_work (w_h y)) = i32 (Z.of_nat (sum_list_with open_work (w_items y)) - Z.of_nat (w_gets y)) /\
  (w_gets y = O -> ah_active (hs_work (w_h y)) = Z.of_nat (sum_list_with open_work (w_items y))) /\
  (w_gets y = O -> w_timed y = false -> close_released y -> Forall (fun it => it_stage it <> TRunning) (w_items y)).
Proof.
  intros Hr. pose proof (w_reachable_few _ Hr) as Hf. apply w_reachable_work in Hr as [Hi Hc Hx Hw].
  split; [exact Hc|]. split; [|intros Hg0 Ht Hre; exact (Hw Ht Hg0 Hre)]. intros Hg0.
  rewrite Hc, Hg0, Z.sub_0_r. apply i32_small. unfold few in Hf. pose proof (open_work_le (w_items y)). lia.
Qed.

(** An operation that counted itself and found the database not closing. *)
Definition db_in_use (y : wsys) : Prop :=
  GInside ∈ w_guards y \/ exists it, it ∈ w_items y /\ it_kind it = WCheckpoint /\ it_stage it = TRunning.

(** C21: an operation in flight keeps the database.  While a guarded operation or a
    checkpoint is inside, the teardown does not close the RocksDB instance, whatever
    the order of the increments, the tests of the closing flag and the waits, and even
    when a close of the handle timed out. *)
Theorem operations_keep_db y : w_reachable y -> db_in_use y -> ds_db (w_d y) = true.
Proof.
  intros Hr Hu. apply w_reachable_claims in Hr as [_ _ H3 H4 _]. destruct (ds_db (w_d y)) eqn:Ed; [reflexivity|].
  rewrite (H4 eq_refl) in H3. destruct (H3 eq_refl) as (Hi & Hg). destruct Hu as [H|(it & Hit & Hk & Hs)]; [destruct (Hg H)|].
  rewrite Forall_forall in Hi. destruct (Hi it Hit). unfold passed. auto.
Qed.

(** ** Runs *)

(** Add a step to a run. *)
Tactic Notation "then_step" hyp(H) uconstr(s) :=
  eapply wr_step in H; [|eapply s; try reflexivity; try discriminate; try (cbn; lia); auto|first [unfold few; cbn; lia|vm_compute; reflexivity]].

Definition flush_item (st : wstage) : item := mkItem WWork st false.

(** A flush is executed, then the handle is closed. *)
Definition flushed_and_closed : wsys :=
  mkW (mkH (mkAsyncWorkHandle true 0) false false) (mkD 0 false true FNone) [mkItem WWork TExecuted true] [] [] false 0 0.

Lemma flushed_and_closed_reachable : w_reachable flushed_and_closed.
Proof.
  pose proof (wr_init : w_reachable (mkW _ _ _ _ _ _ _ _)) as H. then_step H (w_start _ _ _ _ _ _ _ _ WWork TQueued).
  then_step H (w_execute _ _ _ [] _ _ _ _ _ WWork false). then_step H (c_start).
  then_step H (c_loop _ _ _ _ _ [] _ _ _ false). then_step H (w_executed _ _ _ [] _ _ _ _ _ WWork false).
  then_step H (c_completed _ _ _ _ _ [] _ _ _ false). then_step H (c_release _ _ _ _ _ [] _ _ _ false). exact H.
Qed.

Lemma close_waits_witness : w_gets flushed_and_closed = O /\ close_released flushed_and_closed /\
  Forall (fun it => it_stage it <> TRunning) (w_items flushed_and_closed).
Proof.
  split; [reflexivity|]. split; [left; reflexivity|].
  apply (proj2 (close_waits flushed_and_closed flushed_and_closed_reachable)); [reflexivity|reflexivity|left; reflexivity].
Defined.

(** A guarded operation inside while the database is being torn down. *)
Definition guarded_teardown : wsys :=
  mkW (mkH (mkAsyncWorkHandle false 0) true true) (mkD 1 true true FWait) [] [GInside] [] false 0 0.

Lemma operations_keep_db_witness : ds_db (w_d guarded_teardown) = true.
Proof.
  apply (operations_keep_db guarded_teardown); [|left; apply list_elem_of_here].
  pose proof (wr_init : w_reachable (mkW _ _ _ _ _ _ _ _)) as H. then_step H (w_guard).
  then_step H (w_guard_in _ _ _ _ [] _ _ _). then_step H (f_begin). exact H.
Defined.

(** [Database::Get] does not register: a close does not wait for it, and the handle's
    references are dropped under a read that is running. *)
Example get_outlives_close : exists y, w_reachable y /\ w_timed y = false /\ hs_desc (w_h y) = false /\
  mkItem WGet TRunning false ∈ w_items y.
Proof.
  pose proof (wr_init : w_reachable (mkW _ _ _ _ _ _ _ _)) as H. then_step H (w_start _ _ _ _ _ _ _ _ WGet TQueued).
  then_step H (w_execute _ _ _ [] _ _ _ _ _ WGet false). then_step H (c_start).
  then_step H (c_nothing _ _ _ _ _ [] _ _ _ false). then_step H (c_release _ _ _ _ _ [] _ _ _ false).
  eexists. split; [exact H|]. split_and!; [reflexivity..|apply list_elem_of_here].
Qed.

(** A [Get] that is done has counted itself down without having counted itself up:
    a later close does not wait for a flush that is running either. *)
Example get_unbalances_count : exists y, w_reachable y /\ w_timed y = false /\ hs_desc (w_h y) = false /\
  mkItem WWork TRunning false ∈ w_items y.
Proof.
  pose proof (wr_init : w_reachable (mkW _ _ _ _ _ _ _ _)) as H. then_step H (w_start _ _ _ _ _ _ _ _ WGet TQueued).
  then_step H (w_execute _ _ _ [] _ _ _ _ _ WGet false). then_step H (w_executed _ _ _ [] _ _ _ _ _ WGet false).
  then_step H (w_complete _ _ _ [] _ _ _ _ _ WGet true). then_step H (w_start _ _ _ _ _ _ _ _ WWork TQueued).
  then_step H (w_execute _ _ _ [] _ _ _ _ _ WWork false). then_step H (c_start).
  then_step H (c_nothing _ _ _ _ _ [] _ _ _ false). then_step H (c_release _ _ _ _ _ [] _ _ _ false).
  eexists. split; [exact H|]. split_and!; [reflexivity..|apply list_elem_of_here].
Qed.

(** A backup pins the descriptor but is not counted among the operations in flight: a
    teardown whose close of the handle gives up after five seconds closes the RocksDB
    instance under it. *)
Example backup_loses_database : exists y, w_reachable y /\ ds_db (w_d y) = false /\
  mkItem WBackup TRunning false ∈ w_items y.
Proof.
  pose proof (wr_init : w_reachable (mkW _ _ _ _ _ _ _ _)) as H. then_step H (w_start _ _ _ _ _ _ _ _ WBackup TQueued).
  then_step H (w_execute _ _ _ [] _ _ _ _ _ WBackup false). then_step H (f_begin). then_step H (f_waited).
  then_step H (f_handle). then_step H (c_loop _ _ _ _ _ [] _ _ _ true). then_step H (c_timeout _ _ _ _ _ [] _ _ _ true).
  then_step H (c_release _ _ _ _ _ [] _ _ _ true). then_step H (f_reset).
  eexists. split; [exact H|]. split_and!; [reflexivity|apply list_elem_of_here].
Qed.

(** [ACQUIRE_OPERATIONS_LOCK] counts the operation and then reads the descriptor of
    the handle again: a teardown past its wait can have dropped it by then. *)
Example guard_reads_dropped_descriptor : exists y, w_reachable y /\ hs_desc (w_h y) = false /\ GClaimed ∈ w_guards y.
Proof.
  pose proof (wr_init : w_reachable (mkW _ _ _ _ _ _ _ _)) as H. then_step H (f_begin). then_step H (f_waited).
  then_step H (w_guard). then_step H (f_handle). then_step H (c_nothing _ _ _ _ _ [] _ _ _ true).
  then_step H (c_release _ _ _ _ _ [] _ _ _ true).
  eexists. split; [exact H|]. split_and!; [reflexivity|apply list_elem_of_here].
Qed.

(** A checkpoint that was cancelled before it ran never gives its claim back: nothing
    is in flight, and a teardown waits for ever. *)
Example cancelled_checkpoint_blocks_teardown : exists y, w_reachable y /\ w_items y = [] /\ w_guards y = [] /\
  ds_fin (w_d y) = FWait /\ ds_ops (w_d y) = 1.
Proof.
  pose proof (wr_init : w_reachable (mkW _ _ _ _ _ _ _ _)) as H. then_step H (w_claim).
  then_step H (w_go _ _ _ []). then_step H (w_cancelled _ _ _ [] _ _ _ _ _ WCheckpoint false). then_step H (f_begin).
  eexists. split; [exact H|]. split_and!; reflexivity.
Qed.
