(* ===== verification/FlushListener.v ===== *)
(** * Flush events

    [TransactionLogEventListener] of [database/db_descriptor.cpp]: RocksDB reports
    the flush of each column family of a flush job; the listener turns the events of
    a job into one [databaseFlushBegin] and one [databaseFlushed] on every log store
    of the database.

    The events come one at a time here; the listener itself takes no lock.  The
    descriptor is reached through a weak pointer: [None] when it is gone, otherwise
    the path of the database. *)

From S2P Require Import Prelude Encoding LogFormat Os LogFile LogStore StoreRegistry.
From stdpp Require Import base tactics list gmap strings.
From Stdlib Require Import ZArith Lia.

Local Open Scope Z_scope.

Record JobTracker := mkTracker {
  columnFamilyCount : Z;      (* int *)
  flushedSequence : Z         (* uint64_t *)
}.

(** The listener's map, and the registry it reaches. *)
Record FlushSt := mkFlushSt { fs_jobs : gmap Z JobTracker; fs_reg : Registry }.

Abbreviation FM := (M FlushSt).

Definition with_jobs (f : gmap Z JobTracker -> gmap Z JobTracker) : FM unit :=
  modify (fun s => mkFlushSt (f (fs_jobs s)) (fs_reg s)).

Definition registry {A} (m : RM A) : FM A := fun s =>
  let '(r, g) := m (fs_reg s) in (r, mkFlushSt (fs_jobs s) g).

Section Listener.
Context {OS : Os}.

Definition stores_do (path : string) (m : SM unit) : RM unit :=
  sids ← GetStores path; for_each sids (fun sid => at_store sid m).

Definition each_store (path : string) (m : SM unit) : FM unit := registry (stores_do path m).

Definition OnFlushBegin (path : option string) (job seq : Z) : FM unit :=
  match path with
  | None => mret tt
  | Some path =>
      jobs ← gets fs_jobs;
      match jobs !! job with
      | None =>
          with_jobs (<[job := mkTracker 1 seq]>);;
          each_store path databaseFlushBegin
      | Some t => with_jobs (<[job := mkTracker (columnFamilyCount t + 1) (flushedSequence t)]>)
      end
  end.

Definition OnFlushCompleted (path : option string) (job seq : Z) : FM unit :=
  match path with
  | None => mret tt
  | Some path =>
      jobs ← gets fs_jobs;
      match jobs !! job with
      | None => mret tt
      | Some t =>
          let highest := if flushedSequence t <? seq then seq else flushedSequence t in
          let left := columnFamilyCount t - 1 in
          with_jobs (<[job := mkTracker left highest]>);;
          if left =? 0 then
            each_store path (databaseFlushed highest);;
            with_jobs (delete job)
          else mret tt
      end
  end.

Inductive flush_event := EBegin (job seq : Z) | ECompleted (job seq : Z).

Definition on_event (path : option string) (e : flush_event) : FM unit :=
  match e with EBegin job seq => OnFlushBegin path job seq | ECompleted job seq => OnFlushCompleted path job seq end.

Fixpoint on_events (path : option string) (es : list flush_event) : FM unit :=
  match es with [] => mret tt | e :: es => on_event path e;; on_events path es end.
End Listener.

(** ** The calls a job makes *)

Inductive store_call := CBegin | CFlushed (seq : Z).

Definition call_op {OS : Os} (c : store_call) : SM unit :=
  match c with CBegin => databaseFlushBegin | CFlushed seq => databaseFlushed seq end.

(** What one event does to the tracker of its job, and the call it makes. *)
Definition track (e : flush_event) (t : option JobTracker) : option JobTracker * list store_call :=
  match e, t with
  | EBegin _ seq, None => (Some (mkTracker 1 seq), [CBegin])
  | EBegin _ _, Some t => (Some (mkTracker (columnFamilyCount t + 1) (flushedSequence t)), [])
  | ECompleted _ _, None => (None, [])
  | ECompleted _ seq, Some t =>
      let highest := Z.max (flushedSequence t) seq in
      if columnFamilyCount t - 1 =? 0 then (None, [CFlushed highest])
      else (Some (mkTracker (columnFamilyCount t - 1) highest), [])
  end.

Definition job_of (e : flush_event) : Z := match e with EBegin j _ | ECompleted j _ => j end.

(** The calls of a sequence of events, each with its job. *)
Fixpoint calls (jobs : gmap Z JobTracker) (es : list flush_event) : list (Z * store_call) :=
  match es with
  | [] => []
  | e :: es =>
      let '(t, cs) := track e (jobs !! job_of e) in
      ((fun c => (job_of e, c)) <$> cs) ++ calls (partial_alter (fun _ => t) (job_of e) jobs) es
  end.

Fixpoint run_calls {OS : Os} (path : string) (cs : list (Z * store_call)) : RM unit :=
  match cs with
  | [] => mret tt
  | c :: cs =>
      stores_do path (call_op c.2);;
      run_calls path cs
  end.

Lemma run_calls_one {OS : Os} path c g : run_calls path [c] g = stores_do path (call_op c.2) g.
Proof. cbn [run_calls]. unfold mbind, mret, M_bind, M_ret. destruct (stores_do path (call_op c.2) g) as [[e|[]] g']; reflexivity. Qed.

Lemma drop_job job x (jobs : gmap Z JobTracker) : delete job (<[job := x]> jobs) = partial_alter (fun _ => None) job jobs.
Proof.
  apply map_eq. intros i. destruct (decide (job = i)) as [<-|Hi].
  - rewrite lookup_partial_alter_eq, lookup_delete_eq. reflexivity.
  - rewrite lookup_partial_alter_ne, lookup_delete_ne, lookup_insert_ne by exact Hi. reflexivity.
Qed.

Lemma keep_job job (jobs : gmap Z JobTracker) : jobs !! job = None -> partial_alter (fun _ => None) job jobs = jobs.
Proof.
  intros Ej. apply map_eq. intros i. destruct (decide (job = i)) as [<-|Hi].
  - rewrite lookup_partial_alter_eq. symmetry. exact Ej.
  - rewrite lookup_partial_alter_ne by exact Hi. reflexivity.
Qed.

(** One event: the tracker of its job and at most one call. *)
Lemma on_event_track {OS : Os} path e jobs g :
  let '(t, cs) := track e (jobs !! job_of e) in
  match cs with
  | [] => on_event (Some path) e (mkFlushSt jobs g) = (inr tt, mkFlushSt (partial_alter (fun _ => t) (job_of e) jobs) g)
  | c :: _ =>
      cs = [c] /\
      match run_calls path [(job_of e, c)] g with
      | (inr _, g') => on_event (Some path) e (mkFlushSt jobs g) = (inr tt, mkFlushSt (partial_alter (fun _ => t) (job_of e) jobs) g')
      | (inl err, g') => exists jobs', on_event (Some path) e (mkFlushSt jobs g) = (inl err, mkFlushSt jobs' g')
      end
  end.
Proof.
  assert (Hmax : forall a b, (if a <? b then b else a) = Z.max a b) by (intros a b; destruct (Z.ltb_spec a b); lia).
  destruct e as [job seq|job seq]; cbn [job_of track on_event OnFlushBegin OnFlushCompleted]; destruct (jobs !! job) as [t|] eqn:Ej;
    rewrite ?run_calls_one; unfold mbind, mret, M_bind, M_ret, gets, with_jobs, modify, each_store, registry; cbn [fs_jobs fs_reg fst snd call_op];
    rewrite ?Ej, ?Hmax; cbn [fs_jobs fs_reg].
  - reflexivity.
  - split; [reflexivity|]. rewrite ?run_calls_one. cbn [call_op snd]. destruct (stores_do path databaseFlushBegin g) as [[e|[]] g']; [eauto|reflexivity].
  - destruct (columnFamilyCount t - 1 =? 0); [|reflexivity]. split; [reflexivity|]. rewrite ?run_calls_one. cbn [call_op snd fs_reg fs_jobs].
    destruct (stores_do path (databaseFlushed (Z.max (flushedSequence t) seq)) g) as [[e|[]] g']; [eexists; reflexivity|].
    cbn. rewrite drop_job. reflexivity.
  - rewrite keep_job by exact Ej. reflexivity.
Qed.

(** The listener does the calls, in order. *)
Lemma on_events_calls {OS : Os} path es jobs g :
  fst (on_events (Some path) es (mkFlushSt jobs g)) = fst (run_calls path (calls jobs es) g) /\
  fs_reg (snd (on_events (Some path) es (mkFlushSt jobs g))) = snd (run_calls path (calls jobs es) g).
Proof.
  revert jobs g. induction es as [|e es IH]; intros jobs g; [split; reflexivity|].
  pose proof (on_event_track path e jobs g) as He. cbn [calls on_events].
  destruct (track e (jobs !! job_of e)) as (t & [|c cs]).
  - rewrite (bind_run _ _ _ _ _ He). apply IH.
  - destruct He as (-> & He). cbn [fmap list_fmap app]. cbn [run_calls]. rewrite run_calls_one in He.
    destruct (stores_do path (call_op (job_of e, c).2) g) as [[err|[]] g'] eqn:Es.
    + destruct He as (jobs' & He). unfold mbind, M_bind. rewrite He, Es. split; reflexivity.
    + rewrite (bind_run _ _ _ _ _ He), (bind_run _ _ _ _ _ Es). apply IH.
Qed.

(** ** One job among others *)

Definition job_events (j : Z) (es : list flush_event) : list flush_event := filter (fun e => job_of e = j) es.
Definition job_calls (j : Z) (cs : list (Z * store_call)) : list store_call := (filter (fun c => c.1 = j) cs).*2.

Fixpoint track_all (t : option JobTracker) (es : list flush_event) : list store_call :=
  match es with
  | [] => []
  | e :: es => let '(t', cs) := track e t in cs ++ track_all t' es
  end.

Lemma job_calls_app j cs cs' : job_calls j (cs ++ cs') = job_calls j cs ++ job_calls j cs'.
Proof. unfold job_calls. rewrite filter_app, fmap_app. reflexivity. Qed.

Lemma job_calls_own j cs : job_calls j ((fun c => (j, c)) <$> cs) = cs.
Proof.
  unfold job_calls. induction cs as [|c cs IH]; [reflexivity|]. rewrite fmap_cons, filter_cons_True by reflexivity.
  rewrite fmap_cons, IH. reflexivity.
Qed.

Lemma job_calls_other j k cs : k <> j -> job_calls j ((fun c => (k, c)) <$> cs) = [].
Proof.
  intros Hk. unfold job_calls. induction cs as [|c cs IH]; [reflexivity|]. rewrite fmap_cons, filter_cons_False by exact Hk. exact IH.
Qed.

(** The calls of a job depend on its own events only. *)
Lemma job_calls_track j es jobs : job_calls j (calls jobs es) = track_all (jobs !! j) (job_events j es).
Proof.
  revert jobs. induction es as [|e es IH]; intros jobs; [reflexivity|]. cbn [calls].
  destruct (track e (jobs !! job_of e)) as (t & cs) eqn:Et. rewrite job_calls_app, IH. unfold job_events. rewrite filter_cons.
  destruct (decide (job_of e = j)) as [<-|Hj].
  - rewrite lookup_partial_alter_eq, job_calls_own. cbn [track_all]. rewrite Et. reflexivity.
  - rewrite lookup_partial_alter_ne by exact Hj. rewrite job_calls_other by exact Hj. reflexivity.
Qed.

Lemma track_begins j n m seqs rest : 0 < n ->
  track_all (Some (mkTracker n m)) ((EBegin j <$> seqs) ++ rest) = track_all (Some (mkTracker (n + Z.of_nat (length seqs)) m)) rest.
Proof.
  revert n. induction seqs as [|s seqs IH]; intros n Hn; [cbn; rewrite Z.add_0_r; reflexivity|].
  cbn [fmap list_fmap app track_all track columnFamilyCount flushedSequence]. rewrite IH by lia. do 3 f_equal. cbn [length]. lia.
Qed.

Lemma track_completes j n m seqs : Z.of_nat (length seqs) <= n -> 0 < n ->
  track_all (Some (mkTracker n m)) (ECompleted j <$> seqs) =
    if Z.of_nat (length seqs) =? n then [CFlushed (foldl Z.max m seqs)] else [].
Proof.
  revert n m. induction seqs as [|s seqs IH]; intros n m Hle Hn; cbn [length] in *.
  - destruct (Z.eqb_spec (Z.of_nat 0) n); [lia|reflexivity].
  - cbn [fmap list_fmap track_all track columnFamilyCount flushedSequence]. destruct (Z.eqb_spec (n - 1) 0) as [E|E].
    + destruct seqs; [|cbn in Hle; lia]. cbn [length]. destruct (Z.eqb_spec (Z.of_nat 1) n); [reflexivity|lia].
    + cbn [app foldl]. rewrite IH by lia. destruct (Z.eqb_spec (Z.of_nat (length seqs)) (n - 1)), (Z.eqb_spec (Z.of_nat (S (length seqs))) n); try lia; reflexivity.
Qed.

(** C10: a flush job is reported to the log stores once.  Whatever other jobs run at
    the same time, a job whose column families begin, in any number, and then complete
    makes one [databaseFlushBegin], and no [databaseFlushed] until the last of them has
    completed; then one, with the highest sequence number of the job.  The listener
    makes these calls, on every store of the database, and no others. *)
Theorem flush_job_reported {OS : Os} path es g j b begins completes :
  job_events j es = (EBegin j <$> (b :: begins)) ++ (ECompleted j <$> completes) ->
  (length completes <= S (length begins))%nat ->
  job_calls j (calls ∅ es) =
    CBegin :: (if (length completes =? S (length begins))%nat then [CFlushed (foldl Z.max b completes)] else []) /\
  fst (on_events (Some path) es (mkFlushSt ∅ g)) = fst (run_calls path (calls ∅ es) g) /\
  fs_reg (snd (on_events (Some path) es (mkFlushSt ∅ g))) = snd (run_calls path (calls ∅ es) g).
Proof.
  intros E Hle. split; [|apply on_events_calls]. rewrite job_calls_track, lookup_empty, E.
  cbn [fmap list_fmap app track_all track]. f_equal. rewrite (track_begins j 1 b begins) by lia.
  rewrite track_completes by lia.
  destruct (Z.eqb_spec (Z.of_nat (length completes)) (1 + Z.of_nat (length begins))), (Nat.eqb_spec (length completes) (S (length begins)));
    try lia; reflexivity.
Qed.

Definition two_jobs : list flush_event :=
  [EBegin 7 10; EBegin 8 20; EBegin 7 12; ECompleted 7 12; ECompleted 8 20; ECompleted 7 11].

Lemma flush_job_reported_witness :
  job_calls 7 (calls ∅ two_jobs) = [CBegin; CFlushed 12] /\
  fst (on_events (OS := os_reliable 0) (Some "/db") two_jobs (mkFlushSt ∅ registry0)) = inr tt.
Proof.
  destruct (flush_job_reported (OS := os_reliable 0) "/db" two_jobs registry0 7 10 [12] [12; 11] eq_refl ltac:(cbn; lia)) as (H1 & H2 & _).
  split; [exact H1|]. rewrite H2. reflexivity.
Defined.
