(* ===== verification/LogHandle.v ===== *)
(** * The transaction log class

    [transaction_log/transaction_log_handle.cpp] and the methods of
    [transaction_log/transaction_log.cpp]: a JavaScript object for one log of a
    database, through which entries are added to transactions and the log is read.

    The object reaches the database handle and the store through weak pointers, the
    transaction by its id.  The log stores are those of the registry, so that a call
    on a transaction runs on them ([on_txn]).  A weak pointer to the database handle
    that can be locked may still name a handle that was closed and has no
    descriptor: following that pointer is an error of the model. *)

From S2P Require Import Prelude Encoding LogFormat Os LogFile LogStore StoreRegistry Transaction.
From stdpp Require Import base tactics list gmap strings.
From coqutil Require Import Byte.
From Stdlib Require Import ZArith Lia.

Local Open Scope Z_scope.

(** ** State *)

(** [dbHandle.lock()]: gone, closed, or open on a path. *)
Inductive db_ref := DbGone | DbClosed | DbOpen (path : string).

Record TransactionLogHandle := mkLogHandle {
  lh_db : db_ref;
  lh_logName : string;
  lh_readOnly : bool;
  lh_transactionId : Z;
  lh_store : option Z          (* weak_ptr: the address of a store *)
}.

Record LogApi := mkLogApi {
  la_reg : Registry;
  la_shared : Shared;                      (* what transactions share, less the stores *)
  la_txns : gmap Z TransactionHandle;      (* descriptor->transactions *)
  la_handle : TransactionLogHandle
}.

Abbreviation LM := (M LogApi).

Definition log_handle {A} (f : TransactionLogHandle -> A) : LM A := gets (fun a => f (la_handle a)).

Definition set_store (sid : option Z) : LM unit :=
  modify (fun a => let h := la_handle a in
    mkLogApi (la_reg a) (la_shared a) (la_txns a)
      (mkLogHandle (lh_db h) (lh_logName h) (lh_readOnly h) (lh_transactionId h) sid)).

Definition on_registry {A} (m : RM A) : LM A := fun a =>
  let '(r, g) := m (la_reg a) in (r, mkLogApi g (la_shared a) (la_txns a) (la_handle a)).

(** What a transaction sees: the stores of the registry. *)
Definition shared_of (a : LogApi) : Shared := set_h_stores (rg_stores (la_reg a)) (set_h_world (rg_world (la_reg a)) (la_shared a)).

Definition on_txn {A} (id : Z) (m : HM A) : LM A := fun a =>
  match la_txns a !! id with
  | None => (inl (OutOfRange "transaction"), a)
  | Some t =>
      let '(r, (h', t')) := m (shared_of a, t) in
      (r, mkLogApi (set_rg_stores (h_stores h') (set_rg_world (h_world h') (la_reg a))) h' (<[id := t']> (la_txns a)) (la_handle a))
  end.

(** [store.lock()] *)
Definition lock_store : LM (option Z) :=
  gets (fun a => sid ← lh_store (la_handle a); if decide (is_Some (rg_stores (la_reg a) !! sid)) then Some sid else None).

(** [dbHandle->descriptor->...] *)
Definition descriptor_path : LM string :=
  db ← log_handle lh_db;
  match db with
  | DbOpen path => mret path
  | DbClosed => throw (OutOfRange "descriptor")
  | DbGone => throw (DBException "Database has been closed")
  end.

Definition deref_store {A} (o : option A) : LM A :=
  match o with Some x => mret x | None => throw (OutOfRange "log store") end.

Section Handle.
Context {OS : Os} {RK : Rocks} {AL : Alloc}.

(** ** TransactionLogHandle *)

Definition resolve_name : LM (option Z) :=
  path ← descriptor_path;
  name ← log_handle lh_logName;
  on_registry (ResolveStore path name).

Definition TransactionLogHandle_new (db : db_ref) (logName : string) (readOnly : bool) (transactionId : Z) : LM unit :=
  modify (fun a => mkLogApi (la_reg a) (la_shared a) (la_txns a) (mkLogHandle db logName readOnly 0 None));;
  sid ← resolve_name;
  modify (fun a => mkLogApi (la_reg a) (la_shared a) (la_txns a) (mkLogHandle db logName readOnly transactionId sid)).

(** The store to write to: the one the object has, or a fresh one when that is gone
    or closing. *)
Definition current_store : LM (option Z) :=
  sid ← lock_store;
  match sid with
  | Some sid =>
      closing ← on_registry (at_store sid (store s_isClosing));
      if closing : bool then sid' ← resolve_name; set_store sid';; mret sid' else mret (Some sid)
  | None => sid' ← resolve_name; set_store sid';; mret sid'
  end.

Definition LogHandle_addEntry (transactionId : Z) (data : bytes) (size : Z) : LM unit :=
  descriptor_path;;
  txns ← gets la_txns;
  match txns !! transactionId with
  | None => throw (DBException "Transaction id not found")
  | Some _ =>
      found ← current_store;
      bound ← on_txn transactionId lock_bound;
      sid ← deref_store found;
      name ← on_registry (at_store sid (store s_name));
      match bound with
      | Some cur =>
          name' ← on_registry (at_store cur (store s_name));
          when (negb (String.eqb name' name)) (throw already_bound)
      | None => mret tt
      end;;
      on_txn transactionId (addLogEntry sid (TransactionLogEntry_new name data size))
  end.

Definition at_locked {A} (default : A) (m : SM A) : LM A :=
  sid ← lock_store;
  match sid with Some sid => on_registry (at_store sid m) | None => mret default end.

Definition LogHandle_getLogFileSize (seq : Z) : LM Z := at_locked 0 (getLogFileSize seq).
Definition LogHandle_getMemoryMap (seq : Z) : LM (option nat) := at_locked None (getMemoryMap seq).
Definition LogHandle_findPosition (timestamp : Z) : LM LogPosition := at_locked (mkPos 0 0) (findPositionByTimestamp timestamp).
Definition LogHandle_getLastFlushed : LM LogPosition := at_locked (mkPos 0 0) getLastFlushedPosition.
Definition LogHandle_getLastCommittedPosition : LM (option LogPosition) :=
  at_locked None (p ← getLastCommittedPosition; mret (Some p)).

(** [None]: it returned [false]. *)
Definition LogHandle_collectStats : LM (option TransactionLogStoreStats) :=
  sid ← lock_store;
  match sid with
  | Some sid => on_registry (at_store sid (x ← collectStats; mret (Some x)))
  | None =>
      db ← log_handle lh_db;
      match db with
      | DbGone => mret None
      | _ =>
          sid' ← resolve_name;
          set_store sid';;
          match sid' with
          | Some sid => on_registry (at_store sid (x ← collectStats; mret (Some x)))
          | None => mret None
          end
      end
  end.

(** ** The class *)

(** A JavaScript argument: what the runtime answers about it. *)
Inductive data_arg :=
| DOther                                  (* neither Buffer nor ArrayBuffer *)
| DBytes (info : option (option bytes)).  (* napi_get_buffer_info: its status, and the data or a null pointer *)

Inductive id_arg := IUndefined | INumber (n : Z) | IOther.

(** [napi_get_value_int32]: the low 32 bits. *)
Definition to_int32 (n : Z) : Z := (n + 2 ^ 31) mod 2 ^ 32 - 2 ^ 31.

(** The result of the call in JavaScript: it returns, or throws. *)
Definition entry_id (own : Z) (arg : id_arg) : string + Z :=
  match arg with
  | INumber n =>
      if to_int32 n <? 0 then inl "Invalid argument, transaction id must be a non-negative integer" else inr (to_int32 n)
  | IOther => inl "Invalid argument, transaction id must be a non-negative integer"
  | IUndefined => if own =? 0 then inl "Missing argument, transaction id is required" else inr own
  end.

Definition AddEntry (data : data_arg) (id : id_arg) : LM (string + unit) :=
  readOnly ← log_handle lh_readOnly;
  if readOnly : bool then mret (inl "Unsupported operation in read-only mode")
  else
    match data with
    | DOther => mret (inl "Invalid log entry, expected a Buffer or ArrayBuffer")
    | DBytes None => mret (inl "Failed to get log entry data buffer info")
    | DBytes (Some None) => mret (inl "Invalid log entry data, expected a Buffer or ArrayBuffer")
    | DBytes (Some (Some b)) =>
        own ← log_handle lh_transactionId;
        match entry_id own id with
        | inl msg => mret (inl msg)
        | inr txn => catch_std (LogHandle_addEntry txn b (u32 (Z.of_nat (length b)));; mret (inr tt)) (fun msg => mret (inl msg))
        end
    end.

(** [GetLogFileSize]: after a bad argument it goes on, with the exception pending:
    the message thrown, and the size. *)
Definition GetLogFileSize (seq : id_arg) : LM (option string * Z) :=
  let '(msg, n) :=
    match seq with
    | INumber n => (if u32 n =? 0 then Some "Expected sequence number to be a positive integer greater than 0" else None, u32 n)
    | IUndefined => (None, 0)
    | IOther => (Some "Expected sequence number to be a number", 0)
    end in
  size ← LogHandle_getLogFileSize n;
  mret (msg, size).

(** [Constructor]: an id that is not a number stands for no transaction. *)
Definition LogConstructor (db : db_ref) (name : string) (dbReadOnly : bool) (id : id_arg) : LM unit :=
  TransactionLogHandle_new db name dbReadOnly (match id with INumber n => u32 n | _ => 0 end).

(** A position reaches JavaScript as the double with its 64 bits. *)
Definition FindPosition (timestamp : Z) : LM Z := p ← LogHandle_findPosition timestamp; mret (fullPosition p).
Definition GetLastFlushed : LM Z := p ← LogHandle_getLastFlushed; mret (fullPosition p).

(** [None] is [undefined] in the following. *)
Definition GetMemoryMapOfFile (seq : Z) : LM (option nat) := LogHandle_getMemoryMap (u32 seq).
Definition GetName : LM string := log_handle lh_logName.
Definition GetPath : LM (option string) := at_locked None (path ← store s_path; mret (Some path)).
End Handle.

(** Reading a log whose store was released gives the empty answers and changes
    nothing. *)
Lemma released_log_reads {OS : Os} a seq timestamp : fst (lock_store a) = inr None ->
  LogHandle_getLogFileSize seq a = (inr 0, a) /\ GetMemoryMapOfFile seq a = (inr None, a) /\
  FindPosition timestamp a = (inr 0, a) /\ GetLastFlushed a = (inr 0, a) /\
  LogHandle_getLastCommittedPosition a = (inr None, a) /\ GetPath a = (inr None, a).
Proof.
  intros H. assert (E : lock_store a = (inr None, a)) by (revert H; unfold lock_store, gets; cbn; congruence).
  assert (L : forall A (d : A) m, at_locked d m a = (inr d, a)) by (intros; unfold at_locked; rewrite (bind_run _ _ _ _ _ E); reflexivity).
  assert (P : forall A B (d : A) m (f : A -> B), (x ← at_locked d m; mret (f x)) a = (inr (f d), a)) by (intros; rewrite (bind_run _ _ _ _ _ (L _ _ _)); reflexivity).
  repeat split; first [apply L|apply P].
Qed.

(** ** Adding an entry *)

Section AddEntry.
Context {OS : Os} {RK : Rocks} {AL : Alloc}.

Lemma on_registry_run {A} (m : RM A) a x g : m (la_reg a) = (inr x, g) ->
  on_registry m a = (inr x, mkLogApi g (la_shared a) (la_txns a) (la_handle a)).
Proof. intros H. unfold on_registry. rewrite H. reflexivity. Qed.

Lemma registry_read {A} sid s (f : Store -> A) a : rg_stores (la_reg a) !! sid = Some s ->
  on_registry (at_store sid (store f)) a = (inr (f s), a).
Proof. intros H. rewrite (on_registry_run _ _ _ _ (at_store_read sid s f (la_reg a) H)). destruct a. reflexivity. Qed.

Definition forget_shared (a : LogApi) : LogApi := mkLogApi (la_reg a) (shared_of a) (la_txns a) (la_handle a).

(** The object's store pointer, as long as it is not dangling, is a store of its log. *)
Definition names_log (a : LogApi) : Prop :=
  forall sid s, lh_store (la_handle a) = Some sid -> rg_stores (la_reg a) !! sid = Some s -> s_name s = lh_logName (la_handle a).

(** The store to write to is open and has the log's name. *)
Lemma current_store_run a path entries e r g' :
  lh_db (la_handle a) = DbOpen path -> reg_inv (la_reg a) -> rg_instance (la_reg a) = Some entries -> entries !! path = Some e ->
  names_log a -> ResolveStore path (lh_logName (la_handle a)) (la_reg a) = (inr r, g') ->
  exists sid s a', current_store a = (inr (Some sid), a') /\
    lh_store (la_handle a') = Some sid /\ lh_logName (la_handle a') = lh_logName (la_handle a) /\
    rg_stores (la_reg a') !! sid = Some s /\ s_name s = lh_logName (la_handle a) /\ s_isClosing s = false /\
    la_txns a' = la_txns a /\
    forall other, other <> sid -> rg_stores (la_reg a') !! other = rg_stores (la_reg a) !! other.
Proof.
  intros Hdb Hinv Hinst He Hname Hres.
  destruct (resolve_store _ _ _ _ _ _ _ Hinv Hinst He Hres) as (sid & s & -> & Hs & Hn & Hc & _ & _ & Hother).
  assert (Hfresh : (sid' ← resolve_name; set_store sid';; mret sid') a =
    (inr (Some sid), mkLogApi g' (la_shared a) (la_txns a)
       (mkLogHandle (DbOpen path) (lh_logName (la_handle a)) (lh_readOnly (la_handle a)) (lh_transactionId (la_handle a)) (Some sid)))).
  { unfold resolve_name, descriptor_path, log_handle. mrun. rewrite Hdb. cbn. unfold on_registry. rewrite Hres. cbn. rewrite Hdb. reflexivity. }
  assert (Hgoal : forall m, m a = (sid' ← resolve_name; set_store sid';; mret sid') a -> exists sid s a', m a = (inr (Some sid), a') /\
    lh_store (la_handle a') = Some sid /\ lh_logName (la_handle a') = lh_logName (la_handle a) /\
    rg_stores (la_reg a') !! sid = Some s /\ s_name s = lh_logName (la_handle a) /\ s_isClosing s = false /\
    la_txns a' = la_txns a /\ forall other, other <> sid -> rg_stores (la_reg a') !! other = rg_stores (la_reg a) !! other).
  { intros m ->. eexists sid, s, _. split; [exact Hfresh|]. cbn. repeat split; assumption. }
  unfold current_store. destruct (lock_store a) as [[e0|found] a0] eqn:El; [discriminate El|]. injection El as <- <-.
  rewrite (bind_run lock_store _ a _ a eq_refl).
  destruct (lh_store (la_handle a)) as [sid0|] eqn:Est; cbn [mbind option_bind]; [|apply Hgoal; reflexivity].
  destruct (decide (is_Some (rg_stores (la_reg a) !! sid0))) as [(s0 & Hs0)|]; [|apply Hgoal; reflexivity].
  destruct (s_isClosing s0) eqn:Ec0.
  - apply Hgoal. rewrite (bind_run _ _ _ _ _ (registry_read sid0 s0 s_isClosing a Hs0)), Ec0. reflexivity.
  - exists sid0, s0, a. rewrite (bind_run _ _ _ _ _ (registry_read sid0 s0 s_isClosing a Hs0)), Ec0.
    split_and!; first [reflexivity|exact Est|exact Hs0|exact (Hname _ _ Est Hs0)|exact Ec0|intros; reflexivity].
Qed.

(** [addLogEntry] on a store that is open, for a transaction that may have it. *)
Definition may_bind (name : string) (h : Shared) (t : TransactionHandle) : Prop :=
  forall cur c, t_boundLogStore t = Some cur -> h_stores h !! cur = Some c -> s_name c = name.

Definition bound_alive (h : Shared) (t : TransactionHandle) : option Z :=
  sid ← t_boundLogStore t; if decide (is_Some (h_stores h !! sid)) then Some sid else None.

Definition staged (t : TransactionHandle) (entry : TransactionLogEntry) : TransactionLogEntryBatch :=
  addEntry (default (TransactionLogEntryBatch_new (t_startTimestamp t)) (t_logEntryBatch t)) entry.

Definition count_pending (s : Store) : Store := set_s_pendingTransactionCount (s_pendingTransactionCount s + 1) s.

Lemma store_read {A} sid s (f : Store -> A) h t : h_stores h !! sid = Some s ->
  with_store sid (store f) (h, t) = (inr (f s), (h, t)).
Proof.
  intros H. unfold with_store, store, gets. rewrite H. cbn. destruct h. cbn in *. unfold set_h_stores, set_h_world. cbn.
  rewrite insert_id by exact H. reflexivity.
Qed.

Lemma addLogEntry_run sid s entry h t :
  logSequenceNumber (t_committedPosition t) <= 0 -> h_stores h !! sid = Some s -> s_isClosing s = false ->
  may_bind (s_name s) h t ->
  addLogEntry sid entry (h, t) =
    match bound_alive h t with
    | Some _ => (inr tt, (h, set_logEntryBatch (Some (staged t entry)) t))
    | None => (inr tt, (set_h_stores (<[sid := count_pending s]> (h_stores h)) h,
                        set_logEntryBatch (Some (staged t entry)) (set_boundLogStore (Some sid) t)))
    end.
Proof.
  intros Hp Hs Hc Hb. unfold addLogEntry.
  rewrite (bind_run (handle t_committedPosition) _ (h, t) (t_committedPosition t) (h, t) eq_refl).
  destruct (Z.ltb_spec 0 (logSequenceNumber (t_committedPosition t))) as [|_]; [lia|].
  rewrite (bind_run lock_bound _ (h, t) (bound_alive h t) (h, t) eq_refl).
  destruct (bound_alive h t) as [cur|] eqn:Eb.
  - unfold bound_alive in Eb. destruct (t_boundLogStore t) as [cur'|] eqn:Et; [|discriminate Eb]. cbn in Eb.
    destruct (decide (is_Some (h_stores h !! cur'))) as [(c & Hcur)|]; [|discriminate Eb]. injection Eb as ->.
    pose proof (Hb cur c Et Hcur) as Hn.
    rewrite (bind_run _ _ _ tt (h, t)); [reflexivity|].
    rewrite (bind_run _ _ _ _ _ (store_read cur c s_name h t Hcur)), (bind_run _ _ _ _ _ (store_read sid s s_name h t Hs)), Hn, String.eqb_refl.
    reflexivity.
  - rewrite (bind_run (bind_store sid) _ _ tt (set_h_stores (<[sid := count_pending s]> (h_stores h)) h, set_boundLogStore (Some sid) t)).
    + destruct h, t. reflexivity.
    + unfold bind_store. rewrite (bind_run _ _ _ _ _ (store_read sid s s_isClosing h t Hs)), Hc. mrun.
      unfold hupdate, modify, with_store, supdate. rewrite Hs. destruct h. reflexivity.
Qed.

(** [boundLogStore.lock()] *)
Definition bound_in (g : Registry) (t : TransactionHandle) : option Z :=
  sid ← t_boundLogStore t; if decide (is_Some (rg_stores g !! sid)) then Some sid else None.

Lemma on_txn_run {A} id t (m : HM A) a x h' t' : la_txns a !! id = Some t -> m (shared_of a, t) = (inr x, (h', t')) ->
  on_txn id m a = (inr x, mkLogApi (set_rg_stores (h_stores h') (set_rg_world (h_world h') (la_reg a))) h' (<[id := t']> (la_txns a)) (la_handle a)).
Proof. intros H Hm. unfold on_txn. rewrite H, Hm. reflexivity. Qed.

Lemma log_lock_bound id t a : la_txns a !! id = Some t -> on_txn id lock_bound a = (inr (bound_alive (shared_of a) t), forget_shared a).
Proof.
  intros H. destruct a as [[w st n i] sh tx h]. cbn in H. unfold on_txn. cbn [la_txns]. rewrite H. cbn. rewrite insert_id by exact H. reflexivity.
Qed.

(** Once the store is known. *)
Lemma add_entry_tail a sid s id t data size :
  rg_stores (la_reg a) !! sid = Some s -> s_isClosing s = false -> la_txns a !! id = Some t ->
  logSequenceNumber (t_committedPosition t) <= 0 ->
  (forall cur c, t_boundLogStore t = Some cur -> rg_stores (la_reg a) !! cur = Some c -> s_name c = s_name s) ->
  exists a' t',
    (bound ← on_txn id lock_bound;
     sid' ← deref_store (Some sid);
     name ← on_registry (at_store sid' (store s_name));
     match bound with
     | Some cur =>
         name' ← on_registry (at_store cur (store s_name));
         when (negb (String.eqb name' name)) (throw already_bound)
     | None => mret tt
     end;;
     on_txn id (addLogEntry sid' (TransactionLogEntry_new name data size))) a = (inr tt, a') /\
    la_handle a' = la_handle a /\ la_txns a' = <[id := t']> (la_txns a) /\
    t_logEntryBatch t' = Some (staged t (TransactionLogEntry_new (s_name s) data size)) /\
    match bound_in (la_reg a') t with
    | Some cur => t_boundLogStore t' = Some cur /\ rg_stores (la_reg a') = rg_stores (la_reg a)
    | None => t_boundLogStore t' = Some sid /\ rg_stores (la_reg a') = <[sid := count_pending s]> (rg_stores (la_reg a))
    end.
Proof.
  intros Hs Hc Ht Hp Hb. set (a1 := forget_shared a).
  assert (Hb1 : may_bind (s_name s) (shared_of a1) t) by exact Hb.
  rewrite (bind_run (on_txn id lock_bound) _ a (bound_alive (shared_of a) t) a1).
  2: exact (log_lock_bound id t a Ht).
  rewrite (bind_run (deref_store (Some sid)) _ a1 sid a1 eq_refl).
  rewrite (bind_run _ _ _ _ _ (registry_read sid s s_name a1 Hs)).
  pose proof (addLogEntry_run sid s (TransactionLogEntry_new (s_name s) data size) (shared_of a1) t Hp Hs Hc Hb1) as Hadd.
  change (bound_alive (shared_of a1) t) with (bound_in (la_reg a) t) in Hadd.
  change (bound_alive (shared_of a) t) with (bound_in (la_reg a) t).
  destruct (bound_in (la_reg a) t) as [cur|] eqn:Eb.
  - assert (exists c, rg_stores (la_reg a) !! cur = Some c /\ t_boundLogStore t = Some cur) as (c & Hcur & Etb).
    { unfold bound_in in Eb. destruct (t_boundLogStore t) as [x|]; [|discriminate Eb]. cbn in Eb.
      destruct (decide (is_Some (rg_stores (la_reg a) !! x))) as [(c & Hx)|]; [|discriminate Eb]. injection Eb as ->. eauto. }
    eexists _, _. split.
    { rewrite (bind_run _ _ a1 tt a1); [exact (on_txn_run id t _ a1 _ _ _ Ht Hadd)|].
      rewrite (bind_run _ _ _ _ _ (registry_read cur c s_name a1 Hcur)), (Hb _ _ Etb Hcur), String.eqb_refl. reflexivity. }
    cbn. split_and!; try reflexivity. change (bound_in _ t) with (bound_in (la_reg a) t). rewrite Eb. split; [exact Etb|reflexivity].
  - eexists _, _. split.
    { rewrite (bind_run _ _ a1 tt a1); [exact (on_txn_run id t _ a1 _ _ _ Ht Hadd)|reflexivity]. }
    cbn. split_and!; try reflexivity. assert (bound_in (set_rg_stores (<[sid:=count_pending s]> (rg_stores (la_reg a)))
      (set_rg_world (rg_world (la_reg a)) (la_reg a))) t = None) as ->; [|split; reflexivity].
    unfold bound_in in Eb |- *. destruct (t_boundLogStore t) as [x|] eqn:Etb; [|reflexivity]. cbn in Eb |- *.
    destruct (decide (is_Some (rg_stores (la_reg a) !! x))) as [|Hx]; [discriminate Eb|].
    rewrite decide_False; [reflexivity|]. rewrite lookup_insert_ne; [exact Hx|]. intros <-. apply Hx. eauto.
Qed.

(** C11: adding an entry stages it.  On an open database whose log can be resolved,
    for a registered transaction that has not written its log and is not bound to
    another log, [addEntry] returns; the entry with the given bytes is appended to the
    transaction's batch, no other transaction changes, the object refers to an open
    store of its log, and the transaction is bound to it and counted as pending exactly
    when it was not bound to a living store before. *)
Theorem add_entry_stages a path entries e r g' id t b arg :
  lh_db (la_handle a) = DbOpen path -> lh_readOnly (la_handle a) = false ->
  reg_inv (la_reg a) -> rg_instance (la_reg a) = Some entries -> entries !! path = Some e ->
  names_log a -> ResolveStore path (lh_logName (la_handle a)) (la_reg a) = (inr r, g') ->
  entry_id (lh_transactionId (la_handle a)) arg = inr id ->
  la_txns a !! id = Some t -> logSequenceNumber (t_committedPosition t) <= 0 ->
  (forall cur c, t_boundLogStore t = Some cur -> rg_stores (la_reg a) !! cur = Some c -> s_name c = lh_logName (la_handle a)) ->
  exists a' t' sid s,
    AddEntry (DBytes (Some (Some b))) arg a = (inr (inr tt), a') /\
    la_txns a' = <[id := t']> (la_txns a) /\
    t_logEntryBatch t' = Some (staged t (TransactionLogEntry_new (lh_logName (la_handle a)) b (u32 (Z.of_nat (length b))))) /\
    lh_store (la_handle a') = Some sid /\ s_name s = lh_logName (la_handle a) /\ s_isClosing s = false /\
    match bound_in (la_reg a') t with
    | Some cur => t_boundLogStore t' = Some cur /\ rg_stores (la_reg a') !! sid = Some s
    | None => t_boundLogStore t' = Some sid /\ rg_stores (la_reg a') !! sid = Some (count_pending s)
    end.
Proof.
  intros Hdb Hro Hinv Hinst He Hname Hres Hid Ht Hp Hb.
  destruct (current_store_run a path entries e r g' Hdb Hinv Hinst He Hname Hres) as (sid & s & a1 & Hcur & Hst & Hln & Hs & Hn & Hc & Htx & Hother).
  destruct (add_entry_tail a1 sid s id t b (u32 (Z.of_nat (length b))) Hs Hc) as (a' & t' & Hrun & Hh & Htx' & Hbatch & Hbound).
  { rewrite Htx. exact Ht. }
  { exact Hp. }
  { intros cur c Etb Hcu. destruct (decide (cur = sid)) as [->|Hne]; [congruence|]. rewrite Hother in Hcu by exact Hne.
    rewrite Hn. exact (Hb cur c Etb Hcu). }
  exists a', t', sid, s. rewrite Htx in Htx'. rewrite Hn in Hbatch. rewrite Hh. split_and!; try assumption.
  - unfold AddEntry. rewrite (bind_run (log_handle lh_readOnly) _ a false a) by (unfold log_handle, gets; rewrite Hro; reflexivity).
    rewrite (bind_run (log_handle lh_transactionId) _ a _ a eq_refl), Hid. unfold catch_std, catch.
    assert (HL : LogHandle_addEntry id b (u32 (Z.of_nat (length b))) a = (inr tt, a')).
    { unfold LogHandle_addEntry. rewrite (bind_run descriptor_path _ a path a) by (unfold descriptor_path, log_handle; mrun; rewrite Hdb; reflexivity).
      rewrite (bind_run (gets la_txns) _ a _ a eq_refl), Ht, (bind_run _ _ _ _ _ Hcur). exact Hrun. }
    rewrite (bind_run _ _ _ _ _ HL). reflexivity.
  - destruct (bound_in (la_reg a') t); destruct Hbound as (H1 & ->); (split; [exact H1|]); [exact Hs|apply lookup_insert_eq].
Qed.

(** A call that is refused changes nothing. *)
Theorem add_entry_refused a path data arg :
  lh_db (la_handle a) = DbOpen path ->
  lh_readOnly (la_handle a) = true \/ data = DOther \/ data = DBytes None \/ data = DBytes (Some None) \/
  (exists msg, entry_id (lh_transactionId (la_handle a)) arg = inl msg) \/
  (exists id, entry_id (lh_transactionId (la_handle a)) arg = inr id /\ la_txns a !! id = None) ->
  exists msg, AddEntry data arg a = (inr (inl msg), a).
Proof.
  intros Hdb H. unfold AddEntry. destruct (lh_readOnly (la_handle a)) eqn:Ero;
    rewrite (bind_run (log_handle lh_readOnly) _ a _ a eq_refl), Ero; [eexists; reflexivity|].
  destruct data as [|[[b|]|]]; try (eexists; reflexivity).
  rewrite (bind_run (log_handle lh_transactionId) _ a _ a eq_refl).
  destruct H as [[=]|[[=]|[[=]|[[=]|[(msg & ->)|(id & -> & Ht)]]]]]; [eexists; reflexivity|].
  exists "Transaction id not found". unfold catch_std, catch, LogHandle_addEntry, descriptor_path, log_handle. mrun. rewrite Hdb, Ht. reflexivity.
Qed.
End AddEntry.

(** ** Runs *)

(** The id of a transaction is a [uint32_t]; one from 2^31 on cannot be given. *)
Lemma high_id_refused own n : 2 ^ 31 <= n < 2 ^ 32 ->
  entry_id own (INumber n) = inl "Invalid argument, transaction id must be a non-negative integer".
Proof.
  intros H. unfold entry_id, to_int32. replace (n + 2 ^ 31) with (n - 2 ^ 31 + 1 * 2 ^ 32) by lia.
  rewrite Z.mod_add, Z.mod_small by lia. destruct (Z.ltb_spec (n - 2 ^ 31 - 2 ^ 31) 0); [reflexivity|lia].
Qed.

Definition demo_txn : TransactionHandle :=
  mkTxn None false false 3 false f64_zero Pending None false None [] [] None (mkPos 0 0) false 0.
Definition demo_shared : Shared := mkShared empty_world ∅ None [] 0 3 {[ 3 ]} true [].
Definition demo_api (db : db_ref) : LogApi :=
  mkLogApi registry0 demo_shared {[ 3 := demo_txn ]} (mkLogHandle db "foo" false 0 None).

(** After the database was closed, the object of a log follows a null pointer. *)
Example add_entry_after_close :
  fst (AddEntry (OS := os_reliable 0) (DBytes (Some (Some [Byte.x00]))) (INumber 3) (demo_api DbClosed)) = inl (OutOfRange "descriptor").
Proof. reflexivity. Qed.

Lemma add_entry_stages_witness : exists a' t',
  AddEntry (OS := os_reliable 0) (DBytes (Some (Some [Byte.x00]))) (INumber 3) (demo_api (DbOpen "/db")) = (inr (inr tt), a') /\
  la_txns a' !! 3 = Some t' /\ t_boundLogStore t' = Some 1.
Proof.
  destruct (add_entry_stages (OS := os_reliable 0) (demo_api (DbOpen "/db")) "/db" {[ "/db" := mkRegEntry [] config0 1 ]} (mkRegEntry [] config0 1)
    (Some 1) (snd (ResolveStore (OS := os_reliable 0) "/db" "foo" registry0)) 3 demo_txn [Byte.x00] (INumber 3))
    as (a' & t' & sid & s & Hrun & Htx & _ & Hst & _ & _ & Hb); try reflexivity.
  - exact registry0_inv.
  - intros sid s [=].
  - intros cur c [=].
  - exists a', t'. split; [exact Hrun|]. rewrite Htx. split; [reflexivity|]. cbn in Hb. destruct Hb as (Hb & _). rewrite Hb, <- Hst.
    pose proof (f_equal (fun x => lh_store (la_handle (snd x))) Hrun) as E. refine (eq_trans (eq_sym E) _). vm_compute. reflexivity.
Defined.
