(* ===== verification/SharedBuffers.v ===== *)
(** * Shared buffers

    [DBDescriptor::getUserSharedBuffer] and [userSharedBufferFinalize] of
    [database/db_descriptor.cpp], [ColumnFamilyDescriptor] and the buffer data of
    [database/db_descriptor.h]: every thread that asks a column family for the buffer
    of a key gets an ArrayBuffer over the same memory.

    The memory is an object with a reference count: the entry of the map and the
    finalize data of every ArrayBuffer hold one.  The map is used under its mutex, so
    that [getUserSharedBuffer] and [releaseUserSharedBuffer] are one step each; the
    finalize data is deleted after the mutex was released, in a step of its own.  The
    event listener that a buffer may have is the emitter's ([EventEmitter]) and is left
    out. *)

From S2P Require Import Prelude Encoding.
From stdpp Require Import base tactics list list_numbers gmap strings fin_maps.
From Stdlib Require Import ZArith Lia.

Local Open Scope Z_scope.

(** ** State *)

(** [BLive]: JavaScript has the ArrayBuffer.  [BLeaked]: the runtime refused it, and
    its finalize data stays.  [BReleased]: the finalizer has been at the map. *)
Inductive bstage := BLive | BLeaked | BReleased.

(** An ArrayBuffer with its [UserSharedBufferFinalizeData]. *)
Record buffer := mkBuffer { bf_key : string; bf_data : Z; bf_stage : bstage }.

Record Buffers := mkBuffers {
  sb_column : bool;              (* the ColumnFamilyDescriptor exists *)
  sb_map : gmap string Z;        (* userSharedBuffers *)
  sb_data : gmap Z bytes;        (* the UserSharedBufferData that exist *)
  sb_next : Z;
  sb_buffers : list buffer
}.

Definition holds (d : Z) (b : buffer) : nat := if decide (bf_data b = d) then 1%nat else 0%nat.

(** [use_count()] *)
Definition use_count (d : Z) (y : Buffers) : nat :=
  (size (filter (fun kv : string * Z => kv.2 = d) (sb_map y)) + sum_list_with (holds d) (sb_buffers y))%nat.

(** ** Operations *)

(** [created]: the runtime made the ArrayBuffer. *)
Definition getUserSharedBuffer (key : string) (default : bytes) (created : bool) (y : Buffers) : Z * Buffers :=
  let stage := if created then BLive else BLeaked in
  match sb_map y !! key with
  | Some d => (d, mkBuffers (sb_column y) (sb_map y) (sb_data y) (sb_next y) (mkBuffer key d stage :: sb_buffers y))
  | None =>
      let d := sb_next y in
      (d, mkBuffers (sb_column y) (<[key := d]> (sb_map y)) (<[d := default]> (sb_data y)) (d + 1)
            (mkBuffer key d stage :: sb_buffers y))
  end.

Definition releaseUserSharedBuffer (key : string) (d : Z) (y : Buffers) : Buffers :=
  if decide (sb_map y !! key = Some d) then
    if (use_count d y <=? 2)%nat
    then mkBuffers (sb_column y) (delete key (sb_map y)) (sb_data y) (sb_next y) (sb_buffers y)
    else y
  else y.

(** The first part of [userSharedBufferFinalize], for the finalize data [b]. *)
Definition finalize_release (b : buffer) (rest : list buffer) (y : Buffers) : Buffers :=
  let y1 := if sb_column y then releaseUserSharedBuffer (bf_key b) (bf_data b) y else y in
  mkBuffers (sb_column y1) (sb_map y1) (sb_data y1) (sb_next y1) (mkBuffer (bf_key b) (bf_data b) BReleased :: rest).

(** The last reference frees the memory. *)
Definition free_unused (d : Z) (y : Buffers) : Buffers :=
  if (use_count d y =? 0)%nat then mkBuffers (sb_column y) (sb_map y) (delete d (sb_data y)) (sb_next y) (sb_buffers y) else y.

(** [delete finalizeData] *)
Definition finalize_delete (b : buffer) (rest : list buffer) (y : Buffers) : Buffers :=
  free_unused (bf_data b) (mkBuffers (sb_column y) (sb_map y) (sb_data y) (sb_next y) rest).

(** The column family descriptor is destroyed, with its map. *)
Definition destroy_column (y : Buffers) : Buffers :=
  mkBuffers false ∅ (filter (fun e : Z * bytes => sum_list_with (holds e.1) (sb_buffers y) <> O) (sb_data y)) (sb_next y) (sb_buffers y).

Inductive buf_step : Buffers -> Buffers -> Prop :=
| b_get y key default created : sb_column y = true -> buf_step y (snd (getUserSharedBuffer key default created y))
(* JavaScript writes through an ArrayBuffer it has *)
| b_write y b bytes : b ∈ sb_buffers y -> bf_stage b = BLive ->
    buf_step y (mkBuffers (sb_column y) (sb_map y) (<[bf_data b := bytes]> (sb_data y)) (sb_next y) (sb_buffers y))
| b_release y b rest : sb_buffers y ≡ₚ b :: rest -> bf_stage b = BLive -> buf_step y (finalize_release b rest y)
| b_delete y b rest : sb_buffers y ≡ₚ b :: rest -> bf_stage b = BReleased -> buf_step y (finalize_delete b rest y)
| b_destroy y : sb_column y = true -> buf_step y (destroy_column y).

Definition buf_init : Buffers := mkBuffers true ∅ ∅ 1 [].

Inductive buf_reachable : Buffers -> Prop :=
| br_init : buf_reachable buf_init
| br_step y y' : buf_reachable y -> buf_step y y' -> buf_reachable y'.

(** ** Invariant *)

Record buf_ok (y : Buffers) : Prop := {
  bo_held : forall b, b ∈ sb_buffers y -> is_Some (sb_data y !! bf_data b);
  bo_mapped : forall k d, sb_map y !! k = Some d -> is_Some (sb_data y !! d);
  bo_fresh : forall d, sb_next y <= d -> sb_data y !! d = None;
  bo_same : sb_column y = true -> forall b, b ∈ sb_buffers y -> bf_stage b <> BReleased -> sb_map y !! bf_key b = Some (bf_data b)
}.

Lemma holds_self b : holds (bf_data b) b = 1%nat.
Proof. unfold holds. rewrite decide_True; reflexivity. Qed.

Lemma holders_two d b b' rest : bf_data b = d -> bf_data b' = d -> b' ∈ rest ->
  (2 <= sum_list_with (holds d) (b :: rest))%nat.
Proof.
  intros Hb Hb' Hin. cbn. pose proof (sum_list_with_in b' (holds d) rest Hin) as H. unfold holds at 1. rewrite decide_True by exact Hb.
  assert (holds d b' = 1%nat) as E by (unfold holds; rewrite decide_True; [reflexivity|exact Hb']). lia.
Qed.

Lemma mapped_once d k (m : gmap string Z) : m !! k = Some d -> (1 <= size (filter (fun kv : string * Z => kv.2 = d) m))%nat.
Proof.
  intros H. destruct (size (filter (fun kv : string * Z => kv.2 = d) m)) eqn:E; [|lia]. apply map_size_empty_iff in E.
  assert (filter (fun kv : string * Z => kv.2 = d) m !! k = Some d) as Hf by (apply map_lookup_filter_Some; auto). rewrite E, lookup_empty in Hf. discriminate Hf.
Qed.

Lemma release_map key d y k d' : sb_map (releaseUserSharedBuffer key d y) !! k = Some d' -> sb_map y !! k = Some d'.
Proof.
  unfold releaseUserSharedBuffer. case_decide; [|auto]. destruct (use_count d y <=? 2)%nat; [|auto].
  cbn. intros (_ & Hl)%lookup_delete_Some. exact Hl.
Qed.

Lemma release_other key d y : sb_column (releaseUserSharedBuffer key d y) = sb_column y /\ sb_data (releaseUserSharedBuffer key d y) = sb_data y /\
  sb_next (releaseUserSharedBuffer key d y) = sb_next y.
Proof. unfold releaseUserSharedBuffer. case_decide; [|auto]. destruct (use_count d y <=? 2)%nat; auto. Qed.

(** The entry is evicted only by the finalizer of the last ArrayBuffer. *)
Lemma release_keeps b b' rest y : sb_buffers y ≡ₚ b :: rest -> b' ∈ rest ->
  sb_map y !! bf_key b' = Some (bf_data b') ->
  sb_map (releaseUserSharedBuffer (bf_key b) (bf_data b) y) !! bf_key b' = Some (bf_data b').
Proof.
  intros E Hin Hm. unfold releaseUserSharedBuffer. case_decide as Hb; [|exact Hm].
  destruct (Nat.leb_spec (use_count (bf_data b) y) 2) as [Hle|]; [|exact Hm]. cbn.
  apply lookup_delete_Some. split; [|exact Hm]. intros Hk. rewrite <- Hk in Hm. assert (bf_data b' = bf_data b) as Ed by congruence.
  unfold use_count in Hle. rewrite E in Hle. pose proof (mapped_once _ _ _ Hb). pose proof (holders_two (bf_data b) b b' rest eq_refl Ed Hin). lia.
Qed.

Lemma get_ok y key default created : buf_ok y -> buf_ok (snd (getUserSharedBuffer key default created y)).
Proof.
  intros [H1 H2 H3 H4]. unfold getUserSharedBuffer. destruct (sb_map y !! key) as [d|] eqn:Em; cbn.
  - constructor; cbn; [|exact H2|exact H3|].
    + intros b [->|Hb]%elem_of_cons; [exact (H2 _ _ Em)|exact (H1 b Hb)].
    + intros Hc b [->|Hb]%elem_of_cons Hst; [exact Em|exact (H4 Hc b Hb Hst)].
  - assert (Hne : forall d, is_Some (sb_data y !! d) -> is_Some (<[sb_next y := default]> (sb_data y) !! d)).
    { intros d Hd. apply lookup_insert_is_Some. destruct (decide (sb_next y = d)); auto. }
    constructor; cbn.
    + intros b [->|Hb]%elem_of_cons; [cbn; rewrite lookup_insert_eq; eauto|exact (Hne _ (H1 b Hb))].
    + intros k d [(<- & <-)|(_ & Hk)]%lookup_insert_Some; [rewrite lookup_insert_eq; eauto|exact (Hne _ (H2 _ _ Hk))].
    + intros d Hd. rewrite lookup_insert_ne by lia. apply H3. lia.
    + intros Hc b [->|Hb]%elem_of_cons Hst; [apply lookup_insert_eq|]. rewrite lookup_insert_ne; [exact (H4 Hc b Hb Hst)|].
      intros Ek. pose proof (H4 Hc b Hb Hst). congruence.
Qed.

Lemma free_ok d y : buf_ok y -> buf_ok (free_unused d y).
Proof.
  intros [H1 H2 H3 H4]. unfold free_unused. destruct (Nat.eqb_spec (use_count d y) 0) as [E|]; [|constructor; assumption].
  unfold use_count in E. constructor; cbn; [| | |exact H4].
  - intros b Hb. rewrite lookup_delete_ne; [exact (H1 b Hb)|]. intros ->. pose proof (sum_list_with_in b (holds (bf_data b)) _ Hb).
    rewrite holds_self in *. lia.
  - intros k x Hk. rewrite lookup_delete_ne; [exact (H2 k x Hk)|]. intros ->. pose proof (mapped_once _ _ _ Hk). lia.
  - intros x Hx. rewrite lookup_delete_None. right. exact (H3 x Hx).
Qed.

Lemma buf_ok_step y y' : buf_ok y -> buf_step y y' -> buf_ok y'.
Proof.
  intros Hok Hs. destruct Hs as [y key default created Hc|y b bytes Hb Hst|y b rest E Hst|y b rest E Hst|y Hc].
  - apply get_ok, Hok.
  - destruct Hok as [H1 H2 H3 H4]. constructor; cbn; [| | |exact H4].
    + intros b' Hb'. apply lookup_insert_is_Some. destruct (decide (bf_data b = bf_data b')); auto.
    + intros k d Hk. apply lookup_insert_is_Some. destruct (decide (bf_data b = d)); eauto.
    + intros d Hd. rewrite lookup_insert_ne; [exact (H3 d Hd)|]. intros <-. pose proof (H3 _ Hd) as Hn. destruct (H1 b Hb) as (x & Hx). congruence.
  - destruct Hok as [H1 H2 H3 H4]. unfold finalize_release.
    assert (Hb : b ∈ sb_buffers y) by (rewrite E; apply list_elem_of_here).
    assert (Hrest : forall b', b' ∈ rest -> b' ∈ sb_buffers y) by (intros b' Hb'; rewrite E; apply list_elem_of_further, Hb').
    destruct (release_other (bf_key b) (bf_data b) y) as (E1 & E2 & E3).
    destruct (sb_column y) eqn:Ec; constructor; cbn; rewrite ?E2, ?E3.
    + intros b' [->|Hb']%elem_of_cons; [exact (H1 b Hb)|exact (H1 b' (Hrest b' Hb'))].
    + intros k d Hk%release_map. exact (H2 k d Hk).
    + exact H3.
    + intros _ b' [->|Hb']%elem_of_cons Hst'; [destruct (Hst' eq_refl)|]. apply (release_keeps b b' rest); [exact E|exact Hb'|].
      exact (H4 eq_refl b' (Hrest b' Hb') Hst').
    + intros b' [->|Hb']%elem_of_cons; [exact (H1 b Hb)|exact (H1 b' (Hrest b' Hb'))].
    + exact H2.
    + exact H3.
    + congruence.
  - apply free_ok. destruct Hok as [H1 H2 H3 H4]. constructor; cbn; [|exact H2|exact H3|].
    + intros b' Hb'. apply H1. rewrite E. apply list_elem_of_further, Hb'.
    + intros Hc b' Hb' Hst'. apply H4; [exact Hc|rewrite E; apply list_elem_of_further, Hb'|exact Hst'].
  - destruct Hok as [H1 H2 H3 H4]. constructor; cbn.
    + intros b Hb. destruct (H1 b Hb) as (x & Hx). exists x. apply map_lookup_filter_Some. split; [exact Hx|]. cbn.
      pose proof (sum_list_with_in b (holds (bf_data b)) _ Hb). rewrite holds_self in *. lia.
    + intros k d. rewrite lookup_empty. discriminate.
    + intros d Hd. apply map_lookup_filter_None. left. exact (H3 d Hd).
    + discriminate.
Qed.

Lemma buf_reachable_ok y : buf_reachable y -> buf_ok y.
Proof.
  induction 1 as [|y y' _ IH Hs]; [|exact (buf_ok_step _ _ IH Hs)].
  constructor; cbn; [intros b Hb%not_elem_of_nil; destruct Hb|intros k d; rewrite lookup_empty; discriminate|intros d _; apply lookup_empty|].
  intros _ b Hb%not_elem_of_nil. destruct Hb.
Qed.

(** C31: ArrayBuffers of a key share their memory.  In every interleaving of requests,
    writes and finalizers of any number of threads, all ArrayBuffers of a key that
    JavaScript has are over one memory while the column family exists, the next one it
    asks for is too, and the memory of an ArrayBuffer is not freed before it, even
    after the column family is gone. *)
Theorem buffers_share_memory y b b' default created : buf_reachable y ->
  b ∈ sb_buffers y -> bf_stage b = BLive -> b' ∈ sb_buffers y -> bf_stage b' = BLive -> bf_key b = bf_key b' ->
  is_Some (sb_data y !! bf_data b) /\
  (sb_column y = true -> bf_data b = bf_data b' /\ fst (getUserSharedBuffer (bf_key b) default created y) = bf_data b).
Proof.
  intros [H1 H2 H3 H4]%buf_reachable_ok Hb Hst Hb' Hst' Ek. split; [exact (H1 b Hb)|]. intros Hc.
  assert (E : sb_map y !! bf_key b = Some (bf_data b)) by (apply H4; [exact Hc|exact Hb|congruence]).
  assert (E' : sb_map y !! bf_key b' = Some (bf_data b')) by (apply H4; [exact Hc|exact Hb'|congruence]).
  split; [congruence|]. unfold getUserSharedBuffer. rewrite E. reflexivity.
Qed.

(** ** Runs *)

Definition two_buffers : Buffers :=
  mkBuffers true {[ "k" := 1 ]} {[ 1 := [] ]} 2 [mkBuffer "k" 1 BLive; mkBuffer "k" 1 BLive].

Lemma two_buffers_reachable : buf_reachable two_buffers.
Proof.
  assert (two_buffers = snd (getUserSharedBuffer "k" [] true (snd (getUserSharedBuffer "k" [] true buf_init)))) as -> by (vm_compute; reflexivity).
  apply (br_step (snd (getUserSharedBuffer "k" [] true buf_init))); [|apply b_get; reflexivity].
  apply (br_step buf_init); [constructor|apply b_get; reflexivity].
Qed.

Lemma buffers_share_memory_witness : fst (getUserSharedBuffer "k" [] true two_buffers) = 1.
Proof.
  apply (buffers_share_memory two_buffers (mkBuffer "k" 1 BLive) (mkBuffer "k" 1 BLive) [] true two_buffers_reachable);
    try reflexivity; apply list_elem_of_here.
Defined.

(** Two finalizers that overlap: each still counts the other's reference, and neither
    evicts the entry.  No ArrayBuffer is left, and the next request gets the old
    memory instead of its default. *)
Example overlapping_finalizers_keep_entry : exists y, buf_reachable y /\ sb_buffers y = [] /\ sb_map y !! "k" = Some 1.
Proof.
  pose (b := mkBuffer "k" 1 BLive). pose (r := mkBuffer "k" 1 BReleased).
  pose (y1 := finalize_release b [b] two_buffers). pose (y2 := finalize_release b [r] y1).
  pose (y3 := finalize_delete r [r] y2). pose (y4 := finalize_delete r [] y3). exists y4.
  split; [|split; reflexivity].
  apply (br_step y3); [|apply (b_delete y3 r []); reflexivity].
  apply (br_step y2); [|apply (b_delete y2 r [r]); reflexivity].
  apply (br_step y1); [|apply (b_release y1 b [r]); [apply Permutation_swap|reflexivity]].
  apply (br_step two_buffers); [exact two_buffers_reachable|apply (b_release two_buffers b [b]); reflexivity].
Qed.
