(* ===== verification/Timestamps.v ===== *)
(** * Timestamps

    [getMonotonicTimestamp] of [core/platform.cpp]: every transaction takes its start
    time from it, on any thread.  A double is its 64 bits.  The value shared by the
    threads, [lastTimestamp], is read and exchanged atomically, and the clock may give
    anything, also a time before the last one. *)

From S2P Require Import Prelude.
From stdpp Require Import base tactics list.
From Stdlib Require Import ZArith Lia Sorted.

Local Open Scope Z_scope.

(** ** Operations *)

Definition f64_infinity : Z := 0x7FF0000000000000.

Definition f64_leb (a b : Z) : bool := f64_ltb a b || f64_eqb a b.

(** [std::nextafter(d, infinity)] *)
Definition nextafter (d : Z) : Z :=
  if f64_is_nan d then d
  else if d =? f64_infinity then d
  else if f64_magnitude d =? 0 then 1
  else if Z.testbit d 63 then d - 1 else d + 1.

(** The result is moved past the last timestamp. *)
Definition past (last result : Z) : Z := if f64_leb result last then nextafter last else result.

(** A call under way: before it loads the last timestamp, with its time, and in front
    of the exchange, with [last] and [result]. *)
Inductive call := Clocked (now : Z) | Loaded (now last result : Z).

Record Stamps := mkStamps {
  lastTimestamp : Z;
  ts_calls : list call;
  ts_results : list (Z * Z)      (* the time and the result of the calls that returned, the latest first *)
}.

Definition load_last (now : Z) (s : Stamps) : call := Loaded now (lastTimestamp s) (past (lastTimestamp s) now).

(** [compare_exchange_strong], and what the loop does when it fails. *)
Definition exchange (now last result : Z) (rest : list call) (s : Stamps) : Stamps :=
  if lastTimestamp s =? last then mkStamps result rest ((now, result) :: ts_results s)
  else mkStamps (lastTimestamp s) (Loaded now (lastTimestamp s) (past (lastTimestamp s) result) :: rest) (ts_results s).

(** [limit]: no clock reading is above it. *)
Inductive ts_step (limit : Z) : Stamps -> Stamps -> Prop :=
| ts_begin s now : 0 <= now <= limit -> ts_step limit s (mkStamps (lastTimestamp s) (Clocked now :: ts_calls s) (ts_results s))
| ts_load s now rest : ts_calls s ≡ₚ Clocked now :: rest ->
    ts_step limit s (mkStamps (lastTimestamp s) (load_last now s :: rest) (ts_results s))
| ts_exchange s now last result rest : ts_calls s ≡ₚ Loaded now last result :: rest ->
    ts_step limit s (exchange now last result rest s).

Inductive ts_reachable (limit : Z) : Stamps -> Prop :=
| tsr_init : ts_reachable limit (mkStamps f64_zero [] [])
| tsr_step s s' : ts_reachable limit s -> ts_step limit s s' -> ts_reachable limit s'.

(** ** Invariant *)

Lemma past_spec last result : 0 <= last < f64_infinity -> 0 <= result < f64_infinity ->
  past last result = Z.max result (last + 1).
Proof.
  intros Hl Hr. unfold f64_infinity in *. assert (Nl : f64_nonneg last) by (unfold f64_nonneg; lia).
  assert (Nr : f64_nonneg result) by (unfold f64_nonneg; lia).
  unfold past, f64_leb. rewrite (f64_ltb_nonneg _ _ Nr Nl), (f64_eqb_nonneg _ _ Nr Nl).
  pose proof (f64_not_nan_nonneg _ Nl) as Hn. pose proof (f64_key_nonneg _ Nl) as Hk. revert Hk. unfold f64_key.
  assert (Z.testbit last 63 = false) as Eb by (apply Z.bits_above_log2; [lia|]; destruct (decide (last = 0)) as [->|]; [reflexivity|apply Z.log2_lt_pow2; lia]).
  rewrite Eb. intros Hm. destruct (Z.ltb_spec result last); cbn [orb]; [|destruct (Z.eqb_spec result last)]; [| |lia];
    unfold nextafter, f64_infinity; rewrite Hn, Hm, Eb; (destruct (Z.eqb_spec last 0x7FF0000000000000); [lia|]);
    destruct (Z.eqb_spec last 0); lia.
Qed.

(** A call in front of its exchange has a result past the timestamp it saw. *)
Definition call_ok (bound : Z) (s : Stamps) (c : call) : Prop :=
  match c with
  | Clocked now => 0 <= now <= bound
  | Loaded now last result => 0 <= now <= result /\ 0 <= last <= lastTimestamp s /\ last < result <= Z.max bound (last + 1)
  end.

Record ts_ok (limit : Z) (s : Stamps) : Prop := {
  to_last : 0 <= lastTimestamp s <= limit + Z.of_nat (length (ts_results s));
  to_calls : forall c, c ∈ ts_calls s -> call_ok (limit + Z.of_nat (length (ts_results s))) s c;
  to_results : forall r, r ∈ ts_results s -> 0 <= r.1 <= r.2 /\ r.2 <= lastTimestamp s;
  to_sorted : StronglySorted Z.gt (ts_results s).*2
}.

(** Fewer calls than doubles above the limit. *)
Definition few_calls (limit : Z) (s : Stamps) : Prop := limit + Z.of_nat (length (ts_results s)) + 1 < f64_infinity.

Lemma call_ok_mono bound bound' s s' c : bound <= bound' -> lastTimestamp s <= lastTimestamp s' -> call_ok bound s c -> call_ok bound' s' c.
Proof. intros Hb Hs. destruct c; cbn; lia. Qed.

Lemma exchange_ok limit s now last result rest : 0 <= limit -> few_calls limit s -> ts_ok limit s ->
  ts_calls s ≡ₚ Loaded now last result :: rest -> ts_ok limit (exchange now last result rest s).
Proof.
  intros Hlim Hfew [H1 H2 H3 H4] E. unfold few_calls in Hfew.
  assert (Hc := H2 (Loaded now last result) ltac:(rewrite E; apply list_elem_of_here)). cbn in Hc.
  assert (Hrest : forall c, c ∈ rest -> c ∈ ts_calls s) by (intros c ?; rewrite E; apply list_elem_of_further; assumption).
  unfold exchange. destruct (Z.eqb_spec (lastTimestamp s) last) as [El|El].
  - constructor; cbn [lastTimestamp ts_calls ts_results length].
    + lia.
    + intros c Hin. eapply call_ok_mono; [| |exact (H2 c (Hrest c Hin))]; cbn; lia.
    + intros r [->|Hr]%elem_of_cons; cbn; [lia|]. specialize (H3 r Hr). lia.
    + cbn. constructor; [exact H4|]. apply Forall_fmap, Forall_forall. intros r Hr. cbn. specialize (H3 r Hr). lia.
  - constructor; cbn [lastTimestamp ts_calls ts_results]; [lia| |exact H3|exact H4].
    intros c [->|Hin]%elem_of_cons; [|eapply call_ok_mono; [| |exact (H2 c (Hrest c Hin))]; cbn; lia].
    cbn. rewrite past_spec by lia. lia.
Qed.

Lemma ts_step_ok limit s s' : 0 <= limit -> few_calls limit s -> ts_ok limit s -> ts_step limit s s' -> ts_ok limit s'.
Proof.
  intros Hlim Hfew Hok Hs. destruct Hs as [s now Hnow|s now rest E|s now last result rest E]; [| |exact (exchange_ok _ _ _ _ _ _ Hlim Hfew Hok E)];
    destruct Hok as [H1 H2 H3 H4]; constructor; cbn [lastTimestamp ts_calls ts_results]; try assumption.
  - intros c [->|Hin]%elem_of_cons; [cbn; lia|exact (H2 c Hin)].
  - intros c [->|Hin]%elem_of_cons; [|apply H2; rewrite E; apply list_elem_of_further, Hin].
    specialize (H2 (Clocked now) ltac:(rewrite E; apply list_elem_of_here)). unfold few_calls in Hfew. cbn in H2 |- *.
    rewrite past_spec by lia. lia.
Qed.

Lemma results_grow limit s s' : ts_step limit s s' -> (length (ts_results s) <= length (ts_results s'))%nat.
Proof. intros []; cbn; [lia..|]. unfold exchange. destruct (_ =? _); cbn; lia. Qed.

Lemma ts_reachable_ok limit s : 0 <= limit -> few_calls limit s -> ts_reachable limit s -> ts_ok limit s.
Proof.
  intros Hlim Hfew Hr. induction Hr as [|s s' _ IH Hs].
  - constructor; unfold f64_zero; cbn; [lia|intros c Hc%not_elem_of_nil; destruct Hc|intros r Hr%not_elem_of_nil; destruct Hr|constructor].
  - pose proof (results_grow _ _ _ Hs). assert (F : few_calls limit s) by (unfold few_calls in *; lia). exact (ts_step_ok _ _ _ Hlim F (IH F) Hs).
Qed.

Lemma sorted_f64 l : Forall f64_nonneg l -> StronglySorted Z.gt l -> StronglySorted (fun a b => f64_ltb b a = true) l.
Proof.
  induction 2 as [|x l Hs IH Hx]; [constructor|]. apply Forall_cons in H as (Nx & Nl). constructor; [exact (IH Nl)|].
  apply Forall_forall. intros y Hy. rewrite f64_ltb_nonneg; [|exact (proj1 (Forall_forall _ _) Nl y Hy)|exact Nx].
  apply Z.ltb_lt. pose proof (proj1 (Forall_forall _ _) Hx y Hy). lia.
Qed.

(** C29: timestamps increase.  In every interleaving of any number of threads, whatever
    the clock gives, the results are strictly increasing in the order of the
    exchanges, so that no two calls get the same timestamp and a call that starts
    after another returned gets a later one; no result is before the time its call
    read. *)
Theorem timestamps_increase limit s : ts_reachable limit s -> 0 <= limit -> few_calls limit s ->
  StronglySorted (fun a b => f64_ltb b a = true) (ts_results s).*2 /\
  Forall (fun r => f64_leb r.1 r.2 = true) (ts_results s).
Proof.
  intros Hr Hlim Hfew. destruct (ts_reachable_ok _ _ Hlim Hfew Hr) as [H1 H2 H3 H4].
  assert (Hnn : forall r, r ∈ ts_results s -> f64_nonneg r.1 /\ f64_nonneg r.2).
  { intros r Hin. specialize (H3 r Hin). unfold few_calls, f64_infinity, f64_nonneg in *. lia. }
  split.
  - apply sorted_f64; [|exact H4]. apply Forall_fmap, Forall_forall. intros r Hin. exact (proj2 (Hnn r Hin)).
  - apply Forall_forall. intros r Hin. destruct (Hnn r Hin) as (N1 & N2). unfold f64_leb.
    rewrite f64_ltb_nonneg, f64_eqb_nonneg by assumption. specialize (H3 r Hin).
    destruct (Z.ltb_spec r.1 r.2); [reflexivity|]. apply Z.eqb_eq. lia.
Qed.

(** ** A call that is not disturbed *)

(** A call whose exchange is tried while no other thread is at work returns after at
    most two tries. *)
Lemma undisturbed_returns limit s now last result rest : ts_calls s ≡ₚ Loaded now last result :: rest ->
  exists s', (ts_step limit s s' \/ exists s1, ts_step limit s s1 /\ ts_step limit s1 s') /\
    exists r, ts_results s' = (now, r) :: ts_results s /\ lastTimestamp s' = r.
Proof.
  intros E. destruct (Z.eqb_spec (lastTimestamp s) last) as [El|El].
  - exists (exchange now last result rest s). split; [left; apply ts_exchange, E|]. unfold exchange. rewrite <- El, Z.eqb_refl. eauto.
  - pose (s1 := exchange now last result rest s).
    assert (E1 : s1 = mkStamps (lastTimestamp s) (Loaded now (lastTimestamp s) (past (lastTimestamp s) result) :: rest) (ts_results s))
      by (unfold s1, exchange; destruct (Z.eqb_spec (lastTimestamp s) last); [contradiction|reflexivity]).
    exists (exchange now (lastTimestamp s) (past (lastTimestamp s) result) rest s1). split.
    + right. exists s1. split; [apply ts_exchange, E|]. apply ts_exchange. rewrite E1. reflexivity.
    + rewrite E1. unfold exchange. cbn. rewrite Z.eqb_refl. eauto.
Qed.

(** ** Runs *)

(** Two threads that read the same time; the second exchange fails once. *)
Definition same_time : Stamps := mkStamps 101 [] [(100, 101); (100, 100)].

Lemma same_time_reachable : ts_reachable 100 same_time.
Proof.
  apply (tsr_step _ (mkStamps 100 [Loaded 100 100 101] [(100, 100)])); [|exact (ts_exchange 100 (mkStamps 100 [Loaded 100 100 101] [(100, 100)]) 100 100 101 [] (reflexivity _))].
  apply (tsr_step _ (mkStamps 100 [Loaded 100 0 100] [(100, 100)])); [|exact (ts_exchange 100 (mkStamps 100 [Loaded 100 0 100] [(100, 100)]) 100 0 100 [] (reflexivity _))].
  apply (tsr_step _ (mkStamps 0 [Loaded 100 0 100; Loaded 100 0 100] []));
    [|exact (ts_exchange 100 (mkStamps 0 [Loaded 100 0 100; Loaded 100 0 100] []) 100 0 100 [Loaded 100 0 100] (reflexivity _))].
  apply (tsr_step _ (mkStamps 0 [Loaded 100 0 100; Clocked 100] []));
    [|exact (ts_load 100 (mkStamps 0 [Loaded 100 0 100; Clocked 100] []) 100 [Loaded 100 0 100] (Permutation_swap _ _ _))].
  apply (tsr_step _ (mkStamps 0 [Clocked 100; Clocked 100] [])); [|exact (ts_load 100 (mkStamps 0 [Clocked 100; Clocked 100] []) 100 [Clocked 100] (reflexivity _))].
  apply (tsr_step _ (mkStamps 0 [Clocked 100] [])); [|exact (ts_begin 100 (mkStamps 0 [Clocked 100] []) 100 ltac:(lia))].
  apply (tsr_step _ (mkStamps 0 [] [])); [constructor|exact (ts_begin 100 (mkStamps 0 [] []) 100 ltac:(lia))].
Qed.

Lemma timestamps_increase_witness : StronglySorted (fun a b => f64_ltb b a = true) [101; 100].
Proof. exact (proj1 (timestamps_increase 100 same_time same_time_reachable ltac:(lia) eq_refl)). Defined.
