(* ===== verification/Settings.v ===== *)
(** * Process-wide settings

    [DBSettings] of [database/db_settings.cpp]: the block cache, the write buffer
    manager and the verification table that all databases of the process share, made
    on first use, and the JavaScript function [config] that changes them.

    [blockCacheSize] and [blockCache] are plain fields that threads read and write
    without a lock, so that [getBlockCache] is three actions, its test, the making of a
    cache and the assignment, and [Config] five: the write of the size, [SetCapacity], the reads of the
    flags, the section under [writeBufferManagerMutex], and the rest.  Other threads
    run between them.  The caches and the manager of RocksDB are the parameters they
    were made with and given since. *)

From S2P Require Import Prelude.
From stdpp Require Import base tactics list strings.
From Stdlib Require Import ZArith Lia.

Local Open Scope Z_scope.

(** ** State *)

(** [WriteBufferManager]; [wb_cost]: it was made to be charged to the block cache,
    [wb_cache]: there was one. *)
Record WriteBufferManager := mkWbm { wb_size : Z; wb_cost : bool; wb_cache : bool; wb_stall : bool }.

Record DBSettings := mkSettings {
  blockCacheSize : Z;
  blockCache : option nat;             (* which of the caches *)
  caches : list Z;                     (* the capacities of the caches that were made *)
  writeBufferManagerSize : Z;
  writeBufferManagerCostToCache : bool;
  writeBufferManagerAllowStall : bool;
  writeBufferManager : option WriteBufferManager;
  compactOnClose : bool;
  verificationTableEntries : Z;
  verificationTable : option Z         (* its number of entries *)
}.

Definition DBSettings_new : DBSettings :=
  mkSettings (32 * 1024 * 1024) None [] 0 false false None false (128 * 1024) None.

Definition set_cache (size : Z) (cache : option nat) (cs : list Z) (s : DBSettings) : DBSettings :=
  mkSettings size cache cs (writeBufferManagerSize s) (writeBufferManagerCostToCache s) (writeBufferManagerAllowStall s)
    (writeBufferManager s) (compactOnClose s) (verificationTableEntries s) (verificationTable s).
Definition set_wbm (size : Z) (cost stall : bool) (m : option WriteBufferManager) (s : DBSettings) : DBSettings :=
  mkSettings (blockCacheSize s) (blockCache s) (caches s) size cost stall m (compactOnClose s) (verificationTableEntries s) (verificationTable s).
Definition set_compactOnClose (b : bool) (s : DBSettings) : DBSettings :=
  mkSettings (blockCacheSize s) (blockCache s) (caches s) (writeBufferManagerSize s) (writeBufferManagerCostToCache s) (writeBufferManagerAllowStall s)
    (writeBufferManager s) b (verificationTableEntries s) (verificationTable s).
Definition set_table (entries : Z) (table : option Z) (s : DBSettings) : DBSettings :=
  mkSettings (blockCacheSize s) (blockCache s) (caches s) (writeBufferManagerSize s) (writeBufferManagerCostToCache s) (writeBufferManagerAllowStall s)
    (writeBufferManager s) (compactOnClose s) entries table.

(** ** What the databases ask for *)

(** The test of [getBlockCache]: no cache, the one there is, or one has to be made. *)
Inductive cache_answer := NoCache | TheCache (c : nat) | MakeCache.

Definition cache_test (s : DBSettings) : cache_answer :=
  if blockCacheSize s =? 0 then NoCache
  else match blockCache s with Some c => TheCache c | None => MakeCache end.

(** [rocksdb::NewLRUCache(blockCacheSize)], and its assignment to [blockCache]. *)
Definition cache_make (s : DBSettings) : nat * DBSettings :=
  (length (caches s), set_cache (blockCacheSize s) (blockCache s) (caches s ++ [blockCacheSize s]) s).
Definition cache_assign (c : nat) (s : DBSettings) : DBSettings := set_cache (blockCacheSize s) (Some c) (caches s) s.

(** [getBlockCache] with nothing in between. *)
Definition getBlockCache (s : DBSettings) : option nat * DBSettings :=
  match cache_test s with
  | NoCache => (None, s)
  | TheCache c => (Some c, s)
  | MakeCache => let '(c, s1) := cache_make s in (Some c, cache_assign c s1)
  end.

(** The start of [getWriteBufferManager] under its mutex: none, the one there is, or
    one has to be made, charged to the block cache or not. *)
Inductive manager_answer := NoManager | TheManager (m : WriteBufferManager) | MakeManager (cost : bool).

Definition manager_test (s : DBSettings) : manager_answer :=
  if writeBufferManagerSize s =? 0 then NoManager
  else match writeBufferManager s with Some m => TheManager m | None => MakeManager (writeBufferManagerCostToCache s) end.

(** [make_shared<WriteBufferManager>(...)]; [cache]: [getBlockCache] gave one. *)
Definition manager_make (cost cache : bool) (s : DBSettings) : DBSettings :=
  set_wbm (writeBufferManagerSize s) (writeBufferManagerCostToCache s) (writeBufferManagerAllowStall s)
    (Some (mkWbm (writeBufferManagerSize s) cost cache (writeBufferManagerAllowStall s))) s.

(** [getWriteBufferManager] with nothing in between. *)
Definition getWriteBufferManager (s : DBSettings) : option WriteBufferManager * DBSettings :=
  match manager_test s with
  | NoManager => (None, s)
  | TheManager m => (Some m, s)
  | MakeManager cost =>
      let '(cache, s1) := if cost then getBlockCache s else (None, s) in
      let s2 := manager_make cost (match cache with Some _ => true | None => false end) s1 in
      (writeBufferManager s2, s2)
  end.

Definition getVerificationTable (s : DBSettings) : Z * DBSettings :=
  match verificationTable s with
  | Some n => (n, s)
  | None => (verificationTableEntries s, set_table (verificationTableEntries s) (Some (verificationTableEntries s)) s)
  end.

(** ** config *)

(** A property of the argument: missing ([undefined] and [null] too), of another type,
    or a value. *)
Inductive prop (A : Type) := PMissing | PBad | PValue (a : A).
Arguments PMissing {A}.
Arguments PBad {A}.
Arguments PValue {A} a.

Record Params := mkParams {
  p_blockCacheSize : prop Z;
  p_writeBufferManagerSize : prop Z;
  p_costToCache : prop bool;
  p_allowStall : prop bool;
  p_compactOnClose : prop bool;
  p_verificationTableEntries : prop Z
}.

(** [getProperty] of a required property: [None] is a status that is not [napi_ok]. *)
Definition required {A} (p : prop A) : option A := match p with PValue a => Some a | _ => None end.

(** [newCostToCache] and [newAllowStall] *)
Record flags := mkFlags { fl_cost : bool; fl_stall : bool }.

(** The size of the block cache; [inl] is the error thrown, [inr true] means that
    [SetCapacity] is next. *)
Definition config_size (p : Params) (s : DBSettings) : (string + bool) * DBSettings :=
  match required (p_blockCacheSize p) with
  | Some n =>
      if n <? 0 then (inl "Block cache size must be a positive integer or 0 to disable caching", s)
      else (inr true, set_cache n (blockCache s) (caches s) s)
  | None => (inr false, s)
  end.

(** [if (settings.blockCache) settings.blockCache->SetCapacity(blockCacheSize)] *)
Definition config_capacity (p : Params) (s : DBSettings) : DBSettings :=
  match blockCache s, required (p_blockCacheSize p) with
  | Some c, Some n => set_cache (blockCacheSize s) (blockCache s) (<[c := n]> (caches s)) s
  | _, _ => s
  end.

(** Up to the mutex. *)
Definition config_flags (p : Params) (s : DBSettings) : string + flags :=
  if match required (p_writeBufferManagerSize p) with Some n => n <? 0 | None => false end
  then inl "Write buffer manager size must be a positive integer or 0 to disable"
  else inr (mkFlags (default (writeBufferManagerCostToCache s) (required (p_costToCache p)))
              (default (writeBufferManagerAllowStall s) (required (p_allowStall p)))).

Definition is_some {A} (o : option A) : bool := match o with Some _ => true | None => false end.

(** Under the mutex. *)
Definition config_locked (p : Params) (f : flags) (s : DBSettings) : (string + unit) * DBSettings :=
  let created := is_some (writeBufferManager s) in
  if created && is_some (required (p_costToCache p)) && negb (Bool.eqb (fl_cost f) (writeBufferManagerCostToCache s))
  then (inl "writeBufferManagerCostToCache cannot be changed after the WriteBufferManager has been created", s)
  else
    let size := default (writeBufferManagerSize s) (required (p_writeBufferManagerSize p)) in
    let resized := match required (p_writeBufferManagerSize p) with Some n => 0 <? n | None => false end in
    let m := m ← writeBufferManager s;
             Some (mkWbm (if resized then size else wb_size m) (wb_cost m) (wb_cache m)
                     (if is_some (required (p_allowStall p)) then fl_stall f else wb_stall m)) in
    (inr tt, set_wbm size (fl_cost f) (fl_stall f) m s).

(** After the mutex. *)
Definition config_end (p : Params) (s : DBSettings) : (string + unit) * DBSettings :=
  match p_compactOnClose p with
  | PBad => (inl "napi", s)
  | c =>
      let s1 := match c with PValue b => set_compactOnClose b s | _ => s end in
      match required (p_verificationTableEntries p) with
      | None => (inr tt, s1)
      | Some n =>
          if n <? 0 then (inl "Verification table entries must be a positive integer or 0 to disable verification", s1)
          else if is_some (verificationTable s1) then (inl "Verification table size cannot be changed after the first database is opened", s1)
          else (inr tt, set_table n None s1)
      end
  end.

(** [Config] with nothing in between. *)
Definition Config (p : Params) (s : DBSettings) : (string + unit) * DBSettings :=
  match config_size p s with
  | (inl e, s1) => (inl e, s1)
  | (inr sized, s1) =>
      let s2 := if sized : bool then config_capacity p s1 else s1 in
      match config_flags p s2 with
      | inl e => (inl e, s2)
      | inr f =>
          match config_locked p f s2 with
          | (inl e, s3) => (inl e, s3)
          | (inr _, s3) => config_end p s3
          end
      end
  end.

(** ** Threads *)

(** A call of [config] under way: about to set the capacity, to read the flags, in
    front of the mutex, or behind it. *)
Inductive cfg := Sized (p : Params) | Opened (p : Params) | Before (p : Params) (f : flags) | After (p : Params).

(** The thread that has [writeBufferManagerMutex] and makes a manager: about to ask
    for the block cache, to make it, to assign it, or to make the manager. *)
Inductive maker := MTest | MCreate | MAssign (c : nat) | MMake (cost cache : bool).

Definition maker_start (cost : bool) : maker := if cost then MTest else MMake false false.
Definition maker_tested (a : cache_answer) : maker :=
  match a with NoCache => MMake true false | TheCache _ => MMake true true | MakeCache => MCreate end.

(** A thread in [getBlockCache] past its test: about to make a cache, or to assign it. *)
Inductive opener := OMake | OAssign (c : nat).

Record SetSys := mkSetSys { ss_settings : DBSettings; ss_calls : list cfg; ss_openers : list opener; ss_maker : option maker }.

(** [n]: the number of threads that may be in [config] at a time. *)
Inductive set_step (n : nat) : SetSys -> SetSys -> Prop :=
| st_cache_test s cs o m : cache_test s = MakeCache -> set_step n (mkSetSys s cs o m) (mkSetSys s cs (OMake :: o) m)
| st_cache_make s cs o o' m : o ≡ₚ OMake :: o' ->
    set_step n (mkSetSys s cs o m) (mkSetSys (cache_make s).2 cs (OAssign (cache_make s).1 :: o') m)
| st_cache_assign s cs o o' m c : o ≡ₚ OAssign c :: o' -> set_step n (mkSetSys s cs o m) (mkSetSys (cache_assign c s) cs o' m)
| st_manager s cs o cost : manager_test s = MakeManager cost ->
    set_step n (mkSetSys s cs o None) (mkSetSys s cs o (Some (maker_start cost)))
| st_manager_test s cs o : set_step n (mkSetSys s cs o (Some MTest)) (mkSetSys s cs o (Some (maker_tested (cache_test s))))
| st_manager_create s cs o :
    set_step n (mkSetSys s cs o (Some MCreate)) (mkSetSys (cache_make s).2 cs o (Some (MAssign (cache_make s).1)))
| st_manager_assign s cs o c :
    set_step n (mkSetSys s cs o (Some (MAssign c))) (mkSetSys (cache_assign c s) cs o (Some (MMake true true)))
| st_manager_make s cs o cost cache :
    set_step n (mkSetSys s cs o (Some (MMake cost cache))) (mkSetSys (manager_make cost cache s) cs o None)
| st_table s cs o m : set_step n (mkSetSys s cs o m) (mkSetSys (snd (getVerificationTable s)) cs o m)
| st_size s cs o m p sized s' : (length cs < n)%nat -> config_size p s = (inr sized, s') ->
    set_step n (mkSetSys s cs o m) (mkSetSys s' ((if sized : bool then Sized p else Opened p) :: cs) o m)
| st_capacity s cs o m p cs' : cs ≡ₚ Sized p :: cs' ->
    set_step n (mkSetSys s cs o m) (mkSetSys (config_capacity p s) (Opened p :: cs') o m)
| st_flags s cs o m p cs' : cs ≡ₚ Opened p :: cs' ->
    set_step n (mkSetSys s cs o m)
      (mkSetSys s (match config_flags p s with inl _ => cs' | inr f => Before p f :: cs' end) o m)
| st_locked s cs o p f cs' : cs ≡ₚ Before p f :: cs' ->
    set_step n (mkSetSys s cs o None)
      (match config_locked p f s with (inl _, s') => mkSetSys s' cs' o None | (inr _, s') => mkSetSys s' (After p :: cs') o None end)
| st_end s cs o m p cs' : cs ≡ₚ After p :: cs' -> set_step n (mkSetSys s cs o m) (mkSetSys (snd (config_end p s)) cs' o m).

Inductive set_reachable (n : nat) : SetSys -> Prop :=
| sr_init : set_reachable n (mkSetSys DBSettings_new [] [] None)
| sr_step y y' : set_reachable n y -> set_step n y y' -> set_reachable n y'.

(** ** The settings and what was made from them *)

Record agrees (s : DBSettings) : Prop := {
  ag_size : forall m, writeBufferManager s = Some m -> wb_size m = writeBufferManagerSize s \/ writeBufferManagerSize s = 0;
  ag_flags : forall m, writeBufferManager s = Some m ->
    wb_cost m = writeBufferManagerCostToCache s /\ wb_stall m = writeBufferManagerAllowStall s;
  ag_table : forall n, verificationTable s = Some n -> n = verificationTableEntries s
}.

(** The flags of a call that are not of its argument are those of the settings; its
    size was tested. *)
Definition call_current (s : DBSettings) (c : cfg) : Prop :=
  match c with
  | Before p f =>
      fl_cost f = default (writeBufferManagerCostToCache s) (required (p_costToCache p)) /\
      fl_stall f = default (writeBufferManagerAllowStall s) (required (p_allowStall p)) /\
      (forall n, required (p_writeBufferManagerSize p) = Some n -> 0 <= n)
  | _ => True
  end.

(** The thread that makes a manager reads the charge once, under the mutex. *)
Definition maker_current (s : DBSettings) (m : option maker) : Prop :=
  match m with
  | None => True
  | Some k => writeBufferManager s = None /\ writeBufferManagerCostToCache s = match k with MMake cost _ => cost | _ => true end
  end.

Definition set_ok (y : SetSys) : Prop :=
  agrees (ss_settings y) /\ (length (ss_calls y) <= 1)%nat /\ Forall (call_current (ss_settings y)) (ss_calls y) /\
  maker_current (ss_settings y) (ss_maker y).

(** The manager and the table, once made, stay: only parameters of the manager change. *)
Definition keeps (s s' : DBSettings) : Prop :=
  (forall m, writeBufferManager s = Some m -> exists m', writeBufferManager s' = Some m' /\ wb_cost m' = wb_cost m /\ wb_cache m' = wb_cache m) /\
  (forall n, verificationTable s = Some n -> verificationTable s' = Some n).

(** ** Proofs *)

(** What the block cache does is of no concern to the rest. *)
Definition cache_only (s s' : DBSettings) : Prop := exists n c l, s' = set_cache n c l s.

Lemma agrees_cache s s' : cache_only s s' -> agrees s -> agrees s'.
Proof. intros (n & c & l & ->) []. constructor; assumption. Qed.

Lemma keeps_cache s s' : cache_only s s' -> keeps s s'.
Proof. intros (n & c & l & ->). split; cbn; eauto. Qed.

Lemma calls_cache s s' cs : cache_only s s' -> Forall (call_current s) cs -> Forall (call_current s') cs.
Proof. intros (n & c & l & ->) H. eapply Forall_impl; [exact H|]. intros [| | |]; auto. Qed.

Lemma maker_cache s s' m : cache_only s s' -> maker_current s m -> maker_current s' m.
Proof. intros (n & c & l & ->). destruct m; auto. Qed.

Lemma cache_only_refl s : cache_only s s.
Proof. exists (blockCacheSize s), (blockCache s), (caches s). by destruct s. Qed.

Lemma make_cache_only s : cache_only s (cache_make s).2.
Proof. by eexists _, _, _. Qed.

Lemma assign_cache_only c s : cache_only s (cache_assign c s).
Proof. by eexists _, _, _. Qed.

Lemma capacity_cache_only p s : cache_only s (config_capacity p s).
Proof. unfold config_capacity. destruct (blockCache s) eqn:E, (required (p_blockCacheSize p)); try apply cache_only_refl. by eexists _, _, _. Qed.

Lemma size_cache_only p s r s' : config_size p s = (inr r, s') -> cache_only s s'.
Proof.
  unfold config_size. destruct (required (p_blockCacheSize p)) as [n|]; [destruct (n <? 0)|]; intros H; try discriminate; injection H as _ <-; [by eexists _, _, _|apply cache_only_refl].
Qed.

(** Making the manager. *)
Lemma manager_make_ok s cost cache : writeBufferManagerCostToCache s = cost -> agrees s -> agrees (manager_make cost cache s).
Proof. intros <- [A2 A3 A4]. constructor; cbn; [| |exact A4]; intros m [= <-]; auto. Qed.

Lemma table_ok s : agrees s -> agrees (snd (getVerificationTable s)).
Proof.
  intros [H2 H3 H4]. unfold getVerificationTable. destruct (verificationTable s) eqn:E; constructor; cbn; try assumption; [rewrite E; assumption|congruence].
Qed.

Lemma table_flags s : let s' := snd (getVerificationTable s) in
  writeBufferManagerCostToCache s' = writeBufferManagerCostToCache s /\ writeBufferManagerAllowStall s' = writeBufferManagerAllowStall s.
Proof. cbn. unfold getVerificationTable. destruct (verificationTable s); auto. Qed.

Lemma flags_ok p s f : config_flags p s = inr f -> call_current s (Before p f).
Proof.
  unfold config_flags. destruct (required (p_writeBufferManagerSize p)) as [k|] eqn:Ek; [destruct (Z.ltb_spec k 0); [discriminate|]|];
    intros [= <-]; cbn; (split; [reflexivity|split; [reflexivity|]]); rewrite Ek; [by intros ? [= <-]|discriminate].
Qed.

Lemma locked_ok p f s : agrees s -> call_current s (Before p f) -> agrees (snd (config_locked p f s)).
Proof.
  intros [H2 H3 H4] (Fc & Fs & Fn). unfold config_locked.
  destruct (is_some (writeBufferManager s) && is_some (required (p_costToCache p)) && negb (Bool.eqb (fl_cost f) (writeBufferManagerCostToCache s))) eqn:E;
    [constructor; assumption|].
  constructor; cbn; [| |exact H4]; intros m Hm; destruct (writeBufferManager s) as [m0|] eqn:Em; cbn in Hm; try discriminate; injection Hm as <-; cbn.
  - destruct (required (p_writeBufferManagerSize p)) as [n|]; cbn; [|exact (H2 m0 eq_refl)].
    destruct (Z.ltb_spec 0 n); [auto|]. specialize (Fn n eq_refl). right. lia.
  - destruct (H3 m0 eq_refl) as (Hc & Hs). cbn in E. split.
    + rewrite Hc. destruct (required (p_costToCache p)); cbn in *; [|congruence].
      apply negb_false_iff, Bool.eqb_prop in E. congruence.
    + destruct (required (p_allowStall p)); cbn in *; congruence.
Qed.

Lemma end_ok p s : agrees s -> agrees (snd (config_end p s)).
Proof.
  intros H. assert (Hb : forall b, agrees (set_compactOnClose b s)) by (destruct H; intros b; constructor; assumption).
  assert (Ht : forall n s', agrees s' -> agrees (set_table n None s')) by (intros n s' [A2 A3 A4]; constructor; cbn; [assumption..|discriminate]).
  unfold config_end. destruct (p_compactOnClose p) as [| |b]; [|exact H|];
    (destruct (required (p_verificationTableEntries p)) as [n|]; [destruct (n <? 0); [|destruct (is_some _)]|]; cbn [snd]; auto).
Qed.

Lemma one_call (cs cs' : list cfg) c : (length cs <= 1)%nat -> cs ≡ₚ c :: cs' -> cs = [c] /\ cs' = [].
Proof.
  intros Hl E. pose proof (Permutation_length E) as El. cbn in El. destruct cs' as [|d cs']; [|cbn in El; lia].
  split; [exact (proj1 (Permutation_singleton_r _ _) E)|reflexivity].
Qed.

(** A step that keeps the flags keeps the calls. *)
Lemma keep_calls s s' cs :
  writeBufferManagerCostToCache s' = writeBufferManagerCostToCache s /\ writeBufferManagerAllowStall s' = writeBufferManagerAllowStall s ->
  Forall (call_current s) cs -> Forall (call_current s') cs.
Proof. intros (E1 & E2) H. eapply Forall_impl; [exact H|]. intros [p|p|p f|p]; cbn; auto. rewrite E1, E2; auto. Qed.

Lemma end_frame p s : let s' := snd (config_end p s) in
  writeBufferManager s' = writeBufferManager s /\ writeBufferManagerCostToCache s' = writeBufferManagerCostToCache s.
Proof.
  unfold config_end. destruct (p_compactOnClose p) as [| |b]; [|auto|];
    (destruct (required (p_verificationTableEntries p)) as [n|]; [destruct (n <? 0); [|destruct (is_some _)]|]; auto).
Qed.

(** A step of the block cache. *)
Lemma set_ok_cache s s' cs o o' m : cache_only s s' -> set_ok (mkSetSys s cs o m) -> set_ok (mkSetSys s' cs o' m).
Proof.
  intros Hc (Ha & Hl & Hf & Hm). split; [by eapply agrees_cache|]. split; [exact Hl|]. split; [by eapply calls_cache|by eapply maker_cache].
Qed.

Lemma set_step_ok y y' : set_ok y -> set_step 1 y y' -> set_ok y'.
Proof.
  intros Hok Hs. pose proof Hok as (Ha & Hl & Hf & Hm).
  destruct Hs as [s cs o m Ht|s cs o o' m E|s cs o o' m c E|s cs o cost Ht|s cs o|s cs o|s cs o c|s cs o cost cache|s cs o m|s cs o m p sized s' Hn Hr
    |s cs o m p cs' E|s cs o m p cs' E|s cs o p f cs' E|s cs o m p cs' E]; cbn in Ha, Hl, Hf, Hm.
  - exact Hok.
  - eapply set_ok_cache; [apply make_cache_only|exact Hok].
  - eapply set_ok_cache; [apply assign_cache_only|exact Hok].
  - split; [exact Ha|]. split; [exact Hl|]. split; [exact Hf|]. revert Ht. unfold manager_test. destruct (_ =? 0); [discriminate|].
    destruct (writeBufferManager s) eqn:E; [discriminate|]. intros [= <-]. cbn. by destruct (writeBufferManagerCostToCache s) eqn:Ec.
  - split; [exact Ha|]. split; [exact Hl|]. split; [exact Hf|]. cbn. destruct Hm as [H1 H2]. by destruct (cache_test s).
  - split; [eapply agrees_cache; [apply make_cache_only|exact Ha]|]. split; [exact Hl|].
    split; [eapply calls_cache; [apply make_cache_only|exact Hf]|exact Hm].
  - split; [eapply agrees_cache; [apply assign_cache_only|exact Ha]|]. split; [exact Hl|].
    split; [eapply calls_cache; [apply assign_cache_only|exact Hf]|exact Hm].
  - destruct Hm as [H1 H2]. split; [by apply manager_make_ok|]. split; [exact Hl|]. split; [|exact I]. by apply (keep_calls s).
  - split; [exact (table_ok s Ha)|]. split; [exact Hl|]. split; [exact (keep_calls _ _ _ (table_flags s) Hf)|]. cbn.
    unfold getVerificationTable. by destruct m, (verificationTable s).
  - cbn in Hn. destruct cs; [|cbn in Hn; lia]. pose proof (size_cache_only _ _ _ _ Hr) as Hc. split; [by eapply agrees_cache|]. split; [cbn; lia|].
    split; [|by eapply maker_cache]. destruct sized; by repeat constructor.
  - destruct (one_call _ _ _ Hl E) as (-> & ->). pose proof (capacity_cache_only p s) as Hc. split; [by eapply agrees_cache|]. split; [cbn; lia|].
    split; [by repeat constructor|by eapply maker_cache].
  - destruct (one_call _ _ _ Hl E) as (-> & ->). split; [exact Ha|]. destruct (config_flags p s) as [e|f] eqn:Ef; cbn; [by split; [lia|]|].
    split; [lia|]. split; [|exact Hm]. constructor; [by apply flags_ok|constructor].
  - destruct (one_call _ _ _ Hl E) as (-> & ->). apply (proj1 (Forall_singleton _ _)) in Hf. pose proof (locked_ok p f s Ha Hf) as B.
    destruct (config_locked p f s) as [[e|u] s']; cbn in *; (split; [exact B|]); cbn; [by split; [lia|]|]. split; [lia|]. split; [by repeat constructor|done].
  - destruct (one_call _ _ _ Hl E) as (-> & ->). split; [exact (end_ok p s Ha)|]. cbn. split; [lia|]. split; [constructor|].
    destruct (end_frame p s) as [E1 E2]. destruct m; cbn; [|done]. by rewrite E1, E2.
Qed.

Lemma set_reachable_ok y : set_reachable 1 y -> set_ok y.
Proof.
  induction 1 as [|y y' _ IH Hs]; [|exact (set_step_ok _ _ IH Hs)]. split; [|cbn; auto]. constructor; cbn; discriminate.
Qed.

Lemma keeps_refl s : keeps s s.
Proof. repeat split; eauto. Qed.

Lemma locked_keeps p f s : keeps s (snd (config_locked p f s)).
Proof.
  unfold config_locked. destruct (_ && _ && _); [apply keeps_refl|]. repeat split; cbn; auto.
  intros m ->. cbn. eexists. split; [reflexivity|auto].
Qed.

Lemma end_keeps p s : keeps s (snd (config_end p s)).
Proof.
  assert (Hb : forall b, keeps s (set_compactOnClose b s)) by (intros b; repeat split; cbn; eauto).
  assert (Ht : forall n s', verificationTable s' = None -> keeps s s' -> keeps s (set_table n None s')).
  { intros n s' Hn (K2 & K3). split; [exact K2|]. intros k Hk. pose proof (K3 k Hk). congruence. }
  unfold config_end. destruct (p_compactOnClose p) as [| |b]; [|apply keeps_refl|];
    (destruct (required (p_verificationTableEntries p)) as [n|]; [|first [apply Hb|apply keeps_refl]]; destruct (n <? 0); [first [apply Hb|apply keeps_refl]|];
     match goal with |- context [is_some (verificationTable ?t)] => destruct (verificationTable t) eqn:E end; cbn;
     [first [apply Hb|apply keeps_refl]|apply Ht; [exact E|first [apply Hb|apply keeps_refl]]]).
Qed.

Lemma table_keeps s : keeps s (snd (getVerificationTable s)).
Proof. unfold getVerificationTable. destruct (verificationTable s) eqn:E; [apply keeps_refl|]. repeat split; cbn; eauto. congruence. Qed.

Lemma set_step_keeps n y y' : maker_current (ss_settings y) (ss_maker y) -> set_step n y y' -> keeps (ss_settings y) (ss_settings y').
Proof.
  intros Hm Hs. destruct Hs as [s cs o m Ht|s cs o o' m E|s cs o o' m c E|s cs o cost Ht|s cs o|s cs o|s cs o c|s cs o cost cache|s cs o m|s cs o m p sized s' Hn Hr
    |s cs o m p cs' E|s cs o m p cs' E|s cs o p f cs' E|s cs o m p cs' E]; cbn in *; try apply keeps_refl.
  - apply keeps_cache, make_cache_only.
  - apply keeps_cache, assign_cache_only.
  - apply keeps_cache, make_cache_only.
  - apply keeps_cache, assign_cache_only.
  - destruct Hm as [H1 _]. split; cbn; [intros m; congruence|auto].
  - apply table_keeps.
  - by eapply keeps_cache, size_cache_only.
  - apply keeps_cache, capacity_cache_only.
  - pose proof (locked_keeps p f s) as K. destruct (config_locked p f s) as [[e|u] s']; exact K.
  - apply end_keeps.
Qed.

(** C30: The settings and the write buffer manager and verification table made from
    them agree.  Over every interleaving of one thread that calls [config], with any
    arguments, refused ones included, and any number of threads that ask for the shared
    objects: the write buffer manager has the size that is set (unless that was set to 0
    since) and the flags, the verification table its number of entries; and no step
    replaces or drops the manager or the table, or changes what the manager charges.
    Nothing is said of the block cache, which has no lock: two openers can make two of
    them ([two_caches]) and a call of [config] beside an opener can leave a capacity
    that is not set ([capacity_races]).  With two threads in [config] the flags can be
    lost ([two_configs_diverge]). *)
Theorem settings_agree y : set_reachable 1 y ->
  agrees (ss_settings y) /\ forall y', set_step 1 y y' -> keeps (ss_settings y) (ss_settings y').
Proof.
  intros H. pose proof (set_reachable_ok y H) as (Ha & _ & _ & Hm). split; [exact Ha|]. intros y'. by apply set_step_keeps.
Qed.

(** ** Runs *)

Definition no_params : Params := mkParams PMissing PMissing PMissing PMissing PMissing PMissing.
Definition charge_params : Params := mkParams PMissing (PValue 64) (PValue true) PMissing PMissing PMissing.

(** A call of [config] that nothing interrupts. *)
Lemma config_runs n s cs o p :
  set_reachable n (mkSetSys s cs o None) -> (length cs < n)%nat -> set_reachable n (mkSetSys (snd (Config p s)) cs o None).
Proof.
  intros H Hn. unfold Config. destruct (config_size p s) as [[e|sized] s1] eqn:Es.
  { unfold config_size in Es. destruct (required (p_blockCacheSize p)) as [k|]; [destruct (k <? 0)|]; try discriminate. by injection Es as _ <-. }
  pose proof (sr_step _ _ _ H (st_size n s cs o None p sized s1 Hn Es)) as H1.
  set (s2 := if sized then config_capacity p s1 else s1).
  assert (H2 : set_reachable n (mkSetSys s2 (Opened p :: cs) o None)).
  { unfold s2. destruct sized; [|exact H1]. exact (sr_step _ _ _ H1 (st_capacity n s1 _ o None p cs (reflexivity _))). }
  pose proof (sr_step _ _ _ H2 (st_flags n s2 _ o None p cs (reflexivity _))) as H3. destruct (config_flags p s2) as [e|f]; [exact H3|].
  pose proof (sr_step _ _ _ H3 (st_locked n s2 _ o p f cs (reflexivity _))) as H4. destruct (config_locked p f s2) as [[e|u] s3]; [exact H4|].
  exact (sr_step _ _ _ H4 (st_end n s3 _ o None p cs (reflexivity _))).
Qed.

(** The same of [getWriteBufferManager] where one has to be made. *)
Lemma manager_runs n s cs o cost :
  manager_test s = MakeManager cost -> set_reachable n (mkSetSys s cs o None) -> set_reachable n (mkSetSys (snd (getWriteBufferManager s)) cs o None).
Proof.
  intros Ht H. unfold getWriteBufferManager. rewrite Ht. pose proof (sr_step _ _ _ H (st_manager n s cs o cost Ht)) as H1.
  destruct cost; [|exact (sr_step _ _ _ H1 (st_manager_make n s cs o false false))].
  pose proof (sr_step _ _ _ H1 (st_manager_test n s cs o)) as H2. unfold getBlockCache. destruct (cache_test s); cbn in *.
  - exact (sr_step _ _ _ H2 (st_manager_make n s cs o true false)).
  - exact (sr_step _ _ _ H2 (st_manager_make n s cs o true true)).
  - pose proof (sr_step _ _ _ H2 (st_manager_create n s cs o)) as H3. pose proof (sr_step _ _ _ H3 (st_manager_assign n _ cs o _)) as H4.
    exact (sr_step _ _ _ H4 (st_manager_make n _ cs o true true)).
Qed.

Definition charged : DBSettings := snd (getWriteBufferManager (snd (Config charge_params DBSettings_new))).

Lemma charged_reachable n : (0 < n)%nat -> set_reachable n (mkSetSys charged [] [] None).
Proof. intros Hn. eapply manager_runs; [reflexivity|]. apply config_runs; [constructor|exact Hn]. Qed.

Lemma settings_agree_witness : agrees charged /\ writeBufferManager charged = Some (mkWbm 64 true true false).
Proof. split; [exact (proj1 (settings_agree (mkSetSys charged [] [] None) (charged_reachable 1 ltac:(lia))))|reflexivity]. Defined.

(** Two threads that open their first databases both find no block cache and make one:
    the cache of the first is replaced, and its database is alone with it. *)
Example two_caches : exists s, set_reachable 1 (mkSetSys s [] [] None) /\ blockCache s = Some 1%nat /\ length (caches s) = 2%nat.
Proof.
  pose proof (sr_step _ _ _ (sr_init 1) (st_cache_test 1 DBSettings_new [] [] None eq_refl)) as H1.
  pose proof (sr_step _ _ _ H1 (st_cache_test 1 DBSettings_new [] _ None eq_refl)) as H2.
  pose proof (sr_step _ _ _ H2 (st_cache_make 1 _ [] _ [OMake] None (reflexivity _))) as H3.
  pose proof (sr_step _ _ _ H3 (st_cache_assign 1 _ [] _ [OMake] None _ (reflexivity _))) as H4.
  pose proof (sr_step _ _ _ H4 (st_cache_make 1 _ [] _ [] None (reflexivity _))) as H5.
  pose proof (sr_step _ _ _ H5 (st_cache_assign 1 _ [] _ [] None _ (reflexivity _))) as H6.
  eexists. split; [exact H6|]. split; reflexivity.
Qed.

(** A whole call of [config] sets the size while an opener has made a cache and not yet
    assigned it: [SetCapacity] is skipped, and the capacity is not the size that is set. *)
Example capacity_races : exists s, set_reachable 1 (mkSetSys s [] [] None) /\ blockCacheSize s = 5 /\ blockCache s = Some O /\
  caches s = [32 * 1024 * 1024].
Proof.
  pose proof (sr_step _ _ _ (sr_init 1) (st_cache_test 1 DBSettings_new [] [] None eq_refl)) as H1.
  pose proof (sr_step _ _ _ H1 (st_cache_make 1 _ [] _ [] None (reflexivity _))) as H2.
  pose proof (config_runs 1 _ [] _ (mkParams (PValue 5) PMissing PMissing PMissing PMissing PMissing) H2 ltac:(cbn; lia)) as H3.
  pose proof (sr_step _ _ _ H3 (st_cache_assign 1 _ [] _ [] None _ (reflexivity _))) as H4.
  eexists. split; [exact H4|]. split_and!; reflexivity.
Qed.

(** The charge of a manager that exists cannot be changed; the refused call leaves the
    manager and its settings as they were. *)
Example charge_is_fixed : exists e, Config (mkParams PMissing (PValue 8) (PValue false) PMissing PMissing PMissing) charged = (inl e, charged).
Proof. eexists. reflexivity. Qed.

(** A call that is refused at its end has changed what comes before. *)
Example refused_config_applies : exists e s, Config (mkParams (PValue 5) (PValue 8) PMissing PMissing PBad PMissing) charged = (inl e, s) /\
  blockCacheSize s = 5 /\ writeBufferManagerSize s = 8.
Proof. eexists _, _. split; [reflexivity|]. split; reflexivity. Qed.

(** Two threads in [config]: the one that gave no flag had read the flags before the
    other set them, and writes the old ones back.  The settings then differ from the
    manager that was made in between, and a call that asks for what the manager does
    is refused. *)
Example two_configs_diverge : exists s e, set_reachable 2 (mkSetSys s [] [] None) /\
  (exists m, writeBufferManager s = Some m /\ wb_cost m = true) /\ writeBufferManagerCostToCache s = false /\
  fst (Config charge_params s) = inl e.
Proof.
  pose (s1 := snd (getWriteBufferManager (snd (Config charge_params DBSettings_new)))).
  pose (f0 := mkFlags false false).
  assert (H0 : set_reachable 2 (mkSetSys DBSettings_new [Before no_params f0] [] None)).
  { pose proof (sr_step 2 _ _ (sr_init 2) (st_size 2 DBSettings_new [] [] None no_params false _ ltac:(cbn; lia) eq_refl)) as H0.
    exact (sr_step 2 _ _ H0 (st_flags 2 DBSettings_new _ [] None no_params [] (reflexivity _))). }
  assert (H1 : set_reachable 2 (mkSetSys (snd (Config charge_params DBSettings_new)) [Before no_params f0] [] None)).
  { apply config_runs; [exact H0|cbn; lia]. }
  assert (H2 : set_reachable 2 (mkSetSys s1 [Before no_params f0] [] None)) by (eapply manager_runs; [reflexivity|exact H1]).
  assert (H3 := sr_step _ _ _ H2 (st_locked 2 s1 _ [] no_params f0 [] (reflexivity _))).
  assert (H4 := sr_step _ _ _ H3 (st_end 2 _ _ [] None no_params [] (reflexivity _))).
  eexists _, _. split; [exact H4|]. split; [eexists; split; reflexivity|]. split; reflexivity.
Qed.
