(* ===== verification/LogRefs.v ===== *)
(** * References to log objects

    [DBHandle::useLog], [unrefLog] and the part of [close] that drops the references,
    of [database/db_handle.cpp], with the finalizer of the class ([TransactionLog::
    Constructor], [TransactionLogHandle::close] and its destructor) and the untracked
    objects of [Transaction::UseLog].  The handle keeps a weak reference to the
    JavaScript object of each log, so that [useLog] gives the same object while it
    lives.

    All of it runs on the JavaScript thread; the garbage collector takes an object at
    any time and runs its finalizer later. *)

From S2P Require Import Prelude.
From stdpp Require Import base tactics list gmap strings fin_maps.
From Stdlib Require Import ZArith Lia.

Local Open Scope Z_scope.

(** ** State *)

Inductive ostage := OAlive | OCollected | OFinalized.

Record LogRefs := mkLogRefs {
  logRefs : gmap string Z;              (* name to napi_ref *)
  lr_heap : gmap Z Z;                   (* the references that exist, and their objects *)
  lr_objects : gmap Z (string * ostage);
  lr_next : Z;                          (* the next identity of a reference or an object *)
  lr_events : list string;              (* new-transaction-log, the latest first *)
  lr_bad : bool                         (* a reference that does not exist was used *)
}.

Definition set_bad (s : LogRefs) : LogRefs := mkLogRefs (logRefs s) (lr_heap s) (lr_objects s) (lr_next s) (lr_events s) true.

Definition napi_delete_reference (r : Z) (s : LogRefs) : LogRefs :=
  match lr_heap s !! r with
  | Some _ => mkLogRefs (logRefs s) (delete r (lr_heap s)) (lr_objects s) (lr_next s) (lr_events s) (lr_bad s)
  | None => set_bad s
  end.

Definition erase (name : string) (s : LogRefs) : LogRefs :=
  mkLogRefs (delete name (logRefs s)) (lr_heap s) (lr_objects s) (lr_next s) (lr_events s) (lr_bad s).

(** [napi_new_instance] of the class. *)
Definition new_instance (name : string) (s : LogRefs) : Z * LogRefs :=
  (lr_next s, mkLogRefs (logRefs s) (lr_heap s) (<[lr_next s := (name, OAlive)]> (lr_objects s)) (lr_next s + 1) (lr_events s) (lr_bad s)).

(** ** Operations *)

(** Where the N-API calls of [useLog] fail: before the object is made, when the
    reference is made, or nowhere. *)
Inductive outcome := NewFails | RefFails | NoFailure.

Definition make_log (out : outcome) (name : string) (s : LogRefs) : option Z * LogRefs :=
  match out with
  | NewFails => (None, s)
  | _ =>
      let '(o, s1) := new_instance name s in
      match out with
      | NoFailure =>
          let r := lr_next s1 in
          (Some o, mkLogRefs (<[name := r]> (logRefs s1)) (<[r := o]> (lr_heap s1)) (lr_objects s1) (r + 1) (name :: lr_events s1) (lr_bad s1))
      | _ => (None, s1)
      end
  end.

(** [napi_get_reference_value] gives no value for an object that was collected. *)
Definition useLog (out : outcome) (name : string) (s : LogRefs) : option Z * LogRefs :=
  match logRefs s !! name with
  | None => make_log out name s
  | Some r =>
      match lr_heap s !! r with
      | None => (None, set_bad s)
      | Some o =>
          match lr_objects s !! o with
          | Some (_, OAlive) => (Some o, s)
          | _ => make_log out name (erase name (napi_delete_reference r s))
          end
      end
  end.

Definition unrefLog (name : string) (s : LogRefs) : LogRefs :=
  match logRefs s !! name with
  | None => s
  | Some r => erase name (napi_delete_reference r s)
  end.

(** The references of [DBHandle::close]. *)
Definition close_logs (s : LogRefs) : LogRefs :=
  let s1 := foldr (fun e s => napi_delete_reference e.2 s) s (map_to_list (logRefs s)) in
  mkLogRefs ∅ (lr_heap s1) (lr_objects s1) (lr_next s1) (lr_events s1) (lr_bad s1).

(** [TransactionLogHandle::close]; [db]: the database handle still exists. *)
Definition log_close (db : bool) (name : string) (s : LogRefs) : LogRefs := if db then unrefLog name s else s.

(** The finalizer: [close], and again in the destructor. *)
Definition finalize_log (db : bool) (o : Z) (s : LogRefs) : LogRefs :=
  match lr_objects s !! o with
  | Some (name, _) =>
      let s1 := log_close db name (log_close db name s) in
      mkLogRefs (logRefs s1) (lr_heap s1) (<[o := (name, OFinalized)]> (lr_objects s1)) (lr_next s1) (lr_events s1) (lr_bad s1)
  | None => s
  end.

Definition collect_log (o : Z) (s : LogRefs) : LogRefs :=
  match lr_objects s !! o with
  | Some (name, _) => mkLogRefs (logRefs s) (lr_heap s) (<[o := (name, OCollected)]> (lr_objects s)) (lr_next s) (lr_events s) (lr_bad s)
  | None => s
  end.

Inductive lr_step : LogRefs -> LogRefs -> Prop :=
| lr_use s out name : lr_step s (snd (useLog out name s))
| lr_txn s name : lr_step s (snd (new_instance name s))               (* Transaction::UseLog *)
| lr_collect s o name : lr_objects s !! o = Some (name, OAlive) -> lr_step s (collect_log o s)
| lr_finalize s o name db : lr_objects s !! o = Some (name, OCollected) -> lr_step s (finalize_log db o s)
| lr_close s : lr_step s (close_logs s).

Definition lr_init : LogRefs := mkLogRefs ∅ ∅ ∅ 1 [] false.

Inductive lr_reachable : LogRefs -> Prop :=
| lrr_init : lr_reachable lr_init
| lrr_step s s' : lr_reachable s -> lr_step s s' -> lr_reachable s'.

(** ** Invariant *)

(** The references that exist are those of the map, one per name, and each is to an
    object of the log with that name. *)
Record refs_ok (s : LogRefs) : Prop := {
  ro_good : lr_bad s = false;
  ro_named : forall name r, logRefs s !! name = Some r -> exists o st, lr_heap s !! r = Some o /\ lr_objects s !! o = Some (name, st);
  ro_owned : forall r o, lr_heap s !! r = Some o -> exists name, logRefs s !! name = Some r;
  ro_once : forall n1 n2 r, logRefs s !! n1 = Some r -> logRefs s !! n2 = Some r -> n1 = n2;
  ro_fresh : forall r o, lr_heap s !! r = Some o -> r < lr_next s;
  ro_objects : forall o x, lr_objects s !! o = Some x -> o < lr_next s
}.

Lemma unref_ok name s : refs_ok s -> refs_ok (unrefLog name s).
Proof.
  intros [H1 H2 H3 H4 H5 H6]. unfold unrefLog. destruct (logRefs s !! name) as [r|] eqn:E; [|constructor; assumption].
  destruct (H2 _ _ E) as (o & st & Hr & Ho). unfold napi_delete_reference. rewrite Hr. constructor; cbn.
  - exact H1.
  - intros n r' (Hn & Hl)%lookup_delete_Some. destruct (H2 _ _ Hl) as (o' & st' & Hr' & Ho'). exists o', st'. split; [|exact Ho'].
    rewrite lookup_delete_ne; [exact Hr'|]. intros <-. exact (Hn (H4 _ _ _ E Hl)).
  - intros r' o' (Hn & Hl)%lookup_delete_Some. destruct (H3 _ _ Hl) as (n & Hl'). exists n. rewrite lookup_delete_ne; [exact Hl'|]. intros <-. congruence.
  - intros n1 n2 r' (_ & L1)%lookup_delete_Some (_ & L2)%lookup_delete_Some. exact (H4 _ _ _ L1 L2).
  - intros r' o' (_ & Hl)%lookup_delete_Some. exact (H5 _ _ Hl).
  - exact H6.
Qed.

Lemma unref_gone name s : logRefs (unrefLog name s) !! name = None.
Proof. unfold unrefLog. destruct (logRefs s !! name) as [r|] eqn:E; [|exact E]. cbn. apply lookup_delete_eq. Qed.

Lemma new_ok name s : refs_ok s -> refs_ok (snd (new_instance name s)).
Proof.
  intros [H1 H2 H3 H4 H5 H6]. constructor; cbn; [exact H1| |exact H3|exact H4| |].
  - intros n r Hn. destruct (H2 _ _ Hn) as (o & st & Hr & Ho). exists o, st. split; [exact Hr|]. rewrite lookup_insert_ne; [exact Ho|].
    pose proof (H6 _ _ Ho). lia.
  - intros r o Hr. pose proof (H5 _ _ Hr). lia.
  - intros o x [(<- & _)|(_ & Ho)]%lookup_insert_Some; [lia|]. pose proof (H6 _ _ Ho). lia.
Qed.

Lemma make_ok out name s : refs_ok s -> logRefs s !! name = None -> refs_ok (snd (make_log out name s)).
Proof.
  intros H Hn. destruct (new_ok name s H) as [H1 H2 H3 H4 H5 H6]. destruct out; [exact H|constructor; assumption|]. constructor; cbn in *.
  - exact H1.
  - intros n r [(<- & <-)|(Hne & Hl)]%lookup_insert_Some.
    + exists (lr_next s), OAlive. split; apply lookup_insert_eq.
    + destruct (H2 _ _ Hl) as (o & st & Hr & Ho). exists o, st. split; [|exact Ho]. rewrite lookup_insert_ne; [exact Hr|]. pose proof (H5 _ _ Hr). lia.
  - intros r o [(<- & _)|(_ & Hr)]%lookup_insert_Some; [exists name; apply lookup_insert_eq|]. destruct (H3 _ _ Hr) as (n & Hl). exists n.
    rewrite lookup_insert_ne; [exact Hl|]. intros <-. congruence.
  - intros n1 n2 r [(<- & <-)|(Hn1 & L1)]%lookup_insert_Some [(<- & E2)|(Hn2 & L2)]%lookup_insert_Some; [reflexivity| | |exact (H4 _ _ _ L1 L2)].
    + destruct (H2 _ _ L2) as (o & st & Hr & _). pose proof (H5 _ _ Hr). lia.
    + subst r. destruct (H2 _ _ L1) as (o & st & Hr & _). pose proof (H5 _ _ Hr). lia.
  - intros r o [(<- & _)|(_ & Hr)]%lookup_insert_Some; [lia|]. pose proof (H5 _ _ Hr). lia.
  - intros o x Ho. pose proof (H6 _ _ Ho). lia.
Qed.

Lemma delete_references (l : list (string * Z)) s : NoDup l.*2 -> (forall e, e ∈ l -> is_Some (lr_heap s !! e.2)) ->
  let s1 := foldr (fun e s => napi_delete_reference e.2 s) s l in
  lr_bad s1 = lr_bad s /\ lr_objects s1 = lr_objects s /\ lr_next s1 = lr_next s /\
  (forall r o, lr_heap s1 !! r = Some o -> lr_heap s !! r = Some o /\ r ∉ l.*2) /\
  (forall r, r ∉ l.*2 -> lr_heap s1 !! r = lr_heap s !! r).
Proof.
  induction l as [|[n r] l IH]; cbn [foldr fmap list_fmap]; intros Hnd Hin.
  - repeat split; auto. apply not_elem_of_nil.
  - apply NoDup_cons in Hnd as (Hr & Hnd). destruct (IH Hnd ltac:(intros e He; apply Hin, list_elem_of_further, He)) as (E1 & E2 & E3 & E4 & E5).
    cbn [snd] in *. generalize dependent (foldr (fun (e : string * Z) s => napi_delete_reference e.2 s) s l). intros s1 _ E1 E2 E3 E4 E5.
    destruct (Hin (n, r) (list_elem_of_here _ _)) as (o & Ho). cbn in Ho. unfold napi_delete_reference. rewrite (E5 r Hr), Ho. cbn.
    split; [exact E1|]. split; [exact E2|]. split; [exact E3|]. split.
    + intros r' o' (Hne & Hl)%lookup_delete_Some. destruct (E4 _ _ Hl) as (H1 & H2). split; [exact H1|]. apply not_elem_of_cons. auto.
    + intros r' (Hne & Hl)%not_elem_of_cons. rewrite lookup_delete_ne by congruence. exact (E5 r' Hl).
Qed.

Lemma close_ok s : refs_ok s -> refs_ok (close_logs s) /\ lr_heap (close_logs s) = ∅.
Proof.
  intros [H1 H2 H3 H4 H5 H6].
  assert (Hnd : NoDup (map_to_list (logRefs s)).*2).
  { apply NoDup_fmap_2_strong; [|apply NoDup_map_to_list]. intros [n1 r1] [n2 r2] L1%elem_of_map_to_list L2%elem_of_map_to_list E. cbn in E. subst r2.
    rewrite (H4 _ _ _ L1 L2). reflexivity. }
  assert (Hin : forall e, e ∈ map_to_list (logRefs s) -> is_Some (lr_heap s !! e.2)).
  { intros [n r] L%elem_of_map_to_list. destruct (H2 _ _ L) as (o & st & Hr & _). eauto. }
  destruct (delete_references _ s Hnd Hin) as (E1 & E2 & E3 & E4 & _).
  assert (He : lr_heap (close_logs s) = ∅).
  { apply map_eq. intros r. rewrite lookup_empty. apply eq_None_not_Some. intros (o & Ho). destruct (E4 _ _ Ho) as (Hr & Hn).
    destruct (H3 _ _ Hr) as (n & Hl). apply Hn, list_elem_of_fmap. exists (n, r). split; [reflexivity|]. apply elem_of_map_to_list, Hl. }
  split; [|exact He]. constructor; [exact (eq_trans E1 H1)| | | | |]; try rewrite He; cbn.
  - intros n r. rewrite lookup_empty. discriminate.
  - intros r o. rewrite lookup_empty. discriminate.
  - intros n1 n2 r. rewrite lookup_empty. discriminate.
  - intros r o. rewrite lookup_empty. discriminate.
  - rewrite E2, E3. exact H6.
Qed.

(** The stage of an object does not matter to the references. *)
Lemma stage_ok o name st st' s : refs_ok s -> lr_objects s !! o = Some (name, st) ->
  refs_ok (mkLogRefs (logRefs s) (lr_heap s) (<[o := (name, st')]> (lr_objects s)) (lr_next s) (lr_events s) (lr_bad s)).
Proof.
  intros [H1 H2 H3 H4 H5 H6] Ho. constructor; cbn; try assumption.
  - intros n r Hn. destruct (H2 _ _ Hn) as (o' & st2 & Hr & Ho'). destruct (decide (o = o')) as [<-|Hne].
    + exists o, st'. split; [exact Hr|]. rewrite lookup_insert_eq. congruence.
    + exists o', st2. split; [exact Hr|]. rewrite lookup_insert_ne by exact Hne. exact Ho'.
  - intros o' x [(<- & _)|(_ & Hl)]%lookup_insert_Some; [exact (H6 _ _ Ho)|exact (H6 _ _ Hl)].
Qed.

Lemma unref_objects name s : lr_objects (unrefLog name s) = lr_objects s.
Proof. unfold unrefLog. destruct (logRefs s !! name); [|reflexivity]. unfold napi_delete_reference. destruct (lr_heap s !! _); reflexivity. Qed.

Lemma log_close_ok db name s : refs_ok s -> refs_ok (log_close db name s) /\ lr_objects (log_close db name s) = lr_objects s.
Proof. intros H. destruct db; cbn; [split; [exact (unref_ok name s H)|apply unref_objects]|auto]. Qed.

Lemma finalize_ok db o s : refs_ok s -> refs_ok (finalize_log db o s).
Proof.
  intros H. unfold finalize_log. destruct (lr_objects s !! o) as [[name st]|] eqn:E; [|exact H].
  destruct (log_close_ok db name s H) as (K1 & E1). destruct (log_close_ok db name _ K1) as (K2 & E2).
  apply (stage_ok o name st); [exact K2|]. rewrite E2, E1. exact E.
Qed.

(** What [useLog] returns: the object of the reference, or one that is made after the
    stale reference was dropped. *)
Lemma use_cases out name s : refs_ok s ->
  (exists r o, logRefs s !! name = Some r /\ lr_heap s !! r = Some o /\ lr_objects s !! o = Some (name, OAlive) /\ useLog out name s = (Some o, s)) \/
  useLog out name s = make_log out name (unrefLog name s).
Proof.
  intros [H1 H2 H3 H4 H5 H6]. unfold useLog, unrefLog. destruct (logRefs s !! name) as [r|] eqn:E; [|auto].
  destruct (H2 _ _ E) as (o & st & Hr & Ho). rewrite Hr, Ho. destruct st; [|auto..]. left. exists r, o. auto.
Qed.

Lemma use_ok out name s : refs_ok s -> refs_ok (snd (useLog out name s)).
Proof.
  intros H. destruct (use_cases out name s H) as [(r & o & _ & _ & _ & ->)| ->]; [exact H|]. apply make_ok; [exact (unref_ok name s H)|apply unref_gone].
Qed.

Lemma lr_step_ok s s' : refs_ok s -> lr_step s s' -> refs_ok s'.
Proof.
  intros H Hs. destruct Hs as [s out name|s name|s o name Ho|s o name db Ho|s];
    [exact (use_ok _ _ _ H)|exact (new_ok _ _ H)| |exact (finalize_ok _ _ _ H)|exact (proj1 (close_ok s H))].
  unfold collect_log. rewrite Ho. exact (stage_ok _ _ _ _ _ H Ho).
Qed.

Lemma lr_reachable_ok s : lr_reachable s -> refs_ok s.
Proof.
  induction 1 as [|s s' _ IH Hs]; [|exact (lr_step_ok _ _ IH Hs)]. constructor; cbn; [reflexivity|..]; intros *; rewrite lookup_empty; discriminate.
Qed.

(** The references to log objects are sound.  Over every sequence of calls and of
    collections and finalizers in any order, no reference is used or deleted after it
    was deleted, the references that exist are exactly those of the map (none leaks,
    and a close deletes them all), and [useLog] returns a living object of the log it
    was asked for, which the next call returns again, without a second event. *)
Theorem log_refs_safe s name : lr_reachable s ->
  lr_bad s = false /\ (forall r, is_Some (lr_heap s !! r) <-> exists n, logRefs s !! n = Some r) /\
  lr_heap (close_logs s) = ∅ /\
  forall out o s', useLog out name s = (Some o, s') -> lr_objects s' !! o = Some (name, OAlive) /\ useLog out name s' = (Some o, s').
Proof.
  intros H%lr_reachable_ok. split; [exact (ro_good s H)|]. split; [|split; [exact (proj2 (close_ok s H))|]].
  - intros r. split; [intros (o & Ho); exact (ro_owned s H r o Ho)|]. intros (n & Hn). destruct (ro_named s H n r Hn) as (o & st & Hr & _). eauto.
  - intros out o s' E. destruct (use_cases out name s H) as [(r & o' & _ & _ & Ho & E')|E']; rewrite E' in E.
    + injection E as <- <-. split; [exact Ho|exact E'].
    + destruct out; cbn in E; try discriminate. injection E as <- <-. split; cbn; [apply lookup_insert_eq|].
      unfold useLog. cbn. rewrite lookup_insert_eq. cbn. rewrite lookup_insert_eq. cbn. rewrite lookup_insert_eq. reflexivity.
Qed.

(** ** Runs *)

Definition two_logs : LogRefs := snd (new_instance "foo" (snd (useLog NoFailure "foo" lr_init))).

Lemma two_logs_reachable : lr_reachable two_logs.
Proof. eapply lrr_step; [eapply lrr_step; [constructor|apply (lr_use lr_init NoFailure "foo")]|apply lr_txn]. Qed.

(** The object of a transaction is collected: its finalizer drops the reference to the
    object of the database, which lives, and [useLog] makes another and announces the
    log again. *)
Example txn_log_drops_reference : exists s o1 o2, lr_reachable s /\ o1 <> o2 /\
  lr_objects s !! o1 = Some ("foo", OAlive) /\ lr_objects s !! o2 = Some ("foo", OAlive) /\ logRefs s !! "foo" <> None /\ lr_events s = ["foo"; "foo"].
Proof.
  exists (snd (useLog NoFailure "foo" (finalize_log true 3 (collect_log 3 two_logs)))), 1, 4.
  split; [|repeat split; vm_compute; congruence].
  eapply lrr_step; [eapply lrr_step; [eapply lrr_step; [exact two_logs_reachable|]|]|].
  - apply (lr_collect two_logs 3 "foo"). reflexivity.
  - apply (lr_finalize _ 3 "foo" true). reflexivity.
  - apply lr_use.
Qed.
