(* ===== verification/Arguments.v ===== *)
(** * Keys and names as arguments

    [getNapiBufferFromArg], [getKeyFromProperty] and [getSliceFromArg] of
    [napi/helpers.cpp] and [getString] of [napi/helpers.h]: how a key or a name that
    JavaScript gives becomes bytes.  A Buffer may carry [start] and [end]; a key may
    also be a number, the length of what JavaScript has written to the key buffer that
    the handle shares with it.

    The N-API calls are assumed to work on values of the right type; their results on
    other values are in the types below. *)

From S2P Require Import Prelude Encoding.
From stdpp Require Import base tactics list strings.
From coqutil Require Import Byte.
From Stdlib Require Import ZArith Lia.

Local Open Scope Z_scope.

(** ** Values *)

(** A property that [napi_get_value_uint32] reads: missing, a number, or not one. *)
Inductive named := NMissing | NNumber (n : Z) | NOther.

(** A Buffer; an empty one may have a null pointer. *)
Record Buffer := mkBuf { bu_bytes : bytes; bu_null : bool; bu_start : named; bu_end : named }.

Definition bu_length (b : Buffer) : Z := Z.of_nat (length (bu_bytes b)).

Inductive arg := AUndefined | ANumber (n : Z) | AString (s : bytes) | ABuffer (b : Buffer) | AOther.

(** What the callers use of a buffer: the data with [start], [end] and [length]. *)
Record view := mkView { v_data : bytes; v_start : Z; v_end : Z; v_length : Z }.

(** [std::string(data + start, end - start)] *)
Definition view_bytes (v : view) : bytes := take (Z.to_nat (v_end v - v_start v)) (drop (Z.to_nat (v_start v)) (v_data v)).

(** ** Operations *)

(** The value read from a property, or the status; [missing] is the value without it. *)
Definition read_uint32 (missing : Z) (n : named) : string + Z :=
  match n with
  | NMissing => inr missing
  | NNumber n => inr (u32 n)
  | NOther => inl "A number was expected"
  end.

(** [RANGE_CHECK], three times. *)
Definition range_checks (start end_ len : Z) : option string :=
  if end_ <? start then Some "Buffer start greater than end"
  else if len <? start then Some "Buffer start greater than length"
  else if len <? end_ then Some "Buffer end greater than length"
  else None.

(** [end] is a [uint32_t]: without the property it is the low 32 bits of the length. *)
Definition buffer_range (b : Buffer) : string + (Z * Z) :=
  match read_uint32 0 (bu_start b) with
  | inl e => inl e
  | inr start =>
      match read_uint32 (u32 (bu_length b)) (bu_end b) with
      | inl e => inl e
      | inr end_ =>
          match range_checks start end_ (bu_length b) with
          | Some e => inl e
          | None => inr (start, end_)
          end
      end
  end.

(** [inl]: the null pointer, with the exception. *)
Definition getNapiBufferFromArg (a : arg) (errorMsg : string) : string + view :=
  match a with
  | ABuffer b =>
      match buffer_range b with
      | inl e => inl e
      | inr (start, end_) => inr (mkView (if bu_null b then [] else bu_bytes b) start end_ (bu_length b))
      end
  | _ => inl errorMsg
  end.

(** [inl]: a status that is not [napi_ok]. *)
Definition getString (a : arg) : string + bytes :=
  match a with
  | AString s => inr s
  | ABuffer b =>
      if bu_null b then inr []
      else
        match buffer_range b with
        | inl e => inl e
        | inr (start, end_) => inr (view_bytes (mkView (bu_bytes b) start end_ (bu_length b)))
        end
  | _ => inl "Invalid argument"
  end.

(** The status ([false]: [napi_invalid_arg]), the exception that is left, and what is
    assigned to [keyStr]: nothing, the null pointer, or a key. *)
Definition getKeyFromProperty (a : arg) (errorMsg : string) : bool * option string * option (option view) :=
  match a with
  | AUndefined => (true, None, None)
  | ABuffer _ =>
      match getNapiBufferFromArg a errorMsg with
      | inl e => (true, Some e, Some None)
      | inr v => (true, None, Some (Some v))
      end
  | _ => (false, Some errorMsg, None)
  end.

(** [rocksdb::Slice]: a pointer to the start of the memory, and a size. *)
Inductive source := FromDefault | FromArg.
Record Slice := mkSlice { sl_from : source; sl_size : Z }.

Definition i32 (z : Z) : Z := (z + 2 ^ 31) mod 2 ^ 32 - 2 ^ 31.

(** The [int32_t] length is converted to the [size_t] of the slice. *)
Definition getSliceFromArg (a : arg) (errorMsg : string) : string + Slice :=
  match a with
  | ANumber n => inr (mkSlice FromDefault (u64 (i32 n)))
  | ABuffer b => inr (mkSlice FromArg (u64 (i32 (bu_length b))))
  | _ => inl errorMsg
  end.

(** The memory behind a slice, and the bytes read through it. *)
Definition slice_memory (default : bytes) (a : arg) (s : Slice) : bytes :=
  match sl_from s, a with
  | FromDefault, _ => default
  | FromArg, ABuffer b => bu_bytes b
  | FromArg, _ => []
  end.

(** The bytes, when they are all inside the memory. *)
Definition slice_bytes (default : bytes) (a : arg) (s : Slice) : option bytes :=
  let m := slice_memory default a s in
  if sl_size s <=? Z.of_nat (length m) then Some (take (Z.to_nat (sl_size s)) m) else None.

(** ** Bounds *)

Lemma range_checks_none start end_ len : range_checks start end_ len = None <-> start <= end_ <= len.
Proof.
  unfold range_checks. destruct (Z.ltb_spec end_ start), (Z.ltb_spec len start), (Z.ltb_spec len end_); split; intros; first [discriminate|lia|reflexivity].
Qed.

Lemma read_uint32_nonneg d n x : 0 <= d -> read_uint32 d n = inr x -> 0 <= x.
Proof. intros Hd. destruct n; cbn; intros [= <-]; [exact Hd|]. unfold u32. apply Z.mod_pos_bound. lia. Qed.

Lemma buffer_range_spec b start end_ : buffer_range b = inr (start, end_) <->
  read_uint32 0 (bu_start b) = inr start /\ read_uint32 (u32 (bu_length b)) (bu_end b) = inr end_ /\ start <= end_ <= bu_length b.
Proof.
  unfold buffer_range. rewrite <- range_checks_none. destruct (read_uint32 0 (bu_start b)) as [e|s0]; [split; [discriminate|intros (H & _); discriminate H]|].
  destruct (read_uint32 (u32 (bu_length b)) (bu_end b)) as [e|e0]; [split; [discriminate|intros (_ & H & _); discriminate H]|].
  destruct (range_checks s0 e0 (bu_length b)) as [e|] eqn:E; split.
  - discriminate.
  - intros ([= ->] & [= ->] & H). congruence.
  - intros [= -> ->]. auto.
  - intros ([= ->] & [= ->] & _). reflexivity.
Qed.

(** A key that was accepted is inside its buffer.  Whatever [start] and [end]
    JavaScript gives, the bytes that the callers take are exactly those from [start]
    to [end] of the buffer, and the same that [getString] takes; a range that is
    empty the wrong way or ends outside of the buffer is refused. *)
Theorem buffer_argument_in_bounds b v msg : (bu_null b = true -> bu_bytes b = []) ->
  getNapiBufferFromArg (ABuffer b) msg = inr v ->
  0 <= v_start v <= v_end v /\ v_end v <= v_length v /\ v_data v = bu_bytes b /\ v_length v = Z.of_nat (length (v_data v)) /\
  Z.of_nat (length (view_bytes v)) = v_end v - v_start v /\ getString (ABuffer b) = inr (view_bytes v) /\
  (forall i, 0 <= i < v_end v - v_start v -> view_bytes v !! Z.to_nat i = bu_bytes b !! Z.to_nat (v_start v + i)).
Proof.
  intros Hnull. unfold getNapiBufferFromArg, getString. destruct (buffer_range b) as [e|[start end_]] eqn:E; [discriminate|].
  intros [= <-]. pose proof E as E'. apply buffer_range_spec in E' as (Hs & He & Hle). apply read_uint32_nonneg in Hs; [|lia].
  assert (Ed : (if bu_null b then [] else bu_bytes b) = bu_bytes b) by (destruct (bu_null b); [symmetry; auto|reflexivity]).
  cbn [v_start v_end v_length v_data]. rewrite Ed. unfold bu_length in Hle.
  split; [lia|]. split; [unfold bu_length; lia|]. split; [reflexivity|]. split; [reflexivity|]. split; [|split].
  - unfold view_bytes. cbn. rewrite length_take, length_drop. lia.
  - destruct (bu_null b) eqn:En; [|reflexivity]. unfold view_bytes. cbn. rewrite (Hnull eq_refl), drop_nil, take_nil. reflexivity.
  - intros i Hi. unfold view_bytes. cbn. rewrite lookup_take_lt by lia. rewrite lookup_drop. f_equal. lia.
Qed.

(** A buffer without [start] and [end] is the whole key, below 4 GiB. *)
Lemma whole_buffer data msg : Z.of_nat (length data) < 2 ^ 32 ->
  exists v, getNapiBufferFromArg (ABuffer (mkBuf data false NMissing NMissing)) msg = inr v /\ view_bytes v = data.
Proof.
  intros Hl. assert (Eu : u32 (Z.of_nat (length data)) = Z.of_nat (length data)) by (unfold u32; apply Z.mod_small; lia).
  exists (mkView data 0 (Z.of_nat (length data)) (Z.of_nat (length data))). split.
  - unfold getNapiBufferFromArg. replace (buffer_range _) with (inr (A := string) (0, Z.of_nat (length data))); [reflexivity|].
    symmetry. apply buffer_range_spec. cbn. unfold bu_length. cbn. rewrite Eu. repeat split; lia.
  - unfold view_bytes. cbn. rewrite drop_0, Z.sub_0_r, Nat2Z.id. apply take_ge. lia.
Qed.

(** From 4 GiB on, the key is cut to the low 32 bits of its length. *)
Lemma large_buffer_cut data msg : 2 ^ 32 <= Z.of_nat (length data) < 2 ^ 33 ->
  exists v, getNapiBufferFromArg (ABuffer (mkBuf data false NMissing NMissing)) msg = inr v /\
    Z.of_nat (length (view_bytes v)) = Z.of_nat (length data) - 2 ^ 32.
Proof.
  intros Hl. set (n := Z.of_nat (length data)) in *. assert (Eu : u32 n = n - 2 ^ 32).
  { unfold u32. replace n with (n - 2 ^ 32 + 1 * 2 ^ 32) at 1 by lia. rewrite Z.mod_add, Z.mod_small by lia. reflexivity. }
  exists (mkView data 0 (n - 2 ^ 32) n). split.
  - unfold getNapiBufferFromArg. replace (buffer_range _) with (inr (A := string) (0, n - 2 ^ 32)); [reflexivity|].
    symmetry. apply buffer_range_spec. cbn. unfold bu_length. cbn. fold n. rewrite Eu. repeat split; lia.
  - unfold view_bytes. cbn. rewrite length_take, length_drop. lia.
Qed.

(** A slice of a key is inside its memory when JavaScript gives the length of what it
    has written, and for a Buffer below 2 GiB. *)
Lemma slice_in_bounds default a msg s : getSliceFromArg a msg = inr s ->
  match a with
  | ANumber n => 0 <= n <= Z.of_nat (length default) /\ n < 2 ^ 31
  | ABuffer b => bu_length b < 2 ^ 31
  | _ => True
  end ->
  slice_bytes default a s = Some (match a with ANumber n => take (Z.to_nat n) default | ABuffer b => bu_bytes b | _ => [] end).
Proof.
  assert (Hi : forall z, 0 <= z < 2 ^ 31 -> u64 (i32 z) = z) by (intros z Hz; unfold i32, u64; rewrite (Z.mod_small (z + 2 ^ 31)) by lia; rewrite Z.mod_small; lia).
  destruct a as [|n| |b|]; cbn [getSliceFromArg]; intros [= <-] H; unfold slice_bytes, slice_memory; cbn [sl_from sl_size].
  - rewrite Hi by lia. destruct (Z.leb_spec n (Z.of_nat (length default))); [reflexivity|lia].
  - unfold bu_length in *. rewrite Hi by lia. rewrite Z.leb_refl, Nat2Z.id, firstn_all. reflexivity.
Qed.

(** ** Runs *)

Definition abc : Buffer := mkBuf [Byte.x61; Byte.x62; Byte.x63] false (NNumber 1) NMissing.

Example abc_key : exists v, getNapiBufferFromArg (ABuffer abc) "key" = inr v /\ view_bytes v = [Byte.x62; Byte.x63].
Proof. eexists. split; reflexivity. Qed.

(** A number that is not a length of the key buffer is taken as it is: the slice ends
    outside of the memory. *)
Example key_length_unchecked :
  getSliceFromArg (ANumber 100) "Key must be a buffer" = inr (mkSlice FromDefault 100) /\
  slice_bytes [Byte.x61] (ANumber 100) (mkSlice FromDefault 100) = None /\
  getSliceFromArg (ANumber (-1)) "Key must be a buffer" = inr (mkSlice FromDefault (2 ^ 64 - 1)).
Proof. repeat split; reflexivity. Qed.

(** A key property with a bad range: the status is good and the exception is left. *)
Example bad_range_is_ok : getKeyFromProperty (ABuffer (mkBuf [Byte.x61] false (NNumber 2) NMissing)) "Invalid start key" =
  (true, Some "Buffer start greater than end", Some None).
Proof. reflexivity. Qed.
